(* ===== verification/_CoqProject ===== *)
-Q . S2P
Prelude.v
GoStrings.v
Runtime.v
Naming.v
Passport.v
PassportProofs.v
PassportProps.v
PathAccess.v
ControlTickets.v
ControlBackend.v
ControlProps.v
ServerBase.v
RealmRecords.v
RealmProps.v
LockAuthority.v
LockProps.v
ServerHost.v
Preparations.v
PreparationProps.v
LockReleases.v
LockReleaseProps.v
ClientView.v
Publisher.v
PublisherWorld.v
PublisherProofs.v
PublisherRebuild.v
PublisherInvariants.v
PublisherProps.v
PublisherDemo.v
SessionLeases.v
SessionProps.v
Activation.v
ActivationWorld.v
ActivationProps.v
SessionDemo.v
Executions.v
ExecutionWorld.v
ExecutionProofs.v
ExecutionProps.v
Supervisor.v
AnchorQueue.v
AnchorQueueProps.v
PathOwnership.v
Reducer.v
