(* ===== verification/Prelude.v ===== *)
(** * FileES: a verification library

    FileES is a file-synchronisation system over Subversion.  A desktop daemon
    ([cmd/filees]) keeps working copies in step with repositories and lends files
    for editing under repository locks; a desktop program ([internal/gui],
    [cmd/filees-gui-wails]) shows its state; a server side ([pkg/repoworker],
    [internal/servertool]) answers a control channel over SSH; a public site
    ([public-shares]) publishes selected files.  This library models the decision
    logic of the daemon and of the shared rules, the parts whose errors lose work
    or grant access, and proves them correct.  It is a shallow embedding: each Go
    function is a Rocq function with the source's branches in the source's order.

    ** How the modelled parts interact

    On the client, the supervisor starts one pipeline per attached repository.  A
    pipeline asks the admission gate before each operation and the pause gate
    before each commit or poll.  A commit passes the passport manager, which fences
    it with the lock token it holds; the manager obtains locks through the
    control-channel backend and adjusts local write access from the observed path
    ownership, which the server derives from the revision log.  Releases of
    placeholder files wait in the anchor queue.  The desktop program folds the
    daemon's snapshots and events in its reducer.  Upload names, slugs, aliases and
    portable path rules are shared vocabulary.

    On the server, an installation is staged, proves possession of its key, is
    published and may claim supervised sessions until it is revoked.  A request of
    the control channel is authorized from the canonical records (clients, realms,
    repositories, grants); a passport acquisition is armed, admitted by the
    pre-lock hook and settled against the lock svnadmin reports, a replacement is
    prepared by releasing the observed lock first, and a holder may be asked to
    release a lock.  The publisher changes the canonical records and derives from
    them the view of every client and the authz file; before it takes access away
    it has the sessions of the realm stopped by the session barrier.

    ** Files

    - [Prelude]: results, the state monad [M] ([let!], [do!]), the monad [MC] of a
      process that may die ([let*], [do*]) with its weakest preconditions [wpc],
      early-return validation ([>>?], [let?]), time, tactics, the hint base.
    - [GoStrings]: the Go strings, unicode/utf8 and path/filepath functions the
      source uses, byte for byte on [String.string]; Unicode case tables outside
      ASCII are the class [UnicodeTables].
    - [Runtime], pkg/runtime: Module [Admission] (admission.go) with goroutine
      interleavings as a step relation over its atomic critical sections, Module
      [SyncPause] (sync_pause.go).
    - [Naming]: Modules [Slug] (public-shares/slug), [RealmAlias] (pkg/realmalias),
      [PortablePath] (pkg/portablepath), [NamingPolicy] (pkg/namingpolicy).
    - [Passport], pkg/passport: the edit-passport manager (manager.go, pending.go,
      ownership.go, release_receipt.go, acquisition_receipt.go,
      heartbeat_observation.go, execution_recovery.go).  [PassportProofs] holds
      its invariants, one rule per method; [PassportProps] the histories and the
      theorems, with a concrete world in Module [Demo].
    - [PathAccess]: [AutoUnlockOwned] and [reconcilePathAccess], the walk that sets
      and clears local write bits.
    - [ControlTickets], pkg/control/v1 and pkg/controlclient (their passport
      parts): tickets, receipts and exchanges.  [ControlBackend]:
      [ControlSVNBackend] (control_backend.go, svn_backend.go and the receivers in
      the files above).  [ControlProps]: the contract between manager and backend,
      its implementation, and what is sent.
    - [ServerBase], pkg/repoworker: errors, identifiers, paths, the mortal process.
      [RealmRecords]: the canonical records and the authorization taken from them
      (authority.go, realm_alias.go, realm_grants.go, archive_policy.go,
      passport_replacement.go); [RealmProps].
    - [LockAuthority] (lock_release_authority.go, lock_guards.go): svnadmin locks
      and their report; [LockProps].  [ServerHost]: what the remaining server files
      ask of the host (files, locks, processes).
    - [Executions] (passport_executions.go, passport_scheduled_reap.go): the
      acquisition gate; [ExecutionWorld] (a recorded world and the schedules of its
      processes), [ExecutionProofs], [ExecutionProps].
    - [Preparations] (passport_preparations.go, passport_cancellation.go,
      [Prepare]); [PreparationProps].
    - [LockReleases] (lock_release_store.go, lock_release_worker.go,
      lock_release_maintenance.go); [LockReleaseProps].
    - [ClientView], pkg/clientview/view.go: views, validation, [StoreIfNewer].
    - [Publisher] (realm_grants.go, authority.go, shelf_parent.go): the authority
      over repositories and grants.  [PublisherWorld] states the laws of an honest
      disk and a Hoare triple over it, [PublisherProofs] one rule per call,
      [PublisherRebuild] the rebuild, [PublisherInvariants] what every operation
      keeps, [PublisherProps] the theorems, [PublisherDemo] a disk in memory.
    - [SessionLeases], pkg/activation (session_lease_unix.go, lock_unix.go,
      session_barrier_unix.go): leases, the activation lock, the barrier;
      [SessionProps].
    - [Activation], pkg/activation (activation.go, realm_removal.go):
      installations.  [ActivationWorld] is the rely condition between processes,
      [ActivationProps] the guarantee and the theorems.  [SessionDemo] has concrete
      worlds for both.
    - [Supervisor], pkg/reposupervisor: Modules [Supervisor] (supervisor.go) and
      [Managed] (instance.go).
    - [AnchorQueue], pkg/anchorqueue (store.go, runner.go) and the readiness
      callback of cmd/filees/explorer_anchor_queue_windows.go; proofs and theorems in
      [AnchorQueueProps].
    - [PathOwnership], pkg/pathownership (history.go): the replay of a log.
    - [Reducer], internal/gui/app (reducer.go, model.go): the desktop state.

    ** What the theorems show

    - Admission: after a drain nothing tracked runs and nothing is
      admitted until its holder resumes, in every interleaving; no channel is
      closed twice and the counter is exact; a waiting drain wakes.
    - Pause: publications are exclusive; a granted editor lease fences
      every other commit.
    - Names: canonical slugs, injective public paths, the portability
      verdict as an equivalence, sound collision answers, canonical and confined
      upload targets, portable but for reserved device stems.
    - Passports: along every history of calls, each cut off at any
      point and each answered arbitrarily by the world: remote mutations are
      journaled first, an intent sends at most one acquisition, memory covers the
      store, no lease outlives its hard deadline, releases end in one of two
      ways, authorization and lock replacement are sound, a restart never refuses
      the store the manager left and restores it, path arguments are canonical.
    - Supervisor: pipelines of one repository never overlap, an applied
      projection is exact, a refused one has no effect, a suspension is complete,
      stopping is a completion boundary.
    - Anchor queue: at most one effective execution per admission, with
      confirmations enqueued between any two steps of the runner, a
      bounded well-formed file, a file that always reopens, no pending work lost.
    - Ownership history: unique object identifiers, faithful first
      committers.
    - Reducer: the confirmation barrier, gapless event runs, worst
      answered source, worst icon.
    - Write access: granted only by the ownership answer or the lock actually
      read, and revoked wherever none is left.
    - Backend: the contract the manager relies on is implemented, and
      each method sends only what its intent, or its own arguments, license.
    - Acquisition gate: in every interleaving of requests, hooks, executors and
      reapers one acquisition takes at most one lock, its record only advances, a
      closed one takes none, and closing leaves no lock behind when none is taken
      meanwhile; an example shows that the proviso is needed.
    - Preparations: one release per operation, final answers, and no release
      without authority.
    - Release requests: answered by the holder only, well typed at rest, decisions
      stand for their time.
    - Authorization and lock report: [authorizeAccess] is exact; a printed report
      parses back.
    - Publisher: a rebuild is exact, views never roll back, grants stay valid,
      access is reduced inside the barrier only, a revocation that answers success
      is complete, a regrant keeps the ownership boundary or moves it to the
      repository's head; a projected release request blocks a revocation, and
      creating a repository rewrites the authz file without any granted right.
    - Sessions: the barrier publishes only when no session of the realm is left,
      and it ends.
    - Activation: installations only advance, a closed one claims no session, a
      fenced realm gains none; an expired one blocks the revocation of its realm.

    ** Conventions and bounds

    A Go error is a constructor of the component's error type; its text is not
    modelled.  A file in JSON is the value its document denotes: indentation is not
    modelled, and raw JSON kept in a record is a JSON value.  Of UUID parsing the
    publisher relies on the documented forms only ([PublisherRebuild.UuidText]).  The clock, the network, the file system, svn, UUIDs, the JSON codec
    and the death of the process are fields of classes ([Env], [Starter], [Wire],
    [AccessEnv], [Mortal], [Records], [Service], [SessionFiles], ...): theorems
    hold for every instance, and each theorem with a hypothesis is applied to a
    concrete one.  Where a theorem needs the world to be honest, the laws are a
    class of their own ([HonestDisk], [HonestSessions], [HonestStore]) with an
    instance in a Demo file.  Code under a mutex is one atomic step; where the
    source releases the lock in between, the steps are separate and interleave.
    Instants are integers of nanoseconds, durations saturate at 64 bits as in Go.
    Recursion is structural except in three places.  The trimming of whitespace
    takes the length of the string as fuel: each round removes at least one byte.
    The polling loops of the activation lock and of the session barrier take fuel
    from the caller; [SessionProps.barrier_terminates] shows that 751 rounds (15 s
    in steps of 20 ms, and the last look) are enough.

    ** What is not modelled

    Ticker loops and goroutine start-up around the components; svn, SSH, HTTP and
    shell calls and, the lock report apart, the parsing of their output;
    configuration files; templates, windows and the mobile application; installers
    and updaters.  Of the server, the durable backend that creates, loads and
    deletes repositories with svnadmin, upload channels, and the commits to the
    service working copy, which are calls into the world.  The commit engine
    ([pkg/commit]), the watcher, the history index and the public site interleave
    such calls with long file-system scans and would need a model of the working
    copy itself. *)
From stdpp Require Export base tactics option list sorting gmap sets strings.
From Stdlib Require Export ZArith Lia.

(** ** Results: Go's pair (value, error) *)
Inductive result (E A : Type) : Type :=
| Ok (a : A)
| Err (e : E).
Arguments Ok {E A} a.
Arguments Err {E A} e.

Definition is_ok {E A} (r : result E A) : bool :=
  match r with Ok _ => true | Err _ => false end.

(** ** Validation: Go's chain of early error returns *)
Definition andThen {E} (a k : option E) : option E := match a with Some e => Some e | None => k end.

Lemma andThen_None {E} (a k : option E) : andThen a k = None <-> a = None /\ k = None.
Proof. destruct a; naive_solver. Qed.

(** The checks that must hold for [require] to go on. *)
Definition require {E} (b : bool) (e : E) : option E := if b then None else Some e.

Lemma require_None {E} (b : bool) (e : E) : require b e = None <-> b = true.
Proof. by destruct b. Qed.

(** ** A state monad with failure-free bind

    A Go method that mutates its receiver and talks to the outside world is a
    function from the state to a value and the next state. *)
Definition M (S A : Type) : Type := S -> A * S.

Definition mret_st {S A} (a : A) : M S A := fun s => (a, s).

Definition mbind_st {S A B} (m : M S A) (k : A -> M S B) : M S B :=
  fun s => let '(a, s') := m s in k a s'.

Definition mget {S} : M S S := fun s => (s, s).

Definition mput {S} (s : S) : M S unit := fun _ => (tt, s).

Definition mmodify {S} (f : S -> S) : M S unit := fun s => (tt, f s).

Declare Scope go_scope.
Delimit Scope go_scope with go.
Notation "a >>? k" := (andThen a k) (at level 60, right associativity) : go_scope.
Notation "'let?' x := r 'in' k" := (match r with Ok x => k | Err e => Some e end)
  (at level 10, x name, r at level 100, k at level 200) : go_scope.
Notation "'let!' x := m 'in' k" := (mbind_st m (fun x => k))
  (at level 10, x pattern, m at level 100, k at level 200) : go_scope.
Notation "'do!' m ; k" := (mbind_st m (fun _ => k))
  (at level 10, m at level 100, k at level 200) : go_scope.

(** *** The same monad for a process that may die

    [None] is a computation cut off by the death of the process: the state it
    leaves is the one of that moment. *)
Definition MC (S A : Type) : Type := M S (option A).
Definition ret {S A} (a : A) : MC S A := mret_st (Some a).
Definition bind {S A B} (m : MC S A) (k : A -> MC S B) : MC S B :=
  mbind_st m (fun o => match o with Some a => k a | None => mret_st None end).

Notation "'let*' x := m 'in' k" := (bind m (fun x => k))
  (at level 10, x pattern, m at level 100, k at level 200) : go_scope.
Notation "'do*' m ; k" := (bind m (fun _ => k))
  (at level 10, m at level 100, k at level 200) : go_scope.

(** Weakest preconditions for it: [D] must hold of the state a death leaves. *)
Definition wpc {S A} (D : S -> Prop) (m : MC S A) (Q : A -> S -> Prop) (s : S) : Prop :=
  match m s with (Some a, s') => Q a s' | (None, s') => D s' end.

Lemma wpc_ret {S A} (D : S -> Prop) (a : A) Q s : Q a s -> wpc D (ret a) Q s.
Proof. done. Qed.

Lemma wpc_bind {S A B} (D : S -> Prop) (m : MC S A) (k : A -> MC S B) Q s :
  wpc D m (fun a => wpc D (k a) Q) s -> wpc D (bind m k) Q s.
Proof. unfold wpc, bind, mbind_st. by destruct (m s) as [[a|] s']. Qed.

Lemma wpc_mono {S A} (D : S -> Prop) (m : MC S A) (Q R : A -> S -> Prop) s :
  wpc D m Q s -> (forall a s', Q a s' -> R a s') -> wpc D m R s.
Proof. unfold wpc. destruct (m s) as [[a|] s']; auto. Qed.

(** ** Time: Go's time.Time and time.Duration

    An instant is a number of nanoseconds since the zero time (year 1, UTC);
    [t = 0] is the value for which [Time.IsZero] holds.  A duration is an
    [int64] number of nanoseconds, so [Time.Sub] saturates. *)
Definition Time := Z.
Definition Duration := Z.

Definition IsZero (t : Time) : bool := (t =? 0)%Z.
Definition Before (t u : Time) : bool := (t <? u)%Z.
Definition After (t u : Time) : bool := (u <? t)%Z.
Definition Add (t : Time) (d : Duration) : Time := (t + d)%Z.

Definition maxDuration : Z := (2 ^ 63 - 1)%Z.
Definition minDuration : Z := (- 2 ^ 63)%Z.

Definition Sub (t u : Time) : Duration :=
  Z.max minDuration (Z.min maxDuration (t - u)).

Definition Second : Duration := 1000000000%Z.
Definition Minute : Duration := (60 * Second)%Z.
Definition Hour : Duration := (60 * Minute)%Z.

(** Saturation is invisible to a comparison with a representable bound. *)
Lemma Sub_lt_iff (t u : Time) (d : Duration) :
  (minDuration < d <= maxDuration)%Z -> ((Sub t u < d)%Z <-> (t - u < d)%Z).
Proof. unfold Sub. lia. Qed.

(** ** Tactics *)

(** Split every [match] and [if] of the goal or of a hypothesis once. *)
Ltac case_all :=
  repeat match goal with
         | H : context [match ?x with _ => _ end] |- _ =>
             let E := fresh "E" in destruct x eqn:E; simplify_eq/=
         | |- context [match ?x with _ => _ end] =>
             let E := fresh "E" in destruct x eqn:E; simplify_eq/=
         end.

(** Turn boolean tests into propositions. *)
Ltac bool_to_prop :=
  repeat match goal with
         | H : andb _ _ = true |- _ => apply andb_true_iff in H as [? ?]
         | H : orb _ _ = false |- _ => apply orb_false_iff in H as [? ?]
         | H : negb _ = true |- _ => apply negb_true_iff in H
         | H : negb _ = false |- _ => apply negb_false_iff in H
         | H : bool_decide _ = true |- _ => apply bool_decide_eq_true in H
         | H : bool_decide _ = false |- _ => apply bool_decide_eq_false in H
         | H : (_ <? _)%Z = true |- _ => apply Z.ltb_lt in H
         | H : (_ <? _)%Z = false |- _ => apply Z.ltb_ge in H
         | H : (_ <=? _)%Z = true |- _ => apply Z.leb_le in H
         | H : (_ <=? _)%Z = false |- _ => apply Z.leb_gt in H
         | H : (_ =? _)%Z = true |- _ => apply Z.eqb_eq in H
         | H : (_ =? _)%Z = false |- _ => apply Z.eqb_neq in H
         end.

(** ** Hints

    [filees] resolves the leaves of monadic computations and rewrites passed
    validations into the conditions they checked; the component files extend it
    locally. *)
Create HintDb filees.

#[export] Hint Resolve wpc_ret wpc_bind : filees.
#[export] Hint Rewrite @andThen_None @require_None : filees.
