(* ===== verification/GoStrings.v ===== *)
(** * GoStrings: the string library the source calls

    Go strings are byte strings; here they are Rocq's [string] (lists of 8-bit
    characters).  This file models the functions of the Go packages [strings],
    [unicode/utf8], [unicode] and [path] that FileES uses, with their behaviour
    on invalid UTF-8.  The case tables of Unicode outside ASCII are data of the
    Go runtime and stay a parameter ([UnicodeTables]). *)
From S2P Require Import Prelude.
From Stdlib Require Import Ascii String.

Open Scope string_scope.

(** ** Bytes *)
Definition byte (a : ascii) : Z := Z.of_N (N_of_ascii a).
Definition chr (z : Z) : ascii := ascii_of_N (Z.to_N z).
Definition str (bs : list Z) : string := string_of_list_ascii (map chr bs).
Definition len (s : string) : Z := Z.of_nat (String.length s).
Definition bytes (s : string) : list Z := map byte (list_ascii_of_string s).

(** ** Package strings *)
Fixpoint HasPrefix (s p : string) {struct p} : bool :=
  match p, s with
  | EmptyString, _ => true
  | String a p', String b s' => Ascii.eqb a b && HasPrefix s' p'
  | String _ _, EmptyString => false
  end.

Fixpoint dropn (n : nat) (s : string) : string :=
  match n, s with
  | O, _ => s
  | S n', String _ s' => dropn n' s'
  | S _, EmptyString => EmptyString
  end.

(** [s[:n]] and, with [dropn], [s[n:]]. *)
Fixpoint taken (n : nat) (s : string) : string :=
  match n, s with
  | S n', String a s' => String a (taken n' s')
  | _, _ => EmptyString
  end.

Definition TrimPrefix (s p : string) : string :=
  if HasPrefix s p then dropn (String.length p) s else s.

Fixpoint srev_app (s acc : string) : string :=
  match s with EmptyString => acc | String a s' => srev_app s' (String a acc) end.
Definition srev (s : string) : string := srev_app s EmptyString.

Definition HasSuffix (s p : string) : bool := HasPrefix (srev s) (srev p).
Definition TrimSuffix (s p : string) : string := srev (TrimPrefix (srev s) (srev p)).

(** [strings.Contains] *)
Fixpoint Contains (s sub : string) : bool :=
  HasPrefix s sub ||
  match s with EmptyString => false | String _ s' => Contains s' sub end.

Fixpoint hasByte (s : string) (c : ascii) : bool :=
  match s with EmptyString => false | String a s' => Ascii.eqb a c || hasByte s' c end.

(** [strings.ContainsAny] with an ASCII character set. *)
Fixpoint ContainsAny (s chars : string) : bool :=
  match s with EmptyString => false | String a s' => hasByte chars a || ContainsAny s' chars end.

(** [strings.IndexByte]; [-1] when absent. *)
Fixpoint IndexByte (s : string) (c : ascii) : Z :=
  match s with
  | EmptyString => -1
  | String a s' => if Ascii.eqb a c then 0
                   else let i := IndexByte s' c in if (i <? 0)%Z then -1 else (i + 1)%Z
  end%Z.

(** [strings.LastIndexByte]; [-1] when absent. *)
Fixpoint LastIndexByte (s : string) (c : ascii) : Z :=
  match s with
  | EmptyString => -1
  | String a s' => let i := LastIndexByte s' c in
                   if (i <? 0)%Z then (if Ascii.eqb a c then 0 else -1) else (i + 1)
  end%Z.

(** [strings.Count] of a one-byte substring. *)
Fixpoint CountByte (s : string) (c : ascii) : Z :=
  match s with
  | EmptyString => 0
  | String a s' => ((if Ascii.eqb a c then 1 else 0) + CountByte s' c)%Z
  end%Z.

(** [strings.Split] with a one-byte separator. *)
Fixpoint Split (c : ascii) (s : string) : list string :=
  match s with
  | EmptyString => [EmptyString]
  | String a s' =>
      if Ascii.eqb a c then EmptyString :: Split c s'
      else match Split c s' with
           | [] => [String a EmptyString]
           | w :: ws => String a w :: ws
           end
  end.

(** [strings.Join] *)
Fixpoint Join (ws : list string) (sep : string) : string :=
  match ws with
  | [] => EmptyString
  | [w] => w
  | w :: ws' => w ++ sep ++ Join ws' sep
  end.

(** [strings.TrimLeft], [strings.TrimRight] and [strings.Trim] with an ASCII cutset. *)
Fixpoint TrimLeft (s cutset : string) : string :=
  match s with
  | EmptyString => EmptyString
  | String a s' => if hasByte cutset a then TrimLeft s' cutset else s
  end.
Definition TrimRight (s cutset : string) : string := srev (TrimLeft (srev s) cutset).
Definition Trim (s cutset : string) : string := TrimRight (TrimLeft s cutset) cutset.

(** [strings.ReplaceAll] of one byte by another. *)
Fixpoint ReplaceByte (s : string) (old new : ascii) : string :=
  match s with
  | EmptyString => EmptyString
  | String a s' => String (if Ascii.eqb a old then new else a) (ReplaceByte s' old new)
  end.

(** ** Package utf8: decoding and encoding *)
Definition RuneError : Z := 0xFFFD.

Definition cont (b : Z) : bool := ((0x80 <=? b) && (b <=? 0xBF))%Z.

Definition valid2 (b0 b1 : Z) : bool := ((0xC2 <=? b0) && (b0 <=? 0xDF) && cont b1)%Z.

Definition valid3 (b0 b1 b2 : Z) : bool :=
  ((0xE0 <=? b0) && (b0 <=? 0xEF) &&
   ((if b0 =? 0xE0 then 0xA0 else 0x80) <=? b1) && (b1 <=? (if b0 =? 0xED then 0x9F else 0xBF)) &&
   cont b2)%Z.

Definition valid4 (b0 b1 b2 b3 : Z) : bool :=
  ((0xF0 <=? b0) && (b0 <=? 0xF4) &&
   ((if b0 =? 0xF0 then 0x90 else 0x80) <=? b1) && (b1 <=? (if b0 =? 0xF4 then 0x8F else 0xBF)) &&
   cont b2 && cont b3)%Z.

Definition lo6 (b : Z) : Z := Z.land b 0x3F.

(** The runes a [range] loop over the string yields, each with whether it was
    decoded from valid bytes (an invalid byte yields [RuneError]). *)
Fixpoint decode (s : string) : list (Z * bool) :=
  match s with
  | EmptyString => []
  | String a0 s1 =>
      let b0 := byte a0 in
      if (b0 <? 0x80)%Z then (b0, true) :: decode s1
      else match s1 with
      | EmptyString => (RuneError, false) :: decode s1
      | String a1 s2 =>
          let b1 := byte a1 in
          if valid2 b0 b1
          then (Z.lor (Z.shiftl (Z.land b0 0x1F) 6) (lo6 b1), true) :: decode s2
          else match s2 with
          | EmptyString => (RuneError, false) :: decode s1
          | String a2 s3 =>
              let b2 := byte a2 in
              if valid3 b0 b1 b2
              then (Z.lor (Z.shiftl (Z.land b0 0x0F) 12) (Z.lor (Z.shiftl (lo6 b1) 6) (lo6 b2)), true) :: decode s3
              else match s3 with
              | EmptyString => (RuneError, false) :: decode s1
              | String a3 s4 =>
                  let b3 := byte a3 in
                  if valid4 b0 b1 b2 b3
                  then (Z.lor (Z.shiftl (Z.land b0 0x07) 18)
                         (Z.lor (Z.shiftl (lo6 b1) 12) (Z.lor (Z.shiftl (lo6 b2) 6) (lo6 b3))), true) :: decode s4
                  else (RuneError, false) :: decode s1
              end
          end
      end
  end.

Definition runes (s : string) : list Z := map fst (decode s).
Definition ValidString (s : string) : bool := forallb snd (decode s).
Definition RuneCountInString (s : string) : Z := Z.of_nat (List.length (decode s)).

(** [utf8.AppendRune]: surrogates and out-of-range values become [RuneError]. *)
Definition encodeRune (r : Z) : string :=
  let r := if ((r <? 0) || (0x10FFFF <? r) || ((0xD800 <=? r) && (r <=? 0xDFFF)))%Z then RuneError else r in
  if (r <? 0x80)%Z then str [r]
  else if (r <? 0x800)%Z then str [Z.lor 0xC0 (Z.shiftr r 6); Z.lor 0x80 (lo6 r)]
  else if (r <? 0x10000)%Z then
    str [Z.lor 0xE0 (Z.shiftr r 12); Z.lor 0x80 (lo6 (Z.shiftr r 6)); Z.lor 0x80 (lo6 r)]
  else str [Z.lor 0xF0 (Z.shiftr r 18); Z.lor 0x80 (lo6 (Z.shiftr r 12));
            Z.lor 0x80 (lo6 (Z.shiftr r 6)); Z.lor 0x80 (lo6 r)].

(** [strings.Map] for a mapping that never drops a rune. *)
Definition MapRunes (f : Z -> Z) (s : string) : string :=
  fold_right (fun r acc => encodeRune (f r) ++ acc) EmptyString (runes s).

(** ** Package unicode *)

(** Case mappings and the format category outside ASCII. *)
Class UnicodeTables := {
  u_lower : Z -> Z;
  u_upper : Z -> Z;
  u_format : Z -> bool
}.

Definition asciiLower (r : Z) : Z := if ((0x41 <=? r) && (r <=? 0x5A))%Z then (r + 32)%Z else r.
Definition asciiUpper (r : Z) : Z := if ((0x61 <=? r) && (r <=? 0x7A))%Z then (r - 32)%Z else r.

Definition toLowerRune `{UnicodeTables} (r : Z) : Z := if (r <? 0x80)%Z then asciiLower r else u_lower r.
Definition toUpperRune `{UnicodeTables} (r : Z) : Z := if (r <? 0x80)%Z then asciiUpper r else u_upper r.
Definition ToLower `{UnicodeTables} (s : string) : string := MapRunes toLowerRune s.
Definition ToUpper `{UnicodeTables} (s : string) : string := MapRunes toUpperRune s.

(** [unicode.Is(unicode.Cf, r)]; ASCII has no format character. *)
Definition isFormat `{UnicodeTables} (r : Z) : bool := if (r <? 0x80)%Z then false else u_format r.

(** [unicode.IsControl]: only Latin-1 has control characters. *)
Definition IsControl (r : Z) : bool := ((r <? 0x20) || ((0x7F <=? r) && (r <? 0xA0)))%Z.

(** [unicode.IsSpace] as the encodings of the White_Space runes. *)
Definition spaceRunes : list Z :=
  [0x09; 0x0A; 0x0B; 0x0C; 0x0D; 0x20; 0x85; 0xA0; 0x1680;
   0x2000; 0x2001; 0x2002; 0x2003; 0x2004; 0x2005; 0x2006; 0x2007; 0x2008; 0x2009; 0x200A;
   0x2028; 0x2029; 0x202F; 0x205F; 0x3000]%Z.
Definition IsSpace (r : Z) : bool := existsb (Z.eqb r) spaceRunes.
Definition spaceEncodings : list string := map encodeRune spaceRunes.

Fixpoint stripOne (encs : list string) (s : string) : option string :=
  match encs with
  | [] => None
  | e :: encs' => if HasPrefix s e then Some (dropn (String.length e) s) else stripOne encs' s
  end.

(** Drops leading encodings of the set; each turn drops at least a byte, so
    the length of the string is enough fuel. *)
Fixpoint stripAll (fuel : nat) (encs : list string) (s : string) : string :=
  match fuel with
  | O => s
  | S fuel' => match stripOne encs s with Some s' => stripAll fuel' encs s' | None => s end
  end.

(** [strings.TrimSpace]: a rune at either end is dropped while it is a space;
    at the right end [DecodeLastRune] yields a space exactly when the string
    ends with its encoding. *)
Definition trimSpaceLeft (s : string) : string := stripAll (String.length s) spaceEncodings s.
Definition trimSpaceRight (s : string) : string :=
  srev (stripAll (String.length s) (map srev spaceEncodings) (srev s)).
Definition TrimSpace (s : string) : string := trimSpaceRight (trimSpaceLeft s).

(** [strings.EqualFold(s, t)] for an ASCII [t]: simple folding has one orbit
    partner outside ASCII for [s] (U+017F) and for [k] (U+212A). *)
Definition foldASCII (r : Z) : Z :=
  if (r =? 0x17F)%Z then 0x73%Z else if (r =? 0x212A)%Z then 0x6B%Z
  else if (r <? 0x80)%Z then asciiLower r else r.
Definition EqualFold (s t : string) : bool :=
  bool_decide (map foldASCII (runes s) = map asciiLower (bytes t)).

(** ** Package path *)

(** One element of [path.Clean]'s scan; the stack holds the output elements,
    last first. *)
Definition cleanStep (rooted : bool) (stack : list string) (seg : string) : list string :=
  if bool_decide (seg = "") || bool_decide (seg = ".") then stack
  else if bool_decide (seg = "..") then
    match stack with
    | [] => if rooted then [] else [".."]
    | top :: rest => if bool_decide (top = "..") then ".." :: stack else rest
    end
  else seg :: stack.

(** [path.Clean]; [filepath.Clean] on Unix. *)
Definition Clean (p : string) : string :=
  if bool_decide (p = "") then "."
  else
    let rooted := HasPrefix p "/" in
    let out := Join (rev (fold_left (cleanStep rooted) (Split "/" p) [])) "/" in
    let r := if rooted then "/" ++ out else out in
    if bool_decide (r = "") then "." else r.

Definition IsAbs (p : string) : bool := HasPrefix p "/".

(** [path.Join] of two elements: empty elements are skipped, the rest cleaned. *)
Definition pathJoin (a b : string) : string :=
  if bool_decide (a = "") then (if bool_decide (b = "") then "" else Clean b)
  else if bool_decide (b = "") then Clean a
  else Clean (a ++ "/" ++ b).

(** ** Facts *)
Lemma sapp_cons a (p t : string) : String a p ++ t = String a (p ++ t).
Proof. reflexivity. Qed.

Lemma sapp_nil_l (t : string) : "" ++ t = t.
Proof. reflexivity. Qed.

Lemma HasPrefix_spec s p : HasPrefix s p = true <-> exists t, s = p ++ t.
Proof.
  revert s. induction p as [|a p IH]; intros s; simpl.
  - split; [intros _; by exists s|reflexivity].
  - destruct s as [|b s].
    + split; [done|]. intros [t Ht]. rewrite sapp_cons in Ht. discriminate Ht.
    + rewrite andb_true_iff, IH. split.
      * intros [->%Ascii.eqb_eq [t ->]]. by exists t.
      * intros [t Ht]. rewrite sapp_cons in Ht. injection Ht as -> ->. split; [apply Ascii.eqb_refl|by exists t].
Qed.

Lemma dropn_app p t : dropn (String.length p) (p ++ t) = t.
Proof. induction p as [|a p IH]; [by destruct t|]. rewrite sapp_cons. apply IH. Qed.

Lemma TrimPrefix_app p t : TrimPrefix (p ++ t) p = t.
Proof.
  unfold TrimPrefix. replace (HasPrefix (p ++ t) p) with true; [apply dropn_app|].
  symmetry. apply HasPrefix_spec. by exists t.
Qed.

Lemma sapp_assoc (a b c : string) : (a ++ b) ++ c = a ++ (b ++ c).
Proof. induction a as [|x a IH]; [done|]. rewrite !sapp_cons. by rewrite IH. Qed.

Lemma sapp_nil_r (a : string) : a ++ "" = a.
Proof. induction a as [|x a IH]; [done|]. rewrite sapp_cons. by rewrite IH. Qed.

Lemma sapp_inj_l (p a b : string) : p ++ a = p ++ b -> a = b.
Proof. induction p as [|x p IH]; [done|]. rewrite !sapp_cons. intros [= H]. by apply IH. Qed.

Lemma hasByte_app a b c : hasByte (a ++ b) c = hasByte a c || hasByte b c.
Proof.
  induction a as [|x a IH]; [done|]. rewrite sapp_cons. simpl. by rewrite IH, orb_assoc.
Qed.

(** Splitting and joining are inverse. *)
Lemma Split_nonempty c s : Split c s <> [].
Proof. destruct s as [|a s]; simpl; [done|]. destruct (Ascii.eqb a c); [done|]. by destruct (Split c s). Qed.

Lemma Join_cons w ws sep : ws <> [] -> Join (w :: ws) sep = w ++ sep ++ Join ws sep.
Proof. by destruct ws. Qed.

Lemma Join_Split c s : Join (Split c s) (String c EmptyString) = s.
Proof.
  induction s as [|a s IH]; [done|]. simpl.
  destruct (Ascii.eqb_spec a c) as [->|Hne].
  - rewrite Join_cons by apply Split_nonempty. by rewrite IH.
  - destruct (Split c s) as [|w ws] eqn:E; [by destruct (Split_nonempty c s)|].
    destruct ws as [|w' ws]; [by rewrite <- IH|].
    rewrite Join_cons in IH |- * by done. rewrite sapp_cons. by rewrite <- IH.
Qed.

Lemma Split_no_sep c s : forall w, w ∈ Split c s -> hasByte w c = false.
Proof.
  induction s as [|a s IH]; simpl.
  - intros w ->%list_elem_of_singleton. done.
  - destruct (Ascii.eqb_spec a c) as [->|Hne].
    + intros w [->|Hw]%elem_of_cons; [done|by apply IH].
    + destruct (Split c s) as [|w0 ws] eqn:E; [by destruct (Split_nonempty c s)|].
      intros w [->|Hw]%elem_of_cons.
      * simpl. rewrite (proj2 (Ascii.eqb_neq _ _) Hne). simpl. apply IH. by left.
      * apply IH. by right.
Qed.

Lemma Split_app_sep c w s : hasByte w c = false -> Split c (w ++ String c s) = w :: Split c s.
Proof.
  induction w as [|a w IH]; intros Hw.
  - simpl. by rewrite Ascii.eqb_refl.
  - simpl in Hw. apply orb_false_iff in Hw as [Ha Hw].
    change (Split c (String a w ++ String c s)) with
      (if Ascii.eqb a c then EmptyString :: Split c (w ++ String c s)
       else match Split c (w ++ String c s) with [] => [String a EmptyString] | w0 :: ws => String a w0 :: ws end).
    by rewrite Ha, IH.
Qed.

Lemma Split_single c w : hasByte w c = false -> Split c w = [w].
Proof.
  induction w as [|a w IH]; [done|]. simpl. intros [Ha Hw]%orb_false_iff. by rewrite Ha, IH.
Qed.

Lemma Split_Join c ws : ws <> [] -> Forall (fun w => hasByte w c = false) ws ->
  Split c (Join ws (String c EmptyString)) = ws.
Proof.
  induction ws as [|w ws IH]; [done|]. intros _ Hf. inversion Hf; subst.
  destruct ws as [|w' ws]; [by apply Split_single|].
  rewrite Join_cons by done.
  change (w ++ String c EmptyString ++ Join (w' :: ws) (String c EmptyString)) with
    (w ++ String c (Join (w' :: ws) (String c EmptyString))).
  rewrite Split_app_sep by done. by rewrite IH.
Qed.

(** ** ASCII strings *)
Fixpoint allb (P : ascii -> bool) (s : string) : bool :=
  match s with EmptyString => true | String a s' => P a && allb P s' end.

Definition isASCII (a : ascii) : bool := (byte a <? 0x80)%Z.

(** A visible ASCII character: neither a space nor a control character. *)
Definition graphic (a : ascii) : bool := ((0x20 <? byte a) && (byte a <? 0x7F))%Z.

Lemma allb_impl (P Q : ascii -> bool) s :
  (forall a, P a = true -> Q a = true) -> allb P s = true -> allb Q s = true.
Proof.
  intros H. induction s as [|a s IH]; simpl; [done|]. rewrite !andb_true_iff. naive_solver.
Qed.

Lemma allb_app P a b : allb P (a ++ b) = allb P a && allb P b.
Proof. induction a as [|x a IH]; [done|]. rewrite sapp_cons. simpl. by rewrite IH, andb_assoc. Qed.

Lemma allb_hasByte P c s : allb P s = true -> P c = false -> hasByte s c = false.
Proof.
  intros Hs Hc. induction s as [|a s IH]; simpl in *; [done|]. bool_to_prop.
  rewrite IH by done. destruct (Ascii.eqb_spec a c); [congruence|done].
Qed.

Lemma allb_ContainsAny P chars s :
  allb P s = true -> allb (fun c => negb (P c)) chars = true -> ContainsAny s chars = false.
Proof.
  intros Hs Hc. induction s as [|a s IH]; simpl in *; [done|]. bool_to_prop.
  rewrite IH by done. rewrite (allb_hasByte (fun c => negb (P c)) a chars Hc); [done|].
  by apply negb_false_iff.
Qed.

Lemma chr_byte a : chr (byte a) = a.
Proof. unfold chr, byte. rewrite N2Z.id. apply ascii_N_embedding. Qed.

Lemma decode_ascii s : allb isASCII s = true ->
  decode s = map (fun a => (byte a, true)) (list_ascii_of_string s).
Proof.
  induction s as [|a s IH]; [done|]. intros Hs. simpl in Hs. bool_to_prop.
  cbn -[byte Z.ltb]. unfold isASCII in H. rewrite H. by rewrite IH.
Qed.

Lemma runes_ascii s : allb isASCII s = true -> runes s = bytes s.
Proof.
  intros Hs. unfold runes, bytes. rewrite decode_ascii by done. rewrite map_map. done.
Qed.

Lemma encodeRune_ascii a : isASCII a = true -> encodeRune (byte a) = String a "".
Proof. destruct a as [[][][][][][][][]]; intros H; try done; vm_compute in H; done. Qed.

Lemma MapRunes_id f s : allb isASCII s = true ->
  allb (fun a => (f (byte a) =? byte a)%Z) s = true -> MapRunes f s = s.
Proof.
  intros Hs. unfold MapRunes. rewrite (runes_ascii s Hs). unfold bytes.
  induction s as [|a s IH]; [done|]. simpl in Hs |- *. intros [Hfa Hf]%andb_true_iff.
  apply andb_true_iff in Hs as [Ha Hs]. apply Z.eqb_eq in Hfa.
  rewrite Hfa, encodeRune_ascii by done. rewrite sapp_cons, sapp_nil_l. by rewrite IH.
Qed.

Lemma stripOne_None encs a s :
  forallb (fun e => match e with EmptyString => false | String c _ => negb (Ascii.eqb c a) end) encs = true ->
  stripOne encs (String a s) = None.
Proof.
  induction encs as [|e encs IH]; [done|]. intros H. cbn [forallb] in H. bool_to_prop.
  cbn [stripOne]. destruct e as [|c e]; [done|]. cbn [HasPrefix]. bool_to_prop.
  rewrite H. simpl. by apply IH.
Qed.

Lemma space_lead_graphic a : graphic a = true ->
  forallb (fun e => match e with EmptyString => false | String c _ => negb (Ascii.eqb c a) end) spaceEncodings = true /\
  forallb (fun e => match e with EmptyString => false | String c _ => negb (Ascii.eqb c a) end) (map srev spaceEncodings) = true.
Proof. destruct a as [[][][][][][][][]]; intros H; try (vm_compute in H; discriminate H); by vm_compute. Qed.

Lemma stripAll_graphic fuel encs a s :
  forallb (fun e => match e with EmptyString => false | String c _ => negb (Ascii.eqb c a) end) encs = true ->
  stripAll fuel encs (String a s) = String a s.
Proof. intros H. destruct fuel; [done|]. simpl. by rewrite stripOne_None. Qed.

Lemma srev_app_spec s acc : srev_app s acc = srev s ++ acc.
Proof.
  revert acc. induction s as [|a s IH]; intros acc; [done|]. unfold srev. simpl.
  rewrite (IH (String a acc)), (IH (String a "")), sapp_assoc. done.
Qed.

Lemma srev_cons a s : srev (String a s) = srev s ++ String a "".
Proof. unfold srev. simpl. by rewrite srev_app_spec. Qed.

Lemma srev_append a b : srev (a ++ b) = srev b ++ srev a.
Proof.
  induction a as [|x a IH]; [by rewrite sapp_nil_l, sapp_nil_r|].
  rewrite sapp_cons, !srev_cons, IH. by rewrite sapp_assoc.
Qed.

Lemma srev_involutive s : srev (srev s) = s.
Proof. induction s as [|a s IH]; [done|]. rewrite srev_cons, srev_append, IH. done. Qed.

Lemma allb_srev P s : allb P (srev s) = allb P s.
Proof.
  induction s as [|a s IH]; [done|]. rewrite srev_cons, allb_app, IH. simpl.
  rewrite andb_true_r. apply andb_comm.
Qed.

Lemma length_srev s : String.length (srev s) = String.length s.
Proof.
  assert (forall a b, String.length (a ++ b) = String.length a + String.length b) as Happ.
  { intros a b. induction a as [|x a IH]; [done|]. rewrite sapp_cons. simpl. by rewrite IH. }
  induction s as [|a s IH]; [done|]. rewrite srev_cons, Happ, IH. simpl. lia.
Qed.

(** A string without spaces or control characters at its ends is not trimmed. *)
Lemma TrimSpace_graphic s : allb graphic s = true -> TrimSpace s = s.
Proof.
  intros Hs. destruct s as [|a s]; [done|]. unfold TrimSpace.
  assert (trimSpaceLeft (String a s) = String a s) as ->.
  { simpl in Hs. bool_to_prop. apply stripAll_graphic. by apply space_lead_graphic. }
  unfold trimSpaceRight. pose proof (srev_involutive (String a s)) as Hi.
  rewrite <- (allb_srev graphic (String a s)) in Hs.
  destruct (srev (String a s)) as [|b t] eqn:E; [by vm_compute in Hi|].
  simpl in Hs. bool_to_prop. rewrite stripAll_graphic; [done|]. by apply space_lead_graphic.
Qed.

(** ** Hyphenated words

    The identifiers FileES accepts are words of an alphabet separated by single
    hyphens; the code checks that with loops, edge tests and regular
    expressions, the specification says it with [Split]. *)
Definition hyphen : ascii := "-"%char.
Definition isHyphen (a : ascii) : bool := Ascii.eqb a hyphen.

Definition hyphenated (P : ascii -> bool) (s : string) : Prop :=
  Forall (fun w => w <> "" /\ allb P w = true) (Split hyphen s).

Fixpoint hw (P : ascii -> bool) (prevDash : bool) (s : string) : bool :=
  match s with
  | EmptyString => negb prevDash
  | String a s' => if isHyphen a then negb prevDash && hw P true s' else P a && hw P false s'
  end.

Lemma hw_split P pd s : P hyphen = false ->
  hw P pd s = true <->
  exists w ws, Split hyphen s = w :: ws /\ allb P w = true /\ (pd = true -> w <> "") /\
    Forall (fun w => w <> "" /\ allb P w = true) ws.
Proof.
  intros HP. revert pd. induction s as [|a s IH]; intros pd; simpl.
  - rewrite negb_true_iff. split.
    + intros ->. exists "", []. naive_solver.
    + intros (w & ws & [= <- <-] & _ & Hpd & _). destruct pd; [|done]. by destruct (Hpd eq_refl).
  - unfold isHyphen. destruct (Ascii.eqb_spec a hyphen) as [->|Hne].
    + rewrite andb_true_iff, negb_true_iff, IH. split.
      * intros [-> (w & ws & E & Hw & Hn & Hf)]. exists "", (w :: ws). rewrite E.
        split_and!; try done. constructor; [|done]. split; [by apply Hn|done].
      * intros (w & ws & [= <- E] & Hw & Hpd & Hf). split.
        { destruct pd; [|done]. by destruct (Hpd eq_refl). }
        destruct (Split hyphen s) as [|w' ws'] eqn:Es; [by destruct (Split_nonempty hyphen s)|].
        subst ws. inversion Hf; subst. exists w', ws'. naive_solver.
    + rewrite andb_true_iff, IH.
      destruct (Split hyphen s) as [|w' ws'] eqn:Es; [by destruct (Split_nonempty hyphen s)|].
      split.
      * intros [Ha (w & ws & [= <- <-] & Hw & _ & Hf)]. exists (String a w'), ws'. simpl.
        rewrite Ha, Hw. naive_solver.
      * intros (w & ws & [= <- <-] & Hw & _ & Hf). simpl in Hw. bool_to_prop.
        split; [done|]. exists w', ws'. naive_solver.
Qed.

Lemma hw_hyphenated P s : P hyphen = false -> hw P true s = true <-> hyphenated P s.
Proof.
  intros HP. rewrite hw_split by done. unfold hyphenated. split.
  - intros (w & ws & -> & Hw & Hn & Hf). constructor; [|done]. split; [by apply Hn|done].
  - destruct (Split hyphen s) as [|w ws] eqn:E; [by destruct (Split_nonempty hyphen s)|].
    intros Hf. inversion Hf as [|? ? [? ?] ?]; subst. exists w, ws. naive_solver.
Qed.

(** The same language by its local conditions. *)
Definition endsHyphen (s : string) : bool := HasPrefix (srev s) "-".

Lemma endsHyphen_one a : endsHyphen (String a "") = isHyphen a.
Proof. unfold endsHyphen, isHyphen. cbn. rewrite andb_true_r. rewrite Ascii.eqb_sym. done. Qed.

Lemma endsHyphen_cons a b s : endsHyphen (String a (String b s)) = endsHyphen (String b s).
Proof.
  unfold endsHyphen. rewrite (srev_cons a). 
  assert (srev (String b s) <> "") as Hne.
  { intros E. apply (f_equal String.length) in E. rewrite length_srev in E. done. }
  by destruct (srev (String b s)).
Qed.

Lemma HasPrefix_one a s c : HasPrefix (String a s) (String c "") = Ascii.eqb c a.
Proof. cbn. by rewrite andb_true_r. Qed.

Lemma hw_local P pd s : P hyphen = false ->
  hw P pd s = true <->
  allb (fun a => P a || isHyphen a) s = true /\ Contains s "--" = false /\ endsHyphen s = false /\
  (pd = true -> s <> "" /\ HasPrefix s "-" = false).
Proof.
  intros HP. revert pd. induction s as [|a s IH]; intros pd.
  - simpl. rewrite negb_true_iff. split; [intros ->; naive_solver|].
    intros (_ & _ & _ & H). destruct pd; [|done]. by destruct (H eq_refl).
  - cbn [hw allb Contains]. unfold isHyphen at 1.
    destruct (Ascii.eqb_spec a hyphen) as [->|Hne].
    + rewrite andb_true_iff, negb_true_iff, IH. rewrite HasPrefix_one.
      replace (isHyphen hyphen) with true by done. rewrite orb_true_r. simpl (true && _).
      replace (Ascii.eqb "-" hyphen) with true by done.
      assert (HasPrefix (String hyphen s) "--" = HasPrefix s "-") as -> by done.
      destruct s as [|b s].
      * split; [intros [-> (_ & _ & _ & H)]; by destruct (H eq_refl)|].
        intros (_ & _ & H & _). by rewrite endsHyphen_one in H.
      * rewrite endsHyphen_cons. rewrite orb_false_iff. split.
        { intros [-> (? & ? & ? & Hpd)]. destruct (Hpd eq_refl). naive_solver. }
        { intros (? & [? ?] & ? & Hpd). split; [|naive_solver].
          destruct pd; [|done]. by destruct (Hpd eq_refl). }
    + rewrite andb_true_iff, IH. rewrite HasPrefix_one.
      assert (isHyphen a = false) as Hh by (by apply Ascii.eqb_neq). rewrite Hh, orb_false_r.
      assert (Ascii.eqb "-" a = false) as Hs by (rewrite Ascii.eqb_sym; done). rewrite Hs.
      assert (HasPrefix (String a s) "--" = false) as ->.
      { change (HasPrefix (String a s) "--") with (Ascii.eqb "-" a && HasPrefix s "-"). by rewrite Hs. }
      rewrite andb_true_iff, orb_false_l.
      assert (endsHyphen (String a s) = false <-> endsHyphen s = false) as ->.
      { destruct s as [|b s]; [by rewrite endsHyphen_one, Hh|by rewrite endsHyphen_cons]. }
      naive_solver.
Qed.

Lemma Contains_spec s sub : Contains s sub = true <-> exists a b, s = a ++ sub ++ b.
Proof.
  induction s as [|x s IH].
  - cbn [Contains]. rewrite orb_false_r, HasPrefix_spec. split.
    + intros [t Ht]. exists "", t. by rewrite sapp_nil_l.
    + intros (a & b & E). destruct a; [|discriminate E]. exists b. by rewrite sapp_nil_l in E.
  - cbn [Contains]. rewrite orb_true_iff, IH, HasPrefix_spec. split.
    + intros [[t Ht]|(a & b & ->)]; [exists "", t; by rewrite sapp_nil_l|].
      exists (String x a), b. by rewrite sapp_cons.
    + intros ([|y a] & b & E).
      * left. exists b. by rewrite sapp_nil_l in E.
      * right. rewrite sapp_cons in E. injection E as -> ->. by exists a, b.
Qed.

Lemma Contains_srev s sub : Contains (srev s) (srev sub) = Contains s sub.
Proof.
  assert (forall s sub, Contains s sub = true -> Contains (srev s) (srev sub) = true) as H.
  { clear. intros s sub. rewrite !Contains_spec. intros (a & b & ->).
    exists (srev b), (srev a). by rewrite !srev_append, sapp_assoc. }
  destruct (Contains s sub) eqn:E; [by apply H|].
  destruct (Contains (srev s) (srev sub)) eqn:E2; [|done].
  apply H in E2. rewrite !srev_involutive in E2. congruence.
Qed.

(** ** Paths made of plain segments are already clean *)
Definition plainSegment (w : string) : Prop :=
  w <> "" /\ w <> "." /\ w <> ".." /\ hasByte w "/" = false.

Lemma cleanStep_plain rooted stack w : plainSegment w -> cleanStep rooted stack w = w :: stack.
Proof.
  intros (H1 & H2 & H3 & _). unfold cleanStep.
  rewrite !bool_decide_eq_false_2 by done. done.
Qed.

Lemma cleanStep_fold rooted ws stack : Forall plainSegment ws ->
  fold_left (cleanStep rooted) ws stack = (rev ws ++ stack)%list.
Proof.
  intros Hf. revert stack. induction Hf as [|w ws Hw _ IH]; intros stack; [done|].
  cbn [fold_left]. rewrite (cleanStep_plain _ _ _ Hw), IH. simpl. by rewrite <- app_assoc.
Qed.

Lemma Join_head_prefix w ws : hasByte w "/" = false -> w <> "" ->
  HasPrefix (Join (w :: ws) "/") "/" = false /\ Join (w :: ws) "/" <> "".
Proof.
  intros Hs Hne. destruct w as [|a w]; [done|]. cbn [hasByte] in Hs.
  apply orb_false_iff in Hs as [Ha _].
  assert (exists t, Join (String a w :: ws) "/" = String a t) as [t ->].
  { destruct ws; [by exists w|]. eexists. rewrite Join_cons by done. by rewrite sapp_cons. }
  split; [|done]. rewrite HasPrefix_one, Ascii.eqb_sym. done.
Qed.

Lemma Clean_plain ws : ws <> [] -> Forall plainSegment ws -> Clean (Join ws "/") = Join ws "/".
Proof.
  intros Hne Hf. destruct ws as [|w ws]; [done|].
  pose proof Hf as Hf'. inversion Hf' as [|? ? (H1 & _ & _ & H4) _]; subst.
  destruct (Join_head_prefix w ws H4 H1) as [Hp Hn].
  unfold Clean. rewrite bool_decide_eq_false_2 by done. rewrite Hp.
  change "/" with (String "/"%char EmptyString) at 2.
  rewrite Split_Join; [|done|].
  2: { eapply Forall_impl; [exact Hf|]. by intros x (_ & _ & _ & ?). }
  rewrite cleanStep_fold by done. rewrite app_nil_r, rev_involutive.
  by rewrite bool_decide_eq_false_2.
Qed.

(** ** [Clean] is idempotent

    The output stack of [Clean] is plain segments on top of ".."s, and none of
    the latter below a root: such a stack is a fixed point of the scan. *)
Definition cleanStack (rooted : bool) (stack : list string) : Prop :=
  exists a n, stack = (a ++ replicate n "..")%list /\ Forall plainSegment a /\ (rooted = true -> n = 0).

Lemma cleanStack_step rooted stack w : hasByte w "/" = false ->
  cleanStack rooted stack -> cleanStack rooted (cleanStep rooted stack w).
Proof.
  intros Hw (a & n & -> & Hf & Hn). unfold cleanStep.
  destruct (bool_decide (w = "")) eqn:E1; [by exists a, n|].
  destruct (bool_decide (w = ".")) eqn:E2; [by exists a, n|]. cbn [orb].
  destruct (bool_decide (w = "..")) eqn:E3; bool_to_prop.
  - destruct a as [|x a].
    + destruct n as [|n]; simpl.
      * destruct rooted; [by exists [], 0|by exists [], 1].
      * exists [], (S (S n)). repeat split; [done|].
        intros Hr. by specialize (Hn Hr).
    + inversion Hf as [|? ? (H1 & H2 & H3 & H4) Hf']; subst. simpl.
      rewrite bool_decide_eq_false_2 by done. by exists a, n.
  - exists (w :: a), n. repeat split; [|done]. by constructor.
Qed.

Lemma cleanStack_fold rooted ws stack : Forall (fun w => hasByte w "/" = false) ws ->
  cleanStack rooted stack -> cleanStack rooted (fold_left (cleanStep rooted) ws stack).
Proof.
  intros Hf. revert stack. induction Hf as [|w ws Hw _ IH]; intros stack Hs; [done|].
  apply IH. by apply cleanStack_step.
Qed.

Lemma cleanStep_dots n m : fold_left (cleanStep false) (replicate n "..") (replicate m "..") =
  replicate (n + m) "..".
Proof.
  revert m. induction n as [|n IH]; intros m; [done|].
  replace (S n + m) with (n + S m) by lia. rewrite <- IH. cbn [replicate fold_left]. f_equal.
  destruct m; reflexivity.
Qed.

Lemma rev_reverse {A} (l : list A) : rev l = reverse l.
Proof. apply rev_alt. Qed.

Lemma rev_replicate {A} n (x : A) : rev (replicate n x) = replicate n x.
Proof. by rewrite rev_reverse, reverse_replicate. Qed.

Lemma cleanStack_fixed rooted stack : cleanStack rooted stack ->
  fold_left (cleanStep rooted) (rev stack) [] = stack.
Proof.
  intros (a & n & -> & Hf & Hn). rewrite rev_app_distr, fold_left_app, rev_replicate.
  assert (fold_left (cleanStep rooted) (replicate n "..") [] = replicate n "..") as ->.
  { destruct rooted; [by rewrite Hn|]. change (@nil string) with (replicate 0 "..").
    rewrite cleanStep_dots. by rewrite Nat.add_0_r. }
  rewrite cleanStep_fold; [by rewrite rev_involutive|].
  rewrite rev_reverse. by apply Forall_reverse.
Qed.

Lemma cleanStack_segments rooted stack : cleanStack rooted stack ->
  Forall (fun w => w <> "" /\ hasByte w "/" = false) (rev stack).
Proof.
  intros (a & n & -> & Hf & _). rewrite rev_reverse. apply Forall_reverse, Forall_app. split.
  - eapply Forall_impl; [exact Hf|]. by intros x (? & _ & _ & ?).
  - apply Forall_replicate. done.
Qed.

Lemma Clean_stack p : p <> "" -> exists stack, cleanStack (HasPrefix p "/") stack /\
  Clean p = let r := if HasPrefix p "/" then "/" ++ Join (rev stack) "/" else Join (rev stack) "/" in
            if bool_decide (r = "") then "." else r.
Proof.
  intros Hp. eexists. split; [|unfold Clean; by rewrite bool_decide_eq_false_2].
  apply cleanStack_fold; [|by exists [], 0].
  apply Forall_forall. intros w Hw. by eapply Split_no_sep.
Qed.

Lemma Clean_idempotent p : Clean (Clean p) = Clean p.
Proof.
  destruct (decide (p = "")) as [->|Hp]; [reflexivity|].
  destruct (Clean_stack p Hp) as (stack & Hst & ->).
  pose proof (cleanStack_segments _ _ Hst) as Hseg.
  pose proof (cleanStack_fixed _ _ Hst) as Hfix.
  assert (Forall (fun w => hasByte w "/" = false) (rev stack)) as Hsl.
  { eapply Forall_impl; [exact Hseg|]. by intros x [_ ?]. }
  destruct (HasPrefix p "/"); cbv zeta.
  - rewrite bool_decide_eq_false_2 by done.
    unfold Clean. rewrite bool_decide_eq_false_2 by done.
    assert (HasPrefix ("/" ++ Join (rev stack) "/") "/" = true) as ->.
    { apply HasPrefix_spec. by eexists. }
    change ("/" ++ Join (rev stack) "/") with (String "/"%char (Join (rev stack) "/")).
    cbn [Split]. rewrite Ascii.eqb_refl. cbn [fold_left].
    replace (cleanStep true [] "") with (@nil string) by reflexivity.
    destruct (decide (rev stack = [])) as [->|Hne]; [reflexivity|].
    change "/" with (String "/"%char EmptyString) at 1.
    rewrite Split_Join, Hfix by done.
    rewrite bool_decide_eq_false_2 by done. done.
  - destruct (rev stack) as [|w ws] eqn:Er; [reflexivity|].
    apply Forall_cons in Hseg as [[Hw1 Hw2] _].
    destruct (Join_head_prefix w ws Hw2 Hw1) as [Hpre Hne].
    rewrite (bool_decide_eq_false_2 _ Hne).
    unfold Clean. rewrite bool_decide_eq_false_2 by done. rewrite Hpre.
    change "/" with (String "/"%char EmptyString) at 2.
    rewrite Split_Join by done. rewrite Hfix, Er, (bool_decide_eq_false_2 _ Hne). done.
Qed.

(** ** ASCII bytes are runes of their own, also in invalid UTF-8 *)
Lemma isASCII_not_cont c : isASCII c = true -> cont (byte c) = false.
Proof. unfold isASCII, cont. intros ?%Z.ltb_lt. apply andb_false_iff. left. apply Z.leb_gt. lia. Qed.

Lemma decode_step a s : exists r b t, decode (String a s) = (r, b) :: decode t /\
  (String.length t <= String.length s) /\
  (isASCII a = true -> r = byte a /\ t = s) /\
  (forall c, isASCII c = true -> hasByte s c = true -> hasByte t c = true).
Proof.
  assert (forall c x, isASCII c = true -> cont (byte x) = true -> Ascii.eqb x c = false) as Hc.
  { intros c x Hc Hx. apply Ascii.eqb_neq. intros ->. by rewrite isASCII_not_cont in Hx. }
  assert (forall b0 x y, valid3 b0 (byte x) (byte y) = true -> cont (byte x) = true /\ cont (byte y) = true) as H3.
  { unfold valid3, cont. intros b0 x y. repeat case_match; intros; bool_to_prop; split; apply andb_true_iff; lia. }
  assert (forall b0 x y z, valid4 b0 (byte x) (byte y) (byte z) = true ->
    cont (byte x) = true /\ cont (byte y) = true /\ cont (byte z) = true) as H4.
  { unfold valid4, cont. intros b0 x y z. repeat case_match; intros; bool_to_prop; split_and!; apply andb_true_iff; lia. }
  cbn [decode]. destruct (byte a <? 0x80)%Z eqn:Ea.
  { exists (byte a), true, s. split_and!; [done|lia|done|done]. }
  assert (isASCII a = true -> False) as Hna by (unfold isASCII; congruence).
  destruct s as [|a1 s]; [exists RuneError, false, ""; split_and!; naive_solver lia|].
  destruct (valid2 (byte a) (byte a1)) eqn:V2.
  { eexists _, true, s. split_and!; [done|simpl; lia|naive_solver|]. intros c Hcc. cbn [hasByte].
    unfold valid2 in V2. bool_to_prop. by rewrite (Hc c a1). }
  destruct s as [|a2 s]; [exists RuneError, false, (String a1 ""); split_and!; naive_solver lia|].
  destruct (valid3 (byte a) (byte a1) (byte a2)) eqn:V3.
  { eexists _, true, s. split_and!; [done|simpl; lia|naive_solver|]. intros c Hcc. cbn [hasByte].
    apply H3 in V3 as [? ?]. by rewrite (Hc c a1), (Hc c a2). }
  destruct s as [|a3 s]; [exists RuneError, false, (String a1 (String a2 "")); split_and!; naive_solver lia|].
  destruct (valid4 (byte a) (byte a1) (byte a2) (byte a3)) eqn:V4.
  { eexists _, true, s. split_and!; [done|simpl; lia|naive_solver|]. intros c Hcc. cbn [hasByte].
    apply H4 in V4 as (? & ? & ?). by rewrite (Hc c a1), (Hc c a2), (Hc c a3). }
  exists RuneError, false, (String a1 (String a2 (String a3 s))). split_and!; naive_solver lia.
Qed.

Lemma hasByte_runes c s : isASCII c = true -> hasByte s c = true -> byte c ∈ runes s.
Proof.
  intros Hc. remember (String.length s) as n eqn:En. assert (String.length s <= n) as Hn by lia. clear En.
  revert s Hn. induction n as [|n IH]; intros [|a s] Hn Hb; try done; [simpl in Hn; lia|].
  destruct (decode_step a s) as (r & b & t & Hd & Hl & Ha & Hs). unfold runes. rewrite Hd.
  cbn [map fst]. cbn [hasByte] in Hb. apply orb_true_iff in Hb as [He|Hb].
  - apply Ascii.eqb_eq in He as ->. destruct (Ha Hc) as [-> _]. by left.
  - right. apply IH; [simpl in Hn; lia|]. by apply Hs.
Qed.

(** ** Byte positions *)
Lemma taken_app a b : taken (String.length a) (a ++ b) = a.
Proof. induction a as [|x a IH]; [by destruct b|]. rewrite sapp_cons. simpl. by rewrite IH. Qed.

Lemma slength_app a b : String.length (a ++ b) = String.length a + String.length b.
Proof. induction a as [|x a IH]; [done|]. rewrite sapp_cons. simpl. by rewrite IH. Qed.

Lemma LastIndexByte_none s c : hasByte s c = false -> LastIndexByte s c = (-1)%Z.
Proof.
  induction s as [|a s IH]; [done|]. cbn [hasByte LastIndexByte]. intros [Ha Hs]%orb_false_iff.
  rewrite IH by done. by rewrite Ha.
Qed.

(** The last separator of [a ++ c ++ b] when [b] has none. *)
Lemma LastIndexByte_app a b c : hasByte b c = false ->
  LastIndexByte (a ++ String c b) c = len a.
Proof.
  intros Hb. induction a as [|x a IH].
  - rewrite sapp_nil_l. cbn [LastIndexByte]. rewrite LastIndexByte_none by done.
    by rewrite Ascii.eqb_refl.
  - rewrite sapp_cons. cbn [LastIndexByte]. rewrite IH.
    unfold len. rewrite (proj2 (Z.ltb_ge _ _)) by lia. simpl String.length. lia.
Qed.

Lemma CountByte_app a b c : CountByte (a ++ b) c = (CountByte a c + CountByte b c)%Z.
Proof. induction a as [|x a IH]; [done|]. rewrite sapp_cons. cbn [CountByte]. rewrite IH. lia. Qed.

Lemma CountByte_none s c : hasByte s c = false -> CountByte s c = 0%Z.
Proof.
  induction s as [|a s IH]; [done|]. cbn [hasByte CountByte]. intros [Ha Hs]%orb_false_iff.
  by rewrite Ha, IH.
Qed.

Lemma CountByte_nonneg s c : (0 <= CountByte s c)%Z.
Proof. induction s as [|a s IH]; [done|]. cbn [CountByte]. destruct (Ascii.eqb a c); lia. Qed.

(** A repeated byte occurs at least twice. *)
Lemma Contains_count s c : Contains s (String c (String c "")) = true -> (2 <= CountByte s c)%Z.
Proof.
  intros (a & b & ->)%Contains_spec. rewrite !CountByte_app.
  pose proof (CountByte_nonneg a c). pose proof (CountByte_nonneg b c).
  cbn [CountByte]. rewrite Ascii.eqb_refl. lia.
Qed.

Lemma hasByte_srev s c : hasByte (srev s) c = hasByte s c.
Proof.
  induction s as [|a s IH]; [done|]. rewrite srev_cons, hasByte_app, IH. cbn [hasByte].
  rewrite orb_false_r. apply orb_comm.
Qed.

(** Trimming one hyphen set keeps the alphabet and removes hyphens at the ends. *)
Lemma TrimLeft_suffix s cut : exists p, s = p ++ TrimLeft s cut.
Proof.
  induction s as [|a s [p IH]]; [by exists ""|]. cbn [TrimLeft].
  destruct (hasByte cut a); [|by exists ""]. exists (String a p). by rewrite sapp_cons, <- IH.
Qed.

Lemma TrimLeft_head s : HasPrefix (TrimLeft s "-") "-" = false.
Proof.
  induction s as [|a s IH]; [done|]. cbn [TrimLeft hasByte].
  destruct (Ascii.eqb "-" a) eqn:E; [done|]. cbn [orb]. by rewrite HasPrefix_one.
Qed.

Lemma allb_suffix P p s : allb P (p ++ s) = true -> allb P s = true.
Proof. rewrite allb_app. by intros [_ ?]%andb_true_iff. Qed.

Lemma Contains_suffix p s sub : Contains (p ++ s) sub = false -> Contains s sub = false.
Proof.
  intros H. apply not_true_is_false. intros (a & b & ->)%Contains_spec.
  assert (Contains (p ++ a ++ sub ++ b) sub = true); [|congruence].
  apply Contains_spec. exists (p ++ a), b. by rewrite sapp_assoc.
Qed.

Lemma TrimLeft_keeps P s cut : allb P s = true -> Contains s "--" = false ->
  allb P (TrimLeft s cut) = true /\ Contains (TrimLeft s cut) "--" = false.
Proof.
  intros Ha Hc. destruct (TrimLeft_suffix s cut) as [p E]. rewrite E in Ha, Hc.
  split; [by eapply allb_suffix|by eapply Contains_suffix].
Qed.

Lemma HasPrefix_TrimLeft_srev s : HasPrefix s "-" = false -> HasPrefix (srev (TrimLeft (srev s) "-")) "-" = false.
Proof.
  intros Hs. destruct (TrimLeft_suffix (srev s) "-") as [p E].
  apply (f_equal srev) in E. rewrite srev_involutive, srev_append in E.
  destruct (srev (TrimLeft (srev s) "-")) as [|b t] eqn:Et; [done|].
  rewrite E, sapp_cons in Hs. rewrite HasPrefix_one in Hs |- *. done.
Qed.

(** What [strings.Trim(s, "-")] yields from a string without double hyphens. *)
Lemma Trim_hyphenated P s : P hyphen = false ->
  allb (fun a => P a || isHyphen a) s = true -> Contains s "--" = false ->
  Trim s "-" <> "" -> hyphenated P (Trim s "-").
Proof.
  intros HP Ha Hc Hne. apply hw_hyphenated; [done|]. apply hw_local; [done|].
  unfold Trim, TrimRight in *.
  destruct (TrimLeft_keeps _ s "-" Ha Hc) as [Ha1 Hc1]. set (s1 := TrimLeft s "-") in *.
  rewrite <- allb_srev in Ha1. rewrite <- Contains_srev in Hc1. change (srev "--") with "--" in Hc1.
  destruct (TrimLeft_keeps _ (srev s1) "-" Ha1 Hc1) as [Ha2 Hc2].
  split_and!.
  - by rewrite allb_srev.
  - rewrite <- Contains_srev, srev_involutive. done.
  - unfold endsHyphen. rewrite srev_involutive. apply TrimLeft_head.
  - intros _. split; [done|]. apply HasPrefix_TrimLeft_srev. apply TrimLeft_head.
Qed.

Lemma Trim_id s : HasPrefix s "-" = false -> endsHyphen s = false -> Trim s "-" = s.
Proof.
  assert (forall s, HasPrefix s "-" = false -> TrimLeft s "-" = s) as H.
  { intros [|a t]; [done|]. rewrite HasPrefix_one. cbn [TrimLeft hasByte]. intros ->. done. }
  intros Hp He. unfold Trim, TrimRight. rewrite (H s Hp), H by done. apply srev_involutive.
Qed.
