(* ===== verification/Runtime.v ===== *)
(** * Runtime: operation admission and the synchronisation pause

    [Admission] models src/pkg/runtime/admission.go: the barrier that counts
    complete top-level operations and lets a restart quiesce them.
    [SyncPause] models src/pkg/runtime/sync_pause.go: the gate shared by every
    synchronisation worker, with the manual pause and the announcement
    editor's lease.

    A method that runs under the receiver's mutex is one atomic function of the
    state.  The closures the methods return ([release], [resume]) are handles
    in the state with their [sync.Once] flag.  Closing a closed channel panics
    in Go; the functions return [None] there. *)
From S2P Require Import Prelude.

Module Admission.

Inductive err := ErrQuiescing | ErrCtx.

(** [admissionDrain]: two channels, of which only "closed" is observable. *)
Record admissionDrain := Drain { done : bool; resumed : bool }.

(** The receiver, the heap of drain objects and the closures handed out. *)
Record t := Adm {
  active : Z;
  drain : option nat;
  drains : gmap nat admissionDrain;
  releases : gmap nat bool;
  resumes : gmap nat bool;
  next : nat
}.

Definition zero : t := Adm 0 None ∅ ∅ ∅ 0.

(** [enterLocked]: counts the operation and returns its release handle. *)
Definition enterLocked (a : t) : nat * t :=
  (next a, Adm (active a + 1) (drain a) (drains a)
               (<[next a := false]> (releases a)) (resumes a) (S (next a))).

Definition Enter (a : t) : result err nat * t :=
  match drain a with
  | Some _ => (Err ErrQuiescing, a)
  | None => let '(h, a') := enterLocked a in (Ok h, a')
  end.

(** One turn of the loop of [EnterContext] on a non-nil receiver, under the
    mutex: refused by the context, admitted, or waiting for a drain. *)
Inductive enterOutcome := EnterErr (e : err) | EnterOk (h : nat) | EnterWait (d : nat).

Definition EnterContext (ctxErr : bool) (a : t) : enterOutcome * t :=
  if ctxErr then (EnterErr ErrCtx, a)
  else match drain a with
       | None => let '(h, a') := enterLocked a in (EnterOk h, a')
       | Some d => (EnterWait d, a)
       end.

(** The [select] of [EnterContext] after a wait on drain [d]: the context ends
    the call, a closed [resumed] channel starts the next turn; neither ready
    keeps waiting. *)
Definition EnterContext_select (ctxDone pickCtx : bool) (d : nat) (a : t) : option enterOutcome * t :=
  let ready := match drains a !! d with Some c => resumed c | None => false end in
  if ctxDone && (pickCtx || negb ready) then (Some (EnterErr ErrCtx), a)
  else if ready then let '(o, a') := EnterContext ctxDone a in (Some o, a')
  else (None, a).

Definition closeDone (d : nat) (a : t) : option t :=
  match drains a !! d with
  | Some c => if done c then None
              else Some (Adm (active a) (drain a) (<[d := Drain true (resumed c)]> (drains a))
                             (releases a) (resumes a) (next a))
  | None => None
  end.

Definition closeResumed (d : nat) (a : t) : option t :=
  match drains a !! d with
  | Some c => if resumed c then None
              else Some (Adm (active a) (drain a) (<[d := Drain (done c) true]> (drains a))
                             (releases a) (resumes a) (next a))
  | None => None
  end.

(** The release closure of [enterLocked], guarded by its [sync.Once]. *)
Definition release (h : nat) (a : t) : option t :=
  match releases a !! h with
  | Some false =>
      let a1 := Adm (active a - 1) (drain a) (drains a) (<[h := true]> (releases a)) (resumes a) (next a) in
      match drain a1 with
      | Some d => if (active a1 =? 0)%Z then closeDone d a1 else Some a1
      | None => Some a1
      end
  | _ => Some a
  end.

(** [Quiesce] up to its [select]: refuses a cancelled context and a second
    drain, otherwise installs a fresh drain (already done when idle). *)
Definition Quiesce (ctxErr : bool) (a : t) : result err nat * t :=
  if ctxErr then (Err ErrCtx, a)
  else match drain a with
       | Some _ => (Err ErrQuiescing, a)
       | None =>
           let d := next a in
           (Ok d, Adm (active a) (Some d)
                      (<[d := Drain (active a =? 0)%Z false]> (drains a))
                      (releases a) (<[d := false]> (resumes a)) (S d))
       end.

(** The resume closure of drain [d]. *)
Definition resume (d : nat) (a : t) : option t :=
  match resumes a !! d with
  | Some false =>
      let a1 := Adm (active a) (drain a) (drains a) (releases a) (<[d := true]> (resumes a)) (next a) in
      if bool_decide (drain a1 = Some d)
      then closeResumed d (Adm (active a1) None (drains a1) (releases a1) (resumes a1) (next a1))
      else Some a1
  | _ => Some a
  end.

(** The [select] of [Quiesce]: [pickCtx] is Go's choice when both channels are
    ready, [ctxErr] the second look at the context in the done branch. *)
Inductive quiesceOutcome := QuiesceErr | QuiesceOk | QuiesceWait.

Definition Quiesce_select (ctxDone pickCtx ctxErr : bool) (d : nat) (a : t) : option (quiesceOutcome * t) :=
  let ready := match drains a !! d with Some c => done c | None => false end in
  if ctxDone && (pickCtx || negb ready) then (fun a' => (QuiesceErr, a')) <$> resume d a
  else if ready then
    if ctxErr then (fun a' => (QuiesceErr, a')) <$> resume d a
    else Some (QuiesceOk, a)
  else Some (QuiesceWait, a).

Record AdmissionState := Snap { Active : Z; Closed : bool }.

Definition Snapshot (a : t) : AdmissionState :=
  Snap (active a) (bool_decide (is_Some (drain a))).

(** ** Concurrent use: one configuration, atomic steps in any order

    [calls] are the [Quiesce] calls inside their [select], [held] the drains
    whose [Quiesce] returned success and whose holder did not resume yet. *)
Record config := Cfg { adm : t; calls : gset nat; held : gset nat }.

Definition init : config := Cfg zero ∅ ∅.

Inductive step : config -> config -> Prop :=
| step_enter c r a' :
    Enter (adm c) = (r, a') -> step c (Cfg a' (calls c) (held c))
| step_enter_context c ctxErr o a' :
    EnterContext ctxErr (adm c) = (o, a') -> step c (Cfg a' (calls c) (held c))
| step_enter_select c ctxDone pick d o a' :
    EnterContext_select ctxDone pick d (adm c) = (o, a') -> step c (Cfg a' (calls c) (held c))
| step_release c h a' :
    release h (adm c) = Some a' -> step c (Cfg a' (calls c) (held c))
| step_quiesce c ctxErr d a' :
    Quiesce ctxErr (adm c) = (Ok d, a') -> step c (Cfg a' ({[d]} ∪ calls c) (held c))
| step_quiesce_ok c ctxDone pick ctxErr d a' :
    d ∈ calls c -> Quiesce_select ctxDone pick ctxErr d (adm c) = Some (QuiesceOk, a') ->
    step c (Cfg a' (calls c ∖ {[d]}) ({[d]} ∪ held c))
| step_quiesce_err c ctxDone pick ctxErr d a' :
    d ∈ calls c -> Quiesce_select ctxDone pick ctxErr d (adm c) = Some (QuiesceErr, a') ->
    step c (Cfg a' (calls c ∖ {[d]}) (held c))
| step_resume c d a' :
    d ∈ held c -> resume d (adm c) = Some a' ->
    step c (Cfg a' (calls c) (held c ∖ {[d]})).

Definition reachable : config -> Prop := rtc step init.

(** Operations admitted and not yet released. *)
Definition outstanding (a : t) : gset nat := dom (filter (fun kv => kv.2 = false) (releases a)).

(** The invariant of the receiver, and of every reachable configuration. *)
Record wf (a : t) : Prop := {
  wf_count : active a = Z.of_nat (size (outstanding a));
  wf_fresh_rel : forall h, is_Some (releases a !! h) -> h < next a;
  wf_fresh_res : forall d, is_Some (resumes a !! d) -> d < next a;
  wf_drain : forall d, drain a = Some d ->
    drains a !! d = Some (Drain (active a =? 0)%Z false) /\
    resumes a !! d = Some false
}.

Record inv (c : config) : Prop := {
  inv_wf : wf (adm c);
  inv_owner : forall d, d ∈ calls c \/ d ∈ held c -> drain (adm c) = Some d;
  inv_split : forall d, d ∈ calls c -> d ∉ held c;
  inv_held : forall d, d ∈ held c -> active (adm c) = 0%Z
}.

Lemma outstanding_enter a :
  (forall h, is_Some (releases a !! h) -> h < next a) ->
  outstanding (snd (enterLocked a)) = {[next a]} ∪ outstanding a /\ next a ∉ outstanding a.
Proof.
  intros Hf. assert (releases a !! next a = None) as Hn.
  { destruct (releases a !! next a) eqn:E; [|done]. specialize (Hf (next a)). rewrite E in Hf.
    unfold is_Some in Hf. naive_solver lia. }
  unfold outstanding, enterLocked. simpl. split.
  - rewrite map_filter_insert_True by done. by rewrite dom_insert_L.
  - rewrite not_elem_of_dom. rewrite map_lookup_filter_None. by left.
Qed.

Lemma size_outstanding_enter a :
  (forall h, is_Some (releases a !! h) -> h < next a) ->
  Z.of_nat (size (outstanding (snd (enterLocked a)))) = (Z.of_nat (size (outstanding a)) + 1)%Z.
Proof.
  intros Hf. destruct (outstanding_enter a Hf) as [-> Hn].
  rewrite size_union by set_solver. rewrite size_singleton. lia.
Qed.

Lemma size_outstanding_release (m : gmap nat bool) h :
  m !! h = Some false ->
  Z.of_nat (size (dom (filter (fun kv : nat * bool => kv.2 = false) (<[h := true]> m)))) =
  (Z.of_nat (size (dom (filter (fun kv : nat * bool => kv.2 = false) m))) - 1)%Z.
Proof.
  intros Hh. rewrite map_filter_insert_False by done.
  rewrite map_filter_delete, dom_delete_L.
  assert (h ∈ dom (filter (fun kv : nat * bool => kv.2 = false) m)) as Hin.
  { apply elem_of_dom. exists false. by apply map_lookup_filter_Some. }
  rewrite size_difference by set_solver. rewrite size_singleton.
  assert (size (dom (filter (fun kv : nat * bool => kv.2 = false) m)) ≠ 0) by
    (intros ?%size_empty_inv; set_solver).
  lia.
Qed.

Lemma wf_active_nonneg a : wf a -> (0 <= active a)%Z.
Proof. intros H. rewrite (wf_count a H). lia. Qed.

Lemma wf_enterLocked a : wf a -> drain a = None -> wf (snd (enterLocked a)).
Proof.
  intros H Hd. split.
  - rewrite size_outstanding_enter by apply H. simpl. by rewrite (wf_count a H).
  - simpl. intros h. rewrite lookup_insert. case_decide; [lia|].
    intros ?%(wf_fresh_rel a H). lia.
  - simpl. intros d ?%(wf_fresh_res a H). lia.
  - simpl. by rewrite Hd.
Qed.

(** A release never closes a closed channel, and keeps the count exact. *)
Lemma wf_release a h : wf a -> exists a', release h a = Some a' /\ wf a' /\ drain a' = drain a /\
  (active a' <= active a)%Z.
Proof.
  intros H. unfold release.
  destruct (releases a !! h) as [[]|] eqn:Eh; [by exists a|..|by exists a].
  pose proof (size_outstanding_release _ _ Eh) as Hs.
  assert (active a - 1 = Z.of_nat (size (outstanding (Adm (active a - 1) (drain a) (drains a)
     (<[h := true]> (releases a)) (resumes a) (next a)))))%Z as Hc.
  { unfold outstanding; simpl. rewrite Hs. by rewrite (wf_count a H). }
  assert (forall h0, is_Some (<[h := true]> (releases a) !! h0) -> h0 < next a) as Hf.
  { intros h0. rewrite lookup_insert. case_decide; [|apply H]. subst.
    intros _. apply (wf_fresh_rel a H). by exists false. }
  simpl. destruct (drain a) as [d|] eqn:Ed.
  - destruct (wf_drain a H d Ed) as [Hd Hr].
    assert (active a ≠ 0)%Z as Hnz by lia.
    destruct (Z.eqb_spec (active a - 1) 0) as [E0|E0].
    + unfold closeDone. simpl. rewrite Hd. simpl.
      rewrite (proj2 (Z.eqb_neq _ _) Hnz). eexists; split_and!; [done| |done|simpl; lia].
      split; simpl; [done|done|apply H|].
      intros d' [= <-]. rewrite lookup_insert_eq, E0. done.
    + eexists; split_and!; [done| |done|simpl; lia].
      split; simpl; [done|done|apply H|]. intros d' [= <-]. rewrite Hd.
      rewrite (proj2 (Z.eqb_neq _ _) E0), (proj2 (Z.eqb_neq _ _) Hnz). done.
  - eexists; split_and!; [done| |done|simpl; lia].
    split; simpl; [done|done|apply H|done].
Qed.

Lemma wf_Quiesce a a' ctxErr d : wf a -> Quiesce ctxErr a = (Ok d, a') ->
  wf a' /\ drain a = None /\ drain a' = Some d /\ d = next a.
Proof.
  intros H. unfold Quiesce. destruct ctxErr; [done|]. destruct (drain a) eqn:E; [done|].
  intros [= <- <-]. split_and!; [|done..]. split; simpl.
  - apply (wf_count a H).
  - intros h ?%(wf_fresh_rel a H). lia.
  - intros d'. rewrite lookup_insert. case_decide; [lia|]. intros ?%(wf_fresh_res a H). lia.
  - intros d' [= <-]. by rewrite !lookup_insert_eq.
Qed.

(** A resume never closes a closed channel; resuming the current drain reopens
    admission and any other drain's resume leaves it alone. *)
Lemma wf_resume a d : wf a -> exists a', resume d a = Some a' /\ wf a' /\ active a' = active a /\
  (drain a = Some d -> drain a' = None) /\ (drain a <> Some d -> drain a' = drain a).
Proof.
  intros H. unfold resume.
  destruct (resumes a !! d) as [[]|] eqn:Er.
  - exists a. split_and!; try done. intros Hd. destruct (wf_drain a H d Hd); congruence.
  - assert (forall d0, is_Some (<[d := true]> (resumes a) !! d0) -> d0 < next a) as Hf.
    { intros d0. rewrite lookup_insert. case_decide; [|apply H]. subst.
      intros _. apply (wf_fresh_res a H). by exists false. }
    simpl. case_bool_decide as Hd.
    + destruct (wf_drain a H d Hd) as [Hc _]. unfold closeResumed. simpl. rewrite Hc. simpl.
      eexists; split_and!; try done. split; simpl; [apply H|apply H|done|done].
    + eexists; split_and!; try done. split; simpl; [apply H|apply H|done|].
      intros d' Hd'. destruct (wf_drain a H d' Hd'). rewrite lookup_insert_ne by congruence. done.
  - exists a. split_and!; try done. intros Hd. destruct (wf_drain a H d Hd); congruence.
Qed.

(** Every admission attempt keeps the invariant of the receiver and, while a
    drain is installed, changes nothing at all. *)
Lemma EnterContext_frame ctxErr a o a' : EnterContext ctxErr a = (o, a') -> wf a ->
  wf a' /\ drain a' = drain a /\ (drain a <> None -> a' = a).
Proof.
  unfold EnterContext. intros E H. destruct ctxErr; [by simplify_eq|].
  destruct (drain a) eqn:Ed; simplify_eq/=; [done|].
  split_and!; [by apply (wf_enterLocked a)|done|done].
Qed.

Lemma EnterContext_select_frame ctxDone pick d a o a' :
  EnterContext_select ctxDone pick d a = (o, a') -> wf a ->
  wf a' /\ drain a' = drain a /\ (drain a <> None -> a' = a).
Proof.
  unfold EnterContext_select. intros E H. case_all; try done.
  all: by eapply EnterContext_frame.
Qed.

Lemma Enter_frame a r a' : Enter a = (r, a') -> wf a ->
  wf a' /\ drain a' = drain a /\ (drain a <> None -> a' = a).
Proof.
  unfold Enter. intros E H. destruct (drain a) eqn:Ed; simplify_eq/=; [done|].
  split_and!; [by apply (wf_enterLocked a)|done|done].
Qed.

Lemma inv_admit c a' : inv c -> wf a' -> drain a' = drain (adm c) ->
  (drain (adm c) <> None -> a' = adm c) -> inv (Cfg a' (calls c) (held c)).
Proof.
  intros Hi Hw Hd Hs. split; simpl; [done| |apply Hi|].
  - rewrite Hd. apply Hi.
  - intros d Hin. rewrite Hs; [by apply (inv_held c Hi d)|].
    by rewrite (inv_owner c Hi d (or_intror Hin)).
Qed.

Lemma Quiesce_select_ok ctxDone pick ctxErr d a a' :
  Quiesce_select ctxDone pick ctxErr d a = Some (QuiesceOk, a') ->
  a' = a /\ exists c, drains a !! d = Some c /\ done c = true.
Proof.
  unfold Quiesce_select. intros E.
  destruct (ctxDone && _); [destruct (resume d a); simplify_eq/=|].
  destruct (drains a !! d) as [c|] eqn:Ec; simplify_eq/=.
  destruct (done c) eqn:Edone; simplify_eq/=. destruct ctxErr; simplify_eq/=; [|by eauto].
  destruct (resume d a); simplify_eq/=.
Qed.

Lemma Quiesce_select_err ctxDone pick ctxErr d a a' :
  Quiesce_select ctxDone pick ctxErr d a = Some (QuiesceErr, a') -> resume d a = Some a'.
Proof.
  unfold Quiesce_select. intros E. case_all; destruct (resume d a); simplify_eq/=; done.
Qed.

Lemma inv_resume c d a' : inv c -> d ∈ calls c \/ d ∈ held c -> resume d (adm c) = Some a' ->
  inv (Cfg a' (calls c ∖ {[d]}) (held c ∖ {[d]})).
Proof.
  intros Hi Hin Er. destruct (wf_resume (adm c) d (inv_wf c Hi)) as (a'' & Ea & Hw & _ & H1 & _).
  simplify_eq. pose proof (inv_owner c Hi d Hin) as Hd.
  assert (forall x, x ∈ calls c \/ x ∈ held c -> x = d) as Hone.
  { intros x Hx. pose proof (inv_owner c Hi x Hx). congruence. }
  split; simpl; [done|set_solver..].
Qed.

Lemma inv_step c c' : inv c -> step c c' -> inv c'.
Proof.
  intros Hi Hs. pose proof (inv_wf c Hi) as Hw. inversion Hs; subst.
  - destruct (Enter_frame _ _ _ H Hw) as (?&?&?). by apply inv_admit.
  - destruct (EnterContext_frame _ _ _ _ H Hw) as (?&?&?). by apply inv_admit.
  - destruct (EnterContext_select_frame _ _ _ _ _ _ H Hw) as (?&?&?). by apply inv_admit.
  - destruct (wf_release _ h Hw) as (a'' & Ea & Hw' & Hd & Hle). simplify_eq.
    split; simpl; [done| |apply Hi|].
    + rewrite Hd. apply Hi.
    + intros d Hin. pose proof (inv_held c Hi d Hin). pose proof (wf_active_nonneg _ Hw'). lia.
  - destruct (wf_Quiesce _ _ _ _ Hw H) as (Hw' & Hn & Hd & _).
    assert (forall x, x ∈ calls c \/ x ∈ held c -> False) as Hnone.
    { intros x Hx%(inv_owner c Hi). congruence. }
    split; simpl; [done|set_solver..].
  - destruct (Quiesce_select_ok _ _ _ _ _ _ H0) as [-> (ch & Hch & Hdone)].
    pose proof (inv_owner c Hi d (or_introl H)) as Hd.
    destruct (wf_drain _ Hw d Hd) as [Hc _]. simplify_eq/=. bool_to_prop.
    assert (forall x, x ∈ calls c \/ x ∈ held c -> x = d) as Hone.
    { intros x Hx%(inv_owner c Hi). congruence. }
    split; simpl; [done|set_solver..].
  - apply Quiesce_select_err in H0.
    pose proof (inv_resume c d a' Hi (or_introl H) H0) as Hr.
    replace (held c ∖ {[d]}) with (held c) in Hr; [done|].
    pose proof (inv_split c Hi d H). set_solver.
  - pose proof (inv_resume c d a' Hi (or_intror H) H0) as Hr.
    replace (calls c ∖ {[d]}) with (calls c) in Hr; [done|].
    assert (d ∉ calls c) by (intros Hx; by apply (inv_split c Hi d Hx)). set_solver.
Qed.

Lemma inv_init : inv init.
Proof. split; [split|..]; simpl; try done; try set_solver; intros ? [? ?]; simplify_map_eq. Qed.

Lemma inv_reachable c : reachable c -> inv c.
Proof.
  intros Hr. unfold reachable in Hr. remember init as i eqn:Ei.
  assert (inv i) as Hi by (subst; apply inv_init). clear Ei.
  induction Hr as [|x y z Hxy _ IH]; [done|]. apply IH. by eapply inv_step.
Qed.

(** C38. Quiescence is exclusive and complete.  In every configuration reachable
    by any interleaving of [Enter], [EnterContext], [release], [Quiesce] and
    [resume], once a [Quiesce] has returned success for drain [d] and its holder
    has not resumed, no admitted operation is outstanding, [Enter] is refused
    without any effect, a waiting [EnterContext] keeps waiting on [d], and no
    other quiesce attempt holds the barrier. *)
Theorem quiesce_excludes_work c d :
  reachable c -> d ∈ held c ->
  outstanding (adm c) = ∅ /\ active (adm c) = 0%Z /\
  Enter (adm c) = (Err ErrQuiescing, adm c) /\
  EnterContext false (adm c) = (EnterWait d, adm c) /\
  held c = {[d]} /\ calls c = ∅.
Proof.
  intros Hr%inv_reachable Hin. pose proof (inv_wf c Hr) as Hw.
  pose proof (inv_owner c Hr d (or_intror Hin)) as Hd.
  pose proof (inv_held c Hr d Hin) as H0.
  assert (forall x, x ∈ calls c \/ x ∈ held c -> x = d) as Hone.
  { intros x Hx%(inv_owner c Hr). congruence. }
  split_and!; [|done|by unfold Enter; rewrite Hd|by unfold EnterContext; rewrite Hd|set_solver|].
  - rewrite (wf_count _ Hw) in H0. apply leibniz_equiv, size_empty_iff. lia.
  - apply set_eq. intros x. split; [|set_solver]. intros Hx.
    pose proof (Hone x (or_introl Hx)) as ->. by destruct (inv_split c Hr d Hx).
Qed.

(** No execution panics and the counter is exact.  In every reachable
    configuration any release handle and any resume handle can be invoked,
    repeatedly and in any order, without closing a closed channel; [active] is
    the number of operations admitted and not yet released. *)
Theorem admission_never_panics c h d :
  reachable c ->
  is_Some (release h (adm c)) /\ is_Some (resume d (adm c)) /\
  active (adm c) = Z.of_nat (size (outstanding (adm c))).
Proof.
  intros Hr%inv_reachable. pose proof (inv_wf c Hr) as Hw. split_and!.
  - destruct (wf_release _ h Hw) as (a & -> & _). by eexists.
  - destruct (wf_resume _ d Hw) as (a & -> & _). by eexists.
  - apply Hw.
Qed.

(** C39. No lost wake-up: a [Quiesce] call that is waiting returns success as
    soon as every admitted operation has been released (its context alive). *)
Theorem quiesce_wakes c d pick :
  reachable c -> d ∈ calls c -> outstanding (adm c) = ∅ ->
  Quiesce_select false pick false d (adm c) = Some (QuiesceOk, adm c).
Proof.
  intros Hr%inv_reachable Hin Ho. pose proof (inv_wf c Hr) as Hw.
  destruct (wf_drain _ Hw d (inv_owner c Hr d (or_introl Hin))) as [Hd _].
  unfold Quiesce_select. rewrite Hd. simpl.
  rewrite (wf_count _ Hw), Ho, size_empty. done.
Qed.

(** A concrete run: one operation enters, a quiesce starts, the operation ends,
    the quiesce returns. *)
Definition demo_adm1 : t := snd (Enter zero).
Definition demo_adm2 : t := snd (Quiesce false demo_adm1).
Definition demo_adm3 : t := default zero (release 0 demo_adm2).
Definition demo_wait : config := Cfg demo_adm3 {[1]} ∅.
Definition demo_held : config := Cfg demo_adm3 ({[1]} ∖ {[1]}) ({[1]} ∪ ∅).

Lemma demo_wait_reachable : reachable demo_wait.
Proof.
  unfold reachable. eapply rtc_l; [eapply (step_enter init (Ok 0)); reflexivity|].
  eapply rtc_l; [eapply (step_quiesce _ false 1); reflexivity|].
  eapply rtc_l; [eapply (step_release _ 0); reflexivity|].
  simpl. replace ({[1]} ∪ ∅ : gset nat) with ({[1]} : gset nat) by set_solver.
  apply rtc_refl.
Qed.

Lemma demo_held_reachable : reachable demo_held.
Proof.
  eapply rtc_r; [apply demo_wait_reachable|].
  eapply (step_quiesce_ok demo_wait false false false 1); [simpl; set_solver|reflexivity].
Qed.

Lemma quiesce_excludes_work_witness :
  (1 ∈ held demo_held) /\ active (adm demo_held) = 0%Z.
Proof.
  split; [simpl; set_solver|].
  apply (quiesce_excludes_work demo_held 1); [apply demo_held_reachable|simpl; set_solver].
Defined.

Lemma admission_never_panics_witness : is_Some (release 0 (adm demo_held)).
Proof. apply (admission_never_panics demo_held 0 1). apply demo_held_reachable. Defined.

Lemma quiesce_wakes_witness :
  Quiesce_select false true false 1 (adm demo_wait) = Some (QuiesceOk, adm demo_wait).
Proof.
  apply (quiesce_wakes demo_wait 1 true); [apply demo_wait_reachable|simpl; set_solver|].
  reflexivity.
Defined.

End Admission.

Module SyncPause.

Inductive err := ErrSyncPaused | ErrDraftExpired | ErrCtx.

Definition DraftTTL : Duration := Minute.

(** The gate, with the closures [Enter] handed out and not yet called: whether
    the operation is a commit and whether it belongs to the draft. *)
Record handle := Handle { h_commit : bool; h_own : bool }.

Record t := Pause {
  manual : bool;
  token : string;
  repo : string;
  until : Time;
  commits : Z;
  polls : Z;
  publishing : bool;
  live : gmap nat handle;
  next : nat
}.

Definition zero : t := Pause false "" "" 0%Z 0 0 false ∅ 0.

(** [expire]: forgets an editor lease whose deadline has passed. *)
Definition expire (now : Time) (p : t) : t :=
  if negb (bool_decide (token p = "")) && negb (Before now (until p))
  then Pause (manual p) "" "" (until p) (commits p) (polls p) (publishing p) (live p) (next p)
  else p.

Definition SetManual (paused : bool) (p : t) : t :=
  Pause paused (token p) (repo p) (until p) (commits p) (polls p) (publishing p) (live p) (next p).

Definition Status (now : Time) (p0 : t) : (bool * bool * bool) * t :=
  let p := expire now p0 in
  ((manual p,
    negb (bool_decide (token p = "")) || publishing p,
    (manual p && (0 <? polls p)%Z) ||
    ((manual p || negb (bool_decide (token p = ""))) && (0 <? commits p)%Z)), p).

Inductive action := ActBegin | ActRenew | ActEnd | ActOther.

Definition setLease (tok rep : string) (u : Time) (p : t) : t :=
  Pause (manual p) tok rep u (commits p) (polls p) (publishing p) (live p) (next p).

(** [Draft]: begins, renews or ends the editor lease of one repository; the
    value says whether no admitted commit is left. *)
Definition Draft (now : Time) (tok rep : string) (a : action) (p0 : t) : result err bool * t :=
  let p := expire now p0 in
  if bool_decide (tok = "") || bool_decide (rep = "") then (Err ErrDraftExpired, p)
  else match a with
       | ActBegin =>
           if publishing p || (negb (bool_decide (token p = "")) &&
                (negb (bool_decide (token p = tok)) || negb (bool_decide (repo p = rep))))
           then (Err ErrSyncPaused, p)
           else let p' := setLease tok rep (Add now DraftTTL) p in
                (Ok (commits p' =? 0)%Z, p')
       | ActRenew =>
           if negb (bool_decide (token p = tok)) || negb (bool_decide (repo p = rep))
           then (Err ErrDraftExpired, p)
           else let p' := setLease (token p) (repo p) (Add now DraftTTL) p in
                (Ok (commits p' =? 0)%Z, p')
       | ActEnd =>
           (Ok true, if bool_decide (token p = tok) && bool_decide (repo p = rep)
                     then setLease "" "" (until p) p else p)
       | ActOther => (Err ErrDraftExpired, p)
       end.

(** [Enter] on a non-nil gate; [dtoken] is [DraftToken(ctx)]. *)
Definition Enter (ctxErr : bool) (now : Time) (dtoken rep : string) (commit : bool) (p0 : t)
  : result err nat * t :=
  if ctxErr then (Err ErrCtx, p0)
  else
    let p := expire now p0 in
    let own := negb (bool_decide (dtoken = "")) in
    if own && (negb commit || negb (bool_decide (token p = dtoken)) ||
               negb (bool_decide (repo p = rep)) || negb (commits p =? 0)%Z)
    then (Err ErrDraftExpired, p)
    else if manual p || (commit && (publishing p || (negb (bool_decide (token p = "")) && negb own)))
    then (Err ErrSyncPaused, p)
    else
      (Ok (next p),
       Pause (manual p) (token p) (repo p) (until p)
             (if commit then commits p + 1 else commits p)%Z
             (if commit then polls p else polls p + 1)%Z
             (if own then true else publishing p)
             (<[next p := Handle commit own]> (live p)) (S (next p))).

(** The closure [Enter] returned; a second call is a no-op ([sync.Once]). *)
Definition leave (h : nat) (p : t) : t :=
  match live p !! h with
  | Some (Handle commit own) =>
      Pause (manual p) (token p) (repo p) (until p)
            (if commit then commits p - 1 else commits p)%Z
            (if commit then polls p else polls p - 1)%Z
            (if own then false else publishing p)
            (delete h (live p)) (next p)
  | None => p
  end.

(** One atomic use of the gate. *)
Inductive op :=
| OpManual (b : bool)
| OpStatus (now : Time)
| OpDraft (now : Time) (tok rep : string) (a : action)
| OpEnter (ctxErr : bool) (now : Time) (dtoken rep : string) (commit : bool)
| OpLeave (h : nat).

Definition run1 (o : op) (p : t) : t :=
  match o with
  | OpManual b => SetManual b p
  | OpStatus now => snd (Status now p)
  | OpDraft now tok rep a => snd (Draft now tok rep a p)
  | OpEnter e now d r c => snd (Enter e now d r c p)
  | OpLeave h => leave h p
  end.

Fixpoint run (os : list op) (p : t) : t :=
  match os with [] => p | o :: os' => run os' (run1 o p) end.

Definition commitsLive (p : t) : gmap nat handle := filter (fun kv => h_commit kv.2 = true) (live p).
Definition pollsLive (p : t) : gmap nat handle := filter (fun kv => h_commit kv.2 = false) (live p).

(** The counters count the live closures; a draft publication is a live own
    commit and excludes every other commit. *)
Record wf (p : t) : Prop := {
  wf_commits : commits p = Z.of_nat (size (commitsLive p));
  wf_polls : polls p = Z.of_nat (size (pollsLive p));
  wf_fresh : forall h, is_Some (live p !! h) -> h < next p;
  wf_own_commit : forall h x, live p !! h = Some x -> h_own x = true -> h_commit x = true;
  wf_pub : publishing p = true <-> exists h x, live p !! h = Some x /\ h_own x = true;
  wf_excl : publishing p = true -> size (commitsLive p) = 1
}.

(** [wf] looks only at the counters, the flag and the live closures. *)
Lemma wf_ext p q : wf p -> commits q = commits p -> polls q = polls p ->
  publishing q = publishing p -> live q = live p -> next q = next p -> wf q.
Proof.
  intros [H1 H2 H3 H4 H5 H6] Ec Ep Epub El En.
  split; unfold commitsLive, pollsLive in *; rewrite ?Ec, ?Ep, ?Epub, ?El, ?En; done.
Qed.

Lemma expire_fields now p :
  commits (expire now p) = commits p /\ polls (expire now p) = polls p /\
  publishing (expire now p) = publishing p /\ live (expire now p) = live p /\
  next (expire now p) = next p /\ manual (expire now p) = manual p /\ until (expire now p) = until p.
Proof. unfold expire. by destruct (_ && _). Qed.

Lemma wf_expire now p : wf p -> wf (expire now p).
Proof. intros H. destruct (expire_fields now p) as (?&?&?&?&?&?&?). by eapply wf_ext. Qed.

Lemma wf_Draft now tok rep a p : wf p -> wf (snd (Draft now tok rep a p)).
Proof.
  intros H%(wf_expire now). unfold Draft, setLease.
  case_all; try done; by eapply wf_ext.
Qed.

Lemma size_filter_insert {P : nat * handle -> Prop} `{!forall x, Decision (P x)}
    (m : gmap nat handle) h x :
  m !! h = None -> size (filter P (<[h := x]> m)) =
    (if decide (P (h, x)) then S (size (filter P m)) else size (filter P m)).
Proof.
  intros Hn. case_decide as HP.
  - rewrite map_filter_insert_True by done. apply map_size_insert_None.
    apply map_lookup_filter_None. by left.
  - rewrite map_filter_insert_False by done. rewrite delete_id by done. done.
Qed.

Lemma size_filter_delete {P : nat * handle -> Prop} `{!forall x, Decision (P x)}
    (m : gmap nat handle) h x :
  m !! h = Some x -> size (filter P m) =
    (if decide (P (h, x)) then S (size (filter P (delete h m))) else size (filter P (delete h m))).
Proof.
  intros Hh. rewrite <- (insert_delete_id m h x Hh) at 1.
  rewrite size_filter_insert by apply lookup_delete_eq. done.
Qed.

Lemma wf_fresh_None p : wf p -> live p !! next p = None.
Proof.
  intros H. destruct (live p !! next p) eqn:E; [|done].
  assert (next p < next p) by (apply (wf_fresh p H); by eexists). lia.
Qed.

Lemma wf_no_commits p : wf p -> commits p = 0%Z -> commitsLive p = ∅ /\ publishing p = false.
Proof.
  intros H H0. rewrite (wf_commits p H) in H0.
  assert (size (commitsLive p) = 0) as Hz by lia. split; [by apply map_size_empty_inv|].
  destruct (publishing p) eqn:E; [|done]. pose proof (wf_excl p H E). lia.
Qed.

Lemma wf_Enter e now d r c p : wf p -> wf (snd (Enter e now d r c p)).
Proof.
  intros H0. unfold Enter. destruct e; [done|]. pose proof (wf_expire now p H0) as H.
  set (q := expire now p) in *. clearbody q. clear H0.
  set (own := negb (bool_decide (d = ""))) in *. clearbody own.
  destruct (own && _) eqn:Eown; [done|]. destruct (manual q || _) eqn:Eman; [done|]. simpl.
  pose proof (wf_fresh_None q H) as Hn.
  assert (own = true -> c = true /\ commits q = 0%Z) as Hown.
  { intros ->. simpl in Eown. bool_to_prop. done. }
  assert (c = true -> publishing q = false) as Hcp.
  { intros ->. simpl in Eman. bool_to_prop. done. }
  clear Eown Eman.
  split; unfold commitsLive, pollsLive; simpl.
  - rewrite size_filter_insert by done.
    pose proof (wf_commits q H) as Hc; unfold commitsLive in Hc.
    destruct c; case_decide; simpl in *; try done; lia.
  - rewrite size_filter_insert by done.
    pose proof (wf_polls q H) as Hc; unfold pollsLive in Hc.
    destruct c; case_decide; simpl in *; try done; lia.
  - intros h. rewrite lookup_insert. case_decide; [lia|]. intros ?%(wf_fresh q H). lia.
  - intros h x. rewrite lookup_insert. case_decide; [|apply H]. intros [= <-]; simpl. naive_solver.
  - destruct own.
    + split; [|done]. intros _. exists (next q), (Handle c true). by rewrite lookup_insert_eq.
    + rewrite (wf_pub q H). split; intros (h & x & Hx & Ho); exists h, x; split; try done.
      * rewrite lookup_insert_ne; [done|]. intros <-. congruence.
      * rewrite lookup_insert in Hx. case_decide; simplify_eq/=. done.
  - rewrite size_filter_insert by done. destruct own.
    + destruct (Hown eq_refl) as [-> Hz]. intros _. rewrite decide_True by done.
      destruct (wf_no_commits q H Hz) as [He _]. unfold commitsLive in He. by rewrite He.
    + intros Hp. destruct c; [rewrite Hcp in Hp; done|].
      rewrite decide_False by done. by apply (wf_excl q H).
Qed.

Lemma commitsLive_one p h1 h2 x1 x2 : size (commitsLive p) = 1 ->
  live p !! h1 = Some x1 -> h_commit x1 = true ->
  live p !! h2 = Some x2 -> h_commit x2 = true -> h1 = h2.
Proof.
  intros Hs H1 C1 H2 C2. rewrite <- size_dom in Hs.
  eapply (size_singleton_inv (dom (commitsLive p)) h1 h2 Hs); apply elem_of_dom;
    eexists; by apply map_lookup_filter_Some.
Qed.

Lemma wf_leave h p : wf p -> wf (leave h p).
Proof.
  intros H. unfold leave. destruct (live p !! h) as [[c own]|] eqn:Eh; [|done].
  assert (size (commitsLive p) = (if decide (c = true) then
    S (size (filter (fun kv : nat * handle => h_commit kv.2 = true) (delete h (live p)))) else
    size (filter (fun kv : nat * handle => h_commit kv.2 = true) (delete h (live p))))) as Sc
    by (unfold commitsLive; rewrite (size_filter_delete _ _ _ Eh); done).
  assert (size (pollsLive p) = (if decide (c = false) then
    S (size (filter (fun kv : nat * handle => h_commit kv.2 = false) (delete h (live p)))) else
    size (filter (fun kv : nat * handle => h_commit kv.2 = false) (delete h (live p))))) as Sp
    by (unfold pollsLive; rewrite (size_filter_delete _ _ _ Eh); done).
  pose proof (wf_commits p H) as Hc. pose proof (wf_polls p H) as Hp.
  split; simpl; unfold commitsLive, pollsLive in *; simpl.
  - destruct c; simpl in Sc; lia.
  - destruct c; simpl in Sp; lia.
  - intros h' [_ Hh]%lookup_delete_is_Some. by apply (wf_fresh p H).
  - intros h' x [_ Hx]%lookup_delete_Some. by apply (wf_own_commit p H h' x).
  - destruct own.
    + split; [done|]. intros (h' & x & [Hne Hx]%lookup_delete_Some & Ho). exfalso.
      apply Hne. assert (publishing p = true) as Hpub by (apply (wf_pub p H); eauto).
      eapply (commitsLive_one p); [by apply (wf_excl p H)|exact Eh| |exact Hx|].
      * by apply (wf_own_commit p H h _ Eh).
      * by apply (wf_own_commit p H h' _ Hx).
    + rewrite (wf_pub p H). split; intros (h' & x & Hx & Ho); exists h', x.
      * split; [|done]. apply lookup_delete_Some. split; [|done]. intros ->. by simplify_eq/=.
      * by apply lookup_delete_Some in Hx as [_ ?].
  - destruct own; [done|]. intros Hpub. pose proof (wf_excl p H Hpub) as H1.
    destruct c; [|unfold commitsLive in H1; simpl in Sc; lia].
    destruct (proj1 (wf_pub p H) Hpub) as (h' & x & Hx & Ho). exfalso.
    assert (h = h') as <-.
    { eapply (commitsLive_one p); [done|exact Eh|done|exact Hx|].
      by apply (wf_own_commit p H h' _ Hx). }
    by simplify_eq/=.
Qed.

Lemma wf_run1 o p : wf p -> wf (run1 o p).
Proof.
  intros H. destruct o; simpl.
  - by eapply wf_ext.
  - by apply wf_expire.
  - by apply wf_Draft.
  - by apply wf_Enter.
  - by apply wf_leave.
Qed.

Lemma wf_run os p : wf p -> wf (run os p).
Proof. revert p. induction os as [|o os IH]; intros p H; simpl; [done|]. by apply IH, wf_run1. Qed.

Lemma wf_zero : wf zero.
Proof.
  split; unfold commitsLive, pollsLive; simpl; rewrite ?map_filter_empty, ?map_size_empty; try done;
    [intros ? [? ?]; simplify_map_eq|]; split; [done|]. intros (?&?&?&?); simplify_map_eq.
Qed.

(** A use of the gate inside the minute that follows [t0] and which is not the
    editor's own "end". *)
Definition op_in_window (t0 : Time) (tok rep : string) (o : op) : Prop :=
  match o with
  | OpManual _ | OpLeave _ => True
  | OpStatus now | OpEnter _ now _ _ _ => (t0 <= now < t0 + DraftTTL)%Z
  | OpDraft now tk rp a => (t0 <= now < t0 + DraftTTL)%Z /\ (a = ActEnd -> tk <> tok \/ rp <> rep)
  end.

(** The lease is in force and every live commit belongs to it. *)
Record leased (t0 : Time) (tok rep : string) (p : t) : Prop := {
  ls_token : token p = tok;
  ls_repo : repo p = rep;
  ls_until : (t0 + DraftTTL <= until p)%Z;
  ls_own : forall h x, live p !! h = Some x -> h_commit x = true -> h_own x = true
}.

Lemma expire_leased t0 tok rep now p :
  leased t0 tok rep p -> (now < t0 + DraftTTL)%Z -> expire now p = p.
Proof.
  intros H Hn. unfold expire. destruct (_ && negb _) eqn:E; [|done].
  bool_to_prop. unfold Before in *. bool_to_prop. pose proof (ls_until _ _ _ _ H). lia.
Qed.

Lemma leased_run1 t0 tok rep o p : tok <> "" -> leased t0 tok rep p ->
  op_in_window t0 tok rep o -> leased t0 tok rep (run1 o p).
Proof.
  intros Ht H Hw. pose proof H as [H1 H2 H3 H4]. destruct o; simpl in *.
  - by split.
  - by rewrite (expire_leased _ _ _ _ _ H) by lia.
  - destruct Hw as [Hw He]. unfold Draft. rewrite (expire_leased _ _ _ _ _ H) by lia.
    unfold setLease, Add.
    destruct (bool_decide (tok0 = "") || _); [done|]. destruct a; simpl; [..|done].
    + destruct (publishing p || _) eqn:E; [done|]. bool_to_prop. rewrite H1 in *.
      rewrite bool_decide_eq_false_2 in * by done. simpl in *. bool_to_prop. subst.
      split; simpl; try done; lia.
    + destruct (negb _ || _) eqn:E; [done|]. split; simpl; try done; lia.
    + destruct (bool_decide _ && _) eqn:E; [|done]. bool_to_prop. subst. naive_solver.
  - unfold Enter. destruct ctxErr; [done|]. rewrite (expire_leased _ _ _ _ _ H) by lia.
    destruct (negb (bool_decide (dtoken = "")) && _) eqn:E1; [done|].
    destruct (manual p || _) eqn:E2; [done|]. split; simpl; try done.
    intros h x. destruct (decide (h = next p)) as [->|Hne].
    + rewrite lookup_insert_eq. intros [= <-]. simpl. intros ->. rewrite H1 in E2.
      rewrite (bool_decide_eq_false_2 (tok = "")) in E2 by done. simpl in E2. bool_to_prop.
      by rewrite bool_decide_eq_false_2.
    + rewrite lookup_insert_ne by done. apply H4.
  - unfold leave. destruct (live p !! h) as [[c own]|] eqn:Eh; [|done]. split; simpl; try done.
    intros h' x [_ Hx]%lookup_delete_Some. by eapply H4.
Qed.

Lemma leased_run t0 tok rep os p : tok <> "" -> leased t0 tok rep p ->
  Forall (op_in_window t0 tok rep) os -> leased t0 tok rep (run os p).
Proof.
  intros Ht. revert p. induction os as [|o os IH]; intros p H Hf; simpl; [done|].
  inversion Hf; subst. apply IH; [|done]. by apply leased_run1.
Qed.

Lemma Draft_ready_leased now tok rep a p p' : wf p ->
  Draft now tok rep a p = (Ok true, p') -> a = ActBegin \/ a = ActRenew ->
  wf p' /\ tok <> "" /\ leased now tok rep p'.
Proof.
  intros Hw HD Ha. pose proof (wf_Draft now tok rep a p Hw) as Hw'. rewrite HD in Hw'. simpl in Hw'.
  split; [done|]. revert HD. unfold Draft.
  destruct (bool_decide (tok = "") || _) eqn:E0; [done|]. bool_to_prop.
  destruct Ha as [-> | ->].
  - destruct (publishing _ || _); [done|]. intros [= Hc <-]. split; [done|].
    simpl in Hc. bool_to_prop. split; simpl; try done.
    intros h x Hx Hxc. destruct (wf_no_commits _ Hw' Hc) as [He _].
    assert (commitsLive (setLease tok rep (Add now DraftTTL) (expire now p)) !! h = Some x) as Hl
      by (by apply map_lookup_filter_Some). rewrite He in Hl. done.
  - destruct (negb _ || _) eqn:E1; [done|]. bool_to_prop. intros [= Hc <-]. split; [done|].
    simpl in Hc. bool_to_prop. split; simpl; try done.
    intros h x Hx Hxc. destruct (wf_no_commits _ Hw' Hc) as [He _].
    assert (commitsLive (setLease (token (expire now p)) (repo (expire now p)) (Add now DraftTTL) (expire now p)) !! h = Some x) as Hl
      by (by apply map_lookup_filter_Some). rewrite He in Hl. done.
Qed.

(** Draft publication is mutually exclusive.  After any sequence of uses of
    the gate the counters equal the live commit and poll closures, and while a
    draft publication is in progress its own commit is the only live commit. *)
Theorem syncpause_publication_exclusive os :
  let p := run os zero in
  commits p = Z.of_nat (size (commitsLive p)) /\
  polls p = Z.of_nat (size (pollsLive p)) /\
  (publishing p = true -> exists h, commitsLive p = {[h := Handle true true]}).
Proof.
  intros p. pose proof (wf_run os zero wf_zero) as H. fold p in H.
  split_and!; [apply H|apply H|]. intros Hp.
  destruct (proj1 (wf_pub p H) Hp) as (h & [c o] & Hx & Ho). simpl in Ho; subst o.
  pose proof (wf_own_commit p H h _ Hx eq_refl) as Hc. simpl in Hc; subst c.
  exists h. apply map_eq. intros i. destruct (decide (h = i)) as [<-|Hne].
  - rewrite lookup_singleton_eq. by apply map_lookup_filter_Some.
  - rewrite lookup_singleton_ne by done. destruct (commitsLive p !! i) eqn:E; [|done].
    apply map_lookup_filter_Some in E as [Hi Hic]. exfalso. apply Hne.
    by apply (commitsLive_one p h i _ _ (wf_excl p H Hp) Hx eq_refl Hi Hic).
Qed.

(** A granted editor lease fences every other commit.  Once [Draft] (begin
    or renew) has answered "ready" at time [t0], then after any sequence of uses
    of the gate during the following minute that does not contain the editor's
    own "end", the lease is still the same and at most one commit is live,
    necessarily one that carries the editor's token; any commit without the
    token is refused and any commit with it is admitted for that repository
    only. *)
Theorem draft_ready_fences_commits os0 t0 tok rep a p' os now d r :
  Draft t0 tok rep a (run os0 zero) = (Ok true, p') -> a = ActBegin \/ a = ActRenew ->
  Forall (op_in_window t0 tok rep) os -> (t0 <= now < t0 + DraftTTL)%Z ->
  let q := run os p' in
  token q = tok /\ repo q = rep /\ size (commitsLive q) <= 1 /\
  (forall h x, commitsLive q !! h = Some x -> h_own x = true) /\
  (d <> tok \/ r <> rep -> exists e, fst (Enter false now d r true q) = Err e).
Proof.
  intros HD Ha Hf Hn q.
  destruct (Draft_ready_leased _ _ _ _ _ _ (wf_run os0 zero wf_zero) HD Ha) as (Hw & Ht & Hl).
  pose proof (wf_run os p' Hw) as Hwq. pose proof (leased_run _ _ _ os p' Ht Hl Hf) as Hq.
  fold q in Hwq, Hq. destruct Hq as [H1 H2 H3 H4].
  assert (forall h x, commitsLive q !! h = Some x -> h_own x = true) as Hown.
  { intros h x [Hx Hc]%map_lookup_filter_Some. by eapply H4. }
  split_and!; try done.
  - destruct (decide (commitsLive q = ∅)) as [->|Hne]; [rewrite map_size_empty; lia|].
    apply map_choose in Hne as (h & x & Hx). rewrite (wf_excl q Hwq); [done|].
    apply (wf_pub q Hwq). exists h, x. split; [|by eapply Hown].
    by apply map_lookup_filter_Some in Hx as [? _].
  - intros Hdr. unfold Enter. rewrite (expire_leased t0 tok rep now q) by (try split; try done; lia).
    rewrite H1, H2. destruct (decide (d = "")) as [->|Hd].
    + rewrite (bool_decide_eq_true_2 ("" = "")) by done. simpl.
      rewrite (bool_decide_eq_false_2 (tok = "")) by done. simpl.
      rewrite !orb_true_r. simpl. by eexists.
    + rewrite (bool_decide_eq_false_2 (d = "")) by done. simpl.
      destruct (negb (bool_decide (tok = d)) || negb (bool_decide (rep = r)) || _) eqn:E; [by eexists|].
      bool_to_prop. destruct Hdr; congruence.
Qed.

Lemma draft_ready_fences_commits_witness :
  let p' := setLease "tok" "r" (Add 5%Z DraftTTL) (run [OpManual false] zero) in
  token (run [OpEnter false 7%Z "" "r" false] p') = "tok".
Proof.
  apply (draft_ready_fences_commits [OpManual false] 5%Z "tok" "r" ActBegin
    (setLease "tok" "r" (Add 5%Z DraftTTL) (run [OpManual false] zero))
    [OpEnter false 7%Z "" "r" false] 8%Z "" "r").
  - reflexivity.
  - by left.
  - repeat constructor; vm_compute; congruence.
  - split; vm_compute; congruence.
Defined.

End SyncPause.
