(* ===== verification/Naming.v ===== *)
(** * Naming: the names FileES accepts, judges and derives

    [Slug] models src/public-shares/slug/slug.go, [RealmAlias]
    src/pkg/realmalias/alias.go, [PortablePath] src/pkg/portablepath
    (portablepath.go and collision.go) and [NamingPolicy]
    src/pkg/namingpolicy/policy.go.  Error values are one constructor per
    [errors.New] of the source. *)
From S2P Require Import Prelude GoStrings.
From Stdlib Require Import Ascii String.

Open Scope string_scope.

Definition inRange (lo hi : ascii) (a : ascii) : bool := ((byte lo <=? byte a) && (byte a <=? byte hi))%Z.

(** [value[0]] and [value[len(value)-1]]. *)
Definition firstByte (s : string) : option ascii :=
  match s with EmptyString => None | String a _ => Some a end.
Definition lastByte (s : string) : option ascii := firstByte (srev s).

Definition testByte (P : ascii -> bool) (o : option ascii) : bool :=
  match o with Some a => P a | None => false end.

(** [letterOrDigit] of slug.go and of realmalias.go. *)
Definition letterOrDigit (ch : ascii) : bool := inRange "a" "z" ch || inRange "0" "9" ch.

Lemma letterOrDigit_graphic a : letterOrDigit a = true -> graphic a = true /\ isASCII a = true.
Proof. destruct a as [[][][][][][][][]]; vm_compute; naive_solver. Qed.

Lemma lastByte_hyphen s P : P hyphen = false -> testByte P (lastByte s) = true -> endsHyphen s = false.
Proof.
  unfold lastByte, endsHyphen. intros HP. destruct (srev s) as [|a t]; [done|]. simpl (firstByte _).
  cbn [testByte]. intros Ha. rewrite HasPrefix_one. destruct (Ascii.eqb_spec "-" a); [|done].
  subst. unfold hyphen in HP. congruence.
Qed.

Lemma lastByte_allb s Q (P : ascii -> bool) : allb Q s = true -> s <> "" -> endsHyphen s = false ->
  (forall a, Q a = true -> isHyphen a = false -> P a = true) -> testByte P (lastByte s) = true.
Proof.
  unfold lastByte, endsHyphen. intros HQ Hne He Himp. rewrite <- allb_srev in HQ.
  assert (srev s <> "") as Hr.
  { intros E. apply (f_equal String.length) in E. rewrite length_srev in E. by destruct s. }
  destruct (srev s) as [|a t]; [done|]. cbn [firstByte testByte allb] in *. bool_to_prop.
  rewrite HasPrefix_one in He. apply Himp; [done|]. unfold isHyphen. by rewrite Ascii.eqb_sym.
Qed.

Module Slug.

Inductive err := ErrEmpty | ErrLength | ErrEdge | ErrCharset | ErrDoubleDash | ErrReserved
  | ErrAliasEmpty | ErrAliasSegment.

Definition MinLen : Z := 3.
Definition MaxLen : Z := 64.
Definition Quarantine : string := "kwarantanna".

Definition reserved : list string :=
  ["get"; "file"; "up"; "api"; "static"; "assets"; "health"; "status"; "robots.txt";
   "favicon.ico"; "admin"; "internal"; "public"; Quarantine].

(** The character loop of [Normalize]; [prev] is [value[i-1]]. *)
Fixpoint scan (prev : option ascii) (s : string) : option err :=
  match s with
  | EmptyString => None
  | String ch s' =>
      if letterOrDigit ch then scan (Some ch) s'
      else if negb (Ascii.eqb ch hyphen) then Some ErrCharset
      else if testByte isHyphen prev then Some ErrDoubleDash
      else scan (Some ch) s'
  end.

Section WithUnicode.
Context `{UnicodeTables}.

Definition Normalize (value0 : string) : result err string :=
  let value := ToLower (TrimSpace value0) in
  if bool_decide (value = "") then Err ErrEmpty
  else if ((len value <? MinLen) || (MaxLen <? len value))%Z then Err ErrLength
  else if negb (testByte letterOrDigit (firstByte value)) || negb (testByte letterOrDigit (lastByte value))
  then Err ErrEdge
  else match scan None value with
       | Some e => Err e
       | None => if bool_decide (value ∈ reserved) then Err ErrReserved else Ok value
       end.

Definition Path (alias0 channelSlug : string) : result err string :=
  let alias := TrimSpace alias0 in
  if bool_decide (alias = "") then Err ErrAliasEmpty
  else if ContainsAny alias "/\" then Err ErrAliasSegment
  else match Normalize channelSlug with
       | Err e => Err e
       | Ok normalized => Ok ("/" ++ alias ++ "/" ++ normalized)
       end.

(** What a slug is: lowercase alphanumeric words joined by single hyphens, of
    bounded length, outside the reserved names. *)
Definition is_slug (n : string) : Prop :=
  (MinLen <= len n <= MaxLen)%Z /\ hyphenated letterOrDigit n /\ n ∉ reserved.

Lemma scan_local prev s :
  scan prev s = None <->
  allb (fun a => letterOrDigit a || isHyphen a) s = true /\ Contains s "--" = false /\
  (testByte isHyphen prev = true -> HasPrefix s "-" = false).
Proof.
  revert prev. induction s as [|a s IH]; intros prev; [by split|].
  cbn [scan allb Contains]. rewrite HasPrefix_one.
  assert (HasPrefix (String a s) "--" = Ascii.eqb "-" a && HasPrefix s "-") as -> by done.
  rewrite (Ascii.eqb_sym "-" a). change "-"%char with hyphen. fold (isHyphen a).
  destruct (isHyphen a) eqn:Eh.
  - apply Ascii.eqb_eq in Eh as ->. replace (letterOrDigit hyphen) with false by done.
    cbn [negb orb andb]. destruct (testByte isHyphen prev) eqn:Ep.
    + split; [done|]. intros (_ & _ & Hx). by specialize (Hx eq_refl).
    + rewrite IH. cbn [testByte]. replace (isHyphen hyphen) with true by done.
      rewrite orb_false_iff. split; [intros (?&?&Hx); split_and!; try done; by apply Hx|intros (?&[? ?]&?); done].
  - rewrite orb_false_r. cbn [negb andb orb]. destruct (letterOrDigit a) eqn:Ea.
    + rewrite IH. cbn [testByte andb]. rewrite Eh. split; intros (?&?&?); done.
    + split; [done|]. by intros (?&?&?).
Qed.

Lemma hyphenated_lower n : hyphenated letterOrDigit n ->
  ToLower (TrimSpace n) = n /\ n <> "" /\ testByte letterOrDigit (firstByte n) = true /\
  testByte letterOrDigit (lastByte n) = true /\ scan None n = None.
Proof.
  intros Hh. apply hw_hyphenated in Hh; [|done].
  apply (hw_local letterOrDigit true n) in Hh as (Ha & Hd & He & Hf); [|done].
  destruct (Hf eq_refl) as [Hne Hp].
  assert (allb graphic n = true) as Hg.
  { eapply allb_impl; [|exact Ha]. intros a. by destruct a as [[][][][][][][][]]; vm_compute. }
  split_and!.
  - rewrite TrimSpace_graphic by done. apply MapRunes_id; (eapply allb_impl; [|exact Ha]);
      intros a; by destruct a as [[][][][][][][][]]; vm_compute.
  - done.
  - destruct n as [|a n]; [done|]. cbn [allb firstByte testByte] in *.
    apply andb_true_iff in Ha as [Ha _]. rewrite HasPrefix_one, Ascii.eqb_sym in Hp.
    unfold isHyphen, hyphen in Ha. by rewrite Hp, orb_false_r in Ha.
  - eapply lastByte_allb; [exact Ha|done|done|]. intros a. cbn beta.
    intros [?| ->]%orb_true_iff; done.
  - apply scan_local. naive_solver.
Qed.

(** The acceptance condition of [Normalize], for every input. *)
Lemma Normalize_spec v n : Normalize v = Ok n <-> n = ToLower (TrimSpace v) /\ is_slug n.
Proof.
  unfold Normalize, is_slug. set (value := ToLower (TrimSpace v)). split.
  - case_bool_decide as E0; [done|].
    destruct ((len value <? MinLen) || (MaxLen <? len value))%Z eqn:E1; [done|].
    destruct (negb (testByte letterOrDigit (firstByte value)) || _) eqn:E2; [done|].
    destruct (scan None value) eqn:E3; [done|]. case_bool_decide as E4; [done|].
    intros [= <-]. bool_to_prop. split_and!; try done.
    apply scan_local in E3 as (Ha & Hd & _). apply hw_hyphenated; [done|].
    apply hw_local; [done|]. split_and!; try done.
    + by apply (lastByte_hyphen value letterOrDigit).
    + intros _. split; [done|]. destruct value as [|a s]; [done|].
      cbn [firstByte testByte] in *. rewrite HasPrefix_one. destruct (Ascii.eqb_spec "-" a); [|done]. by subst.
  - intros [-> (Hl & Hh & Hr)]. destruct (hyphenated_lower _ Hh) as (_ & Hne & Hf & Hla & Hs).
    rewrite bool_decide_eq_false_2 by done.
    rewrite (proj2 (Z.ltb_ge _ _)) by lia. rewrite (proj2 (Z.ltb_ge _ _)) by lia. simpl.
    rewrite Hf, Hla, Hs. simpl. by rewrite bool_decide_eq_false_2.
Qed.

Lemma is_slug_no_slash n : is_slug n -> hasByte n "/" = false /\ hasByte n "." = false.
Proof.
  intros (_ & Hh & _). apply hw_hyphenated in Hh; [|done].
  apply (hw_local letterOrDigit true n) in Hh as (Ha & _); [|done].
  split; by apply (allb_hasByte _ _ _ Ha).
Qed.

(** [slug.Normalize] accepts exactly the canonical slugs and is a
    normaliser: an input succeeds iff its trimmed, lower-cased form consists of
    3 to 64 bytes of lowercase alphanumeric words joined by single hyphens and
    is not reserved; the result is that form, and normalising it again changes
    nothing. *)
Theorem slug_normalize_canonical v n :
  (Normalize v = Ok n <-> n = ToLower (TrimSpace v) /\ is_slug n) /\
  (Normalize v = Ok n -> Normalize n = Ok n).
Proof.
  split; [apply Normalize_spec|]. intros [_ Hs]%Normalize_spec. apply Normalize_spec.
  split; [|done]. destruct Hs as (_ & Hh & _). symmetry. by apply (hyphenated_lower n).
Qed.

(** Public addresses are unambiguous: when two channels get the same
    public path, their (trimmed) realm aliases and their normalised slugs are
    the same; no alias or slug can forge another channel's path. *)
Theorem slug_path_injective a1 s1 a2 s2 p :
  Path a1 s1 = Ok p -> Path a2 s2 = Ok p ->
  TrimSpace a1 = TrimSpace a2 /\ Normalize s1 = Normalize s2.
Proof.
  unfold Path. repeat case_bool_decide; try done.
  destruct (ContainsAny (TrimSpace a1) "/\") eqn:C1; [done|].
  destruct (ContainsAny (TrimSpace a2) "/\") eqn:C2; [done|].
  destruct (Normalize s1) as [n1|] eqn:N1; [|done]. destruct (Normalize s2) as [n2|] eqn:N2; [|done].
  intros E1 E2. assert ("/" ++ TrimSpace a1 ++ "/" ++ n1 = "/" ++ TrimSpace a2 ++ "/" ++ n2) as E
    by congruence. clear E1 E2. apply sapp_inj_l in E.
  apply Normalize_spec in N1 as [_ S1], N2 as [_ S2].
  assert (forall a, ContainsAny a "/\" = false -> hasByte a "/" = false) as Hno.
  { clear. induction a as [|c a IH]; [done|]. cbn [ContainsAny hasByte]. intros [Hc Ha]%orb_false_iff.
    rewrite IH by done. destruct (Ascii.eqb_spec c "/"); [by subst|done]. }
  apply (f_equal (Split "/"%char)) in E. change ("/" ++ n1) with (String "/" n1) in E.
  change ("/" ++ n2) with (String "/" n2) in E.
  rewrite !Split_app_sep in E by auto. destruct (is_slug_no_slash n1 S1) as [L1 _].
  destruct (is_slug_no_slash n2 S2) as [L2 _]. rewrite !Split_single in E by done.
  injection E as Ea En. by rewrite Ea, En.
Qed.

End WithUnicode.

End Slug.

Module RealmAlias.

Inductive err := ErrLength | ErrEdge | ErrCharset.

Definition MinLength : Z := 3.
Definition MaxLength : Z := 32.

Definition aliasChar (ch : ascii) : bool :=
  letterOrDigit ch || Ascii.eqb ch "-" || Ascii.eqb ch "_" || Ascii.eqb ch ".".

Definition Normalize `{UnicodeTables} (value0 : string) : result err string :=
  let value := ToLower (TrimSpace value0) in
  if ((len value <? MinLength) || (MaxLength <? len value))%Z then Err ErrLength
  else if negb (testByte letterOrDigit (firstByte value)) || negb (testByte letterOrDigit (lastByte value))
  then Err ErrEdge
  else if allb aliasChar value then Ok value else Err ErrCharset.

Lemma aliasChar_facts a : aliasChar a = true ->
  graphic a = true /\ isASCII a = true /\ (asciiLower (byte a) =? byte a)%Z = true /\
  Ascii.eqb a "/" = false /\ Ascii.eqb a "\" = false.
Proof. destruct a as [[][][][][][][][]]; vm_compute; naive_solver. Qed.

(** A normalised alias is its own normal form and one path segment. *)
Lemma Normalize_fixed `{UnicodeTables} v n : Normalize v = Ok n ->
  Normalize n = Ok n /\ TrimSpace n = n /\ ContainsAny n "/\" = false /\ n <> "".
Proof.
  unfold Normalize. set (value := ToLower (TrimSpace v)).
  destruct (_ || _)%Z eqn:E1; [done|]. destruct (negb _ || _) eqn:E2; [done|].
  destruct (allb aliasChar value) eqn:E3; [|done]. intros [= <-].
  assert (TrimSpace value = value) as Ht.
  { apply TrimSpace_graphic. eapply allb_impl; [|exact E3]. intros a ?%aliasChar_facts. naive_solver. }
  assert (ToLower value = value) as Hl.
  { apply MapRunes_id; (eapply allb_impl; [|exact E3]); intros a (?&Ha&?&_)%aliasChar_facts; [done|].
    unfold toLowerRune. unfold isASCII in Ha. by rewrite Ha. }
  rewrite Ht, Hl, E1, E2, E3. split_and!; try done.
  - apply (allb_ContainsAny aliasChar); [done|reflexivity].
  - intros ->. done.
Qed.

End RealmAlias.

Module PortablePath.

Inductive Kind :=
| ReservedDevice | ReservedRune | ControlRune | Separator | TrailingDotOrSpace | Empty | CaseCollision.

#[export] Instance Kind_eq_dec : EqDecision Kind.
Proof. solve_decision. Defined.

Record Problem := Prob { p_Kind : Kind; p_Detail : string }.

Definition Token (k : Kind) : string :=
  match k with
  | ReservedDevice => "reserved_device"
  | ReservedRune => "reserved_rune"
  | ControlRune => "control_rune"
  | Separator => "separator"
  | TrailingDotOrSpace => "trailing_dot_or_space"
  | Empty => "empty"
  | CaseCollision => "case_collision"
  end.

(** [reservedRunes]: colon, star, question mark, double quote, angle brackets
    and the bar, by code point. *)
Definition reservedRunes : list Z := [0x3A; 0x2A; 0x3F; 0x22; 0x3C; 0x3E; 0x7C]%Z.

Definition reservedDeviceNames : list string :=
  ["CON"; "PRN"; "AUX"; "NUL";
   "COM1"; "COM2"; "COM3"; "COM4"; "COM5"; "COM6"; "COM7"; "COM8"; "COM9";
   "LPT1"; "LPT2"; "LPT3"; "LPT4"; "LPT5"; "LPT6"; "LPT7"; "LPT8"; "LPT9"].

Definition IsReservedRune (r : Z) : bool := existsb (Z.eqb r) reservedRunes.
Definition IsControlRune (r : Z) : bool := ((r <? 0x20) || (r =? 0x7f))%Z.

Section WithUnicode.
Context `{UnicodeTables}.

Definition IsReservedDeviceName (name : string) : bool :=
  let dot := IndexByte name "." in
  let stem := if (0 <=? dot)%Z then taken (Z.to_nat dot) name else name in
  bool_decide (ToUpper stem ∈ reservedDeviceNames).

(** The rune loop of [SegmentProblem]. *)
Fixpoint runeProblem (rs : list Z) : option Problem :=
  match rs with
  | [] => None
  | r :: rs' =>
      if ((r =? 0x2F) || (r =? 0x5C))%Z then Some (Prob Separator (encodeRune r))
      else if IsControlRune r then Some (Prob ControlRune "")
      else if IsReservedRune r then Some (Prob ReservedRune (encodeRune r))
      else runeProblem rs'
  end.

Definition SegmentProblem (segment : string) : option Problem :=
  if bool_decide (segment = "") then Some (Prob Empty "")
  else match runeProblem (runes segment) with
       | Some p => Some p
       | None =>
           if testByte (fun a => Ascii.eqb a "." || Ascii.eqb a " ") (lastByte segment)
           then Some (Prob TrailingDotOrSpace
                        (match lastByte segment with Some a => encodeRune (byte a) | None => "" end))
           else if IsReservedDeviceName segment then Some (Prob ReservedDevice "")
           else None
       end.

Definition CollisionKey (name : string) : string := ToUpper name.

Fixpoint Collides (name : string) (siblings : list string) : string :=
  match siblings with
  | [] => ""
  | sibling :: rest =>
      if bool_decide (sibling = name) then Collides name rest
      else if bool_decide (CollisionKey sibling = CollisionKey name) then sibling
      else Collides name rest
  end.

(** A rune Win32 can store in a name. *)
Definition portableRune (r : Z) : Prop :=
  (0x20 <= r)%Z /\ r <> 0x7f%Z /\ r <> 0x2F%Z /\ r <> 0x5C%Z /\ r ∉ reservedRunes.

Lemma existsb_elem r l : existsb (Z.eqb r) l = true <-> r ∈ l.
Proof.
  rewrite existsb_exists. split.
  - intros (x & Hx & ->%Z.eqb_eq). by apply list_elem_of_In.
  - intros Hr%list_elem_of_In. exists r. split; [done|apply Z.eqb_refl].
Qed.

Lemma runeProblem_None rs : runeProblem rs = None <-> Forall portableRune rs.
Proof.
  induction rs as [|r rs IH]; [by split|]. cbn [runeProblem]. rewrite Forall_cons.
  unfold portableRune at 1, IsControlRune.
  destruct ((r =? 0x2F) || (r =? 0x5C))%Z eqn:E1.
  { split; [done|]. intros [(? & ? & ? & ? & ?) _]. apply orb_true_iff in E1 as [?%Z.eqb_eq|?%Z.eqb_eq]; done. }
  destruct ((r <? 0x20) || (r =? 0x7f))%Z eqn:E2.
  { split; [done|]. intros [(? & ? & _) _]. apply orb_true_iff in E2 as [?%Z.ltb_lt|?%Z.eqb_eq]; [lia|done]. }
  unfold IsReservedRune. destruct (existsb (Z.eqb r) reservedRunes) eqn:E3.
  { apply existsb_elem in E3. split; [done|]. by intros [(? & ? & ? & ? & ?) _]. }
  rewrite IH. bool_to_prop. split; [|naive_solver]. intros Hf. rewrite <- existsb_elem, E3. split_and!; done.
Qed.

(** The portability verdict is exactly the Windows rule: a segment is
    accepted iff it is non-empty, all its runes are storable in a Win32 name, it
    does not end with a dot or a space and its stem is not a device name; an
    accepted segment is a single path component on both path syntaxes. *)
Theorem segment_problem_spec s :
  (SegmentProblem s = None <->
   s <> "" /\ Forall portableRune (runes s) /\
   testByte (fun a => Ascii.eqb a "." || Ascii.eqb a " ") (lastByte s) = false /\
   IsReservedDeviceName s = false) /\
  (SegmentProblem s = None -> Split "/" s = [s] /\ Split "\" s = [s]).
Proof.
  assert (SegmentProblem s = None <->
   s <> "" /\ Forall portableRune (runes s) /\
   testByte (fun a => Ascii.eqb a "." || Ascii.eqb a " ") (lastByte s) = false /\
   IsReservedDeviceName s = false) as Hspec.
  { unfold SegmentProblem. case_bool_decide; [naive_solver|].
    rewrite <- runeProblem_None. destruct (runeProblem (runes s)); [naive_solver|].
    destruct (testByte _ _); [naive_solver|]. destruct (IsReservedDeviceName s); naive_solver. }
  split; [done|]. intros (_ & Hr & _)%Hspec. rewrite Forall_forall in Hr.
  split; apply Split_single; apply not_true_is_false; intros E; apply hasByte_runes in E; try done;
    destruct (Hr _ E) as (_ & _ & H1 & H2 & _); [by apply H1|by apply H2].
Qed.

Lemma encodeRune_nonempty r : encodeRune r <> "".
Proof. unfold encodeRune. by repeat case_match. Qed.

Lemma CollisionKey_empty s : CollisionKey s = "" -> s = "".
Proof.
  unfold CollisionKey, ToUpper, MapRunes, runes. destruct s as [|a s]; [done|].
  destruct (decode_step a s) as (r & b & t & -> & _). cbn [map fst fold_right]. intros E. exfalso.
  apply (encodeRune_nonempty (toUpperRune r)).
  destruct (encodeRune (toUpperRune r)); [done|]. by rewrite sapp_cons in E.
Qed.

(** Collision detection is sound and complete for the uppercase model: a
    non-empty answer is a different sibling with the same key, and an empty
    answer means that no other (named) sibling shares the key. *)
Theorem collides_spec name siblings :
  (Collides name siblings <> "" ->
   Collides name siblings ∈ siblings /\ Collides name siblings <> name /\
   CollisionKey (Collides name siblings) = CollisionKey name) /\
  (Collides name siblings = "" ->
   forall s, s ∈ siblings -> s <> "" -> s <> name -> CollisionKey s <> CollisionKey name).
Proof.
  induction siblings as [|x xs [IH1 IH2]]; cbn [Collides].
  - split; [done|]. intros _ s Hs. by apply not_elem_of_nil in Hs.
  - case_bool_decide as E1; [|case_bool_decide as E2].
    + split.
      * intros Hn. destruct (IH1 Hn) as (?&?&?). split_and!; try done. by right.
      * intros He s [->|Hs]%elem_of_cons ? ?; [done|]. by apply IH2.
    + split; [intros _; split_and!; try done; by left|]. intros ->.
      destruct E1. symmetry. by apply CollisionKey_empty.
    + split.
      * intros Hn. destruct (IH1 Hn) as (?&?&?). split_and!; try done. by right.
      * intros He s [->|Hs]%elem_of_cons ? ?; [done|]. by apply IH2.
Qed.

End WithUnicode.

End PortablePath.

Module NamingPolicy.

Inductive err := ErrEmpty | ErrPath | ErrNoExtension | ErrEmptyBase | ErrEmptyExt | ErrInvalidExt | ErrEmptyAfter.

(** The [polish] table, by code point. *)
Definition polish (r : Z) : option Z :=
  match r with
  | 0x105 => Some 0x61 | 0x107 => Some 0x63 | 0x119 => Some 0x65 | 0x142 => Some 0x6C
  | 0x144 => Some 0x6E | 0xF3 => Some 0x6F | 0x15B => Some 0x73 | 0x17C => Some 0x7A | 0x17A => Some 0x7A
  | 0x104 => Some 0x41 | 0x106 => Some 0x43 | 0x118 => Some 0x45 | 0x141 => Some 0x4C
  | 0x143 => Some 0x4E | 0xD3 => Some 0x4F | 0x15A => Some 0x53 | 0x17B => Some 0x5A | 0x179 => Some 0x5A
  | _ => None
  end%Z.

Definition transliterateRune (r : Z) : Z := match polish r with Some m => m | None => r end.
Definition transliterate (s : string) : string := MapRunes transliterateRune s.

(** [extensionPattern]: one to twelve lowercase letters or digits. *)
Definition extensionPattern (s : string) : bool :=
  ((1 <=? len s) && (len s <=? 12))%Z && allb letterOrDigit s.

(** [ReplaceAllString(s, "-")] for the pattern of one or more bytes of a class.
    The three classes of the source are unions of ASCII classes with all
    non-ASCII runes or none, so runs of runes are runs of bytes. *)
Fixpoint replaceRun (P : ascii -> bool) (inRun : bool) (s : string) : string :=
  match s with
  | EmptyString => EmptyString
  | String a s' =>
      if P a then (if inRun then replaceRun P true s' else String hyphen (replaceRun P true s'))
      else String a (replaceRun P false s')
  end.

(** The class [\s] of RE2: tab, newline, form feed, carriage return, space. *)
Definition reSpace (a : ascii) : bool :=
  Ascii.eqb a "009" || Ascii.eqb a "010" || Ascii.eqb a "012" || Ascii.eqb a "013" || Ascii.eqb a " ".

Definition wordChar (a : ascii) : bool :=
  inRange "A" "Z" a || inRange "a" "z" a || inRange "0" "9" a || Ascii.eqb a "_".
Definition safeChar (a : ascii) : bool := wordChar a || isHyphen a.

Definition whitespaceRun : string -> string := replaceRun reSpace false.
Definition unsafeRun : string -> string := replaceRun (fun a => negb (safeChar a)) false.
Definition hyphenRun : string -> string := replaceRun isHyphen false.

Definition split (filename0 : string) : result err (string * string) :=
  if bool_decide (filename0 = "") || bool_decide (TrimSpace filename0 = "") then Err ErrEmpty
  else if ContainsAny filename0 (String "/" (String "\" (String "000" ""))) || Contains filename0 ".." ||
          bool_decide (filename0 = ".") || bool_decide (filename0 = "..") then Err ErrPath
  else
    let filename := TrimSpace filename0 in
    let pos := LastIndexByte filename "." in
    if (pos <? 0)%Z then Err ErrNoExtension
    else if (pos =? 0)%Z then Err ErrEmptyBase
    else if (pos =? len filename - 1)%Z then Err ErrEmptyExt
    else Ok (taken (Z.to_nat pos) filename, dropn (Z.to_nat (pos + 1)) filename).

Definition normalizeBase (base0 : string) : result err string :=
  let base := TrimSpace base0 in
  if bool_decide (base = "") then Err ErrEmptyBase
  else
    let base := transliterate base in
    let base := ReplaceByte base "." hyphen in
    let base := whitespaceRun base in
    let base := unsafeRun base in
    let base := hyphenRun base in
    let base := Trim base "-" in
    if bool_decide (base = "") then Err ErrEmptyAfter
    else if Contains base ".." || ContainsAny base "/\" then Err ErrPath
    else Ok base.

Section WithUnicode.
Context `{UnicodeTables}.

Definition normalizeExt (ext0 : string) : result err string :=
  let ext := ToLower (TrimSpace (transliterate ext0)) in
  if negb (extensionPattern ext) then Err ErrInvalidExt else Ok ext.

Definition TargetName (source : string) : result err string :=
  match split source with
  | Err e => Err e
  | Ok (base, ext) =>
      match normalizeBase base with
      | Err e => Err e
      | Ok base =>
          match normalizeExt ext with
          | Err e => Err e
          | Ok ext => Ok (base ++ "." ++ ext)
          end
      end
  end.

(** The loop over the directory segments of [TargetPath]. *)
Fixpoint targetDirs (parts : list string) : result err (list string) :=
  match parts with
  | [] => Ok []
  | part :: rest =>
      if bool_decide (part = "") || (512 <? len part)%Z || Contains part ".." || HasPrefix part "."
      then Err ErrPath
      else match normalizeBase part with
           | Err e => Err e
           | Ok p => match targetDirs rest with Err e => Err e | Ok ps => Ok (p :: ps) end
           end
  end.

Definition TargetPath (original relative : string) : result err string :=
  match TargetName original with
  | Err e => Err e
  | Ok name =>
      if bool_decide (relative = "") then Ok name
      else if negb (ValidString relative) || (4096 <? len relative)%Z ||
              ContainsAny relative (String "\" (String ":" (String "000" "")))
      then Err ErrPath
      else if existsb (fun r => IsControl r || isFormat r) (runes relative) then Err ErrPath
      else
        let parts := Split "/" relative in
        if (32 <? Z.of_nat (List.length parts))%Z || negb (bool_decide (last parts = Some original))
        then Err ErrPath
        else match targetDirs (removelast parts) with
             | Err e => Err e
             | Ok dirs => Ok (Join (app dirs [name]) "/")
             end
  end.

(** ** Lemmas *)
Lemma replaceRun_allb P Q b s : (forall a, P a = false -> Q a = true) -> Q hyphen = true ->
  allb Q (replaceRun P b s) = true.
Proof.
  intros Hn Hh. revert b. induction s as [|a s IH]; intros b; [done|]. cbn [replaceRun].
  destruct (P a) eqn:Ea; [destruct b; cbn [allb]; [apply IH|by rewrite Hh, IH]|].
  cbn [allb]. by rewrite Hn, IH.
Qed.

Lemma replaceRun_keeps P Q b s : Q hyphen = true -> allb Q s = true -> allb Q (replaceRun P b s) = true.
Proof.
  intros Hh. revert b. induction s as [|a s IH]; intros b; [done|]. cbn [allb replaceRun].
  intros [Ha Hs]%andb_true_iff. destruct (P a); [destruct b; cbn [allb]; [by apply IH|by rewrite Hh, IH]|].
  cbn [allb]. by rewrite Ha, IH.
Qed.

Lemma replaceRun_id P b s : allb (fun a => negb (P a)) s = true -> replaceRun P b s = s.
Proof.
  revert b. induction s as [|a s IH]; intros b; [done|]. cbn [allb replaceRun].
  intros [Ha%negb_true_iff Hs]%andb_true_iff. by rewrite Ha, IH.
Qed.

Lemma hyphenRun_nodouble b s :
  Contains (replaceRun isHyphen b s) "--" = false /\
  (b = true -> HasPrefix (replaceRun isHyphen b s) "-" = false).
Proof.
  revert b. induction s as [|a s IH]; intros b; [done|]. cbn [replaceRun].
  destruct (isHyphen a) eqn:Ea.
  - destruct b; [apply IH|]. split; [|done]. cbn [Contains]. destruct (IH true) as [-> Hp].
    change (HasPrefix (String hyphen (replaceRun isHyphen true s)) "--") with
      (HasPrefix (replaceRun isHyphen true s) "-"). by rewrite Hp.
  - cbn [Contains]. destruct (IH false) as [-> _].
    assert (Ascii.eqb "-" a = false) as Hs by (rewrite Ascii.eqb_sym; done).
    change (HasPrefix (String a (replaceRun isHyphen false s)) "--") with
      (Ascii.eqb "-" a && HasPrefix (replaceRun isHyphen false s) "-").
    rewrite Hs. split; [done|]. intros _. by rewrite HasPrefix_one.
Qed.

Lemma hyphenRun_id b s : Contains s "--" = false -> (b = true -> HasPrefix s "-" = false) ->
  replaceRun isHyphen b s = s.
Proof.
  revert b. induction s as [|a s IH]; intros b; [done|]. cbn [Contains replaceRun].
  intros [Hp Hc]%orb_false_iff Hb. destruct (isHyphen a) eqn:Ea.
  - apply Ascii.eqb_eq in Ea as ->. destruct b; [by specialize (Hb eq_refl)|].
    change (HasPrefix (String hyphen s) "--") with (HasPrefix s "-") in Hp. by rewrite IH.
  - by rewrite IH.
Qed.

(** The alphabet of a normalised base. *)
Lemma normalizeBase_words x b : normalizeBase x = Ok b -> hyphenated wordChar b.
Proof.
  unfold normalizeBase. case_bool_decide; [done|].
  set (u := unsafeRun _). assert (allb safeChar u = true) as Hu.
  { apply replaceRun_allb; [|done]. intros a. by intros ?%negb_false_iff. }
  case_bool_decide as Hne; [done|]. destruct (_ || _); [done|]. intros [= <-].
  apply Trim_hyphenated; [done|by apply replaceRun_keeps|apply (hyphenRun_nodouble false)|done].
Qed.

Lemma safe_facts a : safeChar a = true ->
  graphic a = true /\ isASCII a = true /\ negb (reSpace a) = true /\ Ascii.eqb a "." = false /\
  Ascii.eqb a "/" = false /\ Ascii.eqb a "\" = false /\ (transliterateRune (byte a) =? byte a)%Z = true.
Proof. destruct a as [[][][][][][][][]]; vm_compute; naive_solver. Qed.

Lemma ReplaceByte_id s old new : hasByte s old = false -> ReplaceByte s old new = s.
Proof.
  induction s as [|a s IH]; [done|]. cbn [hasByte ReplaceByte]. intros [Ha Hs]%orb_false_iff.
  by rewrite Ha, IH.
Qed.

Lemma words_facts b : hyphenated wordChar b ->
  allb safeChar b = true /\ Contains b "--" = false /\ endsHyphen b = false /\ b <> "" /\
  HasPrefix b "-" = false /\ hasByte b "." = false /\ hasByte b "/" = false /\ allb graphic b = true /\
  ContainsAny b "/\" = false.
Proof.
  intros Hh. apply hw_hyphenated in Hh; [|done].
  apply hw_local in Hh as (Ha & Hc & He & Hf); [|done]. destruct (Hf eq_refl) as [Hne Hp].
  split_and!; try done.
  - by apply (allb_hasByte safeChar).
  - by apply (allb_hasByte safeChar).
  - eapply allb_impl; [|exact Ha]. intros a Hsa. by apply (safe_facts a) in Hsa as [? _].
  - by apply (allb_ContainsAny safeChar).
Qed.

Lemma Contains_dots_none s : hasByte s "." = false -> Contains s ".." = false.
Proof.
  intros H1. apply not_true_is_false. intros H2%Contains_count. rewrite CountByte_none in H2 by done. lia.
Qed.

Lemma normalizeBase_fixed b : hyphenated wordChar b -> normalizeBase b = Ok b.
Proof.
  intros (Hs & Hc & He & Hne & Hp & Hd & Hsl & Hg & Hca)%words_facts. unfold normalizeBase.
  rewrite TrimSpace_graphic by done. rewrite bool_decide_eq_false_2 by done.
  assert (transliterate b = b) as ->.
  { apply MapRunes_id; (eapply allb_impl; [|exact Hs]); intros a Ha; by apply (safe_facts a) in Ha as (?&?&?&?&?&?&?). }
  rewrite ReplaceByte_id by done.
  assert (whitespaceRun b = b) as ->.
  { apply replaceRun_id. eapply allb_impl; [|exact Hs]. intros a Ha. by apply (safe_facts a) in Ha as (?&?&?&?). }
  assert (unsafeRun b = b) as ->.
  { apply replaceRun_id. eapply allb_impl; [|exact Hs]. intros a Ha. by rewrite Ha. }
  assert (hyphenRun b = b) as -> by (by apply hyphenRun_id).
  rewrite Trim_id by done. rewrite bool_decide_eq_false_2 by done.
  by rewrite Contains_dots_none, Hca.
Qed.

Definition is_ext (e : string) : Prop := (1 <= len e <= 12)%Z /\ allb letterOrDigit e = true.

Lemma ext_facts e : is_ext e ->
  allb graphic e = true /\ hasByte e "." = false /\ e <> "" /\ normalizeExt e = Ok e /\
  allb (fun a => safeChar a) e = true.
Proof.
  intros [Hl Ha].
  assert (forall a, letterOrDigit a = true -> graphic a = true /\ isASCII a = true /\
    (asciiLower (byte a) =? byte a)%Z = true /\ (transliterateRune (byte a) =? byte a)%Z = true /\ safeChar a = true) as Hf.
  { intros a. destruct a as [[][][][][][][][]]; vm_compute; naive_solver. }
  assert (allb graphic e = true) as Hg by (eapply allb_impl; [|exact Ha]; naive_solver).
  assert (allb isASCII e = true) as Hi by (eapply allb_impl; [|exact Ha]; naive_solver).
  split_and!; try done.
  - by apply (allb_hasByte letterOrDigit).
  - intros ->. unfold len in Hl. simpl in Hl. lia.
  - unfold normalizeExt.
    assert (transliterate e = e) as ->.
    { apply MapRunes_id; [done|]. eapply allb_impl; [|exact Ha]. naive_solver. }
    rewrite TrimSpace_graphic by done.
    assert (ToLower e = e) as ->.
    { apply MapRunes_id; [done|]. eapply allb_impl; [|exact Ha]. intros a Hla.
      destruct (Hf a Hla) as (_ & Hia & Hlo & _). unfold toLowerRune. unfold isASCII in Hia. by rewrite Hia. }
    unfold extensionPattern. rewrite Ha.
    rewrite (proj2 (Z.leb_le _ _)) by lia. by rewrite (proj2 (Z.leb_le _ _)) by lia.
  - eapply allb_impl; [|exact Ha]. naive_solver.
Qed.

Lemma TargetName_shape s t : TargetName s = Ok t ->
  exists b e, t = b ++ "." ++ e /\ hyphenated wordChar b /\ is_ext e.
Proof.
  unfold TargetName. destruct (split s) as [[x y]|]; [|done].
  destruct (normalizeBase x) as [b|] eqn:Eb; [|done]. unfold normalizeExt.
  destruct (negb _) eqn:Ee; [done|]. intros [= <-]. eexists b, _. split; [done|].
  split; [by eapply normalizeBase_words|]. apply negb_false_iff in Ee. unfold extensionPattern in Ee.
  bool_to_prop. split; [lia|done].
Qed.

Lemma TargetName_fixed b e : hyphenated wordChar b -> is_ext e ->
  TargetName (b ++ "." ++ e) = Ok (b ++ "." ++ e).
Proof.
  intros Hb He. pose proof (words_facts b Hb) as (Hs & Hc & Hend & Hne & Hp & Hd & Hsl & Hg & Hca).
  destruct (ext_facts e He) as (Hge & Hde & Hene & Hnorm & Hse).
  change ("." ++ e) with (String "." e).
  assert (split (b ++ String "." e) = Ok (b, e)) as Hsplit.
  { assert (allb graphic (b ++ String "." e) = true) as Hgt.
    { rewrite allb_app, Hg. cbn [allb]. by rewrite Hge. }
    assert (b ++ String "." e <> "") as Hn0.
    { intros E. apply (f_equal String.length) in E. rewrite slength_app in E. simpl in E. lia. }
    unfold split. rewrite TrimSpace_graphic by done. rewrite bool_decide_eq_false_2 by done.
    assert (ContainsAny (b ++ String "." e) (String "/" (String "\" (String "000" ""))) = false) as ->.
    { apply (allb_ContainsAny (fun a => safeChar a || Ascii.eqb a ".")); [|reflexivity].
      rewrite allb_app. cbn [allb]. rewrite (allb_impl _ _ b (fun a Ha => orb_true_intro _ _ (or_introl Ha)) Hs).
      by rewrite (allb_impl _ _ e (fun a Ha => orb_true_intro _ _ (or_introl Ha)) Hse). }
    assert (CountByte (b ++ String "." e) "." = 1%Z) as Hcount.
    { rewrite CountByte_app. cbn [CountByte]. rewrite !CountByte_none by done. done. }
    assert (Contains (b ++ String "." e) ".." = false) as ->.
    { apply not_true_is_false. intros Hx%Contains_count. lia. }
    rewrite (bool_decide_eq_false_2 (b ++ String "." e = ".")).
    2: { intros E. apply (f_equal String.length) in E. rewrite slength_app in E. simpl in E.
         destruct b; [done|]. simpl in E. lia. }
    rewrite (bool_decide_eq_false_2 (b ++ String "." e = "..")).
    2: { intros E. rewrite E in Hcount. done. }
    cbn [orb]. rewrite LastIndexByte_app by done.
    assert (0 < len b)%Z by (unfold len; destruct b; [done|simpl; lia]).
    assert (1 <= len e)%Z by apply He.
    rewrite (proj2 (Z.ltb_ge (len b) 0)) by lia. rewrite (proj2 (Z.eqb_neq (len b) 0)) by lia.
    assert (len (b ++ String "." e) = len b + 1 + len e)%Z as Hlen.
    { unfold len. rewrite slength_app. simpl String.length. lia. }
    rewrite Hlen. rewrite (proj2 (Z.eqb_neq (len b) _)) by lia.
    unfold len. rewrite Nat2Z.id, taken_app. do 2 f_equal.
    replace (Z.to_nat (Z.of_nat (String.length b) + 1)) with (String.length (b ++ "."))
      by (rewrite slength_app; simpl; lia).
    change (String "." e) with ("." ++ e). rewrite <- sapp_assoc. by rewrite dropn_app. }
  unfold TargetName. by rewrite Hsplit, normalizeBase_fixed, Hnorm.
Qed.

Lemma targetDirs_words ps ds : targetDirs ps = Ok ds -> Forall (hyphenated wordChar) ds /\ List.length ds = List.length ps.
Proof.
  revert ds. induction ps as [|p ps IH]; intros ds; cbn [targetDirs]; [intros [= <-]; done|].
  destruct (_ || _); [done|]. destruct (normalizeBase p) eqn:E; [|done].
  destruct (targetDirs ps) as [ds'|]; [|done]. intros [= <-]. destruct (IH _ eq_refl) as [? Hl].
  split; [|simpl; by rewrite Hl]. constructor; [|done]. by eapply normalizeBase_words.
Qed.

Lemma TargetName_plain b e : hyphenated wordChar b -> is_ext e -> plainSegment (b ++ "." ++ e).
Proof.
  intros Hb He. destruct (words_facts b Hb) as (_ & _ & _ & Hne & _ & Hd & Hsl & _).
  destruct (ext_facts e He) as (_ & Hde & Hene & _ & Hse).
  change ("." ++ e) with (String "." e). destruct b as [|a b]; [done|].
  cbn [hasByte] in Hd. apply orb_false_iff in Hd as [Ha _].
  assert (forall x, String a b ++ String "." e <> String "." x) as Hx.
  { intros x. rewrite sapp_cons. intros [= -> _]. done. }
  split_and!; [by rewrite sapp_cons|apply Hx|apply Hx|].
  rewrite hasByte_app, Hsl. cbn [hasByte orb]. by apply (allb_hasByte safeChar).
Qed.

Lemma words_plain b : hyphenated wordChar b -> plainSegment b.
Proof.
  intros (Hs & _ & _ & Hne & _ & Hd & Hsl & _)%words_facts. split_and!; try done; by intros ->.
Qed.

(** Derived file names are canonical: whatever a contributor sends, an
    accepted name is made of hyphenated words over letters, digits and
    underscore, one dot, and an extension of 1 to 12 lowercase letters or
    digits; deriving it again yields the same name. *)
Theorem target_name_canonical source t :
  TargetName source = Ok t ->
  (exists b e, t = b ++ "." ++ e /\ hyphenated wordChar b /\ is_ext e) /\ TargetName t = Ok t.
Proof.
  intros Ht. pose proof (TargetName_shape _ _ Ht) as Hsh. split; [done|].
  destruct Hsh as (b & e & -> & Hb & He). by apply TargetName_fixed.
Qed.

(** A shelf path cannot escape or be re-interpreted: an accepted path is
    relative, at most 32 segments long, ends with the derived file name, and
    every segment is non-empty, is neither "." nor ".." and holds no slash, so
    that [path.Clean] leaves it as it is. *)
Theorem target_path_confined original relative p :
  TargetPath original relative = Ok p ->
  Clean p = p /\ IsAbs p = false /\ Forall plainSegment (Split "/" p) /\
  List.length (Split "/" p) <= 32 /\ exists name, TargetName original = Ok name /\ last (Split "/" p) = Some name.
Proof.
  unfold TargetPath. destruct (TargetName original) as [name|] eqn:En; [|done].
  destruct (TargetName_shape _ _ En) as (b & e & Ename & Hb & He).
  assert (plainSegment name) as Hn by (subst name; by apply TargetName_plain).
  assert (forall ds, Forall (hyphenated wordChar) ds -> List.length ds < 32 ->
    let q := Join (app ds [name]) "/" in
    Clean q = q /\ IsAbs q = false /\ Forall plainSegment (Split "/" q) /\
    List.length (Split "/" q) <= 32 /\ last (Split "/" q) = Some name) as Hmain.
  { intros ds Hds Hl q. subst q. assert (Forall plainSegment (app ds [name])) as Hall.
    { apply Forall_app. split; [|by constructor]. eapply Forall_impl; [exact Hds|]. apply words_plain. }
    assert (app ds [name] <> []) as Hne by (by destruct ds).
    assert (Split "/" (Join (app ds [name]) "/") = app ds [name]) as Hsp.
    { apply Split_Join; [done|]. eapply Forall_impl; [exact Hall|]. by intros x (_&_&_&?). }
    split_and!; [by apply Clean_plain| |by rewrite Hsp|rewrite Hsp, length_app; simpl; lia|by rewrite Hsp, last_snoc].
    destruct (app ds [name]) as [|w ws]; [done|]. inversion Hall as [|? ? (H1 & _ & _ & H4) _]; subst.
    by apply Join_head_prefix. }
  case_bool_decide as Er.
  - intros [= <-]. destruct (Hmain [] ltac:(done) ltac:(simpl; lia)) as (?&?&?&?&?).
    cbn [app Join] in *. split_and!; try done. by exists name.
  - destruct (_ || _); [done|]. destruct (existsb _ _); [done|].
    destruct ((32 <? _)%Z || _) eqn:Ep; [done|].
    destruct (targetDirs _) as [ds|] eqn:Ed; [|done]. intros [= <-]. bool_to_prop.
    destruct (targetDirs_words _ _ Ed) as [Hw Hlen].
    assert (List.length ds < 32) as Hl.
    { rewrite Hlen. destruct (Split "/" relative) as [|w ws]; [simpl; lia|].
      rewrite removelast_firstn_len, length_firstn. simpl in *. lia. }
    destruct (Hmain ds Hw Hl) as (?&?&?&?&?). split_and!; try done. by exists name.
Qed.

(** C40. What the naming policy produces is portable but for device names: an
    accepted target name is either a representable Windows name or it is
    refused for exactly one reason, a reserved device stem. *)
Theorem target_name_portable source t :
  TargetName source = Ok t ->
  PortablePath.SegmentProblem t = None \/
  PortablePath.SegmentProblem t = Some (PortablePath.Prob PortablePath.ReservedDevice "").
Proof.
  intros (b & e & -> & Hb & He)%TargetName_shape.
  destruct (words_facts b Hb) as (Hs & _ & _ & Hne & _).
  destruct (ext_facts e He) as (_ & _ & Hene & _ & Hse). destruct He as [_ Hle].
  change ("." ++ e) with (String "." e). set (t := b ++ String "." e).
  assert (allb (fun a => safeChar a || Ascii.eqb a ".") t = true) as Hall.
  { unfold t. rewrite allb_app. cbn [allb]. rewrite (allb_impl _ _ b (fun a Ha => orb_true_intro _ _ (or_introl Ha)) Hs).
    by rewrite (allb_impl _ _ e (fun a Ha => orb_true_intro _ _ (or_introl Ha)) Hse). }
  assert (t <> "") as Htne by (unfold t; by destruct b).
  unfold PortablePath.SegmentProblem. rewrite bool_decide_eq_false_2 by done.
  assert (PortablePath.runeProblem (runes t) = None) as ->.
  { apply PortablePath.runeProblem_None. rewrite runes_ascii.
    2: { eapply allb_impl; [|exact Hall]. intros a. by destruct a as [[][][][][][][][]]; vm_compute. }
    unfold bytes. clearbody t. clear Htne. induction t as [|a t IH]; [constructor|].
    cbn [allb] in Hall. apply andb_true_iff in Hall as [Ha Ht]. cbn [list_ascii_of_string map].
    constructor; [|by apply IH]. rewrite <- (Forall_singleton PortablePath.portableRune).
    rewrite <- PortablePath.runeProblem_None. revert Ha. clear.
    destruct a as [[][][][][][][][]]; vm_compute; try done; congruence. }
  assert (testByte (fun a => Ascii.eqb a "." || Ascii.eqb a " ") (lastByte t) = false) as ->.
  { unfold lastByte, t. change (String "." e) with ("." ++ e). rewrite !srev_append.
    rewrite <- allb_srev in Hle. assert (srev e <> "") as Hr.
    { intros E. apply (f_equal String.length) in E. rewrite length_srev in E. by destruct e. }
    destruct (srev e) as [|c r]; [done|]. cbn [allb] in Hle. apply andb_true_iff in Hle as [Hc _].
    rewrite !sapp_cons. cbn [firstByte testByte]. revert Hc. clear.
    destruct c as [[][][][][][][][]]; vm_compute; try done; congruence. }
  destruct (PortablePath.IsReservedDeviceName t); [by right|by left].
Qed.

End WithUnicode.

End NamingPolicy.

(** ** Witnesses, with tables that leave non-ASCII runes alone *)
Definition asciiTables : UnicodeTables := {| u_lower := id; u_upper := id; u_format := fun _ => false |}.

Lemma slug_path_injective_witness :
  @TrimSpace " acme " = "acme" /\
  @Slug.Normalize asciiTables "Tender-7" = @Slug.Normalize asciiTables " tender-7".
Proof.
  apply (@Slug.slug_path_injective asciiTables " acme " "Tender-7" "acme" " tender-7" "/acme/tender-7"); reflexivity.
Defined.

Lemma target_name_canonical_witness :
  @NamingPolicy.TargetName asciiTables "Raport-v2.pdf" = Ok "Raport-v2.pdf".
Proof.
  apply (@NamingPolicy.target_name_canonical asciiTables "Raport  v2.PDF" "Raport-v2.pdf").
  all: reflexivity.
Defined.

Lemma target_path_confined_witness : Clean "A-1/b_2/plik.txt" = "A-1/b_2/plik.txt".
Proof.
  apply (@NamingPolicy.target_path_confined asciiTables "plik.TXT" "A 1/b_2/plik.TXT" "A-1/b_2/plik.txt").
  reflexivity.
Defined.

(** The device-name case of C12 occurs: an upload called "con.txt" is accepted
    under a name no Windows working copy can hold. *)
Lemma target_name_portable_witness :
  @NamingPolicy.TargetName asciiTables "con.txt" = Ok "con.txt" /\
  (@PortablePath.SegmentProblem asciiTables "con.txt" = None \/
   @PortablePath.SegmentProblem asciiTables "con.txt" =
     Some (PortablePath.Prob PortablePath.ReservedDevice "")).
Proof.
  split; [reflexivity|]. apply (@NamingPolicy.target_name_portable asciiTables "con.txt" "con.txt"). reflexivity.
Defined.

Lemma upload_device_name_accepted :
  @NamingPolicy.TargetPath asciiTables "con.txt" "" = Ok "con.txt" /\
  @PortablePath.SegmentProblem asciiTables "con.txt" =
    Some (PortablePath.Prob PortablePath.ReservedDevice "").
Proof. split; reflexivity. Qed.
