(* ===== verification/Passport.v ===== *)
(** * Passport: the edit-passport manager

    Models src/pkg/passport: manager.go, pending.go, ownership.go,
    release_receipt.go, acquisition_receipt.go, heartbeat_observation.go and
    execution_recovery.go.  An edit passport is a renewable local record backed
    by an authoritative repository lock whose token fences publications.

    The manager's memory, the durable store file, the outside world and a trace
    of the remote mutations are one state; a method is a function of the state
    monad of [Prelude].  Everything the manager calls - the lock backend, the
    clock, the context, the store's file system, UUIDs, the JSON codec - is a
    field of the class [Env]; the theorems hold for every instance.  The textual
    output of svn, which the source joins for display, is not modelled.  All
    methods run under the manager's mutexes, so each is one atomic step. *)
From S2P Require Import Prelude GoStrings.
From Stdlib Require Import Ascii String.

Open Scope string_scope.
Open Scope go_scope.

(** ** Data *)
Definition CommentPrefix : string := "filees.edit-passport/v1 ".

(** A state read from the store file may be any other string. *)
Inductive PState := StateActive | StateLost | StateExpired | StatePending | StateReleasing | StateOther (s : string).

#[export] Instance PState_eq_dec : EqDecision PState.
Proof. solve_decision. Defined.

Inductive Stage := SPrepare | SLocking | SChecking | SCanceling | SSettling.

#[export] Instance Stage_eq_dec : EqDecision Stage.
Proof. solve_decision. Defined.

Inductive Mode := ModeAcquire | ModeMigrate | ModeRenew.

#[export] Instance Mode_eq_dec : EqDecision Mode.
Proof. solve_decision. Defined.

Record Metadata := Meta {
  md_AcquisitionID : string;
  md_PassportID : string;
  md_InstanceUID : string;
  md_PreviousToken : string;
  md_RealmID : string;
  md_IssuedAt : Time;
  md_ExpiresAt : Time;
  md_HardExpiresAt : Time
}.

(** control.Ticket: immutable and opaque to the manager, but for the two
    fields it shows.  The payload is a [json.RawMessage].  Here it is the JSON
    value it denotes, named by its compact text: [MarshalIndent] re-indents the
    raw bytes when the ticket is stored, and every reader of them decodes the
    value or marshals it again, which compacts. *)
Record Ticket := Tick {
  tk_Schema : string;
  tk_OperationID : string;
  tk_RequestID : string;
  tk_Type : string;
  tk_ClientID : string;
  tk_CreatedAt : string;
  tk_Payload : string
}.

Record LockIntent := Intent {
  li_Acquisition : option Ticket;
  li_Stage : Stage;
  li_RepoID : string;
  li_ClientID : string;
  li_Path : string;
  li_Mode : Mode;
  li_Metadata : Metadata;
  li_Ticket : option Ticket
}.

Record Passport := Pass {
  p_Path : string;
  p_PassportID : string;
  p_InstanceUID : string;
  p_RealmID : string;
  p_FencingToken : string;
  p_IssuedAt : Time;
  p_LastHeartbeatAt : Time;
  p_ExpiresAt : Time;
  p_HardExpiresAt : Time;
  p_CloseAfter : Time;
  p_State : PState;
  p_Pending : option LockIntent
}.

Record Lock := MkLock { l_Token : string; l_Owner : string; l_Comment : string }.
Record LockReleaseReceipt := Receipt { rr_Token : string; rr_State : string }.
Record OwnershipHold := Hold { oh_Token : string; oh_RealmID : string; oh_Owner : string; oh_Comment : string }.
Record OwnershipView := View {
  ov_Owners : gmap string string;
  ov_Holds : gmap string OwnershipHold;
  ov_ObservedAt : Time
}.
Record PendingStatus := PStatus { ps_ID : string; ps_Path : string; ps_Since : string; ps_Phase : string }.

(** Errors of the control-channel backend (ControlTickets and ControlBackend). *)
Inductive cerr :=
| CPayload | CSchema | CUuid | CClientID | CTime | CPath | CObservedID | CMode | CComment | CExpiryComment
| CState | CResultShape | CStatus | CCancelActor | CCancelOriginal | CMarshal
| CUnavailable | CTicketType | CResponseMismatch | CReceiptMismatch
| CRemote (code message : string) | CUnknown (code message : string) | CAborted (request : string)
| CDurableRequired | CAbsolute | CBinding | CNoReceipts | CAcquisitionActor | CAcquisitionBinding
| CAcquisitionMissing | CLifetime | CFreshData | CTicketMissing | CTicketMismatch
| CNotPreparing | CNotDurable | CNoClient | CNoToken | CNoAuthority.

Inductive err :=
| EControl (e : cerr)
| EHeldByOther (path holder instance realm : string) (until : Time)
| ENoPassport (path : string)
| EPassportLost (path : string)
| ENoPaths | ENoToken | EUncertain | ERequestConflict | EStale | EAborted | EOwnerUnavailable
| EWcMissing | EOutsideWC | EPendingUnavailable | ERecoveryUnavailable | ESettleStage | EReceiptMismatch
| ENotFresh | ENoBinding | EIncomplete | ERel
| EOpenArgs | EHeartbeatTTL | EMaxSession
| EReleaseBinding | EPendingBackend | EPendingMismatch | EInvalidEntry | EDuplicatePath | ECorrupt
| ENoNeedsLock | EExt (code : nat)
| EJoin (a b : err).

Definition joinErr (a : err) (b : option err) : err := match b with Some b => EJoin a b | None => a end.

(** ** Lock comments: a prefix, then the metadata as JSON *)
Definition formatComment (marshal : Metadata -> string) (meta : Metadata) : string := CommentPrefix ++ marshal meta.

Definition parseComment (unmarshal : string -> option Metadata) (comment : string) : option Metadata :=
  if negb (HasPrefix comment CommentPrefix) then None
  else match unmarshal (TrimPrefix comment CommentPrefix) with
       | None => None
       | Some meta =>
           if bool_decide (md_PassportID meta = "") || bool_decide (md_InstanceUID meta = "")
              || IsZero (md_ExpiresAt meta) || IsZero (md_HardExpiresAt meta)
           then None else Some meta
       end.

(** ** The outside world *)

(** The file-system calls of [saveLocked], in the order it makes them. *)
Inductive fsop :=
| FsStatSvn (wc : string)
| FsStatDir
| FsMkdirAll
| FsMarshal (l : list Passport)
| FsCreateTemp
| FsChmodTemp
| FsWriteTemp (l : list Passport)
| FsSyncTemp
| FsCloseTemp
| FsRename
| FsSyncDirectory.

(** The durable intent protocol a backend may offer ([intentBackend], with the
    optional [acquisitionReceiptBackend] and [SettleLockIntent]). *)
Record IntentBackend (W : Type) := {
  ib_new : string -> Metadata -> Mode -> Time -> W -> result err LockIntent * W;
  ib_validate : string -> LockIntent -> option err;
  ib_prepare : string -> LockIntent -> W -> option err * W;
  ib_cancel : string -> LockIntent -> W -> option err * W;
  ib_acquire : string -> LockIntent -> W -> option err * W;
  ib_acquireReceipt : option (string -> LockIntent -> W -> result err (option Lock) * W);
  ib_confirm : string -> LockIntent -> W -> result err (option Lock) * W;
  ib_reconcile : string -> LockIntent -> W -> result err (option Lock * bool) * W;
  ib_settle : option (string -> LockIntent -> W -> option err * W)
}.
Arguments ib_new {W}. Arguments ib_validate {W}. Arguments ib_prepare {W}. Arguments ib_cancel {W}.
Arguments ib_acquire {W}. Arguments ib_acquireReceipt {W}. Arguments ib_confirm {W}.
Arguments ib_reconcile {W}. Arguments ib_settle {W}.

Definition ReceiptBackend (W : Type) : Type :=
  string -> string -> W -> result err (option LockReleaseReceipt) * W.

Class Env (W : Type) := {
  e_now : W -> Time * W;
  e_wallNow : W -> Time * W;
  e_ctxErr : W -> option err * W;
  e_newUUID : W -> string * W;
  e_inspect : string -> W -> result err (option Lock) * W;
  e_lock : string -> string -> bool -> W -> result err (option Lock) * W;
  e_unlock : string -> W -> option err * W;
  e_fs : fsop -> W -> option err * W;
  e_readStore : W -> option err * W;
  e_dies : W -> bool * W;
  e_receipt : option (ReceiptBackend W);
  e_intent : option (IntentBackend W);
  e_ownership : option (W -> result err OwnershipView * W);
  e_heartbeatOwnership : option (W -> result err OwnershipView * W);
  e_restoreWritable : string -> W -> option err * W;
  e_marshalMeta : Metadata -> string;
  e_unmarshalMeta : string -> option Metadata;
  e_isAborted : err -> Ticket -> bool;
  e_formatTime : Time -> string
}.

(** The values of [Config] and the manager's identity. *)
Record Config := Cfg {
  c_TTL : Duration;
  c_HeartbeatInterval : Duration;
  c_MaxSession : Duration;
  c_CloseGrace : Duration;
  c_WorkingCopy : string;
  c_OnPending : bool;
  c_OnReleased : bool;
  c_BeginMutation : bool;
  c_InstanceUID : string
}.

Definition withDefaults (c : Config) : Config :=
  Cfg (if (c_TTL c <=? 0)%Z then 15 * Minute else c_TTL c)%Z
      (if (c_HeartbeatInterval c <=? 0)%Z then 5 * Minute else c_HeartbeatInterval c)%Z
      (if (c_MaxSession c <=? 0)%Z then 24 * Hour else c_MaxSession c)%Z
      (if (c_CloseGrace c <=? 0)%Z then 5 * Minute else c_CloseGrace c)%Z
      (c_WorkingCopy c) (c_OnPending c) (c_OnReleased c) (c_BeginMutation c) (c_InstanceUID c).

(** Remote mutations, each recorded with the durable store at that moment. *)
Inductive mutation :=
| MLock (path comment : string) (force : bool)
| MUnlock (path : string)
| MReleaseToken (path token : string)
| MPrepare (path : string) (i : LockIntent)
| MAcquire (path : string) (i : LockIntent)
| MCancel (path : string) (i : LockIntent)
| MSettle (path : string) (i : LockIntent).

Inductive event :=
| EvMut (m : mutation) (disk : option (list Passport))
| EvMint (path : string) (i : LockIntent)
| EvFence (opened : bool)
| EvPending (l : list PendingStatus)
| EvReleased (path token : string)
| EvChmod (path : string) (mode : Z).

(** ** Pure helpers *)
Definition minTime (a b : Time) : Time := if Before a b then a else b.

Definition strLe (a b : string) : Prop := String.le a b.
#[export] Instance strLe_dec : RelDecision strLe := String.le_dec.

(** The de-duplication loop of [cleanPaths]. *)
Fixpoint cleanLoop (seen : gset string) (paths : list string) : list string :=
  match paths with
  | [] => []
  | p0 :: rest =>
      let p := Clean (TrimSpace p0) in
      if bool_decide (p = ".") || bool_decide (p ∈ seen) then cleanLoop seen rest
      else p :: cleanLoop ({[p]} ∪ seen) rest
  end.

Definition cleanPaths (paths : list string) : list string := merge_sort strLe (cleanLoop ∅ paths).

Definition pathLe (p q : Passport) : Prop := String.le (p_Path p) (p_Path q).
#[export] Instance pathLe_dec : RelDecision pathLe := fun p q => String.le_dec (p_Path p) (p_Path q).

(** The sorted list [Snapshot] returns and [saveLocked] writes. *)
Definition sortedPassports (m : gmap string Passport) : list Passport :=
  merge_sort pathLe (map snd (map_to_list m)).

(** [filepath.Rel] on Unix paths. *)
Fixpoint stripCommon (b t : list string) : list string * list string :=
  match b, t with
  | x :: b', y :: t' => if bool_decide (x = y) then stripCommon b' t' else (b, t)
  | _, _ => (b, t)
  end.

Definition segments (p : string) : list string :=
  List.filter (fun w => negb (bool_decide (w = ""))) (Split "/" p).

Definition Rel (base0 targ0 : string) : option string :=
  let base := Clean base0 in
  let targ := Clean targ0 in
  if bool_decide (base = targ) then Some "."
  else
    let base := if bool_decide (base = ".") then "" else base in
    if negb (Bool.eqb (HasPrefix base "/") (HasPrefix targ "/")) then None
    else
      let '(b, t) := stripCommon (segments base) (segments targ) in
      match b with
      | [] => Some (Join t "/")
      | x :: _ => if bool_decide (x = "..") then None
                  else Some (Join (app (map (fun _ => "..") b) t) "/")
      end.

(** [rel == ".."] or [rel] starts with ["../"]. *)
Definition climbs (rel : string) : bool := bool_decide (rel = "..") || HasPrefix rel "../".

Definition acquisitionReceiptFresh (started now : Time) : bool :=
  negb (IsZero started) && negb (Before now started) && (Sub now started <? Minute)%Z.

Definition setState (s : PState) (p : Passport) : Passport :=
  Pass (p_Path p) (p_PassportID p) (p_InstanceUID p) (p_RealmID p) (p_FencingToken p) (p_IssuedAt p)
       (p_LastHeartbeatAt p) (p_ExpiresAt p) (p_HardExpiresAt p) (p_CloseAfter p) s (p_Pending p).
Definition setCloseAfter (t : Time) (p : Passport) : Passport :=
  Pass (p_Path p) (p_PassportID p) (p_InstanceUID p) (p_RealmID p) (p_FencingToken p) (p_IssuedAt p)
       (p_LastHeartbeatAt p) (p_ExpiresAt p) (p_HardExpiresAt p) t (p_State p) (p_Pending p).
Definition setPending (i : option LockIntent) (p : Passport) : Passport :=
  Pass (p_Path p) (p_PassportID p) (p_InstanceUID p) (p_RealmID p) (p_FencingToken p) (p_IssuedAt p)
       (p_LastHeartbeatAt p) (p_ExpiresAt p) (p_HardExpiresAt p) (p_CloseAfter p) (p_State p) i.
Definition setStage (s : Stage) (i : LockIntent) : LockIntent :=
  Intent (li_Acquisition i) s (li_RepoID i) (li_ClientID i) (li_Path i) (li_Mode i) (li_Metadata i) (li_Ticket i).

(** [p.State = StateLost; p.CloseAfter = time.Time{}] *)
Definition lose (p : Passport) : Passport := setCloseAfter 0%Z (setState StateLost p).

(** ** The manager *)

(** The manager's map, the store file (as the list it decodes to; [None] when it
    does not exist), the outside world, and the events so far, newest first. *)
Record st (W : Type) := St {
  passports : gmap string Passport;
  disk : option (list Passport);
  world : W;
  trace : list event
}.
Arguments St {W}. Arguments passports {W}. Arguments disk {W}. Arguments world {W}. Arguments trace {W}.

Inductive acqStep := AqKeep (p : Passport) | AqNew (p : Passport) | AqFail (e : err) | AqRollback (e : err).

(** A manager method: it returns, or the process dies in it and leaves the store
    file as it is at that moment. *)
Definition P {W : Type} (A : Type) : Type := MC (st W) A.

Section Operations.
  Context {W : Type} `{E : !Env W}.
  Variable cfg : Config.

(** A call into the world; the process may die before it. *)
Definition ask {A} (f : W -> A * W) : P A := fun s =>
  let '(dead, w) := e_dies (world s) in
  if dead then (None, St (passports s) (disk s) w (trace s))
  else let '(a, w') := f w in (Some a, St (passports s) (disk s) w' (trace s)).

Definition emit (e : event) : P (W:=W) unit := fun s =>
  (Some tt, St (passports s) (disk s) (world s) (e :: trace s)).

(** A remote mutation: recorded with the store file of that moment. *)
Definition mutate {A} (m : mutation) (f : W -> A * W) : P A := fun s =>
  let '(dead, w) := e_dies (world s) in
  if dead then (None, St (passports s) (disk s) w (trace s))
  else let '(a, w') := f w in
       (Some a, St (passports s) (disk s) w' (EvMut m (disk s) :: trace s)).

Definition getPassports : P (W:=W) (gmap string Passport) := fun s => (Some (passports s), s).
Definition getDisk : P (W:=W) (option (list Passport)) := fun s => (Some (disk s), s).
Definition put (k : string) (p : Passport) : P (W:=W) unit := fun s =>
  (Some tt, St (<[k := p]> (passports s)) (disk s) (world s) (trace s)).
Definition remove (k : string) : P (W:=W) unit := fun s =>
  (Some tt, St (delete k (passports s)) (disk s) (world s) (trace s)).
Definition install (m : gmap string Passport) : P (W:=W) unit := fun s =>
  (Some tt, St m (disk s) (world s) (trace s)).
Definition replaceStore (l : list Passport) : P (W:=W) unit := fun s =>
  (Some tt, St (passports s) (Some l) (world s) (trace s)).

Definition now : P Time := ask e_now.
Definition ctxErr : P (option err) := ask e_ctxErr.

(** *** Comments *)
Definition FormatComment (meta : Metadata) : string := formatComment e_marshalMeta meta.
Definition ParseComment (comment : string) : option Metadata := parseComment e_unmarshalMeta comment.

Definition owns (p : Passport) (lock : option Lock) : bool :=
  match lock with
  | None => false
  | Some l =>
      if negb (bool_decide (l_Token l = p_FencingToken p)) then false
      else match ParseComment (l_Comment l) with
           | None => false
           | Some meta => bool_decide (md_PassportID meta = p_PassportID p)
                          && bool_decide (md_InstanceUID meta = p_InstanceUID p)
           end
  end.

(** *** Persistence *)

(** Run file-system steps until the first error. *)
Fixpoint fsSteps (ops : list fsop) : P (option err) :=
  match ops with
  | [] => ret None
  | o :: rest =>
      let* e := ask (e_fs o) in
      match e with Some e => ret (Some e) | None => fsSteps rest end
  end.

(** The directory checks that precede a write. *)
Definition saveGuard : P (option err) :=
  if bool_decide (c_WorkingCopy cfg = "") then fsSteps [FsMkdirAll]
  else
    let* e := ask (e_fs (FsStatSvn (c_WorkingCopy cfg))) in
    match e with
    | Some _ => ret (Some EWcMissing)
    | None => fsSteps [FsStatDir]
    end.

(** The temporary file, its write and sync, and the rename over the store.  The
    document is indented; the store holds the records it denotes ([tk_Payload]
    being a JSON value, not its bytes). *)
Definition writeStore : P (option err) :=
  let* m := getPassports in
  let list := sortedPassports m in
  let* e := fsSteps [FsMarshal list; FsCreateTemp; FsChmodTemp; FsWriteTemp list; FsSyncTemp; FsCloseTemp; FsRename] in
  match e with
  | Some e => ret (Some e)
  | None => do* replaceStore list; ask (e_fs FsSyncDirectory)
  end.

Definition saveLocked : P (option err) :=
  let* g := saveGuard in
  match g with
  | Some e => ret (Some e)
  | None => writeStore
  end.

(** *** Pending projection *)
Definition stageName (s : Stage) : string :=
  match s with
  | SPrepare => "prepare" | SLocking => "locking" | SChecking => "checking"
  | SCanceling => "canceling" | SSettling => "settling"
  end.

Definition pendingStatus (p : Passport) : option PendingStatus :=
  if bool_decide (p_State p = StateReleasing)
  then Some (PStatus (p_PassportID p) (p_Path p) (e_formatTime (p_IssuedAt p)) "releasing")
  else if negb (bool_decide (p_State p = StatePending)) then None
  else match p_Pending p with
       | None => None
       | Some i =>
           let '(id, since) := match li_Ticket i with
                               | Some t => (tk_OperationID t, tk_CreatedAt t)
                               | None => (p_PassportID p, e_formatTime (p_IssuedAt p))
                               end in
           Some (PStatus id (li_Path i) since (stageName (li_Stage i)))
       end.

Definition statusLe (a b : PendingStatus) : Prop := String.le (ps_Path a) (ps_Path b).
#[local] Instance statusLe_dec : RelDecision statusLe := fun a b => String.le_dec (ps_Path a) (ps_Path b).

Definition pendingStatuses (m : gmap string Passport) : list PendingStatus :=
  merge_sort statusLe (omap pendingStatus (map snd (map_to_list m))).

Definition publishPendingLocked : P (W:=W) unit :=
  if c_OnPending cfg then let* m := getPassports in emit (EvPending (pendingStatuses m)) else ret tt.

(** *** Release *)
(** The end of [releaseWithReceipt], from the last check of the context. *)
Definition releaseFinish (p : Passport) : P (option err) :=
  let* c := ctxErr in
  match c with
  | Some e => ret (Some e)
  | None =>
      do* remove (p_Path p);
      let* e := saveLocked in
      match e with
      | Some e => do* put (p_Path p) p; ret (Some e)
      | None =>
          do* (if c_OnReleased cfg then emit (EvReleased (p_Path p) (p_FencingToken p)) else ret tt);
          ret None
      end
  end.

Definition releaseReceiptBody (p : Passport) (b : ReceiptBackend W) : P (option err) :=
  let* e := saveLocked in
  match e with
  | Some e => ret (Some e)
  | None =>
      let* r := mutate (MReleaseToken (p_Path p) (p_FencingToken p)) (b (p_Path p) (p_FencingToken p)) in
      match r with
      | Err e => ret (Some e)
      | Ok proof =>
          let* c := ctxErr in
          match c with
          | Some e => ret (Some e)
          | None =>
              match proof with
              | None =>
                  let* info := ask (e_inspect (p_Path p)) in
                  match info with
                  | Err e => ret (Some e)
                  | Ok current =>
                      if negb (owns p current) then
                        let p := setState StateLost p in
                        do* put (p_Path p) p;
                        let* e := saveLocked in
                        ret (Some (joinErr (EPassportLost (p_Path p)) e))
                      else
                        let* u := mutate (MUnlock (p_Path p)) (e_unlock (p_Path p)) in
                        match u with Some e => ret (Some e) | None => releaseFinish p end
                  end
              | Some proof =>
                  if negb (bool_decide (rr_Token proof = p_FencingToken p))
                     || (negb (bool_decide (rr_State proof = "released"))
                         && negb (bool_decide (rr_State proof = "not-held")))
                  then ret (Some EReceiptMismatch) else releaseFinish p
              end
          end
      end
  end.

Definition releaseWithReceipt (p : Passport) (b : ReceiptBackend W) : P (option err) :=
  let* r :=
    if bool_decide (p_State p = StateReleasing) then releaseReceiptBody p b
    else
      let p := setCloseAfter 0%Z (setState StateReleasing p) in
      do* put (p_Path p) p; releaseReceiptBody p b in
  do* publishPendingLocked; ret r.

(** *** Pending acquisitions *)
Definition retirePending (p : Passport) (cause : err) : P err :=
  do* remove (p_Path p);
  let* e := saveLocked in
  match e with
  | Some e => do* put (p_Path p) p; ret (EJoin cause e)
  | None => do* publishPendingLocked; ret cause
  end.

(** What the pending methods answer: the passport, and the error or [None]. *)
Definition PendingResult : Type := Passport * option err.

Definition settlePending (p : Passport) : P PendingResult :=
  match e_intent with
  | Some (Build_IntentBackend _ _ _ _ _ _ _ _ _ (Some settle)) =>
      match p_Pending p with
      | None => ret (p, Some EUncertain)
      | Some i =>
          match li_Acquisition i with
          | None => ret (p, Some EUncertain)
          | Some _ =>
              if negb (bool_decide (li_Stage i = SLocking)) && negb (bool_decide (li_Stage i = SChecking))
                 && negb (bool_decide (li_Stage i = SSettling))
              then ret (p, Some ESettleStage)
              else
                let i := setStage SSettling i in
                let p := setPending (Some i) p in
                do* put (p_Path p) p;
                do* publishPendingLocked;
                let* e := saveLocked in
                match e with
                | Some e => ret (p, Some e)
                | None =>
                    let* e := mutate (MSettle (p_Path p) i) (settle (p_Path p) i) in
                    match e with
                    | Some e => ret (p, Some e)
                    | None => let* e := retirePending p EAborted in ret (p, Some e)
                    end
                end
          end
      end
  | _ => ret (p, Some EUncertain)
  end.

Definition cancelPending (b : IntentBackend W) (p : Passport) (i : LockIntent) : P PendingResult :=
  if negb (bool_decide (li_Stage i = SPrepare)) && negb (bool_decide (li_Stage i = SCanceling))
  then ret (p, Some EUncertain)
  else
    let i := setStage SCanceling i in
    let p := setPending (Some i) p in
    do* put (p_Path p) p;
    do* publishPendingLocked;
    let* e := saveLocked in
    match e with
    | Some e => ret (p, Some e)
    | None =>
        let* settled : option err :=
          match li_Acquisition i with
          | None => ret None
          | Some _ =>
              match ib_settle b with
              | None => ret (Some ERecoveryUnavailable)
              | Some settle => mutate (MSettle (p_Path p) i) (settle (p_Path p) i)
              end
          end in
        match settled with
        | Some e => ret (p, Some e)
        | None =>
            let* e := mutate (MCancel (p_Path p) i) (ib_cancel b (p_Path p) i) in
            match e with
            | Some e => ret (p, Some e)
            | None => let* e := retirePending p EAborted in ret (p, Some e)
            end
        end
    end.

Definition expiredAt (t : Time) (meta : Metadata) : bool :=
  negb (Before t (md_ExpiresAt meta)) || negb (Before t (md_HardExpiresAt meta)).

(** The closure [checkLive] of [resumePending]. *)
Definition checkLive (i : LockIntent) : P (option err) :=
  let* c := ctxErr in
  match c with
  | Some e => ret (Some e)
  | None => let* t := now in ret (if expiredAt t (li_Metadata i) then Some EUncertain else None)
  end.

(** The acquire call of [resumePending], through the receipt when the backend
    offers one. *)
Definition acquireIntent (b : IntentBackend W) (path : string) (i : LockIntent) : P (result err (option Lock)) :=
  match ib_acquireReceipt b with
  | Some receipt => mutate (MAcquire path i) (receipt path i)
  | None =>
      let* e := mutate (MAcquire path i) (ib_acquire b path i) in
      ret (match e with Some e => Err e | None => Ok None end)
  end.

(** [resumePending] from "var lock *Lock" on. *)
Definition confirmTail (p : Passport) (i : LockIntent) (r : result err (option Lock)) : P PendingResult :=
  let settleOr (e : err) : P PendingResult :=
    match li_Acquisition i with Some _ => settlePending p | None => ret (p, Some e) end in
  match r with
  | Err e => settleOr e
  | Ok lock =>
      let token := match lock with Some l => l_Token l | None => "" end in
      if bool_decide (token = "") then settleOr EUncertain
      else
        let* e := checkLive i in
        match e with
        | Some e => settleOr e
        | None =>
            let* t := now in
            let confirmed := Pass (p_Path p) (p_PassportID p) (p_InstanceUID p) (p_RealmID p) token
                                  (p_IssuedAt p) t (p_ExpiresAt p) (p_HardExpiresAt p) (p_CloseAfter p)
                                  StateActive None in
            do* put (p_Path p) confirmed;
            let* e := saveLocked in
            match e with
            | Some e => do* put (p_Path p) p; ret (p, Some e)
            | None =>
                do* publishPendingLocked;
                match e_ownership with
                | None => ret (confirmed, None)
                | Some _ => let* e := ask (e_restoreWritable (p_Path p)) in ret (confirmed, e)
                end
            end
        end
  end.

(** The branch on [i.Stage] that asks the repository what the acquire did. *)
Definition confirmPending (b : IntentBackend W) (p : Passport) (i : LockIntent)
    (acquired : option Lock) (started : Time) : P PendingResult :=
  if bool_decide (li_Stage i = SChecking) then
    let* e := saveLocked in
    match e with
    | Some e => ret (p, Some e)
    | None =>
        let reconcile : P PendingResult :=
          let* r := ask (ib_reconcile b (p_Path p) i) in
          match r with
          | Err e => confirmTail p i (Err e)
          | Ok (lock, gone) =>
              if (gone : bool) then let* e := retirePending p EStale in ret (p, Some e)
              else confirmTail p i (Ok lock)
          end in
        match acquired with
        | None => reconcile
        | Some lock =>
            let* t := ask e_wallNow in
            if acquisitionReceiptFresh started t then
              let* c := ctxErr in
              match c with
              | None => confirmTail p i (Ok (Some lock))
              | Some _ => reconcile
              end
            else reconcile
        end
    end
  else let* r := ask (ib_confirm b (p_Path p) i) in confirmTail p i r.

(** The [prepare] block of [resumePending]. *)
Definition preparePending (b : IntentBackend W) (p : Passport) (i : LockIntent) : P PendingResult :=
  let* e := saveLocked in
  match e with
  | Some e => ret (p, Some e)
  | None =>
      let* e := mutate (MPrepare (p_Path p) i) (ib_prepare b (p_Path p) i) in
      match e with
      | Some e =>
          if match li_Ticket i with Some t => e_isAborted e t | None => false end
          then let* e := retirePending p e in ret (p, Some e)
          else ret (p, Some e)
      | None =>
          let* c := ctxErr in
          match c with
          | Some e => ret (p, Some e)
          | None =>
              let* e := checkLive i in
              match e with
              | Some _ => cancelPending b p i
              | None =>
                  let i := setStage SLocking i in
                  let p := setPending (Some i) p in
                  do* put (p_Path p) p;
                  do* publishPendingLocked;
                  let* e := saveLocked in
                  match e with
                  | Some e => ret (p, Some e)
                  | None =>
                      let* e := checkLive i in
                      match e with
                      | Some e => ret (p, Some e)
                      | None =>
                          let* started := ask e_wallNow in
                          let* r := acquireIntent b (p_Path p) i in
                          match r with
                          | Err e => ret (p, Some e)
                          | Ok acquired =>
                              let i := setStage SChecking i in
                              let p := setPending (Some i) p in
                              do* put (p_Path p) p;
                              do* publishPendingLocked;
                              confirmPending b p i acquired started
                          end
                      end
                  end
              end
          end
      end
  end.

Definition resumePendingBody (p : Passport) : P PendingResult :=
  match e_intent, p_Pending p with
  | Some b, Some i =>
      match ib_validate b (p_Path p) i with
      | Some e => ret (p, Some e)
      | None =>
          let* c := ctxErr in
          match c with
          | Some e => ret (p, Some e)
          | None =>
              if bool_decide (li_Stage i = SSettling) then settlePending p
              else
                let* t := now in
                if bool_decide (li_Stage i = SCanceling)
                   || (bool_decide (li_Stage i = SPrepare) && expiredAt t (li_Metadata i))
                then cancelPending b p i
                else
                  let skip := bool_decide (li_Stage i = SChecking)
                              || (bool_decide (li_Stage i = SLocking)
                                  && match li_Acquisition i with Some _ => true | None => false end) in
                  let* e := if skip then ret None else checkLive i in
                  match e with
                  | Some e => ret (p, Some e)
                  | None =>
                      if bool_decide (li_Stage i = SPrepare) then preparePending b p i
                      else confirmPending b p i None 0%Z
                  end
          end
      end
  | _, _ => ret (p, Some EPendingUnavailable)
  end.

(** [resumePending] inside the mutation fence the configuration may supply. *)
Definition resumePending (p : Passport) : P PendingResult :=
  if c_BeginMutation cfg then
    do* emit (EvFence true);
    let* r := resumePendingBody p in
    do* emit (EvFence false); ret r
  else resumePendingBody p.

Definition beginPending (b : IntentBackend W) (path : string) (meta : Metadata) (mode : Mode)
    (closeAfter : Time) : P PendingResult :=
  let* t := now in
  let* r := ask (ib_new b path meta mode t) in
  match r with
  | Err e => ret (Pass "" "" "" "" "" 0 0 0 0 0 (StateOther "") None, Some e)%Z
  | Ok i =>
      do* emit (EvMint path i);
      let meta := li_Metadata i in
      let p := Pass path (md_PassportID meta) (md_InstanceUID meta) (md_RealmID meta) "" (md_IssuedAt meta) 0%Z
                    (md_ExpiresAt meta) (md_HardExpiresAt meta) closeAfter StatePending (Some i) in
      do* put path p;
      do* publishPendingLocked;
      resumePending p
  end.

(** *** Acquire *)
Fixpoint rollbackLoop (acquired : list Passport) : P (W:=W) unit :=
  match acquired with
  | [] => ret tt
  | p :: rest =>
      match e_receipt with
      | Some b => do* releaseWithReceipt p b; rollbackLoop rest
      | None =>
          do* mutate (MUnlock (p_Path p)) (e_unlock (p_Path p));
          do* remove (p_Path p);
          rollbackLoop rest
      end
  end.

Definition rollback (acquired : list Passport) : P unit :=
  do* rollbackLoop acquired; do* saveLocked; ret tt.

Definition lookupOr (d : string) (m : gmap string string) (k : string) : string := default d (m !! k).

(** The ownership test that may allow replacing the lock [info]. *)
Definition sameRealmOf (path realmID : string) (info : Lock) (meta : Metadata) : P (result err bool) :=
  match e_ownership with
  | Some ownership =>
      if bool_decide (realmID = "") then ret (Ok false)
      else
        let* v := ask ownership in
        match v with
        | Err e => ret (Err e)
        | Ok view =>
            match Rel (c_WorkingCopy cfg) path with
            | None => ret (Err ERel)
            | Some rel =>
                let hold := default (Hold "" "" "" "") (ov_Holds view !! rel) in
                ret (Ok (bool_decide (lookupOr "" (ov_Owners view) rel = realmID)
                         && bool_decide (oh_RealmID hold = realmID)
                         && bool_decide (oh_Token hold = l_Token info)))
            end
        end
  | None => ret (Ok (negb (bool_decide (realmID = "")) && bool_decide (md_RealmID meta = realmID)))
  end.

(** What the inspected lock allows: keep the local passport, refuse, or lock
    (with force when a lock is replaced). *)
Inductive acqDecision := DKeep (p : Passport) | DRefuse (e : err) | DLock (force : bool).

(** The refusal that follows the ownership test. *)
Definition refuseUnless (t : Time) (path : string) (info : Lock) (meta : Metadata) (same : result err bool) : acqDecision :=
  match same with
  | Err e => DRefuse e
  | Ok same =>
      if negb same && (match e_ownership with Some _ => true | None => false end || Before t (md_ExpiresAt meta))
      then DRefuse (EHeldByOther path (l_Owner info) (md_InstanceUID meta) (md_RealmID meta) (md_ExpiresAt meta))
      else DLock true
  end.

(** The local record already is this very lock, and it has not expired. *)
Definition stillHeld (t : Time) (info : Lock) (meta : Metadata) (local : Passport) : bool :=
  bool_decide (p_State local = StateActive) && bool_decide (p_PassportID local = md_PassportID meta)
  && bool_decide (p_FencingToken local = l_Token info)
  && Before t (md_ExpiresAt meta) && Before t (md_HardExpiresAt meta).

Definition judgeLock (t : Time) (path realmID : string) (info : option Lock) : P acqDecision :=
  match info with
  | None => ret (DLock false)
  | Some info =>
      match ParseComment (l_Comment info) with
      | None => ret (DRefuse (EHeldByOther path (l_Owner info) "" "" 0%Z))
      | Some meta =>
          let* m := getPassports in
          match (match m !! path with Some p => if stillHeld t info meta p then Some p else None | None => None end) with
          | Some local => ret (DKeep local)
          | None =>
              let* same := sameRealmOf path realmID info meta in
              ret (refuseUnless t path info meta same)
          end
      end
  end.

(** The body of [Acquire]'s loop from the computation of [hard] on. *)
Definition acquireFresh (t : Time) (path realmID : string) (info : option Lock) (force : bool) : P acqStep :=
  let hard := Add t (c_MaxSession cfg) in
  let* id := ask e_newUUID in
  let meta := Meta "" id (c_InstanceUID cfg) (match info with Some l => l_Token l | None => "" end) realmID t
                   (minTime (Add t (c_TTL cfg)) hard) hard in
  match e_intent with
  | Some b =>
      let* r := beginPending b path meta (if force then ModeMigrate else ModeAcquire) 0%Z in
      match r with
      | (_, Some e) => ret (AqFail e)
      | (p, None) => ret (AqKeep p)
      end
  | None =>
      let comment := FormatComment meta in
      let* r := mutate (MLock path comment force) (e_lock path comment force) in
      match r with
      | Err e => ret (AqRollback e)
      | Ok lock =>
          let token := match lock with Some l => l_Token l | None => "" end in
          if bool_decide (token = "") then ret (AqRollback ENoToken)
          else
            let p := Pass path (md_PassportID meta) (md_InstanceUID meta) realmID token t t (md_ExpiresAt meta) hard
                          0%Z StateActive None in
            do* put path p; ret (AqNew p)
      end
  end.

(** One iteration of [Acquire]'s loop. *)
Definition acquireOne (t : Time) (realmID path : string) : P acqStep :=
  let* m := getPassports in
  let fresh : P acqStep :=
    let* r := ask (e_inspect path) in
    match r with
    | Err e => ret (AqRollback e)
    | Ok info =>
        let* d := judgeLock t path realmID info in
        match d with
        | DKeep p => ret (AqKeep p)
        | DRefuse e => ret (AqRollback e)
        | DLock force => acquireFresh t path realmID info force
        end
    end in
  match m !! path with
  | Some p =>
      if bool_decide (p_State p = StateReleasing) then ret (AqFail EUncertain)
      else if bool_decide (p_State p = StatePending) then
        if negb (bool_decide (p_RealmID p = realmID)) then ret (AqFail ERequestConflict)
        else
          let* r := resumePending p in
          match r with
          | (_, Some e) => ret (AqFail e)
          | (p, None) => ret (AqKeep p)
          end
      else fresh
  | None => fresh
  end.

Fixpoint acquireLoop (t : Time) (realmID : string) (paths : list string) (acquired newlyAcquired : list Passport)
    : P (result err (list Passport)) :=
  match paths with
  | [] =>
      let* e := saveLocked in
      match e with
      | Some e => do* rollback newlyAcquired; ret (Err e)
      | None => ret (Ok acquired)
      end
  | path :: rest =>
      let* r := acquireOne t realmID path in
      match r with
      | AqKeep p => acquireLoop t realmID rest (app acquired [p]) newlyAcquired
      | AqNew p => acquireLoop t realmID rest (app acquired [p]) (app newlyAcquired [p])
      | AqFail e => ret (Err e)
      | AqRollback e => do* rollback newlyAcquired; ret (Err e)
      end
  end.

Definition Acquire (paths : list string) (realmID : string) : P (result err (list Passport)) :=
  match cleanPaths paths with
  | [] => ret (Err ENoPaths)
  | paths => let* t := now in acquireLoop t realmID paths [] []
  end.

(** *** Release *)

(** The closure [fail] of [Release]. *)
Definition releaseFail (changed : bool) (cause : err) : P (option err) :=
  if changed then let* e := saveLocked in ret (Some (joinErr cause e)) else ret (Some cause).

Fixpoint releaseLoop (changed : bool) (paths : list string) : P (option err) :=
  match paths with
  | [] => saveLocked
  | path :: rest =>
      let* m := getPassports in
      match m !! path with
      | None => releaseFail changed (ENoPassport path)
      | Some p =>
          if bool_decide (p_State p = StatePending) then releaseFail changed EUncertain
          else if negb (bool_decide (p_State p = StateActive)) && negb (bool_decide (p_State p = StateReleasing))
          then releaseFail changed (ENoPassport path)
          else
            match e_receipt with
            | Some b =>
                let* e := releaseWithReceipt p b in
                match e with Some e => releaseFail changed e | None => releaseLoop changed rest end
            | None =>
                let* r := ask (e_inspect path) in
                match r with
                | Err e => releaseFail changed e
                | Ok info =>
                    if negb (owns p info) then
                      do* put path (lose p); releaseFail true (EPassportLost path)
                    else
                      let* e := mutate (MUnlock path) (e_unlock path) in
                      match e with
                      | Some e => releaseFail changed e
                      | None => do* remove path; releaseLoop true rest
                      end
                end
            end
      end
  end.

Definition Release (paths : list string) : P (option err) := releaseLoop false (cleanPaths paths).

(** *** Heartbeat *)

(** The captured variables of [heartbeatInspector]: [None] until loaded. *)
Definition HBView : Type := option (result err OwnershipView).

Definition dueAt (t : Time) (p : Passport) : bool :=
  (negb (IsZero (p_CloseAfter p)) && negb (Before t (p_CloseAfter p)))
  || negb (Before t (p_HardExpiresAt p))
  || negb (Before (Add t (c_HeartbeatInterval cfg)) (p_ExpiresAt p)).

(** The answer read from a loaded view. *)
Definition viewLock (view : OwnershipView) (p : Passport) : result err (option Lock) :=
  if bool_decide (c_WorkingCopy cfg = "") then Err ENoBinding
  else match Rel (c_WorkingCopy cfg) (p_Path p) with
       | None => Err EOutsideWC
       | Some rel =>
           if bool_decide (rel = ".") || climbs rel || IsAbs rel then Err EOutsideWC
           else match ov_Holds view !! rel with
                | None => Ok None
                | Some h =>
                    if bool_decide (oh_Token h = "") || bool_decide (oh_Owner h = "") || bool_decide (oh_Comment h = "")
                    then Err EIncomplete else Ok (Some (MkLock (oh_Token h) (oh_Owner h) (oh_Comment h)))
                end
       end.

Definition heartbeatInspector (hv : HBView) (p : Passport) : P (result err (option Lock) * HBView) :=
  let* c := ctxErr in
  match c with
  | Some e => ret (Err e, hv)
  | None =>
      let* t := now in
      let live : P (result err (option Lock) * HBView) :=
        let* r := ask (e_inspect (p_Path p)) in ret (r, hv) in
      match e_heartbeatOwnership with
      | None => live
      | Some ownership =>
          if dueAt t p then live
          else
            let* loaded := match hv with Some v => ret v | None => ask ownership end in
            let hv := Some loaded in
            match loaded with
            | Err e => ret (Err e, hv)
            | Ok view =>
                let* t := now in
                if IsZero (ov_ObservedAt view) || Before t (ov_ObservedAt view) || (Minute <=? Sub t (ov_ObservedAt view))%Z
                then ret (Err ENotFresh, hv)
                else if negb (After (ov_ObservedAt view) (p_LastHeartbeatAt p)) || negb (After (ov_ObservedAt view) (p_IssuedAt p))
                then let* r := ask (e_inspect (p_Path p)) in ret (r, hv)
                else ret (viewLock view p, hv)
            end
      end
  end.

Definition firstErr (first e : option err) : option err := match first with Some _ => first | None => e end.

(** The part of a heartbeat after the inspection confirmed the token. *)
Definition heartbeatOwned (t : Time) (path : string) (p : Passport) : P (option err) :=
  if negb (IsZero (p_CloseAfter p)) && negb (Before t (p_CloseAfter p)) then
    let* e := mutate (MUnlock path) (e_unlock path) in
    match e with Some e => ret (Some e) | None => do* remove path; ret None end
  else if negb (Before t (p_HardExpiresAt p)) then
    let* e := mutate (MUnlock path) (e_unlock path) in
    match e with
    | Some e => ret (Some e)
    | None => do* put path (setCloseAfter 0%Z (setState StateExpired p)); ret None
    end
  else if Before (Add t (c_HeartbeatInterval cfg)) (p_ExpiresAt p) then ret None
  else
    let expires := minTime (Add t (c_TTL cfg)) (p_HardExpiresAt p) in
    let meta := Meta "" (p_PassportID p) (p_InstanceUID p) (p_FencingToken p) (p_RealmID p) (p_IssuedAt p)
                     expires (p_HardExpiresAt p) in
    match e_intent with
    | Some b => let* r := beginPending b path meta ModeRenew (p_CloseAfter p) in ret (snd r)
    | None =>
        let comment := FormatComment meta in
        let* r := mutate (MLock path comment true) (e_lock path comment true) in
        match r with
        | Err e => ret (Some e)
        | Ok lock =>
            let token := match lock with Some l => l_Token l | None => "" end in
            if bool_decide (token = "") then ret (Some ENoToken)
            else
              do* put path (Pass (p_Path p) (p_PassportID p) (p_InstanceUID p) (p_RealmID p) token (p_IssuedAt p) t
                                 expires (p_HardExpiresAt p) (p_CloseAfter p) (p_State p) (p_Pending p));
              ret None
        end
    end.

(** One iteration of [Heartbeat]'s loop. *)
Definition heartbeatOne (t : Time) (hv : HBView) (path : string) (p : Passport) : P (option err * HBView) :=
  if bool_decide (p_State p = StateReleasing) then
    match e_receipt with
    | Some b => let* e := releaseWithReceipt p b in ret (e, hv)
    | None => ret (None, hv)
    end
  else if bool_decide (p_State p = StatePending) then
    let* r := resumePending p in ret (snd r, hv)
  else if negb (bool_decide (p_State p = StateActive)) then ret (None, hv)
  else
    let over := (negb (IsZero (p_CloseAfter p)) && negb (Before t (p_CloseAfter p)))
                || negb (Before t (p_HardExpiresAt p)) in
    match (if over then e_receipt else None) with
    | Some b => let* e := releaseWithReceipt p b in ret (e, hv)
    | None =>
        let* r := heartbeatInspector hv p in
        match r with
        | (Err e, hv) => ret (Some e, hv)
        | (Ok info, hv) =>
            if negb (owns p info) then
              do* put path (lose p); ret (Some (EPassportLost path), hv)
            else let* e := heartbeatOwned t path p in ret (e, hv)
        end
    end.

(** [range m.passports] visits the keys in an unspecified order, given here; a
    key deleted before its turn is not visited. *)
Fixpoint heartbeatLoop (t : Time) (first : option err) (hv : HBView) (order : list string) : P (option err) :=
  match order with
  | [] => ret first
  | path :: rest =>
      let* m := getPassports in
      match m !! path with
      | None => heartbeatLoop t first hv rest
      | Some p =>
          let* r := heartbeatOne t hv path p in
          heartbeatLoop t (firstErr first (fst r)) (snd r) rest
      end
  end.

Definition Heartbeat (order : list string) : P (option err) :=
  let* t := now in
  let* first := heartbeatLoop t None None order in
  let* e := saveLocked in ret (firstErr first e).

(** *** ReleaseAll *)
Definition releaseAllOne (path : string) (p : Passport) : P (option err) :=
  if bool_decide (p_State p = StatePending) then ret (Some EUncertain)
  else if negb (bool_decide (p_State p = StateActive)) && negb (bool_decide (p_State p = StateReleasing)) then ret None
  else match e_receipt with
       | Some b => releaseWithReceipt p b
       | None =>
           let* r := ask (e_inspect path) in
           match r with
           | Err e => ret (Some e)
           | Ok info =>
               if negb (owns p info) then do* put path (setState StateLost p); ret None
               else
                 let* e := mutate (MUnlock path) (e_unlock path) in
                 match e with Some e => ret (Some e) | None => do* remove path; ret None end
           end
       end.

Fixpoint releaseAllLoop (first : option err) (order : list string) : P (option err) :=
  match order with
  | [] => ret first
  | path :: rest =>
      let* m := getPassports in
      match m !! path with
      | None => releaseAllLoop first rest
      | Some p => let* e := releaseAllOne path p in releaseAllLoop (firstErr first e) rest
      end
  end.

Definition ReleaseAll (order : list string) : P (option err) :=
  let* first := releaseAllLoop None order in
  let* e := saveLocked in ret (firstErr first e).

(** *** Authorize *)
Fixpoint authorizeLoop (t : Time) (paths : list string) : P (option err) :=
  match paths with
  | [] => ret None
  | path :: rest =>
      let* m := getPassports in
      match m !! path with
      | None => ret (Some (ENoPassport path))
      | Some p =>
          if bool_decide (p_State p = StatePending) then ret (Some EUncertain)
          else if negb (bool_decide (p_State p = StateActive)) || negb (Before t (p_ExpiresAt p))
          then ret (Some (ENoPassport path))
          else
            let* r := ask (e_inspect path) in
            match r with
            | Err e => ret (Some e)
            | Ok info =>
                if negb (owns p info) then
                  do* put path (lose p); do* saveLocked; ret (Some (EPassportLost path))
                else authorizeLoop t rest
            end
      end
  end.

Definition authorize (paths : list string) : P (option err) :=
  let* t := now in authorizeLoop t (cleanPaths paths).

(** *** Local bookkeeping *)
Fixpoint forgetLoop (changed : bool) (paths : list string) : P (W:=W) bool :=
  match paths with
  | [] => ret changed
  | path :: rest =>
      let* m := getPassports in
      match m !! path with
      | Some p => if negb (bool_decide (p_State p = StatePending)) then do* remove path; forgetLoop true rest
                  else forgetLoop changed rest
      | None => forgetLoop changed rest
      end
  end.

Definition saveIf (changed : bool) : P unit := if changed then do* saveLocked; ret tt else ret tt.

Definition ForgetRemoved (paths : list string) : P unit :=
  let* changed := forgetLoop false (cleanPaths paths) in saveIf changed.

Definition Touch (path0 : string) : P unit :=
  let path := Clean path0 in
  let* m := getPassports in
  match m !! path with
  | Some p =>
      if bool_decide (p_State p = StateActive) && negb (IsZero (p_CloseAfter p))
      then do* put path (setCloseAfter 0%Z p); saveIf true
      else ret tt
  | None => ret tt
  end.

Fixpoint publishedLoop (deadline : Time) (changed : bool) (paths : list string) : P (W:=W) bool :=
  match paths with
  | [] => ret changed
  | path :: rest =>
      let* m := getPassports in
      match m !! path with
      | Some p => if bool_decide (p_State p = StateActive)
                  then do* put path (setCloseAfter deadline p); publishedLoop deadline true rest
                  else publishedLoop deadline changed rest
      | None => publishedLoop deadline changed rest
      end
  end.

Definition MarkPublished (paths : list string) : P unit :=
  let* t := now in
  let* changed := publishedLoop (Add t (c_CloseGrace cfg)) false (cleanPaths paths) in
  saveIf changed.

Definition Snapshot : P (W:=W) (list Passport) := let* m := getPassports in ret (sortedPassports m).

(** *** AcquireOwned *)
Fixpoint acquireOwnedLoop (view : OwnershipView) (local : gmap string Passport) (realmID : string) (paths : list string)
    : P (option err) :=
  match paths with
  | [] => ret None
  | p :: rest =>
      if match local !! p with Some c => bool_decide (p_State c = StateActive) | None => false end
      then acquireOwnedLoop view local realmID rest
      else match Rel (c_WorkingCopy cfg) p with
           | None => ret (Some EOutsideWC)
           | Some rel =>
               if climbs rel then ret (Some EOutsideWC)
               else
                 let owner := lookupOr "" (ov_Owners view) rel in
                 if bool_decide (owner = "") then ret (Some EOwnerUnavailable)
                 else if negb (bool_decide (owner = realmID)) then ret (Some (ENoPassport ""))
                 else
                   let* r := Acquire [p] realmID in
                   match r with Err e => ret (Some e) | Ok _ => acquireOwnedLoop view local realmID rest end
           end
  end.

Definition AcquireOwned (paths : list string) (realmID : string) : P (option err) :=
  match e_ownership with
  | None => ret (Some EOwnerUnavailable)
  | Some ownership =>
      if bool_decide (realmID = "") then ret (Some EOwnerUnavailable)
      else
        let* v := ask ownership in
        match v with
        | Err e => ret (Some e)
        | Ok view =>
            let* snap := Snapshot in
            let local := fold_left (fun m p => <[p_Path p := p]> m) snap ∅ in
            acquireOwnedLoop view local realmID (cleanPaths paths)
        end
  end.

(** *** Opening the store *)
Definition bindingMismatch (p : Passport) (meta : Metadata) : bool :=
  negb (bool_decide (p_PassportID p = md_PassportID meta)) || negb (bool_decide (p_InstanceUID p = md_InstanceUID meta))
  || negb (bool_decide (p_InstanceUID p = c_InstanceUID cfg)) || negb (bool_decide (p_RealmID p = md_RealmID meta))
  || negb (p_IssuedAt p =? md_IssuedAt meta)%Z || negb (p_ExpiresAt p =? md_ExpiresAt meta)%Z
  || negb (p_HardExpiresAt p =? md_HardExpiresAt meta)%Z.

(** The checks [load] makes on one record. *)
Definition checkEntry (p : Passport) : option err :=
  if bool_decide (p_State p = StateReleasing)
     && (negb (match e_receipt with Some _ => true | None => false end)
         || negb (bool_decide (p_InstanceUID p = c_InstanceUID cfg))
         || match p_Pending p with Some _ => true | None => false end)
  then Some EReleaseBinding
  else if match p_Pending p with Some _ => true | None => false end || bool_decide (p_State p = StatePending) then
    match e_intent, p_Pending p with
    | Some b, Some i =>
        if negb (bool_decide (p_State p = StatePending)) || negb (bool_decide (p_FencingToken p = ""))
        then Some EPendingBackend
        else if bindingMismatch p (li_Metadata i) then Some EPendingMismatch
        else ib_validate b (p_Path p) i
    | _, _ => Some EPendingBackend
    end
  else if bool_decide (p_Path p = "") || bool_decide (p_PassportID p = "") || bool_decide (p_FencingToken p = "")
  then Some EInvalidEntry
  else None.

Fixpoint loadList (m : gmap string Passport) (l : list Passport) : result err (gmap string Passport) :=
  match l with
  | [] => Ok m
  | p :: rest =>
      match checkEntry p with
      | Some e => Err e
      | None =>
          match m !! Clean (p_Path p) with
          | Some _ => Err EDuplicatePath
          | None => loadList (<[Clean (p_Path p) := p]> m) rest
          end
      end
  end.

(** The decoded document: [e_readStore] says whether the file can be read and
    decodes as the list of records it denotes. *)
Definition load : P (result err (gmap string Passport)) :=
  let* d := getDisk in
  match d with
  | None => ret (Ok ∅)
  | Some l =>
      let* e := ask e_readStore in
      match e with Some e => ret (Err e) | None => ret (loadList ∅ l) end
  end.

(** [Open] with the configuration already completed by [withDefaults]. *)
Definition OpenWith (storePath : string) : P (option err) :=
  if bool_decide (TrimSpace storePath = "") || bool_decide (TrimSpace (c_InstanceUID cfg) = "") then ret (Some EOpenArgs)
  else if (c_TTL cfg <=? c_HeartbeatInterval cfg)%Z then ret (Some EHeartbeatTTL)
  else if (c_MaxSession cfg <? c_TTL cfg)%Z then ret (Some EMaxSession)
  else
    let* r := load in
    match r with
    | Err e => ret (Some e)
    | Ok m =>
        do* install m;
        do* publishPendingLocked; ret None
    end.

(** [CheckSettledStore] on the decoded file. *)
Definition CheckSettledStore : P (option err) :=
  let* d := getDisk in
  match d with
  | None => ret None
  | Some l =>
      let* e := ask e_readStore in
      match e with
      | Some e => ret (Some e)
      | None =>
          ret (if existsb (fun p => bool_decide (p_State p = StatePending) || bool_decide (p_State p = StateReleasing)
                                    || match p_Pending p with Some _ => true | None => false end) l
               then Some EUncertain else None)
      end
  end.

End Operations.

Definition Open {W} `{!Env W} (cfg : Config) (storePath : string) : P (W:=W) (option err) :=
  OpenWith (withDefaults cfg) storePath.
