(* ===== verification/PassportProofs.v ===== *)
(** * PassportProofs: what the passport manager guarantees

    The world is arbitrary, so the methods are judged by weakest preconditions
    over the three things a proof can see: the memory, the store file and the
    trace.  The invariant [Inv] holds between method calls; when the process
    dies, [Dur] holds of the store file and the trace, and re-opening the store
    re-establishes [Inv]. *)
From S2P Require Import Prelude GoStrings Passport.
From Stdlib Require Import Ascii String.

Open Scope string_scope.
Open Scope go_scope.

Notation mem := (gmap string Passport).
Notation store := (option (list Passport)).

Lemma minTime_le a b : (minTime a b <= b)%Z.
Proof. unfold minTime, Before. destruct (Z.ltb_spec a b); lia. Qed.

(** ** The ghost accounting *)
Definition isPrepare (p : Passport) : bool :=
  match p_Pending p with Some i => bool_decide (li_Stage i = SPrepare) | None => false end.

Definition isPending (p : Passport) : bool :=
  match p_Pending p with Some _ => true | None => false end.

(** Acquire calls made, and intents minted, for a path. *)
Fixpoint acquires (k : string) (t : list event) : nat :=
  match t with
  | [] => 0
  | EvMut (MAcquire k' _) _ :: t => (if bool_decide (k' = k) then 1 else 0) + acquires k t
  | _ :: t => acquires k t
  end.

Fixpoint mints (k : string) (t : list event) : nat :=
  match t with
  | [] => 0
  | EvMint k' _ :: t => (if bool_decide (k' = k) then 1 else 0) + mints k t
  | _ :: t => mints k t
  end.

Definition memHas (f : Passport -> bool) (m : mem) (k : string) : bool :=
  match m !! k with Some p => f p | None => false end.

Definition storeHas (f : Passport -> bool) (d : store) (k : string) : bool :=
  match d with Some l => existsb (fun p => bool_decide (p_Path p = k) && f p) l | None => false end.

(** A remote mutation is journaled when the store file of that moment holds the
    record that explains it. *)
Definition storeRecord (d : store) (path : string) (i : LockIntent) : Prop :=
  exists l p, d = Some l /\ p ∈ l /\ p_Path p = path /\ p_Pending p = Some i.

Definition storeReleasing (d : store) (path token : string) : Prop :=
  exists l p, d = Some l /\ p ∈ l /\ p_Path p = path /\ p_State p = StateReleasing /\ p_FencingToken p = token.

Definition journaled (e : event) : Prop :=
  match e with
  | EvMut (MPrepare k i) d => li_Stage i = SPrepare /\ storeRecord d k i
  | EvMut (MAcquire k i) d => li_Stage i = SLocking /\ storeRecord d k i
  | EvMut (MCancel k i) d => li_Stage i = SCanceling /\ storeRecord d k i
  | EvMut (MSettle k i) d => (li_Stage i = SSettling \/ li_Stage i = SCanceling) /\ storeRecord d k i
  | EvMut (MReleaseToken k token) d => storeReleasing d k token
  | _ => True
  end.

Section Wp.
  Context {W : Type} `{E : !Env W} {cfg : Config}.

(** The one promise about a durable backend that the lifetime bound needs:
    [NewLockIntent] keeps the two deadlines it is given. *)
Definition KeepsDeadlines : Prop := forall b path meta mode t w i w',
  e_intent = Some b -> ib_new b path meta mode t w = (Ok i, w') ->
  md_ExpiresAt (li_Metadata i) = md_ExpiresAt meta /\ md_HardExpiresAt (li_Metadata i) = md_HardExpiresAt meta.

(** What opening the store needs of the world: identifiers are not empty, and a
    durable backend keeps the identity it is given, makes intents it accepts, and
    accepts them in every stage the manager moves them to. *)
Record Conforming : Prop := {
  cf_uuid w : fst (e_newUUID w) <> "";
  cf_new b path meta mode t w i w' : e_intent = Some b -> ib_new b path meta mode t w = (Ok i, w') ->
    md_PassportID (li_Metadata i) = md_PassportID meta /\ md_InstanceUID (li_Metadata i) = md_InstanceUID meta /\
    ib_validate b path i = None;
  cf_advance b path i stage : e_intent = Some b -> ib_validate b path i = None ->
    (stage = SSettling -> is_Some (li_Acquisition i)) -> ib_validate b path (setStage stage i) = None
}.

(** A record [load] accepts. *)
Definition wellFormed (p : Passport) : Prop :=
  p_InstanceUID p = c_InstanceUID cfg /\ p_PassportID p <> "" /\
  match p_Pending p with
  | Some i => p_FencingToken p = "" /\ bindingMismatch cfg p (li_Metadata i) = false /\
              exists b, e_intent = Some b /\ ib_validate b (p_Path p) i = None
  | None => p_FencingToken p <> "" /\ (p_State p = StateReleasing -> is_Some e_receipt)
  end.

Definition bounded (p : Passport) : Prop :=
  (KeepsDeadlines -> (p_ExpiresAt p <= p_HardExpiresAt p)%Z) /\ (Conforming -> wellFormed p).

(** ** The invariants *)
(** A record under its own clean path, pending exactly when its state says so. *)
Definition goodAt (k : string) (p : Passport) : Prop :=
  p_Path p = k /\ Clean k = k /\ bounded p /\ (p_State p = StatePending <-> isPending p = true).

Record Dur (d : store) (t : list event) : Prop := {
  dur_clean : forall l p, d = Some l -> p ∈ l -> goodAt (p_Path p) p;
  dur_paths : forall l, d = Some l -> NoDup (map p_Path l);
  dur_once : forall k, acquires k t + (if storeHas isPrepare d k then 1 else 0) <= mints k t;
  dur_journal : Forall journaled t
}.

(** [c] is the credit for one acquire call in hand, for the path it names. *)
Definition creditAt (c : option string) (k : string) : nat :=
  match c with Some k' => if bool_decide (k' = k) then 1 else 0 | None => 0 end.

Definition good (m : mem) : Prop := forall k p, m !! k = Some p -> goodAt k p.

(** Every path with [f] in [m] has [f] in [m']. *)
Definition within (f : Passport -> bool) (m m' : mem) : Prop :=
  forall k, memHas f m k = true -> memHas f m' k = true.

Record Inv (c : option string) (m : mem) (d : store) (t : list event) : Prop := {
  inv_dur : Dur d t;
  inv_good : good m;
  inv_fence : forall k, storeHas isPending d k = true -> memHas isPending m k = true;
  inv_once : forall k, acquires k t + (if memHas isPrepare m k || storeHas isPrepare d k then 1 else 0) + creditAt c k
                       <= mints k t
}.

(** ** Facts on the accounting *)
Lemma elem_sorted p (m : mem) : p ∈ sortedPassports m <-> exists k, m !! k = Some p.
Proof.
  unfold sortedPassports. rewrite merge_sort_Permutation, list_elem_of_fmap. split.
  - intros ([k q] & -> & H%elem_of_map_to_list). by exists k.
  - intros [k H]. exists (k, p). split; [done|]. by apply elem_of_map_to_list.
Qed.

Lemma sorted_paths_NoDup m : (forall k p, m !! k = Some p -> p_Path p = k) -> NoDup (map p_Path (sortedPassports m)).
Proof.
  intros Hk. unfold sortedPassports. rewrite merge_sort_Permutation.
  assert (map p_Path (map snd (map_to_list m)) = (map_to_list m).*1) as ->; [|apply NoDup_fst_map_to_list].
  assert (forall l : list (string * Passport), (forall x, x ∈ l -> p_Path x.2 = x.1) -> map p_Path (map snd l) = l.*1) as H.
  { induction l as [|x l IH]; intros Hl; [done|]. cbn. rewrite IH, (Hl x); [done|by left|]. intros y Hy. apply Hl. by right. }
  apply H. intros [k p] Hx%elem_of_map_to_list. by apply Hk.
Qed.

Lemma storeHas_true f d k : storeHas f d k = true <-> exists l p, d = Some l /\ p ∈ l /\ p_Path p = k /\ f p = true.
Proof.
  unfold storeHas. destruct d as [l|].
  - rewrite existsb_exists. setoid_rewrite andb_true_iff. setoid_rewrite bool_decide_eq_true. split.
    + intros (p & Hin & Hk & Hf). exists l, p. by rewrite list_elem_of_In.
    + intros (? & p & [= <-] & Hin & Hk & Hf). exists p. by rewrite <- list_elem_of_In.
  - split; [done|]. by intros (? & ? & ? & _).
Qed.

Lemma memHas_true f m k : memHas f m k = true <-> exists p, m !! k = Some p /\ f p = true.
Proof.
  unfold memHas. destruct (m !! k) as [p|].
  - split; [intros; by exists p|]. by intros (? & [= <-] & ?).
  - split; [done|]. by intros (? & ? & _).
Qed.

Lemma memHas_insert f m k p k' : memHas f (<[k := p]> m) k' = if bool_decide (k = k') then f p else memHas f m k'.
Proof.
  unfold memHas. case_bool_decide as H; [subst; by rewrite lookup_insert_eq|by rewrite lookup_insert_ne].
Qed.

Lemma memHas_delete f m k k' : memHas f (delete k m) k' = if bool_decide (k = k') then false else memHas f m k'.
Proof.
  unfold memHas. case_bool_decide as H; [subst; by rewrite lookup_delete_eq|by rewrite lookup_delete_ne].
Qed.

Lemma storeHas_sorted f m k : good m -> storeHas f (Some (sortedPassports m)) k = memHas f m k.
Proof.
  intros Hg. apply eq_true_iff_eq. rewrite storeHas_true, memHas_true. split.
  - intros (? & p & [= <-] & [k' Hk]%elem_sorted & Hp & Hf).
    destruct (Hg _ _ Hk) as [<- _]. exists p. by rewrite <- Hp.
  - intros (p & Hk & Hf). eexists _, p. repeat split; [|by apply (Hg _ _ Hk)|done].
    apply elem_sorted. by exists k.
Qed.

Lemma isPrepare_isPending p : isPrepare p = true -> isPending p = true.
Proof. unfold isPrepare, isPending. by destruct (p_Pending p). Qed.

Lemma good_insert m k p : good m -> goodAt k p -> good (<[k := p]> m).
Proof. intros Hm Hp k' q [[<- <-]|[Hn H]]%lookup_insert_Some; [done|by apply Hm]. Qed.

Lemma good_delete m k : good m -> good (delete k m).
Proof. intros Hm k' q [Hn H]%lookup_delete_Some. by apply Hm. Qed.

(** The memory may change where no pending record is lost and none becomes
    unsent. *)
Lemma Inv_mem c m m' d t : good m' -> within isPending m m' -> within isPrepare m' m ->
  Inv c m d t -> Inv c m' d t.
Proof.
  intros Hg Hw1 Hw2 [H1 H2 H3 H4]. split; [done|done| |].
  - intros k Hk. by apply Hw1, H3.
  - intros k. specialize (H4 k). specialize (Hw2 k).
    destruct (memHas isPrepare m' k), (memHas isPrepare m k), (storeHas isPrepare d k);
      cbn [orb] in *; try lia; by specialize (Hw2 eq_refl).
Qed.

Lemma Dur_sorted m m' d t : good m' -> within isPrepare m' m -> Inv None m d t -> Dur (Some (sortedPassports m')) t.
Proof.
  intros Hg Hw [[H1 Hn H2 H3] _ _ H4]. split; [| | |done].
  - intros l p [= <-] [k Hk]%elem_sorted. pose proof (Hg _ _ Hk) as Hp. pose proof Hp as [Hpath _]. by rewrite Hpath.
  - intros l [= <-]. apply sorted_paths_NoDup. intros k p Hk. by apply (Hg k p Hk).
  - intros k. rewrite (storeHas_sorted _ _ _ Hg). specialize (H4 k). specialize (Hw k).
    destruct (memHas isPrepare m' k); [|lia]. rewrite (Hw eq_refl) in H4. cbn in H4. lia.
Qed.

(** Writing a smaller memory to the store file. *)
Lemma Inv_store m m' d t : good m' -> within isPending m' m -> within isPrepare m' m ->
  Inv None m d t -> Inv None m (Some (sortedPassports m')) t.
Proof.
  intros Hg Hw1 Hw2 HI. split; [by eapply Dur_sorted|apply HI| |].
  - intros k. rewrite (storeHas_sorted _ _ _ Hg). apply Hw1.
  - intros k. rewrite (storeHas_sorted _ _ _ Hg). pose proof (inv_once _ _ _ _ HI k) as H. specialize (Hw2 k).
    destruct (memHas isPrepare m' k) eqn:Hx; [rewrite (Hw2 eq_refl) in H |- *; cbn in *; lia|].
    rewrite orb_false_r. destruct (memHas isPrepare m k), (storeHas isPrepare d k); cbn in *; lia.
Qed.

(** Memory and store file replaced together. *)
Lemma Inv_both m m' d t : good m' -> within isPrepare m' m ->
  Inv None m d t -> Inv None m' (Some (sortedPassports m')) t.
Proof.
  intros Hg Hw HI. split; [by eapply Dur_sorted|done| |].
  - intros k. by rewrite (storeHas_sorted _ _ _ Hg).
  - intros k. rewrite (storeHas_sorted _ _ _ Hg), orb_diag. pose proof (inv_once _ _ _ _ HI k) as H.
    specialize (Hw k). destruct (memHas isPrepare m' k); [rewrite (Hw eq_refl) in H; cbn in *; lia|].
    cbn [creditAt] in *. lia.
Qed.

(** The unsent intent at [k] becomes the credit for one acquire call once a
    store file without it is in place. *)
Lemma Inv_credit m m' d t k : good m' -> within isPrepare m' m ->
  memHas isPrepare m k = true -> memHas isPrepare m' k = false ->
  Inv None m d t -> Inv (Some k) m' (Some (sortedPassports m')) t.
Proof.
  intros Hg Hw Hk Hk' HI. pose proof (Inv_both _ _ _ _ Hg Hw HI) as [H1 H2 H3 H4]. split; [done..|].
  intros k'. specialize (H4 k'). rewrite (storeHas_sorted _ _ _ Hg), orb_diag in *. cbn [creditAt] in *.
  case_bool_decide as Hx; [subst k'|lia]. rewrite Hk'. pose proof (inv_once _ _ _ _ HI k) as H.
  rewrite Hk in H. cbn in H. lia.
Qed.

Definition silent (e : event) : Prop :=
  match e with EvMut (MAcquire _ _) _ | EvMint _ _ => False | _ => True end.

Lemma Inv_event c m d t e : silent e -> journaled e -> Inv c m d t -> Inv c m d (e :: t).
Proof.
  intros Hs Hj [[H1 Hn H2 H3] Hg Hf H4].
  assert (forall k, acquires k (e :: t) = acquires k t /\ mints k (e :: t) = mints k t) as Hc.
  { intros k. destruct e as [[]| | | | |]; done. }
  split; [split; [done|done| |by constructor]|done|done|]; intros k; destruct (Hc k) as [-> ->]; auto.
Qed.

Lemma Inv_acquire m d t k i : journaled (EvMut (MAcquire k i) d) -> Inv (Some k) m d t ->
  Inv None m d (EvMut (MAcquire k i) d :: t).
Proof.
  intros Hj [[H1 Hn H2 H3] Hg Hf H4]. split; [split; [done|done| |by constructor]|done|done|]; intros k';
    specialize (H4 k'); cbn [acquires mints creditAt] in *.
  - destruct (storeHas isPrepare d k'); [rewrite orb_true_r in H4|]; case_bool_decide; lia.
  - case_bool_decide; lia.
Qed.

Lemma Inv_mint m d t k i p : goodAt k p -> memHas isPending m k = false -> isPending p = true ->
  Inv None m d t -> Inv None (<[k := p]> m) d (EvMint k i :: t).
Proof.
  intros Hp Hk Hpp [[H1 Hn H2 H3] Hg Hf H4].
  assert (storeHas isPrepare d k = false) as Hdk.
  { destruct (storeHas isPrepare d k) eqn:Hx; [|done]. apply storeHas_true in Hx as (l & q & E1 & E2 & E3 & E4).
    rewrite <- Hk. symmetry. apply Hf, storeHas_true. exists l, q. auto using isPrepare_isPending. }
  assert (memHas isPrepare m k = false) as Hmk.
  { destruct (memHas isPrepare m k) eqn:Hx; [|done]. apply memHas_true in Hx as (q & E1 & E2).
    rewrite <- Hk. symmetry. apply memHas_true. exists q. auto using isPrepare_isPending. }
  split; [split; [done|done| |by constructor]|by apply good_insert| |].
  - intros k'. specialize (H2 k'). cbn [acquires mints]. lia.
  - intros k' Hd. rewrite memHas_insert. case_bool_decide; [done|auto].
  - intros k'. rewrite memHas_insert. specialize (H4 k'). cbn [acquires mints creditAt] in *.
    case_bool_decide as Hx; [subst k'; rewrite Hdk, Hmk in *; destruct (isPrepare p); cbn in *; lia|lia].
Qed.

(** ** Weakest preconditions *)

Definition wp {A} (p : P (W:=W) A) (Q : A -> mem -> store -> list event -> Prop) (m : mem) (d : store) (t : list event) : Prop :=
  forall w, match p (St m d w t) with
            | (Some a, s) => Q a (passports s) (disk s) (trace s)
            | (None, s) => Dur (disk s) (trace s)
            end.

Lemma wp_ret {A} (a : A) (Q : A -> mem -> store -> list event -> Prop) m d t : Q a m d t -> wp (ret a) Q m d t.
Proof. intros H w. done. Qed.

Lemma wp_bind {A B} (p : P A) (k : A -> P B) Q m d t :
  wp p (fun a => wp (k a) Q) m d t -> wp (bind p k) Q m d t.
Proof.
  intros H w. specialize (H w). unfold bind, mbind_st.
  destruct (p (St m d w t)) as [[a|] s]; [|done].
  destruct s as [m' d' w' t']. apply (H w').
Qed.

Lemma wp_mono {A} (p : P A) (Q R : A -> mem -> store -> list event -> Prop) m d t :
  wp p Q m d t -> (forall a m' d' t', Q a m' d' t' -> R a m' d' t') -> wp p R m d t.
Proof. intros H HQ w. specialize (H w). destruct (p (St m d w t)) as [[a|] s]; [by apply HQ|done]. Qed.

Lemma wp_ask {A} (f : W -> A * W) Q m d t : Dur d t -> (forall a, Q a m d t) -> wp (ask f) Q m d t.
Proof.
  intros Hd HQ w. unfold ask. simpl. destruct (e_dies w) as [[] w1]; [done|].
  destruct (f w1) as [a w2]. simpl. apply HQ.
Qed.

Lemma wp_ask_from {A} (f : W -> A * W) Q m d t :
  Dur d t -> (forall a w w', f w = (a, w') -> Q a m d t) -> wp (ask f) Q m d t.
Proof.
  intros Hd HQ w. unfold ask. simpl. destruct (e_dies w) as [[] w1]; [done|].
  destruct (f w1) as [a w2] eqn:Hf. simpl. by eapply HQ.
Qed.

Lemma wp_mutate {A} mu (f : W -> A * W) Q m d t :
  Dur d t -> (forall a, Q a m d (EvMut mu d :: t)) -> wp (mutate mu f) Q m d t.
Proof.
  intros Hd HQ w. unfold mutate. simpl. destruct (e_dies w) as [[] w1]; [done|].
  destruct (f w1) as [a w2]. simpl. apply HQ.
Qed.

Lemma wp_emit e Q m d t : Q tt m d (e :: t) -> wp (emit e) Q m d t.
Proof. intros H w. done. Qed.

Lemma wp_getPassports (Q : mem -> mem -> store -> list event -> Prop) m d t : Q m m d t -> wp getPassports Q m d t.
Proof. intros H w. done. Qed.

Lemma wp_getDisk (Q : store -> mem -> store -> list event -> Prop) m d t : Q d m d t -> wp getDisk Q m d t.
Proof. intros H w. done. Qed.

Lemma wp_put k p Q m d t : Q tt (<[k := p]> m) d t -> wp (put k p) Q m d t.
Proof. intros H w. done. Qed.

Lemma wp_remove k Q m d t : Q tt (delete k m) d t -> wp (remove k) Q m d t.
Proof. intros H w. done. Qed.

Lemma wp_fsSteps ops Q m d t :
  Dur d t -> (forall e, Q (Some e) m d t) -> Q None m d t -> wp (fsSteps ops) Q m d t.
Proof.
  intros Hd He Hn. induction ops as [|o ops IH]; cbn [fsSteps]; [by apply wp_ret|].
  apply wp_bind, wp_ask; [done|]. intros [e|]; [by apply wp_ret|]. apply IH.
Qed.

Lemma wp_install m0 Q m d t : Q tt m0 d t -> wp (install m0) Q m d t.
Proof. intros H w. done. Qed.

Lemma wp_replaceStore l Q m d t : Q tt m (Some l) t -> wp (replaceStore l) Q m d t.
Proof. intros H w. done. Qed.

(** [saveLocked] either fails with the store file unchanged, fails after the
    rename, or succeeds; in the last two cases the file holds the memory. *)
Lemma wp_saveLocked Q m d t :
  Dur d t -> Dur (Some (sortedPassports m)) t ->
  (forall e, Q (Some e) m d t) -> (forall e, Q e m (Some (sortedPassports m)) t) ->
  wp (saveLocked cfg) Q m d t.
Proof.
  intros Hd Hd' He Hn.
  assert (wp writeStore Q m d t) as Hw.
  { apply wp_bind, wp_getPassports. cbv zeta.
    apply wp_bind, wp_fsSteps; [done|intros e; by apply wp_ret|].
    apply wp_bind, wp_replaceStore, wp_ask; auto. }
  apply wp_bind. unfold saveGuard. case_match.
  - apply wp_fsSteps; [done|intros e; by apply wp_ret|done].
  - apply wp_bind, wp_ask; [done|]. intros [e|]; [apply wp_ret; by apply wp_ret|].
    apply wp_fsSteps; [done|intros e; by apply wp_ret|done].
Qed.

(** ** Derived rules under the invariant *)
Lemma wp_save c m d t (Q : option err -> mem -> store -> list event -> Prop) :
  c = None -> Inv c m d t ->
  (forall e d', Inv c m d' t -> Q (Some e) m d' t) ->
  (Inv c m (Some (sortedPassports m)) t -> Q None m (Some (sortedPassports m)) t) ->
  wp (saveLocked cfg) Q m d t.
Proof.
  intros -> HI He Hn.
  assert (Inv None m (Some (sortedPassports m)) t) as HI' by (eapply Inv_store; [apply HI|..|exact HI]; by intros ?).
  apply wp_saveLocked; [apply HI|apply HI'|auto|]. intros [e|]; auto.
Qed.

Lemma wp_publish c m d t (Q : unit -> mem -> store -> list event -> Prop) :
  Inv c m d t -> (forall t', Inv c m d t' -> Q tt m d t') -> wp (publishPendingLocked cfg) Q m d t.
Proof.
  intros HI HQ. unfold publishPendingLocked. destruct (c_OnPending cfg); [|by apply wp_ret, HQ].
  apply wp_bind, wp_getPassports, wp_emit, HQ. by apply Inv_event.
Qed.

Lemma wp_checkLive i m d t (Q : option err -> mem -> store -> list event -> Prop) :
  Dur d t -> (forall e, Q e m d t) -> wp (checkLive i) Q m d t.
Proof.
  intros Hd HQ. apply wp_bind, wp_ask; [done|]. intros [e|]; [by apply wp_ret|].
  apply wp_bind, wp_ask; [done|]. intros ?. by apply wp_ret.
Qed.

(** A memory [m'] written to the store, with the old record put back when the
    write fails. *)
Lemma wp_provisional {A} m m' d t k p (F : err -> P (W:=W) A) (G : P (W:=W) A) Q :
  good m' -> within isPending m' m -> within isPrepare m' m -> <[k := p]> m' = m -> Inv None m d t ->
  (forall e d', Inv None m d' t -> wp (F e) Q m d' t) ->
  (Inv None m' (Some (sortedPassports m')) t -> wp G Q m' (Some (sortedPassports m')) t) ->
  wp (let* e := saveLocked cfg in match e with Some e => do* put k p; F e | None => G end) Q m' d t.
Proof.
  intros Hg H1 H2 Hm HI HF HG. apply wp_bind, wp_saveLocked.
  - apply HI.
  - by eapply Dur_sorted.
  - intros e. apply wp_bind, wp_put. rewrite Hm. by apply HF.
  - intros [e|].
    + apply wp_bind, wp_put. rewrite Hm. apply HF. by eapply Inv_store.
    + apply HG. by eapply Inv_both.
Qed.

Lemma storeRecord_sorted m k p i : m !! k = Some p -> p_Path p = k -> p_Pending p = Some i ->
  storeRecord (Some (sortedPassports m)) k i.
Proof. intros Hk Hp Hi. eexists _, p. repeat split; [|done..]. apply elem_sorted. by exists k. Qed.

Lemma within_refl f m : within f m m.
Proof. by intros k. Qed.

Lemma within_delete f m k : within f (delete k m) m.
Proof. intros k'. rewrite memHas_delete. by case_bool_decide. Qed.

Lemma within_trans f m1 m2 m3 : within f m1 m2 -> within f m2 m3 -> within f m1 m3.
Proof. intros H1 H2 k H. by apply H2, H1. Qed.

(** Inserting a record without [f] adds no path with [f]. *)
Lemma within_insert_not f m k p : f p = false -> within f (<[k := p]> m) m.
Proof. intros Hp k'. rewrite memHas_insert. case_bool_decide; [by rewrite Hp|done]. Qed.

Lemma within_insert_over f m k p : memHas f m k = false \/ f p = true -> within f m (<[k := p]> m).
Proof.
  intros Hp k' Hk'. rewrite memHas_insert. case_bool_decide; [subst|done]. destruct Hp; congruence.
Qed.

Lemma within_delete_over f m k : memHas f m k = false -> within f m (delete k m).
Proof. intros Hp k' Hk'. rewrite memHas_delete. case_bool_decide; [subst|done]. congruence. Qed.

Lemma notPending_notPrepare p : isPending p = false -> isPrepare p = false.
Proof. intros H. destruct (isPrepare p) eqn:Hx; [|done]. apply isPrepare_isPending in Hx. congruence. Qed.

(** Replacing or removing a record that is not pending keeps the invariant. *)
Lemma Inv_put_plain m d t k p : goodAt k p -> isPending p = false -> memHas isPending m k = false ->
  Inv None m d t -> Inv None (<[k := p]> m) d t.
Proof.
  intros Hp Hn Hm HI. eapply Inv_mem; [| | |exact HI].
  - apply good_insert; [apply HI|done].
  - apply within_insert_over. by left.
  - apply within_insert_not. by apply notPending_notPrepare.
Qed.

Lemma Inv_remove_plain m d t k : memHas isPending m k = false -> Inv None m d t -> Inv None (delete k m) d t.
Proof.
  intros Hm HI. eapply Inv_mem; [| | |exact HI].
  - apply good_delete, HI.
  - by apply within_delete_over.
  - apply within_delete.
Qed.

(** A pending record moves to a stage from which no acquire is sent. *)
Lemma Inv_put_stage c m d t k p : goodAt k p -> isPending p = true -> isPrepare p = false ->
  Inv c m d t -> Inv c (<[k := p]> m) d t.
Proof.
  intros Hp H1 H2 HI. eapply Inv_mem; [| | |exact HI].
  - apply good_insert; [apply HI|done].
  - apply within_insert_over. by right.
  - by apply within_insert_not.
Qed.

Lemma goodAt_notPending k p : goodAt k p -> p_State p <> StatePending -> isPending p = false.
Proof. intros (_ & _ & _ & H) Hs. destruct (isPending p); [|done]. by destruct Hs; apply H. Qed.

(** A record without an intent stays well-formed in another state; a releasing one
    needs the receipts its release is settled by. *)
Lemma bounded_state s p : isPending p = false -> (s = StateReleasing -> is_Some e_receipt) -> bounded p -> bounded (setState s p).
Proof.
  intros Hn Hs [Hb Hw]. split; [exact Hb|]. intros HC. specialize (Hw HC). unfold wellFormed, isPending in *.
  cbn. destruct (p_Pending p); [done|]. naive_solver.
Qed.

Lemma bounded_close t p : isPending p = false -> bounded p -> bounded (setCloseAfter t p).
Proof.
  intros Hn [Hb Hw]. split; [exact Hb|]. intros HC. specialize (Hw HC). unfold wellFormed, isPending in *.
  cbn. by destruct (p_Pending p).
Qed.

Lemma memHas_at f m k p : m !! k = Some p -> memHas f m k = f p.
Proof. unfold memHas. by intros ->. Qed.

(** Split on the head condition of the program. *)
Ltac wif := match goal with |- wp (if ?b then _ else _) _ _ _ _ => destruct b eqn:? end.

(** ** Release *)
Definition calm (m0 : mem) {A} (_ : A) (m : mem) (d : store) (t : list event) : Prop :=
  Inv None m d t /\ within isPending m m0.

Lemma calm_intro m {A} (a : A) d t : Inv None m d t -> calm m a m d t.
Proof. intros H. split; [done|apply within_refl]. Qed.

(** A release that succeeds has removed the record from memory and store; one
    that fails keeps the record and its token, releasing or lost. *)
Definition outcome (p : Passport) (r : option err) (m : mem) (d : store) : Prop :=
  match r with
  | None => m !! p_Path p = None /\ d = Some (sortedPassports m)
  | Some _ => exists q, m !! p_Path p = Some q /\ p_FencingToken q = p_FencingToken p /\
                        (p_State q = StateReleasing \/ p_State q = StateLost)
  end.

Definition released (m0 : mem) (p : Passport) (r : option err) (m : mem) (d : store) (t : list event) : Prop :=
  calm m0 r m d t /\ outcome p r m d.

Section Release.
  Variable p : Passport.

Lemma released_err m e d t : m !! p_Path p = Some p -> p_State p = StateReleasing -> Inv None m d t ->
  released m p (Some e) m d t.
Proof. intros Hm Hs HI. split; [by apply calm_intro|]. exists p. auto. Qed.

(** The end of a release: forget the record, save, announce. *)
Lemma releaseFinish_wp m d t :
  Inv None m d t -> m !! p_Path p = Some p -> p_State p = StateReleasing ->
  wp (releaseFinish cfg p) (released m p) m d t.
Proof.
  intros HI Hm Hs. apply wp_bind, wp_ask; [apply HI|]. intros [e|]; [apply wp_ret; by apply released_err|].
  apply wp_bind, wp_remove, (wp_provisional m).
  - apply good_delete, HI.
  - apply within_delete.
  - apply within_delete.
  - by rewrite insert_delete_id.
  - done.
  - intros e d' HI'. apply wp_ret. by apply released_err.
  - intros HI'. apply wp_bind. destruct (c_OnReleased cfg).
    + apply wp_emit, wp_ret. split; [split; [by apply Inv_event|apply within_delete]|].
      split; [by rewrite lookup_delete_eq|done].
    + apply wp_ret, wp_ret. split; [split; [done|apply within_delete]|].
      split; [by rewrite lookup_delete_eq|done].
Qed.

Lemma releaseReceiptBody_wp b m d t :
  Inv None m d t -> m !! p_Path p = Some p -> p_State p = StateReleasing ->
  wp (releaseReceiptBody cfg p b) (released m p) m d t.
Proof.
  intros HI Hm Hs. unfold releaseReceiptBody.
  assert (goodAt (p_Path p) p) as Hg by by eapply inv_good.
  assert (isPending p = false) as Hnp by (eapply goodAt_notPending; [done|by rewrite Hs]).
  apply wp_bind, (wp_save None); [done|done|intros; apply wp_ret; by apply released_err|]. intros HI'.
  apply wp_bind, wp_mutate; [apply HI'|]. intros r.
  apply Inv_event with (e := EvMut (MReleaseToken (p_Path p) (p_FencingToken p)) (Some (sortedPassports m))) in HI'; [|done|].
  2: { eexists _, p. repeat split; [|done..]. apply elem_sorted. by exists (p_Path p). }
  destruct r as [proof|e]; [|apply wp_ret; by apply released_err].
  apply wp_bind, wp_ask; [apply HI'|]. intros [e|]; [apply wp_ret; by apply released_err|].
  destruct proof as [proof|]; [wif; [apply wp_ret; by apply released_err|by apply releaseFinish_wp]|].
  apply wp_bind, wp_ask; [apply HI'|]. intros [info|e]; [|apply wp_ret; by apply released_err]. wif.
  - apply wp_bind, wp_put. cbn [p_Path setState]. set (q := setState StateLost p).
    assert (Inv None (<[p_Path p := q]> m) (Some (sortedPassports m))
      (EvMut (MReleaseToken (p_Path p) (p_FencingToken p)) (Some (sortedPassports m)) :: t)) as HI2.
    { apply Inv_put_plain; [|done|by rewrite (memHas_at _ _ _ _ Hm)|done].
      destruct Hg as (? & ? & ? & _). split_and!; [done|done|by apply bounded_state|]. unfold isPending in *. cbn. split; congruence. }
    assert (within isPending (<[p_Path p := q]> m) m) as Hw by by apply within_insert_not.
    apply wp_bind, (wp_save None); [done|done|..]; intros; apply wp_ret; (split; [done|]); exists q;
      rewrite lookup_insert_eq; auto.
  - apply wp_bind, wp_mutate; [apply HI'|]. intros [e|].
    + apply wp_ret, released_err; [done|done|]. by apply Inv_event.
    + apply releaseFinish_wp; [|done|done]. by apply Inv_event.
Qed.

End Release.

Lemma releaseWithReceipt_wp p b m d t : e_receipt = Some b ->
  Inv None m d t -> goodAt (p_Path p) p -> p_State p <> StatePending -> memHas isPending m (p_Path p) = false ->
  (p_State p = StateReleasing -> m !! p_Path p = Some p) ->
  wp (releaseWithReceipt cfg p b) (released m p) m d t.
Proof.
  intros Hb HI Hg Hs Hm Hr. unfold releaseWithReceipt. apply wp_bind.
  assert (isPending p = false) as Hnp by by eapply goodAt_notPending.
  assert (forall (r : option err) m' d' t', released m p r m' d' t' ->
    wp (do* publishPendingLocked cfg; ret r) (released m p) m' d' t') as Hpub.
  { intros r m' d' t' [[HI' Hw] Ho]. apply wp_bind, (wp_publish None); [done|]. intros t'' HI''. by apply wp_ret. }
  case_bool_decide as Hd; [|cbv zeta; apply wp_bind, wp_put].
  - eapply wp_mono; [by apply releaseReceiptBody_wp; auto|exact Hpub].
  - set (q := setCloseAfter 0%Z (setState StateReleasing p)). change (p_Path q) with (p_Path p).
    eapply wp_mono; [apply (releaseReceiptBody_wp q)|].
    + apply Inv_put_plain; [|done|done|done]. destruct Hg as (? & ? & ? & _).
      split_and!; [done|done| |unfold isPending in *; cbn; split; congruence].
      apply bounded_close; [done|]. apply bounded_state; [done|by rewrite Hb|done].
    + by rewrite lookup_insert_eq.
    + done.
    + intros r m' d' t' [[H1 H2] H3]. apply Hpub. split; [|by destruct r].
      split; [done|]. eapply within_trans; [done|]. by apply within_insert_not.
Qed.

(** ** Pending acquisitions *)
Definition keeps {A} (_ : A) (m : mem) (d : store) (t : list event) : Prop := Inv None m d t.

Lemma goodAt_setPending k p i s : goodAt k p -> p_Pending p = Some i -> (s = SSettling -> is_Some (li_Acquisition i)) ->
  goodAt k (setPending (Some (setStage s i)) p).
Proof.
  intros (H1 & H2 & [Hb Hw] & H4) Hp Hs. split_and!; [done|done| |cbn; rewrite H4; unfold isPending; by rewrite Hp].
  split; [exact Hb|]. intros HC. specialize (Hw HC). unfold wellFormed in *. rewrite Hp in Hw. cbn.
  destruct Hw as (? & ? & ? & ? & b & Hb' & Hv). split_and!; [done..|]. exists b. split; [done|]. by apply (cf_advance HC).
Qed.

Section Pending.

Lemma retirePending_wp p cause m d t :
  Inv None m d t -> m !! p_Path p = Some p -> wp (retirePending cfg p cause) keeps m d t.
Proof.
  intros HI Hm. apply wp_bind, wp_remove, (wp_provisional m).
  - apply good_delete, HI.
  - apply within_delete.
  - apply within_delete.
  - by rewrite insert_delete_id.
  - done.
  - intros e d' HI'. by apply wp_ret.
  - intros HI'. apply wp_bind, (wp_publish None); [done|]. intros t' HI''. by apply wp_ret.
Qed.

Lemma retire_ret_wp p cause m d t : Inv None m d t -> m !! p_Path p = Some p ->
  wp (let* e := retirePending cfg p cause in ret (p, Some e)) keeps m d t.
Proof.
  intros HI Hm. apply wp_bind. eapply wp_mono; [by apply retirePending_wp|].
  intros e m' d' t' HI'. by apply wp_ret.
Qed.

(** Move the record to a closing stage, publish and save. *)
Lemma closing_wp p i s m d t (F : err -> P (W:=W) PendingResult) (G : P (W:=W) PendingResult) :
  let p' := setPending (Some (setStage s i)) p in
  s <> SPrepare -> p_Pending p = Some i -> (s = SSettling -> is_Some (li_Acquisition i)) -> goodAt (p_Path p) p -> Inv None m d t ->
  (forall e d' t', Inv None (<[p_Path p := p']> m) d' t' -> wp (F e) keeps (<[p_Path p := p']> m) d' t') ->
  (forall t', Inv None (<[p_Path p := p']> m) (Some (sortedPassports (<[p_Path p := p']> m))) t' ->
     wp G keeps (<[p_Path p := p']> m) (Some (sortedPassports (<[p_Path p := p']> m))) t') ->
  wp (do* put (p_Path p) p'; do* publishPendingLocked cfg;
      let* e := saveLocked cfg in match e with Some e => F e | None => G end) keeps m d t.
Proof.
  intros p' Hs Hpp Hacq Hg HI HF HG. apply wp_bind, wp_put.
  assert (Inv None (<[p_Path p := p']> m) d t) as HI'.
  { apply Inv_put_stage; [by apply goodAt_setPending|done|by apply bool_decide_eq_false_2|done]. }
  apply wp_bind, (wp_publish None); [done|]. intros t' HI2.
  apply wp_bind, (wp_save None); [done|done|by intros; apply HF|]. intros HI3. by apply HG.
Qed.

(** A mutation the saved record explains. *)
Lemma wp_mutate_record {A} mu (f : W -> A * W) Q m d t :
  silent (EvMut mu d) -> journaled (EvMut mu d) -> Inv None m d t ->
  (forall a t', Inv None m d t' -> Q a m d t') -> wp (mutate mu f) Q m d t.
Proof.
  intros Hs Hj HI HQ. apply wp_mutate; [apply HI|]. intros a. apply HQ. by apply Inv_event.
Qed.

Lemma settlePending_wp p m d t :
  Inv None m d t -> m !! p_Path p = Some p -> wp (settlePending cfg p) keeps m d t.
Proof.
  intros HI Hm. unfold settlePending.
  destruct e_intent as [[? ? ? ? ? ? ? ? [settle|]]|]; [|by apply wp_ret..].
  destruct (p_Pending p) as [i|] eqn:Hp; [|by apply wp_ret].
  destruct (li_Acquisition i) eqn:Hacq; [|by apply wp_ret]. wif; [by apply wp_ret|]. cbv zeta.
  apply (closing_wp p i SSettling); [done|done|by rewrite Hacq|by eapply inv_good|done|by intros; apply wp_ret|].
  intros t' HI'. apply wp_bind, wp_mutate_record; [done| |done|].
  - split; [by left|]. eapply storeRecord_sorted; [by rewrite lookup_insert_eq|done|done].
  - intros [e|] t2 HI2; [by apply wp_ret|]. apply retire_ret_wp; [done|]. cbn. by rewrite lookup_insert_eq.
Qed.

Lemma cancelPending_wp b p i m d t : p_Pending p = Some i ->
  Inv None m d t -> m !! p_Path p = Some p -> wp (cancelPending cfg b p i) keeps m d t.
Proof.
  intros Hp HI Hm. unfold cancelPending. wif; [by apply wp_ret|]. cbv zeta.
  apply (closing_wp p i SCanceling); [done|done|done|by eapply inv_good|done|by intros; apply wp_ret|].
  set (p' := setPending _ p). set (m' := <[_ := p']> m). set (d' := Some _).
  assert (storeRecord d' (p_Path p') (setStage SCanceling i)) as Hrec.
  { eapply storeRecord_sorted; [unfold m'; by rewrite lookup_insert_eq|done|done]. }
  intros t' HI'. apply wp_bind.
  assert (forall r t2, Inv None m' d' t2 ->
    wp match r with
       | Some e => ret (p', Some e)
       | None => let* e := mutate (MCancel (p_Path p') (setStage SCanceling i)) (ib_cancel b (p_Path p') (setStage SCanceling i)) in
                 match e with Some e => ret (p', Some e) | None => let* e := retirePending cfg p' EAborted in ret (p', Some e) end
       end keeps m' d' t2) as Hk.
  { intros [e|] t2 HI2; [by apply wp_ret|]. apply wp_bind, wp_mutate_record; [done|done|done|].
    intros [e|] t3 HI3; [by apply wp_ret|]. apply retire_ret_wp; [done|]. unfold m'. cbn. by rewrite lookup_insert_eq. }
  destruct (li_Acquisition (setStage SCanceling i)); [|by apply wp_ret, (Hk None)].
  destruct (ib_settle b) as [settle|]; [|by apply wp_ret, (Hk (Some _))].
  apply wp_mutate_record; [done|by split; [right|]|done|]. intros r t2 HI2. by apply Hk.
Qed.

Lemma confirmTail_wp p i r m d t : p_Pending p = Some i -> li_Stage i <> SPrepare ->
  Inv None m d t -> m !! p_Path p = Some p -> wp (confirmTail cfg p i r) keeps m d t.
Proof.
  intros Hp Hst HI Hm. unfold confirmTail. cbv zeta.
  assert (forall e d t, Inv None m d t ->
    wp match li_Acquisition i with Some _ => settlePending cfg p | None => ret (p, Some e) end keeps m d t) as Hset.
  { intros e d' t' HI'. destruct (li_Acquisition i); [by apply settlePending_wp|by apply wp_ret]. }
  destruct r as [lock|e]; [|by apply Hset]. wif; [by apply Hset|].
  apply wp_bind, wp_checkLive; [apply HI|]. intros [e|]; [by apply Hset|].
  apply wp_bind, wp_ask; [apply HI|]. intros now0. apply wp_bind, wp_put.
  set (conf := Pass _ _ _ _ _ _ _ _ _ _ _ _).
  assert (goodAt (p_Path p) conf) as Hg.
  { destruct (inv_good _ _ _ _ HI _ _ Hm) as (? & ? & [Hb Hw] & _). split_and!; [done|done| |done]. split; [exact Hb|].
    intros HC. specialize (Hw HC). unfold wellFormed in *. rewrite Hp in Hw. bool_to_prop. by destruct Hw as (? & ? & _). }
  apply (wp_provisional m).
  - apply good_insert; [apply HI|done].
  - by apply within_insert_not.
  - by apply within_insert_not.
  - rewrite insert_insert_eq. by rewrite insert_id.
  - done.
  - intros e d' HI'. by apply wp_ret.
  - intros HI'. apply wp_bind, (wp_publish None); [done|]. intros t' HI2.
    destruct e_ownership; [|by apply wp_ret].
    apply wp_bind, wp_ask; [apply HI2|]. intros e. by apply wp_ret.
Qed.

Lemma confirmPending_wp b p i acquired started m d t : p_Pending p = Some i -> li_Stage i <> SPrepare ->
  Inv None m d t -> m !! p_Path p = Some p -> wp (confirmPending cfg b p i acquired started) keeps m d t.
Proof.
  intros Hp Hst HI Hm. unfold confirmPending. wif.
  - apply wp_bind, (wp_save None); [done|done|by intros; apply wp_ret|]. intros HI'. cbv zeta.
    assert (forall d t, Inv None m d t ->
      wp (let* r := ask (ib_reconcile b (p_Path p) i) in
          match r with
          | Err e => confirmTail cfg p i (Err e)
          | Ok (lock, gone) =>
              if (gone : bool) then let* e := retirePending cfg p EStale in ret (p, Some e)
              else confirmTail cfg p i (Ok lock)
          end) keeps m d t) as Hrec.
    { intros d2 t2 HI2. apply wp_bind, wp_ask; [apply HI2|]. intros [[lock [|]]|e].
      - by apply retire_ret_wp.
      - by apply confirmTail_wp.
      - by apply confirmTail_wp. }
    destruct acquired as [lock|]; [|by apply Hrec].
    apply wp_bind, wp_ask; [apply HI'|]. intros t1. wif; [|by apply Hrec].
    apply wp_bind, wp_ask; [apply HI'|]. intros [e|]; [by apply Hrec|]. by apply confirmTail_wp.
  - apply wp_bind, wp_ask; [apply HI|]. intros r. by apply confirmTail_wp.
Qed.

Lemma acquireIntent_wp b k i m d t (Q : result err (option Lock) -> mem -> store -> list event -> Prop) :
  li_Stage i = SLocking -> storeRecord d k i -> Inv (Some k) m d t ->
  (forall r t', Inv None m d t' -> Q r m d t') -> wp (acquireIntent b k i) Q m d t.
Proof.
  intros Hs Hr HI HQ. unfold acquireIntent. destruct (ib_acquireReceipt b).
  - apply wp_mutate; [apply HI|]. intros r. apply HQ. by apply Inv_acquire.
  - apply wp_bind, wp_mutate; [apply HI|]. intros e. apply wp_ret, HQ. by apply Inv_acquire.
Qed.

(** From a locked, saved record with the credit in hand to the end. *)
Lemma preparePending_wp b p i m d t : p_Pending p = Some i -> li_Stage i = SPrepare ->
  Inv None m d t -> m !! p_Path p = Some p -> wp (preparePending cfg b p i) keeps m d t.
Proof.
  intros Hp Hst HI Hm. unfold preparePending.
  assert (isPending p = true) as Hpp by (unfold isPending; by rewrite Hp).
  assert (goodAt (p_Path p) p) as Hg by by eapply inv_good.
  apply wp_bind, (wp_save None); [done|done|by intros; apply wp_ret|]. intros HI1.
  apply wp_bind, wp_mutate_record; [done|by split; [|eapply storeRecord_sorted]|done|].
  intros [e|] t1 HI2; [wif; [by apply retire_ret_wp|by apply wp_ret]|].
  apply wp_bind, wp_ask; [apply HI2|]. intros [e|]; [by apply wp_ret|].
  apply wp_bind, wp_checkLive; [apply HI2|]. intros [e|]; [by apply cancelPending_wp|]. cbv zeta.
  set (i1 := setStage SLocking i). set (p1 := setPending (Some i1) p). set (m1 := <[p_Path p := p1]> m).
  assert (goodAt (p_Path p) p1) as Hgp1 by by apply goodAt_setPending.
  assert (good m1) as Hg1 by (apply good_insert; [apply HI|done]).
  assert (within isPrepare m1 m) as Hw1 by by apply within_insert_not.
  assert (forall d t, Inv None m d t -> Inv None m1 d t) as Hput.
  { intros d' t' HI'. by apply Inv_put_stage. }
  apply wp_bind, wp_put. change (p_Path p1) with (p_Path p). fold m1.
  (* the projection of the change, then the save that turns the intent into credit *)
  apply wp_bind. eapply wp_mono with (Q := fun _ m' d' t' => m' = m1 /\ Inv None m d' t' /\ Inv None m1 d' t').
  { unfold publishPendingLocked. destruct (c_OnPending cfg); [|apply wp_ret; auto].
    apply wp_bind, wp_getPassports, wp_emit. split_and!; [done|by apply Inv_event|]. apply Inv_event; [done|done|auto]. }
  intros _ m' d' t' (-> & HI3 & HI3').
  assert (Inv (Some (p_Path p)) m1 (Some (sortedPassports m1)) t') as HIc.
  { eapply Inv_credit; [done|done| | |exact HI3].
    - rewrite (memHas_at _ _ _ _ Hm). unfold isPrepare. rewrite Hp. by apply bool_decide_eq_true_2.
    - unfold m1. by rewrite memHas_insert, bool_decide_eq_true_2. }
  assert (forall d t, Inv (Some (p_Path p)) m1 d t -> Inv None m1 d t) as Hdrop.
  { intros d0 t0 [H1 H2 H3 H4]. split; [done..|]. intros k. specialize (H4 k). cbn [creditAt] in *. lia. }
  apply wp_bind, wp_saveLocked; [apply HI3|apply HIc|intros e; by apply wp_ret|].
  intros [e|]; [apply wp_ret; by apply Hdrop|].
  apply wp_bind, wp_checkLive; [apply HIc|]. intros [e|]; [apply wp_ret; by apply Hdrop|].
  apply wp_bind, wp_ask; [apply HIc|]. intros started.
  apply wp_bind, acquireIntent_wp; [done| |done|].
  { eapply storeRecord_sorted; [unfold m1; by rewrite lookup_insert_eq|done|done]. }
  intros [acquired|e] t2 HI4; [|by apply wp_ret].
  apply wp_bind, wp_put. change (p_Path (setPending _ p1)) with (p_Path p).
  apply wp_bind, (wp_publish None).
  { apply Inv_put_stage; [by apply goodAt_setPending|done|done|done]. }
  intros t3 HI5. apply confirmPending_wp; [done|done|done|]. cbn. by rewrite lookup_insert_eq.
Qed.

Lemma resumePendingBody_wp p m d t :
  Inv None m d t -> m !! p_Path p = Some p -> wp (resumePendingBody cfg p) keeps m d t.
Proof.
  intros HI Hm. unfold resumePendingBody.
  destruct e_intent as [b|]; [|by apply wp_ret].
  destruct (p_Pending p) as [i|] eqn:Hp; [|by apply wp_ret].
  destruct (ib_validate b (p_Path p) i); [by apply wp_ret|].
  apply wp_bind, wp_ask; [apply HI|]. intros [e|]; [by apply wp_ret|].
  wif; [by apply settlePending_wp|].
  apply wp_bind, wp_ask; [apply HI|]. intros t1. wif; [by apply cancelPending_wp|]. cbv zeta.
  apply wp_bind.
  assert (forall e : option err, wp
    match e with
    | Some e => ret (p, Some e)
    | None => if bool_decide (li_Stage i = SPrepare) then preparePending cfg b p i else confirmPending cfg b p i None 0%Z
    end keeps m d t) as Hk.
  { intros [e|]; [by apply wp_ret|]. wif; bool_to_prop; [by apply preparePending_wp|by apply confirmPending_wp]. }
  wif; [by apply wp_ret, (Hk None)|]. apply wp_checkLive; [apply HI|exact Hk].
Qed.

Lemma resumePending_wp p m d t :
  Inv None m d t -> m !! p_Path p = Some p -> wp (resumePending cfg p) keeps m d t.
Proof.
  intros HI Hm. unfold resumePending. wif; [|by apply resumePendingBody_wp].
  apply wp_bind, wp_emit, wp_bind. eapply wp_mono; [apply resumePendingBody_wp; [by apply Inv_event|done]|].
  intros r m' d' t' HI'. apply wp_bind, wp_emit, wp_ret. by apply Inv_event.
Qed.

Lemma beginPending_wp b k meta mode close m d t :
  e_intent = Some b -> (md_ExpiresAt meta <= md_HardExpiresAt meta)%Z ->
  (Conforming -> md_InstanceUID meta = c_InstanceUID cfg /\ md_PassportID meta <> "") ->
  Inv None m d t -> Clean k = k -> memHas isPending m k = false ->
  wp (beginPending cfg b k meta mode close) keeps m d t.
Proof.
  intros Hb Hlife Hident HI Hk Hm. unfold beginPending. apply wp_bind, wp_ask; [apply HI|]. intros t0.
  apply wp_bind, wp_ask_from; [apply HI|]. intros [i|e] w w' Hnew; [|by apply wp_ret].
  apply wp_bind, wp_emit. cbv zeta. apply wp_bind, wp_put, wp_bind, (wp_publish None).
  - apply Inv_mint; [split_and!; [done|done| |done]|done..].
    split; [intros HK; cbn; by destruct (HK _ _ _ _ _ _ _ _ Hb Hnew) as [-> ->]|].
    intros HC. destruct (Hident HC) as [H1 H2]. destruct (cf_new HC _ _ _ _ _ _ _ _ Hb Hnew) as (E1 & E2 & Hv).
    unfold wellFormed. cbn. rewrite E1, E2. split_and!; [done|done|done| |by exists b].
    unfold bindingMismatch. cbn. rewrite E2, H1. by rewrite !bool_decide_eq_true_2, !Z.eqb_refl by done.
  - intros t' HI'. apply resumePending_wp; [done|]. cbn. by rewrite lookup_insert_eq.
Qed.

End Pending.

(** ** The methods *)
Lemma calm_keeps m0 {A} (a : A) m d t : calm m0 a m d t -> keeps a m d t.
Proof. by intros [? _]. Qed.

(** A record that is not pending may be replaced by a copy in another
    non-pending state. *)
Definition variant (p q : Passport) : Prop :=
  p_Path q = p_Path p /\ p_Pending q = p_Pending p /\ p_State q <> StatePending /\
  (p_Pending p = None -> wellFormed p -> wellFormed q) /\
  ((p_ExpiresAt p <= p_HardExpiresAt p)%Z -> (p_ExpiresAt q <= p_HardExpiresAt q)%Z).

Lemma goodAt_variant k p q : goodAt k p -> p_State p <> StatePending -> variant p q -> goodAt k q /\ isPending q = false.
Proof.
  intros Hg Hs (H1 & H2 & H3 & Hw & H4). pose proof (goodAt_notPending _ _ Hg Hs) as Hn.
  assert (isPending q = false) as Hq by (unfold isPending in *; by rewrite H2).
  split; [|done]. destruct Hg as (? & ? & Hb & _). split_and!; [congruence|done| |by rewrite Hq].
  destruct Hb as [Hb1 Hb2]. split; [by intros ?; apply H4, Hb1|]. intros HC. apply Hw; [|by apply Hb2].
  unfold isPending in Hn. by destruct (p_Pending p).
Qed.

Lemma Inv_variant m d t k p q : Inv None m d t -> m !! k = Some p -> p_State p <> StatePending -> variant p q ->
  Inv None (<[k := q]> m) d t /\ memHas isPending m k = false /\ isPending q = false.
Proof.
  intros HI Hm Hs Hv. pose proof (inv_good _ _ _ _ HI _ _ Hm) as Hg.
  destruct (goodAt_variant _ _ _ Hg Hs Hv) as [Hg' Hq].
  assert (memHas isPending m k = false) as Hk.
  { rewrite (memHas_at _ _ _ _ Hm). by eapply goodAt_notPending. }
  split; [|done]. by apply Inv_put_plain.
Qed.

Lemma at_path m d t k p : Inv None m d t -> m !! k = Some p -> p_Path p = k.
Proof. intros HI Hm. by apply (inv_good _ _ _ _ HI _ _ Hm). Qed.

Lemma notPending_at m d t k p : Inv None m d t -> m !! k = Some p -> p_State p <> StatePending ->
  memHas isPending m k = false.
Proof.
  intros HI Hm Hs. rewrite (memHas_at _ _ _ _ Hm). eapply goodAt_notPending; [by eapply inv_good|done].
Qed.

Lemma clean_at m d t k p : Inv None m d t -> m !! k = Some p -> Clean k = k.
Proof. intros HI Hm. by apply (inv_good _ _ _ _ HI _ _ Hm). Qed.

Lemma variant_state p s t : s <> StatePending -> s <> StateReleasing -> variant p (setCloseAfter t (setState s p)).
Proof. intros H1 H2. split_and!; [done..| |done]. unfold wellFormed. cbn. intros ->. naive_solver. Qed.

Lemma variant_lost p : variant p (setState StateLost p).
Proof. split_and!; [done..| |done]. unfold wellFormed. cbn. intros ->. naive_solver. Qed.

Lemma variant_close p t : p_State p <> StatePending -> variant p (setCloseAfter t p).
Proof. intros Hs. split_and!; [done..| |done]. unfold wellFormed. cbn. by intros ->. Qed.

Lemma variant_lose p : variant p (lose p).
Proof. by apply variant_state. Qed.

Lemma cleanLoop_clean seen paths : Forall (fun k => Clean k = k) (cleanLoop seen paths).
Proof.
  revert seen. induction paths as [|p ps IH]; intros seen; cbn [cleanLoop]; [constructor|].
  destruct (_ || _); [apply IH|]. constructor; [apply Clean_idempotent|apply IH].
Qed.

Lemma cleanPaths_clean paths : Forall (fun k => Clean k = k) (cleanPaths paths).
Proof.
  unfold cleanPaths. rewrite merge_sort_Permutation. apply cleanLoop_clean.
Qed.

Section Methods.

Lemma release_at_wp p b k m d t : e_receipt = Some b -> Inv None m d t -> m !! k = Some p -> p_State p <> StatePending ->
  wp (releaseWithReceipt cfg p b) (released m p) m d t.
Proof.
  intros Hb HI Hm Hs. pose proof (at_path _ _ _ _ _ HI Hm) as Hk. subst k.
  apply releaseWithReceipt_wp; [done|done|by eapply inv_good|done|by eapply notPending_at|done].
Qed.

Lemma wp_saveRet {A} (a : option err -> A) m d t : Inv None m d t ->
  wp (let* e := saveLocked cfg in ret (a e)) keeps m d t.
Proof.
  intros HI. apply wp_bind, (wp_save None); [done|done|by intros; apply wp_ret|by intros; apply wp_ret].
Qed.

(** *** rollback and Acquire *)
Definition fresh (m : mem) (p : Passport) : Prop :=
  goodAt (p_Path p) p /\ p_State p = StateActive /\ memHas isPending m (p_Path p) = false.

Lemma fresh_within m m' ps : within isPending m' m -> Forall (fresh m) ps -> Forall (fresh m') ps.
Proof.
  intros Hw Hf. eapply Forall_impl; [exact Hf|]. intros p (H1 & H2 & H3). split_and!; [done..|].
  destruct (memHas isPending m' (p_Path p)) eqn:Hx; [|done]. apply Hw in Hx. congruence.
Qed.

Lemma rollbackLoop_wp ps m d t : Inv None m d t -> Forall (fresh m) ps -> wp (rollbackLoop cfg ps) keeps m d t.
Proof.
  revert m d t. induction ps as [|p ps IH]; intros m d t HI Hf; cbn [rollbackLoop]; [by apply wp_ret|].
  apply Forall_cons in Hf as [(H1 & H2 & H3) Hf]. destruct e_receipt as [b|] eqn:Hb.
  - apply wp_bind. eapply wp_mono.
    + apply releaseWithReceipt_wp; [done|done|done|by rewrite H2|done|by rewrite H2].
    + intros e m' d' t' [[HI' Hw] _]. apply IH; [done|by eapply fresh_within].
  - apply wp_bind, wp_mutate_record; [done|done|done|]. intros e t' HI'.
    apply wp_bind, wp_remove, IH; [by apply Inv_remove_plain|]. eapply fresh_within; [apply within_delete|done].
Qed.

Lemma rollback_wp {A} (a : A) ps m d t : Inv None m d t -> Forall (fresh m) ps ->
  wp (do* rollback cfg ps; ret a) keeps m d t.
Proof.
  intros HI Hf. apply wp_bind. unfold rollback. apply wp_bind. eapply wp_mono; [by apply rollbackLoop_wp|].
  intros ? m' d' t' HI'. apply wp_bind, (wp_save None); [done|done|..]; intros; by apply wp_ret, wp_ret.
Qed.

Lemma sameRealmOf_wp path realm info meta m d t (Q : result err bool -> mem -> store -> list event -> Prop) :
  Dur d t -> (forall r, Q r m d t) -> wp (sameRealmOf cfg path realm info meta) Q m d t.
Proof.
  intros Hd HQ. unfold sameRealmOf. destruct e_ownership; [|by apply wp_ret]. wif; [by apply wp_ret|].
  apply wp_bind, wp_ask; [done|]. intros [v|e]; [|by apply wp_ret]. destruct (Rel _ _); by apply wp_ret.
Qed.

Lemma judgeLock_wp t0 path realm info m d t (Q : acqDecision -> mem -> store -> list event -> Prop) :
  Dur d t -> (forall r, Q r m d t) -> wp (judgeLock cfg t0 path realm info) Q m d t.
Proof.
  intros Hd HQ. unfold judgeLock. destruct info as [info|]; [|by apply wp_ret].
  destruct (ParseComment _); [|by apply wp_ret]. apply wp_bind, wp_getPassports.
  assert (wp (let* same := sameRealmOf cfg path realm info m0 in ret (refuseUnless t0 path info m0 same)) Q m d t) as Hs.
  { apply wp_bind, sameRealmOf_wp; [done|]. intros r. by apply wp_ret. }
  destruct (m !! path) as [q|]; [|done]. destruct (stillHeld _ _ _ _); [by apply wp_ret|done].
Qed.

(** The state after one iteration: without a durable backend no pending record
    appears, and a new record is fresh. *)
Definition acquired1 (m0 : mem) (r : acqStep) (m : mem) (d : store) (t : list event) : Prop :=
  Inv None m d t /\
  match r with
  | AqNew p => e_intent = None /\ fresh m p /\ within isPending m m0
  | AqKeep _ | AqRollback _ => e_intent = None -> within isPending m m0
  | AqFail _ => True
  end.

Lemma acquired1_same m r d t : Inv None m d t -> (forall p, r <> AqNew p) -> acquired1 m r m d t.
Proof. intros HI Hr. split; [done|]. destruct r; [intros _; apply within_refl|by destruct (Hr p)|done|intros _; apply within_refl]. Qed.

Lemma acquireFresh_wp t0 path realm info force m d t :
  Inv None m d t -> Clean path = path -> memHas isPending m path = false ->
  wp (acquireFresh cfg t0 path realm info force) (acquired1 m) m d t.
Proof.
  intros HI Hc Hm. unfold acquireFresh. cbv zeta. apply wp_bind, wp_ask_from; [apply HI|]. intros id w0 w0' Hid.
  assert (Conforming -> id <> "") as Hid' by (intros HC; pose proof (cf_uuid HC w0) as Hn; by rewrite Hid in Hn).
  destruct e_intent as [b|] eqn:Hi.
  - apply wp_bind. eapply wp_mono; [apply beginPending_wp; [done|apply minTime_le|by intros HC; split; [|apply Hid']|done..]|].
    intros [p [e|]] m' d' t' HI'; apply wp_ret; (split; [done|]); [done|]. by rewrite Hi.
  - apply wp_bind, wp_mutate_record; [done|done|done|].
    intros [lock|e] t' HI'; [|apply wp_ret; by apply acquired1_same].
    wif; [apply wp_ret; by apply acquired1_same|]. apply wp_bind, wp_put, wp_ret.
    set (p := Pass _ _ _ _ _ _ _ _ _ _ _ _).
    assert (goodAt path p) as Hg.
    { split_and!; [done|done| |done]. split; [intros _; apply minTime_le|]. intros HC. bool_to_prop. split_and!; [done|by apply Hid'|]. by split. }
    split; [by apply Inv_put_plain|]. split; [done|]. split; [|by apply within_insert_not].
    split_and!; [done|done|]. by rewrite memHas_insert, bool_decide_eq_true_2.
Qed.

Lemma acquireOne_wp t0 realm path m d t : Inv None m d t -> Clean path = path ->
  wp (acquireOne cfg t0 realm path) (acquired1 m) m d t.
Proof.
  intros HI Hc. unfold acquireOne. apply wp_bind, wp_getPassports. cbv zeta.
  assert (memHas isPending m path = false -> wp
    (let* r := ask (e_inspect path) in
     match r with
     | Err e => ret (AqRollback e)
     | Ok info =>
         let* d := judgeLock cfg t0 path realm info in
         match d with
         | DKeep p => ret (AqKeep p)
         | DRefuse e => ret (AqRollback e)
         | DLock force => acquireFresh cfg t0 path realm info force
         end
     end) (acquired1 m) m d t) as Hfresh.
  { intros Hm. apply wp_bind, wp_ask; [apply HI|]. intros [info|e]; [|apply wp_ret; by apply acquired1_same].
    apply wp_bind, judgeLock_wp; [apply HI|].
    intros [p|e|force]; [apply wp_ret; by apply acquired1_same..|by apply acquireFresh_wp]. }
  destruct (m !! path) as [p|] eqn:Hm; [|apply Hfresh; unfold memHas; by rewrite Hm].
  wif; [apply wp_ret; by apply acquired1_same|]. wif.
  - wif; [apply wp_ret; by apply acquired1_same|]. pose proof (at_path _ _ _ _ _ HI Hm) as Hk. subst path.
    destruct e_intent as [b|] eqn:Hi.
    + apply wp_bind. eapply wp_mono; [by apply resumePending_wp|].
      intros [q [e|]] m' d' t' HI'; apply wp_ret; (split; [done|]); [done|]. by rewrite Hi.
    + apply wp_bind.
      assert (forall t', Inv None m d t' -> wp match (p, Some EPendingUnavailable) with (_, Some e) => ret (AqFail e) | (p, None) => ret (AqKeep p) end (acquired1 m) m d t') as Hf.
      { intros t' HI'. apply wp_ret. by apply acquired1_same. }
      unfold resumePending, resumePendingBody. rewrite Hi. wif; [|by apply wp_ret, Hf].
      apply wp_bind, wp_emit, wp_bind, wp_ret, wp_bind, wp_emit, wp_ret, Hf. repeat (apply Inv_event; [done..|]). done.
  - apply Hfresh. bool_to_prop. by eapply notPending_at.
Qed.

Lemma acquireLoop_wp t0 realm paths acquired newly m d t :
  Forall (fun k => Clean k = k) paths -> Inv None m d t -> Forall (fresh m) newly -> (newly <> [] -> e_intent = None) ->
  wp (acquireLoop cfg t0 realm paths acquired newly) keeps m d t.
Proof.
  intros Hc. revert acquired newly m d t. induction Hc as [|path paths Hp _ IH]; intros acquired newly m d t HI Hf Hi;
    cbn [acquireLoop].
  - apply wp_bind, (wp_save None); [done|done| |by intros; apply wp_ret]. intros e d' HI'. by apply rollback_wp.
  - apply wp_bind. eapply wp_mono; [by apply acquireOne_wp|]. intros r m' d' t' [HI' Hr].
    assert ((e_intent = None -> within isPending m' m) -> Forall (fresh m') newly) as Hf'.
    { intros Hw. destruct newly as [|q qs]; [constructor|]. eapply fresh_within; [|done]. by apply Hw, Hi. }
    destruct r as [p|p|e|e].
    + apply IH; auto.
    + destruct Hr as (H1 & H2 & H3). apply IH; [done| |done].
      apply Forall_app. split; [by apply Hf'|]. by constructor.
    + by apply wp_ret.
    + apply rollback_wp; auto.
Qed.

Lemma Acquire_wp paths realm m d t : Inv None m d t -> wp (Acquire cfg paths realm) keeps m d t.
Proof.
  intros HI. unfold Acquire. pose proof (cleanPaths_clean paths) as Hc.
  destruct (cleanPaths paths) as [|k ks]; [by apply wp_ret|].
  apply wp_bind, wp_ask; [apply HI|]. intros t0. by apply acquireLoop_wp.
Qed.

(** *** Release, ReleaseAll and Heartbeat *)
Lemma releaseFail_wp changed e m d t : Inv None m d t -> wp (releaseFail cfg changed e) keeps m d t.
Proof. intros HI. unfold releaseFail. wif; [by apply wp_saveRet|by apply wp_ret]. Qed.

Lemma saveLocked_wp m d t : Inv None m d t -> wp (saveLocked cfg) keeps m d t.
Proof. intros HI. by apply (wp_save None). Qed.

Lemma releaseLoop_wp changed paths m d t : Inv None m d t -> wp (releaseLoop cfg changed paths) keeps m d t.
Proof.
  revert changed m d t. induction paths as [|k ks IH]; intros changed m d t HI; cbn [releaseLoop];
    [by apply saveLocked_wp|].
  apply wp_bind, wp_getPassports. destruct (m !! k) as [p|] eqn:Hm; [|by apply releaseFail_wp].
  wif; [by apply releaseFail_wp|]. wif; [by apply releaseFail_wp|]. bool_to_prop.
  destruct e_receipt as [b|] eqn:Hb.
  - apply wp_bind. eapply wp_mono; [by eapply release_at_wp|].
    intros [e|] m' d' t' [[HI' _] _]; [by apply releaseFail_wp|by apply IH].
  - apply wp_bind, wp_ask; [apply HI|]. intros [info|e]; [|by apply releaseFail_wp]. wif.
    + apply wp_bind, wp_put, releaseFail_wp. eapply (Inv_variant m d t k p (lose p)); [done|done|congruence|apply variant_lose].
    + apply wp_bind, wp_mutate_record; [done|done|done|]. intros [e|] t' HI'; [by apply releaseFail_wp|].
      apply wp_bind, wp_remove, IH, Inv_remove_plain; [by eapply notPending_at|done].
Qed.

Lemma releaseAllOne_wp k p m d t : Inv None m d t -> m !! k = Some p -> wp (releaseAllOne cfg k p) keeps m d t.
Proof.
  intros HI Hm. unfold releaseAllOne. wif; [by apply wp_ret|]. wif; [by apply wp_ret|]. bool_to_prop.
  destruct e_receipt as [b|] eqn:Hb.
  - eapply wp_mono; [by eapply release_at_wp|]. by intros ? ? ? ? [[? _] _].
  - apply wp_bind, wp_ask; [apply HI|]. intros [info|e]; [|by apply wp_ret]. wif.
    + apply wp_bind, wp_put, wp_ret. eapply (Inv_variant m d t k p (setState StateLost p)); [done|done|congruence|by apply variant_lost].
    + apply wp_bind, wp_mutate_record; [done|done|done|]. intros [e|] t' HI'; [by apply wp_ret|].
      apply wp_bind, wp_remove, wp_ret, Inv_remove_plain; [by eapply notPending_at|done].
Qed.

Lemma releaseAllLoop_wp first order m d t : Inv None m d t -> wp (releaseAllLoop cfg first order) keeps m d t.
Proof.
  revert first m d t. induction order as [|k ks IH]; intros first m d t HI; cbn [releaseAllLoop]; [by apply wp_ret|].
  apply wp_bind, wp_getPassports. destruct (m !! k) as [p|] eqn:Hm; [|by apply IH].
  apply wp_bind. eapply wp_mono; [by apply releaseAllOne_wp|]. intros e m' d' t' HI'. by apply IH.
Qed.

Lemma heartbeatInspector_wp hv p m d t (Q : result err (option Lock) * HBView -> mem -> store -> list event -> Prop) :
  Dur d t -> (forall r, Q r m d t) -> wp (heartbeatInspector cfg hv p) Q m d t.
Proof.
  intros Hd HQ. unfold heartbeatInspector. apply wp_bind, wp_ask; [done|]. intros [e|]; [by apply wp_ret|].
  apply wp_bind, wp_ask; [done|]. intros t0. cbv zeta.
  assert (forall hv', wp (let* r := ask (e_inspect (p_Path p)) in ret (r, hv')) Q m d t) as Hl.
  { intros hv'. apply wp_bind, wp_ask; [done|]. intros r. by apply wp_ret. }
  destruct e_heartbeatOwnership as [o|]; [|apply Hl]. wif; [apply Hl|]. apply wp_bind.
  assert (forall loaded, wp
    match loaded with
    | Err e => ret (Err e, Some loaded)
    | Ok view =>
        let* t := now in
        if IsZero (ov_ObservedAt view) || Before t (ov_ObservedAt view) || (Minute <=? Sub t (ov_ObservedAt view))%Z
        then ret (Err ENotFresh, Some loaded)
        else if negb (After (ov_ObservedAt view) (p_LastHeartbeatAt p)) || negb (After (ov_ObservedAt view) (p_IssuedAt p))
        then let* r := ask (e_inspect (p_Path p)) in ret (r, Some loaded)
        else ret (viewLock cfg view p, Some loaded)
    end Q m d t) as Hk.
  { intros [view|e]; [|by apply wp_ret]. apply wp_bind, wp_ask; [done|]. intros t1.
    wif; [by apply wp_ret|]. wif; [apply Hl|by apply wp_ret]. }
  destruct hv as [v|]; [by apply wp_ret, Hk|]. apply wp_ask; [done|exact Hk].
Qed.

Lemma heartbeatOwned_wp t0 k p m d t : Inv None m d t -> m !! k = Some p -> p_State p = StateActive ->
  wp (heartbeatOwned cfg t0 k p) keeps m d t.
Proof.
  intros HI Hm Hs. unfold heartbeatOwned.
  assert (p_State p <> StatePending) as Hnp by by rewrite Hs.
  wif; [|wif; [|wif; [by apply wp_ret|]]].
  - apply wp_bind, wp_mutate_record; [done|done|done|]. intros [e|] t' HI'; [by apply wp_ret|].
    apply wp_bind, wp_remove, wp_ret, Inv_remove_plain; [by eapply notPending_at|done].
  - apply wp_bind, wp_mutate_record; [done|done|done|]. intros [e|] t' HI'; [by apply wp_ret|].
    apply wp_bind, wp_put, wp_ret. eapply (Inv_variant m d t' k p (setCloseAfter 0%Z (setState StateExpired p))); [done|done|congruence|by apply variant_state].
  - cbv zeta. destruct e_intent as [b|] eqn:Hi.
    + apply wp_bind. eapply wp_mono; [apply beginPending_wp; [done|apply minTime_le| |done|by eapply clean_at|by eapply notPending_at]|].
      { intros HC. destruct (inv_good _ _ _ _ HI _ _ Hm) as (_ & _ & [_ Hw] & _). by destruct (Hw HC) as (? & ? & _). }
      intros r m' d' t' HI'. by apply wp_ret.
    + apply wp_bind, wp_mutate_record; [done|done|done|]. intros [lock|e] t' HI'; [|by apply wp_ret].
      wif; [by apply wp_ret|]. apply wp_bind, wp_put, wp_ret.
      eapply (Inv_variant m d t' k p); [done|done|done|]. split_and!; [done|done|done| |intros _; apply minTime_le].
      unfold wellFormed. cbn. intros ->. bool_to_prop. naive_solver.
Qed.

Lemma heartbeatOne_wp t0 hv k p m d t : Inv None m d t -> m !! k = Some p ->
  wp (heartbeatOne cfg t0 hv k p) keeps m d t.
Proof.
  intros HI Hm. unfold heartbeatOne.
  assert (forall b, e_receipt = Some b -> p_State p <> StatePending ->
    wp (let* e := releaseWithReceipt cfg p b in ret (e, hv)) keeps m d t) as Hrel.
  { intros b Hb Hs. apply wp_bind. eapply wp_mono; [by eapply release_at_wp|].
    intros e m' d' t' [[HI' _] _]. by apply wp_ret. }
  wif; bool_to_prop.
  { destruct e_receipt eqn:Hb; [apply Hrel; congruence|by apply wp_ret]. }
  wif.
  { pose proof (at_path _ _ _ _ _ HI Hm) as Hk. subst k. apply wp_bind. eapply wp_mono; [by apply resumePending_wp|].
    intros r m' d' t' HI'. by apply wp_ret. }
  wif; [by apply wp_ret|]. bool_to_prop. cbv zeta. set (over := _ || _).
  destruct (if over then e_receipt else None) as [b|] eqn:Hb; [apply Hrel; [by destruct over|done]|].
  apply wp_bind, heartbeatInspector_wp; [apply HI|]. intros [[info|e] hv']; [|by apply wp_ret]. wif.
  - apply wp_bind, wp_put, wp_ret. eapply (Inv_variant m d t k p (lose p)); [done|done|congruence|apply variant_lose].
  - apply wp_bind. eapply wp_mono; [by apply heartbeatOwned_wp|]. intros e m' d' t' HI'. by apply wp_ret.
Qed.

Lemma heartbeatLoop_wp t0 first hv order m d t : Inv None m d t ->
  wp (heartbeatLoop cfg t0 first hv order) keeps m d t.
Proof.
  revert first hv m d t. induction order as [|k ks IH]; intros first hv m d t HI; cbn [heartbeatLoop]; [by apply wp_ret|].
  apply wp_bind, wp_getPassports. destruct (m !! k) as [p|] eqn:Hm; [|by apply IH].
  apply wp_bind. eapply wp_mono; [by apply heartbeatOne_wp|]. intros e m' d' t' HI'. by apply IH.
Qed.

Lemma Heartbeat_wp order m d t : Inv None m d t -> wp (Heartbeat cfg order) keeps m d t.
Proof.
  intros HI. apply wp_bind, wp_ask; [apply HI|]. intros t0. apply wp_bind.
  eapply wp_mono; [by apply heartbeatLoop_wp|]. intros first m' d' t' HI'. by apply wp_saveRet.
Qed.

Lemma ReleaseAll_wp order m d t : Inv None m d t -> wp (ReleaseAll cfg order) keeps m d t.
Proof.
  intros HI. apply wp_bind. eapply wp_mono; [by apply releaseAllLoop_wp|].
  intros first m' d' t' HI'. by apply wp_saveRet.
Qed.

(** *** Authorize and the local methods *)
Lemma authorize_wp paths m d t : Inv None m d t -> wp (authorize cfg paths) keeps m d t.
Proof.
  intros HI. apply wp_bind, wp_ask; [apply HI|]. intros t0. generalize (cleanPaths paths). intros ks.
  induction ks as [|k ks IH]; cbn [authorizeLoop]; [by apply wp_ret|].
  apply wp_bind, wp_getPassports. destruct (m !! k) as [p|] eqn:Hm; [|by apply wp_ret].
  wif; [by apply wp_ret|]. wif; [by apply wp_ret|]. bool_to_prop.
  apply wp_bind, wp_ask; [apply HI|]. intros [info|e]; [|by apply wp_ret]. wif; [|done].
  apply wp_bind, wp_put, (wp_saveRet (fun _ => _)). eapply (Inv_variant m d t k p (lose p)); [done|done|congruence|apply variant_lose].
Qed.

Lemma saveIf_wp changed m d t : Inv None m d t -> wp (saveIf cfg changed) keeps m d t.
Proof. intros HI. unfold saveIf. wif; [by apply (wp_saveRet (fun _ => tt))|by apply wp_ret]. Qed.

Lemma ForgetRemoved_wp paths m d t : Inv None m d t -> wp (ForgetRemoved cfg paths) keeps m d t.
Proof.
  intros HI. apply wp_bind. generalize false, (cleanPaths paths). intros changed ks.
  revert changed m HI. induction ks as [|k ks IH]; intros changed m HI; cbn [forgetLoop]; [by apply wp_ret, saveIf_wp|].
  apply wp_bind, wp_getPassports. destruct (m !! k) as [p|] eqn:Hm; [|by apply IH].
  wif; [|by apply IH]. bool_to_prop. apply wp_bind, wp_remove, IH, Inv_remove_plain; [by eapply notPending_at|done].
Qed.

Lemma Touch_wp path m d t : Inv None m d t -> wp (Touch cfg path) keeps m d t.
Proof.
  intros HI. apply wp_bind, wp_getPassports. destruct (m !! Clean path) as [p|] eqn:Hm; [|by apply wp_ret].
  wif; [|by apply wp_ret]. bool_to_prop. apply wp_bind, wp_put, saveIf_wp.
  eapply (Inv_variant m d t _ p); [done|done|congruence|]. apply variant_close. congruence.
Qed.

Lemma MarkPublished_wp paths m d t : Inv None m d t -> wp (MarkPublished cfg paths) keeps m d t.
Proof.
  intros HI. apply wp_bind, wp_ask; [apply HI|]. intros t0. apply wp_bind.
  generalize false, (cleanPaths paths). intros changed ks.
  revert changed m HI. induction ks as [|k ks IH]; intros changed m HI; cbn [publishedLoop]; [by apply wp_ret, saveIf_wp|].
  apply wp_bind, wp_getPassports. destruct (m !! k) as [p|] eqn:Hm; [|by apply IH].
  wif; [|by apply IH]. bool_to_prop. apply wp_bind, wp_put, IH.
  eapply (Inv_variant m d t _ p); [done|done|congruence|]. apply variant_close. congruence.
Qed.

Lemma AcquireOwned_wp paths realm m d t : Inv None m d t -> wp (AcquireOwned cfg paths realm) keeps m d t.
Proof.
  intros HI. unfold AcquireOwned. destruct e_ownership as [o|]; [|by apply wp_ret]. wif; [by apply wp_ret|].
  apply wp_bind, wp_ask; [apply HI|]. intros [view|e]; [|by apply wp_ret].
  apply wp_bind, wp_bind, wp_getPassports, wp_ret. cbv zeta.
  generalize (fold_left (fun (m : mem) p => <[p_Path p := p]> m) (sortedPassports m) ∅). intros local.
  generalize (cleanPaths paths). intros ks. revert m d t HI.
  induction ks as [|k ks IH]; intros m d t HI; cbn [acquireOwnedLoop]; [by apply wp_ret|].
  wif; [by apply IH|]. destruct (Rel _ _); [|by apply wp_ret]. wif; [by apply wp_ret|]. cbv zeta.
  wif; [by apply wp_ret|]. wif; [by apply wp_ret|]. apply wp_bind.
  eapply wp_mono; [by apply Acquire_wp|]. intros [r|e] m' d' t' HI'; [by apply IH|by apply wp_ret].
Qed.

(** *** Open *)
Lemma checkEntry_good p : checkEntry cfg p = None -> (p_State p = StatePending <-> isPending p = true).
Proof.
  unfold checkEntry. destruct (_ && _) eqn:H1; [done|]. unfold isPending.
  destruct (p_Pending p) as [i|]; cbn [orb].
  - destruct e_intent; [|done]. destruct (negb (bool_decide (p_State p = StatePending)) || _) eqn:H2; [done|]. intros _. bool_to_prop. done.
  - destruct (bool_decide (p_State p = StatePending)) eqn:Hs; bool_to_prop; [by destruct e_intent|]. by intros _.
Qed.

Lemma loadList_good l m m' : (forall p, p ∈ l -> Clean (p_Path p) = p_Path p /\ bounded p) -> good m ->
  loadList cfg m l = Ok m' ->
  good m' /\ (forall k p, m' !! k = Some p <-> m !! k = Some p \/ (p ∈ l /\ p_Path p = k)).
Proof.
  revert m. induction l as [|p l IH]; intros m Hc Hg Hl; cbn [loadList] in Hl.
  - injection Hl as <-. split; [done|]. intros k p. split; [auto|]. intros [?|[H _]]; [done|]. by apply elem_of_nil in H.
  - destruct (checkEntry cfg p) eqn:He; [done|]. destruct (Hc p) as [Hcp Hbp]; [by left|]. rewrite Hcp in Hl.
    destruct (m !! p_Path p) eqn:Hm; [done|].
    apply IH in Hl as [Hg' Hl].
    + split; [done|]. intros k q. rewrite Hl, lookup_insert_Some, elem_of_cons. split.
      * intros [[[<- <-]|[? ?]]|[? ?]]; auto.
      * intros [Hq|[[->|Hq] <-]]; auto. left. right. split; [|done]. intros <-. congruence.
    + intros q Hq. apply Hc. by right.
    + apply good_insert; [done|]. split_and!; [done..|]. by apply checkEntry_good.
Qed.

(** A well-formed record passes the checks of [load], and a list of such records
    under different paths is read in whole. *)
Lemma checkEntry_wellFormed k p : Conforming -> goodAt k p -> checkEntry cfg p = None.
Proof.
  intros HC (<- & Hc & [_ Hw] & Hs). destruct (Hw HC) as (Hi & Hid & Hp). unfold checkEntry, isPending in *.
  destruct (p_Pending p) as [i|].
  - destruct Hp as (Ht & Hb & b & -> & Hv). assert (p_State p = StatePending) as -> by by apply Hs.
    rewrite Ht, Hb. cbn. exact Hv.
  - destruct Hp as [Ht Hr]. rewrite (bool_decide_eq_false_2 (p_State p = StatePending)) by (intros Heq; by apply Hs in Heq). cbn [orb].
    rewrite (bool_decide_eq_false_2 (p_PassportID p = "")), (bool_decide_eq_false_2 (p_FencingToken p = "")) by done.
    rewrite (bool_decide_eq_false_2 (p_Path p = "")) by (intros Heq; rewrite Heq in Hc; discriminate Hc). cbn [orb].
    destruct (bool_decide_reflect (p_State p = StateReleasing)) as [Heq|]; [|done]. destruct (Hr Heq) as [rc ->].
    by rewrite bool_decide_eq_true_2.
Qed.

Lemma loadList_ok l m : Conforming -> NoDup (map p_Path l) -> (forall p, p ∈ l -> goodAt (p_Path p) p /\ m !! p_Path p = None) ->
  exists m', loadList cfg m l = Ok m'.
Proof.
  intros HC. revert m. induction l as [|p l IH]; intros m Hnd Hl; cbn [loadList]; [eauto|].
  apply NoDup_cons in Hnd as [Hni Hnd]. destruct (Hl p) as [Hg Hm]; [by left|].
  rewrite (checkEntry_wellFormed _ _ HC Hg). destruct Hg as (_ & -> & _). rewrite Hm.
  apply IH; [done|]. intros q Hq. destruct (Hl q) as [? ?]; [by right|]. split; [done|].
  rewrite lookup_insert_ne; [done|]. intros Heq. apply Hni, list_elem_of_fmap. by exists q.
Qed.

(** Opening the store turns durable safety into the invariant. *)
Lemma Open_wp path m d t : Dur d t ->
  wp (OpenWith cfg path) (fun r m' d' t' => d' = d /\ Dur d t' /\ (r = None -> Inv None m' d t')) m d t.
Proof.
  intros Hd. unfold OpenWith. wif; [by apply wp_ret|]. wif; [by apply wp_ret|]. wif; [by apply wp_ret|].
  assert (forall m', good m' -> (forall k p, m' !! k = Some p <-> exists l, d = Some l /\ p ∈ l /\ p_Path p = k) ->
    Inv None m' d t) as Hinv.
  { intros m' Hg Hm'. assert (forall f k, memHas f m' k = storeHas f d k) as Heq.
    { intros f k. apply eq_true_iff_eq. rewrite memHas_true, storeHas_true. split.
      - intros (p & (l & H1 & H2 & H3)%Hm' & H4). by exists l, p.
      - intros (l & p & H1 & H2 & H3 & H4). exists p. split; [|done]. apply Hm'. by exists l. }
    split; [done|done|intros k; by rewrite Heq|]. intros k. rewrite Heq, orb_diag. cbn [creditAt].
    pose proof (dur_once _ _ Hd k). lia. }
  apply wp_bind. eapply wp_mono with (Q := fun r m' d' t' => d' = d /\ t' = t /\ match r with Ok m2 => Inv None m2 d t | Err _ => True end).
  - apply wp_bind, wp_getDisk. destruct d as [l|].
    + apply wp_bind, wp_ask; [done|]. intros [e|]; [by apply wp_ret|]. apply wp_ret. split_and!; [done|done|].
      destruct (loadList cfg ∅ l) as [m2|e] eqn:Hl; [|done].
      apply loadList_good in Hl as [Hg Hl]; [|intros p Hp; by destruct (dur_clean _ _ Hd l p eq_refl Hp) as (_ & ? & ? & _)|done].
      apply Hinv; [done|]. intros k p. rewrite Hl, lookup_empty. split.
      * intros [?|[? ?]]; [done|]. by exists l.
      * intros (? & [= <-] & ? & ?). by right.
    + apply wp_ret. split_and!; [done|done|]. apply Hinv; [done|]. intros k p. rewrite lookup_empty.
      split; [done|]. by intros (? & ? & _).
  - intros [m2|e] m' d' t' (-> & -> & HI); [|by apply wp_ret].
    apply wp_bind, wp_install, wp_bind, (wp_publish None); [done|]. intros t' HI'. apply wp_ret. split_and!; [done|apply HI'|done].
Qed.

End Methods.

End Wp.
