(* ===== verification/PassportProps.v ===== *)
(** * PassportProps: the properties of the passport manager

    [live] is every history of one store: the process starts with no store
    file, opens it, runs methods against an arbitrary world, dies at any call
    into that world, and starts again.  The theorems hold along all of them. *)
From S2P Require Import Prelude GoStrings Passport PassportProofs.
From Stdlib Require Import Ascii String.

Open Scope string_scope.
Open Scope go_scope.

Section Histories.
  Context {W : Type} `{E : !Env W}.
  Variable cfg : Config.
  Variable storePath : string.

(** The manager's public methods. *)
Inductive method :=
| DoAcquire (paths : list string) (realmID : string)
| DoAcquireOwned (paths : list string) (realmID : string)
| DoRelease (paths : list string)
| DoReleaseAll (order : list string)
| DoHeartbeat (order : list string)
| DoAuthorize (paths : list string)
| DoForgetRemoved (paths : list string)
| DoTouch (path : string)
| DoMarkPublished (paths : list string).

Definition call (o : method) : P unit :=
  match o with
  | DoAcquire paths realmID => do* Acquire cfg paths realmID; ret tt
  | DoAcquireOwned paths realmID => do* AcquireOwned cfg paths realmID; ret tt
  | DoRelease paths => do* Release cfg paths; ret tt
  | DoReleaseAll order => do* ReleaseAll cfg order; ret tt
  | DoHeartbeat order => do* Heartbeat cfg order; ret tt
  | DoAuthorize paths => do* authorize cfg paths; ret tt
  | DoForgetRemoved paths => ForgetRemoved cfg paths
  | DoTouch path => Touch cfg path
  | DoMarkPublished paths => MarkPublished cfg paths
  end.

(** The world moves on by itself between two calls. *)
Definition later (w : W) (s : st W) : st W := St (passports s) (disk s) w (trace s).

(** [live up s]: a history leads to [s], with the manager open when [up]. *)
Inductive live : bool -> st W -> Prop :=
| live_fresh w : live false (St ∅ None w [])
| live_open up s w s' : live up s -> OpenWith cfg storePath (later w s) = (Some None, s') -> live true s'
| live_open_err up s w e s' : live up s -> OpenWith cfg storePath (later w s) = (Some (Some e), s') -> live false s'
| live_open_dies up s w s' : live up s -> OpenWith cfg storePath (later w s) = (None, s') -> live false s'
| live_call s o w s' : live true s -> call o (later w s) = (Some tt, s') -> live true s'
| live_dies s o w s' : live true s -> call o (later w s) = (None, s') -> live false s'.

Lemma call_wp o m d t : Inv (cfg:=cfg) None m d t -> wp (cfg:=cfg) (call o) (keeps (cfg:=cfg)) m d t.
Proof.
  intros HI.
  assert (forall A (p : P A), wp (cfg:=cfg) p (keeps (cfg:=cfg)) m d t -> wp (cfg:=cfg) (do* p; ret tt) (keeps (cfg:=cfg)) m d t) as Hseq.
  { intros A p Hp. apply wp_bind. eapply wp_mono; [exact Hp|]. intros a m' d' t' HI'. by apply wp_ret. }
  destruct o; cbn [call]; try apply Hseq.
  - by apply Acquire_wp.
  - by apply AcquireOwned_wp.
  - by apply releaseLoop_wp.
  - by apply ReleaseAll_wp.
  - by apply Heartbeat_wp.
  - by apply authorize_wp.
  - by apply ForgetRemoved_wp.
  - by apply Touch_wp.
  - by apply MarkPublished_wp.
Qed.

(** The invariant of [PassportProofs] along every history. *)
Lemma live_inv up s : live up s ->
  Dur (cfg:=cfg) (disk s) (trace s) /\ (up = true -> Inv (cfg:=cfg) None (passports s) (disk s) (trace s)).
Proof.
  assert (forall s w, Dur (cfg:=cfg) (disk s) (trace s) -> match OpenWith cfg storePath (later w s) with
    | (Some r, s') => Dur (cfg:=cfg) (disk s') (trace s') /\ (r = None -> Inv (cfg:=cfg) None (passports s') (disk s') (trace s'))
    | (None, s') => Dur (cfg:=cfg) (disk s') (trace s') end) as Ho.
  { intros [m d w0 t] w Hd. pose proof (Open_wp storePath m d t Hd w) as H. unfold later.
    cbn [passports disk trace] in *. destruct (OpenWith _ _ _) as [[r|] s']; [|done].
    destruct H as (H1 & H2 & H3). rewrite H1. auto. }
  assert (forall o s w, Inv (cfg:=cfg) None (passports s) (disk s) (trace s) -> match call o (later w s) with
    | (Some _, s') => Inv (cfg:=cfg) None (passports s') (disk s') (trace s') | (None, s') => Dur (cfg:=cfg) (disk s') (trace s') end) as Hc.
  { intros o [m d w0 t] w HI. exact (call_wp o m d t HI w). }
  induction 1 as [w|up s w s' _ [IH _] H|up s w e s' _ [IH _] H|up s w s' _ [IH _] H|s o w s' _ [_ IH] H|s o w s' _ [_ IH] H].
  - split; [|done]. split; [done|done|done|constructor].
  - specialize (Ho s w IH). rewrite H in Ho. destruct Ho as [H1 H2]. auto.
  - specialize (Ho s w IH). rewrite H in Ho. by destruct Ho as [H1 _].
  - specialize (Ho s w IH). rewrite H in Ho. done.
  - specialize (Hc o s w (IH eq_refl)). rewrite H in Hc. split; [apply Hc|done].
  - specialize (Hc o s w (IH eq_refl)). by rewrite H in Hc.
Qed.

(** C1. Write-ahead: in every history, whatever the world answers and wherever
    the process dies, each preparation, acquisition, cancellation, settlement
    and token release that was sent to the repository was sent while the store
    file held the record that explains it, in the matching stage (prepare before
    PrepareLockIntent, locking before AcquireLockIntent, canceling before
    CancelLockIntent, settling or canceling before SettleLockIntent, releasing
    with that very token before ReleaseToken). *)
Theorem passport_write_ahead up s : live up s -> Forall journaled (trace s).
Proof. intros H. destruct (live_inv up s H) as [Hd _]. apply Hd. Qed.

(** C2. An acquisition is sent at most once: for every path, the number of
    acquire calls ever made is at most the number of intents minted for it, and
    strictly less while an unsent intent is still stored.  So no crash, restart,
    retry or heartbeat repeats an acquire whose outcome is unknown. *)
Theorem passport_acquire_at_most_once up s k : live up s ->
  acquires k (trace s) + (if storeHas isPrepare (disk s) k then 1 else 0) <= mints k (trace s).
Proof. intros H. destruct (live_inv up s H) as [Hd _]. apply Hd. Qed.

(** C30. Memory and store agree about unresolved intents: while the manager is
    open every record sits under its own clean path and is in the pending state
    exactly when it carries an intent, and a path with an intent in the store
    file has one in memory, so no intent is forgotten before its removal has
    been saved. *)
Theorem passport_memory_covers_store s : live true s ->
  (forall k p, passports s !! k = Some p ->
     p_Path p = k /\ Clean k = k /\ (p_State p = StatePending <-> isPending p = true)) /\
  (forall k, storeHas isPending (disk s) k = true -> memHas isPending (passports s) k = true).
Proof.
  intros H. destruct (live_inv true s H) as [_ HI]. specialize (HI eq_refl). split; [|apply HI].
  intros k p Hp. destruct (inv_good _ _ _ _ HI k p Hp) as (? & ? & _ & ?). done.
Qed.

(** C31. The hard session limit binds: if the durable backend keeps the two
    deadlines it is given, no record in memory or in the store file ever expires
    after its hard deadline. *)
Theorem passport_hard_deadline up s : KeepsDeadlines (W:=W) -> live up s ->
  (forall k p, up = true -> passports s !! k = Some p -> (p_ExpiresAt p <= p_HardExpiresAt p)%Z) /\
  (forall l p, disk s = Some l -> p ∈ l -> (p_ExpiresAt p <= p_HardExpiresAt p)%Z).
Proof.
  intros HK H. destruct (live_inv up s H) as [Hd HI]. split.
  - intros k p Hup Hp. by apply (proj1 (proj2 (proj2 (inv_good _ _ _ _ (HI Hup) k p Hp)))).
  - intros l p Hl Hp. by apply (proj1 (proj2 (proj2 (dur_clean _ _ Hd l p Hl Hp)))).
Qed.

(** A release through the receipt backend ends in one of two ways, for
    every record the manager holds and every answer of the world: success, with
    the path gone from memory and from the store file; or an error, with the
    record kept under the same token, releasing or lost. *)
Theorem passport_release_outcome s w k p b r s' : e_receipt = Some b -> live true s ->
  passports s !! k = Some p -> p_State p <> StatePending ->
  releaseWithReceipt cfg p b (later w s) = (Some r, s') ->
  match r with
  | None => passports s' !! k = None /\ disk s' = Some (sortedPassports (passports s'))
  | Some _ => exists q, passports s' !! k = Some q /\ p_FencingToken q = p_FencingToken p /\
                        (p_State q = StateReleasing \/ p_State q = StateLost)
  end.
Proof.
  intros Hb H Hp Hs Hr. destruct (live_inv true s H) as [_ HI]. specialize (HI eq_refl).
  pose proof (at_path _ _ _ _ _ HI Hp) as <-.
  destruct s as [m d w0 t]. pose proof (release_at_wp p b _ m d t Hb HI Hp Hs w) as Hw.
  unfold later in Hr. cbn [passports disk trace] in *. rewrite Hr in Hw. by destruct Hw as [_ Hw], r.
Qed.

End Histories.

(** ** Running a method backwards *)
Section Inversion.
  Context {W : Type} `{E : !Env W}.

Lemma bind_inv {A B} (p : P (W:=W) A) (k : A -> P B) s b s' :
  bind p k s = (Some b, s') -> exists a s1, p s = (Some a, s1) /\ k a s1 = (Some b, s').
Proof. unfold bind, mbind_st, mret_st. destruct (p s) as [[a|] s1]; [eauto|done]. Qed.

Lemma ask_inv {A} (f : W -> A * W) s a s' :
  ask f s = (Some a, s') -> exists w w', f w = (a, w') /\ s' = St (passports s) (disk s) w' (trace s).
Proof.
  unfold ask. destruct (e_dies (world s)) as [[] w]; [done|]. destruct (f w) as [a' w'] eqn:Hf.
  intros [= <- <-]. by exists w, w'.
Qed.

Lemma ret_inv {A} (a b : A) (s s' : st W) : ret a s = (Some b, s') -> a = b /\ s = s'.
Proof. unfold ret, mret_st. by intros [= -> ->]. Qed.

Lemma getPassports_inv (s : st W) m s' : getPassports s = (Some m, s') -> m = passports s /\ s' = s.
Proof. unfold getPassports. by intros [= <- <-]. Qed.

(** The world only grows older: memory, store and trace are those of [s]. *)
Definition sameButWorld (s s' : st W) : Prop :=
  passports s' = passports s /\ disk s' = disk s /\ trace s' = trace s.

Lemma ask_same {A} (f : W -> A * W) s a s' : ask f s = (Some a, s') ->
  (exists w w', f w = (a, w')) /\ sameButWorld s s'.
Proof. intros (w & w' & Hf & ->)%ask_inv. split; [eauto|]. done. Qed.

Lemma same_trans s1 s2 s3 : sameButWorld s1 s2 -> sameButWorld s2 s3 -> sameButWorld s1 s3.
Proof. intros (A1 & A2 & A3) (B1 & B2 & B3). unfold sameButWorld. by rewrite B1, B2, B3. Qed.

End Inversion.

Ltac run_inv :=
  repeat match goal with
  | H : bind _ _ _ = (Some _, _) |- _ => apply bind_inv in H as (? & ? & ? & H)
  | H : ret _ _ = (Some _, _) |- _ => apply ret_inv in H as [? ?]; try subst
  | H : getPassports _ = (Some _, _) |- _ => apply getPassports_inv in H as [? ?]; try subst
  end.

Section Decisions.
  Context {W : Type} `{E : !Env W}.
  Variable cfg : Config.

(** What a successful authorization has checked for one path. *)
Definition authorized (m : gmap string Passport) (t : Time) (k : string) : Prop :=
  exists p lock meta w w', m !! k = Some p /\ p_State p = StateActive /\ (t < p_ExpiresAt p)%Z /\
    e_inspect k w = (Ok (Some lock), w') /\ l_Token lock = p_FencingToken p /\
    ParseComment (l_Comment lock) = Some meta /\
    md_PassportID meta = p_PassportID p /\ md_InstanceUID meta = p_InstanceUID p.

Lemma owns_spec p info : owns p info = true ->
  exists lock meta, info = Some lock /\ l_Token lock = p_FencingToken p /\
    ParseComment (l_Comment lock) = Some meta /\
    md_PassportID meta = p_PassportID p /\ md_InstanceUID meta = p_InstanceUID p.
Proof.
  unfold owns. destruct info as [l|]; [|done]. destruct (bool_decide (l_Token l = _)) eqn:Ht; [|done]. cbn [negb].
  destruct (ParseComment (l_Comment l)) as [meta|] eqn:Hp; [|done]. intros ?. bool_to_prop. eauto 10.
Qed.

Lemma authorizeLoop_sound t ks s s' : authorizeLoop cfg t ks s = (Some None, s') ->
  sameButWorld s s' /\ forall k, k ∈ ks -> authorized (passports s) t k.
Proof.
  revert s. induction ks as [|k ks IH]; intros s H; cbn [authorizeLoop] in H.
  - run_inv. split; [done|]. intros k Hk. by apply elem_of_nil in Hk.
  - run_inv. destruct (passports _ !! k) as [p|] eqn:Hm; [|by run_inv].
    destruct (bool_decide (p_State p = StatePending)); [by run_inv|].
    destruct (negb (bool_decide (p_State p = StateActive)) || _) eqn:Ha; [by run_inv|]. unfold Before in Ha. bool_to_prop.
    apply bind_inv in H as (r & s1 & Hi & H). apply ask_same in Hi as [(w & w' & Hw) Hs].
    destruct r as [info|e]; [|by run_inv].
    destruct (owns p info) eqn:Ho; cbn [negb] in H; [|by run_inv].
    apply IH in H as [Hs' Hks]. split; [by eapply same_trans|].
    intros k' [->|Hk']%elem_of_cons; [|destruct Hs as (<- & _); by apply Hks].
    apply owns_spec in Ho as (lock & meta & -> & ? & ? & ? & ?). by exists p, lock, meta, w, w'.
Qed.

(** C32. Authorization is sound: when [Authorize] (or [BeginPublish]) accepts a
    list of paths, then for each of them, at the one instant it read the clock,
    the local passport was active and unexpired and the repository itself
    answered with a lock that carries this passport's fencing token, passport
    identity and instance; and nothing in memory, store or repository was
    changed by the check. *)
Theorem authorize_sound paths s s' : authorize cfg paths s = (Some None, s') ->
  sameButWorld s s' /\
  exists t w w', e_now w = (t, w') /\ forall k, k ∈ cleanPaths paths -> authorized (passports s) t k.
Proof.
  intros (t & s1 & Hn & H)%bind_inv. apply ask_same in Hn as [(w & w' & Hw) Hs].
  apply authorizeLoop_sound in H as [Hs' Hk]. split; [by eapply same_trans|].
  exists t, w, w'. split; [done|]. intros k Hin. destruct Hs as (<- & _). by apply Hk.
Qed.

(** The authority to replace a lock another passport may hold. *)
Definition mayReplace (t : Time) (path realmID : string) (info : Lock) (meta : Metadata) : Prop :=
  match e_ownership with
  | Some ownership =>
      realmID <> "" /\ exists view rel w w', ownership w = (Ok view, w') /\
        Rel (c_WorkingCopy cfg) path = Some rel /\ ov_Owners view !! rel = Some realmID /\
        exists h, ov_Holds view !! rel = Some h /\ oh_RealmID h = realmID /\ oh_Token h = l_Token info
  | None => (realmID <> "" /\ md_RealmID meta = realmID) \/ (md_ExpiresAt meta <= t)%Z
  end.

Lemma default_nonempty m k v : v <> "" -> lookupOr "" m k = v -> m !! k = Some v.
Proof. unfold lookupOr. destruct (m !! k); cbn; congruence. Qed.

Lemma sameRealmOf_sound path realm info meta s s' :
  sameRealmOf cfg path realm info meta s = (Some (Ok true), s') -> forall t, mayReplace t path realm info meta.
Proof.
  unfold sameRealmOf, mayReplace. intros H t. destruct e_ownership as [o|].
  - destruct (bool_decide (realm = "")) eqn:Hr; [by run_inv|]. bool_to_prop. split; [done|].
    apply bind_inv in H as (v & s1 & Hv & H). apply ask_same in Hv as [(w & w' & Hw) _].
    destruct v as [view|e]; [|by run_inv]. destruct (Rel (c_WorkingCopy cfg) path) as [rel|] eqn:Hrel; [|by run_inv].
    apply ret_inv in H as [[= H] _]. bool_to_prop. exists view, rel, w, w'. split_and!; [done|done|by apply default_nonempty|].
    destruct (ov_Holds view !! rel) as [h|]; cbn in *; [by exists h|congruence].
  - apply ret_inv in H as [[= H] _]. bool_to_prop. by left.
Qed.

(** A lock is replaced only with authority.  When the judgement of
    [Acquire] asks for a lock, either the repository reported no lock at all, or
    it reported a FileES lock and: in production, a nonempty requesting realm
    owns the path in the broker's view and the view's hold on the path is this
    very token held by the same realm; without an ownership source, the lock's
    realm is the requesting one or its passport had expired. *)
Theorem lock_replacement_needs_authority t path realmID info force s s' :
  judgeLock cfg t path realmID info s = (Some (DLock force), s') ->
  match info with
  | None => force = false
  | Some lock => force = true /\ exists meta, ParseComment (l_Comment lock) = Some meta /\ mayReplace t path realmID lock meta
  end.
Proof.
  unfold judgeLock. destruct info as [lock|]; [|by intros [[= <-] _]%ret_inv].
  destruct (ParseComment (l_Comment lock)) as [meta|] eqn:Hp; [|by intros [[=] _]%ret_inv].
  intros H. run_inv. destruct (match _ with Some p => _ | None => None end); [by run_inv|].
  apply bind_inv in H as (same & s1 & Hs & H). apply ret_inv in H as [H _]. unfold refuseUnless in H.
  destruct same as [same|e]; [|done]. destruct (negb same && _) eqn:Hb; [done|]. injection H as <-.
  split; [done|]. exists meta. split; [done|]. destruct same; [by eapply sameRealmOf_sound|].
  cbn [negb andb] in Hb. unfold mayReplace. destruct e_ownership; [done|]. right. unfold Before in Hb. bool_to_prop. done.
Qed.

(** Saving and loading. *)
Lemma saveLocked_inv s s' : saveLocked cfg s = (Some None, s') -> disk s' = Some (sortedPassports (passports s)).
Proof.
  assert (forall ops s r s', fsSteps ops s = (Some r, s') -> sameButWorld s s') as Hfs.
  { induction ops as [|o ops IH]; intros s0 r s0' H; cbn [fsSteps] in H; [by run_inv|].
    apply bind_inv in H as (e & s1 & Ha & H). apply ask_same in Ha as [_ Ha].
    destruct e; [run_inv; done|]. eapply same_trans; [exact Ha|by eapply IH]. }
  intros (g & s1 & Hg & H)%bind_inv. assert (sameButWorld s s1) as (Hp & _ & _).
  { unfold saveGuard in Hg. destruct (bool_decide _); [by eapply Hfs|].
    apply bind_inv in Hg as (e & s2 & Ha & Hg). apply ask_same in Ha as [_ Ha].
    destruct e; [run_inv; done|]. eapply same_trans; [exact Ha|by eapply Hfs]. }
  destruct g; [by run_inv|]. apply bind_inv in H as (m & s1' & Hm & H). apply getPassports_inv in Hm as [-> ->].
  apply bind_inv in H as (e & s2 & Hw%Hfs & H). destruct e; [by run_inv|].
  apply bind_inv in H as ([] & s3 & Hr & H). injection Hr as <-. apply ask_same in H as [_ (_ & Hd & _)].
  rewrite Hd. cbn. by rewrite Hp.
Qed.

End Decisions.

Section Restart.
  Context {W : Type} `{E : !Env W}.
  Variable cfg : Config.
  Variable storePath : string.

(** The records a store file holds, by path. *)
Definition storeHolds (d : store) (k : string) (p : Passport) : Prop := exists l, d = Some l /\ p ∈ l /\ p_Path p = k.

(** C33. A restart recovers everything.  With a durable backend that keeps the
    identity it is given and accepts its own intents, in every history, wherever
    the process died, the store file the manager left is never refused: opening
    it fails only for the configuration, before the file is looked at, or because
    the file cannot be read, and otherwise memory holds exactly the records of the
    file, each under its own path.  And a save that succeeds while the manager is
    open has put exactly the records of the memory into the file. *)
Theorem passport_restart_recovers up s : Conforming -> live cfg storePath up s ->
  (forall w r s', OpenWith cfg storePath (later w s) = (Some r, s') ->
     match r with
     | None => forall k p, passports s' !! k = Some p <-> storeHolds (disk s) k p
     | Some e => In e [EOpenArgs; EHeartbeatTTL; EMaxSession] \/ exists w1, fst (e_readStore w1) = Some e
     end) /\
  (forall w s', up = true -> saveLocked cfg (later w s) = (Some None, s') ->
     forall k p, passports s !! k = Some p <-> storeHolds (disk s') k p).
Proof.
  intros HC H. destruct (live_inv _ _ _ _ H) as [Hd HI]. split.
  - intros w r s' Ho. unfold OpenWith in Ho.
    destruct (_ || _); [apply ret_inv in Ho as [<- _]; left; by left|].
    destruct (_ <=? _)%Z; [apply ret_inv in Ho as [<- _]; left; right; by left|].
    destruct (_ <? _)%Z; [apply ret_inv in Ho as [<- _]; left; do 2 right; by left|].
    apply bind_inv in Ho as (res & s1 & Hl & Ho). unfold load in Hl.
    apply bind_inv in Hl as (d & s0 & [= <- <-] & Hl). cbn [disk later] in Hl.
    assert (forall m s2, (do* install m; do* publishPendingLocked cfg; ret None) s2 = (Some r, s') -> r = None /\ passports s' = m) as Hend.
    { intros m s2 (u & s3 & [= <- <-] & (u2 & s4 & Hp & (<- & <-)%ret_inv)%bind_inv)%bind_inv. split; [done|].
      unfold publishPendingLocked in Hp. destruct (c_OnPending cfg); [|by apply ret_inv in Hp as [_ <-]].
      apply bind_inv in Hp as (m2 & s5 & [-> ->]%getPassports_inv & Hp). by injection Hp as <- <-. }
    destruct (disk s) as [l|] eqn:Hdisk.
    + apply bind_inv in Hl as (e & s2 & Ha & Hl). apply ask_inv in Ha as (w1 & w2 & Hread & _).
      destruct e as [e|]; apply ret_inv in Hl as [<- _].
      { apply ret_inv in Ho as [<- _]. right. exists w1. by rewrite Hread. }
      destruct (loadList_ok (cfg:=cfg) l ∅ HC) as [m Hm]; [by apply (dur_paths _ _ Hd)|intros q Hq; split; [by apply (dur_clean _ _ Hd l)|done]|].
      rewrite Hm in Ho. apply Hend in Ho as [-> ->]. intros k p.
      apply loadList_good in Hm as [_ Hm]; [| |done].
      * rewrite Hm, lookup_empty. split; [intros [?|[? ?]]; [done|by exists l]|]. intros (? & [= <-] & ? & ?). by right.
      * intros q Hq. by destruct (dur_clean _ _ Hd l q eq_refl Hq) as (_ & ? & ? & _).
    + apply ret_inv in Hl as [<- _]. apply Hend in Ho as [-> ->]. intros k p. rewrite lookup_empty.
      split; [done|]. by intros (? & ? & _).
  - intros w s' -> Hsave. pose proof (inv_good _ _ _ _ (HI eq_refl)) as Hg. apply saveLocked_inv in Hsave. cbn [passports later] in Hsave.
    intros k p. rewrite Hsave. split.
    + intros Hk. eexists. split; [done|]. split; [apply elem_sorted; by exists k|]. by apply (Hg k p Hk).
    + intros (? & [= <-] & [k' Hk']%elem_sorted & <-). by destruct (Hg k' p Hk') as [-> _].
Qed.

End Restart.

(** ** The path list every method works on *)
Lemma cleanLoop_spec seen paths : NoDup (cleanLoop seen paths) /\
  forall k, k ∈ cleanLoop seen paths <-> (k ∉ seen /\ k <> "." /\ exists p, p ∈ paths /\ k = Clean (TrimSpace p)).
Proof.
  revert seen. induction paths as [|p ps IH]; intros seen; cbn [cleanLoop].
  { split; [constructor|]. intros k. split; [by intros ?%elem_of_nil|]. by intros (_ & _ & p & ?%elem_of_nil & _). }
  destruct (bool_decide (Clean (TrimSpace p) = ".") || _) eqn:Hb.
  - destruct (IH seen) as [Hn Hk]. split; [done|]. intros k. rewrite Hk. split.
    + intros (? & ? & q & ? & ->). split_and!; [done..|]. exists q. split; [by right|done].
    + intros (? & ? & q & [->|Hq]%elem_of_cons & ->); [|eauto 6].
      apply orb_true_iff in Hb as [Hb|Hb]; bool_to_prop; done.
  - bool_to_prop. destruct (IH ({[Clean (TrimSpace p)]} ∪ seen)) as [Hn Hk]. split.
    + constructor; [|done]. rewrite Hk. set_solver.
    + intros k. rewrite elem_of_cons, Hk. split.
      * intros [->|(? & ? & q & ? & ->)]; (split_and!; [set_solver|done|]); [exists p; split; [by left|done]|].
        exists q. split; [by right|done].
      * intros (? & ? & q & [->|Hq]%elem_of_cons & ->); [by left|].
        destruct (decide (Clean (TrimSpace q) = Clean (TrimSpace p))) as [->|Hne]; [by left|].
        right. split_and!; [set_solver|done|eauto].
Qed.

(** Every method works on a canonical list of paths: [cleanPaths] returns
    the cleaned arguments in byte order, without duplicates, without the working
    directory itself, each already clean, and none is lost - so a batch locks
    its paths in one global order whatever the caller's order and spelling. *)
Theorem cleanPaths_canonical paths :
  StronglySorted String.le (cleanPaths paths) /\ NoDup (cleanPaths paths) /\
  (forall k, k ∈ cleanPaths paths <-> k <> "." /\ exists p, p ∈ paths /\ k = Clean (TrimSpace p)) /\
  Forall (fun k => Clean k = k) (cleanPaths paths).
Proof.
  destruct (cleanLoop_spec ∅ paths) as [Hn Hk]. split_and!.
  - apply (StronglySorted_merge_sort strLe).
  - unfold cleanPaths. by rewrite merge_sort_Permutation.
  - intros k. unfold cleanPaths. rewrite merge_sort_Permutation, Hk. set_solver.
  - apply cleanPaths_clean.
Qed.

(** ** A concrete world: one working copy, a durable backend that answers *)
Module Demo.

(** The repository's lock on the one path, set by the acquire call. *)
Definition World := option Lock.
Definition t0 : Time := (5 * Hour)%Z.

Definition codec (s : string) : option Metadata :=
  if bool_decide (s = "") then None else Some (Meta "" s "inst" "" "realm" t0 (t0 + 15 * Minute) (t0 + 24 * Hour))%Z.

#[export] Instance env : Env World := {|
  e_now := fun w => (t0, w);
  e_wallNow := fun w => (t0, w);
  e_ctxErr := fun w => (None, w);
  e_newUUID := fun w => ("pass-1", w);
  e_inspect := fun _ w => (Ok w, w);
  e_lock := fun _ c _ w => (Ok (Some (MkLock "tok" "me" c)), Some (MkLock "tok" "me" c));
  e_unlock := fun _ w => (None, None);
  e_fs := fun _ w => (None, w);
  e_readStore := fun w => (None, w);
  e_dies := fun w => (false, w);
  e_receipt := Some (fun _ tok w => (Ok (Some (Receipt tok "released")), None));
  e_intent := Some {|
    ib_new := fun path meta mode _ w => (Ok (Intent None SPrepare "repo" "client" path mode meta None), w);
    ib_validate := fun _ _ => None;
    ib_prepare := fun _ _ w => (None, w);
    ib_cancel := fun _ _ w => (None, w);
    ib_acquire := fun _ i w => (None, Some (MkLock "tok" "me" (CommentPrefix ++ md_PassportID (li_Metadata i))));
    ib_acquireReceipt := None;
    ib_confirm := fun _ _ w => (Ok w, w);
    ib_reconcile := fun _ _ w => (Ok (w, false), w);
    ib_settle := None |};
  e_ownership := None;
  e_heartbeatOwnership := None;
  e_restoreWritable := fun _ w => (None, w);
  e_marshalMeta := md_PassportID;
  e_unmarshalMeta := codec;
  e_isAborted := fun _ _ => false;
  e_formatTime := fun _ => "t"
|}.

Definition cfg : Config := withDefaults (Cfg 0%Z 0%Z 0%Z 0%Z "/wc" true true true "inst").
Definition opened : st World := snd (OpenWith cfg "/store" (St ∅ None None [])).
Definition held : st World := snd (call cfg (DoAcquire ["/wc/a"] "realm") (later None opened)).

Lemma pair_snd {A B} (x : A * B) a : fst x = a -> x = (a, snd x).
Proof. destruct x. by intros [= ->]. Qed.

Lemma opened_live : live cfg "/store" true opened.
Proof. eapply (live_open _ _ false (St ∅ None None []) None); [constructor|]. apply pair_snd. vm_compute. reflexivity. Qed.

Lemma held_live : live cfg "/store" true held.
Proof. eapply live_call; [apply opened_live|]. apply pair_snd. vm_compute. reflexivity. Qed.

Definition passport : Passport :=
  Pass "/wc/a" "pass-1" "inst" "realm" "tok" t0 t0 (t0 + 15 * Minute)%Z (t0 + 24 * Hour)%Z 0%Z StateActive None.

Lemma held_lookup : passports held !! "/wc/a" = Some passport.
Proof. vm_compute. reflexivity. Qed.

(** The run really sent one preparation and one acquisition. *)
Lemma passport_write_ahead_witness : acquires "/wc/a" (trace held) = 1 /\ Forall journaled (trace held).
Proof. split; [vm_compute; reflexivity|]. apply (passport_write_ahead cfg "/store" true held). apply held_live. Defined.

Lemma passport_acquire_at_most_once_witness : acquires "/wc/a" (trace held) = 1 /\
  acquires "/wc/a" (trace held) + (if storeHas isPrepare (disk held) "/wc/a" then 1 else 0) <= mints "/wc/a" (trace held).
Proof.
  split; [vm_compute; reflexivity|].
  apply (passport_acquire_at_most_once cfg "/store" true held "/wc/a"). apply held_live.
Defined.

Lemma passport_memory_covers_store_witness : passports held !! "/wc/a" = Some passport /\ Clean "/wc/a" = "/wc/a".
Proof.
  split; [apply held_lookup|].
  destruct (passport_memory_covers_store cfg "/store" held held_live) as [H _].
  destruct (H "/wc/a" passport held_lookup) as (_ & Hc & _). exact Hc.
Defined.

Lemma env_keeps : KeepsDeadlines (W:=World).
Proof. intros b path meta mode t w i w' [= <-] [= <- _]. by split. Qed.

Lemma passport_hard_deadline_witness : (p_ExpiresAt passport <= p_HardExpiresAt passport)%Z.
Proof.
  destruct (passport_hard_deadline cfg "/store" true held env_keeps held_live) as [H _].
  exact (H "/wc/a" passport eq_refl held_lookup).
Defined.

Definition receipt : ReceiptBackend World := fun _ tok w => (Ok (Some (Receipt tok "released")), None).
Definition after : st World := snd (releaseWithReceipt cfg passport receipt (later None held)).

Lemma passport_release_outcome_witness : passports after !! "/wc/a" = None.
Proof.
  apply (passport_release_outcome (E:=env) cfg "/store" held None "/wc/a" passport receipt None after eq_refl held_live held_lookup).
  - discriminate.
  - refine (pair_snd (releaseWithReceipt cfg passport receipt (later None held)) (Some None) _).
    vm_compute. reflexivity.
Defined.

Lemma authorize_sound_witness : exists t, authorized (W:=World) (passports held) t "/wc/a".
Proof.
  destruct (authorize_sound cfg ["/wc/a"] held (snd (authorize cfg ["/wc/a"] held))) as (_ & t & _ & _ & _ & H).
  - apply (pair_snd (authorize cfg ["/wc/a"] held)). vm_compute. reflexivity.
  - exists t. apply H. assert (cleanPaths ["/wc/a"] = ["/wc/a"]) as -> by (vm_compute; reflexivity). by left.
Defined.

Definition oldLock : Lock := MkLock "tok" "me" (CommentPrefix ++ "pass-0").

Lemma lock_replacement_needs_authority_witness : exists meta, ParseComment (l_Comment oldLock) = Some meta /\
  mayReplace (W:=World) cfg (t0 + 48 * Hour)%Z "/wc/a" "other" oldLock meta.
Proof.
  destruct (lock_replacement_needs_authority cfg (t0 + 48 * Hour)%Z "/wc/a" "other" (Some oldLock) true opened
              (snd (judgeLock cfg (t0 + 48 * Hour)%Z "/wc/a" "other" (Some oldLock) opened))) as [_ H].
  - apply pair_snd. vm_compute. reflexivity.
  - exact H.
Defined.

Lemma env_conforming : Conforming (W:=World).
Proof.
  split.
  - discriminate.
  - intros b path meta mode t w i w' [= <-] [= <- _]. done.
  - by intros b path i stage [= <-].
Qed.

(** After the crash of a process that held one passport, the next one has it. *)
Lemma passport_restart_recovers_witness :
  let reopened := snd (OpenWith cfg "/store" (later None held)) in
  passports reopened !! "/wc/a" = Some passport.
Proof.
  destruct (passport_restart_recovers cfg "/store" true held env_conforming held_live) as [H _].
  refine (proj2 (H None None (snd (OpenWith cfg "/store" (later None held))) _ "/wc/a" passport) _).
  - apply pair_snd. vm_compute. reflexivity.
  - exists [passport]. split; [vm_compute; reflexivity|]. split; [by left|reflexivity].
Defined.

End Demo.
