(* ===== verification/PathAccess.v ===== *)
(** * PathAccess: which files the manager makes writable

    Models [AutoUnlockOwned] of src/pkg/passport/manager.go and
    [reconcilePathAccess] of ownership.go: the walk over the working copy that
    grants or removes the local write bit of needs-lock files.  The directory
    tree [filepath.WalkDir] finds is a value; the list of needs-lock paths and
    the chmod call are the class [AccessEnv]. *)
From S2P Require Import Prelude GoStrings Passport.
From Stdlib Require Import Ascii String.

Open Scope string_scope.
Open Scope go_scope.

Record finfo := FInfo { fi_regular : bool; fi_perm : Z }.

(** What [WalkDir] meets, in its order; a directory may fail to be read. *)
Inductive node :=
| NFile (name : string) (info : result err finfo)
| NDir (name : string) (kids : list node) (readErr : option err).

Definition nodeName (n : node) : string := match n with NFile name _ => name | NDir name _ _ => name end.

(** Induction over trees, through the list of children. *)
Lemma node_rect_list (Q : node -> Prop) :
  (forall name info, Q (NFile name info)) ->
  (forall name kids readErr, Forall Q kids -> Q (NDir name kids readErr)) -> forall n, Q n.
Proof.
  intros Hf Hd. fix IH 1. intros [name info|name kids readErr]; [apply Hf|apply Hd].
  induction kids as [|k kids IHk]; constructor; [apply IH|exact IHk].
Qed.

Class AccessEnv (W : Type) := {
  a_needsLock : option (string -> W -> result err (gset string) * W);
  a_chmod : string -> Z -> W -> option err * W
}.

Section Access.
  Context {W : Type} `{!Env W} `{!AccessEnv W}.

Definition chmod (path : string) (mode : Z) : P (W:=W) (option err) :=
  do* emit (EvChmod path mode); ask (a_chmod path mode).

(** [filepath.WalkDir]: the callback judges files and may update a captured
    variable of type [A]; for a directory it polls the context and skips
    Subversion's and FileES's own. *)
Section Walk.
  Context {A : Type}.
  Variable visit : A -> string -> result err finfo -> P (W:=W) (A * option err).

Fixpoint walkNode (a : A) (path : string) (n : node) : P (W:=W) (A * option err) :=
  let* c := ctxErr in
  match c with
  | Some e => ret (a, Some e)
  | None =>
      match n with
      | NFile _ info => visit a path info
      | NDir name kids readErr =>
          if bool_decide (name = ".svn") || bool_decide (name = ".filees") then ret (a, None)
          else match readErr with
               | Some e => ret (a, Some e)
               | None =>
                   (fix each (a : A) (ks : list node) : P (A * option err) :=
                      match ks with
                      | [] => ret (a, None)
                      | k :: rest =>
                          let* r := walkNode a (pathJoin path (nodeName k)) k in
                          match r with
                          | (a, Some e) => ret (a, Some e)
                          | (a, None) => each a rest
                          end
                      end) a kids
               end
      end
  end.

(** The root may fail to be found. *)
Definition walk (a : A) (path : string) (root : result err node) : P (W:=W) (A * option err) :=
  match root with Err e => ret (a, Some e) | Ok n => walkNode a path n end.

End Walk.

(** ** reconcilePathAccess *)

Definition renewing (pass : option Passport) : bool :=
  match pass with
  | Some p => bool_decide (p_State p = StatePending)
              && match p_Pending p with Some i => bool_decide (li_Mode i = ModeRenew) | None => false end
  | None => false
  end.

Definition isActive (pass : option Passport) : bool :=
  match pass with Some p => bool_decide (p_State p = StateActive) | None => false end.

(** A confirmed passport keeps its file writable unless the observation shows
    another realm's hold. *)
Definition passportAccess (view : OwnershipView) (observed : bool) (realmID rel : string) (t : Time)
    (pass : option Passport) : bool :=
  match pass with
  | Some p =>
      let foreign := observed && match ov_Holds view !! rel with
                                 | Some h => negb (bool_decide (oh_Token h = p_FencingToken p))
                                             && negb (bool_decide (oh_RealmID h = p_RealmID p))
                                             && negb (bool_decide (oh_RealmID h = realmID))
                                 | None => false
                                 end in
      isActive pass && Before t (p_ExpiresAt p) && negb foreign
  | None => false
  end.

(** The observed owner may write unless somebody else holds the path. *)
Definition ownerAccess (view : OwnershipView) (observed : bool) (realmID rel : string) (pass : option Passport) : bool :=
  observed
  && match pass with
     | Some p => negb (bool_decide (p_State p = StatePending)) && negb (bool_decide (p_State p = StateReleasing))
     | None => true
     end
  && negb (bool_decide (realmID = "")) && bool_decide (default "" (ov_Owners view !! rel) = realmID)
  && match ov_Holds view !! rel with Some h => bool_decide (oh_RealmID h = realmID) | None => true end.

(** 0222 and 0200. *)
Definition writeBits : Z := 146%Z.
Definition ownerWrite : Z := 128%Z.

Definition accessMode (rw : bool) (perm : Z) : Z := if rw then Z.lor perm ownerWrite else Z.ldiff perm writeBits.

Definition reconcileVisit (wc realmID : string) (candidates : gset string) (view : OwnershipView) (observed : bool)
    (local : gmap string Passport) (u : unit) (p : string) (info : result err finfo) : P (W:=W) (unit * option err) :=
  match info with
  | Err e => ret (u, Some e)
  | Ok fi =>
      if negb (fi_regular fi) then ret (u, None)
      else match Rel wc p with
           | None => ret (u, Some ERel)
           | Some rel =>
               if negb (bool_decide (rel ∈ candidates)) then ret (u, None)
               else if renewing (local !! p) then ret (u, None)
               else
                 let* own := (if isActive (local !! p) then
                                let* t := now in ret (passportAccess view observed realmID rel t (local !! p))
                              else ret false) in
                 let rw := own || ownerAccess view observed realmID rel (local !! p) in
                 let mode := accessMode rw (fi_perm fi) in
                 if (mode =? fi_perm fi)%Z then ret (u, None)
                 else let* e := chmod p mode in ret (u, e)
           end
  end.

Definition snapshotMap (l : list Passport) : gmap string Passport := fold_left (fun m p => <[p_Path p := p]> m) l ∅.

(** [errors.Join] of two errors. *)
Definition joinErrs (a b : option err) : option err :=
  match a with Some a => Some (joinErr a b) | None => b end.

Definition reconcilePathAccess (ownership : W -> result err OwnershipView * W) (wc realmID : string)
    (root : result err node) : P (option err) :=
  match a_needsLock with
  | None => ret (Some ENoNeedsLock)
  | Some needs =>
      let* r := ask (needs wc) in
      match r with
      | Err e => ret (Some e)
      | Ok candidates =>
          let* v := ask ownership in
          let '(view, observation) := match v with Ok view => (view, None) | Err e => (View ∅ ∅ 0%Z, Some e) end in
          let* snap := Snapshot in
          let* w := walk (reconcileVisit wc realmID candidates view (match observation with None => true | Some _ => false end)
                                         (snapshotMap snap)) tt wc root in
          ret (joinErrs observation (snd w))
      end
  end.

(** ** AutoUnlockOwned *)

Definition keepFirst (first e : option err) : option err := match first with Some _ => first | None => e end.

(** Without an ownership source the visitor only ever adds the owner's write
    bit, and keeps the first refusal while the walk goes on. *)
Definition unlockVisit (wc realmID : string) (candidates : gset string) (first : option err) (p : string)
    (info : result err finfo) : P (W:=W) (option err * option err) :=
  match info with
  | Err e => ret (first, Some e)
  | Ok fi =>
      if negb (fi_regular fi) || negb (Z.land (fi_perm fi) ownerWrite =? 0)%Z then ret (first, None)
      else match Rel wc p with
           | None => ret (first, Some ERel)
           | Some rel =>
               if negb (bool_decide (rel ∈ candidates)) then ret (first, None)
               else
                 let* r := ask (e_inspect p) in
                 match r with
                 | Err e => ret (keepFirst first (Some e), None)
                 | Ok lock =>
                     let mine := match lock with
                                 | None => true
                                 | Some l => match ParseComment (l_Comment l) with
                                             | Some meta => bool_decide (md_RealmID meta = realmID)
                                             | None => false
                                             end
                                 end in
                     if negb mine then ret (first, None)
                     else let* e := chmod p (Z.lor (fi_perm fi) ownerWrite) in ret (keepFirst first e, None)
                 end
           end
  end.

Definition AutoUnlockOwned (wc realmID : string) (root : result err node) : P (option err) :=
  match e_ownership with
  | Some ownership => reconcilePathAccess ownership wc realmID root
  | None =>
      if bool_decide (TrimSpace realmID = "") then ret None
      else
        let* c := ctxErr in
        match c with
        | Some e => ret (Some e)
        | None =>
            match a_needsLock with
            | None => ret (Some ENoNeedsLock)
            | Some needs =>
                let* r := ask (needs wc) in
                match r with
                | Err e => ret (Some e)
                | Ok candidates =>
                    let* w := walk (unlockVisit wc realmID candidates) None wc root in
                    ret (keepFirst (fst w) (snd w))
                end
            end
        end
  end.

(** ** What the walk may change *)

(** From [s] to [s'] the manager's memory and store are as they were, and every
    event recorded in between is a chmod [K] allows. *)
Definition extends (K : string -> Z -> Prop) (s s' : st W) : Prop :=
  passports s' = passports s /\ disk s' = disk s /\
  exists new, trace s' = (new ++ trace s)%list /\ Forall (fun e => exists p mode, e = EvChmod p mode /\ K p mode) new.

Lemma extends_none K s s' : passports s' = passports s -> disk s' = disk s -> trace s' = trace s -> extends K s s'.
Proof. intros H1 H2 H3. split_and!; [done|done|]. exists []. by split. Qed.

Lemma extends_trans K s1 s2 s3 : extends K s1 s2 -> extends K s2 s3 -> extends K s1 s3.
Proof.
  intros (A1 & A2 & n1 & A3 & A4) (B1 & B2 & n2 & B3 & B4). split_and!; [congruence|congruence|].
  exists (n2 ++ n1)%list. split; [by rewrite B3, A3, app_assoc|by apply Forall_app].
Qed.

(** Run with the records [pm], finished or cut off, [m] only adds chmods [K]
    allows; a result it returns satisfies [Q]. *)
Definition only {A} (pm : gmap string Passport) (K : string -> Z -> Prop) (m : P (W:=W) A) (Q : A -> Prop) : Prop :=
  forall s, passports s = pm -> extends K s (snd (m s)) /\ forall a, fst (m s) = Some a -> Q a.

Lemma only_ret {A} pm K (a : A) (Q : A -> Prop) : Q a -> only pm K (ret a) Q.
Proof. intros HQ s _. split; [by apply extends_none|]. intros a' [= <-]. done. Qed.

Lemma only_ask {A} pm K (f : W -> A * W) (Q : A -> Prop) : (forall w, Q (fst (f w))) -> only pm K (ask f) Q.
Proof.
  intros HQ s _. unfold ask. destruct (e_dies (world s)) as [[] w]; [by split; [apply extends_none|]|].
  specialize (HQ w). destruct (f w) as [a w']. split; [by apply extends_none|]. intros a' [= <-]. done.
Qed.

Lemma only_bind {A B} pm K (m : P (W:=W) A) (k : A -> P B) Q R :
  only pm K m Q -> (forall a, Q a -> only pm K (k a) R) -> only pm K (bind m k) R.
Proof.
  intros Hm Hk s Hs. destruct (Hm s Hs) as [He Hq]. unfold bind, mbind_st. destruct (m s) as [[a|] s1]; [|by split].
  destruct (Hk a (Hq a eq_refl) s1) as [He' Hr]; [cbn in He; destruct He as [He _]; congruence|].
  split; [by eapply extends_trans|exact Hr].
Qed.

Lemma only_chmod pm (K : string -> Z -> Prop) p mode : K p mode -> only pm K (chmod p mode) (fun _ => True).
Proof.
  intros HK. eapply (only_bind _ _ _ _ (fun _ => True)); [|intros; by apply only_ask]. intros s _. split; [|done]. split_and!; [done|done|].
  exists [EvChmod p mode]. split; [done|]. constructor; [eauto|constructor].
Qed.

Lemma only_Snapshot pm K : only pm K Snapshot (fun l => l = sortedPassports pm).
Proof. intros s <-. split; [by apply extends_none|]. intros a [= <-]. done. Qed.

(** The files a walk reaches: those below no skipped and no unreadable directory. *)
Fixpoint reaches (path : string) (n : node) (p : string) (info : result err finfo) : Prop :=
  match n with
  | NFile _ i => p = path /\ info = i
  | NDir name kids readErr =>
      name <> ".svn" /\ name <> ".filees" /\ readErr = None /\
      (fix any (ks : list node) : Prop :=
         match ks with [] => False | k :: rest => reaches (pathJoin path (nodeName k)) k p info \/ any rest end) kids
  end.

Definition reached (wc : string) (root : result err node) (p : string) (info : result err finfo) : Prop :=
  match root with Err _ => False | Ok n => reaches wc n p info end.

Lemma walkNode_only {A} pm K (visit : A -> _) path n a :
  (forall a p info, reaches path n p info -> only pm K (visit a p info) (fun _ => True)) ->
  only pm K (walkNode visit a path n) (fun _ => True).
Proof.
  revert a path. induction n as [name info|name kids readErr IH] using node_rect_list; intros a path H; cbn [walkNode];
    (eapply (only_bind _ _ _ _ (fun _ => True)); [by apply only_ask|]); intros [e|] _; try by apply only_ret.
  - by apply H.
  - destruct (bool_decide (name = ".svn")) eqn:H1; [by apply only_ret|].
    destruct (bool_decide (name = ".filees")) eqn:H2; [by apply only_ret|]. cbn [orb]. bool_to_prop.
    destruct readErr as [e|]; [by apply only_ret|].
    cbn [reaches] in H.
    assert (forall a p info, (fix any (ks : list node) : Prop :=
      match ks with [] => False | k :: rest => reaches (pathJoin path (nodeName k)) k p info \/ any rest end) kids ->
      only pm K (visit a p info) (fun _ => True)) as Hk by auto.
    clear H. revert a. induction IH as [|k kids IH _ IHk]; intros a; [by apply only_ret|].
    eapply (only_bind _ _ _ _ (fun _ => True)); [apply IH; intros a' p info Hp; apply Hk; by left|].
    intros [a' [e|]] _; [by apply only_ret|]. apply IHk. intros a'' p info Hp. apply Hk. by right.
Qed.

Lemma walk_only {A} pm K (visit : A -> _) path root a :
  (forall a p info, reached path root p info -> only pm K (visit a p info) (fun _ => True)) ->
  only pm K (walk visit a path root) (fun _ => True).
Proof. intros H. destruct root as [n|e]; [by apply walkNode_only|by apply only_ret]. Qed.

(** What a caller saw when it asked: some world the question was put to. *)
Definition answered {A} (f : W -> A * W) (a : A) : Prop := exists w, a = fst (f w).

Lemma only_answer {A} pm K (f : W -> A * W) : only pm K (ask f) (answered f).
Proof. apply only_ask. intros w. by exists w. Qed.

(** *** When the write bit may be granted *)

(** A confirmed, unexpired passport not contradicted by an observed hold. *)
Definition passportGrants (view : OwnershipView) (observed : bool) (realmID rel : string) (pass : option Passport) : Prop :=
  exists p t, pass = Some p /\ p_State p = StateActive /\ answered e_now t /\ (t < p_ExpiresAt p)%Z /\
    (observed = true -> forall h, ov_Holds view !! rel = Some h ->
       oh_Token h = p_FencingToken p \/ oh_RealmID h = p_RealmID p \/ oh_RealmID h = realmID).

(** Observed ownership by the caller's realm with no foreign hold. *)
Definition ownershipGrants (view : OwnershipView) (observed : bool) (realmID rel : string) (pass : option Passport) : Prop :=
  observed = true /\ realmID <> "" /\ ov_Owners view !! rel = Some realmID /\
  (forall h, ov_Holds view !! rel = Some h -> oh_RealmID h = realmID) /\
  (forall p, pass = Some p -> p_State p <> StatePending /\ p_State p <> StateReleasing).

Lemma passportAccess_sound view observed realmID rel t pass :
  answered e_now t -> passportAccess view observed realmID rel t pass = true -> passportGrants view observed realmID rel pass.
Proof.
  intros Ht H. destruct pass as [p|]; [|done]. unfold passportAccess, isActive in H.
  apply andb_true_iff in H as [[H1 H2]%andb_true_iff H3]. unfold Before in H2. bool_to_prop.
  exists p, t. split_and!; [done..|]. intros -> h Hh. rewrite Hh in H3. cbn [andb] in H3.
  apply andb_false_iff in H3 as [[H3|H3]%andb_false_iff|H3]; bool_to_prop; auto.
Qed.

Lemma ownerAccess_sound view observed realmID rel pass :
  ownerAccess view observed realmID rel pass = true -> ownershipGrants view observed realmID rel pass.
Proof.
  unfold ownerAccess. intros [[[[-> H1]%andb_true_iff H2]%andb_true_iff H3]%andb_true_iff H4]%andb_true_iff. bool_to_prop.
  split_and!; [done..| | |].
  - destruct (ov_Owners view !! rel); cbn in H3; congruence.
  - intros h Hh. rewrite Hh in H4. by bool_to_prop.
  - intros p ->. by bool_to_prop.
Qed.

(** What an answer of the ownership source lets the walk see: the view it names,
    or, when it failed, nothing at all. *)
Definition viewOf (v : result err OwnershipView) : OwnershipView := match v with Ok view => view | Err _ => View ∅ ∅ 0%Z end.
Definition sighted (v : result err OwnershipView) : bool := match v with Ok _ => true | Err _ => false end.

(** A chmod of the walk with an ownership source. *)
Definition reconciles (ownership : W -> result err OwnershipView * W) (realmID rel : string) (pass : option Passport)
    (perm mode : Z) : Prop :=
  renewing pass = false /\
  (mode = Z.ldiff perm writeBits \/
   (mode = Z.lor perm ownerWrite /\ exists v, answered ownership v /\
     (passportGrants (viewOf v) (sighted v) realmID rel pass \/ ownershipGrants (viewOf v) (sighted v) realmID rel pass))).

(** A chmod of the walk without one. *)
Definition unlocks (realmID p : string) (perm mode : Z) : Prop :=
  mode = Z.lor perm ownerWrite /\ TrimSpace realmID <> "" /\
  exists lock, answered (e_inspect p) (Ok lock) /\
    (lock = None \/ exists l meta, lock = Some l /\ ParseComment (l_Comment l) = Some meta /\ md_RealmID meta = realmID).

Definition mayChmod (wc realmID : string) (root : result err node) (pm : gmap string Passport) (p : string) (mode : Z) : Prop :=
  exists needs candidates fi rel,
    a_needsLock = Some needs /\ answered (needs wc) (Ok candidates) /\
    reached wc root p (Ok fi) /\ fi_regular fi = true /\ Rel wc p = Some rel /\ rel ∈ candidates /\
    match e_ownership with
    | Some ownership => reconciles ownership realmID rel (snapshotMap (sortedPassports pm) !! p) (fi_perm fi) mode
    | None => unlocks realmID p (fi_perm fi) mode
    end.

Lemma reconcileVisit_only pm K wc realmID candidates view observed local u p info :
  (forall fi rel rw, info = Ok fi -> fi_regular fi = true -> Rel wc p = Some rel -> rel ∈ candidates -> renewing (local !! p) = false ->
     (rw = true -> passportGrants view observed realmID rel (local !! p) \/ ownershipGrants view observed realmID rel (local !! p)) ->
     K p (accessMode rw (fi_perm fi))) ->
  only pm K (reconcileVisit wc realmID candidates view observed local u p info) (fun _ => True).
Proof.
  intros HK. unfold reconcileVisit. destruct info as [fi|e]; [|by apply only_ret].
  destruct (fi_regular fi) eqn:Hreg; cbn [negb]; [|by apply only_ret].
  destruct (Rel wc p) as [rel|] eqn:Hrel; [|by apply only_ret].
  destruct (bool_decide (rel ∈ candidates)) eqn:Hc; cbn [negb]; [|by apply only_ret]. bool_to_prop.
  destruct (renewing _) eqn:Hren; [by apply only_ret|].
  eapply (only_bind _ _ _ _ (fun own => own = true -> passportGrants view observed realmID rel (local !! p))).
  { destruct (isActive _); [|by apply only_ret]. eapply only_bind; [apply only_answer|].
    intros t Ht. apply only_ret. by apply passportAccess_sound. }
  intros own Hown. cbv zeta. destruct (_ =? _)%Z; [by apply only_ret|].
  eapply only_bind; [apply only_chmod|intros; by apply only_ret]. eapply HK; [done..|].
  intros [->|H]%orb_true_iff; [left; auto|right; by apply ownerAccess_sound].
Qed.

Lemma unlockVisit_only pm K wc realmID candidates first p info :
  (forall fi rel lock, info = Ok fi -> fi_regular fi = true -> Rel wc p = Some rel -> rel ∈ candidates ->
     answered (e_inspect p) (Ok lock) ->
     (lock = None \/ exists l meta, lock = Some l /\ ParseComment (l_Comment l) = Some meta /\ md_RealmID meta = realmID) ->
     K p (Z.lor (fi_perm fi) ownerWrite)) ->
  only pm K (unlockVisit wc realmID candidates first p info) (fun _ => True).
Proof.
  intros HK. unfold unlockVisit. destruct info as [fi|e]; [|by apply only_ret].
  destruct (fi_regular fi) eqn:Hreg; cbn [negb orb]; [|by apply only_ret].
  destruct (negb _); [by apply only_ret|].
  destruct (Rel wc p) as [rel|] eqn:Hrel; [|by apply only_ret].
  destruct (bool_decide (rel ∈ candidates)) eqn:Hc; cbn [negb]; [|by apply only_ret]. bool_to_prop.
  eapply only_bind; [apply only_answer|]. intros [lock|e] Hl; [|by apply only_ret]. cbv zeta.
  destruct lock as [l|].
  - destruct (ParseComment (l_Comment l)) as [meta|] eqn:Hm; [|by apply only_ret].
    destruct (bool_decide (md_RealmID meta = realmID)) eqn:Hr; [|by apply only_ret]. bool_to_prop. cbn [negb].
    eapply only_bind; [apply only_chmod|intros; by apply only_ret]. eapply HK; [done..|]. right. by exists l, meta.
  - cbn [negb]. eapply only_bind; [apply only_chmod|intros; by apply only_ret]. eapply HK; [done..|]. by left.
Qed.

(** C35. Adjusting local write access changes nothing but permission bits and
    grants writing only with authority.  In every run of [AutoUnlockOwned],
    finished, failed or cut off, the manager's records and store stay as they
    are, and each chmod is on a regular file listed as needs-lock, reached
    outside the two control directories.  With an ownership source it spares a
    passport being renewed, and otherwise clears exactly the write bits, or sets
    the owner's write bit by an answer of that source: where an unexpired active
    passport is not contradicted by a foreign hold in the answer (a failed
    answer shows none), or where the answer names the caller's realm as owner and
    nobody else as holder and no record of the path is pending or releasing.
    Without a source it sets that bit where the repository answered no lock or
    one of the caller's realm. *)
Theorem path_access_granted_with_authority wc realmID root s :
  extends (mayChmod wc realmID root (passports s)) s (snd (AutoUnlockOwned wc realmID root s)).
Proof.
  enough (only (passports s) (mayChmod wc realmID root (passports s)) (AutoUnlockOwned wc realmID root) (fun _ => True)) as H
    by by apply (H s).
  unfold AutoUnlockOwned, mayChmod. destruct e_ownership as [ownership|] eqn:Ho.
  - unfold reconcilePathAccess. destruct a_needsLock as [needs|]; [|by apply only_ret].
    eapply only_bind; [apply only_answer|]. intros [candidates|e] Hc; [|by apply only_ret].
    eapply only_bind; [apply only_answer|]. intros v Hv.
    assert (exists obs, match v with Ok view => (view, None) | Err e => (View ∅ ∅ 0%Z, Some e) end = (viewOf v, obs) /\
      match obs with None => true | Some _ => false end = sighted v) as (obs & -> & Hobs) by (destruct v; eexists; split; reflexivity).
    eapply only_bind; [apply only_Snapshot|]. intros snap ->. rewrite Hobs.
    eapply (only_bind _ _ _ _ (fun _ => True)); [|intros; by apply only_ret]. apply walk_only. intros u p info Hr.
    apply reconcileVisit_only. intros fi rel rw -> Hreg Hrel Hcand Hren Hg. exists needs, candidates, fi, rel. split_and!; [done..|].
    split; [done|]. destruct rw; [right|by left]. split; [done|]. exists v. split; [done|auto].
  - destruct (bool_decide _) eqn:Hz; [by apply only_ret|]. bool_to_prop.
    eapply (only_bind _ _ _ _ (fun _ => True)); [by apply only_ask|]. intros [e|] _; [by apply only_ret|].
    destruct a_needsLock as [needs|]; [|by apply only_ret].
    eapply only_bind; [apply only_answer|]. intros [candidates|e] Hc; [|by apply only_ret].
    eapply (only_bind _ _ _ _ (fun _ => True)); [|intros; by apply only_ret]. apply walk_only. intros first p info Hr.
    apply unlockVisit_only. intros fi rel lock -> Hreg Hrel Hcand Hl Hm. exists needs, candidates, fi, rel.
    split_and!; [done..|]. split_and!; [done..|]. by exists lock.
Qed.

(** ** What a finished walk has done *)

Definition anything (p : string) (mode : Z) : Prop := True.

Lemma bind_returns {A B} (m : P (W:=W) A) (k : A -> P B) s b s' :
  bind m k s = (Some b, s') -> exists a s1, m s = (Some a, s1) /\ k a s1 = (Some b, s').
Proof. unfold bind, mbind_st. destruct (m s) as [[a|] s1]; [|done]. intros H. by exists a, s1. Qed.

Lemma only_grows {A} K (m : P (W:=W) A) Q s : only (passports s) K m Q -> exists new, trace (snd (m s)) = (new ++ trace s)%list.
Proof. intros H. destruct (H s eq_refl) as [(_ & _ & new & Hn & _) _]. by exists new. Qed.

(** A walk that finished without an error called the visitor, which answered
    no error, at every file it reaches. *)
Lemma walkNode_visits {A} (visit : A -> _) path n a s a' s' p info :
  (forall pm a p info, only pm anything (visit a p info) (fun _ => True)) ->
  walkNode visit a path n s = (Some (a', None), s') -> reaches path n p info ->
  exists a1 a2 s1 s2 new, visit a1 p info s1 = (Some (a2, None), s2) /\ trace s' = (new ++ trace s2)%list.
Proof.
  intros Hv. revert a path s a' s'. induction n as [name i|name kids readErr IH] using node_rect_list; intros a path s a' s'; cbn [walkNode reaches];
    intros ([e|] & sc & _ & H)%bind_returns Hr; try discriminate H.
  - destruct Hr as [-> ->]. by exists a, a', sc, s', [].
  - destruct Hr as (H1 & H2 & -> & Hr). rewrite !bool_decide_eq_false_2 in H by done. cbn [orb] in H.
    revert a sc H. induction IH as [|k kids IH IHs IHk]; intros a sc; [done|].
    intros ([ak [e|]] & sk & Hk & H)%bind_returns; [discriminate H|]. destruct Hr as [Hr|Hr]; [|by eapply IHk].
    destruct (IH _ _ _ _ _ Hk Hr) as (a1 & a2 & s1 & s2 & new & Hvis & Hn).
    assert (exists more, trace s' = (more ++ trace sk)%list) as [more Hm].
    { clear IHk IHs Hr Hn Hk IH. revert ak sk H. induction kids as [|k' kids IHk]; intros ak sk H; [injection H as <- <-; by exists []|].
      apply bind_returns in H as ([b [e|]] & sb & Hb & H); [discriminate H|].
      destruct (IHk b sb H) as [more Hmore].
      destruct (only_grows anything (walkNode visit ak (pathJoin path (nodeName k')) k') (fun _ => True) sk) as [m2 Hm2].
      { apply walkNode_only. intros; apply Hv. }
      rewrite Hb in Hm2. cbn in Hm2. exists (more ++ m2)%list. by rewrite Hmore, Hm2, app_assoc. }
    exists a1, a2, s1, s2, (more ++ new)%list. split; [done|]. by rewrite Hm, Hn, app_assoc.
Qed.

Lemma reconcileVisit_any pm wc realmID candidates view observed local u p info :
  only pm anything (reconcileVisit wc realmID candidates view observed local u p info) (fun _ => True).
Proof. by apply reconcileVisit_only. Qed.

(** C36. A finished reconciliation has removed every write bit nobody can
    justify.  When the walk over the working copy ends without an error, then
    for each reached regular needs-lock file that is not being renewed and for
    which neither an unexpired passport nor observed ownership grants writing,
    the file had no write bit or exactly its write bits were cleared; so a lost
    or unknown owner and a foreign hold take speculative write access away. *)
Theorem path_access_revoked wc realmID candidates view observed local root s s' p fi rel :
  walk (reconcileVisit wc realmID candidates view observed local) tt wc root s = (Some (tt, None), s') ->
  reached wc root p (Ok fi) -> fi_regular fi = true -> Rel wc p = Some rel -> rel ∈ candidates ->
  renewing (local !! p) = false ->
  ~ passportGrants view observed realmID rel (local !! p) -> ~ ownershipGrants view observed realmID rel (local !! p) ->
  Z.land (fi_perm fi) writeBits = 0%Z \/ EvChmod p (Z.ldiff (fi_perm fi) writeBits) ∈ trace s'.
Proof.
  intros Hw Hr Hreg Hrel Hc Hren Hp Ho. destruct root as [n|e]; [|done].
  destruct (walkNode_visits _ _ _ _ _ _ _ _ _ (fun pm => reconcileVisit_any pm wc realmID candidates view observed local) Hw Hr)
    as (u1 & u2 & s1 & s2 & new & Hv & ->).
  unfold reconcileVisit in Hv. rewrite Hreg, Hrel, Hren, bool_decide_eq_true_2 in Hv by done. cbn [negb] in Hv.
  apply bind_returns in Hv as (own & so & Hown & Hv).
  assert (own = false) as ->.
  { destruct own; [|done]. destruct Hp. destruct (isActive _); [|discriminate Hown].
    apply bind_returns in Hown as (t & st & Ht & [= Hown]). apply (passportAccess_sound view observed realmID rel t); [|congruence].
    unfold now, ask in Ht. destruct (e_dies _) as [[] w]; [discriminate Ht|]. exists w. destruct (e_now w). by injection Ht as ->. }
  destruct (ownerAccess _ _ _ _ _) eqn:Hoa; [by destruct Ho; apply ownerAccess_sound|]. cbv zeta in Hv. cbn [orb accessMode] in Hv.
  destruct (_ =? _)%Z eqn:Hm.
  - left. apply Z.eqb_eq in Hm. rewrite <- Hm. apply Z.bits_inj_0. intros i. rewrite Z.land_spec, Z.ldiff_spec.
    destruct (Z.testbit (fi_perm fi) i), (Z.testbit writeBits i); done.
  - right. apply elem_of_app. right. apply bind_returns in Hv as (e & se & Hch & [= -> -> <-]).
    unfold chmod in Hch. apply bind_returns in Hch as (u & su & [= <- <-] & Hch). unfold ask in Hch. cbn [world] in Hch.
    destruct (e_dies _) as [[] w]; [discriminate Hch|]. destruct (a_chmod _ _ _). injection Hch as _ <-. cbn. by left.
Qed.

End Access.

(** ** A concrete working copy: one released drawing left writable *)
Module AccessDemo.

Definition World := unit.

#[export] Instance env : Env World := {|
  e_now := fun w => (0%Z, w);
  e_wallNow := fun w => (0%Z, w);
  e_ctxErr := fun w => (None, w);
  e_newUUID := fun w => ("pass-1", w);
  e_inspect := fun _ w => (Ok None, w);
  e_lock := fun _ _ _ w => (Ok None, w);
  e_unlock := fun _ w => (None, w);
  e_fs := fun _ w => (None, w);
  e_readStore := fun w => (None, w);
  e_dies := fun w => (false, w);
  e_receipt := None;
  e_intent := None;
  e_ownership := Some (fun w => (Ok (View ∅ ∅ 0%Z), w));
  e_heartbeatOwnership := None;
  e_restoreWritable := fun _ w => (None, w);
  e_marshalMeta := md_PassportID;
  e_unmarshalMeta := fun _ => None;
  e_isAborted := fun _ _ => false;
  e_formatTime := fun _ => "t"
|}.

#[export] Instance access : AccessEnv World := {|
  a_needsLock := Some (fun _ w => (Ok {["dir/a.dwg"]}, w));
  a_chmod := fun _ _ w => (None, w)
|}.

(** 0644 and 0444. *)
Definition drawing : node := NFile "a.dwg" (Ok (FInfo true 420%Z)).
Definition tree : node := NDir "wc" [NDir ".svn" [drawing] None; NDir "dir" [drawing] None] None.
Definition start : st World := St ∅ None tt [].

Lemma path_access_revoked_witness : EvChmod "/wc/dir/a.dwg" 292%Z ∈
  trace (snd (walk (reconcileVisit "/wc" "me" {["dir/a.dwg"]} (View ∅ ∅ 0%Z) true ∅) tt "/wc" (Ok tree) start)).
Proof.
  destruct (path_access_revoked "/wc" "me" {["dir/a.dwg"]} (View ∅ ∅ 0%Z) true ∅ (Ok tree) start
              (snd (walk (reconcileVisit "/wc" "me" {["dir/a.dwg"]} (View ∅ ∅ 0%Z) true ∅) tt "/wc" (Ok tree) start))
              "/wc/dir/a.dwg" (FInfo true 420%Z) "dir/a.dwg") as [H|H].
  - vm_compute. reflexivity.
  - do 3 (split; [discriminate || reflexivity|]). right. left. do 3 (split; [discriminate || reflexivity|]). left.
    split; vm_compute; reflexivity.
  - reflexivity.
  - vm_compute. reflexivity.
  - set_solver.
  - reflexivity.
  - intros (q & t & Hq & _). discriminate Hq.
  - intros (_ & _ & Ho & _). discriminate Ho.
  - discriminate H.
  - exact H.
Defined.

End AccessDemo.
