(* ===== verification/ControlTickets.v ===== *)
(** * ControlTickets: the passport requests of the control channel

    Models the passport part of src/pkg/control/v1 (passport_execution.go,
    passport_replacement.go, passport_cancellation.go and the code of messages.go
    they use) and of src/pkg/controlclient (passport.go, passport_execution.go,
    passport_cancellation.go): the tickets a client sends to have the server arm,
    settle or expire an acquisition or conditionally release an observed lock, and
    the receipts it accepts.

    The class [Wire] holds what is not this code: the JSON codec, the UUID
    library, RFC 3339 parsing, the transport, and the catalogue test of
    [errcat.ByPair].  The validation of ticket types other than these is a field
    too: no theorem depends on it. *)
From S2P Require Import Prelude GoStrings Passport.
From Stdlib Require Import Ascii String.

Open Scope string_scope.
Open Scope go_scope.

Definition Schema : string := "filees.control/v1".
Definition TicketArm : string := "ARM_PASSPORT_ACQUISITION".
Definition TicketSettle : string := "SETTLE_PASSPORT_ACQUISITION".
Definition TicketExpire : string := "EXPIRE_PASSPORT_PATH".
Definition TicketPrepare : string := "PREPARE_PASSPORT_REPLACEMENT".
Definition TicketCancel : string := "CANCEL_PASSPORT_PREPARATION".

#[export] Instance Ticket_eq_dec : EqDecision Ticket.
Proof. solve_decision. Defined.

Record Execution := Exec { ex_RepoID : string; ex_Path : string; ex_Comment : string }.
Record ExecutionResult := ExecResult { er_RepoID : string; er_Path : string; er_Comment : string; er_State : string }.

Record Replacement := Repl {
  rp_RepoID : string;
  rp_Path : string;
  rp_ObservedLockID : string;
  rp_PassportID : string;
  rp_InstanceUID : string;
  rp_Mode : string
}.

#[export] Instance Replacement_eq_dec : EqDecision Replacement.
Proof. solve_decision. Defined.

Record ReplacementResult := ReplResult { rq_RepoID : string; rq_Path : string; rq_ObservedLockID : string; rq_State : string }.
Record CancelResult := CanResult { cr_OperationID : string; cr_RequestID : string; cr_State : string }.

(** The success payload is a JSON value, empty when absent, named like a ticket's
    by its compact text; the error body is its code and message. *)
Record Result := MkResult {
  rs_Schema : string;
  rs_OperationID : string;
  rs_RequestID : string;
  rs_Type : string;
  rs_Status : string;
  rs_CompletedAt : string;
  rs_Result : string;
  rs_Error : option (string * string)
}.

Class Wire (W : Type) := {
  x_marshalExecution : Execution -> string;
  x_marshalReplacement : Replacement -> string;
  x_marshalTicket : Ticket -> option string;
  x_marshalCancel : Ticket -> option string;
  x_execution : string -> option Execution;
  x_replacement : string -> option Replacement;
  x_cancel : string -> option Ticket;
  x_executionResult : string -> option ExecutionResult;
  x_replacementResult : string -> option ReplacementResult;
  x_cancelResult : string -> option CancelResult;
  x_isUUID : string -> bool;
  x_sha1UUID : string -> string;
  x_parseTime : string -> option Time;
  x_formatTime : Time -> string;
  x_otherTicket : Ticket -> option err;
  x_otherResult : Result -> option err;
  x_inCatalogue : string -> string -> bool;
  x_newUUID : W -> string * W;
  x_ctxErr : W -> option err * W;
  x_wallNow : W -> Time * W;
  x_exchange : option (Ticket -> W -> result err Result * W)
}.

(** The world, and what was sent into it and answered, newest first. *)
Inductive wireEvent :=
| WExchange (t : Ticket) (answer : result err Result)
| WLock (path comment : string) (force : bool)
| WUnlock (path : string)
| WRelease (path token : string).

Record BW (W : Type) := MkBW { bw_world : W; bw_wire : list wireEvent }.
Arguments MkBW {W}. Arguments bw_world {W}. Arguments bw_wire {W}.

Definition C (e : cerr) : option err := Some (EControl e).

(** ** Strict decoding and field validation *)
Definition decodeStrict {A} (dec : string -> option A) (raw : string) : result err A :=
  if bool_decide (raw = "") then Err (EControl CPayload)
  else match dec raw with Some a => Ok a | None => Err (EControl CPayload) end.

(** [validatePublicSharePath], then the length and line-break limits. *)
Definition sharePath (value : string) : bool :=
  negb (bool_decide (value = "")) && bool_decide (value = TrimSpace value) && negb (HasPrefix value "/")
  && negb (ContainsAny value (str [0x5C; 0]%Z)) && negb (Contains value "//")
  && forallb (fun w => negb (bool_decide (w = "")) && negb (bool_decide (w = ".")) && negb (bool_decide (w = ".."))) (Split "/" value).

Definition validateLockReleasePath (value : string) : option err :=
  require (sharePath value) (EControl CPath) >>?
  require (negb (4096 <? len value)%Z && negb (ContainsAny value (str [0x0D; 0x0A]%Z))) (EControl CPath).

Definition validateObservedLockID (value : string) : option err :=
  require (negb (bool_decide (value = "")) && negb (2048 <? len value)%Z && bool_decide (value = TrimSpace value)
           && negb (ContainsAny value (str [0; 0x0D; 0x0A]%Z))) (EControl CObservedID).

Section Tickets.
  Context {W : Type} `{!Wire W}.

Definition validateUUID (value : string) : option err := require (x_isUUID value) (EControl CUuid).

Definition validateExecution (p : Execution) (expire : bool) : option err :=
  validateUUID (ex_RepoID p) >>?
  validateLockReleasePath (ex_Path p) >>?
  (if expire then require (bool_decide (ex_Comment p = "")) (EControl CExpiryComment)
   else require (negb (bool_decide (ex_Comment p = "")) && negb (4096 <? len (ex_Comment p))%Z
                 && negb (ContainsAny (ex_Comment p) (str [0; 0x0D; 0x0A]%Z))) (EControl CComment)).

Definition validateExecutionResult (p : ExecutionResult) (kind : string) : option err :=
  let want := if bool_decide (kind = TicketExpire) then "checked"
              else if bool_decide (kind = TicketSettle) then "closed" else "armed" in
  validateExecution (Exec (er_RepoID p) (er_Path p) (er_Comment p)) (bool_decide (kind = TicketExpire)) >>?
  require (bool_decide (er_State p = want)) (EControl CState).

Definition validateReplacement (p : Replacement) : option err :=
  validateUUID (rp_RepoID p) >>? validateUUID (rp_PassportID p) >>? validateUUID (rp_InstanceUID p) >>?
  validateLockReleasePath (rp_Path p) >>?
  validateObservedLockID (rp_ObservedLockID p) >>?
  require (bool_decide (rp_Mode p = "renew") || bool_decide (rp_Mode p = "migrate")) (EControl CMode).

Definition validateReplacementResult (p : ReplacementResult) : option err :=
  validateUUID (rq_RepoID p) >>?
  validateLockReleasePath (rq_Path p) >>?
  validateObservedLockID (rq_ObservedLockID p) >>?
  require (bool_decide (rq_State p = "prepared")) (EControl CState).

Definition validateCancelResult (p : CancelResult) : option err :=
  validateUUID (cr_OperationID p) >>? validateUUID (cr_RequestID p) >>?
  require (bool_decide (cr_State p = "canceled")) (EControl CState).

(** ** Tickets *)
Definition isExecutionType (typ : string) : bool :=
  bool_decide (typ = TicketArm) || bool_decide (typ = TicketSettle) || bool_decide (typ = TicketExpire).

Definition validTime (t : string) : bool := match x_parseTime t with Some _ => true | None => false end.

Definition ticketHeader (t : Ticket) : option err :=
  require (bool_decide (tk_Schema t = Schema)) (EControl CSchema) >>?
  validateUUID (tk_OperationID t) >>? validateUUID (tk_RequestID t) >>?
  require (negb (bool_decide (TrimSpace (tk_ClientID t) = ""))) (EControl CClientID) >>?
  require (validTime (tk_CreatedAt t)) (EControl CTime).

Definition ticketPayload (t : Ticket) : option err :=
  if isExecutionType (tk_Type t) then
    let? p := decodeStrict x_execution (tk_Payload t) in validateExecution p (bool_decide (tk_Type t = TicketExpire))
  else if bool_decide (tk_Type t = TicketPrepare) then
    let? p := decodeStrict x_replacement (tk_Payload t) in validateReplacement p
  else x_otherTicket t.

(** [CancelPassportPreparationPayload.Validate]: the type is checked first, so a
    nested ticket is never a cancellation. *)
Definition validateCancelled (p : Ticket) : option err :=
  if negb (bool_decide (tk_Type p = TicketPrepare)) then C CCancelOriginal
  else ticketHeader p >>? ticketPayload p.

(** [Ticket.Validate] *)
Definition validateTicket (t : Ticket) : option err :=
  ticketHeader t >>?
  if bool_decide (tk_Type t = TicketCancel) then
    let? p := decodeStrict x_cancel (tk_Payload t) in
    (if negb (bool_decide (tk_ClientID p = tk_ClientID t)) || bool_decide (tk_OperationID p = tk_OperationID t)
     then C CCancelActor else validateCancelled p)
  else ticketPayload t.

Definition NewTicket (operationID requestID typ clientID : string) (payload : option string) (now : Time) : result err Ticket :=
  match payload with
  | None => Err (EControl CMarshal)
  | Some raw =>
      let t := Tick Schema operationID requestID typ (TrimSpace clientID) (x_formatTime now) raw in
      match validateTicket t with Some e => Err e | None => Ok t end
  end.

Definition NewPassportCancellation (original : Ticket) : result err Ticket :=
  match validateCancelled original with
  | Some e => Err e
  | None =>
      match x_parseTime (tk_CreatedAt original) with
      | None => Err (EControl CTime)
      | Some created =>
          let op := x_sha1UUID ("filees.cancel-passport.operation/" ++ tk_OperationID original) in
          let req := x_sha1UUID ("filees.cancel-passport.request/" ++ tk_RequestID original) in
          NewTicket op req TicketCancel (tk_ClientID original) (x_marshalCancel original) created
      end
  end.

(** [Result.Validate] *)
Definition successPayload (r : Result) : option err :=
  if isExecutionType (rs_Type r) then
    let? p := decodeStrict x_executionResult (rs_Result r) in validateExecutionResult p (rs_Type r)
  else if bool_decide (rs_Type r = TicketPrepare) then
    let? p := decodeStrict x_replacementResult (rs_Result r) in validateReplacementResult p
  else if bool_decide (rs_Type r = TicketCancel) then
    let? p := decodeStrict x_cancelResult (rs_Result r) in validateCancelResult p
  else x_otherResult r.

Definition knownResultType (r : Result) : option err :=
  if isExecutionType (rs_Type r) || bool_decide (rs_Type r = TicketPrepare) || bool_decide (rs_Type r = TicketCancel)
  then None else x_otherResult r.

Definition validateResult (r : Result) : option err :=
  require (bool_decide (rs_Schema r = Schema)) (EControl CSchema) >>?
  validateUUID (rs_OperationID r) >>? validateUUID (rs_RequestID r) >>?
  require (validTime (rs_CompletedAt r)) (EControl CTime) >>?
  knownResultType r >>?
  if bool_decide (rs_Status r = "ok") then
    match rs_Error r with Some _ => C CResultShape | None => successPayload r end
  else if bool_decide (rs_Status r = "error") then
    match rs_Error r with
    | None => C CResultShape
    | Some (code, message) =>
        if bool_decide (TrimSpace code = "") || bool_decide (TrimSpace message = "") then C CResultShape
        else require (bool_decide (rs_Result r = "") || bool_decide (rs_Result r = "null")) (EControl CResultShape)
    end
  else C CStatus.

(** ** The client side of an exchange *)
Notation S := (BW W).

Definition ask {A} (f : W -> A * W) : M S A := fun s =>
  let '(a, w) := f (bw_world s) in (a, MkBW w (bw_wire s)).

(** A call that changes the server or the working copy is recorded. *)
Definition send {A} (e : A -> wireEvent) (f : W -> A * W) : M S A := fun s =>
  let '(a, w) := f (bw_world s) in (a, MkBW w (e a :: bw_wire s)).

(** Same operation, request and type. *)
Definition boundTo (r : Result) (t : Ticket) : bool :=
  bool_decide (rs_OperationID r = tk_OperationID t) && bool_decide (rs_RequestID r = tk_RequestID t)
  && bool_decide (rs_Type r = tk_Type t).

Definition refusal (r : Result) : cerr :=
  match rs_Error r with
  | Some (code, message) => if x_inCatalogue code message then CRemote code message else CUnknown code message
  | None => CResultShape
  end.

(** Send the ticket and judge the answer up to its status; [accept] looks at the
    success payload, [refused] at the error. *)
Definition exchange (t : Ticket) (refused : Result -> option err) (accept : Result -> option err) : M S (option err) :=
  match x_exchange with
  | None => mret_st (C CUnavailable)
  | Some transport =>
      let! answer := send (WExchange t) (transport t) in
      mret_st (match answer with
               | Err e => Some e
               | Ok r =>
                   validateResult r >>?
                   require (boundTo r t) (EControl CResponseMismatch) >>?
                   if bool_decide (rs_Status r = "ok") then accept r else refused r
               end)
  end.

Definition acceptReplacement (p : Replacement) (r : Result) : option err :=
  let? receipt := decodeStrict x_replacementResult (rs_Result r) in
  require (bool_decide (rq_RepoID receipt = rp_RepoID p) && bool_decide (rq_Path receipt = rp_Path p)
           && bool_decide (rq_ObservedLockID receipt = rp_ObservedLockID p)) (EControl CReceiptMismatch).

(** A catalogued abort becomes the proof that this very ticket was closed. *)
Definition refusedPreparation (t : Ticket) (r : Result) : option err :=
  match refusal r with
  | CRemote code message =>
      if bool_decide (code = "LOCK-2107") && bool_decide (message = "passport.preparation_aborted") then
        match x_marshalTicket t with None => C CMarshal | Some raw => C (CAborted raw) end
      else C (CRemote code message)
  | e => C e
  end.

Definition PreparePassportReplacement (t : Ticket) : M S (option err) :=
  match x_exchange with
  | None => mret_st (C CUnavailable)
  | Some _ =>
      match validateTicket t with
      | Some e => mret_st (Some e)
      | None =>
          if negb (bool_decide (tk_Type t = TicketPrepare)) then mret_st (C CTicketType)
          else match decodeStrict x_replacement (tk_Payload t) with
               | Err e => mret_st (Some e)
               | Ok p => exchange t (refusedPreparation t) (acceptReplacement p)
               end
      end
  end.

Definition acceptExecution (p : Execution) (r : Result) : option err :=
  let? proof := decodeStrict x_executionResult (rs_Result r) in
  require (bool_decide (er_RepoID proof = ex_RepoID p) && bool_decide (er_Path proof = ex_Path p)
           && bool_decide (er_Comment proof = ex_Comment p)) (EControl CReceiptMismatch).

Definition PassportExecution (t : Ticket) : M S (option err) :=
  match x_exchange with
  | None => mret_st (C CUnavailable)
  | Some _ =>
      if negb (isExecutionType (tk_Type t)) then mret_st (C CTicketType)
      else match validateTicket t with
           | Some e => mret_st (Some e)
           | None =>
               match decodeStrict x_execution (tk_Payload t) with
               | Err e => mret_st (Some e)
               | Ok p => exchange t (fun r => C (refusal r)) (acceptExecution p)
               end
           end
  end.

Definition acceptCancellation (original : Ticket) (r : Result) : option err :=
  let? proof := decodeStrict x_cancelResult (rs_Result r) in
  require (bool_decide (cr_OperationID proof = tk_OperationID original)
           && bool_decide (cr_RequestID proof = tk_RequestID original)) (EControl CReceiptMismatch).

Definition CancelPassportPreparation (original : Ticket) : M S (option err) :=
  match NewPassportCancellation original with
  | Err e => mret_st (Some e)
  | Ok t => exchange t (fun r => C (refusal r)) (acceptCancellation original)
  end.

(** [errors.As] walks the joined errors in order. *)
Fixpoint abortedRequest (e : err) : option string :=
  match e with
  | EControl (CAborted raw) => Some raw
  | EJoin a b => match abortedRequest a with Some raw => Some raw | None => abortedRequest b end
  | _ => None
  end.

Definition IsAbortedPreparation (e : err) (t : Ticket) : bool :=
  match x_marshalTicket t, abortedRequest e with
  | Some raw, Some request => bool_decide (request = raw)
  | _, _ => false
  end.

End Tickets.
