(* ===== verification/ControlBackend.v ===== *)
(** * ControlBackend: the durable lock backend of the passport manager

    Models [ControlSVNBackend] (control_backend.go, acquisition_receipt.go,
    execution_recovery.go, release_receipt.go and svn_backend.go of
    src/pkg/passport): the implementation of the backend the manager of [Passport]
    calls.  [IntentContract] states what the manager may rely on; the backend is
    proved to keep it, and [controlEnv] puts it under the manager.

    [client.Client], which runs svn, is the record [SvnClient]; the optional
    interfaces its values may implement are options. *)
From S2P Require Import Prelude GoStrings Passport PassportProofs ControlTickets.
From Stdlib Require Import Ascii String.

Open Scope string_scope.
Open Scope go_scope.

Record SvnClient (W : Type) := {
  sv_lockInfo : string -> string -> W -> result err (option Lock) * W;
  sv_lockWithComment : string -> string -> string -> bool -> W -> option err * W;
  sv_unlock : string -> string -> W -> option err * W;
  sv_propList : string -> string -> W -> result err (gmap string bool) * W;
  sv_confirmLock : option (string -> string -> string -> W -> result err (option Lock) * W);
  sv_acquireLock : option (string -> string -> string -> W -> result err (option Lock) * W);
  sv_releaseLock : option (string -> string -> string -> W -> result err (option LockReleaseReceipt) * W);
  (** local and remote *)
  sv_observation : option (string -> string -> W -> result err (option Lock * option Lock) * W)
}.
Arguments sv_lockInfo {W}. Arguments sv_lockWithComment {W}. Arguments sv_unlock {W}. Arguments sv_propList {W}.
Arguments sv_confirmLock {W}. Arguments sv_acquireLock {W}. Arguments sv_releaseLock {W}. Arguments sv_observation {W}.

Record ControlSVNBackend (W : Type) := Backend {
  b_FenceAcquisitions : bool;
  b_Client : option (SvnClient W);
  b_WC : string;
  b_RepoID : string;
  b_ClientID : string
}.
Arguments b_FenceAcquisitions {W}. Arguments b_Client {W}. Arguments b_WC {W}. Arguments b_RepoID {W}. Arguments b_ClientID {W}.

Definition AppendOnlyProperty : string := "filees:append-only".

Definition modeString (m : Mode) : string :=
  match m with ModeAcquire => "acquire" | ModeMigrate => "migrate" | ModeRenew => "renew" end.

Definition setAcquisitionID (id : string) (m : Metadata) : Metadata :=
  Meta id (md_PassportID m) (md_InstanceUID m) (md_PreviousToken m) (md_RealmID m) (md_IssuedAt m) (md_ExpiresAt m) (md_HardExpiresAt m).

Definition setType (typ : string) (t : Ticket) : Ticket :=
  Tick (tk_Schema t) (tk_OperationID t) (tk_RequestID t) typ (tk_ClientID t) (tk_CreatedAt t) (tk_Payload t).

Section Backend.
  Context {W : Type} `{!Wire W} {base : Env (BW W)}.
  Variable b : ControlSVNBackend W.
  Notation S := (BW W).

(** ** SVNBackend *)
Definition svn_Inspect (path : string) : M S (result err (option Lock)) :=
  match b_Client b with
  | None => mret_st (Err (EControl CNoClient))
  | Some c => ask (sv_lockInfo c (b_WC b) path)
  end.

Definition Unlock (path : string) : M S (option err) :=
  match b_Client b with
  | None => mret_st (C CNoClient)
  | Some c => send (fun _ => WUnlock path) (sv_unlock c (b_WC b) path)
  end.

Definition NeedsLockPaths (wc : string) : M S (result err (gmap string bool)) :=
  match b_Client b with
  | None => mret_st (Err (EControl CNoClient))
  | Some c =>
      let! r := ask (sv_propList c wc "svn:needs-lock") in
      match r with
      | Err e => mret_st (Err e)
      | Ok paths =>
          let! a := ask (sv_propList c wc AppendOnlyProperty) in
          mret_st (match a with
                   | Err e => Err e
                   | Ok appendOnly => Ok (filter (fun kv => appendOnly !! kv.1 <> Some true) paths)
                   end)
      end
  end.

Definition ReleaseToken (path token : string) : M S (result err (option LockReleaseReceipt)) :=
  match b_Client b with
  | Some c => match sv_releaseLock c with
              | Some release => send (fun _ => WRelease path token) (release (b_WC b) path token)
              | None => mret_st (Ok None)
              end
  | None => mret_st (Ok None)
  end.

(** ** ControlSVNBackend *)

(** Bypassing the durable intent is refused. *)
Definition Lock_ (path comment : string) (replace : bool) : M S (result err (option Lock)) :=
  mret_st (Err (EControl CDurableRequired)).

Definition relative (path : string) : result err string :=
  if negb (IsAbs (b_WC b)) || negb (IsAbs path) then Err (EControl CAbsolute)
  else match Rel (b_WC b) path with Some rel => Ok rel | None => Err ERel end.

Definition replacementPayload (rel : string) (i : LockIntent) : Replacement :=
  let meta := li_Metadata i in
  Repl (li_RepoID i) rel (md_PreviousToken meta) (md_PassportID meta) (md_InstanceUID meta) (modeString (li_Mode i)).

Definition validateAcquisition (i : LockIntent) : option err :=
  let meta := li_Metadata i in
  match li_Acquisition i with
  | Some a =>
      require (b_FenceAcquisitions b && bool_decide (tk_Type a = TicketArm) && bool_decide (tk_ClientID a = li_ClientID i))
              (EControl CAcquisitionActor) >>?
      validateTicket a >>?
      validateUUID (md_AcquisitionID meta) >>?
      let? p := decodeStrict x_execution (tk_Payload a) in
      require (bool_decide (ex_RepoID p = li_RepoID i) && bool_decide (ex_Path p = li_Path i)
               && bool_decide (ex_Comment p = FormatComment meta)) (EControl CAcquisitionBinding)
  | None => require (bool_decide (md_AcquisitionID meta = "") && negb (bool_decide (li_Stage i = SSettling)))
                    (EControl CAcquisitionMissing)
  end.

Definition validateReplacementTicket (rel : string) (i : LockIntent) : option err :=
  let p := replacementPayload rel i in
  match li_Mode i with
  | ModeAcquire =>
      require (match li_Ticket i with None => true | Some _ => false end && bool_decide (md_PreviousToken (li_Metadata i) = ""))
              (EControl CFreshData) >>?
      validateReplacement (Repl (rp_RepoID p) (rp_Path p) "validation-only" (rp_PassportID p) (rp_InstanceUID p) "renew")
  | _ =>
      validateReplacement p >>?
      match li_Ticket i with
      | None => C CTicketMissing
      | Some t =>
          validateTicket t >>?
          let? payload := decodeStrict x_replacement (tk_Payload t) in
          require (bool_decide (tk_Type t = TicketPrepare) && bool_decide (tk_ClientID t = li_ClientID i)
                   && bool_decide (payload = p)) (EControl CTicketMismatch)
      end
  end.

(** The stage is one of the five by its type. *)
Definition ValidateLockIntent (path : string) (i : LockIntent) : option err :=
  let? rel := relative path in
  match b_Client b with
  | None => C CBinding
  | Some c =>
      let meta := li_Metadata i in
      require (bool_decide (li_RepoID i = b_RepoID b) && bool_decide (li_ClientID i = b_ClientID b) && bool_decide (li_Path i = rel))
              (EControl CBinding) >>?
      require (match sv_confirmLock c with Some _ => true | None => false end) (EControl CNoReceipts) >>?
      validateAcquisition i >>?
      validateUUID (li_ClientID i) >>? validateUUID (li_RepoID i) >>?
      validateUUID (md_PassportID meta) >>? validateUUID (md_InstanceUID meta) >>?
      require (negb (IsZero (md_IssuedAt meta)) && After (md_ExpiresAt meta) (md_IssuedAt meta)
               && negb (Before (md_HardExpiresAt meta) (md_ExpiresAt meta))) (EControl CLifetime) >>?
      validateReplacementTicket rel i
  end.

(** A fresh ticket under two new UUIDs. *)
Definition freshTicket (typ : string) (payload : string) (now : Time) : M S (result err Ticket) :=
  let! op := ask x_newUUID in
  let! req := ask x_newUUID in
  mret_st (NewTicket op req typ (b_ClientID b) (Some payload) now).

Definition whenNeeded (need : bool) (m : M S (result err Ticket)) : M S (result err (option Ticket)) :=
  if need then let! r := m in mret_st (match r with Ok t => Ok (Some t) | Err e => Err e end)
  else mret_st (Ok None).

Definition NewLockIntent (path : string) (meta0 : Metadata) (mode : Mode) (now : Time) : M S (result err LockIntent) :=
  match relative path with
  | Err e => mret_st (Err e)
  | Ok rel =>
      let! meta := (if b_FenceAcquisitions b then let! id := ask x_newUUID in mret_st (setAcquisitionID id meta0)
                    else mret_st meta0) in
      let! acquisition := whenNeeded (b_FenceAcquisitions b)
        (freshTicket TicketArm (x_marshalExecution (Exec (b_RepoID b) rel (FormatComment meta))) now) in
      match acquisition with
      | Err e => mret_st (Err e)
      | Ok acquisition =>
          let i := Intent acquisition SPrepare (b_RepoID b) (b_ClientID b) rel mode meta None in
          let! ticket := whenNeeded (negb (bool_decide (mode = ModeAcquire)))
            (freshTicket TicketPrepare (x_marshalReplacement (replacementPayload rel i)) now) in
          match ticket with
          | Err e => mret_st (Err e)
          | Ok ticket =>
              let i := Intent acquisition SPrepare (b_RepoID b) (b_ClientID b) rel mode meta ticket in
              mret_st (match ValidateLockIntent path i with Some e => Err e | None => Ok i end)
          end
      end
  end.

(** The guard every mutating method starts with. *)
Definition guarded {A} (fail : err -> A) (path : string) (i : LockIntent) (stages : list Stage) (e : cerr) (m : M S A) : M S A :=
  match ValidateLockIntent path i with
  | Some e => mret_st (fail e)
  | None => if negb (bool_decide (li_Stage i ∈ stages)) then mret_st (fail (EControl e)) else m
  end.

Definition PrepareLockIntent (path : string) (i : LockIntent) : M S (option err) :=
  guarded Some path i [SPrepare] CNotPreparing
    (let! e := match li_Ticket i with Some t => PreparePassportReplacement t | None => mret_st None end in
     match e with
     | Some e => mret_st (Some e)
     | None => match li_Acquisition i with Some a => PassportExecution a | None => ask x_ctxErr end
     end).

Definition CancelLockIntent (path : string) (i : LockIntent) : M S (option err) :=
  guarded Some path i [SCanceling] CNotDurable
    (let! c := ask x_ctxErr in
     match c with
     | Some e => mret_st (Some e)
     | None => match li_Ticket i with None => mret_st None | Some t => CancelPassportPreparation t end
     end).

(** [svn lock] without [--force]; the guard has seen the client. *)
Definition lockCommand (path : string) (i : LockIntent) : M S (option err) :=
  match b_Client b with
  | None => mret_st (C CNoClient)
  | Some c =>
      let comment := FormatComment (li_Metadata i) in
      send (fun _ => WLock path comment false) (sv_lockWithComment c (b_WC b) path comment false)
  end.

Definition AcquireLockIntent (path : string) (i : LockIntent) : M S (option err) :=
  guarded Some path i [SLocking] CNotDurable (lockCommand path i).

(** Token, owner and comment of this very intent. *)
Definition proves (i : LockIntent) (l : Lock) : bool :=
  negb (bool_decide (l_Token l = "")) && bool_decide (l_Owner l = li_ClientID i)
  && bool_decide (l_Comment l = FormatComment (li_Metadata i)).

Definition AcquireLockIntentReceipt (path : string) (i : LockIntent) : M S (result err (option Lock)) :=
  guarded Err path i [SLocking] CNotDurable
    (match b_Client b with
     | None => mret_st (Err (EControl CNoClient))
     | Some c =>
         match sv_acquireLock c with
         | None => let! e := AcquireLockIntent path i in mret_st (match e with Some e => Err e | None => Ok None end)
         | Some acquire =>
             let comment := FormatComment (li_Metadata i) in
             let! r := send (fun _ => WLock path comment false) (acquire (b_WC b) path comment) in
             match r with
             | Err e => mret_st (Err e)
             | Ok proof =>
                 let! e := ask x_ctxErr in
                 mret_st (match e, proof with
                          | Some e, _ => Err e
                          | None, None => Ok None
                          | None, Some l => if proves i l then Ok (Some l) else Err (EControl CReceiptMismatch)
                          end)
             end
         end
     end).

Definition ConfirmLockIntent (path : string) (i : LockIntent) : M S (result err (option Lock)) :=
  match ValidateLockIntent path i with
  | Some e => mret_st (Err e)
  | None =>
      match b_Client b with
      | Some (Build_SvnClient _ _ _ _ _ (Some confirm) _ _ _) =>
          let! r := ask (confirm (b_WC b) path (FormatComment (li_Metadata i))) in
          mret_st (match r with
                   | Err e => Err e
                   | Ok None => Err EUncertain
                   | Ok (Some l) => if proves i l then Ok (Some l) else Err EUncertain
                   end)
      | _ => mret_st (Err (EControl CNoReceipts))
      end
  end.

(** The judgement of a fresh observation: [true] says the completed acquisition
    no longer holds the path. *)
Definition judgeObservation (i : LockIntent) (local remote : option Lock) : result err (option Lock * bool) :=
  let comment := FormatComment (li_Metadata i) in
  match remote with
  | None => Ok (None, true)
  | Some r =>
      if negb (bool_decide (l_Owner r = li_ClientID i)) || negb (bool_decide (l_Comment r = comment)) then Ok (None, true)
      else match local with
           | None => Err EUncertain
           | Some l =>
               if bool_decide (l_Token r = "") || negb (bool_decide (l_Token l = l_Token r))
                  || negb (bool_decide (l_Owner l = l_Owner r)) || negb (bool_decide (l_Comment l = comment))
               then Err EUncertain else Ok (Some r, false)
           end
  end.

Definition ReconcileCompletedLockIntent (path : string) (i : LockIntent) : M S (result err (option Lock * bool)) :=
  guarded Err path i [SChecking] CNotDurable
    (match b_Client b with
     | None => mret_st (Err (EControl CNoClient))
     | Some c =>
         match sv_observation c with
         | None => let! r := ConfirmLockIntent path i in mret_st (match r with Ok l => Ok (l, false) | Err e => Err e end)
         | Some read =>
             let! r := ask (read (b_WC b) path) in
             mret_st (match r with Err e => Err e | Ok (local, remote) => judgeObservation i local remote end)
         end
     end).

Definition SettleLockIntent (path : string) (i : LockIntent) : M S (option err) :=
  match ValidateLockIntent path i with
  | Some e => mret_st (Some e)
  | None =>
      match li_Acquisition i with
      | None => mret_st (C CNotDurable)
      | Some a =>
          if negb (bool_decide (li_Stage i = SSettling)) && negb (bool_decide (li_Stage i = SCanceling)) then mret_st (C CNotDurable)
          else PassportExecution (setType TicketSettle a)
      end
  end.

(** [Inspect] lets the server reap a declared expiry before the decision. *)
Definition Inspect (path : string) : M S (result err (option Lock)) :=
  let! r := svn_Inspect path in
  match r with
  | Ok (Some l) =>
      if negb (b_FenceAcquisitions b) then mret_st r
      else match ParseComment (l_Comment l) with
           | None => mret_st r
           | Some _ =>
               match relative path with
               | Err e => mret_st (Err e)
               | Ok rel =>
                   let! op := ask x_newUUID in
                   let! req := ask x_newUUID in
                   let! t := ask x_wallNow in
                   match NewTicket op req TicketExpire (b_ClientID b) (Some (x_marshalExecution (Exec (b_RepoID b) rel ""))) t with
                   | Err e => mret_st (Err e)
                   | Ok ticket =>
                       let! e := PassportExecution ticket in
                       match e with Some e => mret_st (Err e) | None => svn_Inspect path end
                   end
               end
           end
  | _ => mret_st r
  end.

(** ** The backend as the manager sees it *)
Definition intentBackend : IntentBackend S := {|
  ib_new := NewLockIntent;
  ib_validate := ValidateLockIntent;
  ib_prepare := PrepareLockIntent;
  ib_cancel := CancelLockIntent;
  ib_acquire := AcquireLockIntent;
  ib_acquireReceipt := Some AcquireLockIntentReceipt;
  ib_confirm := ConfirmLockIntent;
  ib_reconcile := ReconcileCompletedLockIntent;
  ib_settle := Some SettleLockIntent
|}.

(** The manager's world with this backend in it. *)
Definition controlEnv : Env S := {|
  e_now := e_now; e_wallNow := e_wallNow; e_ctxErr := e_ctxErr; e_newUUID := e_newUUID;
  e_inspect := Inspect;
  e_lock := Lock_;
  e_unlock := Unlock;
  e_fs := e_fs; e_readStore := e_readStore; e_dies := e_dies;
  e_receipt := Some ReleaseToken;
  e_intent := Some intentBackend;
  e_ownership := e_ownership; e_heartbeatOwnership := e_heartbeatOwnership; e_restoreWritable := e_restoreWritable;
  e_marshalMeta := e_marshalMeta; e_unmarshalMeta := e_unmarshalMeta;
  e_isAborted := IsAbortedPreparation;
  e_formatTime := e_formatTime
|}.

End Backend.
