(* ===== verification/ControlProps.v ===== *)
(** * ControlProps: what the control backend promises and keeps

    [IntentContract] is the interface between the passport manager and a durable
    lock backend; [control_backend_contract] shows that the backend of
    ControlBackend implements it, and [control_hard_deadline] discharges with it
    the hypothesis of the manager's lifetime theorem.  [control_wire_discipline]
    bounds what the backend sends. *)
From S2P Require Import Prelude GoStrings Passport PassportProofs PassportProps ControlTickets ControlBackend.
From Stdlib Require Import Ascii String.

Open Scope string_scope.
Open Scope go_scope.

(** ** The interface *)
Section Contract.
  Context {V : Type} `{E : !Env V}.

(** The metadata of an intent, up to the acquisition identifier the backend adds. *)
Definition sameIdentity (m m' : Metadata) : Prop :=
  md_PassportID m' = md_PassportID m /\ md_InstanceUID m' = md_InstanceUID m /\ md_PreviousToken m' = md_PreviousToken m /\
  md_RealmID m' = md_RealmID m /\ md_IssuedAt m' = md_IssuedAt m /\ md_ExpiresAt m' = md_ExpiresAt m /\
  md_HardExpiresAt m' = md_HardExpiresAt m.

(** A lock that belongs to the intent. *)
Definition provesIntent (i : LockIntent) (l : Lock) : Prop :=
  l_Token l <> "" /\ l_Owner l = li_ClientID i /\ l_Comment l = FormatComment (li_Metadata i).

Record IntentContract (b : IntentBackend V) : Prop := {
  (** a fresh intent is in its first stage, keeps what it was given and validates *)
  ic_new path meta mode t w i w' : ib_new b path meta mode t w = (Ok i, w') ->
    li_Stage i = SPrepare /\ li_Mode i = mode /\ sameIdentity meta (li_Metadata i) /\ ib_validate b path i = None;
  (** validity survives the stages the manager moves an intent through *)
  ic_advance path i stage : ib_validate b path i = None -> (stage = SSettling -> is_Some (li_Acquisition i)) ->
    ib_validate b path (setStage stage i) = None;
  (** a lock is only ever reported for the intent it belongs to *)
  ic_receipt receipt path i w l w' : ib_acquireReceipt b = Some receipt -> receipt path i w = (Ok (Some l), w') -> provesIntent i l;
  ic_confirm path i w l w' : ib_confirm b path i w = (Ok l, w') -> exists l', l = Some l' /\ provesIntent i l';
  ic_reconcile path i w l w' : ib_reconcile b path i w = (Ok (Some l, false), w') -> provesIntent i l;
  (** only a completed acquisition may be declared gone *)
  ic_gone path i w l w' : ib_reconcile b path i w = (Ok (l, true), w') -> l = None /\ li_Stage i = SChecking
}.

Lemma contract_keeps_deadlines : (forall b, e_intent = Some b -> IntentContract b) -> KeepsDeadlines (W:=V).
Proof.
  intros H b path meta mode t w i w' Hb Hn. destruct (ic_new b (H b Hb) _ _ _ _ _ _ _ Hn) as (_ & _ & Hs & _).
  unfold sameIdentity in Hs. naive_solver.
Qed.

End Contract.

Section Props.
  Context {W : Type} `{!Wire W} {base : Env (BW W)}.
  Variable b : ControlSVNBackend W.
  Notation S := (BW W).

(** ** Runs *)
Lemma let_inv {A B} (m : M S A) (k : A -> M S B) s r : mbind_st m k s = r -> exists a s1, m s = (a, s1) /\ k a s1 = r.
Proof. unfold mbind_st. destruct (m s) as [a s1]. intros <-. by exists a, s1. Qed.

(** Events [m] adds, newest first, are all allowed by [K]. *)
Definition sends {A} (K : wireEvent -> Prop) (m : M S A) : Prop :=
  forall s, exists new, bw_wire (snd (m s)) = (new ++ bw_wire s)%list /\ Forall K new.

Lemma sends_ret {A} K (a : A) : sends K (mret_st a).
Proof. intros s. by exists []. Qed.

Lemma sends_ask {A} K (f : W -> A * W) : sends K (ask f).
Proof. intros s. exists []. unfold ask. by destruct (f (bw_world s)). Qed.

Lemma sends_send {A} (K : wireEvent -> Prop) e (f : W -> A * W) : (forall a, K (e a)) -> sends K (send e f).
Proof. intros H s. unfold send. destruct (f (bw_world s)) as [a w]. exists [e a]. split; [done|]. by constructor. Qed.

Lemma sends_bind {A B} K (m : M S A) (k : A -> M S B) : sends K m -> (forall a, sends K (k a)) -> sends K (mbind_st m k).
Proof.
  intros Hm Hk s. destruct (Hm s) as (n1 & H1 & F1). unfold mbind_st. destruct (m s) as [a s1]. cbn in H1.
  destruct (Hk a s1) as (n2 & H2 & F2). exists (n2 ++ n1)%list. split; [by rewrite H2, H1, app_assoc|by apply Forall_app].
Qed.

#[local] Hint Resolve sends_ret sends_ask sends_send sends_bind : filees.

Lemma sends_exchange (K : wireEvent -> Prop) t ref acc : (forall a, K (WExchange t a)) -> sends K (exchange t ref acc).
Proof.
  intros H. unfold exchange. destruct x_exchange; auto with filees.
Qed.

#[local] Hint Resolve sends_exchange : filees.

(** An answer that may be believed: valid, of this ticket, and a success. *)
Definition confirmed (t : Ticket) (e : wireEvent) : Prop :=
  exists r, e = WExchange t (Ok r) /\ validateResult r = None /\ boundTo r t = true /\ rs_Status r = "ok".

Lemma exchange_success t ref acc s s' : (forall r, ref r <> None) -> exchange t ref acc s = (None, s') ->
  exists e, bw_wire s' = e :: bw_wire s /\ confirmed t e.
Proof.
  intros Href. unfold exchange. destruct x_exchange as [f|]; [|done]. intros (answer & s1 & H1 & H2)%let_inv.
  unfold send in H1. destruct (f t (bw_world s)) as [a w]. injection H1 as <- <-. injection H2 as H2 <-.
  exists (WExchange t a). split; [done|]. destruct a as [r|e]; [|done].
  autorewrite with filees in H2. destruct H2 as (H2 & H3 & H4). exists r. split_and!; [done..|].
  destruct (bool_decide (rs_Status r = "ok")) eqn:Hs; [by bool_to_prop|by destruct (Href r)].
Qed.

Lemma refusedPreparation_fails t r : refusedPreparation t r <> None.
Proof. unfold refusedPreparation. case_all; done. Qed.

Lemma prepare_success t s s' : PreparePassportReplacement t s = (None, s') ->
  exists e, bw_wire s' = e :: bw_wire s /\ confirmed t e.
Proof.
  unfold PreparePassportReplacement. destruct x_exchange; [|done]. destruct (validateTicket t); [done|].
  destruct (negb _); [done|]. destruct (decodeStrict _ _); [|done]. apply exchange_success, refusedPreparation_fails.
Qed.

Lemma execution_success t s s' : PassportExecution t s = (None, s') ->
  exists e, bw_wire s' = e :: bw_wire s /\ confirmed t e.
Proof.
  unfold PassportExecution. destruct x_exchange; [|done]. destruct (negb _); [done|]. destruct (validateTicket t); [done|].
  destruct (decodeStrict _ _); [|done]. by apply exchange_success.
Qed.

(** ** The contract *)
Lemma validate_advance path i stage : ValidateLockIntent b path i = None -> (stage = SSettling -> is_Some (li_Acquisition i)) ->
  ValidateLockIntent b path (setStage stage i) = None.
Proof.
  unfold ValidateLockIntent. destruct (relative b path) as [rel|e]; [|done]. destruct (b_Client b) as [c|]; [|done].
  rewrite !andThen_None. intros (H1 & H2 & H3 & H) Hs. split_and!; try done; try apply H. clear - H3 Hs.
  unfold validateAcquisition in *. cbn [setStage li_Acquisition li_Metadata li_ClientID li_RepoID li_Path li_Stage].
  destruct (li_Acquisition i); [exact H3|]. apply require_None in H3. apply require_None. bool_to_prop. apply andb_true_iff.
  split; [by apply bool_decide_eq_true_2|]. apply negb_true_iff, bool_decide_eq_false_2. intros ->.
  destruct (Hs eq_refl); discriminate.
Qed.

Lemma newIntent_sound path meta mode t s i s' : NewLockIntent b path meta mode t s = (Ok i, s') ->
  li_Stage i = SPrepare /\ li_Mode i = mode /\ sameIdentity meta (li_Metadata i) /\ ValidateLockIntent b path i = None.
Proof.
  unfold NewLockIntent. destruct (relative b path) as [rel|e]; [|done].
  intros (m1 & s1 & Hm & (acq & s2 & _ & H)%let_inv)%let_inv. destruct acq as [acq|e]; [|done].
  apply let_inv in H as (tk & s3 & _ & H). destruct tk as [tk|e]; [|done].
  destruct (ValidateLockIntent _ _ _) eqn:Hv; injection H as H1 <-; [discriminate H1|]. subst i.
  split_and!; [done..| |exact Hv]. cbn [li_Metadata]. destruct (b_FenceAcquisitions b).
  - apply let_inv in Hm as (id & s0 & _ & [= <- _]). by repeat split.
  - injection Hm as <- _. by repeat split.
Qed.

Lemma guarded_Ok {A} path i stages e (m : M S (result err A)) s a s' :
  guarded b Err path i stages e m s = (Ok a, s') ->
  ValidateLockIntent b path i = None /\ li_Stage i ∈ stages /\ m s = (Ok a, s').
Proof. unfold guarded. destruct (ValidateLockIntent _ _ _); [done|]. case_bool_decide; [done|done]. Qed.

Lemma proves_sound i l : proves i l = true -> provesIntent i l.
Proof. unfold proves, provesIntent. intros H. by bool_to_prop. Qed.

Lemma confirm_sound path i s l s' : ConfirmLockIntent b path i s = (Ok l, s') -> exists l', l = Some l' /\ provesIntent i l'.
Proof.
  unfold ConfirmLockIntent. destruct (ValidateLockIntent _ _ _); [done|]. destruct (b_Client b) as [[? ? ? ? [confirm|] ? ? ?]|]; [|done..].
  intros (r & s1 & _ & H)%let_inv. injection H as H _. destruct r as [[l0|]|e]; [|done..].
  destruct (proves i l0) eqn:Hp; [|done]. injection H as <-. exists l0. by split; [|apply proves_sound].
Qed.

Lemma receipt_sound path i s l s' : AcquireLockIntentReceipt b path i s = (Ok (Some l), s') -> provesIntent i l.
Proof.
  unfold AcquireLockIntentReceipt. intros (_ & _ & H)%guarded_Ok. destruct (b_Client b) as [c|]; [|done].
  destruct (sv_acquireLock c) as [acquire|].
  - apply let_inv in H as (r & s1 & _ & H). destruct r as [proof|e]; [|done]. apply let_inv in H as (e & s2 & _ & H).
    destruct e; [done|]. destruct proof as [l0|]; [|done]. destruct (proves i l0) eqn:Hp; [|done]. injection H as -> _.
    by apply proves_sound.
  - apply let_inv in H as (e & s1 & _ & H). by destruct e.
Qed.

Lemma judge_sound i local remote r : judgeObservation i local remote = Ok r ->
  match r with (Some l, false) => provesIntent i l | (l, true) => l = None | _ => False end.
Proof.
  unfold judgeObservation. destruct remote as [r0|]; [|by intros [= <-]].
  destruct (negb _ || negb _) eqn:H1; [by intros [= <-]|]. destruct local as [l|]; [|done].
  destruct (_ || _ || _ || _) eqn:H2; [done|]. intros [= <-]. bool_to_prop. unfold provesIntent. by split_and!.
Qed.

Lemma reconcile_sound path i s r s' : ReconcileCompletedLockIntent b path i s = (Ok r, s') ->
  li_Stage i = SChecking /\ match r with (Some l, false) => provesIntent i l | (l, true) => l = None | _ => False end.
Proof.
  unfold ReconcileCompletedLockIntent. intros (_ & Hs & H)%guarded_Ok. split; [set_solver|].
  destruct (b_Client b) as [c|]; [|done]. destruct (sv_observation c) as [read|].
  - apply let_inv in H as (o & s1 & _ & H). destruct o as [[local remote]|e]; [|done].
    injection H as H _. by apply judge_sound in H.
  - apply let_inv in H as (o & s1 & H1 & H). destruct o as [l|e]; [|done]. injection H as <- _.
    apply confirm_sound in H1 as (l' & -> & Hl). exact Hl.
Qed.

(** C7. The control backend implements the contract the manager relies on: a
    fresh intent is unsent, carries the caller's identity, lease and hard
    deadline unchanged and validates; validity survives every stage the manager
    moves it through; a lock is reported, by the acquire receipt, the
    confirmation or the reconciliation, only with a token, this client as owner
    and this intent's comment; and only a completed acquisition is declared
    gone. *)
Theorem control_backend_contract : IntentContract (E:=controlEnv b) (intentBackend b).
Proof.
  constructor.
  - intros path meta mode t w i w' H. by apply (newIntent_sound path meta mode t w i w').
  - intros path i stage. apply validate_advance.
  - intros receipt path i w l w' [= <-] H. by apply (receipt_sound path i w l w').
  - intros path i w l w' H. by apply (confirm_sound path i w l w').
  - intros path i w l w' H. by apply (reconcile_sound path i w (Some l, false) w') in H as [_ H].
  - intros path i w l w' H. apply (reconcile_sound path i w (l, true) w') in H as [H1 H2]. by destruct l.
Qed.

(** The lifetime bound of the manager over this backend, without a hypothesis
    about it: no passport ever outlives its hard deadline. *)
Lemma control_hard_deadline cfg storePath up (s : st S) : live (E:=controlEnv b) cfg storePath up s ->
  (forall k p, up = true -> passports s !! k = Some p -> (p_ExpiresAt p <= p_HardExpiresAt p)%Z) /\
  (forall l p, disk s = Some l -> p ∈ l -> (p_ExpiresAt p <= p_HardExpiresAt p)%Z).
Proof.
  intros H. destruct (live_inv (E:=controlEnv b) cfg storePath up s H) as [Hd HI].
  assert (KeepsDeadlines (E:=controlEnv b)) as HK.
  { intros b' path meta mode t w i w' [= <-] Hn.
    apply newIntent_sound in Hn as (_ & _ & (_ & _ & _ & _ & _ & H1 & H2) & _). by split. }
  split.
  - intros k p Hup Hp. by apply (proj1 (proj2 (proj2 (inv_good _ _ _ _ (HI Hup) k p Hp)))).
  - intros l p Hl Hp. by apply (proj1 (proj2 (proj2 (dur_clean _ _ Hd l p Hl Hp)))).
Qed.

(** This backend conforms, so a restart of the manager over it recovers everything. *)
Lemma control_conforming : (forall s : S, fst (e_newUUID (Env := base) s) <> "") -> Conforming (E:=controlEnv b).
Proof.
  intros Hu. split.
  - exact Hu.
  - intros b' path meta mode t w i w' [= <-] Hn.
    apply newIntent_sound in Hn as (_ & _ & (H1 & H2 & _) & Hv). by rewrite H1, H2.
  - intros b' path i stage [= <-]. apply validate_advance.
Qed.

(** ** What is sent *)
Inductive intentCall := CPrepare | CCancel | CAcquire | CReceipt | CConfirm | CReconcile | CSettle.

Definition errOf {A} (r : result err A) : option err := match r with Ok _ => None | Err e => Some e end.

Definition run (call : intentCall) (path : string) (i : LockIntent) : M S (option err) :=
  match call with
  | CPrepare => PrepareLockIntent b path i
  | CCancel => CancelLockIntent b path i
  | CAcquire => AcquireLockIntent b path i
  | CReceipt => let! r := AcquireLockIntentReceipt b path i in mret_st (errOf r)
  | CConfirm => let! r := ConfirmLockIntent b path i in mret_st (errOf r)
  | CReconcile => let! r := ReconcileCompletedLockIntent b path i in mret_st (errOf r)
  | CSettle => SettleLockIntent b path i
  end.

(** What may be sent for an intent, by its durable stage. *)
Inductive permitted (path : string) (i : LockIntent) : wireEvent -> Prop :=
| pm_replace t a : li_Stage i = SPrepare -> li_Ticket i = Some t -> permitted path i (WExchange t a)
| pm_arm t a : li_Stage i = SPrepare -> li_Acquisition i = Some t -> permitted path i (WExchange t a)
| pm_lock : li_Stage i = SLocking -> permitted path i (WLock path (FormatComment (li_Metadata i)) false)
| pm_cancel t c a : li_Stage i = SCanceling -> li_Ticket i = Some t -> NewPassportCancellation t = Ok c -> permitted path i (WExchange c a)
| pm_settle t a : li_Stage i = SSettling \/ li_Stage i = SCanceling -> li_Acquisition i = Some t ->
    permitted path i (WExchange (setType TicketSettle t) a).

Definition licensed (path : string) (i : LockIntent) (e : wireEvent) : Prop :=
  ValidateLockIntent b path i = None /\ permitted path i e.

Lemma guarded_sends {A} (fail : err -> A) path i stages e (m : M S A) :
  (ValidateLockIntent b path i = None -> li_Stage i ∈ stages -> sends (licensed path i) m) ->
  sends (licensed path i) (guarded b fail path i stages e m).
Proof.
  intros H. unfold guarded. destruct (ValidateLockIntent _ _ _) eqn:Hv; [apply sends_ret|].
  case_bool_decide; [by apply H|apply sends_ret].
Qed.

Lemma execution_sends K t : (forall a, K (WExchange t a)) -> sends K (PassportExecution t).
Proof.
  intros H. unfold PassportExecution.
  repeat case_match; auto with filees.
Qed.

Lemma replacement_sends K t : (forall a, K (WExchange t a)) -> sends K (PreparePassportReplacement t).
Proof.
  intros H. unfold PreparePassportReplacement.
  repeat case_match; auto with filees.
Qed.

Lemma acquire_sends path i : sends (licensed path i) (AcquireLockIntent b path i).
Proof.
  apply guarded_sends. intros Hv Hs%list_elem_of_singleton. unfold lockCommand. destruct (b_Client b); [|apply sends_ret].
  apply sends_send. intros a. split; [done|]. by apply pm_lock.
Qed.

Lemma receipt_sends path i : sends (licensed path i) (AcquireLockIntentReceipt b path i).
Proof.
  apply guarded_sends. intros Hv Hs%list_elem_of_singleton. destruct (b_Client b) as [c|]; [|apply sends_ret].
  destruct (sv_acquireLock c).
  - apply sends_bind; [apply sends_send; intros a; split; [done|by apply pm_lock]|]. intros [proof|e]; [|apply sends_ret].
    apply sends_bind; [apply sends_ask|intros; apply sends_ret].
  - apply sends_bind; [apply acquire_sends|intros; apply sends_ret].
Qed.

Lemma confirm_sends K path i : sends K (ConfirmLockIntent b path i).
Proof.
  unfold ConfirmLockIntent. destruct (ValidateLockIntent _ _ _); [apply sends_ret|].
  destruct (b_Client b) as [[? ? ? ? [confirm|] ? ? ?]|]; auto with filees.
Qed.

Lemma reconcile_sends path i : sends (licensed path i) (ReconcileCompletedLockIntent b path i).
Proof.
  apply guarded_sends. intros _ _. destruct (b_Client b) as [c|]; [|apply sends_ret]. destruct (sv_observation c).
  - auto with filees.
  - auto using confirm_sends with filees.
Qed.

Lemma prepare_sends path i : sends (licensed path i) (PrepareLockIntent b path i).
Proof.
  apply guarded_sends. intros Hv Hs%list_elem_of_singleton. apply sends_bind.
  - destruct (li_Ticket i) as [t|] eqn:Ht; [|apply sends_ret]. apply replacement_sends. intros a. split; [done|by apply pm_replace].
  - intros [e|]; [apply sends_ret|]. destruct (li_Acquisition i) as [t|] eqn:Ht; [|apply sends_ask].
    apply execution_sends. intros a. split; [done|by apply pm_arm].
Qed.

Lemma cancel_sends path i : sends (licensed path i) (CancelLockIntent b path i).
Proof.
  apply guarded_sends. intros Hv Hs%list_elem_of_singleton. apply sends_bind; [apply sends_ask|].
  intros [e|]; [apply sends_ret|]. destruct (li_Ticket i) as [t|] eqn:Ht; [|apply sends_ret].
  unfold CancelPassportPreparation. destruct (NewPassportCancellation t) as [c|e] eqn:Hc; [|apply sends_ret].
  apply sends_exchange. intros a. split; [done|by eapply pm_cancel].
Qed.

Lemma settle_sends path i : sends (licensed path i) (SettleLockIntent b path i).
Proof.
  unfold SettleLockIntent. destruct (ValidateLockIntent _ _ _) eqn:Hv; [apply sends_ret|].
  destruct (li_Acquisition i) as [t|] eqn:Ht; [|apply sends_ret]. destruct (negb _ && negb _) eqn:Hs; [apply sends_ret|].
  apply execution_sends. intros a. split; [done|]. apply pm_settle; [|done].
  apply andb_false_iff in Hs as [Hs|Hs]; bool_to_prop; auto.
Qed.

Lemma prepare_confirmed path i s s' : PrepareLockIntent b path i s = (None, s') ->
  exists new, bw_wire s' = (new ++ bw_wire s)%list /\
    Forall2 confirmed (option_list (li_Acquisition i) ++ option_list (li_Ticket i)) new.
Proof.
  unfold PrepareLockIntent, guarded. destruct (ValidateLockIntent _ _ _); [done|]. case_bool_decide; [|done]. cbn [negb].
  intros (e & s1 & H1 & H2)%let_inv. destruct e; [done|].
  assert (exists n, bw_wire s1 = (n ++ bw_wire s)%list /\ Forall2 confirmed (option_list (li_Ticket i)) n) as (n & Hn & Fn).
  { destruct (li_Ticket i) as [t|].
    - apply prepare_success in H1 as (e & He & Hc). exists [e]. split; [done|]. by repeat constructor.
    - injection H1 as <-. exists []. by split; [|constructor]. }
  destruct (li_Acquisition i) as [t|].
  - apply execution_success in H2 as (e & He & Hc). exists (e :: n). split; [by rewrite He, Hn|]. by constructor.
  - exists n. split; [|done]. unfold ask in H2. destruct (x_ctxErr _). by injection H2 as _ <-.
Qed.

(** Every method of the backend the manager can reach: the seven on an intent, and
    the others of [controlEnv]. *)
Inductive backendCall :=
| OnIntent (c : intentCall) (path : string) (i : LockIntent)
| CallNew (path : string) (meta : Metadata) (mode : Mode) (now : Time)
| CallInspect (path : string)
| CallNeedsLock (wc : string)
| CallLock (path comment : string) (force : bool)
| CallUnlock (path : string)
| CallReleaseToken (path token : string).

Definition runCall (c : backendCall) : M S (option err) :=
  match c with
  | OnIntent c path i => run c path i
  | CallNew path meta mode now => let! r := NewLockIntent b path meta mode now in mret_st (errOf r)
  | CallInspect path => let! r := Inspect b path in mret_st (errOf r)
  | CallNeedsLock wc => let! r := NeedsLockPaths b wc in mret_st (errOf r)
  | CallLock path comment force => let! r := Lock_ path comment force in mret_st (errOf r)
  | CallUnlock path => Unlock b path
  | CallReleaseToken path token => let! r := ReleaseToken b path token in mret_st (errOf r)
  end.

(** The request to reap a declared expiry of the path that is inspected. *)
Definition expiryRequest (path : string) (t : Ticket) : Prop :=
  exists rel op req now, b_FenceAcquisitions b = true /\ relative b path = Ok rel /\
    NewTicket op req TicketExpire (b_ClientID b) (Some (x_marshalExecution (Exec (b_RepoID b) rel ""))) now = Ok t.

Definition allowed (c : backendCall) (e : wireEvent) : Prop :=
  match c with
  | OnIntent _ path i => licensed path i e
  | CallInspect path => exists t a, e = WExchange t a /\ expiryRequest path t
  | CallUnlock path => e = WUnlock path
  | CallReleaseToken path token => e = WRelease path token
  | CallNew _ _ _ _ | CallNeedsLock _ | CallLock _ _ _ => False
  end.

Lemma freshTicket_sends K typ payload now : sends K (freshTicket b typ payload now).
Proof. unfold freshTicket. auto 6 with filees. Qed.

Lemma whenNeeded_sends K need m : sends K m -> sends K (whenNeeded need m).
Proof. intros H. unfold whenNeeded. destruct need; auto with filees. Qed.

#[local] Hint Resolve freshTicket_sends whenNeeded_sends : filees.

Lemma new_sends K path meta mode now : sends K (NewLockIntent b path meta mode now).
Proof.
  unfold NewLockIntent. destruct (relative b path); [|apply sends_ret]. apply sends_bind; [destruct (b_FenceAcquisitions b); auto with filees|].
  intros m. apply sends_bind; [auto with filees|]. intros [acq|e]; [|apply sends_ret]. cbv zeta. apply sends_bind; [auto with filees|].
  intros [tk|e]; apply sends_ret.
Qed.

Lemma svn_Inspect_sends K path : sends K (svn_Inspect b path).
Proof. unfold svn_Inspect. destruct (b_Client b); auto with filees. Qed.

Lemma inspect_sends path : sends (allowed (CallInspect path)) (Inspect b path).
Proof.
  unfold Inspect. apply sends_bind; [apply svn_Inspect_sends|]. intros [[l|]|e]; [|apply sends_ret..].
  destruct (b_FenceAcquisitions b) eqn:Hf; cbn [negb]; [|apply sends_ret]. destruct (ParseComment (l_Comment l)); [|apply sends_ret].
  destruct (relative b path) as [rel|e] eqn:Hr; [|apply sends_ret].
  apply sends_bind; [apply sends_ask|]. intros op. apply sends_bind; [apply sends_ask|]. intros req. apply sends_bind; [apply sends_ask|]. intros t.
  destruct (NewTicket _ _ _ _ _ _) as [tk|e] eqn:Ht; [|apply sends_ret]. apply sends_bind.
  - apply execution_sends. intros a. exists tk, a. split; [done|]. by exists rel, op, req, t.
  - intros [e|]; [apply sends_ret|apply svn_Inspect_sends].
Qed.

(** C34. The backend sends nothing it has no license for.  In every world, a method
    on an intent sends only for an intent that validates, and only what its
    durable stage allows - the intent's own replacement and arming tickets while
    preparing, one unforced lock of its path under its comment while locking, the
    cancellation derived from its ticket while canceling, the settlement of its
    acquisition while settling or canceling, nothing while checking.  Of the other
    methods, inspection sends at most a request to reap a declared expiry of that
    very path, and only where acquisitions are fenced; an unlock and a release of a
    token send just that; making an intent, listing paths and the plain lock, which
    is refused, send nothing.  A preparation that reports success has sent each of
    the intent's tickets once and holds for each a valid successful answer bound to
    that very ticket. *)
Theorem control_wire_discipline c path i s :
  (exists new, bw_wire (snd (runCall c s)) = (new ++ bw_wire s)%list /\ Forall (allowed c) new) /\
  (fst (PrepareLockIntent b path i s) = None ->
   exists new, bw_wire (snd (PrepareLockIntent b path i s)) = (new ++ bw_wire s)%list /\
     Forall2 confirmed (option_list (li_Acquisition i) ++ option_list (li_Ticket i)) new).
Proof.
  split.
  - revert s. change (sends (allowed c) (runCall c)). destruct c as [c p j| | | | | |]; cbn [runCall].
    + change (sends (licensed p j) (run c p j)). destruct c; cbn [run];
        auto using prepare_sends, cancel_sends, acquire_sends, receipt_sends, confirm_sends, reconcile_sends, settle_sends with filees.
    + apply sends_bind; [apply new_sends|intros; apply sends_ret].
    + apply sends_bind; [apply inspect_sends|intros; apply sends_ret].
    + unfold NeedsLockPaths. destruct (b_Client b); [|auto with filees]. apply sends_bind; [|intros; apply sends_ret].
      apply sends_bind; [apply sends_ask|]. intros [paths|e]; [|apply sends_ret]. apply sends_bind; [apply sends_ask|intros; apply sends_ret].
    + apply sends_bind; [apply sends_ret|intros; apply sends_ret].
    + unfold Unlock. destruct (b_Client b); [|apply sends_ret]. by apply sends_send.
    + apply sends_bind; [|intros; apply sends_ret]. unfold ReleaseToken. destruct (b_Client b) as [cl|]; [|apply sends_ret].
      destruct (sv_releaseLock cl); [|apply sends_ret]. by apply sends_send.
  - destruct (PrepareLockIntent b path i s) as [r s'] eqn:H. cbn. intros ->. by apply prepare_confirmed in H.
Qed.

End Props.

(** ** A concrete exchange: a renewal is minted, prepared and acquired *)
Module ControlDemo.

(** The world counts the UUIDs it made. *)
Definition World := nat.

Definition comment : string := CommentPrefix ++ "pass-1".

#[export] Instance wire : Wire World := {|
  x_marshalExecution := ex_Comment;
  x_marshalReplacement := rp_Mode;
  x_marshalTicket := fun t => Some (tk_OperationID t);
  x_marshalCancel := fun t => Some (tk_OperationID t);
  x_execution := fun _ => Some (Exec "repo" "a.dwg" comment);
  x_replacement := fun _ => Some (Repl "repo" "a.dwg" "tok-0" "pass-1" "inst" "renew");
  x_cancel := fun _ => None;
  x_executionResult := fun _ => Some (ExecResult "repo" "a.dwg" comment "armed");
  x_replacementResult := fun _ => Some (ReplResult "repo" "a.dwg" "tok-0" "prepared");
  x_cancelResult := fun _ => None;
  x_isUUID := fun _ => true;
  x_sha1UUID := fun s => s;
  x_parseTime := fun _ => Some 1%Z;
  x_formatTime := fun _ => "t";
  x_otherTicket := fun _ => None;
  x_otherResult := fun _ => None;
  x_inCatalogue := fun _ _ => true;
  x_newUUID := fun w => ("uuid", S w);
  x_ctxErr := fun w => (None, w);
  x_wallNow := fun w => (1%Z, w);
  x_exchange := Some (fun t w =>
    (Ok (MkResult Schema (tk_OperationID t) (tk_RequestID t) (tk_Type t) "ok" "t" "{}" None), w))
|}.

Definition client : SvnClient World := {|
  sv_lockInfo := fun _ _ w => (Ok None, w);
  sv_lockWithComment := fun _ _ _ _ w => (None, w);
  sv_unlock := fun _ _ w => (None, w);
  sv_propList := fun _ _ w => (Ok ∅, w);
  sv_confirmLock := Some (fun _ _ c w => (Ok (Some (MkLock "tok-1" "client" c)), w));
  sv_acquireLock := Some (fun _ _ c w => (Ok (Some (MkLock "tok-1" "client" c)), w));
  sv_releaseLock := None;
  sv_observation := None
|}.

#[export] Instance base : Env (BW World) := {|
  e_now := fun w => (1%Z, w);
  e_wallNow := fun w => (1%Z, w);
  e_ctxErr := fun w => (None, w);
  e_newUUID := fun w => ("pass-1", w);
  e_inspect := fun _ w => (Ok None, w);
  e_lock := fun _ _ _ w => (Ok None, w);
  e_unlock := fun _ w => (None, w);
  e_fs := fun _ w => (None, w);
  e_readStore := fun w => (None, w);
  e_dies := fun w => (false, w);
  e_receipt := None;
  e_intent := None;
  e_ownership := None;
  e_heartbeatOwnership := None;
  e_restoreWritable := fun _ w => (None, w);
  e_marshalMeta := md_PassportID;
  e_unmarshalMeta := fun _ => None;
  e_isAborted := fun _ _ => false;
  e_formatTime := fun _ => "t"
|}.

Definition backend : ControlSVNBackend World := Backend World true (Some client) "/wc" "repo" "client".
Definition meta : Metadata := Meta "" "pass-1" "inst" "tok-0" "realm" 1%Z 2%Z 3%Z.
Definition minted := NewLockIntent backend "/wc/a.dwg" meta ModeRenew 1%Z (MkBW 0 []).
Definition intent : LockIntent :=
  match fst minted with Ok i => i | Err _ => Intent None SSettling "" "" "" ModeAcquire meta None end.

Example minted_ok : is_ok (fst minted) = true /\ li_Stage intent = SPrepare.
Proof. vm_compute. done. Qed.

Example prepared_ok :
  let r := PrepareLockIntent backend "/wc/a.dwg" intent (snd minted) in
  fst r = None /\ List.length (bw_wire (snd r)) = 2.
Proof. vm_compute. done. Qed.

Example acquired_ok :
  fst (AcquireLockIntentReceipt backend "/wc/a.dwg" (setStage SLocking intent) (snd minted))
  = Ok (Some (MkLock "tok-1" "client" comment)).
Proof. vm_compute. done. Qed.

Example early_lock_refused : fst (AcquireLockIntent backend "/wc/a.dwg" intent (snd minted)) = C CNotDurable.
Proof. vm_compute. done. Qed.

End ControlDemo.
