(* ===== verification/ServerBase.v ===== *)
(** * ServerBase: what the repository worker's files share

    Errors, identifiers and canonical paths of src/pkg/repoworker, and the monad of
    a worker process, which may die before any call it makes to the outside.

    The classes hold what is not this code: google/uuid ([Ids]), the JSON codec of
    a lock comment ([Comments]) and the death of the process ([Mortal]). *)
From S2P Require Import Prelude GoStrings Passport.
From Stdlib Require Import Ascii String.

Open Scope string_scope.
Open Scope go_scope.

(** The sentinel errors the worker's callers test with [errors.Is], and one
    constructor for each kind of plain error. *)
Inductive serr :=
| EDenied            (* ErrPassportReplacementDenied *)
| EStale             (* ErrPassportReplacementStale *)
| EOwnerUnavailable  (* ErrPathOwnerUnavailable *)
| EArchiveReadOnly   (* ErrArchiveReadOnly *)
| ERunning           (* errExecutionRunning *)
| ENotExist          (* os.ErrNotExist *)
| ELockBusy          (* ErrFileLockBusy *)
| ENotFound          (* ErrLockReleaseNotFound *)
| EForbidden         (* ErrLockReleaseForbidden *)
| ETerminal          (* ErrLockReleaseTerminal *)
| EInvalidState      (* ErrLockReleaseInvalidState *)
| ECanceled          (* the context's error *)
| EIO (code : nat)   (* an error of the operating system or of a command *)
| EPath | EUuid | ELockID | ERoot | EOutput | EMismatch
| EMetadata | ELifetime | ERecord | ESession | EActor | ETicket | EGuard | EUnsafe | EForced | EExecutor
| EExpired | ENotArmed | EUnhealthy | EGrantConflict | EBoundary | EBarrier | EOwner | EInactive | ESelf
| EDuplicate | EAuthority
| EView | EIdentity | ERollback | EViewConflict | EPublisher | EAccess | EPolicy | EPurpose | EState
| ESpecialPurpose    (* ErrSpecialPurposeDeletion *)
| EHasUploads        (* ErrRepositoryHasUploadChannels *)
| EMany (es : list serr).

Fixpoint serr_is (target e : serr) : bool :=
  match e with
  | EMany es => (fix any l := match l with [] => false | x :: r => serr_is target x || any r end) es
  | EDenied => match target with EDenied => true | _ => false end
  | EStale => match target with EStale => true | _ => false end
  | EOwnerUnavailable => match target with EOwnerUnavailable => true | _ => false end
  | ERunning => match target with ERunning => true | _ => false end
  | ENotExist => match target with ENotExist => true | _ => false end
  | ENotFound => match target with ENotFound => true | _ => false end
  | EForbidden => match target with EForbidden => true | _ => false end
  | ETerminal => match target with ETerminal => true | _ => false end
  | _ => false
  end.

(** [errors.Join]: nil when there is no error. *)
Definition errorsJoin (es : list serr) : option serr := match es with [] => None | _ => Some (EMany es) end.

Class Ids := { isUUID : string -> bool; uuidString : string -> string }.

(** [uuid.Parse(id)] succeeds and prints back as [id]. *)
Definition canonicalUUID `{Ids} (id : string) : bool := isUUID id && bool_decide (uuidString id = id).

Class Comments := { marshalMeta : Metadata -> string; unmarshalMeta : string -> option Metadata }.

Definition FormatComment `{Comments} : Metadata -> string := formatComment marshalMeta.
Definition ParseComment `{Comments} : string -> option Metadata := parseComment unmarshalMeta.

(** [filepath.Join] of any number of elements, on Unix. *)
Fixpoint JoinPath (elem : list string) : string :=
  match elem with
  | [] => ""
  | e :: rest => if bool_decide (e = "") then JoinPath rest else Clean (Join elem "/")
  end.

(** [filepath.Dir] and [filepath.Base], on Unix. *)
Definition Dir (p : string) : string :=
  Clean (taken (Z.to_nat (LastIndexByte p "/" + 1)) p).

Definition Base (p : string) : string :=
  if bool_decide (p = "") then "."
  else let t := TrimRight p "/" in
       let b := dropn (Z.to_nat (LastIndexByte t "/" + 1)) t in
       if bool_decide (b = "") then "/" else b.

(** ** lock_release_store.go: the shared field rules *)
Definition validateLockReleasePath (value : string) : option serr :=
  if bool_decide (value = "") || (4096 <? len value)%Z || negb (bool_decide (value = TrimSpace value))
     || HasPrefix value "/" || ContainsAny value (str [0x5C; 0; 0x0D; 0x0A]%Z)
     || negb (bool_decide (Clean value = value)) || bool_decide (value = ".") || HasPrefix value "../"
  then Some EPath else None.

Definition validateObservedLockID (value : string) : option serr :=
  if bool_decide (value = "") || (2048 <? len value)%Z || negb (bool_decide (value = TrimSpace value))
     || ContainsAny value (str [0; 0x0D; 0x0A]%Z)
  then Some ELockID else None.

Definition validateLockReleaseUUID `{Ids} (value : string) : option serr := require (isUUID value) EUuid.

(** ** A process that may die before each call *)
Class Mortal (W : Type) := { dies : W -> bool * W }.

Definition ask {W A} `{!Mortal W} (f : W -> A * W) : MC W A := fun w =>
  let '(d, w1) := dies w in
  if d then (None, w1) else let '(a, w2) := f w1 in (Some a, w2).

Lemma wpc_asked {W A} `{!Mortal W} (D : W -> Prop) (f : W -> A * W) (Q : A -> W -> Prop) w :
  (forall w1, dies w = (true, w1) -> D w1) ->
  (forall w1, dies w = (false, w1) -> Q (f w1).1 (f w1).2) ->
  wpc D (ask f) Q w.
Proof.
  intros Hd Hq. unfold wpc, ask. destruct (dies w) as [[] w1]; [by apply Hd|].
  specialize (Hq w1 eq_refl). by destruct (f w1).
Qed.

(** [if err != nil { return err }] between effectful steps. *)
Definition orElse {W} (e : option serr) (k : MC W (option serr)) : MC W (option serr) :=
  match e with Some e => ret (Some e) | None => k end.

Notation "'ok?' x := r 'in' k" := (match r with Ok x => k | Err e => ret (Err e) end)
  (at level 10, x pattern, r at level 100, k at level 200) : go_scope.
Notation "'nil?' x := r 'in' k" := (match r with Ok x => k | Err e => ret (Some e) end)
  (at level 10, x pattern, r at level 100, k at level 200) : go_scope.

(** ** Files of one directory *)
Lemma Split_snoc c d w : hasByte w c = false -> Split c (d ++ String c w) = (Split c d ++ [w])%list.
Proof.
  intros Hw. induction d as [|a d IH]; simpl.
  - by rewrite Ascii.eqb_refl, Split_single.
  - destruct (Ascii.eqb a c); [by rewrite IH|]. rewrite IH. pose proof (Split_nonempty c d).
    by destruct (Split c d).
Qed.

Definition cleanOut (rooted : bool) (stack : list string) : string :=
  if rooted then "/" ++ Join (rev stack) "/" else Join (rev stack) "/".

Lemma HasPrefix_root d t : d <> "" -> HasPrefix (d ++ t) "/" = HasPrefix d "/".
Proof. by destruct d. Qed.

Lemma Clean_snoc d w : d <> "" -> plainSegment w ->
  Clean (d ++ "/" ++ w) = cleanOut (HasPrefix d "/") (w :: fold_left (cleanStep (HasPrefix d "/")) (Split "/" d) []).
Proof.
  intros Hd Hw. pose proof Hw as (H1 & _ & _ & H4). unfold Clean.
  rewrite bool_decide_eq_false_2 by (by destruct d). rewrite HasPrefix_root by done.
  change (d ++ "/" ++ w) with (d ++ String "/"%char w). rewrite Split_snoc, fold_left_app by done.
  cbn [fold_left]. rewrite cleanStep_plain by done. unfold cleanOut.
  destruct (HasPrefix d "/"); [done|]. rewrite bool_decide_eq_false_2; [done|].
  set (st := fold_left _ _ _).
  assert (cleanStack false st) as Hst.
  { apply cleanStack_fold; [apply Forall_forall; intros; by eapply Split_no_sep|by exists [], 0]. }
  apply (cleanStack_step false st w H4) in Hst. rewrite cleanStep_plain in Hst by done.
  apply cleanStack_segments in Hst. destruct (rev (w :: st)) as [|x l] eqn:E; [by apply app_eq_nil in E as [_ ?]|].
  apply Forall_cons in Hst as [[? ?] _]. by apply Join_head_prefix.
Qed.

Lemma cleanOut_inj r r' st st' : cleanStack r st -> cleanStack r' st' -> st <> [] -> st' <> [] ->
  cleanOut r st = cleanOut r' st' -> r = r' /\ st = st'.
Proof.
  intros H%cleanStack_segments H'%cleanStack_segments Hn Hn'.
  assert (Hrev : forall l : list string, l <> [] -> rev l <> []).
  { intros [|x l] ? E; [done|]. by apply app_eq_nil in E as [_ ?]. }
  assert (Hj : forall l, l <> [] -> Forall (fun w => w <> "" /\ hasByte w "/" = false) (rev l) ->
            HasPrefix (Join (rev l) "/") "/" = false /\ Split "/" (Join (rev l) "/") = rev l).
  { intros l Hl%Hrev Hf. split.
    - destruct (rev l) as [|x ?]; [done|]. apply Forall_cons in Hf as [[? ?] _]. by apply Join_head_prefix.
    - change "/" with (String "/"%char ""). apply Split_Join; [done|]. eapply Forall_impl; [exact Hf|]. naive_solver. }
  destruct (Hj st Hn H) as [Hp Hs], (Hj st' Hn' H') as [Hp' Hs'].
  assert (Hroot : forall s, HasPrefix ("/" ++ s) "/" = true) by (intros; apply HasPrefix_spec; by eexists).
  unfold cleanOut. destruct r, r'; intros He.
  - apply (sapp_inj_l "/") in He. rewrite <- He, Hs in Hs'. split; [done|]. by rewrite <- (rev_involutive st), Hs', rev_involutive.
  - rewrite <- He, Hroot in Hp'. done.
  - rewrite He, Hroot in Hp. done.
  - rewrite He, Hs' in Hs. split; [done|]. by rewrite <- (rev_involutive st), <- Hs, rev_involutive.
Qed.

Lemma Clean_snoc_inj d d' w w' : d <> "" -> d' <> "" -> plainSegment w -> plainSegment w' ->
  Clean (d ++ "/" ++ w) = Clean (d' ++ "/" ++ w') ->
  w = w' /\ forall t, plainSegment t -> Clean (d ++ "/" ++ t) = Clean (d' ++ "/" ++ t).
Proof.
  intros Hd Hd' Hw Hw'. rewrite !Clean_snoc by done. intros He.
  assert (Hst : forall r p x, plainSegment x -> cleanStack r (x :: fold_left (cleanStep r) (Split "/" p) [])).
  { intros r p x Hx. rewrite <- (cleanStep_plain r) by done. apply cleanStack_step; [by apply Hx|].
    apply cleanStack_fold; [apply Forall_forall; intros; by eapply Split_no_sep|by exists [], 0]. }
  apply cleanOut_inj in He as [Hr He]; [|by apply Hst..|done|done].
  assert (Hc : forall (x y : string) (l l' : list string), x :: l = y :: l' -> x = y /\ l = l') by (intros; by simplify_eq).
  apply Hc in He as [-> Hst']. split; [done|]. intros t Ht. rewrite !Clean_snoc by done. by rewrite Hst', Hr.
Qed.

Lemma JoinPath_two d w : d <> "" -> JoinPath [d; w] = Clean (d ++ "/" ++ w).
Proof. intros Hd. unfold JoinPath. by rewrite bool_decide_eq_false_2. Qed.

Lemma Clean_nonempty p : Clean p <> "".
Proof. unfold Clean. case_bool_decide; [done|]. cbv zeta. case_bool_decide; done. Qed.
