(* ===== verification/RealmRecords.v ===== *)
(** * RealmRecords: the canonical records of the server and who may act on them

    Models the record types and validation of src/pkg/repoworker (worker.go
    [Session], authority.go, archive_policy.go, realm_alias.go, realm_grants.go,
    passport_replacement.go, passport_cleanup_authority.go) and the authorization
    decisions taken from them: [client], [readRealmRecord], [loadActiveRepository],
    [validateRealmGrantRecord], [authorizeAccess], [authorizePassportCleanup].

    The class [Records] reads and decodes the files of the service working copy.
    An administrative release of an archive carries an audit record; its check
    (archive_release_audit.go) and the normalisation of a realm's branding
    (pkg/realmbranding) are fields too: no theorem depends on them. *)
From S2P Require Import Prelude GoStrings Passport Naming ServerBase.
From Stdlib Require Import Ascii String.

Open Scope string_scope.
Open Scope go_scope.

(** clientview.Repository: one entry of a client's projection. *)
Record Repository := Repo {
  v_RepoID : string;
  v_DisplayName : string;
  v_URL : string;
  v_Access : string;
  v_State : string;
  v_OwnerRealmID : string;
  v_AttachmentPolicy : string;
  v_MetadataDigest : string;
  v_EditingPolicy : string;
  v_Purpose : string;
  v_ParentRepoID : string
}.

#[export] Instance Repository_eq_dec : EqDecision Repository.
Proof. solve_decision. Defined.

(** The grant fields of [Session] ([CanCreateRepositories] is not used here). *)
Record Session := Sess { se_ClientID : string; se_RealmID : string; se_Repositories : list Repository }.

Record clientIdentity := Client { ci_Schema : string; ci_ClientID : string; ci_RealmID : string; ci_State : string }.

(** [Branding] and [Release] are opaque here. *)
Record realmRecord := Realm {
  re_Schema : string;
  re_RealmID : string;
  re_State : string;
  re_Alias : string;
  re_DirectoryVisibility : string;
  re_PublicBranding : option string
}.

Record archivePolicy := Archive {
  ap_Schema : string;
  ap_OperationID : string;
  ap_RepositoryUUID : string;
  ap_Revision : Z;
  ap_Epoch : Z;
  ap_State : string;
  ap_StartedAt : Time;
  ap_Release : option string
}.

Record repositoryRecord := RepoRec {
  rr_Schema : string;
  rr_RepoID : string;
  rr_OwnerRealmID : string;
  rr_DisplayName : string;
  rr_URL : string;
  rr_State : string;
  rr_CreatedAt : Time;
  rr_EditingPolicy : string;
  rr_Purpose : string;
  rr_ParentRepoID : string;
  rr_ArchivePolicy : option archivePolicy
}.

Record RealmGrantRecord := Grant {
  gr_Schema : string;
  gr_RepoID : string;
  gr_OwnerRealmID : string;
  gr_RecipientRealmID : string;
  gr_Access : string;
  gr_State : string;
  gr_PathOwnerPolicy : string;
  gr_PathOwnerCutoffRevision : option Z;
  gr_PathOwnerRepositoryUUID : string;
  gr_CreatedAt : Time;
  gr_UpdatedAt : Time
}.

Definition RepositorySchema : string := "filees.repository/v1".
Definition RealmGrantSchema : string := "filees.realm-grant/v1".
Definition RealmSchema : string := "filees.realm/v1".
Definition ClientSchema : string := "filees.client-instance/v1".
Definition ArchiveSchema : string := "filees.repository-archive-policy/v1".

Class Records (W : Type) := {
  rd_client : string -> W -> result serr clientIdentity * W;
  rd_realm : string -> W -> result serr realmRecord * W;
  rd_repository : string -> W -> result serr repositoryRecord * W;
  rd_grant : string -> W -> result serr RealmGrantRecord * W;
  rd_normalizeBranding : string -> result serr string;
  rd_validateRelease : string -> archivePolicy -> option serr;
  rd_verifyRelease : string -> string -> string -> W -> option serr * W
}.

Section Authority.
  Context {W : Type} `{!Ids} `{!UnicodeTables} `{!Mortal W} `{!Records W}.

Definition validateSession (s : Session) : option serr :=
  require (negb (bool_decide (TrimSpace (se_ClientID s) = ""))) ESession >>?
  require (isUUID (se_RealmID s)) ESession.

(** ** Reading one record *)
Definition client (ServiceWC clientID : string) : MC W (result serr clientIdentity) :=
  if negb (IsAbs ServiceWC) then ret (Err EDenied)
  else if negb (isUUID clientID) then ret (Err EDenied)
  else
    let* r := ask (rd_client (JoinPath [ServiceWC; "admin"; "clients"; clientID ++ ".json"])) in
    ok? c := r in
    if negb (bool_decide (ci_Schema c = ClientSchema)) || negb (bool_decide (ci_ClientID c = clientID))
       || (negb (bool_decide (ci_State c = "active")) && negb (bool_decide (ci_State c = "revoked")))
    then ret (Err EDenied)
    else if negb (isUUID (ci_RealmID c)) then ret (Err EDenied)
    else ret (Ok c).

Definition normalizeRealm (r : realmRecord) : result serr realmRecord :=
  match (if bool_decide (re_Alias r = "") then Ok ""
         else match RealmAlias.Normalize (re_Alias r) with Ok a => Ok a | Err _ => Err ERecord end) with
  | Err e => Err e
  | Ok alias =>
      if negb (bool_decide (re_DirectoryVisibility r = "")) && negb (bool_decide (re_DirectoryVisibility r = "hidden"))
         && negb (bool_decide (re_DirectoryVisibility r = "listed"))
      then Err ERecord
      else match re_PublicBranding r with
           | None => Ok (Realm (re_Schema r) (re_RealmID r) (re_State r) alias (re_DirectoryVisibility r) None)
           | Some b => match rd_normalizeBranding b with
                       | Err e => Err e
                       | Ok b => Ok (Realm (re_Schema r) (re_RealmID r) (re_State r) alias (re_DirectoryVisibility r) (Some b))
                       end
           end
  end.

Definition readRealmRecord (path : string) : MC W (result serr realmRecord) :=
  let* r := ask (rd_realm path) in
  ok? record := r in ret (normalizeRealm record).

Definition realmPath (ServiceWC realmID : string) : string :=
  JoinPath [ServiceWC; "admin"; "realms"; realmID ++ ".json"].

(** The record of [realmID] is readable, its own and active. *)
Definition realmActive (ServiceWC realmID : string) : MC W bool :=
  let* r := readRealmRecord (realmPath ServiceWC realmID) in
  ret (match r with
       | Err _ => false
       | Ok realm => bool_decide (re_Schema realm = RealmSchema) && bool_decide (re_RealmID realm = realmID)
                     && bool_decide (re_State realm = "active")
       end).

(** ** Repositories and archives *)
Definition validArchiveState (s : string) : bool :=
  bool_decide (s = "preparing") || bool_decide (s = "freezing") || bool_decide (s = "archived")
  || bool_decide (s = "releasing") || bool_decide (s = "released").

Definition validateArchive (p : archivePolicy) : option serr :=
  require (bool_decide (ap_Schema p = ArchiveSchema) && negb (ap_Revision p <? 0)%Z && negb (ap_Epoch p =? 0)%Z
           && negb (IsZero (ap_StartedAt p)) && validArchiveState (ap_State p)) ERecord >>?
  require (canonicalUUID (ap_OperationID p)) ERecord >>?
  require (canonicalUUID (ap_RepositoryUUID p)) ERecord >>?
  (if bool_decide (ap_State p = "releasing") || bool_decide (ap_State p = "released")
   then match ap_Release p with None => Some ERecord | Some audit => rd_validateRelease audit p end
   else match ap_Release p with None => None | Some _ => Some ERecord end).

Definition archiveProtected (r : repositoryRecord) : bool :=
  match rr_ArchivePolicy r with Some p => negb (bool_decide (ap_State p = "released")) | None => false end.

Definition archiveReadOnly (r : repositoryRecord) : bool :=
  archiveProtected r
  && match rr_ArchivePolicy r with Some p => negb (bool_decide (ap_State p = "freezing")) | None => false end.

Definition validateRepositoryArchive (r : repositoryRecord) (ServiceWC : string) : MC W (option serr) :=
  match rr_ArchivePolicy r with
  | None => ret None
  | Some p =>
      orElse (validateArchive p)
        (match ap_Release p with
         | None => ret None
         | Some audit => ask (rd_verifyRelease ServiceWC (rr_RepoID r) audit)
         end)
  end.

Definition repositoryRecordPath (ServiceWC repoID : string) : result serr string :=
  if bool_decide (repoID = "") || bool_decide (repoID = ".") || bool_decide (repoID = "..")
     || ContainsAny repoID "/\" || hasByte repoID (chr 0)
  then Err EPath
  else
    let root := JoinPath [ServiceWC; "admin"; "repositories"] in
    let target := JoinPath [root; repoID ++ ".json"] in
    match Rel root target with
    | None => Err EPath
    | Some rel => if bool_decide (rel = repoID ++ ".json") then Ok target else Err EPath
    end.

Definition loadActiveRepository (ServiceWC repoID : string) : MC W (result serr repositoryRecord) :=
  ok? path := repositoryRecordPath ServiceWC repoID in
  let* r := ask (rd_repository path) in
  ok? record := r in
  if negb (bool_decide (rr_Schema record = RepositorySchema)) || negb (bool_decide (rr_RepoID record = repoID))
     || negb (bool_decide (rr_State record = "active"))
  then ret (Err ERecord)
  else
    let* e := validateRepositoryArchive record ServiceWC in
    ret (match e with Some e => Err e | None => Ok record end).

(** ** Grants *)
Definition realmGrantPath (ServiceWC repoID recipientRealmID : string) : result serr string :=
  if negb (isUUID repoID) then Err EUuid
  else if negb (isUUID recipientRealmID) then Err EUuid
  else Ok (JoinPath [ServiceWC; "admin"; "grants"; repoID; recipientRealmID ++ ".json"]).

Definition validateRealmGrantRecord (g : RealmGrantRecord) : option serr :=
  (if bool_decide (gr_PathOwnerRepositoryUUID g = "") then None
   else require (isUUID (gr_PathOwnerRepositoryUUID g)
                 && bool_decide (is_Some (gr_PathOwnerCutoffRevision g))) ERecord) >>?
  require (match gr_PathOwnerCutoffRevision g with Some n => negb (n <? 0)%Z | None => true end) ERecord >>?
  require (bool_decide (gr_Schema g = RealmGrantSchema) && negb (IsZero (gr_CreatedAt g))
           && negb (IsZero (gr_UpdatedAt g))) ERecord >>?
  require (isUUID (gr_RepoID g)) ERecord >>?
  require (isUUID (gr_OwnerRealmID g)) ERecord >>?
  require (isUUID (gr_RecipientRealmID g)) ERecord >>?
  require (negb (bool_decide (gr_OwnerRealmID g = gr_RecipientRealmID g))) ERecord >>?
  (if bool_decide (gr_State g = "active") then
     require (bool_decide (gr_Access g = "r") || bool_decide (gr_Access g = "rw")) ERecord >>?
     require (Bool.eqb (bool_decide (gr_Access g = "rw"))
                       (bool_decide (gr_PathOwnerPolicy g = "first_committer"))) ERecord
   else require (bool_decide (gr_State g = "revoked") && bool_decide (gr_Access g = "")
                 && bool_decide (gr_PathOwnerPolicy g = "")) ERecord).

(** ** Decisions *)
Definition sessionAllows (s : Session) (repoID : string) (write : bool) : bool :=
  existsb (fun repo => bool_decide (v_RepoID repo = repoID) && bool_decide (v_State repo = "active")
                       && (bool_decide (v_Access repo = "rw") || (negb write && bool_decide (v_Access repo = "r"))))
          (se_Repositories s).

(** An effective grant of [repoID] to the session's realm, read afresh. *)
Definition grantAllows (g : RealmGrantRecord) (repo : repositoryRecord) (repoID realmID : string) (write : bool) : bool :=
  match validateRealmGrantRecord g with Some _ => false | None =>
    bool_decide (gr_RepoID g = repoID) && bool_decide (gr_OwnerRealmID g = rr_OwnerRealmID repo)
    && bool_decide (gr_RecipientRealmID g = realmID) && bool_decide (gr_State g = "active")
    && (bool_decide (gr_Access g = "rw") || (negb write && bool_decide (gr_Access g = "r")))
  end.

Definition authorizeAccess (ServiceWC : string) (session : Session) (repoID : string) (write : bool) : MC W (option serr) :=
  let realmID := se_RealmID session in
  if negb (IsAbs ServiceWC) || negb (sessionAllows session repoID write) then ret (Some EDenied)
  else
    let* r := client ServiceWC (se_ClientID session) in
    match r with Err _ => ret (Some EDenied) | Ok requester =>
    if negb (bool_decide (ci_State requester = "active")) || negb (bool_decide (ci_RealmID requester = realmID))
    then ret (Some EDenied)
    else
      let* active := realmActive ServiceWC realmID in
      if negb active then ret (Some EDenied)
      else
        let* r := loadActiveRepository ServiceWC repoID in
        match r with Err _ => ret (Some EDenied) | Ok repo =>
        if write && archiveProtected repo then ret (Some EArchiveReadOnly)
        else if bool_decide (rr_OwnerRealmID repo = realmID) then ret None
        else if negb (isUUID (rr_OwnerRealmID repo)) then ret (Some EDenied)
        else
          let* active := realmActive ServiceWC (rr_OwnerRealmID repo) in
          if negb active then ret (Some EDenied)
          else match realmGrantPath ServiceWC repoID realmID with
               | Err _ => ret (Some EDenied)
               | Ok path =>
                   let* g := ask (rd_grant path) in
                   ret (match g with
                        | Err _ => Some EDenied
                        | Ok g => if grantAllows g repo repoID realmID write then None else Some EDenied
                        end)
               end
        end
    end.

Definition authorizeRequester (ServiceWC : string) (session : Session) (repoID : string) : MC W (option serr) :=
  authorizeAccess ServiceWC session repoID true.

Definition AuthorizeOwnershipRead (ServiceWC : string) (session : Session) (repoID : string) : MC W (option serr) :=
  authorizeAccess ServiceWC session repoID false.

Definition LockOwnerRealm (ServiceWC clientID : string) : MC W string :=
  let* r := client ServiceWC clientID in
  ret (match r with Ok identity => ci_RealmID identity | Err _ => "" end).

Definition authorizePassportCleanup (ServiceWC : string) (session : Session) : MC W (option serr) :=
  if negb (IsAbs ServiceWC) then ret (Some EDenied)
  else
    let* r := client ServiceWC (se_ClientID session) in
    match r with Err _ => ret (Some EDenied) | Ok actor =>
    if negb (bool_decide (ci_RealmID actor = se_RealmID session)) || negb (bool_decide (ci_State actor = "active"))
    then ret (Some EDenied)
    else
      let* active := realmActive ServiceWC (se_RealmID session) in
      ret (if active then None else Some EDenied)
    end.

End Authority.
