(* ===== verification/RealmProps.v ===== *)
(** * RealmProps: what the authorization decisions are worth

    [mayAccess] says in terms of records who may read or write a repository;
    [authorizeAccess] is sound for it in any world that answers reads, every
    record it relies on having been read during the call, and exact in a world
    whose records stand still ([Registry]). *)
From S2P Require Import Prelude GoStrings Passport Naming ServerBase RealmRecords.
From Stdlib Require Import Ascii String.

Open Scope string_scope.
Open Scope go_scope.

(** ** Facts: which record was found under which path *)
Record facts := Facts {
  f_client : string -> clientIdentity -> Prop;
  f_realm : string -> realmRecord -> Prop;
  f_repository : string -> repositoryRecord -> Prop;
  f_grant : string -> RealmGrantRecord -> Prop;
  f_release : string -> string -> string -> Prop
}.

Record incl (F G : facts) : Prop := {
  incl_client p c : f_client F p c -> f_client G p c;
  incl_realm p c : f_realm F p c -> f_realm G p c;
  incl_repository p c : f_repository F p c -> f_repository G p c;
  incl_grant p c : f_grant F p c -> f_grant G p c;
  incl_release a b c : f_release F a b c -> f_release G a b c
}.

#[export] Instance incl_preorder : PreOrder incl.
Proof. split; [by intros F|]. intros F G H [] []. split; auto. Qed.

Section Specification.
  Context {ids : Ids} {tables : UnicodeTables} {W : Type} {records : Records W}.
  Implicit Types (F : facts) (wc realmID repoID : string).

Definition clientFact F wc clientID (c : clientIdentity) : Prop :=
  IsAbs wc = true /\ isUUID clientID = true /\
  f_client F (JoinPath [wc; "admin"; "clients"; clientID ++ ".json"]) c /\
  ci_Schema c = ClientSchema /\ ci_ClientID c = clientID /\ (ci_State c = "active" \/ ci_State c = "revoked") /\
  isUUID (ci_RealmID c) = true.

(** A well-formed record of an active realm; the alias does not matter. *)
Definition realmFact F wc realmID : Prop :=
  exists r n, f_realm F (realmPath wc realmID) r /\ normalizeRealm (W:=W) r = Ok n /\
    re_Schema r = RealmSchema /\ re_RealmID r = realmID /\ re_State r = "active".

Definition archiveFact F wc (r : repositoryRecord) : Prop :=
  match rr_ArchivePolicy r with
  | None => True
  | Some p => validateArchive (W:=W) p = None /\
              match ap_Release p with None => True | Some audit => f_release F wc (rr_RepoID r) audit end
  end.

Definition repositoryFact F wc repoID (r : repositoryRecord) : Prop :=
  exists path, repositoryRecordPath wc repoID = Ok path /\ f_repository F path r /\
    rr_Schema r = RepositorySchema /\ rr_RepoID r = repoID /\ rr_State r = "active" /\ archiveFact F wc r.

Definition grantFact F wc repoID realmID owner (write : bool) : Prop :=
  exists path g, realmGrantPath wc repoID realmID = Ok path /\ f_grant F path g /\
    validateRealmGrantRecord g = None /\ gr_RepoID g = repoID /\ gr_OwnerRealmID g = owner /\
    gr_RecipientRealmID g = realmID /\ gr_State g = "active" /\ (gr_Access g = "rw" \/ (write = false /\ gr_Access g = "r")).

Definition projected (s : Session) repoID (write : bool) : Prop :=
  exists v, v ∈ se_Repositories s /\ v_RepoID v = repoID /\ v_State v = "active" /\
    (v_Access v = "rw" \/ (write = false /\ v_Access v = "r")).

(** The session's projection lists the repository, and the canonical records
    agree: an active client of the session's active realm, an active repository
    that is not protected against the write, owned by that realm or granted by
    its owner's active realm. *)
Definition mayAccess F wc (s : Session) repoID (write : bool) : Prop :=
  projected s repoID write /\
  (exists c, clientFact F wc (se_ClientID s) c /\ ci_State c = "active" /\ ci_RealmID c = se_RealmID s) /\
  realmFact F wc (se_RealmID s) /\
  exists repo, repositoryFact F wc repoID repo /\ (write = true -> archiveProtected repo = false) /\
    (rr_OwnerRealmID repo = se_RealmID s \/
     isUUID (rr_OwnerRealmID repo) = true /\ realmFact F wc (rr_OwnerRealmID repo) /\
     grantFact F wc repoID (se_RealmID s) (rr_OwnerRealmID repo) write).

Lemma sessionAllows_spec s repoID write : sessionAllows s repoID write = true <-> projected s repoID write.
Proof.
  unfold sessionAllows, projected. rewrite existsb_exists. setoid_rewrite <- list_elem_of_In.
  split; intros (v & Hv & H); exists v; (split; [done|]).
  - bool_to_prop. split_and!; [done..|]. destruct (bool_decide (v_Access v = "rw")) eqn:E; bool_to_prop; [by left|].
    right. simpl in *. bool_to_prop. done.
  - destruct H as (-> & -> & H). rewrite !bool_decide_eq_true_2 by done. simpl.
    by destruct H as [->|[-> ->]].
Qed.

Lemma grantAllows_spec g repo repoID realmID write :
  grantAllows g repo repoID realmID write = true <->
  validateRealmGrantRecord g = None /\ gr_RepoID g = repoID /\ gr_OwnerRealmID g = rr_OwnerRealmID repo /\
  gr_RecipientRealmID g = realmID /\ gr_State g = "active" /\ (gr_Access g = "rw" \/ (write = false /\ gr_Access g = "r")).
Proof.
  unfold grantAllows. destruct (validateRealmGrantRecord g); [naive_solver|].
  rewrite !andb_true_iff, orb_true_iff, andb_true_iff, negb_true_iff, !bool_decide_eq_true. naive_solver.
Qed.

Lemma mayAccess_read F wc s repoID : mayAccess F wc s repoID true -> mayAccess F wc s repoID false.
Proof.
  intros ((v & ? & ? & ? & [?|[? ?]]) & Hc & Hr & repo & ? & Ha & Ho); [|done]. split; [exists v; naive_solver|].
  split_and!; [done..|]. exists repo. split_and!; [done..|].
  destruct Ho as [?|(? & ? & path & g & ? & ? & ? & ? & ? & ? & ? & [?|[? ?]])]; [by left| |done].
  right. split_and!; [done..|]. exists path, g. naive_solver.
Qed.

End Specification.

(** ** Soundness where reads are answered by a changing world *)
Class Observed (W : Type) `{!Mortal W} `{!Records W} (seen : W -> facts) : Prop := {
  ob_dies w : incl (seen w) (seen (dies w).2);
  ob_client p w : incl (seen w) (seen (rd_client p w).2) /\
    forall c, (rd_client p w).1 = Ok c -> f_client (seen (rd_client p w).2) p c;
  ob_realm p w : incl (seen w) (seen (rd_realm p w).2) /\
    forall c, (rd_realm p w).1 = Ok c -> f_realm (seen (rd_realm p w).2) p c;
  ob_repository p w : incl (seen w) (seen (rd_repository p w).2) /\
    forall c, (rd_repository p w).1 = Ok c -> f_repository (seen (rd_repository p w).2) p c;
  ob_grant p w : incl (seen w) (seen (rd_grant p w).2) /\
    forall c, (rd_grant p w).1 = Ok c -> f_grant (seen (rd_grant p w).2) p c;
  ob_release a b c w : incl (seen w) (seen (rd_verifyRelease a b c w).2) /\
    ((rd_verifyRelease a b c w).1 = None -> f_release (seen (rd_verifyRelease a b c w).2) a b c)
}.

Section Soundness.
  Context {W : Type} {ids : Ids} {tables : UnicodeTables} {mortal : Mortal W} {records : Records W}.
  Context {seen : W -> facts} {observed : Observed W seen}.

(** [m] only adds facts, and its result says [P] of them. *)
Definition finds {A} (m : MC W A) (P : A -> facts -> Prop) : Prop :=
  forall w, wpc (fun w' => incl (seen w) (seen w')) m (fun a w' => incl (seen w) (seen w') /\ P a (seen w')) w.

Lemma finds_ret {A} (a : A) (P : A -> facts -> Prop) : (forall F, P a F) -> finds (ret a) P.
Proof. intros H w. apply wpc_ret. split; [reflexivity|apply H]. Qed.

Lemma finds_bind {A B} (m : MC W A) (k : A -> MC W B) (P : A -> facts -> Prop) (Q : B -> facts -> Prop) :
  finds m P -> (forall a, finds (k a) (fun b F => (exists F0, incl F0 F /\ P a F0) -> Q b F)) -> finds (bind m k) Q.
Proof.
  intros Hm Hk w. apply wpc_bind. specialize (Hm w). unfold wpc in *.
  destruct (m w) as [[a|] w1]; [|done]. destruct Hm as [H1 HP]. specialize (Hk a w1). unfold wpc in Hk.
  destruct (k a w1) as [[b|] w2]; [|by etrans].
  destruct Hk as [H2 HQ]. split; [by etrans|]. apply HQ. by exists (seen w1).
Qed.

Lemma finds_mono {A} (m : MC W A) (P Q : A -> facts -> Prop) : finds m P -> (forall a F, P a F -> Q a F) -> finds m Q.
Proof. intros Hm H w. eapply wpc_mono; [apply Hm|]. naive_solver. Qed.

Lemma finds_ask {A} (f : W -> A * W) (P : A -> facts -> Prop) :
  (forall w, incl (seen w) (seen (f w).2) /\ P (f w).1 (seen (f w).2)) -> finds (ask f) P.
Proof.
  intros H w. pose proof (ob_dies w) as Hd. apply wpc_asked; intros w1 E; rewrite E in Hd; simpl in Hd; [done|].
  destruct (H w1). split; [by etrans|done].
Qed.

Lemma finds_client wc id :
  finds (client wc id) (fun r F => forall c, r = Ok c -> clientFact F wc id c).
Proof.
  unfold client. destruct (IsAbs wc) eqn:Ha; [|by apply finds_ret]. destruct (isUUID id) eqn:Hu; [|by apply finds_ret]. simpl.
  eapply finds_bind; [apply (finds_ask _ (fun r F => forall c, r = Ok c -> f_client F (JoinPath [wc; "admin"; "clients"; id ++ ".json"]) c));
                      intros w; apply ob_client|].
  intros [c|e]; [|by apply finds_ret]. simpl.
  destruct (_ || _ || _) eqn:E; [by apply finds_ret|]. destruct (isUUID (ci_RealmID c)) eqn:Hr; [|by apply finds_ret].
  apply finds_ret. intros F (F0 & Hi & HF) c' [= <-]. bool_to_prop.
  split_and!; [done..|by apply (incl_client _ _ Hi), HF|done|done| |done].
  repeat match goal with H : andb _ _ = false |- _ => apply andb_false_iff in H as [?|?] end; bool_to_prop; auto.
Qed.

Lemma finds_realmActive wc id : finds (realmActive wc id) (fun b F => b = true -> realmFact (W:=W) F wc id).
Proof.
  unfold realmActive, readRealmRecord. eapply finds_bind.
  - eapply (finds_bind _ _ _ (fun r F => forall n, r = Ok n -> exists r0, f_realm F (realmPath wc id) r0 /\ normalizeRealm (W:=W) r0 = Ok n));
      [apply (finds_ask _ (fun r F => forall c, r = Ok c -> f_realm F (realmPath wc id) c)); intros w; apply ob_realm|].
    intros [r|e]; apply finds_ret; [|done]. intros F (F0 & Hi & HF) n Hn. exists r. split; [|done]. by apply (incl_realm _ _ Hi), HF.
  - intros [n|e]; apply finds_ret; [|done]. intros F (F0 & Hi & HF) Hb. destruct (HF n eq_refl) as (r & Hr & Hn).
    bool_to_prop. exists r, n. split; [by apply (incl_realm _ _ Hi)|]. split; [done|].
    unfold normalizeRealm in Hn. repeat case_match; simplify_eq/=; done.
Qed.

Lemma finds_archive wc r : finds (validateRepositoryArchive r wc) (fun e F => e = None -> archiveFact (W:=W) F wc r).
Proof.
  unfold validateRepositoryArchive, archiveFact. destruct (rr_ArchivePolicy r) as [p|]; [|by apply finds_ret].
  destruct (validateArchive p); simpl; [by apply finds_ret|]. destruct (ap_Release p); [|by apply finds_ret].
  apply finds_ask. intros w. destruct (ob_release wc (rr_RepoID r) s w). split; [done|]. intros E. auto.
Qed.

Lemma finds_repository wc id :
  finds (loadActiveRepository wc id) (fun r F => forall repo, r = Ok repo -> repositoryFact (W:=W) F wc id repo).
Proof.
  unfold loadActiveRepository. destruct (repositoryRecordPath wc id) as [path|] eqn:Hp; [|by apply finds_ret].
  eapply finds_bind; [apply (finds_ask _ (fun r F => forall c, r = Ok c -> f_repository F path c)); intros w; apply ob_repository|].
  intros [r|e]; [|by apply finds_ret]. simpl. destruct (_ || _ || _) eqn:E; [by apply finds_ret|].
  eapply finds_bind; [apply finds_archive|]. intros [e|]; apply finds_ret; [done|].
  intros F (F1 & Hi1 & HF1) (F0 & Hi0 & HF0) repo [= <-]. bool_to_prop. exists path. split_and!; [done| |done..|].
  - apply (incl_repository _ _ Hi0). by apply HF0.
  - specialize (HF1 eq_refl). unfold archiveFact in *. destruct (rr_ArchivePolicy r); [|done].
    destruct HF1 as [? HF1]. split; [done|]. destruct (ap_Release a); [|done]. by apply (incl_release _ _ Hi1).
Qed.

(** The decision in facts: what a grant adds to a record that is not the
    session's own. *)
Lemma realmFact_incl F G wc id : incl F G -> realmFact (W:=W) F wc id -> realmFact (W:=W) G wc id.
Proof. intros Hi (r & n & ? & ?). exists r, n. split; [by apply (incl_realm _ _ Hi)|done]. Qed.

Lemma clientFact_incl F G wc id c : incl F G -> clientFact F wc id c -> clientFact G wc id c.
Proof. intros Hi (? & ? & ? & ?). do 2 (split; [done|]). split; [by apply (incl_client _ _ Hi)|done]. Qed.

Lemma repositoryFact_incl F G wc id r : incl F G -> repositoryFact (W:=W) F wc id r -> repositoryFact (W:=W) G wc id r.
Proof.
  intros Hi (p & ? & ? & ? & ? & ? & Ha). exists p. split_and!; try done; [by apply (incl_repository _ _ Hi)|].
  unfold archiveFact in *. destruct (rr_ArchivePolicy r); [|done]. destruct Ha as [? Ha]. split; [done|].
  destruct (ap_Release a); [|done]. by apply (incl_release _ _ Hi).
Qed.

Lemma finds_authorizeAccess wc s repoID write :
  finds (authorizeAccess wc s repoID write) (fun e F => e = None -> mayAccess (W:=W) F wc s repoID write).
Proof.
  unfold authorizeAccess. destruct (IsAbs wc) eqn:Habs; [|by apply finds_ret].
  destruct (sessionAllows s repoID write) eqn:Hs; [|by apply finds_ret]. simpl.
  eapply finds_bind; [apply finds_client|]. intros [c|e]; [|by apply finds_ret].
  destruct (_ || _) eqn:Hc; [by apply finds_ret|].
  eapply finds_bind; [apply finds_realmActive|]. intros []; [|by apply finds_ret]. simpl.
  eapply finds_bind; [apply finds_repository|]. intros [repo|e]; [|by apply finds_ret].
  destruct (write && archiveProtected repo) eqn:Hw; [by apply finds_ret|].
  bool_to_prop. apply sessionAllows_spec in Hs.
  assert (Hw' : write = true -> archiveProtected repo = false) by (intros ->; done).
  case_bool_decide as Ho.
  { apply finds_ret. intros F (F3 & I3 & H3) (F2 & I2 & H2) (F1 & I1 & H1) _.
    split; [done|]. split; [exists c; split; [eapply (clientFact_incl F1); eauto|done]|].
    split; [eapply (realmFact_incl F2); eauto|]. exists repo. split; [eapply (repositoryFact_incl F3); eauto|auto]. }
  destruct (isUUID (rr_OwnerRealmID repo)) eqn:Hu; [|by apply finds_ret]. simpl.
  eapply finds_bind; [apply finds_realmActive|]. intros []; [|by apply finds_ret]. simpl.
  destruct (realmGrantPath wc repoID (se_RealmID s)) as [path|] eqn:Hp; [|by apply finds_ret].
  eapply finds_bind; [apply (finds_ask _ (fun r F => forall c, r = Ok c -> f_grant F path c)); intros w; apply ob_grant|].
  intros [g|e]; apply finds_ret; [|done]. destruct (grantAllows _ _ _ _ _) eqn:Hg; [|done].
  intros F (F5 & I5 & H5) (F4 & I4 & H4) (F3 & I3 & H3) (F2 & I2 & H2) (F1 & I1 & H1) _.
  apply grantAllows_spec in Hg as (?&?&?&?&?&?).
  split; [done|]. split; [exists c; split; [eapply (clientFact_incl F1); eauto|done]|].
  split; [eapply (realmFact_incl F2); eauto|]. exists repo. split; [eapply (repositoryFact_incl F3); eauto|]. split; [done|].
  right. split; [done|]. split; [eapply (realmFact_incl F4); eauto|].
  exists path, g. split; [done|]. split; [apply (incl_grant _ _ I5); by apply H5|done].
Qed.

End Soundness.

(** ** Exactness where the records stand still *)
Record Registry := MkRegistry {
  g_clients : gmap string clientIdentity;
  g_realms : gmap string realmRecord;
  g_repositories : gmap string repositoryRecord;
  g_grants : gmap string RealmGrantRecord
}.

(** The checks of branding and of a release audit are functions of the record. *)
Class Audits := {
  au_normalizeBranding : string -> result serr string;
  au_validateRelease : string -> archivePolicy -> option serr;
  au_verifyRelease : string -> string -> string -> option serr
}.

Definition found {A} (o : option A) : result serr A := match o with Some a => Ok a | None => Err ENotExist end.

#[export] Instance registryMortal : Mortal Registry := {| dies w := (false, w) |}.
#[export] Instance registryRecords `{Audits} : Records Registry := {|
  rd_client p w := (found (g_clients w !! p), w);
  rd_realm p w := (found (g_realms w !! p), w);
  rd_repository p w := (found (g_repositories w !! p), w);
  rd_grant p w := (found (g_grants w !! p), w);
  rd_normalizeBranding := au_normalizeBranding;
  rd_validateRelease := au_validateRelease;
  rd_verifyRelease a b c w := (au_verifyRelease a b c, w)
|}.

Definition standing `{Audits} (w : Registry) : facts :=
  Facts (fun p c => g_clients w !! p = Some c) (fun p c => g_realms w !! p = Some c)
        (fun p c => g_repositories w !! p = Some c) (fun p c => g_grants w !! p = Some c)
        (fun a b c => au_verifyRelease a b c = None).

Lemma found_Ok {A} (o : option A) a : found o = Ok a -> o = Some a.
Proof. destruct o; simpl; naive_solver. Qed.

#[export] Instance registryObserved `{Audits} : Observed Registry standing.
Proof. split; intros; (split; [reflexivity|]) || reflexivity; try (intros; by apply found_Ok); done. Qed.

Section Exact.
  Context {ids : Ids} {tables : UnicodeTables} {audits : Audits}.
  Implicit Types (w : Registry) (wc repoID : string).

Definition answers {A} (m : MC Registry A) w (a : A) : Prop := m w = (Some a, w).

Lemma answers_ret {A} (a : A) w : answers (ret a) w a.
Proof. done. Qed.

Lemma answers_bind {A B} (m : MC Registry A) (k : A -> MC Registry B) w a b :
  answers m w a -> answers (k a) w b -> answers (bind m k) w b.
Proof. unfold answers, bind, mbind_st. by intros ->. Qed.

Lemma answers_ask {A} (f : Registry -> A * Registry) w : (f w).2 = w -> answers (ask f) w (f w).1.
Proof. unfold answers, ask. simpl. destruct (f w); simpl. by intros ->. Qed.

Lemma answers_client w wc id c : clientFact (standing w) wc id c -> answers (client wc id) w (Ok c).
Proof.
  intros (Ha & Hu & Hc & Hs & Hi & Hst & Hr). unfold client. rewrite Ha, Hu. simpl.
  eapply answers_bind; [by apply answers_ask|]. simpl. simpl in Hc. rewrite Hc. simpl.
  rewrite Hs, Hi, Hr, !(bool_decide_eq_true_2 (_ = _)) by done. simpl.
  destruct Hst as [->| ->]; apply answers_ret.
Qed.

Lemma answers_realmActive w wc id : realmFact (W:=Registry) (standing w) wc id -> answers (realmActive wc id) w true.
Proof.
  intros (r & n & Hf & Hn & Hs & Hi & Ha). unfold realmActive, readRealmRecord. eapply answers_bind.
  - eapply answers_bind; [by apply answers_ask|]. simpl. simpl in Hf. rewrite Hf. simpl. rewrite Hn. apply answers_ret.
  - simpl. assert (re_Schema n = re_Schema r /\ re_RealmID n = re_RealmID r /\ re_State n = re_State r) as (-> & -> & ->).
    { unfold normalizeRealm in Hn. repeat case_match; simplify_eq/=; done. }
    rewrite Hs, Hi, Ha, !bool_decide_eq_true_2 by done. apply answers_ret.
Qed.

Lemma answers_repository w wc id r : repositoryFact (W:=Registry) (standing w) wc id r -> answers (loadActiveRepository wc id) w (Ok r).
Proof.
  intros (path & Hp & Hf & Hs & Hi & Ha & Har). unfold loadActiveRepository. rewrite Hp.
  eapply answers_bind; [by apply answers_ask|]. simpl. simpl in Hf. rewrite Hf. simpl.
  rewrite Hs, Hi, Ha, !bool_decide_eq_true_2 by done. simpl. eapply (answers_bind _ _ _ None); [|apply answers_ret].
  unfold validateRepositoryArchive, archiveFact in *. destruct (rr_ArchivePolicy r) as [p|]; [|apply answers_ret].
  destruct Har as [-> Hrel]. simpl. destruct (ap_Release p); [|apply answers_ret].
  simpl in Hrel. unfold answers, ask. simpl. by rewrite Hrel.
Qed.

Lemma authorizeAccess_complete w wc s repoID write :
  mayAccess (W:=Registry) (standing w) wc s repoID write -> answers (authorizeAccess wc s repoID write) w None.
Proof.
  intros (Hs & (c & Hc & Hst & Hre) & Hr & repo & Hrepo & Hw & Ho). unfold authorizeAccess.
  rewrite (proj1 Hc), (proj2 (sessionAllows_spec _ _ _) Hs). simpl.
  eapply answers_bind; [by apply answers_client|]. simpl. rewrite Hst, Hre, !bool_decide_eq_true_2 by done. simpl.
  eapply answers_bind; [by apply answers_realmActive|]. simpl.
  eapply answers_bind; [by apply answers_repository|]. simpl.
  replace (write && archiveProtected repo) with false by (destruct write; [by rewrite Hw|done]).
  case_bool_decide; [apply answers_ret|]. destruct Ho as [|(-> & Hr2 & path & g & Hp & Hg & Hrest)]; [done|]. simpl.
  eapply answers_bind; [by apply answers_realmActive|]. simpl. rewrite Hp.
  eapply answers_bind; [by apply answers_ask|]. simpl. simpl in Hg. rewrite Hg. simpl.
  rewrite (proj2 (grantAllows_spec _ _ _ _ _)) by done. apply answers_ret.
Qed.

(** C10. Access is decided by the canonical records alone.  With records that stand
    still, [authorizeAccess] accepts exactly when the session's projection lists the
    repository with the access asked for, its client is an active client of its
    active realm, the repository is active (for a write: not archived), and it is
    owned by that realm or granted to it, with that access, by the owner's active
    realm.  So a stale projection keeps no right a revoked grant took away. *)
Theorem authorize_access_exact w wc s repoID write :
  authorizeAccess wc s repoID write w = (Some None, w) <-> mayAccess (W:=Registry) (standing w) wc s repoID write.
Proof.
  split; [|apply authorizeAccess_complete]. intros E.
  pose proof (finds_authorizeAccess (seen := standing) wc s repoID write w) as H. unfold wpc in H. rewrite E in H. by apply H.
Qed.

End Exact.
