(* ===== verification/LockAuthority.v ===== *)
(** * LockAuthority: reading and releasing locks through svnadmin

    Models src/pkg/repoworker/lock_release_authority.go: the parser of
    [svnadmin lslocks], the confinement of repository paths, [inspectSVNLock],
    [unlockIfCurrent] and [InspectLock].

    [Locks] is the interface its clients use; [svnadminLocks] implements it over
    [Runner], which runs a command and returns its output. *)
From S2P Require Import Prelude GoStrings Passport ServerBase.
From Stdlib Require Import Ascii String.

Open Scope string_scope.
Open Scope go_scope.

Record svnAdminLock := AdminLock { al_Path : string; al_Token : string; al_Owner : string; al_Comment : string }.

#[export] Instance svnAdminLock_eq_dec : EqDecision svnAdminLock.
Proof. solve_decision. Defined.

(** ** Standard library functions the parser uses *)

(** [strings.Fields]: the words between runs of white space; [skip] counts the
    bytes of an encoded space still to pass over, [word] is read backwards. *)
Definition flush (word : string) : list string := if bool_decide (word = "") then [] else [srev word].

Fixpoint fieldsFrom (skip : nat) (word s : string) : list string :=
  match s with
  | EmptyString => flush word
  | String c s' =>
      match skip with
      | S n => fieldsFrom n word s'
      | O => match stripOne spaceEncodings s with
             | Some rest => app (flush word) (fieldsFrom (String.length s - String.length rest - 1) "" s')
             | None => fieldsFrom O (String c word) s'
             end
      end
  end.

Definition Fields (s : string) : list string := fieldsFrom O "" s.

(** [strconv.Atoi]: an optional sign and decimal digits within 64 bits. *)
Definition isDigit (c : ascii) : bool := ((0x30 <=? byte c) && (byte c <=? 0x39))%Z.

Fixpoint digitsValue (acc : Z) (s : string) : Z :=
  match s with EmptyString => acc | String c s' => digitsValue (10 * acc + (byte c - 0x30)) s' end.

Definition Atoi (s : string) : option Z :=
  let neg := HasPrefix s "-" in
  let digits := if neg || HasPrefix s "+" then dropn 1 s else s in
  if bool_decide (digits = "") || negb (allb isDigit digits) then None
  else let n := if neg then (- digitsValue 0 digits)%Z else digitsValue 0 digits in
       if (n <? minDuration)%Z || (maxDuration <? n)%Z then None else Some n.

(** [strings.ReplaceAll(s, "\r\n", "\n")]. *)
Fixpoint crlf (s : string) : string :=
  match s with
  | String a (String b s' as t) =>
      if Ascii.eqb a (chr 0x0D) && Ascii.eqb b (chr 0x0A) then String b (crlf s') else String a (crlf t)
  | _ => s
  end.

Definition newline : ascii := chr 0x0A.
Definition nl : string := String newline "".

(** ** The parser *)
Definition parseSVNAdminCommentLineCount (line : string) : result serr Z :=
  let prefix := "Comment (" in
  if negb (HasPrefix line prefix) || negb (HasSuffix line "):") then Err EOutput
  else match Fields (TrimSuffix (TrimPrefix line prefix) "):") with
       | [number; unit] =>
           if negb (bool_decide (unit = "line")) && negb (bool_decide (unit = "lines")) then Err EOutput
           else match Atoi number with
                | Some count => if (count <? 0)%Z || (1024 <? count)%Z then Err EOutput else Ok count
                | None => Err EOutput
                end
       | _ => Err EOutput
       end.

Definition headerValue (line prefix : string) : string := TrimSpace (TrimPrefix line prefix).

(** The scan over the lines: [skip] lines of a comment are passed over. *)
Fixpoint scanLines (skip : nat) (entry : svnAdminLock) (lines : list string) : result serr svnAdminLock :=
  match lines with
  | [] => Ok entry
  | line :: rest =>
      match skip with
      | S n => scanLines n entry rest
      | O =>
          let '(AdminLock path token owner comment) := entry in
          if HasPrefix line "Path: " then
            if negb (bool_decide (path = "")) then Err EOutput
            else scanLines O (AdminLock (headerValue line "Path: ") token owner comment) rest
          else if HasPrefix line "UUID Token: " then
            scanLines O (AdminLock path (headerValue line "UUID Token: ") owner comment) rest
          else if HasPrefix line "Owner: " then
            scanLines O (AdminLock path token (headerValue line "Owner: ") comment) rest
          else if HasPrefix line "Comment (" then
            match parseSVNAdminCommentLineCount line with
            | Err e => Err e
            | Ok count =>
                let n := Z.to_nat count in
                if (List.length rest <? n)%nat then Err EOutput
                else scanLines n (AdminLock path token owner (Join (firstn n rest) nl)) rest
            end
          else scanLines O entry rest
      end
  end.

Definition parseSVNAdminLock (raw : string) : result serr (option svnAdminLock) :=
  let text := TrimSpace (crlf raw) in
  if bool_decide (text = "") then Ok None
  else match scanLines O (AdminLock "" "" "" "") (Split newline text) with
       | Err e => Err e
       | Ok entry =>
           if bool_decide (al_Path entry = "") || bool_decide (al_Token entry = "") || bool_decide (al_Owner entry = "")
           then Err EOutput
           else match validateObservedLockID (al_Token entry) with
                | Some e => Err e
                | None => Ok (Some entry)
                end
       end.

(** ** The authority *)
Record Admin := MkAdmin { SVNAdmin : string; RepositoriesRoot : string }.

Class Locks (W : Type) := {
  lk_inspect : string -> string -> W -> result serr (option svnAdminLock) * W;
  lk_unlock : string -> string -> string -> string -> W -> option serr * W
}.

Class Runner (W : Type) := { run : string -> list string -> W -> result serr string * W }.

Definition repositoryPath `{Ids} (a : Admin) (repoID relativePath : string) : result serr string :=
  if negb (IsAbs (SVNAdmin a)) || negb (IsAbs (RepositoriesRoot a)) then Err ERoot
  else if negb (isUUID repoID) then Err EUuid
  else match validateLockReleasePath relativePath with
       | Some e => Err e
       | None =>
           if bool_decide (relativePath = "..") then Err EPath
           else
             let root := Clean (RepositoriesRoot a) in
             let repo := JoinPath [root; repoID] in
             match Rel root repo with
             | None => Err EPath
             | Some rel => if bool_decide (rel = repoID) then Ok repo else Err EPath
             end
       end.

Section SVNAdmin.
  Context {W : Type} `{!Ids} `{!Runner W}.

Definition inspectSVNLock (a : Admin) (repoID relativePath : string) : M W (result serr (option svnAdminLock)) :=
  match repositoryPath a repoID relativePath with
  | Err e => mret_st (Err e)
  | Ok repo =>
      let! r := run (SVNAdmin a) ["lslocks"; repo; "/" ++ relativePath] in
      mret_st (match r with
               | Err e => Err e
               | Ok out =>
                   match parseSVNAdminLock out with
                   | Err e => Err e
                   | Ok None => Ok None
                   | Ok (Some entry) =>
                       if negb (bool_decide (al_Path entry = "/" ++ relativePath)) then Err EOutput
                       else if negb (isUUID (al_Owner entry)) then Err EOutput
                       else Ok (Some entry)
                   end
               end)
  end.

Definition unlockIfCurrent (a : Admin) (repoID relativePath holderClientID token : string) : M W (option serr) :=
  match repositoryPath a repoID relativePath with
  | Err e => mret_st (Some e)
  | Ok repo =>
      if negb (isUUID holderClientID) then mret_st (Some EUuid)
      else match validateObservedLockID token with
           | Some e => mret_st (Some e)
           | None =>
               let! r := run (SVNAdmin a) ["unlock"; "--"; repo; "/" ++ relativePath; holderClientID; token] in
               mret_st (match r with Err e => Some e | Ok _ => None end)
           end
  end.

Definition svnadminLocks (a : Admin) : Locks W := {|
  lk_inspect := inspectSVNLock a;
  lk_unlock := unlockIfCurrent a
|}.

End SVNAdmin.

(** ** The observation a lock release request is checked against *)
Record LockReleaseObservation := Observation {
  ob_ObservedLockID : string;
  ob_HolderClientID : string;
  ob_HolderRealmID : string
}.

Definition InspectLock {W} `{!Ids} `{!Comments} `{!Locks W} (repoID relativePath : string)
    : M W (result serr (option LockReleaseObservation)) :=
  let! r := lk_inspect repoID relativePath in
  mret_st (match r with
           | Err e => Err e
           | Ok None => Ok None
           | Ok (Some entry) =>
               let realm := match ParseComment (al_Comment entry) with Some m => md_RealmID m | None => "" end in
               if negb (bool_decide (realm = "")) && negb (isUUID realm) then Err EOutput
               else Ok (Some (Observation (al_Token entry) (al_Owner entry) realm))
           end).
