(* ===== verification/LockProps.v ===== *)
(** * LockProps: the svnadmin report is read back exactly

    [report] prints a lock the way svnadmin lslocks does; the parser of
    [LockAuthority] returns the lock it describes, whatever the lines of the
    comment say.  The exception is a comment that ends in a blank line. *)
From stdpp Require Import pretty.
From S2P Require Import Prelude GoStrings ServerBase LockAuthority.
From Stdlib Require Import Ascii String.

Open Scope string_scope.
Open Scope go_scope.

(** ** Printing *)
Definition commentHeader (n : nat) : string :=
  "Comment (" ++ pretty (N.of_nat n) ++ (if bool_decide (n = 1) then " line):" else " lines):").

(** The dates between owner and comment do not matter, so any lines that are no
    header of the parser. *)
Definition reportLines (path token owner : string) (dates comment : list string) : list string :=
  app ["Path: " ++ path; "UUID Token: " ++ token; "Owner: " ++ owner] (app dates (commentHeader (List.length comment) :: comment)).

Definition report (path token owner : string) (dates comment : list string) : string :=
  Join (reportLines path token owner dates comment) nl ++ nl ++ nl.

Definition plainLine (line : string) : Prop :=
  HasPrefix line "Path: " = false /\ HasPrefix line "UUID Token: " = false /\ HasPrefix line "Owner: " = false /\
  HasPrefix line "Comment (" = false.

Definition oneLine (s : string) : Prop := hasByte s newline = false /\ hasByte s (chr 0x0D) = false.

(** The last byte is printable: trimming the report stops there. *)
Definition endsPrintable (s : string) : Prop := exists t z, s = t ++ String z "" /\ graphic z = true.

(** ** Lemmas on the text *)
Fixpoint blanks (n : nat) (t : string) : string :=
  match n with O => t | S n => String newline (blanks n t) end.

Lemma crlf_id s : hasByte s (chr 0x0D) = false -> crlf s = s.
Proof.
  induction s as [|a s IH]; [done|]. intros H. cbn [hasByte] in H. apply orb_false_iff in H as [Ha Hs].
  destruct s as [|b s]; [done|]. cbn [crlf]. rewrite Ha. simpl andb. f_equal. by apply IH.
Qed.

Lemma stripOne_newline t : stripOne (map srev spaceEncodings) (String newline t) = Some t.
Proof. reflexivity. Qed.

Lemma stripAll_newlines n fuel z t : graphic z = true -> n <= fuel ->
  stripAll fuel (map srev spaceEncodings) (blanks n (String z t)) = String z t.
Proof.
  intros Hz. revert fuel. induction n as [|n IH]; intros fuel Hf; cbn [blanks].
  - apply stripAll_graphic. by apply space_lead_graphic.
  - destruct fuel as [|fuel]; [lia|]. cbn [stripAll]. rewrite stripOne_newline.
    apply IH. lia.
Qed.

Lemma srev_newlines n : srev (blanks n "") = blanks n "".
Proof.
  induction n as [|n IH]; [done|]. cbn [blanks]. rewrite srev_cons, IH. clear IH.
  induction n as [|n IH]; [done|]. cbn [blanks]. by rewrite sapp_cons, IH.
Qed.

Lemma iter_newlines_app n t : blanks n "" ++ t = blanks n t.
Proof. induction n as [|n IH]; [done|]. cbn [blanks]. by rewrite sapp_cons, IH. Qed.

(** Trimming a text between printable bytes drops the newlines at its end. *)
Lemma TrimSpace_text a s n : graphic a = true -> endsPrintable (String a s) ->
  TrimSpace (String a s ++ blanks n "") = String a s.
Proof.
  intros Ha (t & z & E & Hz). unfold TrimSpace.
  assert (trimSpaceLeft (String a s ++ blanks n "") = String a s ++ blanks n "") as ->.
  { rewrite sapp_cons. apply stripAll_graphic. by apply space_lead_graphic. }
  unfold trimSpaceRight. rewrite srev_append, srev_newlines, E, srev_append, iter_newlines_app.
  change (srev (String z "") ++ srev t) with (String z (srev t)). rewrite stripAll_newlines; [|done|].
  - rewrite srev_cons, srev_involutive. done.
  - rewrite slength_app. assert (forall k, String.length (blanks k "") = k) as -> by (induction k; simpl; congruence). lia.
Qed.

Lemma endsPrintable_app s t : endsPrintable t -> endsPrintable (s ++ t).
Proof. intros (u & z & -> & Hz). exists (s ++ u), z. by rewrite sapp_assoc. Qed.

Lemma endsPrintable_Join ws w sep : endsPrintable w -> endsPrintable (Join (app ws [w]) sep).
Proof.
  intros Hw. induction ws as [|x ws IH]; [done|]. cbn [app]. rewrite Join_cons by (by destruct ws).
  by do 2 apply endsPrintable_app.
Qed.

Lemma Join_oneLine ws : Forall oneLine ws -> hasByte (Join ws nl) (chr 0x0D) = false.
Proof.
  induction ws as [|w [|x ws] IH]; intros H; [done|by apply Forall_cons in H as [[_ ?] _]|].
  apply Forall_cons in H as [[_ Hw] H]. rewrite Join_cons by done. by rewrite !hasByte_app, Hw, (IH H).
Qed.

(** The scan sees exactly the printed lines. *)
Lemma parse_text first ws w n :
  Forall oneLine (first :: app ws [w]) -> (exists a t, first = String a t /\ graphic a = true) -> endsPrintable w ->
  parseSVNAdminLock (Join (first :: app ws [w]) nl ++ blanks n "") =
  match scanLines O (AdminLock "" "" "" "") (first :: app ws [w]) with
  | Err e => Err e
  | Ok entry =>
      if bool_decide (al_Path entry = "") || bool_decide (al_Token entry = "") || bool_decide (al_Owner entry = "")
      then Err EOutput
      else match validateObservedLockID (al_Token entry) with Some e => Err e | None => Ok (Some entry) end
  end.
Proof.
  intros Hone (a & t & Hfirst & Ha) Hw. unfold parseSVNAdminLock.
  assert (Hcr : forall k, hasByte (blanks k "") (chr 0x0D) = false) by (induction k; done).
  rewrite crlf_id by (by rewrite hasByte_app, Join_oneLine, Hcr).
  assert (Hj : exists u, Join (first :: app ws [w]) nl = String a u).
  { rewrite Join_cons by (by destruct ws). subst first. rewrite sapp_cons. by eexists. }
  assert (He : endsPrintable (Join (first :: app ws [w]) nl)) by (apply (endsPrintable_Join (first :: ws)); done).
  destruct Hj as [u Hu]. rewrite Hu in *. rewrite TrimSpace_text by done. rewrite bool_decide_eq_false_2 by done.
  rewrite <- Hu. unfold nl. rewrite Split_Join; [done|done|]. eapply Forall_impl; [exact Hone|]. by intros x [? ?].
Qed.

(** ** The headers *)
Lemma headerValue_app p v : TrimSpace v = v -> headerValue (p ++ v) p = v.
Proof. unfold headerValue. by rewrite TrimPrefix_app. Qed.

Lemma commentHeader_spec n : n <= 1024 ->
  plainLine ("-" ++ commentHeader n) /\ parseSVNAdminCommentLineCount (commentHeader n) = Ok (Z.of_nat n) /\ oneLine (commentHeader n).
Proof.
  intros Hn. assert (Hall : forallb (fun n => match parseSVNAdminCommentLineCount (commentHeader n) with
                                    | Ok k => (k =? Z.of_nat n)%Z | Err _ => false end
                                  && negb (hasByte (commentHeader n) newline) && negb (hasByte (commentHeader n) (chr 0x0D)))
                       (seq 0 1025) = true) by (vm_compute; reflexivity).
  rewrite forallb_forall in Hall. assert (Hin : In n (seq 0 1025)) by (apply in_seq; split; [lia|]; apply Nat.lt_succ_r; exact Hn). specialize (Hall n Hin).
  bool_to_prop. destruct (parseSVNAdminCommentLineCount (commentHeader n)); [|done].
  split; [done|]. split; [by f_equal; apply Z.eqb_eq|done].
Qed.

Lemma scan_plain dates rest entry : Forall plainLine dates ->
  scanLines O entry (app dates rest) = scanLines O entry rest.
Proof.
  induction dates as [|d dates IH]; intros H; [done|]. apply Forall_cons in H as [(H1 & H2 & H3 & H4) H].
  cbn [app scanLines]. rewrite H1, H2, H3, H4. destruct entry. by apply IH.
Qed.

Lemma scan_path v token owner comment rest : TrimSpace v = v ->
  scanLines O (AdminLock "" token owner comment) (("Path: " ++ v) :: rest) = scanLines O (AdminLock v token owner comment) rest.
Proof.
  intros Hv. cbn [scanLines]. by rewrite (proj2 (HasPrefix_spec ("Path: " ++ v) "Path: ")), (headerValue_app "Path: ") by (done || by eexists).
Qed.

Lemma scan_token v path token owner comment rest : TrimSpace v = v ->
  scanLines O (AdminLock path token owner comment) (("UUID Token: " ++ v) :: rest) = scanLines O (AdminLock path v owner comment) rest.
Proof.
  intros Hv. cbn [scanLines]. change (HasPrefix ("UUID Token: " ++ v) "Path: ") with false.
  by rewrite (proj2 (HasPrefix_spec ("UUID Token: " ++ v) "UUID Token: ")), (headerValue_app "UUID Token: ") by (done || by eexists).
Qed.

Lemma scan_owner v path token owner comment rest : TrimSpace v = v ->
  scanLines O (AdminLock path token owner comment) (("Owner: " ++ v) :: rest) = scanLines O (AdminLock path token v comment) rest.
Proof.
  intros Hv. cbn [scanLines]. change (HasPrefix ("Owner: " ++ v) "Path: ") with false.
  change (HasPrefix ("Owner: " ++ v) "UUID Token: ") with false.
  by rewrite (proj2 (HasPrefix_spec ("Owner: " ++ v) "Owner: ")), (headerValue_app "Owner: ") by (done || by eexists).
Qed.

Lemma scan_skip n entry rest : List.length rest = n -> scanLines n entry rest = Ok entry.
Proof. revert rest. induction n as [|n IH]; intros [|x rest] H; simplify_eq/=; auto. Qed.

(** ** Reading a report back *)
Record printed (path token owner : string) (dates comment : list string) : Prop := {
  pd_path : path <> "" /\ TrimSpace path = path /\ oneLine path;
  pd_token : validateObservedLockID token = None;
  pd_owner : owner <> "" /\ TrimSpace owner = owner /\ oneLine owner;
  pd_dates : Forall (fun d => plainLine d /\ oneLine d) dates;
  pd_comment : Forall oneLine comment /\ List.length comment <= 1024
}.

Lemma observedLockID_spec token : validateObservedLockID token = None ->
  token <> "" /\ TrimSpace token = token /\ oneLine token.
Proof.
  unfold validateObservedLockID. destruct (_ || _) eqn:E; [done|]. intros _. bool_to_prop. split_and!; [done..|].
  assert (Hb : forall s c, ContainsAny s (str [0; 0x0D; 0x0A]%Z) = false -> hasByte (str [0; 0x0D; 0x0A]%Z) c = true -> hasByte s c = false).
  { induction s as [|a s IH]; [done|]. intros c Hc Hin. cbn [ContainsAny] in Hc. bool_to_prop. cbn [hasByte].
    rewrite (IH c), orb_false_r by done. destruct (Ascii.eqb_spec a c) as [->|]; [congruence|done]. }
  by split; apply Hb.
Qed.

Definition headLines (path token owner : string) (dates : list string) (n : nat) : list string :=
  app ["Path: " ++ path; "UUID Token: " ++ token; "Owner: " ++ owner] (app dates [commentHeader n]).

Lemma scan_head path token owner dates n body : n <= 1024 ->
  TrimSpace path = path -> TrimSpace token = token -> TrimSpace owner = owner -> Forall plainLine dates ->
  scanLines O (AdminLock "" "" "" "") (app (headLines path token owner dates n) body) =
  if (List.length body <? n)%nat then Err EOutput else scanLines n (AdminLock path token owner (Join (firstn n body) nl)) body.
Proof.
  intros Hn Hp Ht Ho Hd. destruct (commentHeader_spec n Hn) as (_ & Hc & _).
  unfold headLines. cbn [app]. rewrite scan_path, scan_token, scan_owner by done.
  rewrite <- app_assoc, scan_plain by done. cbn [app scanLines]. rewrite Hc, Nat2Z.id. reflexivity.
Qed.

Lemma headLines_oneLine path token owner dates n body : n <= 1024 -> oneLine path -> oneLine token -> oneLine owner ->
  Forall oneLine dates -> Forall oneLine body -> Forall oneLine (app (headLines path token owner dates n) body).
Proof.
  intros Hn Hp Ht Ho Hd Hb. destruct (commentHeader_spec n Hn) as (_ & _ & Hc).
  assert (Hpre : forall p v, hasByte p newline = false -> hasByte p (chr 0x0D) = false -> oneLine v -> oneLine (p ++ v)).
  { intros p v H1 H2 [H3 H4]. split; by rewrite hasByte_app, ?H1, ?H2. }
  apply Forall_app. split; [|done]. unfold headLines. repeat (apply Forall_cons; split; [by apply Hpre|]).
  apply Forall_app. split; [done|]. by apply Forall_singleton.
Qed.

Lemma commentHeader_ends n : endsPrintable (commentHeader n).
Proof.
  unfold commentHeader. do 2 apply endsPrintable_app.
  destruct (bool_decide (n = 1)); [exists " line)", ":"%char|exists " lines)", ":"%char]; done.
Qed.

(** The text of [n] announced comment lines of which [body] is printed. *)
Lemma parse_report path token owner dates n body k : printed path token owner dates body -> n <= 1024 ->
  (body = [] \/ exists front last, body = app front [last] /\ endsPrintable last) ->
  parseSVNAdminLock (Join (app (headLines path token owner dates n) body) nl ++ blanks k "") =
  if (List.length body <? n)%nat then Err EOutput
  else match scanLines n (AdminLock path token owner (Join (firstn n body) nl)) body with
       | Ok entry =>
           if bool_decide (al_Path entry = "") || bool_decide (al_Token entry = "") || bool_decide (al_Owner entry = "")
           then Err EOutput
           else match validateObservedLockID (al_Token entry) with Some e => Err e | None => Ok (Some entry) end
       | Err e => Err e
       end.
Proof.
  intros [(Hp & Hp1 & Hp2) Hv (Ho & Ho1 & Ho2) Hd [Hb _]] Hn Hlast.
  destruct (observedLockID_spec _ Hv) as (Ht & Ht1 & Ht2).
  assert (Hd1 : Forall plainLine dates) by (eapply Forall_impl; [exact Hd|]; by intros ? [? ?]).
  assert (Hd2 : Forall oneLine dates) by (eapply Forall_impl; [exact Hd|]; by intros ? [? ?]).
  pose proof (headLines_oneLine path token owner dates n body Hn Hp2 Ht2 Ho2 Hd2 Hb) as Hone.
  pose proof (scan_head path token owner dates n body Hn Hp1 Ht1 Ho1 Hd1) as Hscan.
  assert (Hshape : exists ws w, app (headLines path token owner dates n) body = ("Path: " ++ path) :: app ws [w] /\ endsPrintable w).
  { destruct Hlast as [->|(front & last & -> & Hl)]; unfold headLines; cbn [app].
    - eexists (_ :: _ :: dates), (commentHeader n). rewrite app_nil_r. split; [done|apply commentHeader_ends].
    - eexists (_ :: _ :: app (app dates [commentHeader n]) front), last. split; [|done]. simpl. by rewrite app_assoc. }
  destruct Hshape as (ws & w & E & Hw). rewrite E in *. rewrite parse_text; [|done|by eexists _, _|done].
  rewrite Hscan. by destruct (List.length body <? n)%nat.
Qed.

Lemma Join_blank ws sep : ws <> [] -> Join (app ws [""]) sep = Join ws sep ++ sep.
Proof.
  induction ws as [|w [|x ws] IH]; intros H; [done|simpl; by rewrite sapp_nil_r|].
  cbn [app]. rewrite !(Join_cons w) by done. cbn [app] in IH. rewrite IH by done. by rewrite !sapp_assoc.
Qed.

(** C37. The report of a lock is read back exactly, whatever its comment says.  A
    printed report of a lock with a well-formed path, token and owner yields that
    path, token and owner and the comment line for line, even if lines of the
    comment look like headers; so a holder cannot forge an owner or a token through
    the comment.  The last line must end in a printable byte, as the line a passport
    writes does: a comment that ends in a blank line is refused as truncated, since
    trimming the whole output removes a line its header counted. *)
Theorem lock_report_roundtrip path token owner dates comment :
  printed path token owner dates comment ->
  (comment = [] \/ (exists body last, comment = app body [last] /\ endsPrintable last) ->
     parseSVNAdminLock (report path token owner dates comment) = Ok (Some (AdminLock path token owner (Join comment nl)))) /\
  (forall body, comment = app body [""] -> body = [] \/ (exists front last, body = app front [last] /\ endsPrintable last) ->
     parseSVNAdminLock (report path token owner dates comment) = Err EOutput).
Proof.
  intros HP. pose proof HP as [(Hp & _) Hv (Ho & _) Hd [Hc Hn]]. destruct (observedLockID_spec _ Hv) as (Ht & _).
  assert (Hrep : forall c, reportLines path token owner dates c = app (headLines path token owner dates (List.length c)) c).
  { intros c. unfold reportLines, headLines. cbn [app]. by rewrite <- app_assoc. }
  unfold report. rewrite Hrep. split.
  - intros Hlast. change (nl ++ nl) with (blanks 2 ""). rewrite (parse_report _ _ _ _ _ comment 2 HP Hn Hlast). rewrite Nat.ltb_irrefl, firstn_all, scan_skip by done.
    simpl. rewrite Hv, !bool_decide_eq_false_2 by done. done.
  - intros body -> Hlast. rewrite app_assoc, Join_blank by done. rewrite sapp_assoc.
    apply Forall_app in Hc as [Hb _]. rewrite length_app in Hn |- *. cbn [List.length] in *.
    change (nl ++ nl ++ nl) with (blanks 3 "").
    rewrite (parse_report _ _ _ _ (List.length body + 1) body 3); [|split; try apply HP; split; [done|lia]|done|done].
    by rewrite (proj2 (Nat.ltb_lt _ _)) by lia.
Qed.

(** A comment that tries to forge every header. *)
Definition forged : list string := ["Owner: mallory"; "UUID Token: opaquelocktoken:0"; "Path: /etc"; "Comment (9 lines):"; "}"].

Lemma lock_report_roundtrip_witness :
  parseSVNAdminLock (report "/a.dwg" "opaquelocktoken:7" "alice" ["Created: today"] forged)
    = Ok (Some (AdminLock "/a.dwg" "opaquelocktoken:7" "alice" (Join forged nl))).
Proof.
  assert (printed "/a.dwg" "opaquelocktoken:7" "alice" ["Created: today"] forged) as HP.
  { split; [split; [done|split; [vm_compute; reflexivity|split; vm_compute; reflexivity]]|vm_compute; reflexivity
           |split; [done|split; [vm_compute; reflexivity|split; vm_compute; reflexivity]]| |].
    - apply Forall_singleton. split; split_and!; split_and?; vm_compute; reflexivity.
    - split; [|simpl; lia]. repeat (apply Forall_cons; split; [split; vm_compute; reflexivity|]). apply Forall_nil_2. }
  apply (proj1 (lock_report_roundtrip _ _ _ _ _ HP)). right. exists (firstn 4 forged), "}". split; [reflexivity|].
  exists "", "}"%char. split; reflexivity.
Defined.
