(* ===== verification/ServerHost.v ===== *)
(** * ServerHost: the worker's host and the answers it encodes

    [Host] is what the repository worker uses of its operating system: the clock,
    the context, directories and files, file locks, processes and commands.
    Models [privateExecutionFile], [executionDirectory], [withExecutionLocker]
    (passport_executions.go) and the lock guards (lock_guards.go, effects.go
    [validRepo]) of src/pkg/repoworker, and the construction of control results
    (src/pkg/control/v1 messages.go, src/pkg/errcat, [preparationError]). *)
From S2P Require Import Prelude GoStrings Passport ControlTickets ServerBase.
From Stdlib Require Import Ascii String.

Open Scope string_scope.
Open Scope go_scope.

Record fileInfo := FI { fi_dir : bool; fi_regular : bool; fi_symlink : bool; fi_perm : Z }.

Class Host (W : Type) := {
  ho_now : W -> Time * W;
  ho_ctxErr : W -> option serr * W;
  ho_lstat : string -> W -> result serr fileInfo * W;
  ho_stat : string -> W -> result serr fileInfo * W;
  ho_readlink : string -> W -> result serr string * W;
  ho_symlink : string -> string -> W -> option serr * W;
  ho_mkdirAll : string -> W -> option serr * W;
  ho_syncDirectory : string -> W -> option serr * W;
  ho_readFile : string -> W -> result serr string * W;
  ho_readDir : string -> W -> result serr (list (string * bool)) * W;
  (* open and flock: the first argument asks for a try, which fails when busy *)
  ho_lockFile : bool -> string -> W -> option serr * W;
  ho_unlockFile : string -> W -> unit * W;
  (* kill(pid, 0) answers ESRCH *)
  ho_noSuchProcess : Z -> W -> bool * W;
  ho_output : string -> list string -> W -> result serr string * W
}.

Section Host.
  Context {W : Type} `{!Ids} `{!Mortal W} `{!Host W}.

(** A private file: regular, no permission for group or others; absent is fine. *)
Definition private (i : fileInfo) : bool := (Z.land (fi_perm i) 0x3F =? 0)%Z.
Definition privateDir (i : fileInfo) : bool := fi_dir i && negb (fi_symlink i) && private i.

Definition privateExecutionFile (path : string) : MC W (option serr) :=
  let* r := ask (ho_lstat path) in
  ret (match r with
       | Err ENotExist => None
       | Err e => Some e
       | Ok i => if negb (fi_regular i) || negb (private i) then Some EUnsafe else None
       end).

Definition executionDirectory (repository : string) : string :=
  JoinPath [Dir repository; ".filees-passport-executions"; Base repository].

Fixpoint prepareDirectories (ds : list string) : MC W (option serr) :=
  match ds with
  | [] => ret None
  | d :: rest =>
      let* e := ask (ho_mkdirAll d) in
      orElse e (
        let* r := ask (ho_lstat d) in
        if negb (match r with Ok i => privateDir i | Err _ => false end) then ret (Some EUnsafe)
        else
          let* e := ask (ho_syncDirectory (Dir d)) in
          orElse e (prepareDirectories rest))
  end.

(** [WithFileLock] and [TryWithFileLock]: the lock is released when [fn] returns. *)
Definition withFileLock (try : bool) (path : string) (fn : MC W (option serr)) : MC W (option serr) :=
  let* e := ask (ho_lockFile try path) in
  orElse e (
    let* r := fn in
    let* _ := ask (ho_unlockFile path) in
    ret r).

Definition withExecutionLocker (try : bool) (repository id : string) (fn : string -> MC W (option serr)) : MC W (option serr) :=
  if negb (canonicalUUID id) then ret (Some EUuid)
  else
    let dir := executionDirectory repository in
    let* e := prepareDirectories [Dir dir; dir] in
    orElse e (
      let* e := privateExecutionFile (JoinPath [dir; id ++ ".lock"]) in
      orElse e (
        let* e := privateExecutionFile (JoinPath [dir; id ++ ".json"]) in
        orElse e (withFileLock try (JoinPath [dir; id ++ ".lock"]) (fn (JoinPath [dir; id ++ ".json"]))))).

Definition withExecution := withExecutionLocker false.

(** ** Lock guards *)
Inductive guardState := GInstalled | GMissing | GForeign.

#[export] Instance guardState_eq_dec : EqDecision guardState.
Proof. solve_decision. Defined.

Definition LockGuardVersion : string := "filees.lock-force-guard/v2".
Definition newlineOutput : string := LockGuardVersion ++ str [0x0A]%Z.

(** The hook's own test: five arguments, the last one the force bit. *)
Definition RunLockGuard (args : list string) : Z :=
  match args with [_; _; _; _; force] => if bool_decide (force = "0") then 0%Z else 1%Z | _ => 1%Z end.

Definition checkExecutionGuardExecutable (executable : string) : MC W (option serr) :=
  if negb (IsAbs executable) then ret (Some EGuard)
  else
    let* out := ask (ho_output executable ["--lock-guard-version"]) in
    ret (match out with
         | Ok s => if bool_decide (s = newlineOutput) then None else Some EGuard
         | Err _ => Some EGuard
         end).

Definition CheckLockGuardExecutable (executable : string) : MC W (option serr) :=
  if negb (IsAbs executable) then ret (Some EGuard)
  else
    let* r := ask (ho_stat executable) in
    nil? info := r in
    if negb (fi_regular info) || (Z.land (fi_perm info) 0x49 =? 0)%Z then ret (Some EGuard)
    else
      let* out := ask (ho_output executable ["--lock-guard-version"]) in
      ret (match out with
           | Ok s => if bool_decide (s = newlineOutput) then None else Some EGuard
           | Err _ => Some EGuard
           end).

Definition validRepo (path : string) : MC W bool :=
  let* f := ask (ho_stat (JoinPath [path; "format"])) in
  if negb (match f with Ok i => fi_regular i | Err _ => false end) then ret false
  else
    let* d := ask (ho_stat (JoinPath [path; "db"])) in
    ret (match d with Ok i => fi_dir i | Err _ => false end).

Definition lockGuardDirectory (repository : string) : MC W (result serr string) :=
  if negb (IsAbs repository) then ret (Err EGuard)
  else
    let* valid := validRepo repository in
    if negb valid then ret (Err EGuard)
    else
      let hooks := JoinPath [repository; "hooks"] in
      let* r := ask (ho_lstat repository) in
      ok? i := r in
      if negb (fi_dir i) || fi_symlink i then ret (Err EGuard)
      else
        let* h := ask (ho_lstat hooks) in
        ok? j := h in
        if negb (fi_dir j) || fi_symlink j then ret (Err EGuard) else ret (Ok hooks).

Definition inspectHook (hooks executable name : string) : MC W (result serr guardState) :=
  let p := JoinPath [hooks; name] in
  let* r := ask (ho_lstat p) in
  match r with
  | Err ENotExist => ret (Ok GMissing)
  | Err e => ret (Err e)
  | Ok i =>
      if fi_symlink i then
        let* t := ask (ho_readlink p) in
        ok? target := t in
        ret (Ok (if bool_decide (target = executable) then GInstalled else GForeign))
      else ret (Ok GForeign)
  end.

Fixpoint inspectHooks (hooks executable : string) (names : list string) : MC W (result serr (list (string * guardState))) :=
  match names with
  | [] => ret (Ok [])
  | name :: rest =>
      let* r := inspectHook hooks executable name in
      ok? st := r in
      let* r := inspectHooks hooks executable rest in
      ok? l := r in
      ret (Ok ((name, st) :: l))
  end.

Definition InspectLockGuards (repository executable : string) : MC W (result serr (list (string * guardState))) :=
  if negb (IsAbs executable) then ret (Err EGuard)
  else
    let* r := lockGuardDirectory repository in
    ok? hooks := r in
    inspectHooks hooks executable ["pre-lock"; "pre-unlock"].

Fixpoint guardsMissingFrom (missing : bool) (states : list (string * guardState)) : bool :=
  match states with
  | [] => missing
  | (_, GForeign) :: _ => false
  | (_, GMissing) :: rest => guardsMissingFrom true rest
  | (_, GInstalled) :: rest => guardsMissingFrom missing rest
  end.

Definition lockGuardsMissing := guardsMissingFrom false.

Fixpoint linkGuards (hooks executable : string) (states : list (string * guardState)) : MC W (option serr) :=
  match states with
  | [] => ask (ho_syncDirectory hooks)
  | (name, st) :: rest =>
      if bool_decide (st = GInstalled) then linkGuards hooks executable rest
      else
        let* e := ask (ho_symlink executable (JoinPath [hooks; name])) in
        orElse e (linkGuards hooks executable rest)
  end.

Definition InstallLockGuards (repository executable : string) : MC W (option serr) :=
  let* e := CheckLockGuardExecutable executable in
  orElse e (
    let* r := lockGuardDirectory repository in
    nil? hooks := r in
    withFileLock false (JoinPath [hooks; ".filees-lock-guards.lock"]) (
      let* r := InspectLockGuards repository executable in
      nil? states := r in
      if existsb (fun s => bool_decide (s.2 = GForeign)) states then ret (Some EGuard)
      else linkGuards hooks executable states)).

End Host.

(** ** The answers *)
Inductive Key := KDenied | KStale | KUncertain | KUnavailable | KRequestConflict | KOwnerUnavailable | KAborted.

Definition keyCode (k : Key) : string :=
  match k with
  | KDenied => "LOCK-2101" | KStale => "LOCK-2102" | KUncertain => "LOCK-2103" | KUnavailable => "LOCK-2104"
  | KRequestConflict => "LOCK-2105" | KOwnerUnavailable => "LOCK-2106" | KAborted => "LOCK-2107"
  end.

Definition keyMessage (k : Key) : string :=
  match k with
  | KDenied => "passport.replacement_denied"
  | KStale => "passport.replacement_stale"
  | KUncertain => "passport.replacement_uncertain"
  | KUnavailable => "passport.replacement_unavailable"
  | KRequestConflict => "passport.replacement_request_conflict"
  | KOwnerUnavailable => "passport.path_owner_unavailable"
  | KAborted => "passport.preparation_aborted"
  end.

(** Encoding of the success payloads, beside the decoders of [Wire]. *)
Class Replies := {
  y_executionResult : ExecutionResult -> option string;
  y_replacementResult : ReplacementResult -> option string;
  y_cancelResult : CancelResult -> option string
}.

Section Results.
  Context {W : Type} `{!Wire W}.

Definition checked (r : Result) : result serr Result :=
  match validateResult (W:=W) r with Some _ => Err ETicket | None => Ok r end.

Definition NewSuccessResult (operationID requestID typ : string) (payload : option string) (now : Time) : result serr Result :=
  match payload with
  | None => Err ETicket
  | Some raw => checked (MkResult Schema operationID requestID typ "ok" (x_formatTime now) raw None)
  end.

Definition NewErrorResult (operationID requestID typ code message : string) (now : Time) : result serr Result :=
  checked (MkResult Schema operationID requestID typ "error" (x_formatTime now) "" (Some (code, message))).

Definition preparationError (t : Ticket) (key : Key) (now : Time) : result serr Result :=
  NewErrorResult (tk_OperationID t) (tk_RequestID t) (tk_Type t) (keyCode key) (keyMessage key) now.

End Results.
