(* ===== verification/Preparations.v ===== *)
(** * Preparations: the conditional release that precedes a passport replacement

    Models src/pkg/repoworker/passport_replacement.go ([Prepare]),
    passport_preparations.go ([PassportPreparations.Handle]) and
    passport_cancellation.go ([Cancel]).

    A client that wants to replace an observed lock sends a preparation ticket.
    The server writes down that it started, releases exactly the observed token if
    the requester may, and writes down its answer; a repeated ticket is answered
    from the record.  A cancellation fences the ticket.

    The class [PreparationFiles] holds the record files and the digest that binds
    a ticket to its session; [Owners] is the path-owner service, absent when the
    deployment has none.  Go returns a result beside an error; a caller looks at
    the error first, so an answer here is one or the other. *)
From S2P Require Import Prelude GoStrings Passport ControlTickets ServerBase RealmRecords LockAuthority ServerHost.
From Stdlib Require Import Ascii String.

Open Scope string_scope.
Open Scope go_scope.

Record preparationRecord := Prep {
  pp_Schema : string;
  pp_Digest : string;
  pp_State : string;
  pp_Result : option Result;
  pp_PriorResult : option Result
}.

Record Preparations := MkPrep { pr_Root : string; pr_ServiceWC : string; pr_Locks : Admin }.

Definition preparationSchema : string := "filees.passport-preparation/v1".

(** [atomicJSON] indents what it writes, a stored answer's raw [Result] included;
    a record is what its document denotes, and [rs_Result] a JSON value. *)
Class PreparationFiles (W : Type) := {
  (* [Ok None]: the file is there and does not decode *)
  pf_read : string -> W -> result serr (option preparationRecord) * W;
  pf_write : string -> preparationRecord -> W -> option serr * W;
  pf_digest : string -> Ticket -> string
}.

Class Owners (W : Type) := { ow_pathOwner : option (string -> string -> W -> result serr string * W) }.

Section Preparations.
  Context {W : Type} {ids : Ids} {codec : Comments} {tables : UnicodeTables} {wire : Wire W} {replies : Replies}.
  Context {mortal : Mortal W} {records : Records W} {locks : Locks W} {host : Host W} {files : PreparationFiles W} {owners : Owners W}.
  Variable s : Preparations.

(** ** passport_replacement.go *)
Definition validLifetime (m : Metadata) : bool :=
  negb (IsZero (md_IssuedAt m)) && After (md_ExpiresAt m) (md_IssuedAt m) && negb (Before (md_HardExpiresAt m) (md_ExpiresAt m)).

(** The case "renew" and "migrate" of [Prepare]: [None] goes on to the release. *)
Definition mayRenew (session : Session) (req : Replacement) (lock : svnAdminLock) (m : Metadata) : MC W (option serr) :=
  if negb (bool_decide (al_Owner lock = se_ClientID session)) || negb (bool_decide (md_PassportID m = rp_PassportID req))
     || negb (bool_decide (md_InstanceUID m = rp_InstanceUID req))
  then ret (Some EDenied)
  else
    let* now := ask ho_now in
    ret (if negb (Before now (md_ExpiresAt m)) || negb (Before now (md_HardExpiresAt m)) then Some EDenied else None).

Definition mayMigrate (session : Session) (req : Replacement) (lock : svnAdminLock) : MC W (option serr) :=
  match ow_pathOwner with
  | None => ret (Some EOwnerUnavailable)
  | Some pathOwner =>
      let* r := ask (pathOwner (rp_RepoID req) (rp_Path req)) in
      nil? owner := r in
      if bool_decide (owner = "") then ret (Some EOwnerUnavailable)
      else if negb (bool_decide (owner = se_RealmID session)) then ret (Some EDenied)
      else
        let* holder := client (pr_ServiceWC s) (al_Owner lock) in
        ret (match holder with
             | Err _ => Some EDenied
             | Ok h => if bool_decide (ci_RealmID h = se_RealmID session) then None else Some EDenied
             end)
  end.

Definition mayReplace (session : Session) (req : Replacement) (lock : svnAdminLock) : MC W (option serr) :=
  match ParseComment (al_Comment lock) with
  | None => ret (Some EDenied)
  | Some m =>
      if negb (isUUID (md_PassportID m) && isUUID (md_InstanceUID m)) then ret (Some EDenied)
      else if negb (validLifetime m) then ret (Some EDenied)
      else if bool_decide (rp_Mode req = "renew") then mayRenew session req lock m
      else if bool_decide (rp_Mode req = "migrate") then mayMigrate session req lock
      else ret None
  end.

Definition Prepare (session : Session) (req : Replacement) : MC W (option serr) :=
  let* e := ask ho_ctxErr in
  orElse e (
    if negb (bool_decide (rp_Mode req = "renew")) && negb (bool_decide (rp_Mode req = "migrate")) then ret (Some EDenied)
    else
      nil? _ := repositoryPath (pr_Locks s) (rp_RepoID req) (rp_Path req) in
      orElse (validateObservedLockID (rp_ObservedLockID req)) (
        if negb (isUUID (rp_PassportID req) && isUUID (rp_InstanceUID req) && isUUID (se_ClientID session) && isUUID (se_RealmID session))
        then ret (Some EDenied)
        else
          let* e := authorizeRequester (pr_ServiceWC s) session (rp_RepoID req) in
          orElse e (
            let* r := ask (lk_inspect (rp_RepoID req) (rp_Path req)) in
            nil? lock := r in
            match lock with
            | None => ret (Some EStale)
            | Some lock =>
                if negb (bool_decide (al_Token lock = rp_ObservedLockID req)) then ret (Some EStale)
                else
                  let* e := mayReplace session req lock in
                  orElse e (
                    let* e := ask ho_ctxErr in
                    orElse e (ask (lk_unlock (rp_RepoID req) (rp_Path req) (al_Owner lock) (rp_ObservedLockID req))))
            end))).

(** ** passport_preparations.go *)
Definition recordFile (operationID : string) : string := JoinPath [pr_Root s; operationID ++ ".json"].
Definition recordLock (operationID : string) : string := JoinPath [pr_Root s; operationID ++ ".lock"].

Definition prepareRoot : MC W (option serr) :=
  let* e := ask (ho_mkdirAll (pr_Root s)) in
  orElse e (ask (ho_syncDirectory (Dir (pr_Root s)))).

Definition fail (t : Ticket) (key : Key) : MC W (result serr Result) :=
  let* now := ask ho_now in ret (preparationError (W:=W) t key now).

(** [result.Error] is the abort of a fenced preparation. *)
Definition isAbort (r : Result) : bool := bool_decide (rs_Error r = Some (keyCode KAborted, keyMessage KAborted)).

(** The receipt answers this very ticket. *)
Definition receiptFits (t : Ticket) (p : Replacement) (r : Result) : option serr :=
  match validateResult (W:=W) r with
  | Some _ => Some ETicket
  | None =>
      require (boundTo r t) EMismatch >>?
      if bool_decide (rs_Status r = "ok") then
        match decodeStrict (x_replacementResult (W:=W)) (rs_Result r) with
        | Err _ => Some ETicket
        | Ok receipt =>
            require (bool_decide (rq_RepoID receipt = rp_RepoID p) && bool_decide (rq_Path receipt = rp_Path p)
                     && bool_decide (rq_ObservedLockID receipt = rp_ObservedLockID p)) EMismatch
        end
      else None
  end.

(** An answer from the stored record. *)
Definition replay (t : Ticket) (p : Replacement) (r : preparationRecord) : result serr Result :=
  match pp_Result r with
  | None => Err ERecord
  | Some result =>
      if bool_decide (pp_State r = "canceled") && negb (isAbort result) then Err ERecord
      else match receiptFits t p result with Some e => Err e | None => Ok result end
  end.

Definition stored (r : result serr Result) (e : option serr) : result serr Result :=
  match e with Some e => Err e | None => r end.

Definition answerRecorded (file : string) (t : Ticket) (p : Replacement) (digest : string) (r : preparationRecord)
    : MC W (result serr Result) :=
  if negb (bool_decide (pp_Schema r = preparationSchema)) then ret (Err ERecord)
  else if negb (bool_decide (pp_Digest r = digest)) then fail t KRequestConflict
  else if bool_decide (pp_State r = "started") then
    let* result := fail t KAborted in
    ok? result := result in
    let* e := ask (pf_write file (Prep (pp_Schema r) (pp_Digest r) "finished" (Some result) (pp_PriorResult r))) in
    ret (stored (Ok result) e)
  else if bool_decide (pp_State r = "finished") || bool_decide (pp_State r = "canceled") then ret (replay t p r)
  else ret (Err ERecord).

(** The first execution: the intent is durable before [Prepare] runs. *)
Definition outcome (t : Ticket) (p : Replacement) (e : option serr) : MC W (result serr Result) :=
  match e with
  | None =>
      let* now := ask ho_now in
      ret (NewSuccessResult (W:=W) (tk_OperationID t) (tk_RequestID t) (tk_Type t)
             (y_replacementResult (ReplResult (rp_RepoID p) (rp_Path p) (rp_ObservedLockID p) "prepared")) now)
  | Some e =>
      if serr_is EDenied e then fail t KDenied
      else if serr_is EStale e then fail t KStale
      else if serr_is EOwnerUnavailable e then fail t KOwnerUnavailable
      else ret (Err e)
  end.

Definition answerFresh (file : string) (session : Session) (t : Ticket) (p : Replacement) (digest : string)
    : MC W (result serr Result) :=
  let* e := ask (pf_write file (Prep preparationSchema digest "started" None None)) in
  match e with
  | Some e => ret (Err e)
  | None =>
      let* e := Prepare session p in
      let* result := outcome t p e in
      ok? result := result in
      let* e := ask (pf_write file (Prep preparationSchema digest "finished" (Some result) None)) in
      ret (stored (Ok result) e)
  end.

(** The body under the operation's file lock. *)
Definition handleUnderLock (session : Session) (t : Ticket) (p : Replacement) : MC W (result serr Result) :=
  let* e := ask ho_ctxErr in
  match e with
  | Some e => ret (Err e)
  | None =>
      let file := recordFile (tk_OperationID t) in
      let digest := pf_digest (se_RealmID session) t in
      let* raw := ask (pf_read file) in
      match raw with
      | Ok None => ret (Err ERecord)
      | Ok (Some r) => answerRecorded file t p digest r
      | Err e => if serr_is ENotExist e then answerFresh file session t p digest else ret (Err e)
      end
  end.

(** [WithFileLock] around a body that returns an answer. *)
Definition lockedAnswer (lock : string) (fn : MC W (result serr Result)) : MC W (result serr Result) :=
  let* e := ask (ho_lockFile false lock) in
  match e with
  | Some e => ret (Err e)
  | None =>
      let* r := fn in
      let* _ := ask (ho_unlockFile lock) in
      ret r
  end.

Definition Handle (session : Session) (t : Ticket) : MC W (result serr Result) :=
  match validateSession session with Some e => ret (Err e) | None =>
  match validateTicket (W:=W) t with Some _ => ret (Err ETicket) | None =>
  if negb (bool_decide (tk_Type t = TicketPrepare)) || negb (bool_decide (tk_ClientID t = se_ClientID session))
  then ret (Err EActor)
  else match decodeStrict (x_replacement (W:=W)) (tk_Payload t) with Err _ => ret (Err ETicket) | Ok p =>
  let* e := authorizeRequester (pr_ServiceWC s) session (rp_RepoID p) in
  match e with Some _ => fail t KDenied | None =>
  if negb (IsAbs (pr_Root s)) then fail t KUnavailable
  else
    let* e := prepareRoot in
    match e with Some e => ret (Err e) | None =>
    lockedAnswer (recordLock (tk_OperationID t)) (handleUnderLock session t p)
    end
  end end end end.

(** ** passport_cancellation.go *)

(** The record a cancellation may overwrite: [Ok (Some r)] is written back as
    canceled, [Ok None] needs no write. *)
Definition cancellable (original : Ticket) (p : Replacement) (r : preparationRecord) : result serr (option preparationRecord) :=
  if bool_decide (pp_State r = "started") then
    match pp_Result r with Some _ => Err ERecord | None => Ok (Some r) end
  else if bool_decide (pp_State r = "finished") || bool_decide (pp_State r = "canceled") then
    match pp_Result r with
    | None => Err ERecord
    | Some result =>
        match receiptFits original p result with
        | Some e => Err e
        | None =>
            if bool_decide (pp_State r = "canceled") then if isAbort result then Ok None else Err ERecord
            else Ok (Some (Prep (pp_Schema r) (pp_Digest r) (pp_State r) (pp_Result r) (Some result)))
        end
    end
  else Err ERecord.

(** Seal the record; the answer says whether the ticket is bound elsewhere. *)
Definition seal (file : string) (original : Ticket) (r : preparationRecord) : MC W (result serr bool) :=
  let* aborted := fail original KAborted in
  ok? aborted := aborted in
  let* e := ask (pf_write file (Prep (pp_Schema r) (pp_Digest r) "canceled" (Some aborted) (pp_PriorResult r))) in
  ret (match e with Some e => Err e | None => Ok false end).

Definition cancelUnderLock (session : Session) (original : Ticket) (p : Replacement) : MC W (result serr bool) :=
  let* e := ask ho_ctxErr in
  match e with
  | Some e => ret (Err e)
  | None =>
      let file := recordFile (tk_OperationID original) in
      let digest := pf_digest (se_RealmID session) original in
      let* raw := ask (pf_read file) in
      match raw with
      | Ok None => ret (Err ERecord)
      | Ok (Some r) =>
          if negb (bool_decide (pp_Schema r = preparationSchema)) then ret (Err ERecord)
          else if negb (bool_decide (pp_Digest r = digest)) then ret (Ok true)
          else match cancellable original p r with
               | Err e => ret (Err e)
               | Ok None => ret (Ok false)
               | Ok (Some r) => seal file original r
               end
      | Err e =>
          if serr_is ENotExist e then seal file original (Prep preparationSchema digest "" None None)
          else ret (Err e)
      end
  end.

Definition Cancel (session : Session) (t : Ticket) : MC W (result serr Result) :=
  match validateSession session with Some e => ret (Err e) | None =>
  match validateTicket (W:=W) t with Some _ => ret (Err ETicket) | None =>
  if negb (bool_decide (tk_Type t = TicketCancel)) || negb (bool_decide (tk_ClientID t = se_ClientID session))
  then ret (Err EActor)
  else match decodeStrict (x_cancel (W:=W)) (tk_Payload t) with Err _ => ret (Err ETicket) | Ok original =>
  match decodeStrict (x_replacement (W:=W)) (tk_Payload original) with Err _ => ret (Err ETicket) | Ok p =>
  let* e := authorizePassportCleanup (pr_ServiceWC s) session in
  match e with Some _ => fail t KDenied | None =>
  if negb (IsAbs (pr_Root s)) then fail t KUnavailable
  else
    let* e := prepareRoot in
    match e with Some e => ret (Err e) | None =>
    let* e := ask (ho_lockFile false (recordLock (tk_OperationID original))) in
    match e with Some e => ret (Err e) | None =>
    let* r := cancelUnderLock session original p in
    let* _ := ask (ho_unlockFile (recordLock (tk_OperationID original))) in
    match r with
    | Err e => ret (Err e)
    | Ok true => fail t KRequestConflict
    | Ok false =>
        let* now := ask ho_now in
        ret (NewSuccessResult (W:=W) (tk_OperationID t) (tk_RequestID t) (tk_Type t)
               (y_cancelResult (CanResult (tk_OperationID original) (tk_RequestID original) "canceled")) now)
    end end end end end end end end.

End Preparations.
