(* ===== verification/PreparationProps.v ===== *)
(** * PreparationProps: a preparation releases once, answers once, and only with authority

    The world of [PS] keeps the record files of the preparations and logs what an
    operation read and released; everything else, the clock, the canonical records,
    the locks, failures of any call and the death of the worker, is answered by an
    arbitrary world underneath.  [history] is a sequence of requests, each run to
    its end or to a death, with the world moving in between. *)
From S2P Require Import Prelude GoStrings Passport Naming ControlTickets ServerBase RealmRecords RealmProps LockAuthority ServerHost Preparations.
From Stdlib Require Import Ascii String.

Open Scope string_scope.
Open Scope go_scope.

(** ** The recorded world *)
Inductive event :=
| RdClient (path : string) (r : result serr clientIdentity)
| RdRealm (path : string) (r : result serr realmRecord)
| RdRepository (path : string) (r : result serr repositoryRecord)
| RdGrant (path : string) (r : result serr RealmGrantRecord)
| RdRelease (wc repoID audit : string) (r : option serr)
| RdLock (repoID path : string) (r : result serr (option svnAdminLock))
| RdOwner (repoID path : string) (r : result serr string)
| RdNow (t : Time)
| Released (repoID path owner token : string) (r : option serr).

Record PS (W : Type) := MkPS { ps_world : W; ps_files : gmap string preparationRecord; ps_log : list event }.
Arguments MkPS {W}. Arguments ps_world {W}. Arguments ps_files {W}. Arguments ps_log {W}.

(** What the disk does to a call: a read may fail, a write may fail before or
    after it took effect. *)
Class Disk (W : Type) := {
  dk_read : W -> option nat * W;
  dk_write : W -> option (nat * bool) * W;
  dk_digest : string -> Ticket -> string
}.

Section World.
  Context {W : Type} {mortal : Mortal W} {records : Records W} {locks : Locks W} {host : Host W} {owners : Owners W} {disk : Disk W}.

Definition lift {A} (f : W -> A * W) : PS W -> A * PS W := fun s =>
  let '(a, w) := f (ps_world s) in (a, MkPS w (ps_files s) (ps_log s)).

Definition logged {A} (e : A -> event) (f : W -> A * W) : PS W -> A * PS W := fun s =>
  let '(a, w) := f (ps_world s) in (a, MkPS w (ps_files s) (e a :: ps_log s)).

#[export] Instance psMortal : Mortal (PS W) := {| dies := lift dies |}.

#[export] Instance psRecords : Records (PS W) := {|
  rd_client p := logged (RdClient p) (rd_client p);
  rd_realm p := logged (RdRealm p) (rd_realm p);
  rd_repository p := logged (RdRepository p) (rd_repository p);
  rd_grant p := logged (RdGrant p) (rd_grant p);
  rd_normalizeBranding := rd_normalizeBranding;
  rd_validateRelease := rd_validateRelease;
  rd_verifyRelease a b c := logged (RdRelease a b c) (rd_verifyRelease a b c)
|}.

#[export] Instance psLocks : Locks (PS W) := {|
  lk_inspect r p := logged (RdLock r p) (lk_inspect r p);
  lk_unlock r p o t := logged (Released r p o t) (lk_unlock r p o t)
|}.

#[export] Instance psOwners : Owners (PS W) := {|
  ow_pathOwner := match ow_pathOwner with
                  | Some f => Some (fun r p => logged (RdOwner r p) (f r p))
                  | None => None
                  end
|}.

#[export] Instance psHost : Host (PS W) := {|
  ho_now := logged RdNow ho_now;
  ho_ctxErr := lift ho_ctxErr;
  ho_lstat p := lift (ho_lstat p);
  ho_stat p := lift (ho_stat p);
  ho_readlink p := lift (ho_readlink p);
  ho_symlink a b := lift (ho_symlink a b);
  ho_mkdirAll p := lift (ho_mkdirAll p);
  ho_syncDirectory p := lift (ho_syncDirectory p);
  ho_readFile p := lift (ho_readFile p);
  ho_readDir p := lift (ho_readDir p);
  ho_lockFile b p := lift (ho_lockFile b p);
  ho_unlockFile p := lift (ho_unlockFile p);
  ho_noSuchProcess p := lift (ho_noSuchProcess p);
  ho_output a b := lift (ho_output a b)
|}.

#[export] Instance psFiles : PreparationFiles (PS W) := {|
  pf_read p s := let '(fault, w) := dk_read (ps_world s) in
                 (match fault, ps_files s !! p with
                  | Some n, _ => Err (EIO n)
                  | None, Some r => Ok (Some r)
                  | None, None => Err ENotExist
                  end, MkPS w (ps_files s) (ps_log s));
  pf_write p r s := let '(fault, w) := dk_write (ps_world s) in
                    match fault with
                    | None => (None, MkPS w (<[p := r]> (ps_files s)) (ps_log s))
                    | Some (n, after) => (Some (EIO n), MkPS w (if after then <[p := r]> (ps_files s) else ps_files s) (ps_log s))
                    end;
  pf_digest := dk_digest
|}.

(** ** The log as facts *)
Definition seen (s : PS W) : facts :=
  Facts (fun p c => RdClient p (Ok c) ∈ ps_log s) (fun p c => RdRealm p (Ok c) ∈ ps_log s)
        (fun p c => RdRepository p (Ok c) ∈ ps_log s) (fun p c => RdGrant p (Ok c) ∈ ps_log s)
        (fun a b c => RdRelease a b c None ∈ ps_log s).

Lemma seen_incl s s' : ps_log s ⊆ ps_log s' -> incl (seen s) (seen s').
Proof. intros H. split; simpl; intros; by apply H. Qed.

Lemma logged_spec {A} (e : A -> event) (f : W -> A * W) s :
  ps_log (logged e f s).2 = e (logged e f s).1 :: ps_log s /\ ps_files (logged e f s).2 = ps_files s.
Proof. unfold logged. by destruct (f (ps_world s)). Qed.

Lemma lift_spec {A} (f : W -> A * W) s : ps_log (lift f s).2 = ps_log s /\ ps_files (lift f s).2 = ps_files s.
Proof. unfold lift. by destruct (f (ps_world s)). Qed.

Lemma logged_incl {A} (e : A -> event) (f : W -> A * W) s : incl (seen s) (seen (logged e f s).2).
Proof. apply seen_incl. rewrite (proj1 (logged_spec e f s)). intros x Hx. by right. Qed.

#[export] Instance psObserved : Observed (PS W) seen.
Proof.
  split; intros; cbn [dies rd_client rd_realm rd_repository rd_grant rd_verifyRelease psMortal psRecords].
  1: { apply seen_incl. by rewrite (proj1 (lift_spec _ _)). }
  all: split; [apply logged_incl|].
  all: intros; simpl; rewrite (proj1 (logged_spec _ _ _)); apply list_elem_of_here || idtac.
  all: try match goal with H : _ = _ |- _ => rewrite H end; apply list_elem_of_here.
Qed.

End World.

(** ** Computations that release nothing and write no record *)
Definition isReleased (e : event) : bool := match e with Released _ _ _ _ _ => true | _ => false end.
Definition releases (l : list event) : list event := List.filter isReleased l.

Section Rules.
  Context {W : Type} {ids : Ids} {codec : Comments} {tables : UnicodeTables} {wire : Wire (PS W)} {replies : Replies}.
  Context {mortal : Mortal W} {records : Records W} {locks : Locks W} {host : Host W} {owners : Owners W} {disk : Disk W}.
  Implicit Types (s : PS W).

Record calm s s' : Prop := {
  calm_files : ps_files s' = ps_files s;
  calm_releases : releases (ps_log s') = releases (ps_log s);
  calm_log : ps_log s ⊆ ps_log s'
}.

#[export] Instance calm_preorder : PreOrder calm.
Proof. split; [by split|]. intros a b c [? ? ?] [? ? ?]. split; [congruence..|set_solver]. Qed.

(** [m] is calm, and [P] holds of its result and of the log it leaves. *)
Definition logs {A} (m : MC (PS W) A) (P : A -> list event -> Prop) : Prop :=
  forall s, wpc (calm s) m (fun a s' => calm s s' /\ P a (ps_log s')) s.

Notation quiet m := (logs m (fun _ _ => True)).

Lemma logs_ret {A} (a : A) (P : A -> list event -> Prop) : (forall l, P a l) -> logs (ret a) P.
Proof. intros H s. apply wpc_ret. split; [reflexivity|apply H]. Qed.

Lemma logs_bind {A B} (m : MC (PS W) A) (k : A -> MC (PS W) B) P Q :
  logs m P -> (forall a, logs (k a) (fun b l => (exists l0, l0 ⊆ l /\ P a l0) -> Q b l)) -> logs (bind m k) Q.
Proof.
  intros Hm Hk s. apply wpc_bind. specialize (Hm s). unfold wpc in *.
  destruct (m s) as [[a|] s1]; [|done]. destruct Hm as [H1 HP]. specialize (Hk a s1). unfold wpc in Hk.
  destruct (k a s1) as [[b|] s2]; [|by etrans].
  destruct Hk as [H2 HQ]. split; [by etrans|]. apply HQ. exists (ps_log s1). split; [by apply H2|done].
Qed.

Lemma logs_mono {A} (m : MC (PS W) A) (P Q : A -> list event -> Prop) : logs m P -> (forall a l, P a l -> Q a l) -> logs m Q.
Proof. intros Hm H s. eapply wpc_mono; [apply Hm|]. naive_solver. Qed.

Lemma quiet_bind {A B} (m : MC (PS W) A) (k : A -> MC (PS W) B) : quiet m -> (forall a, quiet (k a)) -> quiet (bind m k).
Proof. intros Hm Hk. eapply logs_bind; [exact Hm|]. intros a. eapply logs_mono; [apply Hk|done]. Qed.

Lemma calm_lift {A} (f : W -> A * W) s : calm s (lift f s).2.
Proof. destruct (lift_spec f s) as [H1 H2]. by split; rewrite ?H1, ?H2. Qed.

Lemma logs_lift {A} (f : W -> A * W) : quiet (ask (lift f)).
Proof.
  intros s. pose proof (calm_lift dies s) as Hd. apply wpc_asked; intros w1 E; cbn in E, Hd; rewrite E in Hd; [done|].
  split; [etrans; [exact Hd|]; apply calm_lift|done].
Qed.

Lemma logs_logged {A} (e : A -> event) (f : W -> A * W) : (forall a, isReleased (e a) = false) ->
  logs (ask (logged e f)) (fun a l => e a ∈ l).
Proof.
  intros He s. pose proof (calm_lift dies s) as Hd. apply wpc_asked; intros w1 E; cbn in E, Hd; rewrite E in Hd; [done|].
  destruct (logged_spec e f w1) as [H1 H2]. split.
  - etrans; [exact Hd|]. split; [done|rewrite H1; unfold releases; cbn; by rewrite He|rewrite H1; intros x Hx; by right].
  - rewrite H1. left.
Qed.

Lemma quiet_logged {A} (e : A -> event) (f : W -> A * W) : (forall a, isReleased (e a) = false) -> quiet (ask (logged e f)).
Proof. intros He. eapply logs_mono; [by apply logs_logged|done]. Qed.

(** Facts found and calm together. *)
Definition factsOf (l : list event) : facts :=
  Facts (fun p c => RdClient p (Ok c) ∈ l) (fun p c => RdRealm p (Ok c) ∈ l)
        (fun p c => RdRepository p (Ok c) ∈ l) (fun p c => RdGrant p (Ok c) ∈ l)
        (fun a b c => RdRelease a b c None ∈ l).

Lemma factsOf_incl l l' : l ⊆ l' -> incl (factsOf l) (factsOf l').
Proof. intros H. split; simpl; intros; by apply H. Qed.

Lemma logs_finds {A} (m : MC (PS W) A) (P : A -> facts -> Prop) :
  quiet m -> finds (seen := seen) m P -> logs m (fun a l => P a (factsOf l)).
Proof.
  intros Hq Hf s. specialize (Hq s). specialize (Hf s). unfold wpc in *. destruct (m s) as [[a|] s']; [|done].
  split; [by apply Hq|by apply Hf].
Qed.

End Rules.

Notation quiet m := (logs m (fun _ _ => True)).
#[export] Hint Resolve quiet_bind : filees.

(** Walk through the branches of a calm computation. *)
Ltac quietly :=
  repeat first
    [ assumption
    | apply logs_ret; done
    | apply logs_lift
    | apply quiet_logged; done
    | apply quiet_bind; [|intros ?]
    | progress unfold orElse
    | match goal with
      | |- logs (match ?x with _ => _ end) _ => destruct x
      | |- logs (if ?x then _ else _) _ => destruct x
      | |- logs (let '_ := ?x in _) _ => destruct x
      end ].

Section Calls.
  Context {W : Type} {ids : Ids} {codec : Comments} {tables : UnicodeTables} {wire : Wire (PS W)} {replies : Replies}.
  Context {mortal : Mortal W} {records : Records W} {locks : Locks W} {host : Host W} {owners : Owners W} {disk : Disk W}.
  Variable d : Preparations.
  Implicit Types (s : PS W).

Lemma quiet_client wc id : quiet (client (W := PS W) wc id).
Proof. unfold client. quietly. Qed.

Lemma quiet_realmActive wc id : quiet (realmActive (W := PS W) wc id).
Proof. unfold realmActive, readRealmRecord. quietly. Qed.

Lemma quiet_repository wc id : quiet (loadActiveRepository (W := PS W) wc id).
Proof. unfold loadActiveRepository, validateRepositoryArchive. quietly. Qed.

Lemma quiet_authorizeAccess wc se repoID write : quiet (authorizeAccess (W := PS W) wc se repoID write).
Proof.
  unfold authorizeAccess. pose proof quiet_client. pose proof quiet_realmActive. pose proof quiet_repository. quietly; auto.
Qed.

Lemma quiet_cleanup wc se : quiet (authorizePassportCleanup (W := PS W) wc se).
Proof. unfold authorizePassportCleanup. pose proof quiet_client. pose proof quiet_realmActive. quietly; auto. Qed.

Lemma quiet_fail t key : quiet (fail (W := PS W) t key).
Proof. unfold fail. quietly. Qed.

Lemma quiet_outcome t p e : quiet (outcome (W := PS W) t p e).
Proof. unfold outcome. pose proof quiet_fail. quietly; auto. Qed.

Lemma quiet_prepareRoot : quiet (prepareRoot (W := PS W) d).
Proof. unfold prepareRoot. quietly. Qed.

End Calls.

(** ** The authority behind a release *)
Section Authority.
  Context {W : Type} {ids : Ids} {codec : Comments} {tables : UnicodeTables} {wire : Wire (PS W)} {replies : Replies}.
  Context {mortal : Mortal W} {records : Records W} {locks : Locks W} {host : Host W} {owners : Owners W} {disk : Disk W}.
  Variable d : Preparations.
  Implicit Types (s : PS W) (l : list event).

Definition renewable l (se : Session) (req : Replacement) (lock : svnAdminLock) (m : Metadata) : Prop :=
  rp_Mode req = "renew" /\ al_Owner lock = se_ClientID se /\ md_PassportID m = rp_PassportID req /\
  md_InstanceUID m = rp_InstanceUID req /\
  exists now, RdNow now ∈ l /\ (now < md_ExpiresAt m)%Z /\ (now < md_HardExpiresAt m)%Z.

Definition migratable l (se : Session) (req : Replacement) (lock : svnAdminLock) : Prop :=
  rp_Mode req = "migrate" /\ RdOwner (rp_RepoID req) (rp_Path req) (Ok (se_RealmID se)) ∈ l /\
  exists holder, clientFact (factsOf l) (pr_ServiceWC d) (al_Owner lock) holder /\ ci_RealmID holder = se_RealmID se.

(** What the server must have read, during this request, before it releases the
    lock of [owner]: that the requester may write the repository, that the path
    carries a well-formed passport lock with the observed token, and either that
    it is the requester's own unexpired passport or that the path belongs to the
    requester's realm and the lock to a client of that realm. *)
Definition licensed l (se : Session) (req : Replacement) (owner : string) : Prop :=
  mayAccess (W := PS W) (factsOf l) (pr_ServiceWC d) se (rp_RepoID req) true /\
  exists lock m, RdLock (rp_RepoID req) (rp_Path req) (Ok (Some lock)) ∈ l /\
    al_Token lock = rp_ObservedLockID req /\ al_Owner lock = owner /\
    ParseComment (al_Comment lock) = Some m /\ validLifetime m = true /\
    (renewable l se req lock m \/ migratable l se req lock).

Lemma mayAccess_incl F G wc se repoID write : incl F G ->
  mayAccess (W := PS W) F wc se repoID write -> mayAccess (W := PS W) G wc se repoID write.
Proof.
  intros Hi (Hp & (c & Hc & Hc') & Hr & repo & Hrepo & Hw & Ho). split; [done|].
  split; [exists c; split; [by eapply clientFact_incl|done]|]. split; [by eapply realmFact_incl|].
  exists repo. split; [by eapply repositoryFact_incl|]. split; [done|].
  destruct Ho as [|(Hu & Hr' & path & g & Hpath & Hg & Hrest)]; [by left|]. right. split; [done|].
  split; [by eapply realmFact_incl|]. exists path, g. split; [done|]. split; [by apply (incl_grant _ _ Hi)|done].
Qed.

Lemma authority_sub l l' se req lock m : l ⊆ l' -> renewable l se req lock m \/ migratable l se req lock ->
  renewable l' se req lock m \/ migratable l' se req lock.
Proof.
  intros Hsub [(?&?&?&?&now&?&?)|(?&?&h&?&?)]; [left|right].
  - split_and!; try done. exists now. split; [by apply Hsub|done].
  - split_and!; try done; [by apply Hsub|]. exists h. split; [eapply clientFact_incl; [by apply factsOf_incl|done]|done].
Qed.

Lemma licensed_sub l l' se req owner : l ⊆ l' -> licensed l se req owner -> licensed l' se req owner.
Proof.
  intros Hsub (Ha & lk & m & H3 & H4 & H5 & H6 & H7 & H8). split; [eapply mayAccess_incl; [by apply factsOf_incl|done]|].
  exists lk, m. split_and!; try done; [by apply Hsub|by eapply authority_sub].
Qed.

Lemma logs_mayRenew se req lock m :
  logs (mayRenew (W := PS W) se req lock m) (fun e l => e = None -> rp_Mode req = "renew" -> renewable l se req lock m).
Proof.
  unfold mayRenew. destruct (_ || _) eqn:E; [by apply logs_ret|]. bool_to_prop.
  eapply logs_bind; [by apply logs_logged|]. intros now. apply logs_ret. intros l (l0 & Hl & Hnow) Hn Hm.
  destruct (_ || _) eqn:E2; [done|]. bool_to_prop. unfold Before in *. bool_to_prop.
  split_and!; [done..|]. exists now. split; [by apply Hl|done].
Qed.

Lemma logs_mayMigrate se req lock :
  logs (mayMigrate (W := PS W) d se req lock) (fun e l => e = None -> rp_Mode req = "migrate" -> migratable l se req lock).
Proof.
  unfold mayMigrate. cbn [ow_pathOwner psOwners]. destruct ow_pathOwner as [pathOwner|]; [|by apply logs_ret].
  eapply logs_bind; [by apply logs_logged|]. intros [owner|e]; [|by apply logs_ret].
  case_bool_decide; [by apply logs_ret|]. case_bool_decide as Ho; [|by apply logs_ret]. simpl.
  eapply logs_bind; [apply logs_finds; [apply quiet_client|apply finds_client]|].
  intros [holder|e]; apply logs_ret; [|done]. intros l (l1 & Hl1 & Hc) (l0 & Hl0 & Hin) Hn Hm.
  case_bool_decide; [|done]. split; [done|]. split; [apply Hl0; congruence|]. exists holder. split; [|done].
  eapply (clientFact_incl (factsOf l1)); [by apply factsOf_incl|by apply Hc].
Qed.

Lemma logs_mayReplace se req lock :
  logs (mayReplace (W := PS W) d se req lock) (fun e l => e = None -> rp_Mode req = "renew" \/ rp_Mode req = "migrate" ->
    exists m, ParseComment (al_Comment lock) = Some m /\ validLifetime m = true /\ (renewable l se req lock m \/ migratable l se req lock)).
Proof.
  unfold mayReplace. destruct (ParseComment _) as [m|]; [|by apply logs_ret].
  destruct (_ && _); [|by apply logs_ret]. simpl. destruct (validLifetime m) eqn:Hv; [|by apply logs_ret]. simpl.
  case_bool_decide; [eapply logs_mono; [apply logs_mayRenew|]; naive_solver|].
  case_bool_decide; [eapply logs_mono; [apply logs_mayMigrate|]; naive_solver|]. apply logs_ret. naive_solver.
Qed.

(** One calm step of a computation that is not calm as a whole. *)
Lemma wpc_logs {A B} (m : MC (PS W) A) (k : A -> MC (PS W) B) P D Q s :
  logs m P -> (forall s', calm s s' -> D s') ->
  (forall a s', calm s s' -> P a (ps_log s') -> wpc D (k a) Q s') -> wpc D (bind m k) Q s.
Proof.
  intros Hm HD Hk. apply wpc_bind. specialize (Hm s). unfold wpc in *.
  destruct (m s) as [[a|] s']; [|by apply HD]. destruct Hm. by apply Hk.
Qed.

(** What [Prepare] does: nothing it does not report as an error, or one attempt to
    release the observed lock, with authority. *)
Definition prepared s (se : Session) (req : Replacement) (e : option serr) s' : Prop :=
  (calm s s' /\ e <> None) \/
  exists owner, ps_files s' = ps_files s /\
    releases (ps_log s') = Released (rp_RepoID req) (rp_Path req) owner (rp_ObservedLockID req) e :: releases (ps_log s) /\
    licensed (ps_log s') se req owner.

Lemma wpc_unlock s0 s se req lock :
  calm s0 s -> licensed (ps_log s) se req (al_Owner lock) ->
  wpc (calm s0) (ask (lk_unlock (rp_RepoID req) (rp_Path req) (al_Owner lock) (rp_ObservedLockID req)))
    (prepared s0 se req) s.
Proof.
  intros Hc Hl. pose proof (calm_lift dies s) as Hd. apply wpc_asked; intros w1 E; cbn in E, Hd; rewrite E in Hd; [by etrans|].
  cbn [lk_unlock psLocks]. set (e := Released _ _ _ _). set (f := lk_unlock _ _ _ _). destruct (logged_spec e f w1) as [H1 H2].
  right. exists (al_Owner lock). assert (Hw : calm s0 w1) by (by etrans). split; [rewrite H2; by apply calm_files|].
  rewrite H1. split; [unfold e, releases; simpl; f_equal; by apply calm_releases|].
  eapply licensed_sub; [|exact Hl]. intros x Hx. right. by apply Hd.
Qed.

Lemma wpc_Prepare se req s : wpc (calm s) (Prepare (W := PS W) d se req) (prepared s se req) s.
Proof.
  assert (Hret : forall s' e, calm s s' -> wpc (calm s) (ret (Some e)) (prepared s se req) s') by (intros; left; done).
  unfold Prepare, orElse. eapply wpc_logs; [apply logs_lift|done|]. intros [e|] s1 C1 _; [by apply Hret|].
  destruct (negb (bool_decide _) && _) eqn:Hm; [by apply Hret|].
  assert (Hmode : rp_Mode req = "renew" \/ rp_Mode req = "migrate").
  { apply andb_false_iff in Hm as [Hm|Hm]; bool_to_prop; auto. }
  clear Hm.
  destruct (repositoryPath _ _ _); [|by apply Hret]. destruct (validateObservedLockID _); [by apply Hret|].
  destruct (_ && isUUID (se_RealmID se)); [|by apply Hret]. simpl.
  eapply wpc_logs; [apply logs_finds; [apply quiet_authorizeAccess|apply finds_authorizeAccess]|intros; by etrans|].
  intros [e|] s2 C2 Hacc; [apply Hret; by etrans|]. assert (C2' : calm s s2) by (by etrans). specialize (Hacc eq_refl).
  eapply wpc_logs; [by apply logs_logged|intros; by etrans|]. intros [[lock|]|e] s3 C3 Hlock; [|apply Hret; by etrans..].
  assert (C3' : calm s s3) by (by etrans). case_bool_decide as Ht; [|by apply Hret]. simpl.
  eapply wpc_logs; [apply logs_mayReplace|intros; by etrans|]. intros [e|] s4 C4 Hrep; [apply Hret; by etrans|].
  destruct (Hrep eq_refl Hmode) as (m & Hp & Hv & Hlic).
  eapply wpc_logs; [apply logs_lift|intros; etrans; [exact C3'|]; by etrans|].
  intros [e|] s5 C5 _; [apply Hret; etrans; [exact C3'|]; by etrans|].
  assert (C45 : calm s3 s5) by (by etrans).
  apply wpc_unlock; [by etrans|]. split.
  - eapply mayAccess_incl; [apply factsOf_incl, (calm_log s2); by etrans|done].
  - exists lock, m. split; [by apply (calm_log _ _ C45)|]. split_and!; [done..|].
    eapply authority_sub; [by apply (calm_log _ _ C5)|done].
Qed.

End Authority.

(** ** The life of a record *)

(** A record starts, finishes, and may be canceled at any time; nothing follows a
    cancellation and a finished record keeps its answer until then. *)
Definition later (a b : option preparationRecord) : Prop :=
  match a, b with
  | None, _ => True
  | Some _, None => False
  | Some a, Some b => b = a \/ pp_State a = "started" \/ (pp_State a = "finished" /\ pp_State b = "canceled")
  end.

#[export] Instance later_preorder : PreOrder later.
Proof.
  split; [intros [a|]; simpl; auto|]. intros [a|] [b|] [c|]; simpl; try done.
  intros [->|[?|[? ?]]] [->|[?|[? ?]]]; auto; congruence.
Qed.

Section Requests.
  Context {W : Type} {ids : Ids} {codec : Comments} {tables : UnicodeTables} {wire : Wire (PS W)} {replies : Replies}.
  Context {mortal : Mortal W} {records : Records W} {locks : Locks W} {host : Host W} {owners : Owners W} {disk : Disk W}.
  Variable d : Preparations.
  Implicit Types (s : PS W) (t : Ticket) (p : Replacement).

Notation payload t := (decodeStrict (x_replacement (W := PS W)) (tk_Payload t)).
Notation fileOf t := (recordFile d (tk_OperationID t)).

(** The release behind a success was confirmed. *)
Definition confirmed t (res : Result) (l l0 : list event) : Prop :=
  rs_OperationID res = tk_OperationID t /\ exists repoID path owner token, l = Released repoID path owner token None :: l0.

(** One request on the record of [t]: other records stay, its own moves forward,
    a release is made only if there was no record before, and a success is
    recorded only after a confirmed release. *)
Record did (se : Session) t s s' : Prop := {
  did_other file : file <> fileOf t -> ps_files s' !! file = ps_files s !! file;
  did_later : later (ps_files s !! fileOf t) (ps_files s' !! fileOf t);
  did_release : releases (ps_log s') = releases (ps_log s) \/
    (ps_files s !! fileOf t = None /\ is_Some (ps_files s' !! fileOf t) /\
     exists p owner r, payload t = Ok p /\
       releases (ps_log s') = Released (rp_RepoID p) (rp_Path p) owner (rp_ObservedLockID p) r :: releases (ps_log s) /\
       licensed d (ps_log s') se p owner);
  did_new r res : ps_files s' !! fileOf t = Some r -> pp_State r = "finished" -> pp_Result r = Some res -> rs_Status res = "ok" ->
    ps_files s !! fileOf t = Some r \/ confirmed t res (releases (ps_log s')) (releases (ps_log s))
}.

(** An answer of success is the recorded one. *)
Definition vouched t (a : result serr Result) s' : Prop :=
  forall res, a = Ok res -> rs_Status res = "ok" ->
  rs_OperationID res = tk_OperationID t /\
  exists r, ps_files s' !! fileOf t = Some r /\ pp_State r = "finished" /\ pp_Result r = Some res.

Lemma did_calm se t s s' : calm s s' -> did se t s s'.
Proof. intros [Hf Hr _]. split; [by rewrite Hf|by rewrite Hf|by left|rewrite Hf; auto]. Qed.

Lemma did_calm_r se t s s1 s2 : did se t s s1 -> calm s1 s2 -> did se t s s2.
Proof.
  intros [H1 H2 H3 H4] [Hf Hr Hl]. split; rewrite ?Hf, ?Hr; [done..| |done].
  destruct H3 as [?|(? & ? & p & o & r & ? & ? & ?)]; [by left|right]. split_and!; [done..|].
  exists p, o, r. split_and!; [done..|]. by eapply licensed_sub.
Qed.

Lemma did_calm_l se t s s1 s2 : calm s s1 -> did se t s1 s2 -> did se t s s2.
Proof. intros [Hf Hr Hl] [H1 H2 H3 H4]. split; rewrite <- ?Hf, <- ?Hr; done. Qed.

Lemma vouched_calm t a s2 s3 : vouched t a s2 -> calm s2 s3 -> vouched t a s3.
Proof. intros Hv [Hf _ _] res Ha Hs. unfold vouched in Hv. rewrite Hf. by apply Hv. Qed.

(** *** Writing a record *)
Record wrote (file : string) (r : preparationRecord) s (e : option serr) s' : Prop := {
  wr_log : ps_log s' = ps_log s;
  wr_files : ps_files s' = <[file := r]> (ps_files s) \/ (e <> None /\ ps_files s' = ps_files s)
}.

Lemma wpc_writeRecord {B} file r (k : option serr -> MC (PS W) B) D Q s :
  (forall s', calm s s' -> D s') -> (forall e s', wrote file r s e s' -> wpc D (k e) Q s') ->
  wpc D (let* e := ask (pf_write file r) in k e) Q s.
Proof.
  intros HD Hk. apply wpc_bind. pose proof (calm_lift dies s) as Hd. destruct (lift_spec dies s) as [L1 L2].
  apply wpc_asked; intros s1 E; cbn in E; rewrite E in Hd, L1, L2; simpl in *; [by apply HD|].
  destruct (dk_write (ps_world s1)) as [[[n []]|] w]; apply Hk; split; simpl; rewrite ?L1, ?L2; auto.
Qed.

Lemma wrote_other file r s e s' f : wrote file r s e s' -> f <> file -> ps_files s' !! f = ps_files s !! f.
Proof. intros [_ [->|[_ ->]]] Hf; [by rewrite lookup_insert_ne|done]. Qed.

Lemma wrote_done file r s s' : wrote file r s None s' -> ps_files s' !! file = Some r.
Proof. intros [_ [->|[? _]]]; [by rewrite lookup_insert_eq|done]. Qed.

Lemma wrote_later file r s e s' : wrote file r s e s' -> later (ps_files s !! file) (Some r) ->
  later (ps_files s !! file) (ps_files s' !! file).
Proof. intros [_ [->|[_ ->]]] H; [by rewrite lookup_insert_eq|reflexivity]. Qed.

Lemma did_wrote se t r s e s' : wrote (fileOf t) r s e s' -> later (ps_files s !! fileOf t) (Some r) ->
  (forall res, pp_Result r = Some res -> rs_Status res <> "ok") -> did se t s s'.
Proof.
  intros Hw Hl Hr. split; [intros; by eapply wrote_other|by eapply wrote_later| |].
  - left. by rewrite (wr_log _ _ _ _ _ Hw).
  - intros r' res H1 _ H3 H4. destruct Hw as [_ [E|[_ E]]]; rewrite E in H1; [|by left].
    rewrite lookup_insert_eq in H1. injection H1 as <-. by destruct (Hr res).
Qed.

(** *** Results *)
Lemma checked_Ok r x : checked (W := PS W) r = Ok x -> x = r.
Proof. unfold checked. destruct (validateResult r); naive_solver. Qed.

Lemma logs_fail t key : logs (fail (W := PS W) t key) (fun a _ => forall res, a = Ok res -> rs_Status res = "error").
Proof.
  unfold fail. eapply logs_bind; [by apply quiet_logged|]. intros now. apply logs_ret. intros l _ res Hres.
  apply checked_Ok in Hres. by subst res.
Qed.

Lemma logs_outcome t p e : logs (outcome (W := PS W) t p e)
  (fun a _ => forall res, a = Ok res -> rs_Status res = "ok" -> e = None /\ rs_OperationID res = tk_OperationID t).
Proof.
  unfold outcome. destruct e as [e|].
  - assert (Hf : forall key, logs (fail (W := PS W) t key)
      (fun a _ => forall res, a = Ok res -> rs_Status res = "ok" -> Some e = None /\ rs_OperationID res = tk_OperationID t)).
    { intros key. eapply logs_mono; [apply logs_fail|]. intros a l Ha res Hr Hs. rewrite (Ha res Hr) in Hs. done. }
    repeat (case_match; [apply Hf|]). apply logs_ret. done.
  - eapply logs_bind; [by apply quiet_logged|]. intros now. apply logs_ret. intros l _ res Hres _.
    unfold NewSuccessResult in Hres. destruct (y_replacementResult _); [|done]. apply checked_Ok in Hres. by subst res.
Qed.

Lemma receiptFits_bound t p r : receiptFits (W := PS W) t p r = None ->
  validateResult (W := PS W) r = None /\ rs_OperationID r = tk_OperationID t.
Proof.
  unfold receiptFits. destruct (validateResult r); [done|]. rewrite andThen_None, require_None. intros [H _].
  unfold boundTo in H. by bool_to_prop.
Qed.

Lemma abort_not_ok r : validateResult (W := PS W) r = None -> isAbort r = true -> rs_Status r <> "ok".
Proof.
  unfold validateResult, isAbort. intros Hv Ha Hs. bool_to_prop. autorewrite with filees in Hv.
  destruct Hv as (_ & _ & _ & _ & _ & Hv). rewrite Hs, Ha, bool_decide_eq_true_2 in Hv by done. done.
Qed.

(** *** The requests *)
Lemma wpc_answerRecorded se t p digest r s : ps_files s !! fileOf t = Some r ->
  wpc (did se t s) (answerRecorded (W := PS W) (fileOf t) t p digest r) (fun a s' => did se t s s' /\ vouched t a s') s.
Proof.
  intros Hr. assert (Hfail : forall key, wpc (did se t s) (fail (W := PS W) t key) (fun a s' => did se t s s' /\ vouched t a s') s).
  { intros key. pose proof (logs_fail t key s) as H. unfold wpc in *. destruct (fail t key s) as [[a|] s1]; [|by apply did_calm].
    destruct H as [H1 H2]. split; [by apply did_calm|]. intros res Ha Hs. rewrite (H2 res Ha) in Hs. done. }
  assert (Hret : forall a, (forall res, a = Ok res -> rs_Status res <> "ok") ->
    wpc (did se t s) (ret a) (fun a s' => did se t s s' /\ vouched t a s') s).
  { intros a Ha. apply wpc_ret. split; [apply did_calm; reflexivity|]. intros res E Hs. by destruct (Ha res E). }
  unfold answerRecorded. destruct (bool_decide (pp_Schema r = _)); [|by apply Hret]. simpl.
  destruct (bool_decide (pp_Digest r = _)); [|apply Hfail]. simpl. case_bool_decide as Hst.
  - eapply wpc_logs; [apply logs_fail|intros; by apply did_calm|]. intros [res|e] s1 C1 Hres.
    2: { apply wpc_ret. split; [by apply did_calm|done]. }
    apply wpc_writeRecord; [intros; apply did_calm; by etrans|]. intros e s2 Hw. apply wpc_ret. split.
    + eapply did_calm_l; [exact C1|]. eapply did_wrote; [exact Hw|rewrite (calm_files _ _ C1), Hr; simpl; auto|]. simpl. intros ? [= <-]. by rewrite (Hres res eq_refl).
    + intros res' E Hs. destruct e; [done|]. injection E as <-. rewrite (Hres res eq_refl) in Hs. done.
  - destruct (bool_decide (pp_State r = "finished")) eqn:Hf; simpl.
    + bool_to_prop. apply wpc_ret. split; [apply did_calm; reflexivity|]. intros res E Hs. unfold replay in E.
      destruct (pp_Result r) as [result|] eqn:Hres; [|done]. destruct (_ && _); [done|].
      destruct (receiptFits t p result) eqn:Hfit; [done|]. injection E as <-. apply receiptFits_bound in Hfit as [_ Hb].
      split; [done|]. by exists r.
    + clear Hf. case_bool_decide as Hc; [|by apply Hret]. apply Hret. intros res E. unfold replay in E.
      destruct (pp_Result r) as [result|]; [|done]. rewrite bool_decide_eq_true_2 in E by done. simpl in E.
      destruct (isAbort result) eqn:Ha; [|done]. simpl in E. destruct (receiptFits t p result) eqn:Hfit; [done|].
      injection E as <-. apply receiptFits_bound in Hfit as [Hv _]. by apply abort_not_ok.
Qed.

(** A fresh run: from the durable intent on, whatever happens leaves a record. *)
Lemma did_fresh se t p s0 r s1 e s2 :
  ps_files s0 !! fileOf t = None -> payload t = Ok p ->
  wrote (fileOf t) r s0 None s1 -> pp_Result r = None -> prepared d s1 se p e s2 -> did se t s0 s2.
Proof.
  intros Hn Hp Hw Hres Hpr. pose proof (wrote_done _ _ _ _ Hw) as Hd.
  assert (Hf : ps_files s2 = ps_files s1) by (destruct Hpr as [[[? _ _] _]|(o & ? & _)]; done).
  split.
  - intros f Hne. rewrite Hf. by eapply wrote_other.
  - by rewrite Hn.
  - destruct Hpr as [[[_ Hr _] _]|(o & _ & Hr & Hl)]; rewrite Hr, (wr_log _ _ _ _ _ Hw); [by left|].
    right. split; [done|]. rewrite Hf, Hd. split; [by eexists|]. exists p, o, e. done.
  - intros r' res H1 _ H3. rewrite Hf, Hd in H1. congruence.
Qed.

Lemma wpc_answerFresh se t p digest s : ps_files s !! fileOf t = None -> payload t = Ok p ->
  wpc (did se t s) (answerFresh (W := PS W) d (fileOf t) se t p digest) (fun a s' => did se t s s' /\ vouched t a s') s.
Proof.
  intros Hn Hp. unfold answerFresh. apply wpc_writeRecord; [intros; by apply did_calm|]. intros [e|] s1 Hw.
  { apply wpc_ret. split; [|done]. eapply did_wrote; [exact Hw|by rewrite Hn|done]. }
  apply wpc_bind. pose proof (wpc_Prepare d se p s1) as HP. unfold wpc in HP. unfold wpc at 1.
  destruct (Prepare d se p s1) as [[e|] s2].
  2: { eapply did_calm_r; [|exact HP]. eapply did_wrote; [exact Hw|by rewrite Hn|done]. }
  assert (Hd2 : did se t s s2) by (by eapply did_fresh).
  eapply wpc_logs; [apply logs_outcome|intros; by eapply did_calm_r|]. intros [res|e'] s3 C3 Hres.
  2: { apply wpc_ret. split; [by eapply did_calm_r|done]. }
  assert (Hd3 : did se t s s3) by (by eapply did_calm_r).
  apply wpc_writeRecord; [intros; by eapply did_calm_r|]. intros e3 s4 Hw4. apply wpc_ret.
  assert (Hlog : ps_log s4 = ps_log s3) by apply Hw4. split; [split|].
  - intros f Hf. rewrite (wrote_other _ _ _ _ _ _ Hw4 Hf). by apply Hd3.
  - by rewrite Hn.
  - rewrite Hlog. destruct (did_release _ _ _ _ Hd3) as [?|(? & ? & Hrest)]; [by left|right]. split; [done|]. split; [|done].
    destruct Hw4 as [_ [->|[_ ->]]]; [rewrite lookup_insert_eq; by eexists|done].
  - intros r' res' H1 H2 H3 H4. rewrite Hlog. destruct Hw4 as [_ [E|[_ E]]]; rewrite E in H1; [|by eapply (did_new _ _ _ _ Hd3)].
    right. rewrite lookup_insert_eq in H1. injection H1 as <-. injection H3 as <-. destruct (Hres res eq_refl H4) as [-> Hop].
    split; [done|]. destruct HP as [[_ []]|(o & _ & Hr & _)]; [done|]. eexists _, _, o, _.
    rewrite (calm_releases _ _ C3), Hr, (wr_log _ _ _ _ _ Hw). done.
  - intros res' E Hs. destruct e3; [done|]. injection E as <-. destruct (Hres res eq_refl Hs) as [-> Hop]. split; [done|].
    eexists. split; [by eapply wrote_done|done].
Qed.

Lemma read_spec file s : exists s1, calm s s1 /\
  ((pf_read file s).2 = s1) /\ match (pf_read file s).1 with
                              | Ok None => False
                              | Ok (Some r) => ps_files s !! file = Some r
                              | Err e => serr_is ENotExist e = true -> ps_files s !! file = None
                              end.
Proof.
  cbn [pf_read psFiles]. destruct (dk_read (ps_world s)) as [[n|] w]; cbn;
    eexists; (split; [|split; [reflexivity|]]); try (by split); [done|].
  by destruct (ps_files s !! file).
Qed.

Lemma wpc_read {B} file (k : result serr (option preparationRecord) -> MC (PS W) B) D Q s :
  (forall s', calm s s' -> D s') ->
  (forall r s', calm s s' -> match r with
                            | Ok None => False
                            | Ok (Some r) => ps_files s' !! file = Some r
                            | Err e => serr_is ENotExist e = true -> ps_files s' !! file = None
                            end -> wpc D (k r) Q s') ->
  wpc D (let* r := ask (pf_read file) in k r) Q s.
Proof.
  intros HD Hk. apply wpc_bind. pose proof (calm_lift dies s) as Hd. apply wpc_asked; intros s1 E; cbn in E; rewrite E in Hd; [by apply HD|].
  destruct (read_spec file s1) as (s2 & C2 & E2 & H2). rewrite E2. apply Hk; [by etrans|]. by rewrite (calm_files _ _ C2).
Qed.

Lemma wpc_handleUnderLock se t p s : payload t = Ok p ->
  wpc (did se t s) (handleUnderLock (W := PS W) d se t p) (fun a s' => did se t s s' /\ vouched t a s') s.
Proof.
  intros Hp. unfold handleUnderLock. eapply wpc_logs; [apply logs_lift|intros; by apply did_calm|].
  intros [e|] s1 C1 _; [apply wpc_ret; split; [by apply did_calm|done]|]. cbv zeta.
  apply wpc_read; [intros; apply did_calm; by etrans|]. intros raw s2 C2 Hraw. assert (C : calm s s2) by (by etrans).
  assert (Hweaken : forall m, wpc (did se t s2) m (fun a s' => did se t s2 s' /\ vouched t a s') s2 ->
                    wpc (did se t s) m (fun a s' => did se t s s' /\ vouched t a s') s2).
  { intros m. unfold wpc. destruct (m s2) as [[a|] s3]; [|by apply did_calm_l]. intros [? ?]. split; [by eapply did_calm_l|].
    done. }
  destruct raw as [[r|]|e]; [|done|].
  - apply Hweaken. by apply wpc_answerRecorded.
  - destruct (serr_is ENotExist e); [apply Hweaken, wpc_answerFresh; auto|]. apply wpc_ret. split; [by apply did_calm|done].
Qed.

(** A request that stays calm and does not answer success. *)
Lemma wpc_calm_answer (m : MC (PS W) (result serr Result)) se t s :
  logs m (fun a _ => forall res, a = Ok res -> rs_Status res <> "ok") ->
  wpc (did se t s) m (fun a s' => did se t s s' /\ vouched t a s') s.
Proof.
  intros Hm. specialize (Hm s). unfold wpc in *. destruct (m s) as [[a|] s1]; [|by apply did_calm].
  destruct Hm as [Hc Ha]. split; [by apply did_calm|]. intros res E Hs. by destruct (Ha res E).
Qed.

Lemma logs_fail' t key : logs (fail (W := PS W) t key) (fun a _ => forall res, a = Ok res -> rs_Status res <> "ok").
Proof. eapply logs_mono; [apply logs_fail|]. intros a l H res E. by rewrite (H res E). Qed.

Lemma wpc_Handle se t s :
  wpc (did se t s) (Handle (W := PS W) d se t) (fun a s' => did se t s s' /\ vouched t a s') s.
Proof.
  assert (Hret : forall e, wpc (did se t s) (ret (Err e)) (fun a s' => did se t s s' /\ vouched t a s') s).
  { intros e. apply wpc_calm_answer. by apply logs_ret. }
  unfold Handle. destruct (validateSession se); [apply Hret|]. destruct (validateTicket t); [apply Hret|].
  destruct (_ || _); [apply Hret|]. destruct (payload t) as [p|] eqn:Hp; [|apply Hret].
  assert (Hgo : forall (m : MC (PS W) (result serr Result)) s1, calm s s1 ->
            wpc (did se t s1) m (fun a s' => did se t s1 s' /\ vouched t a s') s1 ->
            wpc (did se t s) m (fun a s' => did se t s s' /\ vouched t a s') s1).
  { intros m s1 C. unfold wpc. destruct (m s1) as [[a|] s2]; [|by apply did_calm_l]. intros [? ?]. split; [by eapply did_calm_l|].
    done. }
  eapply wpc_logs; [apply quiet_authorizeAccess|intros; by apply did_calm|]. intros [e|] s1 C1 _; [apply Hgo; [done|]; apply wpc_calm_answer, logs_fail'|].
  destruct (IsAbs (pr_Root d)); [|apply Hgo; [done|]; apply wpc_calm_answer, logs_fail']. simpl.
  eapply wpc_logs; [apply quiet_prepareRoot|intros; apply did_calm; by etrans|]. intros [e|] s2 C2 _.
  { apply Hgo; [by etrans|]. apply wpc_calm_answer. by apply logs_ret. }
  unfold lockedAnswer. eapply wpc_logs; [apply logs_lift|intros; apply did_calm; etrans; [exact C1|]; by etrans|]. intros [e|] s3 C3 _.
  { apply Hgo; [etrans; [exact C1|]; by etrans|]. apply wpc_calm_answer. by apply logs_ret. }
  apply Hgo; [etrans; [exact C1|]; by etrans|]. apply wpc_bind. pose proof (wpc_handleUnderLock se t p s3 Hp) as Hu. unfold wpc in Hu.
  unfold wpc at 1. destruct (handleUnderLock d se t p s3) as [[a|] s4]; [|done]. destruct Hu as [Hd Hv].
  eapply wpc_logs; [apply logs_lift|intros; by eapply did_calm_r|]. intros [] s5 C5 _. apply wpc_ret.
  split; [by eapply did_calm_r|]. by eapply vouched_calm.
Qed.

(** A cancellation of [o]: its record moves forward, nothing is released, and a
    success leaves the record canceled. *)
Record cut (o : Ticket) s s' : Prop := {
  cut_other file : file <> fileOf o -> ps_files s' !! file = ps_files s !! file;
  cut_later : later (ps_files s !! fileOf o) (ps_files s' !! fileOf o);
  cut_release : releases (ps_log s') = releases (ps_log s);
  cut_new r : ps_files s' !! fileOf o = Some r -> pp_State r = "canceled" \/ ps_files s !! fileOf o = Some r
}.

Definition canceled (o : Ticket) s : Prop := exists r, ps_files s !! fileOf o = Some r /\ pp_State r = "canceled".

Definition fenced {A} (isOk : A -> Prop) (o : Ticket) (a : A) s : Prop := isOk a -> canceled o s.

Definition saysOk (a : result serr Result) : Prop := exists res, a = Ok res /\ rs_Status res = "ok".

Lemma cut_calm o s s' : calm s s' -> cut o s s'.
Proof. intros [Hf Hr _]. split; rewrite ?Hf; done || auto. Qed.

Lemma cut_calm_l o s s1 s2 : calm s s1 -> cut o s1 s2 -> cut o s s2.
Proof. intros [Hf Hr Hl] [H1 H2 H3 H4]. split; rewrite <- ?Hf, <- ?Hr; done. Qed.

Lemma cut_calm_r o s s1 s2 : cut o s s1 -> calm s1 s2 -> cut o s s2.
Proof. intros [H1 H2 H3 H4] [Hf Hr Hl]. split; rewrite ?Hf, ?Hr; done. Qed.

Lemma canceled_calm o s s' : calm s s' -> canceled o s -> canceled o s'.
Proof. intros [Hf _ _] (r & ? & ?). exists r. by rewrite Hf. Qed.

Lemma cancellable_spec o p r x : cancellable (W := PS W) o p r = Ok x ->
  match x with
  | Some _ => pp_State r = "started" \/ pp_State r = "finished"
  | None => pp_State r = "canceled"
  end.
Proof.
  unfold cancellable. case_bool_decide as H1; [destruct (pp_Result r); intros; simplify_eq; auto|].
  destruct (bool_decide (pp_State r = "finished")) eqn:H2; bool_to_prop.
  - simpl. destruct (pp_Result r); [|done]. destruct (receiptFits o p r0); [done|]. rewrite bool_decide_eq_false_2 by congruence.
    intros; simplify_eq; auto.
  - simpl. case_bool_decide as H3; [|done]. destruct (pp_Result r); [|done]. destruct (receiptFits o p r0); [done|].
    destruct (isAbort r0); intros; simplify_eq; auto.
Qed.

Lemma wpc_seal o r s :
  match ps_files s !! fileOf o with Some r0 => pp_State r0 = "started" \/ pp_State r0 = "finished" | None => True end ->
  wpc (cut o s) (seal (W := PS W) (fileOf o) o r) (fun a s' => cut o s s' /\ fenced (eq (Ok false)) o a s') s.
Proof.
  intros Hl. unfold seal. eapply wpc_logs; [apply logs_fail|intros; by apply cut_calm|]. intros [aborted|e] s1 C1 _.
  2: { apply wpc_ret. split; [by apply cut_calm|done]. }
  apply wpc_writeRecord; [intros; apply cut_calm; by etrans|]. intros e s2 Hw. apply wpc_ret. split.
  - eapply cut_calm_l; [exact C1|]. split; [intros; by eapply wrote_other| |by rewrite (wr_log _ _ _ _ _ Hw)|].
    2: { intros r' H. destruct Hw as [_ [E|[_ E]]]; rewrite E in H; [|by right]. rewrite lookup_insert_eq in H. left. by simplify_eq. }
    eapply wrote_later; [exact Hw|]. rewrite (calm_files _ _ C1). destruct (ps_files s !! fileOf o) as [r0|]; simpl; [|done].
    destruct Hl; auto.
  - intros Hok. destruct e; [done|]. eexists. split; [by eapply wrote_done|done].
Qed.

Lemma wpc_cancelUnderLock se o p s :
  wpc (cut o s) (cancelUnderLock (W := PS W) d se o p) (fun a s' => cut o s s' /\ fenced (eq (Ok false)) o a s') s.
Proof.
  unfold cancelUnderLock. eapply wpc_logs; [apply logs_lift|intros; by apply cut_calm|].
  intros [e|] s1 C1 _; [apply wpc_ret; split; [by apply cut_calm|done]|]. cbv zeta.
  apply wpc_read; [intros; apply cut_calm; by etrans|]. intros raw s2 C2 Hraw. assert (C : calm s s2) by (by etrans).
  assert (Hseal : forall r, match ps_files s2 !! fileOf o with Some r0 => pp_State r0 = "started" \/ pp_State r0 = "finished" | None => True end ->
            wpc (cut o s) (seal (W := PS W) (fileOf o) o r) (fun a s' => cut o s s' /\ fenced (eq (Ok false)) o a s') s2).
  { intros r H. pose proof (wpc_seal o r s2 H) as Hs. unfold wpc in *. destruct (seal (fileOf o) o r s2) as [[a|] s3]; [|by eapply cut_calm_l].
    destruct Hs. split; [by eapply cut_calm_l|done]. }
  destruct raw as [[r|]|e]; [|done|].
  - destruct (bool_decide (pp_Schema r = _)); [|by apply wpc_ret; split; [by apply cut_calm|]].
    destruct (bool_decide (pp_Digest r = _)); [|by apply wpc_ret; split; [by apply cut_calm|]]. simpl.
    destruct (cancellable o p r) as [[r'|]|e] eqn:Hc; apply cancellable_spec in Hc || idtac.
    + apply Hseal. by rewrite Hraw.
    + apply wpc_ret. split; [by apply cut_calm|]. intros _. by exists r.
    + apply wpc_ret. split; [by apply cut_calm|done].
  - destruct (serr_is ENotExist e); [apply Hseal; by rewrite Hraw|]. apply wpc_ret. split; [by apply cut_calm|done].
Qed.

(** The ticket a cancellation names. *)
Definition target t : option Ticket :=
  match decodeStrict (x_cancel (W := PS W)) (tk_Payload t) with Ok o => Some o | Err _ => None end.

Lemma wpc_Cancel se t o s : target t = Some o ->
  wpc (cut o s) (Cancel (W := PS W) d se t) (fun a s' => cut o s s' /\ fenced saysOk o a s') s.
Proof.
  assert (Hquiet : forall (m : MC (PS W) (result serr Result)) s1, calm s s1 ->
            logs m (fun a _ => forall res, a = Ok res -> rs_Status res <> "ok") ->
            wpc (cut o s) m (fun a s' => cut o s s' /\ fenced saysOk o a s') s1).
  { intros m s1 C Hm. specialize (Hm s1). unfold wpc in *. destruct (m s1) as [[a|] s2]; [|apply cut_calm; by etrans].
    destruct Hm as [Hc Ha]. split; [apply cut_calm; by etrans|]. intros (res & E & Hs). by destruct (Ha res E). }
  assert (Hret : forall e s1, calm s s1 -> wpc (cut o s) (ret (Err e)) (fun a s' => cut o s s' /\ fenced saysOk o a s') s1).
  { intros. apply Hquiet; [done|]. by apply logs_ret. }
  unfold target, Cancel. intros Ho. destruct (validateSession se); [by apply Hret|]. destruct (validateTicket t); [by apply Hret|].
  destruct (_ || _); [by apply Hret|]. destruct (decodeStrict x_cancel (tk_Payload t)) as [o'|]; [|done]. injection Ho as ->.
  destruct (payload o) as [p|]; [|by apply Hret].
  eapply wpc_logs; [apply quiet_cleanup|intros; by apply cut_calm|]. intros [e|] s1 C1 _; [by apply Hquiet; [|apply logs_fail']|].
  destruct (IsAbs (pr_Root d)); [|by apply Hquiet; [|apply logs_fail']]. simpl.
  eapply wpc_logs; [apply quiet_prepareRoot|intros; apply cut_calm; by etrans|]. intros [e|] s2 C2 _; [apply Hret; by etrans|].
  assert (C2' : calm s s2) by (by etrans).
  eapply wpc_logs; [apply logs_lift|intros; apply cut_calm; by etrans|]. intros [e|] s3 C3 _; [apply Hret; by etrans|].
  assert (C3' : calm s s3) by (by etrans).
  apply wpc_bind. pose proof (wpc_cancelUnderLock se o p s3) as Hu. unfold wpc in Hu.
  unfold wpc at 1. destruct (cancelUnderLock d se o p s3) as [[a|] s4]; [|by eapply cut_calm_l]. destruct Hu as [Hd Hv].
  assert (Hd' : cut o s s4) by (by eapply cut_calm_l).
  eapply wpc_logs; [apply logs_lift|intros; by eapply cut_calm_r|]. intros [] s5 C5 _.
  assert (Hd5 : cut o s s5) by (by eapply cut_calm_r).
  destruct a as [[]|e].
  - pose proof (logs_fail' t KRequestConflict s5) as H. unfold wpc in *. destruct (fail t KRequestConflict s5) as [[a|] s6].
    + destruct H as [H Ha]. split; [by eapply cut_calm_r|]. intros (res & E & Hs). by destruct (Ha res E).
    + by eapply cut_calm_r.
  - eapply wpc_logs; [by apply quiet_logged|intros; by eapply cut_calm_r|]. intros now s6 C6 _. apply wpc_ret.
    split; [by eapply cut_calm_r|]. intros _. eapply canceled_calm; [exact C6|]. eapply canceled_calm; [exact C5|]. by apply Hv.
  - apply wpc_ret. split; [done|]. intros (res & E & _). done.
Qed.

Lemma wpc_Cancel_none se t s : target t = None ->
  wpc (calm s) (Cancel (W := PS W) d se t) (fun a s' => calm s s' /\ ~ saysOk a) s.
Proof.
  unfold target, Cancel. intros Ho. assert (Hret : forall e, wpc (calm s) (ret (Err e)) (fun a s' => calm s s' /\ ~ saysOk a) s).
  { intros e. apply wpc_ret. split; [reflexivity|]. intros (res & ? & _). done. }
  destruct (validateSession se); [apply Hret|]. destruct (validateTicket t); [apply Hret|].
  destruct (_ || _); [apply Hret|]. destruct (decodeStrict x_cancel (tk_Payload t)); [done|apply Hret].
Qed.

(** ** Histories *)
Inductive call := CHandle (se : Session) (t : Ticket) | CCancel (se : Session) (t : Ticket).

Record entry := Entry { en_call : call; en_answer : option (result serr Result); en_log : list event }.

Definition run (c : call) : MC (PS W) (result serr Result) :=
  match c with CHandle se t => Handle d se t | CCancel se t => Cancel d se t end.

(** Newest entry first; each request logs from an empty log, and the world may
    move between requests. *)
Inductive history : list entry -> PS W -> Prop :=
| history_start w : history [] (MkPS w ∅ [])
| history_call h s c a s' : history h s -> run c (MkPS (ps_world s) (ps_files s) []) = (a, s') ->
    history (Entry c a (ps_log s') :: h) s'
| history_world h s w : history h s -> history h (MkPS w (ps_files s) (ps_log s)).

(** The entry is a preparation of operation [op]. *)
Definition prepares (op : string) (e : entry) : bool :=
  match en_call e with CHandle _ t => bool_decide (tk_OperationID t = op) | CCancel _ _ => false end.

Definition releasesOf (op : string) (h : list entry) : list event :=
  List.concat (List.map (fun e => releases (en_log e)) (List.filter (prepares op) h)).

Definition succeeded (e : entry) (res : Result) : Prop := en_answer e = Some (Ok res) /\ rs_Status res = "ok".

(** What an entry says about itself. *)
Definition entryOk (e : entry) : Prop :=
  match en_call e with
  | CHandle se t => releases (en_log e) = [] \/
      exists p owner r, payload t = Ok p /\
        releases (en_log e) = [Released (rp_RepoID p) (rp_Path p) owner (rp_ObservedLockID p) r] /\ licensed d (en_log e) se p owner
  | CCancel _ _ => releases (en_log e) = []
  end.

Record inv (h : list entry) s : Prop := {
  inv_entry : Forall entryOk h;
  inv_once op : List.length (releasesOf op h) <= 1;
  inv_released e se t : e ∈ h -> en_call e = CHandle se t -> releases (en_log e) <> [] -> is_Some (ps_files s !! fileOf t);
  inv_success e se t res : e ∈ h -> en_call e = CHandle se t -> succeeded e res -> rs_OperationID res = tk_OperationID t /\
    exists r, ps_files s !! fileOf t = Some r /\ ((pp_State r = "finished" /\ pp_Result r = Some res) \/ pp_State r = "canceled");
  inv_confirmed file r res : ps_files s !! file = Some r -> pp_State r = "finished" -> pp_Result r = Some res -> rs_Status res = "ok" ->
    exists e repoID path owner token, e ∈ h /\ prepares (rs_OperationID res) e = true /\
      releases (en_log e) = [Released repoID path owner token None]
}.

(** [s'] continues [s] on every file. *)
Definition goesOn s s' : Prop := forall file, later (ps_files s !! file) (ps_files s' !! file).

Lemma later_Some a b r : later a b -> a = Some r -> exists r', b = Some r'.
Proof. intros H ->. destruct b; simpl in H; [by eexists|done]. Qed.

Lemma later_settled a b r : later a b -> a = Some r -> pp_State r = "finished" \/ pp_State r = "canceled" ->
  exists r', b = Some r' /\ (r' = r \/ (pp_State r = "finished" /\ pp_State r' = "canceled")).
Proof. intros H -> Hs. destruct b as [r'|]; simpl in H; [|done]. exists r'. split; [done|]. destruct H as [?|[H|H]]; auto; destruct Hs; congruence. Qed.

Lemma did_goesOn se t s s' : did se t s s' -> goesOn s s'.
Proof. intros H file. destruct (decide (file = fileOf t)) as [->|Hf]; [apply H|by rewrite (did_other _ _ _ _ H)]. Qed.

Lemma cut_goesOn o s s' : cut o s s' -> goesOn s s'.
Proof. intros H file. destruct (decide (file = fileOf o)) as [->|Hf]; [apply H|by rewrite (cut_other _ _ _ H)]. Qed.

(** Old entries keep what they say of the files. *)
Lemma inv_old h s s' : inv h s -> goesOn s s' ->
  (forall e se t, e ∈ h -> en_call e = CHandle se t -> releases (en_log e) <> [] -> is_Some (ps_files s' !! fileOf t)) /\
  (forall e se t res, e ∈ h -> en_call e = CHandle se t -> succeeded e res -> rs_OperationID res = tk_OperationID t /\
    exists r, ps_files s' !! fileOf t = Some r /\ ((pp_State r = "finished" /\ pp_Result r = Some res) \/ pp_State r = "canceled")).
Proof.
  intros Hi Hg. split.
  - intros e se t He Hc Hr. destruct (inv_released _ _ Hi e se t He Hc Hr) as [r Hr']. eapply later_Some; [apply Hg|done].
  - intros e se t res He Hc Hs. destruct (inv_success _ _ Hi e se t res He Hc Hs) as (Hop & r & Hr & Hst). split; [done|].
    destruct (later_settled _ _ r (Hg (fileOf t)) Hr) as (r' & Hr' & Hor); [naive_solver|].
    exists r'. split; [done|]. destruct Hor as [->|[_ ?]]; auto.
Qed.

(** What one request does, from an empty log. *)
Definition requestOk (c : call) s (a : option (result serr Result)) s' : Prop :=
  match c with
  | CHandle se t => did se t s s' /\ (forall x, a = Some x -> vouched t x s')
  | CCancel se t => goesOn s s' /\ releases (ps_log s') = [] /\
      (forall file r, ps_files s' !! file = Some r -> pp_State r = "canceled" \/ ps_files s !! file = Some r) /\
      (forall o x, target t = Some o -> a = Some x -> saysOk x -> canceled o s')
  end.

Lemma run_ok c s a s' : ps_log s = [] -> run c s = (a, s') -> requestOk c s a s'.
Proof.
  intros Hlog Hrun. destruct c as [se t|se t]; simpl in *.
  - pose proof (wpc_Handle se t s) as H. unfold wpc in H. rewrite Hrun in H. destruct a as [a|]; [|by split].
    destruct H as [Hd Hv]. split; [done|]. intros x [= <-]. done.
  - destruct (target t) as [o|] eqn:Ho.
    + pose proof (wpc_Cancel se t o s Ho) as H. unfold wpc in H. rewrite Hrun in H.
      assert (Hc : cut o s s') by (by destruct a as [a|]; [destruct H|]).
      split; [by eapply cut_goesOn|]. split; [by rewrite (cut_release _ _ _ Hc), Hlog|]. split.
      * intros file r Hr. destruct (decide (file = fileOf o)) as [->|Hf]; [by apply (cut_new _ _ _ Hc)|].
        right. by rewrite <- (cut_other _ _ _ Hc).
      * intros o' x [= <-] -> Hok. destruct H as [_ H]. by apply H.
    + pose proof (wpc_Cancel_none se t s Ho) as H. unfold wpc in H. rewrite Hrun in H.
      assert (Hc : calm s s') by (by destruct a as [a|]; [destruct H|]). destruct Hc as [Hf Hr _].
      split; [intros file; by rewrite Hf|]. split; [by rewrite Hr, Hlog|]. split; [intros file r; rewrite Hf; by right|done].
Qed.

Lemma releasesOf_cons op e h : releasesOf op (e :: h) = app (if prepares op e then releases (en_log e) else []) (releasesOf op h).
Proof. unfold releasesOf. simpl. by destruct (prepares op e). Qed.

(** No record, no release so far. *)
Lemma releasesOf_none h s t : inv h s -> ps_files s !! fileOf t = None -> releasesOf (tk_OperationID t) h = [].
Proof.
  intros Hi Hn. pose proof (inv_released _ _ Hi) as Hrel. clear Hi. induction h as [|e h IH]; [done|].
  rewrite releasesOf_cons, IH by (intros e' se' t' He; apply Hrel; by right). rewrite app_nil_r.
  unfold prepares. destruct (en_call e) as [se' t'|] eqn:Hc; [|done]. case_bool_decide as Hop; [|done].
  destruct (releases (en_log e)) as [|x l] eqn:Hr; [done|]. destruct (Hrel e se' t') as [r Hr']; [by left|done|by rewrite Hr|].
  rewrite Hop in Hr'. congruence.
Qed.

Lemma preparation_step h s c a s' : inv h s -> run c (MkPS (ps_world s) (ps_files s) []) = (a, s') -> inv (Entry c a (ps_log s') :: h) s'.
Proof.
  intros Hi Hrun. apply run_ok in Hrun; [|done]. destruct c as [se t|se t]; simpl in Hrun.
  - destruct Hrun as [Hd Hv]. destruct (inv_old _ _ s' Hi) as [Hold1 Hold2]; [by apply (did_goesOn _ _ _ _ Hd)|].
    assert (Hown : entryOk (Entry (CHandle se t) a (ps_log s'))).
    { unfold entryOk. simpl. destruct (did_release _ _ _ _ Hd) as [->|(_ & _ & Hrest)]; [by left|by right]. }
    split.
    + apply Forall_cons. split; [done|apply Hi].
    + intros op. rewrite releasesOf_cons. cbn [prepares en_call en_log]. case_bool_decide as Hop; [|apply Hi].
      destruct (did_release _ _ _ _ Hd) as [->|(Hn & _ & p & o & r & _ & -> & _)]; [apply Hi|].
      rewrite <- Hop, (releasesOf_none h s t Hi Hn). simpl. lia.
    + intros e se' t' [->|He]%elem_of_cons Hc Hr; [|by eapply Hold1]. injection Hc as <- <-. simpl in Hr.
      destruct (did_release _ _ _ _ Hd) as [E|(_ & ? & _)]; [by rewrite E in Hr|done].
    + intros e se' t' res [->|He]%elem_of_cons Hc Hs; [|by eapply Hold2]. injection Hc as <- <-. destruct Hs as [Ha Hs]. simpl in Ha.
      destruct (Hv _ Ha res eq_refl Hs) as (Hop & r & Hr & Hst). split; [done|]. exists r. auto.
    + intros file r res Hr Hst Hres Hs.
      assert (Hcase : ps_files s !! file = Some r \/ confirmed t res (releases (ps_log s')) []).
      { destruct (decide (file = fileOf t)) as [->|Hf]; [by apply (did_new _ _ _ _ Hd r res)|].
        left. rewrite <- Hr. symmetry. by apply (did_other _ _ _ _ Hd). }
      destruct Hcase as [Hr0|(Hop & repoID & path & o & tok & Hrel)].
      * destruct (inv_confirmed _ _ Hi file r res Hr0 Hst Hres Hs) as (e & ? & ? & ? & ? & ? & ?). eexists e, _, _, _, _.
        split; [by right|done].
      * exists (Entry (CHandle se t) a (ps_log s')), repoID, path, o, tok. split; [by left|]. split; [|done].
        unfold prepares. cbn [en_call]. by apply bool_decide_eq_true_2.
  - destruct Hrun as (Hg & Hr & Hnew & _). destruct (inv_old _ _ s' Hi Hg) as [Hold1 Hold2]. split.
    + apply Forall_cons. split; [done|apply Hi].
    + intros op. rewrite releasesOf_cons. simpl. apply Hi.
    + intros e se' t' [->|He]%elem_of_cons Hc Hrel; [done|by eapply Hold1].
    + intros e se' t' res [->|He]%elem_of_cons Hc Hs; [done|by eapply Hold2].
    + intros file r res Hf Hst Hres Hs. destruct (Hnew file r Hf) as [Hc|Hr0]; [congruence|].
      destruct (inv_confirmed _ _ Hi file r res Hr0 Hst Hres Hs) as (e & ? & ? & ? & ? & ? & ?). eexists e, _, _, _, _. split; [by right|done].
Qed.

Lemma history_inv h s : history h s -> inv h s.
Proof.
  induction 1 as [w|h s c a s' _ IH Hrun|h s w _ IH].
  - split; [by apply Forall_nil|intros op; unfold releasesOf; simpl; lia|..].
    + by intros e se t He%elem_of_nil.
    + by intros e se t res He%elem_of_nil.
    + intros file r res Hf. simpl in Hf. by rewrite lookup_empty in Hf.
  - by eapply preparation_step.
  - destruct IH. by split.
Qed.

Lemma history_goesOn h h' s : history (app h' h) s -> exists s0, history h s0 /\ goesOn s0 s /\
  Forall (fun e => exists s1 s2, goesOn s0 s1 /\ requestOk (en_call e) s1 (en_answer e) s2 /\ ps_log s1 = [] /\ ps_log s2 = en_log e) h'.
Proof.
  remember (app h' h) as l eqn:E. intros H. revert h' E. induction H as [w|l s c a s' H IH Hrun|l s w H IH]; intros h' E.
  - symmetry in E. apply app_eq_nil in E as [-> ->]. exists (MkPS w ∅ []). split; [constructor|]. split; [intros ?; reflexivity|constructor].
  - destruct h' as [|e h']; simpl in E.
    + subst h. exists s'. split; [by econstructor|]. split; [intros ?; reflexivity|constructor].
    + injection E as <- ->. destruct (IH h' eq_refl) as (s0 & H0 & Hg & Hall). exists s0. split; [done|].
      apply run_ok in Hrun; [|done].
      assert (Hg' : goesOn s s') by (destruct c; [by apply (did_goesOn _ _ _ _ (proj1 Hrun))|apply Hrun]).
      split; [intros file; etrans; [apply Hg|apply Hg']|]. constructor; [|done].
      exists (MkPS (ps_world s) (ps_files s) []), s'. done.
  - destruct (IH h' E) as (s0 & H0 & Hg & Hall). exists s0. done.
Qed.

(** Two successes on one operation, in a history: the newer one repeats the older. *)
Lemma history_same h s : history h s -> forall e1 e2 op res1 res2, e1 ∈ h -> e2 ∈ h ->
  prepares op e1 = true -> prepares op e2 = true -> succeeded e1 res1 -> succeeded e2 res2 -> res1 = res2.
Proof.
  induction 1 as [w|h s c a s' Hh IH Hrun|h s w _ IH]; [by intros ? ? ? ? ? ?%elem_of_nil| |done].
  assert (Hnew : forall e1 op res1 res2, e1 ∈ h -> prepares op e1 = true -> prepares op (Entry c a (ps_log s')) = true ->
            succeeded e1 res1 -> succeeded (Entry c a (ps_log s')) res2 -> res1 = res2).
  { intros e1 op res1 res2 He H1 H2 S1 [Ha Hs]. simpl in Ha. unfold prepares in *. cbn [en_call] in H2.
    destruct (en_call e1) as [se1 t1|] eqn:Hc; [|done]. destruct c as [se t|]; [|done]. bool_to_prop.
    apply run_ok in Hrun as [Hd Hv]; [|done]. destruct (Hv _ Ha res2 eq_refl Hs) as (_ & r & Hr & Hst & Hres).
    destruct (inv_success _ _ (history_inv _ _ Hh) e1 se1 t1 res1 He Hc S1) as (_ & r1 & Hr1 & Hst1).
    replace (fileOf t1) with (fileOf t) in Hr1 by congruence.
    destruct (later_settled _ _ r1 (did_later _ _ _ _ Hd) Hr1) as (r' & Hr' & Hor); [naive_solver|].
    assert (r' = r) as -> by congruence. destruct Hst1 as [[_ ?]|?]; destruct Hor as [?|[_ ?]]; congruence. }
  intros e1 e2 op res1 res2 [->|H1]%elem_of_cons [->|H2]%elem_of_cons P1 P2 S1 S2.
  - destruct S1, S2. congruence.
  - symmetry. exact (Hnew e2 op res2 res1 H2 P2 P1 S2 S1).
  - exact (Hnew e1 op res1 res2 H1 P1 P2 S1 S2).
  - exact (IH e1 e2 op res1 res2 H1 H2 P1 P2 S1 S2).
Qed.

Lemma history_rests h s : history h s -> forall e op res, e ∈ h -> prepares op e = true -> succeeded e res ->
  exists e0 repoID path owner token, e0 ∈ h /\ prepares op e0 = true /\ releases (en_log e0) = [Released repoID path owner token None].
Proof.
  induction 1 as [w|h s c a s' Hh IH Hrun|h s w _ IH]; [by intros ? ? ? ?%elem_of_nil| |done].
  intros e op res [->|He]%elem_of_cons Hp Hs.
  - pose proof (history_inv _ _ (history_call _ _ _ _ _ Hh Hrun)) as Hi. unfold prepares in Hp. cbn [en_call] in Hp.
    destruct c as [se t|]; [|done]. bool_to_prop. apply run_ok in Hrun as [_ Hv]; [|done]. destruct Hs as [Ha Hs].
    destruct (Hv _ Ha res eq_refl Hs) as (Hop & r & Hr & Hst & Hres).
    destruct (inv_confirmed _ _ Hi _ _ _ Hr Hst Hres Hs) as (e0 & a1 & a2 & a3 & a4 & H1 & H2 & H3).
    exists e0, a1, a2, a3, a4. split; [done|]. split; [congruence|done].
  - destruct (IH e op res He Hp Hs) as (e0 & a1 & a2 & a3 & a4 & H1 & H2). exists e0, a1, a2, a3, a4. split; [by right|done].
Qed.

Lemma history_canceled h e s se t o res : history (e :: h) s -> en_call e = CCancel se t -> target t = Some o ->
  succeeded e res -> canceled o s.
Proof.
  remember (e :: h) as l eqn:E. intros H Hc Ho Hs. revert E. induction H as [w|l s c a s' H IH Hrun|l s w H IH]; intros E; [done| |by apply IH].
  injection E as <- ->. simpl in Hc. subst c. apply run_ok in Hrun as (_ & _ & _ & Hf); [|done]. destruct Hs as [Ha Hs].
  eapply Hf; [done|exact Ha|by eexists].
Qed.

(** C4. A preparation releases at most one lock, ever: over any history of
    preparation and cancellation requests, repeated, interleaved with a moving
    world, failing or cut off at any call, the requests of one operation attempt at
    most one release between them, and a cancellation attempts none. *)
Theorem preparation_releases_once h s : history h s ->
  (forall op, List.length (releasesOf op h) <= 1) /\
  (forall e se t, e ∈ h -> en_call e = CCancel se t -> releases (en_log e) = []).
Proof.
  intros H. apply history_inv in H. split; [apply H|]. intros e se t He Hc.
  pose proof (proj1 (Forall_forall _ _) (inv_entry _ _ H) e He) as Hok. unfold entryOk in Hok. by rewrite Hc in Hok.
Qed.

(** C8. A success is said once and holds until it is canceled: all successes
    answered to one operation are the same receipt and rest on a confirmed release
    by a request of that operation; and after a cancellation answered success, no
    request of the canceled operation releases anything or answers success. *)
Theorem preparation_answers_final h s : history h s ->
  (forall e1 e2 op res1 res2, e1 ∈ h -> e2 ∈ h -> prepares op e1 = true -> prepares op e2 = true ->
     succeeded e1 res1 -> succeeded e2 res2 -> res1 = res2) /\
  (forall e op res, e ∈ h -> prepares op e = true -> succeeded e res ->
     exists e0 repoID path owner token, e0 ∈ h /\ prepares op e0 = true /\
       releases (en_log e0) = [Released repoID path owner token None]) /\
  (forall h1 e h2 se t o res, h = app h2 (e :: h1) -> en_call e = CCancel se t -> target t = Some o -> succeeded e res ->
     forall e', e' ∈ h2 -> prepares (tk_OperationID o) e' = true ->
     releases (en_log e') = [] /\ forall res', succeeded e' res' -> False).
Proof.
  intros H. split; [by eapply history_same|]. split; [by eapply history_rests|].
  intros h1 e h2 se t o res -> Hc Ho Hs e' He' Hp.
  destruct (history_goesOn _ _ _ H) as (s0 & H0 & _ & Hall).
  destruct (history_canceled _ _ _ _ _ _ _ H0 Hc Ho Hs) as (r0 & Hr0 & Hst0).
  destruct (proj1 (Forall_forall _ _) Hall e' He') as (s1 & s2 & Hg & Hreq & Hl1 & Hl2).
  unfold prepares in Hp. destruct (en_call e') as [se' t'|]; [|done]. bool_to_prop. destruct Hreq as [Hd Hv].
  destruct (later_settled _ _ r0 (Hg (fileOf o)) Hr0) as (r1 & Hr1 & Hor); [by right|].
  assert (r1 = r0) as -> by (destruct Hor as [?|[? _]]; congruence).
  replace (fileOf o) with (fileOf t') in Hr1 by congruence. split.
  - rewrite <- Hl2. destruct (did_release _ _ _ _ Hd) as [->|(? & _)]; [by rewrite Hl1|congruence].
  - intros res' [Ha Hok]. destruct (Hv _ Ha res' eq_refl Hok) as (_ & r2 & Hr2 & Hst2 & _).
    destruct (later_settled _ _ r0 (did_later _ _ _ _ Hd) Hr1) as (r3 & Hr3 & Hor3); [by right|].
    destruct Hor3 as [?|[? _]]; congruence.
Qed.

(** C9. A release is always licensed: whatever lock a preparation releases, it is
    the one the ticket observed, and during this very request the server read that
    the requester may write the repository, that the path carries a well-formed
    passport lock with that token, and either that the lock is the requester's own
    unexpired passport, or that the path belongs to the requester's realm and the
    lock to a client of that realm. *)
Theorem replacement_needs_authority h s e se t ev : history h s -> e ∈ h -> en_call e = CHandle se t ->
  ev ∈ releases (en_log e) ->
  exists p owner r, decodeStrict (x_replacement (W := PS W)) (tk_Payload t) = Ok p /\
    ev = Released (rp_RepoID p) (rp_Path p) owner (rp_ObservedLockID p) r /\ licensed d (en_log e) se p owner.
Proof.
  intros H He Hc Hev. apply history_inv in H.
  pose proof (proj1 (Forall_forall _ _) (inv_entry _ _ H) e He) as Hok. unfold entryOk in Hok. rewrite Hc in Hok.
  destruct Hok as [E|(p & o & r & Hp & E & Hl)]; rewrite E in Hev; [by apply elem_of_nil in Hev|].
  apply list_elem_of_singleton in Hev. exists p, o, r. done.
Qed.

End Requests.

(** ** A concrete deployment *)
Module PrepDemo.

Definition hexHyphen (c : ascii) : bool :=
  ((0x30 <=? byte c) && (byte c <=? 0x39))%Z || ((0x61 <=? byte c) && (byte c <=? 0x66))%Z || Ascii.eqb c "-".

#[local] Instance ids : Ids := {|
  isUUID id := negb (bool_decide (id = "")) && allb hexHyphen id;
  uuidString id := id
|}.

Definition meta : Metadata := Meta "" "ba-1" "ca-1" "" "" 10%Z 1000%Z 2000%Z.

#[local] Instance codec : Comments := {|
  marshalMeta _ := "m";
  unmarshalMeta s := if bool_decide (s = "m") then Some meta else None
|}.

#[local] Instance tables : UnicodeTables := {| u_lower := id; u_upper := id; u_format _ := false |}.

(** A renewal of the client's own passport; its payload and its cancellation are
    the only documents of this deployment. *)
Definition request : Replacement := Repl "e-1" "a.dwg" "tok" "ba-1" "ca-1" "renew".
Definition ticket : Ticket := Passport.Tick "filees.control/v1" "0-1" "0-2" TicketPrepare "d-1" "t" "prepare".
Definition cancellation : Ticket := Passport.Tick "filees.control/v1" "0-3" "0-4" TicketCancel "d-1" "t" "cancel".

#[local] Instance wire : Wire (PS unit) := {|
  x_marshalExecution := ex_Comment;
  x_marshalReplacement := rp_Mode;
  x_marshalTicket _ := None;
  x_marshalCancel _ := None;
  x_execution _ := None;
  x_replacement raw := if bool_decide (raw = "prepare") then Some request else None;
  x_cancel raw := if bool_decide (raw = "cancel") then Some ticket else None;
  x_executionResult _ := None;
  x_replacementResult raw := Some (ReplResult "e-1" "a.dwg" "tok" raw);
  x_cancelResult raw := Some (CanResult "0-1" "0-2" raw);
  x_isUUID := isUUID;
  x_sha1UUID s := s;
  x_parseTime _ := Some 1%Z;
  x_formatTime _ := "t";
  x_otherTicket _ := None;
  x_otherResult _ := None;
  x_inCatalogue _ _ := true;
  x_newUUID w := ("", w);
  x_ctxErr w := (None, w);
  x_wallNow w := (1%Z, w);
  x_exchange := None
|}.

#[local] Instance replies : Replies := {|
  y_executionResult r := Some (er_State r);
  y_replacementResult r := Some (rq_State r);
  y_cancelResult r := Some (cr_State r)
|}.

#[local] Instance mortal : Mortal unit := {| dies w := (false, w) |}.

#[local] Instance records : Records unit := {|
  rd_client _ w := (Ok (Client ClientSchema "d-1" "f-1" "active"), w);
  rd_realm _ w := (Ok (Realm RealmSchema "f-1" "active" "" "" None), w);
  rd_repository _ w := (Ok (RepoRec RepositorySchema "e-1" "f-1" "" "" "active" 1%Z "" "" "" None), w);
  rd_grant _ w := (Err ENotExist, w);
  rd_normalizeBranding s := Ok s;
  rd_validateRelease _ _ := None;
  rd_verifyRelease _ _ _ w := (None, w)
|}.

#[local] Instance locks : Locks unit := {|
  lk_inspect _ _ w := (Ok (Some (AdminLock "/a.dwg" "tok" "d-1" (FormatComment meta))), w);
  lk_unlock _ _ _ _ w := (None, w)
|}.

#[local] Instance owners : Owners unit := {| ow_pathOwner := None |}.

#[local] Instance host : Host unit := {|
  ho_now w := (20%Z, w); ho_ctxErr w := (None, w);
  ho_lstat _ w := (Err ENotExist, w); ho_stat _ w := (Err ENotExist, w); ho_readlink _ w := (Err ENotExist, w);
  ho_symlink _ _ w := (None, w); ho_mkdirAll _ w := (None, w); ho_syncDirectory _ w := (None, w);
  ho_readFile _ w := (Err ENotExist, w); ho_readDir _ w := (Ok [], w);
  ho_lockFile _ _ w := (None, w); ho_unlockFile _ w := (tt, w); ho_noSuchProcess _ w := (false, w);
  ho_output _ _ w := (Err ENotExist, w)
|}.

#[local] Instance disk : Disk unit := {|
  dk_read w := (None, w);
  dk_write w := (None, w);
  dk_digest realm t := realm ++ ":" ++ tk_OperationID t ++ ":" ++ tk_Payload t
|}.

Definition deployment : Preparations := MkPrep "/prep" "/wc" (MkAdmin "/svnadmin" "/repos").
Definition session : Session := Sess "d-1" "f-1" [Repo "e-1" "" "" "rw" "active" "" "" "" "" "" ""].

(** The history as it is made, one request after another. *)
Definition extend (c : call) (hs : list entry * PS unit) : list entry * PS unit :=
  let r := run deployment c (MkPS (ps_world hs.2) (ps_files hs.2) []) in (Entry c r.1 (ps_log r.2) :: hs.1, r.2).

Lemma extend_history c hs : history deployment hs.1 hs.2 -> history deployment (extend c hs).1 (extend c hs).2.
Proof.
  intros H. unfold extend. destruct (run deployment c _) as [a s'] eqn:E. simpl. by apply (history_call deployment _ hs.2).
Qed.

Definition begin : list entry * PS unit := ([], MkPS tt ∅ []).
Definition repeated : list entry * PS unit := extend (CHandle session ticket) (extend (CHandle session ticket) begin).
Definition ended : list entry * PS unit := extend (CHandle session ticket) (extend (CCancel session cancellation) repeated).

Lemma repeated_history : history deployment repeated.1 repeated.2.
Proof. unfold repeated. do 2 apply extend_history. constructor. Qed.

Lemma ended_history : history deployment ended.1 ended.2.
Proof. unfold ended. do 2 apply extend_history. exact repeated_history. Qed.

Definition receipt : Result := MkResult "filees.control/v1" "0-1" "0-2" TicketPrepare "ok" "t" "prepared" None.
Definition released : event := Released "e-1" "a.dwg" "d-1" "tok" None.

Lemma repeated_story : exists e2 e1, repeated.1 = [e2; e1] /\ en_call e1 = CHandle session ticket /\ releases (en_log e1) = [released] /\
  succeeded e1 receipt /\ succeeded e2 receipt.
Proof. eexists _, _. unfold succeeded. vm_compute. split_and!; reflexivity. Qed.

Lemma ended_story : exists e4 e3, ended.1 = e4 :: e3 :: repeated.1 /\ prepares "0-1" e4 = true /\ en_call e3 = CCancel session cancellation /\
  exists res, succeeded e3 res.
Proof. do 2 eexists. split; [reflexivity|]. split; [reflexivity|]. split; [reflexivity|]. eexists. split; vm_compute; reflexivity. Qed.

Lemma preparation_releases_once_witness :
  releasesOf "0-1" ended.1 = [released] /\ List.length (releasesOf "0-1" ended.1) <= 1.
Proof.
  split; [vm_compute; reflexivity|]. exact (proj1 (preparation_releases_once deployment ended.1 ended.2 ended_history) "0-1").
Defined.

(** Both successes are one receipt, and after the cancellation there is none. *)
Lemma preparation_answers_final_witness : exists e4 h, ended.1 = e4 :: h /\ forall res', succeeded e4 res' -> False.
Proof.
  destruct ended_story as (e4 & e3 & E & H4 & H3 & res & Hres). exists e4, (e3 :: repeated.1). split; [exact E|].
  refine (proj2 (proj2 (proj2 (preparation_answers_final deployment ended.1 ended.2 ended_history)) repeated.1 e3 [e4]
            session cancellation ticket res E H3 eq_refl Hres e4 _ H4)). left.
Defined.

Lemma replacement_needs_authority_witness : exists l p owner r, released = Released (rp_RepoID p) (rp_Path p) owner (rp_ObservedLockID p) r /\
  licensed (W := unit) deployment l session p owner.
Proof.
  destruct repeated_story as (e2 & e1 & E & Hc & Hr & _). exists (en_log e1).
  destruct (replacement_needs_authority deployment repeated.1 repeated.2 e1 session ticket released repeated_history) as (p & owner & r & _ & H1 & H2).
  - rewrite E. right. left.
  - exact Hc.
  - rewrite Hr. left.
  - exists p, owner, r. split; [exact H1|exact H2].
Defined.

End PrepDemo.
