(* ===== verification/LockReleases.v ===== *)
(** * LockReleases: asking the holder of a lock to give it up

    Models src/pkg/repoworker/lock_release_store.go (the durable requests),
    lock_release_worker.go (the control requests that make and answer them) and
    the sweep of lock_release_maintenance.go.

    A record lives in one file whose name is a digest of repository, observed
    token and requester; every path of the source is that name joined to the root,
    so a file is its name here.  The class [ReleaseFiles] is the directory, the
    digest and the identifier source; [Projector] is the interface the worker
    publishes through; [ReleaseWire] holds the JSON codec of these messages and
    the text of an error. *)
From S2P Require Import Prelude GoStrings Passport ControlTickets ServerBase RealmRecords LockAuthority ServerHost.
From Stdlib Require Import Ascii String.

Open Scope string_scope.
Open Scope go_scope.

Definition lockReleaseRequestSchema : string := "filees.lock-release-request/v1".
Definition DefaultLockReleaseRequestTTL : Duration := (3 * Hour)%Z.
Definition LockReleaseRetention : Duration := (7 * 24 * Hour)%Z.

Inductive LockReleaseState := Pending | Dismissed | Accepted | LockGone | Expired | Stale | OtherState (s : string).

#[export] Instance LockReleaseState_eq_dec : EqDecision LockReleaseState.
Proof. solve_decision. Defined.

Definition stateName (s : LockReleaseState) : string :=
  match s with
  | Pending => "pending" | Dismissed => "dismissed" | Accepted => "accepted" | LockGone => "lock_gone"
  | Expired => "expired" | Stale => "stale" | OtherState s => s
  end.

Record LockReleaseRecord := Rec {
  lr_Schema : string;
  lr_RequestID : string;
  lr_RepoID : string;
  lr_Path : string;
  lr_ObservedLockID : string;
  lr_RequesterClientID : string;
  lr_RequesterRealmID : string;
  lr_HolderClientID : string;
  lr_HolderRealmID : string;
  lr_State : LockReleaseState;
  lr_CreatedAt : Time;
  lr_UpdatedAt : Time;
  lr_ExpiresAt : Time
}.

#[export] Instance LockReleaseRecord_eq_dec : EqDecision LockReleaseRecord.
Proof. solve_decision. Defined.

Record LockReleaseRequest := Req {
  li_RepoID : string;
  li_Path : string;
  li_ObservedLockID : string;
  li_RequesterClientID : string;
  li_RequesterRealmID : string;
  li_HolderClientID : string;
  li_HolderRealmID : string
}.

(** The zero value beside an error. *)
Definition zeroRecord : LockReleaseRecord := Rec "" "" "" "" "" "" "" "" "" (OtherState "") 0%Z 0%Z 0%Z.

Definition withStateAt (s : LockReleaseState) (t : Time) (r : LockReleaseRecord) : LockReleaseRecord :=
  Rec (lr_Schema r) (lr_RequestID r) (lr_RepoID r) (lr_Path r) (lr_ObservedLockID r) (lr_RequesterClientID r)
      (lr_RequesterRealmID r) (lr_HolderClientID r) (lr_HolderRealmID r) s (lr_CreatedAt r) t (lr_ExpiresAt r).

Definition withHolderAt (client realm : string) (t : Time) (r : LockReleaseRecord) : LockReleaseRecord :=
  Rec (lr_Schema r) (lr_RequestID r) (lr_RepoID r) (lr_Path r) (lr_ObservedLockID r) (lr_RequesterClientID r)
      (lr_RequesterRealmID r) client realm (lr_State r) (lr_CreatedAt r) t (lr_ExpiresAt r).

Record Store := MkStore { st_Root : string; st_TTL : Duration }.

Class ReleaseFiles (W : Type) := {
  rf_readDir : W -> result serr (list (string * bool)) * W;
  (* [Ok None]: the file does not decode, or has trailing data *)
  rf_read : string -> W -> result serr (option LockReleaseRecord) * W;
  (* temporary file, rename, directory sync *)
  rf_write : string -> LockReleaseRecord -> W -> option serr * W;
  (* regular, and size *)
  rf_lstat : string -> W -> result serr (bool * Z) * W;
  rf_remove : string -> W -> option serr * W;
  rf_newUUID : W -> string * W;
  rf_digest : string -> string
}.

Section Store.
  Context {W : Type} {ids : Ids} {mortal : Mortal W} {host : Host W} {files : ReleaseFiles W}.
  Variable s : Store.

(** ** Validation *)
Definition validLockReleaseState (s : LockReleaseState) : bool := match s with OtherState _ => false | _ => true end.

Definition validateRecord (r : LockReleaseRecord) : option serr :=
  require (bool_decide (lr_Schema r = lockReleaseRequestSchema)) ERecord >>?
  validateLockReleaseUUID (lr_RequestID r) >>? validateLockReleaseUUID (lr_RepoID r) >>?
  validateLockReleaseUUID (lr_RequesterClientID r) >>? validateLockReleaseUUID (lr_RequesterRealmID r) >>?
  validateLockReleaseUUID (lr_HolderClientID r) >>?
  (if bool_decide (lr_HolderRealmID r = "") then None else validateLockReleaseUUID (lr_HolderRealmID r)) >>?
  require (negb (bool_decide (lr_RequesterClientID r = lr_HolderClientID r))) ESelf >>?
  validateLockReleasePath (lr_Path r) >>?
  validateObservedLockID (lr_ObservedLockID r) >>?
  require (validLockReleaseState (lr_State r)) ERecord >>?
  require (negb (IsZero (lr_CreatedAt r)) && negb (Before (lr_UpdatedAt r) (lr_CreatedAt r))
           && After (lr_ExpiresAt r) (lr_CreatedAt r)) ERecord.

Definition validateLockReleaseRequest (i : LockReleaseRequest) : option serr :=
  validateLockReleaseUUID (li_RepoID i) >>? validateLockReleaseUUID (li_RequesterClientID i) >>?
  validateLockReleaseUUID (li_RequesterRealmID i) >>? validateLockReleaseUUID (li_HolderClientID i) >>?
  (if bool_decide (li_HolderRealmID i = "") then None else validateLockReleaseUUID (li_HolderRealmID i)) >>?
  require (negb (bool_decide (li_RequesterClientID i = li_HolderClientID i))) ESelf >>?
  validateLockReleasePath (li_Path i) >>?
  validateObservedLockID (li_ObservedLockID i).

Definition validateHolderObservation (o : LockReleaseObservation) (requester : string) : option serr :=
  validateObservedLockID (ob_ObservedLockID o) >>?
  validateLockReleaseUUID (ob_HolderClientID o) >>?
  (if bool_decide (ob_HolderRealmID o = "") then None else validateLockReleaseUUID (ob_HolderRealmID o)) >>?
  require (negb (bool_decide (ob_HolderClientID o = requester))) ESelf.

(** ** Files *)
Definition ensureLocked : MC W (option serr) :=
  if negb (IsAbs (st_Root s)) then ret (Some ERoot) else ask (ho_mkdirAll (Clean (st_Root s))).

Definition ttl : Duration := if (0 <? st_TTL s)%Z then st_TTL s else DefaultLockReleaseRequestTTL.

Definition keyName (repoID token requester : string) : string :=
  rf_digest (repoID ++ str [0]%Z ++ token ++ str [0]%Z ++ requester) ++ ".json".

Definition hexDigit (c : ascii) : bool :=
  ((0x30 <=? byte c) && (byte c <=? 0x39) || (0x61 <=? byte c) && (byte c <=? 0x66) || (0x41 <=? byte c) && (byte c <=? 0x46))%Z.

(** [hex.DecodeString] succeeds. *)
Definition isHex (x : string) : bool := Nat.even (String.length x) && allb hexDigit x.

Definition recordName (name : string) : bool :=
  (len name =? 69)%Z && HasSuffix name ".json" && isHex (TrimSuffix name ".json").

Definition recordPathsLocked : MC W (result serr (list string)) :=
  let* r := ask rf_readDir in
  ok? entries := r in
  ret (Ok (merge_sort strLe (List.map fst (List.filter (fun e => negb (snd e) && recordName (fst e)) entries)))).

Definition loadPathLocked (file : string) : MC W (result serr LockReleaseRecord) :=
  let* r := ask (rf_read file) in
  ok? raw := r in
  ret (match raw with
       | None => Err ERecord
       | Some record => match validateRecord record with Some e => Err e | None => Ok record end
       end).

Definition savePathLocked (file : string) (r : LockReleaseRecord) : MC W (option serr) :=
  orElse (validateRecord r) (ask (rf_write file r)).

Fixpoint findIn (requestID : string) (names : list string) (found : option (LockReleaseRecord * string))
    : MC W (result serr (LockReleaseRecord * string)) :=
  match names with
  | [] => ret (match found with Some x => Ok x | None => Err ENotFound end)
  | file :: rest =>
      let* r := loadPathLocked file in
      ok? record := r in
      if negb (bool_decide (lr_RequestID record = requestID)) then findIn requestID rest found
      else match found with
           | Some _ => ret (Err EDuplicate)
           | None => findIn requestID rest (Some (record, file))
           end
  end.

Definition findLocked (requestID : string) : MC W (result serr (LockReleaseRecord * string)) :=
  match validateLockReleaseUUID requestID with
  | Some e => ret (Err e)
  | None =>
      let* r := recordPathsLocked in
      ok? names := r in findIn requestID names None
  end.

Definition expirePendingLocked (file : string) (r : LockReleaseRecord) : MC W (result serr LockReleaseRecord) :=
  if negb (bool_decide (lr_State r = Pending)) then ret (Ok r)
  else
    let* now := ask ho_now in
    if Before now (lr_ExpiresAt r) then ret (Ok r)
    else
      let* now := ask ho_now in
      let r := withStateAt Expired now r in
      let* e := savePathLocked file r in
      ret (match e with Some e => Err e | None => Ok r end).

(** ** Operations *)
Definition newRequest (i : LockReleaseRequest) (now : Time) (id : string) : LockReleaseRecord :=
  Rec lockReleaseRequestSchema id (li_RepoID i) (li_Path i) (li_ObservedLockID i) (li_RequesterClientID i) (li_RequesterRealmID i)
      (li_HolderClientID i) (li_HolderRealmID i) Pending now now (Add now ttl).

Definition sameKey (r : LockReleaseRecord) (i : LockReleaseRequest) : bool :=
  bool_decide (lr_RepoID r = li_RepoID i) && bool_decide (lr_ObservedLockID r = li_ObservedLockID i)
  && bool_decide (lr_RequesterClientID r = li_RequesterClientID i).

(** The stored request still answers for the key. *)
Definition stands (r : LockReleaseRecord) (now : Time) : bool :=
  bool_decide (lr_State r = Accepted) || bool_decide (lr_State r = LockGone) || bool_decide (lr_State r = Stale)
  || Before now (lr_ExpiresAt r).

Definition createRequest (file : string) (i : LockReleaseRequest) (now : Time) : MC W (result serr (LockReleaseRecord * bool)) :=
  let* id := ask rf_newUUID in
  let r := newRequest i now id in
  let* e := savePathLocked file r in
  ret (match e with Some e => Err e | None => Ok (r, true) end).

Definition Request (i : LockReleaseRequest) : MC W (result serr (LockReleaseRecord * bool)) :=
  let* e := ensureLocked in
  match e with Some e => ret (Err e) | None =>
  match validateLockReleaseRequest i with Some e => ret (Err e) | None =>
  let* now := ask ho_now in
  let file := keyName (li_RepoID i) (li_ObservedLockID i) (li_RequesterClientID i) in
  let* r := loadPathLocked file in
  match r with
  | Ok current =>
      if negb (sameKey current i) then ret (Err EMismatch)
      else if stands current now then ret (Ok (current, false))
      else createRequest file i now
  | Err e => if serr_is ENotExist e then createRequest file i now else ret (Err e)
  end end end.

Definition Get (requestID : string) : MC W (result serr LockReleaseRecord) :=
  let* e := ensureLocked in
  match e with Some e => ret (Err e) | None =>
  let* r := findLocked requestID in
  ok? (record, file) := r in expirePendingLocked file record
  end.

Fixpoint listFor (clientID : string) (names : list string) : MC W (result serr (list LockReleaseRecord)) :=
  match names with
  | [] => ret (Ok [])
  | file :: rest =>
      let* r := loadPathLocked file in
      ok? record := r in
      let* r := expirePendingLocked file record in
      ok? record := r in
      let* more := listFor clientID rest in
      ok? records := more in
      ret (Ok (if bool_decide (lr_RequesterClientID record = clientID) || bool_decide (lr_HolderClientID record = clientID)
               then record :: records else records))
  end.

Definition recordLe (a b : LockReleaseRecord) : Prop :=
  if bool_decide (lr_CreatedAt a = lr_CreatedAt b) then strLe (lr_RequestID a) (lr_RequestID b)
  else (lr_CreatedAt a < lr_CreatedAt b)%Z.

#[export] Instance recordLe_dec a b : Decision (recordLe a b).
Proof. unfold recordLe. destruct (bool_decide _); apply _. Defined.

Definition ListForClient (clientID : string) : MC W (result serr (list LockReleaseRecord)) :=
  let* e := ensureLocked in
  match e with Some e => ret (Err e) | None =>
  match validateLockReleaseUUID clientID with Some e => ret (Err e) | None =>
  let* r := recordPathsLocked in
  ok? names := r in
  let* r := listFor clientID names in
  ok? records := r in ret (Ok (merge_sort recordLe records))
  end end.

(** [Respond] and [Reconcile] return the record beside [ErrLockReleaseTerminal]. *)
Definition Respond (requestID holderClientID : string) (next : LockReleaseState) : MC W (LockReleaseRecord * option serr) :=
  let fail e := ret (zeroRecord, Some e) in
  let* e := ensureLocked in
  match e with Some e => fail e | None =>
  match validateLockReleaseUUID holderClientID with Some e => fail e | None =>
  if negb (bool_decide (next = Accepted)) && negb (bool_decide (next = Dismissed)) then fail EInvalidState
  else
    let* r := findLocked requestID in
    match r with Err e => fail e | Ok (record, file) =>
    let* r := expirePendingLocked file record in
    match r with Err e => fail e | Ok record =>
    if negb (bool_decide (lr_HolderClientID record = holderClientID)) then fail EForbidden
    else if negb (bool_decide (lr_State record = Pending)) then ret (record, Some ETerminal)
    else
      let* now := ask ho_now in
      let record := withStateAt next now record in
      let* e := savePathLocked file record in
      match e with Some e => fail e | None => ret (record, None) end
    end end end end.

(** The record after a fresh observation of its path; [None] is no change. *)
Definition observed (r : LockReleaseRecord) (o : option LockReleaseObservation) (now : Time) : result serr (option LockReleaseRecord) :=
  match o with
  | None => Ok (Some (withStateAt LockGone now r))
  | Some o =>
      match validateObservedLockID (ob_ObservedLockID o) with Some e => Err e | None =>
      if negb (bool_decide (ob_ObservedLockID o = lr_ObservedLockID r)) then Ok (Some (withStateAt Stale now r))
      else match validateHolderObservation o (lr_RequesterClientID r) with Some e => Err e | None =>
           if bool_decide (lr_HolderClientID r = ob_HolderClientID o) && bool_decide (lr_HolderRealmID r = ob_HolderRealmID o)
           then Ok None
           else Ok (Some (withHolderAt (ob_HolderClientID o) (ob_HolderRealmID o) now r))
           end
      end
  end.

Definition Reconcile (requestID : string) (o : option LockReleaseObservation) : MC W (LockReleaseRecord * option serr) :=
  let fail e := ret (zeroRecord, Some e) in
  let* e := ensureLocked in
  match e with Some e => fail e | None =>
  let* r := findLocked requestID in
  match r with Err e => fail e | Ok (record, file) =>
  let* r := expirePendingLocked file record in
  match r with Err e => fail e | Ok record =>
  if negb (bool_decide (lr_State record = Pending)) then ret (record, Some ETerminal)
  else
    let* now := ask ho_now in
    match observed record o now with
    | Err e => fail e
    | Ok None => ret (record, None)
    | Ok (Some record) =>
        let* e := savePathLocked file record in
        match e with Some e => fail e | None => ret (record, None) end
    end
  end end end.

End Store.

(** ** lock_release_worker.go *)
Record RequestLockReleasePayload := RequestPayload { rl_RepoID : string; rl_Path : string; rl_ObservedLockID : string }.
Record LockReleaseResult := ReleaseResult {
  lq_RequestID : string;
  lq_RepoID : string;
  lq_Path : string;
  lq_ObservedLockID : string;
  lq_State : string;
  lq_ExpiresAt : Time
}.

Definition TicketRequestLockRelease : string := "REQUEST_LOCK_RELEASE".
Definition TicketDismissLockRelease : string := "DISMISS_LOCK_RELEASE".
Definition TicketAcceptLockRelease : string := "ACCEPT_LOCK_RELEASE".

Class ReleaseWire := {
  z_request : string -> option RequestLockReleasePayload;
  z_decision : string -> option string;
  z_result : LockReleaseResult -> option string;
  z_errorText : serr -> string
}.

(** [remove] retires the projections; [allowMissing] tolerates absent views. *)
Class Projector (W : Type) := { pj_publish : LockReleaseRecord -> bool -> bool -> W -> option serr * W }.

Definition PublishLockRelease {W} `{!Projector W} (r : LockReleaseRecord) : W -> option serr * W := pj_publish r false false.
Definition RemoveLockRelease {W} `{!Projector W} (r : LockReleaseRecord) : W -> option serr * W := pj_publish r true true.

Section Worker.
  Context {W : Type} {ids : Ids} {codec : Comments} {tables : UnicodeTables} {wire : Wire W} {mortal : Mortal W} {host : Host W}
    {locks : Locks W} {records : Records W} {files : ReleaseFiles W} {messages : ReleaseWire} {projector : Projector W}.
  Variable s : Store.

Definition retryable (t : Ticket) (code message : string) : MC W (result serr Result) :=
  let* now := ask ho_now in
  ret (NewErrorResult (W:=W) (tk_OperationID t) (tk_RequestID t) (tk_Type t) code message now).

Definition lockReleaseSuccess (t : Ticket) (r : LockReleaseRecord) : MC W (result serr Result) :=
  let* now := ask ho_now in
  ret (NewSuccessResult (W:=W) (tk_OperationID t) (tk_RequestID t) (tk_Type t)
         (z_result (ReleaseResult (lr_RequestID r) (lr_RepoID r) (lr_Path r) (lr_ObservedLockID r)
                      (stateName (lr_State r)) (lr_ExpiresAt r))) now).

Definition sessionCanWriteRepository (session : Session) (repoID : string) : bool :=
  existsb (fun repo => bool_decide (v_RepoID repo = repoID) && bool_decide (v_State repo = "active")
                       && bool_decide (v_Access repo = "rw")) (se_Repositories session).

Definition requestLockRelease (session : Session) (t : Ticket) : MC W (result serr Result) :=
  match decodeStrict z_request (tk_Payload t) with
  | Err _ => ret (Err ETicket)
  | Ok p =>
      if negb (sessionCanWriteRepository session (rl_RepoID p)) then retryable t "LOCK_RELEASE_FORBIDDEN" "authenticated session cannot request this lock"
      else
        let* o := ask (InspectLock (rl_RepoID p) (rl_Path p)) in
        match o with
        | Err _ => retryable t "LOCK_RELEASE_INSPECTION_FAILED" "the authoritative lock could not be inspected"
        | Ok None => retryable t "LOCK_RELEASE_STALE" "the observed lock no longer exists"
        | Ok (Some o) =>
            if negb (bool_decide (ob_ObservedLockID o = rl_ObservedLockID p)) then retryable t "LOCK_RELEASE_STALE" "the observed lock no longer exists"
            else if bool_decide (ob_HolderClientID o = se_ClientID session)
            then retryable t "LOCK_RELEASE_SELF" "the authenticated installation already holds this lock"
            else
              let* r := Request s (Req (rl_RepoID p) (rl_Path p) (rl_ObservedLockID p) (se_ClientID session) (se_RealmID session)
                                     (ob_HolderClientID o) (ob_HolderRealmID o)) in
              match r with
              | Err e => retryable t "LOCK_RELEASE_REJECTED" (z_errorText e)
              | Ok (record, _) =>
                  let* e := ask (PublishLockRelease record) in
                  match e with
                  | Some _ => retryable t "LOCK_RELEASE_PROJECTION_FAILED" "lock release request could not be projected"
                  | None => lockReleaseSuccess t record
                  end
              end
        end
  end.

Definition isErr (target : serr) (e : option serr) : bool := match e with Some e => serr_is target e | None => false end.

(** The holder's answer, once the record is known to be pending. *)
Definition answerPending (session : Session) (t : Ticket) (record : LockReleaseRecord) : MC W (result serr Result) :=
  let next := if bool_decide (tk_Type t = TicketAcceptLockRelease) then Accepted else Dismissed in
  let* (record, e) := Respond s (lr_RequestID record) (se_ClientID session) next in
  if isErr EForbidden e then retryable t "LOCK_RELEASE_FORBIDDEN" "only the current lock holder can answer this request"
  else if isErr ETerminal e then lockReleaseSuccess t record
  else match e with
       | Some e => retryable t "LOCK_RELEASE_REJECTED" (z_errorText e)
       | None =>
           let* e := ask (PublishLockRelease record) in
           match e with
           | Some _ => retryable t "LOCK_RELEASE_PROJECTION_FAILED" "lock release response could not be projected"
           | None => lockReleaseSuccess t record
           end
       end.

Definition decideLockRelease (session : Session) (t : Ticket) : MC W (result serr Result) :=
  match decodeStrict z_decision (tk_Payload t) with
  | Err _ => ret (Err ETicket)
  | Ok requestID =>
      let* r := Get s requestID in
      match r with
      | Err e => if serr_is ENotFound e then retryable t "LOCK_RELEASE_NOT_FOUND" "lock release request no longer exists"
                 else retryable t "LOCK_RELEASE_UNAVAILABLE" (z_errorText e)
      | Ok record =>
          if negb (sessionCanWriteRepository session (lr_RepoID record))
          then retryable t "LOCK_RELEASE_FORBIDDEN" "authenticated session cannot answer this request"
          else
            let* o := ask (InspectLock (lr_RepoID record) (lr_Path record)) in
            match o with
            | Err _ => retryable t "LOCK_RELEASE_INSPECTION_FAILED" "the authoritative lock could not be inspected"
            | Ok o =>
                let* (record, e) := Reconcile s (lr_RequestID record) o in
                match (if isErr ETerminal e then None else e) with
                | Some e => retryable t "LOCK_RELEASE_REJECTED" (z_errorText e)
                | None =>
                    if negb (bool_decide (lr_State record = Pending)) then
                      let* e := ask (PublishLockRelease record) in
                      match e with
                      | Some _ => retryable t "LOCK_RELEASE_PROJECTION_FAILED" "lock release state could not be projected"
                      | None => lockReleaseSuccess t record
                      end
                    else answerPending session t record
                end
            end
      end
  end.

Definition lockRelease (session : Session) (t : Ticket) : MC W (result serr Result) :=
  if bool_decide (tk_Type t = TicketRequestLockRelease) then requestLockRelease session t else decideLockRelease session t.

(** ** lock_release_maintenance.go *)

(** Only a canonical deletion of the repository proves that its locks are gone. *)
Definition repositoryDeleted (ServiceWC repoID : string) : MC W bool :=
  match repositoryRecordPath ServiceWC repoID with
  | Err _ => ret false
  | Ok path =>
      let* r := ask (rd_repository path) in
      ret (match r with
           | Err _ => false
           | Ok repo => bool_decide (rr_Schema repo = RepositorySchema) && bool_decide (rr_RepoID repo = repoID)
                        && bool_decide (rr_State repo = "deleted")
           end)
  end.

(** The pending record against the observation; the update time is set only if
    something changed. *)
Definition swept (r : LockReleaseRecord) (o : option LockReleaseObservation) (now : Time) : result serr LockReleaseRecord :=
  match o with
  | None => Ok (withStateAt LockGone now r)
  | Some o =>
      if negb (bool_decide (ob_ObservedLockID o = lr_ObservedLockID r)) then Ok (withStateAt Stale now r)
      else match validateHolderObservation o (lr_RequesterClientID r) with
           | Some e => Err e
           | None => if bool_decide (lr_HolderClientID r = ob_HolderClientID o) && bool_decide (lr_HolderRealmID r = ob_HolderRealmID o)
                     then Ok r
                     else Ok (withHolderAt (ob_HolderClientID o) (ob_HolderRealmID o) now r)
           end
  end.

Definition sweepPending (file : string) (r : LockReleaseRecord) (o : option LockReleaseObservation) : MC W (result serr LockReleaseRecord) :=
  if negb (bool_decide (lr_State r = Pending)) then ret (Ok r)
  else match swept r o (lr_UpdatedAt r) with
       | Err e => ret (Err e)
       | Ok next =>
           if bool_decide (next = r) then ret (Ok r)
           else
             let* now := ask ho_now in
             match swept r o now with
             | Err e => ret (Err e)
             | Ok next =>
                 let* e := savePathLocked file next in
                 ret (match e with Some e => Err e | None => Ok next end)
             end
       end.

(** Retire the record, or refresh its projections. *)
Definition collect (file : string) (r : LockReleaseRecord) (o : option LockReleaseObservation) (removed : Z) : MC W (Z * option serr) :=
  let sameToken := match o with Some o => bool_decide (ob_ObservedLockID o = lr_ObservedLockID r) | None => false end in
  let refresh := let* e := ask (pj_publish r false true) in ret (removed, e) in
  if bool_decide (lr_State r = Pending) || sameToken then refresh
  else
    let* now := ask ho_now in
    if Before now (Add (lr_UpdatedAt r) LockReleaseRetention) then refresh
    else
      let* now := ask ho_now in
      if Before now (lr_ExpiresAt r) then refresh
      else
        let* e := ask (RemoveLockRelease r) in
        match e with Some e => ret (removed, Some e) | None =>
        let* e := ask (rf_remove file) in
        match e with Some e => ret (removed, Some e) | None =>
        let* e := ask (ho_syncDirectory (st_Root s)) in
        ret ((removed + 1)%Z, e)
        end end.

(** What the sweep knows of the lock: an inspection, or a deleted repository. *)
Definition observe (ServiceWC : string) (r : LockReleaseRecord) : MC W (result serr (option LockReleaseObservation)) :=
  let* o := ask (InspectLock (lr_RepoID r) (lr_Path r)) in
  match o with
  | Ok o => ret (Ok o)
  | Err e =>
      let* deleted := repositoryDeleted ServiceWC (lr_RepoID r) in
      ret (if deleted then Ok None else Err e)
  end.

Definition sweepOne (ServiceWC file : string) (removed : Z) : MC W (Z * option serr) :=
  let fail e := ret (removed, Some e) in
  let* st := ask (rf_lstat file) in
  match st with Err e => fail e | Ok (regular, size) =>
  if negb regular || (65536 <? size)%Z then fail EUnsafe
  else
    let* r := loadPathLocked file in
    match r with Err e => fail e | Ok record =>
    if negb (bool_decide (file = keyName (lr_RepoID record) (lr_ObservedLockID record) (lr_RequesterClientID record))) then fail EMismatch
    else
      let* o := observe ServiceWC record in
      match o with Err e => fail e | Ok o =>
      let* r := expirePendingLocked file record in
      match r with Err e => fail e | Ok record =>
      let* r := sweepPending file record o in
      match r with Err e => fail e | Ok record => collect file record o removed
      end end end end end.

Fixpoint sweepFiles (ServiceWC : string) (names : list string) (removed : Z) (failures : list serr) : MC W (Z * option serr) :=
  match names with
  | [] => ret (removed, errorsJoin failures)
  | file :: rest =>
      let* e := ask ho_ctxErr in
      match e with
      | Some e => ret (removed, errorsJoin (app failures [e]))
      | None =>
          let* (removed, e) := sweepOne ServiceWC file removed in
          sweepFiles ServiceWC rest removed (match e with Some e => app failures [e] | None => failures end)
      end
  end.

Definition Sweep (ServiceWC : string) : MC W (Z * option serr) :=
  let* e := ensureLocked s in
  match e with Some e => ret (0%Z, Some e) | None =>
  let* r := recordPathsLocked in
  match r with
  | Err e => ret (0%Z, Some e)
  | Ok names => sweepFiles ServiceWC names 0%Z []
  end end.

End Worker.
