(* ===== verification/LockReleaseProps.v ===== *)
(** * LockReleaseProps: a release request is answered by the holder, once

    The world [LS] keeps the files of the store and logs what an operation read of
    the clock and of the locks; failures of any call, the death of the worker and
    everything else is answered by an arbitrary world underneath.  [tstep] is the
    state machine of one record; every operation moves every record along it. *)
From S2P Require Import Prelude GoStrings Passport ControlTickets ServerBase RealmRecords LockAuthority ServerHost LockReleases.
From Stdlib Require Import Ascii String.

Open Scope string_scope.
Open Scope go_scope.

(** ** The recorded world *)
Inductive sighting :=
| SawTime (t : Time)
| SawLock (repoID path : string) (r : result serr (option svnAdminLock)).

Record LS (W : Type) := MkLS { ls_world : W; ls_files : gmap string LockReleaseRecord; ls_log : list sighting }.
Arguments MkLS {W}. Arguments ls_world {W}. Arguments ls_files {W}. Arguments ls_log {W}.

(** What the disk does to a call: a read may fail, a write may fail before or
    after it took effect; a directory may hold other entries. *)
Class ReleaseDisk (W : Type) := {
  rk_read : W -> option nat * W;
  rk_write : W -> option (nat * bool) * W;
  rk_lstat : string -> W -> result serr (bool * Z) * W;
  rk_entries : W -> list (string * bool) * W;
  rk_newUUID : W -> string * W;
  rk_digest : string -> string
}.

Section World.
  Context {W : Type} {mortal : Mortal W} {records : Records W} {locks : Locks W} {host : Host W} {projector : Projector W} {disk : ReleaseDisk W}.
  Implicit Types (s : LS W).

Definition keep {A} (f : W -> A * W) : LS W -> A * LS W := fun s =>
  let '(a, w) := f (ls_world s) in (a, MkLS w (ls_files s) (ls_log s)).

Definition note {A} (e : A -> sighting) (f : W -> A * W) : LS W -> A * LS W := fun s =>
  let '(a, w) := f (ls_world s) in (a, MkLS w (ls_files s) (e a :: ls_log s)).

#[export] Instance lsMortal : Mortal (LS W) := {| dies := keep dies |}.

#[export] Instance lsRecords : Records (LS W) := {|
  rd_client p := keep (rd_client p);
  rd_realm p := keep (rd_realm p);
  rd_repository p := keep (rd_repository p);
  rd_grant p := keep (rd_grant p);
  rd_normalizeBranding := rd_normalizeBranding;
  rd_validateRelease := rd_validateRelease;
  rd_verifyRelease a b c := keep (rd_verifyRelease a b c)
|}.

#[export] Instance lsLocks : Locks (LS W) := {|
  lk_inspect r p := note (SawLock r p) (lk_inspect r p);
  lk_unlock r p o t := keep (lk_unlock r p o t)
|}.

#[export] Instance lsProjector : Projector (LS W) := {| pj_publish r a b := keep (pj_publish r a b) |}.

#[export] Instance lsHost : Host (LS W) := {|
  ho_now := note SawTime ho_now;
  ho_ctxErr := keep ho_ctxErr;
  ho_lstat p := keep (ho_lstat p);
  ho_stat p := keep (ho_stat p);
  ho_readlink p := keep (ho_readlink p);
  ho_symlink a b := keep (ho_symlink a b);
  ho_mkdirAll p := keep (ho_mkdirAll p);
  ho_syncDirectory p := keep (ho_syncDirectory p);
  ho_readFile p := keep (ho_readFile p);
  ho_readDir p := keep (ho_readDir p);
  ho_lockFile b p := keep (ho_lockFile b p);
  ho_unlockFile p := keep (ho_unlockFile p);
  ho_noSuchProcess p := keep (ho_noSuchProcess p);
  ho_output a b := keep (ho_output a b)
|}.

(** A change of the directory that may fail before or after its effect. *)
Definition change (f : gmap string LockReleaseRecord -> gmap string LockReleaseRecord) : LS W -> option serr * LS W := fun s =>
  let '(fault, w) := rk_write (ls_world s) in
  match fault with
  | None => (None, MkLS w (f (ls_files s)) (ls_log s))
  | Some (n, after) => (Some (EIO n), MkLS w (if after then f (ls_files s) else ls_files s) (ls_log s))
  end.

#[export] Instance lsFiles : ReleaseFiles (LS W) := {|
  rf_readDir s := let '(fault, w) := rk_read (ls_world s) in
                  let '(extra, w) := rk_entries w in
                  (match fault with
                   | Some n => Err (EIO n)
                   | None => Ok (app (List.map (fun kv => (kv.1, false)) (map_to_list (ls_files s))) extra)
                   end, MkLS w (ls_files s) (ls_log s));
  rf_read file s := let '(fault, w) := rk_read (ls_world s) in
                    (match fault, ls_files s !! file with
                     | Some n, _ => Err (EIO n)
                     | None, Some r => Ok (Some r)
                     | None, None => Err ENotExist
                     end, MkLS w (ls_files s) (ls_log s));
  rf_write file r := change <[file := r]>;
  rf_lstat file := keep (rk_lstat file);
  rf_remove file := change (delete file);
  rf_newUUID := keep rk_newUUID;
  rf_digest := rk_digest
|}.

(** ** Reading calls change no file *)
Record calmly s s' : Prop := { calmly_files : ls_files s' = ls_files s; calmly_log : ls_log s ⊆ ls_log s' }.

#[export] Instance calmly_preorder : PreOrder calmly.
Proof. split; [by split|]. intros a b c [? ?] [? ?]. split; [congruence|set_solver]. Qed.

Lemma calmly_keep {A} (f : W -> A * W) s : calmly s (keep f s).2.
Proof. unfold keep. destruct (f (ls_world s)). by split. Qed.

Lemma note_spec {A} (e : A -> sighting) (f : W -> A * W) s : calmly s (note e f s).2 /\ e (note e f s).1 ∈ ls_log (note e f s).2.
Proof. unfold note. destruct (f (ls_world s)). simpl. split; [split; [done|intros x Hx; by right]|left]. Qed.

(** [m] changes no file; [P] holds of its result and of the state it leaves. *)
Definition reads {A} (m : MC (LS W) A) (P : A -> LS W -> Prop) : Prop :=
  forall s, wpc (calmly s) m (fun a s' => calmly s s' /\ P a s') s.

Lemma reads_ret {A} (a : A) (P : A -> LS W -> Prop) : (forall s, P a s) -> reads (ret a) P.
Proof. intros H s. apply wpc_ret. split; [reflexivity|apply H]. Qed.

Lemma reads_mono {A} (m : MC (LS W) A) (P Q : A -> LS W -> Prop) : reads m P -> (forall a s, P a s -> Q a s) -> reads m Q.
Proof. intros Hm H s. eapply wpc_mono; [apply Hm|]. naive_solver. Qed.

Lemma reads_bind {A B} (m : MC (LS W) A) (k : A -> MC (LS W) B) P Q :
  reads m P -> (forall a, reads (k a) (fun b s => (exists s0, calmly s0 s /\ P a s0) -> Q b s)) -> reads (bind m k) Q.
Proof.
  intros Hm Hk s. apply wpc_bind. specialize (Hm s). unfold wpc in *.
  destruct (m s) as [[a|] s1]; [|done]. destruct Hm as [H1 HP]. specialize (Hk a s1). unfold wpc in Hk.
  destruct (k a s1) as [[b|] s2]; [|by etrans]. destruct Hk as [H2 HQ]. split; [by etrans|]. apply HQ. by exists s1.
Qed.

Lemma reads_ask {A} (f : LS W -> A * LS W) P :
  (forall s, calmly s (f s).2 /\ P (f s).1 (f s).2) -> reads (ask f) P.
Proof.
  intros H s. pose proof (calmly_keep dies s) as Hd. apply wpc_asked; intros s1 E; cbn in E, Hd; rewrite E in Hd; [done|].
  destruct (H s1). split; [by etrans|done].
Qed.

Lemma reads_keep {A} (f : W -> A * W) : reads (ask (keep f)) (fun _ _ => True).
Proof. apply reads_ask. intros s. split; [apply calmly_keep|done]. Qed.

Lemma reads_note {A} (e : A -> sighting) (f : W -> A * W) : reads (ask (note e f)) (fun a s => e a ∈ ls_log s).
Proof. apply reads_ask. intros s. apply note_spec. Qed.

(** A reading step of a computation that writes. *)
Lemma wpc_reads {A B} (m : MC (LS W) A) (k : A -> MC (LS W) B) P D Q s :
  reads m P -> (forall s', calmly s s' -> D s') ->
  (forall a s', calmly s s' -> P a s' -> wpc D (k a) Q s') -> wpc D (bind m k) Q s.
Proof.
  intros Hm HD Hk. apply wpc_bind. specialize (Hm s). unfold wpc in *.
  destruct (m s) as [[a|] s']; [|by apply HD]. destruct Hm. by apply Hk.
Qed.

End World.

(** ** The state machine of a record *)
Section Machine.
(** Who may answer: the holder, in a session that may write the repository and in
    a request that saw the holder's lock with the observed token. *)
Definition mayAnswer (who : option Session) (l : list sighting) (r : LockReleaseRecord) : Prop :=
  match who with
  | None => False
  | Some se => lr_HolderClientID r = se_ClientID se /\ sessionCanWriteRepository se (lr_RepoID r) = true /\
      exists lock, SawLock (lr_RepoID r) (lr_Path r) (Ok (Some lock)) ∈ l /\
        al_Token lock = lr_ObservedLockID r /\ al_Owner lock = se_ClientID se
  end.

Definition sameRequest (r r' : LockReleaseRecord) : Prop :=
  lr_RepoID r' = lr_RepoID r /\ lr_ObservedLockID r' = lr_ObservedLockID r /\ lr_RequesterClientID r' = lr_RequesterClientID r.

(** One move of the record under a key, made by [who] having seen [l]. *)
Inductive tstep (who : option Session) (l : list sighting) : option LockReleaseRecord -> option LockReleaseRecord -> Prop :=
| ts_create r : lr_State r = Pending -> tstep who l None (Some r)
| ts_renew r r' t : lr_State r = Pending \/ lr_State r = Dismissed \/ lr_State r = Expired ->
    SawTime t ∈ l -> (lr_ExpiresAt r <= t)%Z -> sameRequest r r' -> lr_State r' = Pending -> lr_CreatedAt r' = t ->
    tstep who l (Some r) (Some r')
| ts_expire r t t' : lr_State r = Pending -> SawTime t ∈ l -> (lr_ExpiresAt r <= t)%Z ->
    tstep who l (Some r) (Some (withStateAt Expired t' r))
| ts_answer r next t : lr_State r = Pending -> next = Accepted \/ next = Dismissed -> mayAnswer who l r ->
    tstep who l (Some r) (Some (withStateAt next t r))
| ts_gone r t : lr_State r = Pending -> tstep who l (Some r) (Some (withStateAt LockGone t r))
| ts_stale r t : lr_State r = Pending -> tstep who l (Some r) (Some (withStateAt Stale t r))
| ts_retarget r client realm t : lr_State r = Pending -> client <> lr_RequesterClientID r ->
    tstep who l (Some r) (Some (withHolderAt client realm t r))
| ts_collect r t t' : lr_State r <> Pending -> SawTime t ∈ l -> SawTime t' ∈ l ->
    (lr_UpdatedAt r + LockReleaseRetention <= t)%Z -> (lr_ExpiresAt r <= t')%Z -> tstep who l (Some r) None.

Lemma mayAnswer_sub who l l' r : l ⊆ l' -> mayAnswer who l r -> mayAnswer who l' r.
Proof. intros Hs. destruct who as [se|]; [|done]. intros (? & ? & lock & ? & ?). split_and!; try done. exists lock. split; [by apply Hs|done]. Qed.

Lemma tstep_sub who l l' a b : l ⊆ l' -> tstep who l a b -> tstep who l' a b.
Proof.
  intros Hs H. assert (Hin : forall x, x ∈ l -> x ∈ l') by exact Hs. destruct H;
    [apply ts_create|eapply ts_renew|eapply ts_expire|apply ts_answer|apply ts_gone|apply ts_stale|apply ts_retarget|eapply (ts_collect _ _ _ t t')];
    eauto using mayAnswer_sub.
Qed.

Lemma tsteps_sub who l l' a b : l ⊆ l' -> rtc (tstep who l) a b -> rtc (tstep who l') a b.
Proof. intros Hs H. induction H; [constructor|]. econstructor; [by eapply tstep_sub|done]. Qed.

(** A decision was there before, or was made by someone who may. *)
Lemma decided_by who l a r' : rtc (tstep who l) a (Some r') -> lr_State r' = Accepted \/ lr_State r' = Dismissed ->
  a = Some r' \/ mayAnswer who l r'.
Proof.
  intros H Hst.
  assert (Hgen : forall b, rtc (tstep who l) a b -> forall r', b = Some r' -> lr_State r' = Accepted \/ lr_State r' = Dismissed ->
                 a = Some r' \/ mayAnswer who l r'); [|by eapply Hgen].
  clear. intros b H. refine (rtc_ind_r (fun b => forall r', b = Some r' -> lr_State r' = Accepted \/ lr_State r' = Dismissed ->
    a = Some r' \/ mayAnswer who l r') a _ _ b H); [auto|].
  intros x y _ Hs IH r' -> Hst. inversion Hs; subst; simpl in *; try (destruct Hst; congruence). by right.
Qed.

Definition settled (r : LockReleaseRecord) : Prop := lr_State r = Accepted \/ lr_State r = LockGone \/ lr_State r = Stale.

(** A record that is no longer pending stays until its expiry; a settled one
    until the retention after it. *)
Lemma settled_stays who l r b : rtc (tstep who l) (Some r) b -> lr_State r <> Pending ->
  b = Some r \/ exists t, SawTime t ∈ l /\ (lr_ExpiresAt r <= t)%Z /\
    (settled r -> exists t', SawTime t' ∈ l /\ (lr_UpdatedAt r + LockReleaseRetention <= t')%Z).
Proof.
  intros H Hst. remember (Some r) as a eqn:E. destruct H as [|a y b Hs _]; [by left|subst a]. right.
  inversion Hs; subst; try congruence.
  - exists (lr_CreatedAt r'). split_and!; try done. unfold settled. intros ?.
    repeat match goal with H : _ \/ _ |- _ => destruct H end; congruence.
  - exists t'. split_and!; try done. intros _. by exists t.
Qed.

End Machine.

(** ** Operations move records along the machine *)
Section Operations.
  Context {W : Type} {ids : Ids} {codec : Comments} {tables : UnicodeTables} {wire : Wire (LS W)} {messages : ReleaseWire}.
  Context {mortal : Mortal W} {records : Records W} {locks : Locks W} {host : Host W} {projector : Projector W} {disk : ReleaseDisk W}.
  Variable d : Store.
  Implicit Types (s : LS W) (r : LockReleaseRecord) (who : option Session).

Definition keyOf r : string := keyName (W := LS W) (lr_RepoID r) (lr_ObservedLockID r) (lr_RequesterClientID r).

(** Every stored record is valid and under its own key. *)
Definition wellFormed s : Prop := forall file r, ls_files s !! file = Some r -> validateRecord r = None /\ file = keyOf r.

Record good who s s' : Prop := {
  good_steps file : rtc (tstep who (ls_log s')) (ls_files s !! file) (ls_files s' !! file);
  good_log : ls_log s ⊆ ls_log s';
  good_wf : wellFormed s -> wellFormed s'
}.

Lemma good_calmly who s s' : calmly s s' -> good who s s'.
Proof. intros [Hf Hl]. split; [intros; rewrite Hf; constructor|done|]. unfold wellFormed. by rewrite Hf. Qed.

#[export] Instance good_preorder who : PreOrder (good who).
Proof.
  split; [intros s; apply good_calmly; reflexivity|]. intros a b c [H1 L1 W1] [H2 L2 W2]. split; [|set_solver|auto].
  intros file. etrans; [eapply tsteps_sub; [exact L2|]; apply H1|apply H2].
Qed.

Definition moves who {A} (m : MC (LS W) A) (P : A -> LS W -> Prop) s : Prop :=
  wpc (good who s) m (fun a s' => good who s s' /\ P a s') s.

Lemma moves_ret who {A} (a : A) (P : A -> LS W -> Prop) s : P a s -> moves who (ret a) P s.
Proof. intros H. apply wpc_ret. split; [reflexivity|done]. Qed.

Lemma moves_bind who {A B} (m : MC (LS W) A) (k : A -> MC (LS W) B) P Q s :
  moves who m P s -> (forall a s1, good who s s1 -> P a s1 -> moves who (k a) Q s1) -> moves who (bind m k) Q s.
Proof.
  intros Hm Hk. apply wpc_bind. unfold moves, wpc in *. destruct (m s) as [[a|] s1]; [|done]. destruct Hm as [H1 HP].
  specialize (Hk a s1 H1 HP). destruct (k a s1) as [[b|] s2]; [|by etrans]. destruct Hk. split; [by etrans|done].
Qed.

Lemma moves_mono who {A} (m : MC (LS W) A) (P Q : A -> LS W -> Prop) s : moves who m P s -> (forall a s', good who s s' -> P a s' -> Q a s') -> moves who m Q s.
Proof. intros Hm H. eapply wpc_mono; [exact Hm|]. simpl. intros a s' [? ?]. auto. Qed.

Lemma moves_reads who {A} (m : MC (LS W) A) P s : reads m P -> moves who m (fun a s' => calmly s s' /\ P a s') s.
Proof.
  intros Hm. specialize (Hm s). unfold moves, wpc in *. destruct (m s) as [[a|] s']; [|by apply good_calmly].
  destruct Hm. split; [by apply good_calmly|done].
Qed.

(** A reading step, then the rest. *)
Lemma moves_read who {A B} (m : MC (LS W) A) (k : A -> MC (LS W) B) P Q s :
  reads m P -> (forall a s1, calmly s s1 -> P a s1 -> moves who (k a) Q s1) -> moves who (bind m k) Q s.
Proof. intros Hm Hk. eapply moves_bind; [by apply moves_reads|]. intros a s1 _ [? ?]. by apply Hk. Qed.

Lemma moves_keep who {A B} (f : W -> A * W) (k : A -> MC (LS W) B) Q s :
  (forall a s1, calmly s s1 -> moves who (k a) Q s1) -> moves who (bind (ask (keep f)) k) Q s.
Proof. intros Hk. eapply moves_read; [apply reads_keep|]. intros. by apply Hk. Qed.

(** *** Changing a file *)
Definition held (file : string) r s : Prop := ls_files s !! file = Some r.

Lemma held_calmly file r s s' : calmly s s' -> held file r s -> held file r s'.
Proof. unfold held. intros [-> _]. done. Qed.

Lemma wellFormed_calmly s s' : calmly s s' -> wellFormed s -> wellFormed s'.
Proof. unfold wellFormed. intros [-> _]. done. Qed.

Lemma moves_change who f file s :
  (forall g m, g <> file -> f m !! g = m !! g) -> (wellFormed s -> match f (ls_files s) !! file with Some r => validateRecord r = None /\ file = keyOf r | None => True end) ->
  rtc (tstep who (ls_log s)) (ls_files s !! file) (f (ls_files s) !! file) ->
  moves who (ask (change f)) (fun e s' => e = None -> ls_files s' = f (ls_files s)) s.
Proof.
  intros Hf Hwf Hst. pose proof (calmly_keep dies s) as Hd. unfold moves.
  apply wpc_asked; intros s1 E; cbn in E, Hd; rewrite E in Hd; [by apply good_calmly|].
  destruct Hd as [Hd1 Hd2]. cbn in Hd1, Hd2.
  assert (Hgood : forall w, good who s (MkLS w (f (ls_files s1)) (ls_log s1))).
  { intros w. split; simpl; [|done|].
    - intros g. rewrite Hd1. destruct (decide (g = file)) as [->|Hg]; [by eapply tsteps_sub|]. rewrite Hf by done. constructor.
    - intros Hw g r. simpl. rewrite Hd1. destruct (decide (g = file)) as [->|Hg]; [|rewrite Hf by done; apply Hw].
      intros Hr. specialize (Hwf Hw). by rewrite Hr in Hwf. }
  assert (Hcalm : forall w, good who s (MkLS w (ls_files s1) (ls_log s1))) by (intros w; apply good_calmly; by split).
  unfold change. destruct (rk_write (ls_world s1)) as [[[n []]|] w]; simpl; (split; [done|]); try done. intros _. by rewrite Hd1.
Qed.

Lemma moves_save who file r s :
  file = keyOf r -> tstep who (ls_log s) (ls_files s !! file) (Some r) ->
  moves who (savePathLocked (W := LS W) file r) (fun e s' => e = None -> held file r s' /\ ls_files s' = <[file := r]> (ls_files s)) s.
Proof.
  intros Hk Hst. unfold savePathLocked, orElse. destruct (validateRecord r) eqn:Hv; [by apply moves_ret|].
  eapply moves_mono; [apply (moves_change who <[file := r]> file)|].
  - intros g m Hg. by rewrite lookup_insert_ne.
  - intros _. by rewrite lookup_insert_eq.
  - rewrite lookup_insert_eq. by apply rtc_once.
  - intros e s' _ He Hn. rewrite (He Hn). unfold held. by rewrite (He Hn), lookup_insert_eq.
Qed.

(** *** Reading a file *)
Lemma validateRecord_exists r e : validateRecord r = Some e -> serr_is ENotExist e = false.
Proof.
  unfold validateRecord, validateLockReleaseUUID, validateLockReleasePath, validateObservedLockID, andThen, require.
  intros H. repeat (case_match; simplify_eq; try done).
Qed.

Lemma reads_load file :
  reads (loadPathLocked (W := LS W) file) (fun a s => match a with
    | Ok r => held file r s /\ validateRecord r = None
    | Err e => serr_is ENotExist e = true -> ls_files s !! file = None
    end).
Proof.
  unfold loadPathLocked. eapply reads_bind.
  - apply (reads_ask _ (fun a s => match a with Ok (Some r) => held file r s | Ok None => True | Err e => serr_is ENotExist e = true -> ls_files s !! file = None end)).
    intros s. cbn [rf_read lsFiles]. destruct (rk_read (ls_world s)) as [[n|] w]; simpl; (split; [by split|]); [done|].
    unfold held. simpl. by destruct (ls_files s !! file).
  - intros [[r|]|e].
    + destruct (validateRecord r) as [e|] eqn:Hv; apply reads_ret; simpl.
      * intros s _ He. by rewrite (validateRecord_exists _ _ Hv) in He.
      * intros s (s0 & Hc & Hh). split; [by eapply held_calmly|done].
    + apply reads_ret. done.
    + apply reads_ret. intros s (s0 & Hc & Hh) He. rewrite (calmly_files _ _ Hc). by apply Hh.
Qed.

Lemma reads_ensure : reads (ensureLocked (W := LS W) d) (fun _ _ => True).
Proof. unfold ensureLocked. destruct (IsAbs _); [apply reads_keep|by apply reads_ret]. Qed.

Lemma reads_paths : reads (recordPathsLocked (W := LS W)) (fun a s => forall names, a = Ok names ->
  forall file r, held file r s -> recordName file = true -> file ∈ names).
Proof.
  unfold recordPathsLocked. eapply reads_bind.
  - apply (reads_ask _ (fun a s => forall l, a = Ok l -> forall file r, held file r s -> (file, false) ∈ l)). intros s. cbn [rf_readDir lsFiles].
    destruct (rk_read (ls_world s)) as [fault w]. destruct (rk_entries w) as [extra w']. simpl. split; [by split|].
    destruct fault; [done|]. intros l [= <-] file r Hh. apply elem_of_app. left. apply list_elem_of_In, in_map_iff.
    exists (file, r). split; [done|]. apply list_elem_of_In. by apply elem_of_map_to_list.
  - intros [l|e]; apply reads_ret; [|done]. intros s (s0 & Hc & Hl) names [= <-] file r Hh Hn.
    rewrite merge_sort_Permutation. apply list_elem_of_In, in_map_iff. exists (file, false). split; [done|].
    apply filter_In. split; [|by simpl]. apply list_elem_of_In. eapply (Hl l); [done|]. unfold held in *. by rewrite <- (calmly_files _ _ Hc).
Qed.

(** The find: the one file among [names] with the request. *)
Definition only (requestID : string) (names : list string) (f : option (LockReleaseRecord * string)) s : Prop :=
  (forall x, f = Some x -> held x.2 x.1 s /\ lr_RequestID x.1 = requestID) /\
  forall g r, g ∈ names -> held g r s -> lr_RequestID r = requestID -> match f with Some x => x.2 = g | None => False end.

Lemma only_calmly id names f s s' : calmly s s' -> only id names f s -> only id names f s'.
Proof. intros [Hf _] [H1 H2]. split; unfold held in *; rewrite Hf; done. Qed.

Lemma reads_findIn id names seen found s0 : only id seen found s0 ->
  wpc (calmly s0) (findIn (W := LS W) id names found)
    (fun a s' => calmly s0 s' /\ forall x, a = Ok x -> only id (app seen names) (Some x) s') s0.
Proof.
  revert seen found s0. induction names as [|file rest IH]; intros seen found s0 Ho; cbn [findIn].
  - apply wpc_ret. split; [reflexivity|]. rewrite app_nil_r. destruct found; [|done]. by intros x [= <-].
  - eapply wpc_reads; [apply reads_load|done|]. intros [r|e] s1 C1 Hr.
    2: { apply wpc_ret. split; [done|]. done. }
    destruct Hr as [Hh Hv]. apply (only_calmly _ _ _ _ _ C1) in Ho.
    assert (Hgo : forall f', only id (app seen [file]) f' s1 ->
      wpc (calmly s0) (findIn (W := LS W) id rest f') (fun a s' => calmly s0 s' /\ forall x, a = Ok x -> only id (app seen (file :: rest)) (Some x) s') s1).
    { intros f' Hf'. pose proof (IH _ _ _ Hf') as H. rewrite <- app_assoc in H. simpl in H. unfold wpc in *.
      destruct (findIn id rest f' s1) as [[a|] s2]; [|by etrans]. destruct H. split; [by etrans|done]. }
    case_bool_decide as Hid; simpl.
    + destruct found as [x|]; [by apply wpc_ret|]. apply Hgo. split; [by intros x [= <-]|].
      intros g r' [Hg|Hg]%elem_of_app Hh' Hid'; [by destruct (proj2 Ho g r' Hg Hh' Hid')|]. apply list_elem_of_singleton in Hg. by subst.
    + apply Hgo. split; [apply Ho|]. intros g r' [Hg|Hg]%elem_of_app Hh' Hid'; [by eapply (proj2 Ho)|].
      apply list_elem_of_singleton in Hg. subst g. unfold held in *. congruence.
Qed.

(** SHA-256 in hexadecimal: a digest names a record file. *)
Hypothesis digest_hex : forall x, recordName (rk_digest x ++ ".json") = true.

Definition found id (x : LockReleaseRecord * string) s : Prop :=
  held x.2 x.1 s /\ lr_RequestID x.1 = id /\ (wellFormed s -> forall g r, held g r s -> lr_RequestID r = id -> g = x.2).

Lemma reads_find id : reads (findLocked (W := LS W) id) (fun a s => forall x, a = Ok x -> found id x s).
Proof.
  unfold findLocked. destruct (validateLockReleaseUUID id); [by apply reads_ret|]. eapply reads_bind; [apply reads_paths|].
  intros [names|e]; [|by apply reads_ret]. intros s.
  assert (Ho : only id [] None s) by (split; [done|by intros g r ?%elem_of_nil]).
  pose proof (reads_findIn id names [] None s Ho) as H. unfold wpc in *. destruct (findIn id names None s) as [[a|] s']; [|done].
  destruct H as [Hc Hx]. split; [done|]. intros (s0 & Hc0 & Hn) x ->. destruct (Hx x eq_refl) as [H1 H2]. destruct (H1 x eq_refl) as [? ?].
  split; [done|]. split; [done|]. intros Hwf g r Hg Hid. symmetry. eapply H2; [|exact Hg|done].
  eapply (Hn names eq_refl g r).
  - unfold held in *. by rewrite <- (calmly_files _ _ Hc0).
  - destruct (Hwf g r Hg) as [_ ->]. apply digest_hex.
Qed.

(** *** Expiry *)
Lemma keyOf_state st t r : keyOf (withStateAt st t r) = keyOf r.
Proof. done. Qed.

Lemma moves_expire_files who file r s : wellFormed s -> held file r s ->
  moves who (expirePendingLocked (W := LS W) file r)
    (fun a s' => forall r', a = Ok r' -> held file r' s' /\ lr_RequestID r' = lr_RequestID r /\ (lr_State r' = Pending -> r' = r) /\
       ls_files s' = <[file := r']> (ls_files s)) s.
Proof.
  intros Hwf Hh. unfold expirePendingLocked. case_bool_decide as Hp; simpl.
  2: { apply moves_ret. intros r' [= <-]. split_and!; try done. by rewrite insert_id. }
  eapply moves_read; [apply reads_note|]. intros now s1 C1 Hnow. destruct (Before now (lr_ExpiresAt r)) eqn:Hb.
  { apply moves_ret. intros r' [= <-]. split; [by eapply held_calmly|]. split_and!; [done..|]. rewrite insert_id by done. apply C1. }
  eapply moves_read; [apply reads_note|]. intros t s2 C2 _. assert (C : calmly s s2) by (by etrans).
  pose proof (held_calmly _ _ _ _ C Hh) as Hh2. destruct (Hwf _ _ Hh) as [_ Hkey].
  eapply moves_bind; [apply moves_save; [done|]|].
  - rewrite Hh2. apply (ts_expire _ _ _ now); [done|apply (calmly_log _ _ C2), Hnow|]. unfold Before in Hb. bool_to_prop. done.
  - intros e s3 _ He. apply moves_ret. intros r' Hr'. destruct e; [done|]. injection Hr' as <-. split; [by apply He|]. split_and!; try done.
    rewrite (proj2 (He eq_refl)). by rewrite (calmly_files _ _ C).
Qed.

Lemma held_good_wf who s s' : good who s s' -> wellFormed s -> wellFormed s'.
Proof. intros []. auto. Qed.

(** Find a request and expire it if it is due. *)
Lemma moves_findExpire who id {B} (k : LockReleaseRecord -> string -> MC (LS W) B) (bad : serr -> MC (LS W) B) Q s : wellFormed s ->
  (forall e s1, good who s s1 -> moves who (bad e) Q s1) ->
  (forall r file s1, good who s s1 -> wellFormed s1 -> held file r s1 -> lr_RequestID r = id ->
     (lr_State r = Pending -> ls_files s1 = ls_files s) -> (forall g r', held g r' s -> lr_RequestID r' = id -> g = file) -> moves who (k r file) Q s1) ->
  moves who (let* x := findLocked (W := LS W) id in
             match x with Err e => bad e | Ok (record, file) =>
               let* y := expirePendingLocked (W := LS W) file record in
               match y with Err e => bad e | Ok record => k record file end end) Q s.
Proof.
  intros Hwf Hbad Hk. eapply moves_read; [apply reads_find|]. intros [[r file]|e] s1 C1 Hf; [|apply Hbad; by apply good_calmly].
  destruct (Hf _ eq_refl) as (Hh & Hid & Huniq). simpl in *. pose proof (wellFormed_calmly _ _ C1 Hwf) as Hwf1.
  eapply moves_bind; [apply (moves_expire_files who file r s1); done|]. intros [r'|e] s2 G2 Hr'.
  2: { apply Hbad. etrans; [by apply good_calmly|done]. }
  destruct (Hr' _ eq_refl) as (Hh' & Hid' & Hst & Hfiles). apply Hk; try done.
  - etrans; [by apply good_calmly|done].
  - by eapply held_good_wf.
  - congruence.
  - intros Hp. rewrite Hfiles, (Hst Hp), insert_id by done. by apply calmly_files.
  - intros g r0 Hg Hr0. apply (Huniq Hwf1 g r0); [exact (held_calmly _ _ _ _ C1 Hg)|done].
Qed.

Notation settles who m s := (moves who m (fun _ _ => True) s).

Lemma settles_ret who {A} (a : A) s : settles who (ret a) s.
Proof. by apply moves_ret. Qed.

Lemma settles_reads who {A} (m : MC (LS W) A) P s : reads m P -> settles who m s.
Proof. intros H. eapply moves_mono; [by apply moves_reads|done]. Qed.

Lemma reads_retryable t code message : reads (retryable (W := LS W) t code message) (fun _ _ => True).
Proof. unfold retryable. eapply reads_bind; [apply reads_note|]. intros. by apply reads_ret. Qed.

Lemma reads_success t r : reads (lockReleaseSuccess (W := LS W) t r) (fun _ _ => True).
Proof. unfold lockReleaseSuccess. eapply reads_bind; [apply reads_note|]. intros. by apply reads_ret. Qed.

Lemma reads_inspect repoID path : reads (ask (InspectLock (W := LS W) repoID path)) (fun a s => forall o, a = Ok (Some o) ->
  exists lock, SawLock repoID path (Ok (Some lock)) ∈ ls_log s /\ al_Token lock = ob_ObservedLockID o /\ al_Owner lock = ob_HolderClientID o).
Proof.
  apply reads_ask. intros s. unfold InspectLock, mbind_st. cbn [lk_inspect lsLocks].
  destruct (note_spec (SawLock repoID path) (lk_inspect repoID path) s) as [Hc Hin].
  destruct (note (SawLock repoID path) (lk_inspect repoID path) s) as [a s'] eqn:E. cbn in *. split; [done|].
  intros o Ho. destruct a as [[lock|]|e]; [|done|done]. exists lock. split; [done|]. destruct (_ && _) in Ho; [done|]. by injection Ho as <-.
Qed.

(** *** Making a request *)
Lemma moves_create who file i now s : file = keyName (W := LS W) (li_RepoID i) (li_ObservedLockID i) (li_RequesterClientID i) ->
  (forall id, tstep who (ls_log s) (ls_files s !! file) (Some (newRequest d i now id))) ->
  settles who (createRequest (W := LS W) d file i now) s.
Proof.
  intros Hk Hst. unfold createRequest. eapply moves_keep. intros id s1 C1. eapply moves_bind; [apply moves_save; [done|]|].
  - rewrite (calmly_files _ _ C1). eapply tstep_sub; [apply C1|apply Hst].
  - intros. apply settles_ret.
Qed.

Lemma moves_Request who i s : settles who (Request (W := LS W) d i) s.
Proof.
  unfold Request. eapply moves_read; [apply reads_ensure|]. intros [e|] s1 C1 _; [apply settles_ret|].
  destruct (validateLockReleaseRequest i); [apply settles_ret|]. eapply moves_read; [apply reads_note|]. intros now s2 C2 Hnow. cbv zeta.
  eapply moves_read; [apply reads_load|]. intros [r|e] s3 C3 Hr.
  - destruct (sameKey r i) eqn:Hk; [|apply settles_ret]. simpl. destruct (stands r now) eqn:Hs; [apply settles_ret|].
    destruct Hr as [Hh Hv]. unfold sameKey in Hk. unfold stands, Before in Hs. bool_to_prop. apply moves_create; [done|]. intros id.
    rewrite Hh. apply (ts_renew _ _ _ _ now); try done; [|by apply (calmly_log _ _ C3)].
    unfold validateRecord in Hv. autorewrite with filees in Hv. destruct Hv as (_&_&_&_&_&_&_&_&_&_&Hst&_).
    destruct (lr_State r); try done; auto.
  - destruct (serr_is ENotExist e); [|apply settles_ret]. apply moves_create; [done|]. intros id. rewrite Hr by done. by apply ts_create.
Qed.

Lemma moves_requestLockRelease who se t s : settles who (requestLockRelease (W := LS W) d se t) s.
Proof.
  unfold requestLockRelease. destruct (decodeStrict _ _); [|apply settles_ret].
  destruct (sessionCanWriteRepository _ _); [|eapply settles_reads, reads_retryable]. simpl.
  eapply moves_read; [apply reads_inspect|]. intros [[o|]|e] s1 C1 _; [|eapply settles_reads, reads_retryable..].
  destruct (negb _); [eapply settles_reads, reads_retryable|]. destruct (bool_decide _); [eapply settles_reads, reads_retryable|].
  eapply moves_bind; [apply moves_Request|]. intros [[r b]|e] s2 _ _; [|eapply settles_reads, reads_retryable].
  apply moves_keep. intros [e|] s3 _; [eapply settles_reads, reads_retryable|eapply settles_reads, reads_success].
Qed.

(** *** Answering a request *)
Definition known id r s : Prop := exists file, held file r s /\ lr_RequestID r = id /\ forall g r', held g r' s -> lr_RequestID r' = id -> g = file.

Lemma known_unique id r r' file s : known id r s -> held file r' s -> lr_RequestID r' = id -> r' = r.
Proof. intros (f & Hf & _ & Hu) Hr Hid. assert (file = f) as -> by (by eapply Hu). unfold held in *. congruence. Qed.

Lemma known_calmly id r s s' : calmly s s' -> known id r s -> known id r s'.
Proof. intros [Hf _]. unfold known, held. by rewrite Hf. Qed.

Lemma moves_Get who id s : wellFormed s ->
  moves who (Get (W := LS W) d id) (fun a s' => forall r, a = Ok r -> known id r s') s.
Proof.
  intros Hwf. unfold Get. eapply moves_read; [apply reads_ensure|]. intros [e|] s1 C1 _; [by apply moves_ret|].
  pose proof (wellFormed_calmly _ _ C1 Hwf) as Hwf1.
  eapply moves_read; [apply reads_find|]. intros [[r file]|e] s2 C2 Hf; [|by apply moves_ret].
  destruct (Hf _ eq_refl) as (Hh & Hid & Hu). pose proof (wellFormed_calmly _ _ C2 Hwf1) as Hwf2. simpl in *.
  eapply moves_mono; [by apply moves_expire_files|]. intros a s3 _ Ha r' Hr'. destruct (Ha r' Hr') as (Hh' & Hid' & _ & Hfiles).
  exists file. split; [done|]. split; [congruence|]. intros g r0 Hg Hr0. destruct (decide (g = file)) as [|Hne]; [done|].
  unfold held in *. rewrite Hfiles, lookup_insert_ne in Hg by done. by apply (Hu Hwf2 g r0).
Qed.

Lemma moves_Respond who id client next s : wellFormed s ->
  (forall file r, held file r s -> lr_RequestID r = id -> lr_State r = Pending -> lr_HolderClientID r = client -> mayAnswer who (ls_log s) r) ->
  settles who (Respond (W := LS W) d id client next) s.
Proof.
  intros Hwf Hmay. unfold Respond. cbv zeta. eapply moves_read; [apply reads_ensure|]. intros [e|] s1 C1 _; [apply settles_ret|].
  destruct (validateLockReleaseUUID client); [apply settles_ret|]. destruct (_ && _) eqn:Hnext; [apply settles_ret|].
  assert (Hdec : next = Accepted \/ next = Dismissed) by (apply andb_false_iff in Hnext as [Hn|Hn]; bool_to_prop; auto). clear Hnext.
  pose proof (wellFormed_calmly _ _ C1 Hwf) as Hwf1.
  apply moves_findExpire; [done|intros; apply settles_ret|]. intros r file s2 G2 Hwf2 Hh Hid Hfiles _.
  case_bool_decide as Hholder; [|apply settles_ret]. simpl. case_bool_decide as Hp; [|apply settles_ret]. simpl.
  eapply moves_read; [apply reads_note|]. intros now s3 C3 _. destruct (Hwf2 _ _ Hh) as [_ Hkey].
  eapply moves_bind; [apply moves_save; [done|]|intros [e|] s4 _ _; apply settles_ret].
  rewrite (held_calmly _ _ _ _ C3 Hh). apply ts_answer; [done|done|].
  - apply (mayAnswer_sub _ (ls_log s)).
    + etrans; [apply C1|]. etrans; [apply (good_log _ _ _ G2)|apply C3].
    + apply (Hmay file); try done. unfold held in *. by rewrite <- (calmly_files _ _ C1), <- (Hfiles Hp).
Qed.

(** What a reconciled pending record looks like. *)
Definition reconciled id (o : option LockReleaseObservation) s (r : LockReleaseRecord) s' : Prop :=
  known id r s' /\ exists obs r0, o = Some obs /\ ob_ObservedLockID obs = lr_ObservedLockID r /\ ob_HolderClientID obs = lr_HolderClientID r /\
    (exists file, held file r0 s) /\ lr_RequestID r0 = id /\ lr_RepoID r0 = lr_RepoID r /\ lr_Path r0 = lr_Path r.

Lemma observed_spec r o now x : observed r o now = Ok x -> lr_State r = Pending ->
  (forall who l, match x with Some r' => tstep who l (Some r) (Some r') /\ keyOf r' = keyOf r /\ lr_RequestID r' = lr_RequestID r | None => True end) /\
  (forall r', (match x with Some r' => r' | None => r end) = r' -> lr_State r' = Pending ->
     exists obs, o = Some obs /\ ob_ObservedLockID obs = lr_ObservedLockID r' /\ ob_HolderClientID obs = lr_HolderClientID r' /\
       lr_RepoID r = lr_RepoID r' /\ lr_Path r = lr_Path r').
Proof.
  unfold observed. intros Hx Hp. destruct o as [obs|].
  2: { injection Hx as <-. split; [intros; split; [by apply ts_gone|done]|]. intros r' <- H. discriminate H. }
  destruct (validateObservedLockID _); [done|]. case_bool_decide as Ht; simpl in Hx.
  2: { injection Hx as <-. split; [intros; split; [by apply ts_stale|done]|]. intros r' <- H. discriminate H. }
  destruct (validateHolderObservation obs (lr_RequesterClientID r)) eqn:Hv; [done|].
  destruct (_ && _) eqn:Hsame; injection Hx as <-.
  - split; [done|]. bool_to_prop. intros r' <- _. exists obs. split_and!; congruence.
  - split.
    + intros who l. split; [|done]. apply ts_retarget; [done|]. unfold validateHolderObservation in Hv. autorewrite with filees in Hv.
      destruct Hv as (_ & _ & _ & Hv). by bool_to_prop.
    + intros r' <- _. exists obs. done.
Qed.

Lemma moves_Reconcile who id o s : wellFormed s ->
  moves who (Reconcile (W := LS W) d id o) (fun a s' => lr_State a.1 = Pending -> reconciled id o s a.1 s') s.
Proof.
  intros Hwf. unfold Reconcile. cbv zeta. eapply moves_read; [apply reads_ensure|]. intros [e|] s1 C1 _; [by apply moves_ret|].
  pose proof (wellFormed_calmly _ _ C1 Hwf) as Hwf1.
  apply moves_findExpire; [done|intros; by apply moves_ret|]. intros r file s2 G2 Hwf2 Hh Hid Hfiles Hu.
  case_bool_decide as Hp; simpl; [|by apply moves_ret]. specialize (Hfiles Hp). rewrite (calmly_files _ _ C1) in Hfiles.
  assert (Hh0 : held file r s) by (unfold held in *; congruence).
  assert (Hu0 : forall g r', held g r' s -> lr_RequestID r' = id -> g = file).
  { intros g r' Hg. apply Hu. by eapply held_calmly. }
  eapply moves_read; [apply reads_note|]. intros now s3 C3 _. destruct (observed r o now) as [x|e] eqn:Hx; [|by apply moves_ret].
  destruct (observed_spec _ _ _ _ Hx Hp) as [Hstep Hpend]. destruct x as [r'|].
  - destruct (Hwf2 _ _ Hh) as [_ Hkey]. destruct (Hstep who (ls_log s3)) as (Hts & Hk' & Hid').
    eapply moves_bind; [apply moves_save; [congruence|by rewrite (held_calmly _ _ _ _ C3 Hh)]|].
    intros [e|] s4 _ He; apply moves_ret; [done|]. simpl. intros Hp'. destruct (He eq_refl) as [Hh4 Hf4].
    destruct (Hpend r' eq_refl Hp') as (obs & ? & ? & ? & ? & ?). split; [|exists obs, r; split_and!; eauto; congruence].
    exists file. split; [done|]. split; [congruence|]. intros g r0 Hg Hr0. destruct (decide (g = file)) as [|Hne]; [done|].
    unfold held in Hg. rewrite Hf4, lookup_insert_ne in Hg by done. apply (Hu0 g r0); [|done]. unfold held.
    by rewrite <- Hfiles, <- (calmly_files _ _ C3).
  - apply moves_ret. simpl. intros _. destruct (Hpend r eq_refl Hp) as (obs & ? & ? & ? & ? & ?).
    split; [|exists obs, r; split_and!; eauto]. exists file. split; [by eapply held_calmly|]. split; [done|].
    intros g r0 Hg. apply Hu0. unfold held in *. by rewrite <- Hfiles, <- (calmly_files _ _ C3).
Qed.

Lemma moves_answerPending se t r s : wellFormed s -> known (lr_RequestID r) r s -> sessionCanWriteRepository se (lr_RepoID r) = true ->
  (exists lock, SawLock (lr_RepoID r) (lr_Path r) (Ok (Some lock)) ∈ ls_log s /\ al_Token lock = lr_ObservedLockID r /\
     al_Owner lock = lr_HolderClientID r) ->
  settles (Some se) (answerPending (W := LS W) d se t r) s.
Proof.
  intros Hwf Hk Hcan (lock & Hin & Htok & Hown). unfold answerPending. cbv zeta. eapply moves_bind.
  - apply moves_Respond; [done|]. intros file r' Hh Hid _ Hc. rewrite (known_unique _ _ _ _ _ Hk Hh Hid) in *.
    split_and!; [done..|]. exists lock. split_and!; congruence.
  - intros [r' e] s1 _ _. destruct (isErr EForbidden e); [eapply settles_reads, reads_retryable|].
    destruct (isErr ETerminal e); [eapply settles_reads, reads_success|].
    destruct e; [eapply settles_reads, reads_retryable|].
    apply moves_keep. intros [e|] s2 _; [eapply settles_reads, reads_retryable|eapply settles_reads, reads_success].
Qed.

Lemma moves_decide se t s : wellFormed s -> settles (Some se) (decideLockRelease (W := LS W) d se t) s.
Proof.
  intros Hwf. unfold decideLockRelease. destruct (decodeStrict _ _) as [id|]; [|apply settles_ret].
  eapply moves_bind; [by apply moves_Get|]. intros [r|e] s1 G1 Hr.
  2: { destruct (serr_is ENotFound e); eapply settles_reads, reads_retryable. }
  destruct (sessionCanWriteRepository se (lr_RepoID r)) eqn:Hcan; [|eapply settles_reads, reads_retryable]. simpl.
  eapply moves_read; [apply reads_inspect|]. intros [o|e] s2 C2 Hsaw; [|eapply settles_reads, reads_retryable].
  assert (Hwf2 : wellFormed s2) by (eapply wellFormed_calmly; [exact C2|]; by eapply held_good_wf).
  eapply moves_bind; [by apply moves_Reconcile|]. intros [r' e] s3 G3 Hrec. simpl in Hrec.
  destruct (if isErr ETerminal e then None else e) as [e'|]; [eapply settles_reads, reads_retryable|].
  case_bool_decide as Hp; simpl.
  2: { apply moves_keep. intros [e'|] s4 _; [eapply settles_reads, reads_retryable|eapply settles_reads, reads_success]. }
  destruct (Hrec Hp) as (Hk & obs & r0 & -> & Ht & Ho & (file & Hh0) & Hid0 & Hrepo & Hpath).
  pose proof (known_calmly _ _ _ _ C2 (Hr r eq_refl)) as Hk2. assert (Hid : lr_RequestID r = id) by (by destruct Hk2 as (? & _ & ? & _)).
  rewrite Hid in *. assert (r0 = r) as -> by (by eapply known_unique).
  destruct (Hsaw obs eq_refl) as (lock & Hin & Htok & Hown).
  apply moves_answerPending.
  - by eapply held_good_wf.
  - destruct Hk as (f & ? & Hk & ?). rewrite Hk. by exists f.
  - by rewrite <- Hrepo.
  - exists lock. rewrite <- Hrepo, <- Hpath. split; [by apply (good_log _ _ _ G3)|]. split; congruence.
Qed.

(** *** Maintenance *)
Lemma reads_deleted wc repoID : reads (repositoryDeleted (W := LS W) wc repoID) (fun _ _ => True).
Proof.
  unfold repositoryDeleted. destruct (repositoryRecordPath wc repoID); [|by apply reads_ret].
  eapply reads_bind; [apply reads_keep|]. intros. by apply reads_ret.
Qed.

Lemma reads_observe wc r : reads (observe (W := LS W) wc r) (fun _ _ => True).
Proof.
  unfold observe. eapply reads_bind; [apply reads_inspect|]. intros [o|e]; [by apply reads_ret|].
  eapply reads_bind; [apply reads_deleted|]. intros. by apply reads_ret.
Qed.

Lemma swept_spec r o now x : swept r o now = Ok x -> lr_State r = Pending ->
  x = r \/ (forall who l, tstep who l (Some r) (Some x)) /\ keyOf x = keyOf r.
Proof.
  unfold swept. intros Hx Hp. destruct o as [obs|].
  2: { injection Hx as <-. right. split; [intros; by apply ts_gone|done]. }
  case_bool_decide as Ht; simpl in Hx.
  2: { injection Hx as <-. right. split; [intros; by apply ts_stale|done]. }
  destruct (validateHolderObservation obs (lr_RequesterClientID r)) eqn:Hv; [done|].
  destruct (_ && _); injection Hx as <-; [by left|right]. split; [|done]. intros who l. apply ts_retarget; [done|].
  unfold validateHolderObservation in Hv. autorewrite with filees in Hv. destruct Hv as (_ & _ & _ & Hv). by bool_to_prop.
Qed.

Lemma moves_sweepPending who file r o s : held file r s -> file = keyOf r ->
  moves who (sweepPending (W := LS W) file r o) (fun a s' => forall r', a = Ok r' -> held file r' s') s.
Proof.
  intros Hh Hk. unfold sweepPending. case_bool_decide as Hp; simpl; [|apply moves_ret; by intros ? [= <-]].
  destruct (swept r o (lr_UpdatedAt r)); [|by apply moves_ret]. case_bool_decide; [apply moves_ret; by intros ? [= <-]|].
  eapply moves_read; [apply reads_note|]. intros now s1 C1 _. destruct (swept r o now) as [x|] eqn:Hx; [|by apply moves_ret].
  destruct (swept_spec _ _ _ _ Hx Hp) as [->|[Hts Hkx]].
  - unfold savePathLocked, orElse. destruct (validateRecord r) eqn:Hv; [by apply moves_ret|].
    eapply moves_bind; [apply (moves_change who <[file := r]> file)|].
    + intros g m Hg. by rewrite lookup_insert_ne.
    + intros _. by rewrite lookup_insert_eq.
    + rewrite lookup_insert_eq, (held_calmly _ _ _ _ C1 Hh). constructor.
    + intros e s2 _ He. apply moves_ret. intros r' Hr'. destruct e; [done|]. injection Hr' as <-. unfold held.
      by rewrite (He eq_refl), lookup_insert_eq.
  - eapply moves_bind; [apply moves_save; [congruence|rewrite (held_calmly _ _ _ _ C1 Hh); apply Hts]|].
    intros e s2 _ He. apply moves_ret. intros r' Hr'. destruct e; [done|]. injection Hr' as <-. by apply He.
Qed.

Lemma moves_collect who file r o n s : held file r s -> settles who (collect (W := LS W) d file r o n) s.
Proof.
  intros Hh. unfold collect. cbv zeta.
  assert (Hrefresh : forall s1, settles who (let* e := ask (pj_publish (W := LS W) r false true) in ret (n, e)) s1).
  { intros s1. apply moves_keep. intros. apply settles_ret. }
  destruct (_ || _) eqn:Hg; [apply Hrefresh|]. bool_to_prop.
  eapply moves_read; [apply reads_note|]. intros t s1 C1 Ht. destruct (Before t _) eqn:Hb; [apply Hrefresh|].
  eapply moves_read; [apply reads_note|]. intros t' s2 C2 Ht'. destruct (Before t' _) eqn:Hb'; [apply Hrefresh|].
  apply moves_keep. intros [e|] s3 C3; [apply settles_ret|]. unfold Before, Add in *. bool_to_prop.
  assert (C : calmly s s3) by (etrans; [exact C1|]; by etrans).
  eapply moves_bind; [apply (moves_change who (delete file) file)|].
  - intros g m Hne. by rewrite lookup_delete_ne.
  - intros _. by rewrite lookup_delete_eq.
  - rewrite lookup_delete_eq, (held_calmly _ _ _ _ C Hh). apply rtc_once. apply (ts_collect _ _ _ t t'); try done.
    + apply (calmly_log _ _ C3), (calmly_log _ _ C2), Ht.
    + apply (calmly_log _ _ C3), Ht'.
  - intros [e|] s4 _ _; [apply settles_ret|]. apply moves_keep. intros. apply settles_ret.
Qed.

Lemma moves_sweepOne who wc file n s : wellFormed s -> settles who (sweepOne (W := LS W) d wc file n) s.
Proof.
  intros Hwf. unfold sweepOne. cbv zeta. apply moves_keep. intros [[regular size]|e] s1 C1; [|apply settles_ret].
  destruct (_ || _); [apply settles_ret|]. eapply moves_read; [apply reads_load|]. intros [r|e] s2 C2 Hr; [|apply settles_ret].
  destruct Hr as [Hh _]. case_bool_decide as Hk; [|apply settles_ret]. simpl.
  eapply moves_read; [apply reads_observe|]. intros [o|e] s3 C3 _; [|apply settles_ret].
  assert (Hwf3 : wellFormed s3) by (eapply wellFormed_calmly; [|exact Hwf]; etrans; [exact C1|]; by etrans).
  eapply moves_bind; [apply (moves_expire_files who file r); [done|by eapply held_calmly]|]. intros [r'|e] s4 G4 Hr'; [|apply settles_ret].
  destruct (Hr' r' eq_refl) as (Hh' & _). pose proof (held_good_wf _ _ _ G4 Hwf3) as Hwf4. destruct (Hwf4 _ _ Hh') as [_ Hkey'].
  eapply moves_bind; [by apply moves_sweepPending|]. intros [r2|e] s5 G5 Hr2; [|apply settles_ret]. apply moves_collect. by apply Hr2.
Qed.

Lemma moves_sweepFiles who wc names n fs s : wellFormed s -> settles who (sweepFiles (W := LS W) d wc names n fs) s.
Proof.
  revert n fs s. induction names as [|file rest IH]; intros n fs s Hwf; cbn [sweepFiles]; [apply settles_ret|].
  apply moves_keep. intros [e|] s1 C1; [apply settles_ret|]. pose proof (wellFormed_calmly _ _ C1 Hwf) as Hwf1.
  eapply moves_bind; [by apply moves_sweepOne|]. intros [n' e] s2 G2 _. apply IH. by eapply held_good_wf.
Qed.

Lemma moves_Sweep who wc s : wellFormed s -> settles who (Sweep (W := LS W) d wc) s.
Proof.
  intros Hwf. unfold Sweep. eapply moves_read; [apply reads_ensure|]. intros [e|] s1 C1 _; [apply settles_ret|].
  eapply moves_read; [apply reads_paths|]. intros [names|e] s2 C2 _; [|apply settles_ret]. apply moves_sweepFiles.
  eapply wellFormed_calmly; [exact C2|]. by eapply wellFormed_calmly.
Qed.

Lemma moves_listFor who client names s : wellFormed s -> settles who (listFor (W := LS W) client names) s.
Proof.
  revert s. induction names as [|file rest IH]; intros s Hwf; cbn [listFor]; [apply settles_ret|].
  eapply moves_read; [apply reads_load|]. intros [r|e] s1 C1 Hr; [|apply settles_ret]. destruct Hr as [Hh _].
  pose proof (wellFormed_calmly _ _ C1 Hwf) as Hwf1.
  eapply moves_bind; [by apply moves_expire_files|]. intros [r'|e] s2 G2 _; [|apply settles_ret].
  eapply moves_bind; [apply IH; by eapply held_good_wf|]. intros [l|e] s3 _ _; apply settles_ret.
Qed.

Lemma moves_ListForClient who client s : wellFormed s -> settles who (ListForClient (W := LS W) d client) s.
Proof.
  intros Hwf. unfold ListForClient. eapply moves_read; [apply reads_ensure|]. intros [e|] s1 C1 _; [apply settles_ret|].
  destruct (validateLockReleaseUUID client); [apply settles_ret|].
  eapply moves_read; [apply reads_paths|]. intros [names|e] s2 C2 _; [|apply settles_ret].
  eapply moves_bind; [apply moves_listFor; eapply wellFormed_calmly; [exact C2|]; by eapply wellFormed_calmly|].
  intros [l|e] s3 _ _; apply settles_ret.
Qed.

(** ** Histories *)
Inductive operation := OpLockRelease (se : Session) (t : Ticket) | OpList (client : string) | OpSweep (ServiceWC : string).

Definition perform (op : operation) (s : LS W) : LS W :=
  match op with
  | OpLockRelease se t => (lockRelease (W := LS W) d se t s).2
  | OpList client => (ListForClient (W := LS W) d client s).2
  | OpSweep wc => (Sweep (W := LS W) d wc s).2
  end.

(** Who answers in the operation, if it is an answer. *)
Definition actor (op : operation) : option Session :=
  match op with
  | OpLockRelease se t => if bool_decide (tk_Type t = TicketRequestLockRelease) then None else Some se
  | _ => None
  end.

(** One operation, from an empty log, or a move of the world. *)
Inductive lstep : LS W -> list sighting -> LS W -> Prop :=
| lstep_op s op : lstep s (ls_log (perform op (MkLS (ls_world s) (ls_files s) []))) (perform op (MkLS (ls_world s) (ls_files s) []))
| lstep_world s w : lstep s [] (MkLS w (ls_files s) (ls_log s)).

(** [run s l s']: operations lead from [s] to [s'] and saw [l] on the way. *)
Inductive run : LS W -> list sighting -> LS W -> Prop :=
| run_refl s : run s [] s
| run_snoc s l s1 l1 s2 : run s l s1 -> lstep s1 l1 s2 -> run s (app l1 l) s2.

Definition start (w : W) : LS W := MkLS w ∅ [].
Definition reached (s : LS W) : Prop := exists w l, run (start w) l s.

Lemma moves_after who {A} (m : MC (LS W) A) s : settles who m s -> good who s (m s).2.
Proof. unfold moves, wpc. destruct (m s) as [[a|] s']; [by intros []|done]. Qed.

Lemma perform_good op s : wellFormed s -> good (actor op) s (perform op s).
Proof.
  intros Hwf. destruct op as [se t|client|wc]; cbn [perform actor]; apply moves_after.
  - unfold lockRelease. case_bool_decide; [apply moves_requestLockRelease|by apply moves_decide].
  - by apply moves_ListForClient.
  - by apply moves_Sweep.
Qed.

Lemma lstep_wf s l s' : wellFormed s -> lstep s l s' -> wellFormed s'.
Proof.
  intros Hwf Hs. revert Hwf. destruct Hs as [s1 op|s1 w]; intros Hwf; [|exact Hwf].
  exact (good_wf _ _ _ (perform_good op (MkLS (ls_world s1) (ls_files s1) []) Hwf) Hwf).
Qed.

Lemma run_wf s l s' : wellFormed s -> run s l s' -> wellFormed s'.
Proof. intros Hwf H. induction H; [done|]. eapply lstep_wf; [|done]. auto. Qed.

Lemma reached_wf s : reached s -> wellFormed s.
Proof. intros (w & l & H). eapply run_wf; [|exact H]. intros file r Hr. simpl in Hr. by rewrite lookup_empty in Hr. Qed.

(** C22. The store is well typed at all times: whatever operations ran, wherever
    they failed or died, every file holds a record that passes its validation
    (identifiers, a canonical path, a known state, ordered instants, a requester who
    is not the holder) under the name its key determines, so there is at most one
    record for a repository, an observed token and a requester. *)
Theorem release_store_well_typed s : reached s ->
  (forall file r, ls_files s !! file = Some r -> validateRecord r = None /\ lr_RequesterClientID r <> lr_HolderClientID r /\ file = keyOf r) /\
  (forall file r file' r', ls_files s !! file = Some r -> ls_files s !! file' = Some r' -> sameRequest r r' -> file = file' /\ r = r').
Proof.
  intros Hs. apply reached_wf in Hs. split.
  - intros file r Hr. destruct (Hs _ _ Hr) as [Hv Hk]. split; [done|]. split; [|done].
    unfold validateRecord in Hv. autorewrite with filees in Hv. destruct Hv as (_&_&_&_&_&_&_&Hv&_). by bool_to_prop.
  - intros file r file' r' Hr Hr' (E1 & E2 & E3). destruct (Hs _ _ Hr) as [_ Hk], (Hs _ _ Hr') as [_ Hk'].
    assert (file = file') as -> by (rewrite Hk, Hk'; unfold keyOf; congruence). split; [done|congruence].
Qed.

(** C21. Only the holder answers: if after an operation a record stands accepted or
    dismissed that did not stand so before, the operation was an answer by the
    record's current holder, whose session may write the repository, and in this
    very operation the server saw the path locked by that holder under the token the
    request is about. *)
Theorem release_answered_by_holder s op file r' : reached s ->
  let s0 := MkLS (ls_world s) (ls_files s) [] in
  ls_files (perform op s0) !! file = Some r' -> lr_State r' = Accepted \/ lr_State r' = Dismissed -> ls_files s !! file <> Some r' ->
  exists se t lock, op = OpLockRelease se t /\ tk_Type t <> TicketRequestLockRelease /\
    lr_HolderClientID r' = se_ClientID se /\ sessionCanWriteRepository se (lr_RepoID r') = true /\
    SawLock (lr_RepoID r') (lr_Path r') (Ok (Some lock)) ∈ ls_log (perform op s0) /\
    al_Token lock = lr_ObservedLockID r' /\ al_Owner lock = se_ClientID se.
Proof.
  intros Hs s0 Hr Hst Hne. apply reached_wf in Hs. pose proof (perform_good op s0 Hs) as Hg.
  pose proof (good_steps _ _ _ Hg file) as Hsteps. rewrite Hr in Hsteps.
  destruct (decided_by _ _ _ _ Hsteps Hst) as [E|Hmay]; [done|]. unfold actor in Hmay. destruct op as [se t| |]; [|done..].
  case_bool_decide; [done|]. destruct Hmay as (? & ? & lock & ? & ? & ?). exists se, t, lock. done.
Qed.

(** C23. An answer stands: a record that is no longer pending is found unchanged
    after any further operations, unless the server's clock has meanwhile shown its
    expiry; and one that was accepted, or whose lock is gone or replaced, stays for
    seven days after its last change. *)
Theorem release_decision_stands s l s' file r : reached s -> run s l s' -> ls_files s !! file = Some r -> lr_State r <> Pending ->
  ls_files s' !! file = Some r \/
  exists t, SawTime t ∈ l /\ (lr_ExpiresAt r <= t)%Z /\
    (settled r -> exists t', SawTime t' ∈ l /\ (lr_UpdatedAt r + LockReleaseRetention <= t')%Z).
Proof.
  intros Hs Hrun Hr Hst. apply reached_wf in Hs. induction Hrun as [s|s l s1 l1 s2 Hrun IH Hstep]; [by left|].
  assert (Hsub : forall x, x ∈ l -> x ∈ app l1 l) by (intros x Hx; apply elem_of_app; by right).
  destruct (IH Hs Hr) as [Hr1|(t & Ht & He & Hret)].
  2: { right. exists t. split; [by apply Hsub|]. split; [done|]. intros Hset. destruct (Hret Hset) as (t' & ? & ?). exists t'. auto. }
  pose proof (run_wf _ _ _ Hs Hrun) as Hwf1. destruct Hstep as [s1 op|s1 w]; [|by left].
  pose proof (perform_good op (MkLS (ls_world s1) (ls_files s1) []) Hwf1) as Hg.
  pose proof (good_steps _ _ _ Hg file) as Hsteps. cbn [ls_files] in Hsteps. rewrite Hr1 in Hsteps.
  destruct (settled_stays _ _ _ _ Hsteps Hst) as [->|(t & Ht & He & Hret)]; [by left|right].
  exists t. split; [apply elem_of_app; by left|]. split; [done|]. intros Hset. destruct (Hret Hset) as (t' & ? & ?).
  exists t'. split; [apply elem_of_app; by left|done].
Qed.

End Operations.

(** ** A concrete deployment *)
Module ReleaseDemo.

Definition hexHyphen (c : ascii) : bool :=
  ((0x30 <=? byte c) && (byte c <=? 0x39))%Z || ((0x61 <=? byte c) && (byte c <=? 0x66))%Z || Ascii.eqb c "-".

#[local] Instance ids : Ids := {|
  isUUID id := negb (bool_decide (id = "")) && allb hexHyphen id;
  uuidString id := id
|}.
#[local] Instance codec : Comments := {| marshalMeta _ := "m"; unmarshalMeta _ := None |}.
#[local] Instance tables : UnicodeTables := {| u_lower := id; u_upper := id; u_format _ := false |}.

(** The world is the clock. *)
#[local] Instance wire : Wire (LS Time) := {|
  x_marshalExecution := ex_Comment; x_marshalReplacement := rp_Mode; x_marshalTicket _ := None; x_marshalCancel _ := None;
  x_execution _ := None; x_replacement _ := None; x_cancel _ := None; x_executionResult _ := None;
  x_replacementResult _ := None; x_cancelResult _ := None; x_isUUID := isUUID; x_sha1UUID s := s;
  x_parseTime _ := Some 1%Z; x_formatTime _ := "t"; x_otherTicket _ := None; x_otherResult _ := None;
  x_inCatalogue _ _ := true; x_newUUID w := ("", w); x_ctxErr w := (None, w); x_wallNow w := (1%Z, w); x_exchange := None
|}.
#[local] Instance messages : ReleaseWire := {|
  z_request _ := Some (RequestPayload "e-1" "a.dwg" "tok");
  z_decision _ := Some "c-1";
  z_result r := Some (lq_State r);
  z_errorText _ := "error"
|}.
#[local] Instance mortal : Mortal Time := {| dies w := (false, w) |}.
#[local] Instance records : Records Time := {|
  rd_client _ w := (Err ENotExist, w); rd_realm _ w := (Err ENotExist, w); rd_repository _ w := (Err ENotExist, w);
  rd_grant _ w := (Err ENotExist, w); rd_normalizeBranding s := Ok s; rd_validateRelease _ _ := None; rd_verifyRelease _ _ _ w := (None, w)
|}.
#[local] Instance locks : Locks Time := {|
  lk_inspect _ _ w := (Ok (Some (AdminLock "/a.dwg" "tok" "b-1" "")), w);
  lk_unlock _ _ _ _ w := (None, w)
|}.
#[local] Instance host : Host Time := {|
  ho_now w := (w, w); ho_ctxErr w := (None, w);
  ho_lstat _ w := (Err ENotExist, w); ho_stat _ w := (Err ENotExist, w); ho_readlink _ w := (Err ENotExist, w);
  ho_symlink _ _ w := (None, w); ho_mkdirAll _ w := (None, w); ho_syncDirectory _ w := (None, w);
  ho_readFile _ w := (Err ENotExist, w); ho_readDir _ w := (Ok [], w);
  ho_lockFile _ _ w := (None, w); ho_unlockFile _ w := (tt, w); ho_noSuchProcess _ w := (false, w); ho_output _ _ w := (Err ENotExist, w)
|}.
#[local] Instance projector : Projector Time := {| pj_publish _ _ _ w := (None, w) |}.

Fixpoint times (n : nat) (c : ascii) : string := match n with O => "" | S n => String c (times n c) end.

#[local] Instance disk : ReleaseDisk Time := {|
  rk_read w := (None, w); rk_write w := (None, w); rk_lstat _ w := (Ok (true, 500%Z), w); rk_entries w := ([], w);
  rk_newUUID w := ("c-1", w);
  rk_digest x := times 64 (if HasPrefix x "e-1" then "a"%char else "0"%char)
|}.

Lemma digest_names x : recordName (rk_digest x ++ ".json") = true.
Proof. cbn [rk_digest disk]. by destruct (HasPrefix x "e-1"). Qed.

Definition store : Store := MkStore "/releases" 0%Z.
Definition asks : Session := Sess "a-1" "f-1" [Repo "e-1" "" "" "rw" "active" "" "" "" "" "" ""].
Definition holds : Session := Sess "b-1" "f-2" [Repo "e-1" "" "" "rw" "active" "" "" "" "" "" ""].
Definition ticket (typ : string) : Ticket := Passport.Tick "filees.control/v1" "0-1" "0-2" typ "a-1" "t" "{}".

Definition file : string := times 64 "a"%char ++ ".json".
Definition pending : LS Time := perform store (OpLockRelease asks (ticket TicketRequestLockRelease)) (start 5%Z).
Definition accept : operation := OpLockRelease holds (ticket TicketAcceptLockRelease).
Definition accepted : LS Time := perform store accept (MkLS (ls_world pending) (ls_files pending) []).
Definition swept : LS Time := perform store (OpSweep "/wc") (MkLS (ls_world accepted) (ls_files accepted) []).

Definition record (s : LockReleaseState) : LockReleaseRecord :=
  Rec lockReleaseRequestSchema "c-1" "e-1" "a.dwg" "tok" "a-1" "f-1" "b-1" "" s 5%Z 5%Z (5 + DefaultLockReleaseRequestTTL)%Z.

Lemma run_pending : run store (start 5%Z) (app (ls_log pending) []) pending.
Proof. eapply run_snoc; [constructor|]. apply (lstep_op store (start 5%Z)). Qed.

Lemma reached_pending : reached store pending.
Proof. exists 5%Z, (app (ls_log pending) []). exact run_pending. Qed.

Lemma reached_accepted : reached store accepted.
Proof.
  exists 5%Z, (app (ls_log accepted) (app (ls_log pending) [])). eapply run_snoc; [exact run_pending|]. apply (lstep_op store pending accept).
Qed.

Lemma release_store_well_typed_witness : ls_files accepted !! file = Some (record Accepted) /\ file = keyOf (W := Time) (record Accepted).
Proof.
  split; [vm_compute; reflexivity|].
  refine (proj2 (proj2 (proj1 (release_store_well_typed store digest_names accepted reached_accepted) file (record Accepted) _))).
  vm_compute. reflexivity.
Defined.

Lemma release_answered_by_holder_witness : exists se t lock, accept = OpLockRelease se t /\ tk_Type t <> TicketRequestLockRelease /\
  lr_HolderClientID (record Accepted) = se_ClientID se /\ al_Owner lock = se_ClientID se.
Proof.
  destruct (release_answered_by_holder store digest_names pending accept file (record Accepted) reached_pending)
    as (se & t & lock & H1 & H2 & H3 & _ & _ & _ & H4).
  - vm_compute. reflexivity.
  - left. reflexivity.
  - vm_compute. discriminate.
  - exists se, t, lock. split; [exact H1|]. split; [exact H2|]. split; [exact H3|exact H4].
Defined.

Lemma release_decision_stands_witness : ls_files swept !! file = Some (record Accepted) \/
  exists t, SawTime t ∈ app (ls_log swept) [] /\ (lr_ExpiresAt (record Accepted) <= t)%Z.
Proof.
  destruct (release_decision_stands store digest_names accepted (app (ls_log swept) []) swept file (record Accepted) reached_accepted)
    as [H|(t & H1 & H2 & _)].
  - eapply run_snoc; [constructor|]. apply (lstep_op store accepted (OpSweep "/wc")).
  - vm_compute. reflexivity.
  - discriminate.
  - left. exact H.
  - right. exists t. split; [exact H1|exact H2].
Defined.

End ReleaseDemo.
