(* ===== verification/ClientView.v ===== *)
(** * ClientView: the projection a server writes for each of its clients

    Models src/pkg/clientview/view.go: the view of one client, its validation,
    [Load] and [StoreIfNewer], which publishes a view unless it would take the
    client back to an older one.

    Parameters: [Urls], the verdict of net/url on a repository address, and
    [ViewFiles], the view files and their JSON codec.  What clients of this
    component rely on, files that keep what was written, is stated with the disk
    of the publisher in [PublisherWorld]. *)
From S2P Require Import Prelude GoStrings Passport Naming ServerBase RealmRecords.
From Stdlib Require Import Ascii String.

Open Scope string_scope.
Open Scope go_scope.

(** ** Data *)
Definition ViewSchema : string := "filees.client-view/v2".
Definition MaxServerDisplayNameRunes : Z := 80.
Definition EditingFree : string := "".
Definition EditingLockRequired : string := "lock_required".
Definition PurposeNone : string := "".
Definition PurposeUploadShelf : string := "upload_shelf".
Definition PurposeUploadTrash : string := "upload_trash".

(** clientview.LockReleaseRequest. *)
Record ViewRequest := VReq {
  vq_RequestID : string;
  vq_RepoID : string;
  vq_Path : string;
  vq_ObservedLockID : string;
  vq_Role : string;
  vq_CounterpartyRealmAlias : string;
  vq_State : string;
  vq_CreatedAt : Time;
  vq_UpdatedAt : Time;
  vq_ExpiresAt : Time
}.

(** [Capabilities] is a nil-able struct of one flag.  A nil slice of repositories
    is [None]: reflect.DeepEqual tells it from an empty one. *)
Record View := MkView {
  vw_Schema : string;
  vw_ServerDisplayName : string;
  vw_ClientID : string;
  vw_RealmID : string;
  vw_RealmAlias : string;
  vw_Generation : Z;
  vw_GeneratedAt : Time;
  vw_MinimumClientVersion : string;
  vw_ClientRole : string;
  vw_Capabilities : option bool;
  vw_RepositorySlice : option (list Repository);
  vw_LockReleaseRequests : list ViewRequest;
  vw_ActiveOperations : list string
}.

Definition vw_Repositories (v : View) : list Repository := default [] (vw_RepositorySlice v).

#[export] Instance ViewRequest_eq_dec : EqDecision ViewRequest.
Proof. solve_decision. Defined.

#[export] Instance View_eq_dec : EqDecision View.
Proof. solve_decision. Defined.

Definition ValidEditingPolicy (policy : string) : bool :=
  bool_decide (policy = EditingFree) || bool_decide (policy = "free") || bool_decide (policy = EditingLockRequired).

Definition NormalizeEditingPolicy (policy : string) : string :=
  if bool_decide (policy = "free") then EditingFree else policy.

Definition ValidPurpose (purpose : string) : bool :=
  bool_decide (purpose = PurposeNone) || bool_decide (purpose = PurposeUploadShelf) || bool_decide (purpose = PurposeUploadTrash).

Definition RequiresLock (r : Repository) : bool := bool_decide (v_EditingPolicy r = EditingLockRequired).

Definition CanCreateRepositories (v : View) : bool :=
  if bool_decide (vw_ClientRole v = "ro") then false
  else match vw_Capabilities v with None => true | Some can => can end.

(** [view.Generation+1] in an int64. *)
Definition nextGeneration (g : Z) : Z := if (g =? maxDuration)%Z then minDuration else (g + 1)%Z.

(** The address uses the restricted svn+ssh transport: scheme, host, one of the
    two users, no port, query, fragment or password. *)
Class Urls := { projectedURL : string -> bool }.

Class ViewFiles (W : Type) := {
  (* [Ok None]: the file does not decode, has unknown fields or trailing data *)
  vf_read : string -> W -> result serr (option View) * W;
  (* directory, temporary file, sync, rename, directory sync *)
  vf_write : string -> View -> W -> option serr * W;
  vf_marshal : View -> string
}.

(** ** Validation *)
Section Validate.
  Context `{!Ids} `{!UnicodeTables} `{!Urls}.

Definition ValidateServerDisplayName (value : string) : option serr :=
  require (negb (bool_decide (value = "")) && bool_decide (TrimSpace value = value)) EView >>?
  require (ValidString value && negb (MaxServerDisplayNameRunes <? RuneCountInString value)%Z) EView >>?
  require (forallb (fun r => negb (IsControl r)) (runes value)) EView.

Definition canonicalAlias (alias : string) : bool :=
  match RealmAlias.Normalize alias with Ok a => bool_decide (a = alias) | Err _ => false end.

Definition validateViewRepository (role : string) (seen : gset string) (r : Repository) : option serr :=
  require (isUUID (v_RepoID r)) EView >>?
  require (negb (bool_decide (v_RepoID r ∈ seen))) EView >>?
  require (negb (bool_decide (TrimSpace (v_DisplayName r) = "")) && negb (ContainsAny (v_DisplayName r) (str [0; 0x0D; 0x0A]%Z))) EView >>?
  require (projectedURL (v_URL r)) EView >>?
  require (bool_decide (v_Access r = "r") || bool_decide (v_Access r = "rw")) EView >>?
  require (negb (bool_decide (role = "ro") && negb (bool_decide (v_Access r = "r")))) EView >>?
  require (bool_decide (v_State r = "initializing") || bool_decide (v_State r = "active")
           || bool_decide (v_State r = "disabled") || bool_decide (v_State r = "revoked")) EView >>?
  require (bool_decide (v_OwnerRealmID r = "") || isUUID (v_OwnerRealmID r)) EView >>?
  require (bool_decide (v_AttachmentPolicy r = "") || bool_decide (v_AttachmentPolicy r = "optional")
           || bool_decide (v_AttachmentPolicy r = "required")) EView >>?
  require (bool_decide (v_EditingPolicy r = EditingFree) || bool_decide (v_EditingPolicy r = EditingLockRequired)) EView >>?
  require (ValidPurpose (v_Purpose r)) EView >>?
  require (bool_decide (v_ParentRepoID r = "")
           || (isUUID (v_ParentRepoID r) && bool_decide (v_Purpose r = PurposeUploadShelf)
               && negb (bool_decide (v_ParentRepoID r = v_RepoID r)))) EView.

Fixpoint validateViewRepositories (role : string) (seen : gset string) (l : list Repository) : result serr (gset string) :=
  match l with
  | [] => Ok seen
  | r :: rest =>
      match validateViewRepository role seen r with
      | Some e => Err e
      | None => validateViewRepositories role ({[v_RepoID r]} ∪ seen) rest
      end
  end.

Definition validRequestState (s : string) : bool :=
  bool_decide (s = "pending") || bool_decide (s = "dismissed") || bool_decide (s = "accepted")
  || bool_decide (s = "lock_gone") || bool_decide (s = "expired") || bool_decide (s = "stale").

Definition validateViewRequest (repos ids : gset string) (q : ViewRequest) : option serr :=
  require (isUUID (vq_RequestID q)) EView >>?
  require (negb (bool_decide (vq_RequestID q ∈ ids))) EView >>?
  require (bool_decide (vq_RepoID q ∈ repos)) EView >>?
  require (bool_decide (validateLockReleasePath (vq_Path q) = None)) EView >>?
  require (bool_decide (validateObservedLockID (vq_ObservedLockID q) = None)) EView >>?
  require (bool_decide (vq_Role q = "requester") || bool_decide (vq_Role q = "holder")) EView >>?
  require (bool_decide (vq_CounterpartyRealmAlias q = "") || canonicalAlias (vq_CounterpartyRealmAlias q)) EView >>?
  require (validRequestState (vq_State q)) EView >>?
  require (negb (IsZero (vq_CreatedAt q)) && negb (Before (vq_UpdatedAt q) (vq_CreatedAt q))
           && After (vq_ExpiresAt q) (vq_CreatedAt q)) EView.

Fixpoint validateViewRequests (repos ids : gset string) (l : list ViewRequest) : option serr :=
  match l with
  | [] => None
  | q :: rest => validateViewRequest repos ids q >>? validateViewRequests repos ({[vq_RequestID q]} ∪ ids) rest
  end.

Definition validateHeader (v : View) : option serr :=
  require (bool_decide (vw_Schema v = ViewSchema)) EView >>?
  ValidateServerDisplayName (vw_ServerDisplayName v) >>?
  require (isUUID (vw_ClientID v)) EView >>?
  require (isUUID (vw_RealmID v)) EView >>?
  require (bool_decide (vw_RealmAlias v = "") || canonicalAlias (vw_RealmAlias v)) EView >>?
  require (negb (vw_Generation v <? 1)%Z && negb (IsZero (vw_GeneratedAt v))) EView >>?
  require (bool_decide (vw_ClientRole v = "normal") || bool_decide (vw_ClientRole v = "ro")) EView >>?
  require (negb (bool_decide (vw_ClientRole v = "ro") && bool_decide (vw_Capabilities v = Some true))) EView.

Definition Validate (v : View) : option serr :=
  validateHeader v >>?
  match validateViewRepositories (vw_ClientRole v) ∅ (vw_Repositories v) with
  | Err e => Some e
  | Ok repos => validateViewRequests repos ∅ (vw_LockReleaseRequests v)
  end.

End Validate.

(** ** Files *)
Section Files.
  Context {W : Type} `{!Ids} `{!UnicodeTables} `{!Urls} `{!Mortal W} `{!ViewFiles W}.

Definition LoadView (path : string) : MC W (result serr View) :=
  let* r := ask (vf_read path) in
  ok? raw := r in
  ret (match raw with
       | None => Err EView
       | Some v => match Validate v with Some e => Err e | None => Ok v end
       end).

Definition writeView (path : string) (next : View) : MC W (result serr bool) :=
  let* e := ask (vf_write path next) in
  ret (match e with Some e => Err e | None => Ok true end).

Definition StoreIfNewer (path : string) (next : View) : MC W (result serr bool) :=
  match Validate next with Some e => ret (Err e) | None =>
  let* r := LoadView path in
  match r with
  | Ok current =>
      if negb (bool_decide (vw_ClientID next = vw_ClientID current)) || negb (bool_decide (vw_RealmID next = vw_RealmID current))
      then ret (Err EIdentity)
      else if (vw_Generation next <? vw_Generation current)%Z then ret (Err ERollback)
      else if (vw_Generation next =? vw_Generation current)%Z
           then ret (if bool_decide (vf_marshal current = vf_marshal next) then Ok false else Err EViewConflict)
           else writeView path next
  | Err e => if serr_is ENotExist e then writeView path next else ret (Err e)
  end
  end.

End Files.

(** ** What a valid view satisfies *)
Section Facts.
  Context `{!Ids} `{!UnicodeTables} `{!Urls}.

Lemma validateViewRepositories_Ok role seen l seen' : validateViewRepositories role seen l = Ok seen' ->
  NoDup (List.map v_RepoID l) /\ (forall id, In id (List.map v_RepoID l) -> id ∉ seen) /\
  (forall id, id ∈ seen' <-> id ∈ seen \/ In id (List.map v_RepoID l)) /\
  Forall (fun r => (v_Access r = "r" \/ v_Access r = "rw") /\ (role = "ro" -> v_Access r = "r")) l.
Proof.
  revert seen. induction l as [|r l IH]; intros seen; cbn [validateViewRepositories List.map]; intros HV.
  { simplify_eq. split_and!; [constructor|done|naive_solver|constructor]. }
  destruct (validateViewRepository role seen r) eqn:E; [done|].
  unfold validateViewRepository in E. autorewrite with filees in E. destruct E as (_ & Hs & _ & _ & Ha & Hr & _).
  apply negb_true_iff, bool_decide_eq_false in Hs.
  destruct (IH _ HV) as (Hd & Hf & Hi & Ha'). split; [|split; [|split]].
  - constructor; [|done]. rewrite list_elem_of_In. intros Hin. specialize (Hf _ Hin). set_solver.
  - intros id [<-|Hin]; [done|]. specialize (Hf _ Hin). set_solver.
  - intros id. rewrite Hi. set_solver.
  - constructor; [|done]. split.
    + apply orb_true_iff in Ha as [Ha|Ha]; apply bool_decide_eq_true in Ha; auto.
    + intros ->. rewrite bool_decide_eq_true_2 in Hr by done. apply negb_true_iff in Hr. simpl in Hr.
      by apply negb_false_iff, bool_decide_eq_true in Hr.
Qed.

Lemma validateViewRequests_None repos ids l : validateViewRequests repos ids l = None ->
  forall q, In q l -> vq_RepoID q ∈ repos.
Proof.
  revert ids. induction l as [|q l IH]; intros ids; simpl; [done|]. rewrite andThen_None. intros [Hq Hl] q' [<-|Hin]; [|by eapply IH].
  unfold validateViewRequest in Hq. autorewrite with filees in Hq. by destruct Hq as (_ & _ & Hq%bool_decide_eq_true & _).
Qed.

(** A valid view lists a repository once, with an access its role allows, and
    every request of it concerns a repository it lists. *)
Lemma Validate_facts v : Validate v = None ->
  (1 <= vw_Generation v)%Z /\ NoDup (List.map v_RepoID (vw_Repositories v)) /\
  Forall (fun r => (v_Access r = "r" \/ v_Access r = "rw") /\ (vw_ClientRole v = "ro" -> v_Access r = "r")) (vw_Repositories v) /\
  (forall q, In q (vw_LockReleaseRequests v) -> In (vq_RepoID q) (List.map v_RepoID (vw_Repositories v))).
Proof.
  unfold Validate. rewrite andThen_None. intros [Hh Hq].
  destruct (validateViewRepositories _ _ _) as [repos|] eqn:E; [|done].
  apply validateViewRepositories_Ok in E as (Hd & _ & Hi & Ha). split_and!; [|done..|].
  - unfold validateHeader in Hh. autorewrite with filees in Hh. destruct Hh as (_ & _ & _ & _ & _ & Hg & _).
    apply andb_true_iff in Hg as [Hg _]. apply negb_true_iff, Z.ltb_ge in Hg. done.
  - intros q Hin. pose proof (validateViewRequests_None _ _ _ Hq q Hin) as Hr. rewrite Hi in Hr. set_solver.
Qed.

End Facts.
