(* ===== verification/Publisher.v ===== *)
(** * Publisher: the authority over repositories, grants and client views

    Models the [ServicePublisher] of src/pkg/repoworker: realm_grants.go (granting
    and revoking access, the editing policy, the directory), authority.go
    (creating, activating, deleting and transferring repositories) and
    shelf_parent.go, with [rebuildGrantAuthority], which derives every client's
    view and the Subversion authz file from the canonical records.

    Files are read through [Records], [ViewFiles] and the class [Service], which
    also holds the clock, the directory listings, the repository head, the lock
    guards, the session barrier and the commit of the service working copy.
    [MapRange] is the iteration order of a Go map: some permutation of it. *)
From S2P Require Import Prelude GoStrings Passport Naming ServerBase RealmRecords ClientView.
From Stdlib Require Import Ascii String.

Open Scope string_scope.
Open Scope go_scope.

(** ** Data *)
Record clientRecord := ClientRec { cr_Schema : string; cr_ClientID : string; cr_RealmID : string; cr_State : string; cr_Kind : string }.
Record canonicalGrantClient := GrantClient { gc_RealmID : string; gc_Kind : string }.

(** The fields of channel.UploadRecord and of its manifest that are read here. *)
Record UploadManifest := UpManifest { um_UploadRepoID : string; um_AuthorityRepoID : string }.
Record UploadRecord := UpRecord { ur_Schema : string; ur_OwnerRealm : string; ur_State : string; ur_Manifest : option UploadManifest }.

Definition UploadRecordSchema : string := "filees.upload-channel/v1".

Record RealmGrantRecipient := Recipient { rp_RealmID : string; rp_Alias : string; rp_Access : string; rp_State : string }.

(** The publisher's configuration; a nil function field is [false]. *)
Record ServicePublisher := Pub {
  pb_ServiceWC : string;
  pb_DataAuthzFile : string;
  pb_PublicShareStateRoot : string;
  pb_Runner : bool;
  pb_RepositoryHead : bool;
  pb_EnsureLockGuards : bool;
  pb_WithRealmSessionsStopped : bool
}.

Class MapRange := {
  mapRange : forall A : Type, gmap string A -> list (string * A);
  mapRange_perm : forall A (m : gmap string A), Permutation (mapRange A m) (map_to_list m)
}.
Arguments mapRange {_ _} m.
Arguments mapRange_perm {_ _} m.

Class Service (W : Type) := {
  sv_now : W -> Time * W;
  sv_readDir : string -> W -> result serr (list (string * bool)) * W;
  (* the calls filepath.WalkDir makes: an entry with its path, or an error *)
  sv_walkDir : string -> W -> list (result serr (string * bool)) * W;
  sv_client : string -> W -> result serr clientRecord * W;
  sv_upload : string -> W -> result serr UploadRecord * W;
  sv_writeRepository : string -> repositoryRecord -> W -> option serr * W;
  sv_writeGrant : string -> RealmGrantRecord -> W -> option serr * W;
  sv_writeRealm : string -> realmRecord -> W -> option serr * W;
  sv_readAuthz : string -> W -> result serr string * W;
  sv_writeAuthz : string -> string -> W -> option serr * W;
  sv_publish : list string -> string -> W -> option serr * W;
  sv_head : string -> W -> result serr (Z * string) * W;
  sv_ensureLockGuards : string -> W -> option serr * W;
  sv_stopSessions : string -> W -> option serr * W;
  sv_resumeSessions : string -> W -> unit * W
}.

(** [filepath.Ext] *)
Definition Ext (p : string) : string :=
  let i := LastIndexByte p "." in
  if (i <? 0)%Z || (i <? LastIndexByte p "/")%Z then "" else dropn (Z.to_nat i) p.

(** [!entry.IsDir() && filepath.Ext(entry.Name()) == ".json"] *)
Definition jsonEntry (entry : string * bool) : bool := negb (snd entry) && bool_decide (Ext (fst entry) = ".json").

Definition nl : string := str [0x0A]%Z.

(** ** Field updates of the records *)
Definition withRepoState (s : string) (r : repositoryRecord) : repositoryRecord :=
  RepoRec (rr_Schema r) (rr_RepoID r) (rr_OwnerRealmID r) (rr_DisplayName r) (rr_URL r) s (rr_CreatedAt r)
          (rr_EditingPolicy r) (rr_Purpose r) (rr_ParentRepoID r) (rr_ArchivePolicy r).
Definition withParent (id : string) (r : repositoryRecord) : repositoryRecord :=
  RepoRec (rr_Schema r) (rr_RepoID r) (rr_OwnerRealmID r) (rr_DisplayName r) (rr_URL r) (rr_State r) (rr_CreatedAt r)
          (rr_EditingPolicy r) (rr_Purpose r) id (rr_ArchivePolicy r).
Definition withPurpose (s : string) (r : repositoryRecord) : repositoryRecord :=
  RepoRec (rr_Schema r) (rr_RepoID r) (rr_OwnerRealmID r) (rr_DisplayName r) (rr_URL r) (rr_State r) (rr_CreatedAt r)
          (rr_EditingPolicy r) s (rr_ParentRepoID r) (rr_ArchivePolicy r).
Definition withEditingPolicy (s : string) (r : repositoryRecord) : repositoryRecord :=
  RepoRec (rr_Schema r) (rr_RepoID r) (rr_OwnerRealmID r) (rr_DisplayName r) (rr_URL r) (rr_State r) (rr_CreatedAt r)
          s (rr_Purpose r) (rr_ParentRepoID r) (rr_ArchivePolicy r).
Definition withOwner (id : string) (r : repositoryRecord) : repositoryRecord :=
  RepoRec (rr_Schema r) (rr_RepoID r) id (rr_DisplayName r) (rr_URL r) (rr_State r) (rr_CreatedAt r)
          (rr_EditingPolicy r) (rr_Purpose r) (rr_ParentRepoID r) (rr_ArchivePolicy r).

(** [grant.State, grant.Access, grant.PathOwnerPolicy, grant.UpdatedAt = "revoked", "", "", now] *)
Definition revoked (now : Time) (g : RealmGrantRecord) : RealmGrantRecord :=
  RealmRecords.Grant (gr_Schema g) (gr_RepoID g) (gr_OwnerRealmID g) (gr_RecipientRealmID g) "" "revoked" ""
    (gr_PathOwnerCutoffRevision g) (gr_PathOwnerRepositoryUUID g) (gr_CreatedAt g) now.

Definition withBoundary (number : Z) (incarnation : string) (g : RealmGrantRecord) : RealmGrantRecord :=
  RealmRecords.Grant (gr_Schema g) (gr_RepoID g) (gr_OwnerRealmID g) (gr_RecipientRealmID g) (gr_Access g) (gr_State g)
    (gr_PathOwnerPolicy g) (Some number) incarnation (gr_CreatedAt g) (gr_UpdatedAt g).

Definition withRepositories (repos : option (list Repository)) (alias : string) (now : Time) (v : View) : View :=
  MkView (vw_Schema v) (vw_ServerDisplayName v) (vw_ClientID v) (vw_RealmID v) alias (nextGeneration (vw_Generation v)) now
         (vw_MinimumClientVersion v) (vw_ClientRole v) (vw_Capabilities v) repos (vw_LockReleaseRequests v) (vw_ActiveOperations v).

(** The same update where the alias is kept. *)
Definition withRepos (repos : list Repository) (now : Time) (v : View) : View := withRepositories (Some repos) (vw_RealmAlias v) now v.

(** A slice declared nil and appended to. *)
Definition appended {A} (l : list A) : option (list A) := match l with [] => None | _ => Some l end.

(** ** Projection of the records into one view *)
Definition grantKey (repoID realmID : string) : string := repoID ++ ":" ++ realmID.

(** The access the canonical records give a realm; [""] is none. *)
Definition canonicalAccess (grants : gmap string RealmGrantRecord) (realmID : string) (repo : repositoryRecord) : string :=
  if bool_decide (rr_OwnerRealmID repo = realmID) then "rw"
  else match grants !! grantKey (rr_RepoID repo) realmID with Some g => gr_Access g | None => "" end.

(** Upload shelves and frozen archives are read-only for everybody. *)
Definition readOnlyRepository (repo : repositoryRecord) : bool :=
  bool_decide (rr_Purpose repo = PurposeUploadShelf) || archiveReadOnly repo.

(** One round of the loop; [currentByRepo] maps to the last entry of a repository. *)
Definition projectRepository (grants : gmap string RealmGrantRecord) (realmID role kind : string)
    (currentByRepo : gmap string Repository) (repo : repositoryRecord) : option Repository :=
  let access := canonicalAccess grants realmID repo in
  if bool_decide (access = "") then None
  else
    let '(attachmentPolicy, metadataDigest) :=
      match currentByRepo !! rr_RepoID repo with
      | Some existing => (if bool_decide (v_AttachmentPolicy existing = "") then "optional" else v_AttachmentPolicy existing,
                          v_MetadataDigest existing)
      | None => ("optional", "")
      end in
    let finish access attachmentPolicy metadataDigest :=
      let access := if bool_decide (role = "ro") then "r" else access in
      let access := if readOnlyRepository repo then "r" else access in
      Some (Repo (rr_RepoID repo) (rr_DisplayName repo) (rr_URL repo) access (rr_State repo) (rr_OwnerRealmID repo)
                 attachmentPolicy metadataDigest (rr_EditingPolicy repo) (rr_Purpose repo) (rr_ParentRepoID repo)) in
    if bool_decide (kind = "mobile") then
      if negb (bool_decide (rr_Purpose repo = "")) then None
      else match currentByRepo !! rr_RepoID repo with
           | None => None
           | Some requested =>
               finish (if bool_decide (v_Access requested = "r") then "r" else access)
                      (v_AttachmentPolicy requested) (v_MetadataDigest requested)
           end
    else finish access attachmentPolicy metadataDigest.

Definition byRepo (current : list Repository) : gmap string Repository :=
  fold_left (fun m r => <[v_RepoID r := r]> m) current ∅.

Definition repoLe (a b : Repository) : Prop := strLe (v_RepoID a) (v_RepoID b).

#[export] Instance repoLe_dec a b : Decision (repoLe a b).
Proof. unfold repoLe. apply _. Defined.

Section Pure.
  Context `{!MapRange}.

Definition projectedRepositories (repositories : gmap string repositoryRecord) (grants : gmap string RealmGrantRecord)
    (realmID role kind : string) (current : list Repository) : list Repository :=
  merge_sort repoLe (omap (fun kv => projectRepository grants realmID role kind (byRepo current) (snd kv)) (mapRange repositories)).

(** ** The authz file *)
Inductive group := GOwner | GWriter | GReader.

#[export] Instance group_eq_dec : EqDecision group.
Proof. solve_decision. Defined.

(** The group a client falls into for one repository. *)
Definition groupOf (clients : gmap string canonicalGrantClient) (repo : repositoryRecord) (repoID clientID : string)
    (accesses : gmap string string) : option group :=
  let access := default "" (accesses !! repoID) in
  if bool_decide (access = "") then None
  else if bool_decide (access = "r") || readOnlyRepository repo then Some GReader
  else if bool_decide (default "" (gc_RealmID <$> clients !! clientID) = rr_OwnerRealmID repo) then Some GOwner
  else Some GWriter.

Definition members (g : group) (clients : gmap string canonicalGrantClient) (effective : gmap string (gmap string string))
    (repo : repositoryRecord) (repoID : string) : list string :=
  merge_sort strLe (List.map fst (List.filter
    (fun kv => bool_decide (groupOf clients repo repoID (fst kv) (snd kv) = Some g)) (mapRange effective))).

Definition groupLines (clients : gmap string canonicalGrantClient) (effective : gmap string (gmap string string))
    (repo : repositoryRecord) (repoID : string) : string :=
  "owner-" ++ repoID ++ " = " ++ Join (members GOwner clients effective repo repoID) "," ++ nl ++
  "writer-" ++ repoID ++ " = " ++ Join (members GWriter clients effective repo repoID) "," ++ nl ++
  "reader-" ++ repoID ++ " = " ++ Join (members GReader clients effective repo repoID) "," ++ nl.

Definition ReservedNamespace : string := ".filees-whales".

Definition ruleLines (repoID : string) : string :=
  nl ++ "[" ++ repoID ++ ":/]" ++ nl ++ "@owner-" ++ repoID ++ " = rw" ++ nl ++ "@writer-" ++ repoID ++ " = rw" ++ nl ++
  "@reader-" ++ repoID ++ " = r" ++ nl ++ "* =" ++ nl ++
  nl ++ "[" ++ repoID ++ ":/" ++ ReservedNamespace ++ "]" ++ nl ++ "* =" ++ nl.

(** [sort.Strings] of the keys of a map. *)
Definition sortedKeys {A} (m : gmap string A) : list string := merge_sort strLe (List.map fst (mapRange m)).

Definition concatStrings (l : list string) : string := List.fold_right String.append "" l.

Definition renderCanonicalGrantAuthz (repositories : gmap string repositoryRecord) (clients : gmap string canonicalGrantClient)
    (effective : gmap string (gmap string string)) : string :=
  let repoIDs := sortedKeys repositories in
  "[groups]" ++ nl ++
  concatStrings (List.map (fun id => match repositories !! id with
                                     | Some repo => groupLines clients effective repo id | None => "" end) repoIDs) ++
  concatStrings (List.map ruleLines repoIDs).

End Pure.

(** ** Operations *)
Section Publisher.
  Context {W : Type} `{!Ids} `{!UnicodeTables} `{!Urls} `{!MapRange}.
  Context `{!Mortal W} `{!Records W} `{!ViewFiles W} `{!Service W}.
  Variable p : ServicePublisher.

Definition now : MC W Time := ask sv_now.

Definition validateGrantPublisher : option serr :=
  require (IsAbs (pb_ServiceWC p) && IsAbs (pb_DataAuthzFile p) && pb_Runner p) EPublisher.

Definition adminPath (elem : list string) : string := JoinPath (pb_ServiceWC p :: "admin" :: elem).
Definition viewPath (clientID : string) : string := JoinPath [pb_ServiceWC p; "clients"; clientID; "view.json"].

(** [os.ReadDir] of a directory that may be absent. *)
Definition readDirOrEmpty (dir : string) : MC W (result serr (list (string * bool))) :=
  let* r := ask (sv_readDir dir) in
  ret (match r with
       | Ok entries => Ok entries
       | Err e => if serr_is ENotExist e then Ok [] else Err e
       end).

(** *** loadGrantModel *)
Fixpoint loadRepositories (dir : string) (entries : list (string * bool)) (acc : gmap string repositoryRecord)
    : MC W (result serr (gmap string repositoryRecord)) :=
  match entries with
  | [] => ret (Ok acc)
  | entry :: rest =>
      if negb (jsonEntry entry) then loadRepositories dir rest acc
      else
        let* r := ask (rd_repository (JoinPath [dir; fst entry])) in
        ok? record := r in
        if negb (bool_decide (rr_Schema record = RepositorySchema)) then ret (Err ERecord)
        else
          let* e := validateRepositoryArchive record (pb_ServiceWC p) in
          match e with
          | Some e => ret (Err e)
          | None => loadRepositories dir rest
                      (if bool_decide (rr_State record = "deleted") then acc else <[rr_RepoID record := record]> acc)
          end
  end.

Fixpoint loadGrants (repositories : gmap string repositoryRecord) (visits : list (result serr (string * bool)))
    (acc : gmap string RealmGrantRecord) : MC W (result serr (gmap string RealmGrantRecord)) :=
  match visits with
  | [] => ret (Ok acc)
  | Err e :: rest => if serr_is ENotExist e then loadGrants repositories rest acc else ret (Err e)
  | Ok entry :: rest =>
      if negb (jsonEntry entry) then loadGrants repositories rest acc
      else
        let* r := ask (rd_grant (fst entry)) in
        match r with
        | Err e => if serr_is ENotExist e then ret (Ok acc) else ret (Err e)
        | Ok g =>
            match validateRealmGrantRecord g with
            | Some e => ret (Err e)
            | None =>
                let active := bool_decide (gr_State g = "active") in
                if active && negb (match repositories !! gr_RepoID g with
                                   | Some repo => bool_decide (rr_OwnerRealmID repo = gr_OwnerRealmID g)
                                   | None => false
                                   end)
                then ret (Err EOwner)
                else loadGrants repositories rest
                       (if active then <[grantKey (gr_RepoID g) (gr_RecipientRealmID g) := g]> acc else acc)
            end
        end
  end.

Fixpoint loadClients (dir : string) (entries : list (string * bool)) (acc : gmap string canonicalGrantClient)
    : MC W (result serr (gmap string canonicalGrantClient)) :=
  match entries with
  | [] => ret (Ok acc)
  | entry :: rest =>
      if negb (jsonEntry entry) then loadClients dir rest acc
      else
        let* r := ask (sv_client (JoinPath [dir; fst entry])) in
        ok? record := r in
        if negb (bool_decide (cr_Schema record = ClientSchema)) || negb (bool_decide (cr_State record = "active"))
        then loadClients dir rest acc
        else if negb (isUUID (cr_ClientID record)) then ret (Err ERecord)
        else loadClients dir rest (<[cr_ClientID record := GrantClient (cr_RealmID record) (cr_Kind record)]> acc)
  end.

Definition GrantModel : Type := gmap string repositoryRecord * gmap string RealmGrantRecord * gmap string canonicalGrantClient.

Definition loadGrantModel : MC W (result serr GrantModel) :=
  let* r := readDirOrEmpty (adminPath ["repositories"]) in
  ok? entries := r in
  let* r := loadRepositories (adminPath ["repositories"]) entries ∅ in
  ok? repositories := r in
  let* visits := ask (sv_walkDir (adminPath ["grants"])) in
  let* r := loadGrants repositories visits ∅ in
  ok? grants := r in
  let* r := ask (sv_readDir (adminPath ["clients"])) in
  ok? entries := r in
  let* r := loadClients (adminPath ["clients"]) entries ∅ in
  ok? clients := r in
  ret (Ok (repositories, grants, clients)).

(** *** shelf_parent.go *)
Definition clearShelfParent (repo : repositoryRecord) : repositoryRecord :=
  if bool_decide (rr_Purpose repo = PurposeUploadShelf) then withParent "" repo else repo.

(** One upload channel with a manifest, against the repositories it names. *)
Definition adoptShelf (record : UploadRecord) (m : UploadManifest) (repositories : gmap string repositoryRecord)
    : result serr (gmap string repositoryRecord) :=
  match repositories !! um_UploadRepoID m, repositories !! um_AuthorityRepoID m with
  | Some shelf, Some parent =>
      if negb (bool_decide (rr_Purpose shelf = PurposeUploadShelf)) || negb (bool_decide (rr_Purpose parent = ""))
         || negb (bool_decide (rr_OwnerRealmID shelf = ur_OwnerRealm record))
         || negb (bool_decide (rr_OwnerRealmID parent = ur_OwnerRealm record))
         || bool_decide (rr_RepoID shelf = rr_RepoID parent)
      then Err EMismatch
      else if negb (bool_decide (rr_ParentRepoID shelf = "")) && negb (bool_decide (rr_ParentRepoID shelf = rr_RepoID parent))
      then Err EDuplicate
      else
        let shelf := withParent (rr_RepoID parent) shelf in
        let shelf := if bool_decide (ur_State record = "active") && bool_decide (rr_State parent = "active")
                        && bool_decide (rr_State shelf = "initializing")
                     then withRepoState "active" shelf else shelf in
        Ok (<[rr_RepoID shelf := shelf]> repositories)
  | _, _ => Ok repositories
  end.

Fixpoint adoptShelves (root : string) (entries : list (string * bool)) (repositories : gmap string repositoryRecord)
    : MC W (result serr (gmap string repositoryRecord)) :=
  match entries with
  | [] => ret (Ok repositories)
  | entry :: rest =>
      if negb (jsonEntry entry) then adoptShelves root rest repositories
      else
        let* r := ask (sv_upload (JoinPath [root; fst entry])) in
        ok? record := r in
        if negb (bool_decide (ur_Schema record = UploadRecordSchema)) then ret (Err ERecord)
        else match ur_Manifest record with
             | None => adoptShelves root rest repositories
             | Some m =>
                 if bool_decide (ur_State record = "deleted") then adoptShelves root rest repositories
                 else match adoptShelf record m repositories with
                      | Err e => ret (Err e)
                      | Ok repositories => adoptShelves root rest repositories
                      end
             end
  end.

Definition projectShelfParents (repositories : gmap string repositoryRecord) : MC W (result serr (gmap string repositoryRecord)) :=
  if bool_decide (pb_PublicShareStateRoot p = "") then ret (Ok repositories)
  else if negb (IsAbs (pb_PublicShareStateRoot p)) then ret (Err ERoot)
  else
    let repositories := clearShelfParent <$> repositories in
    let root := JoinPath [pb_PublicShareStateRoot p; "upload-channels"] in
    let* r := readDirOrEmpty root in
    ok? entries := r in adoptShelves root entries repositories.

(** *** rebuildGrantAuthority *)
Fixpoint writeRepositories (previous : gmap string repositoryRecord) (l : list (string * repositoryRecord)) (changed : list string)
    : MC W (result serr (list string)) :=
  match l with
  | [] => ret (Ok changed)
  | (id, repo) :: rest =>
      if bool_decide (rr_ParentRepoID repo = default "" (rr_ParentRepoID <$> previous !! id))
         && bool_decide (rr_State repo = default "" (rr_State <$> previous !! id))
      then writeRepositories previous rest changed
      else
        ok? path := repositoryRecordPath (pb_ServiceWC p) id in
        let* e := ask (sv_writeRepository path repo) in
        match e with
        | Some e => ret (Err e)
        | None => writeRepositories previous rest (changed ++ [path])
        end
  end.

Definition accessesOf (next : list Repository) : gmap string string :=
  fold_left (fun m r => <[v_RepoID r := v_Access r]> m) next ∅.

(** One client: its accesses, and its view's path when it was rewritten. *)
Definition projectClient (repositories : gmap string repositoryRecord) (grants : gmap string RealmGrantRecord)
    (clients : gmap string canonicalGrantClient) (stamp : Time) (clientID : string)
    : MC W (result serr (gmap string string * list string)) :=
  let* r := LoadView (viewPath clientID) in
  ok? view := r in
  let client := default (GrantClient "" "") (clients !! clientID) in
  if negb (bool_decide (vw_RealmID view = gc_RealmID client)) then ret (Err EMismatch)
  else
    let* r := readRealmRecord (realmPath (pb_ServiceWC p) (vw_RealmID view)) in
    ok? realm := r in
    if negb (bool_decide (re_Schema realm = RealmSchema)) || negb (bool_decide (re_RealmID realm = vw_RealmID view))
       || negb (bool_decide (re_State realm = "active"))
    then ret (Err ERecord)
    else
      let next := projectedRepositories repositories grants (vw_RealmID view) (vw_ClientRole view) (gc_Kind client)
                    (vw_Repositories view) in
      if bool_decide (vw_RepositorySlice view = appended next) && bool_decide (vw_RealmAlias view = re_Alias realm)
      then ret (Ok (accessesOf next, []))
      else
        let* r := StoreIfNewer (viewPath clientID) (withRepositories (appended next) (re_Alias realm) stamp view) in
        ok? _ := r in ret (Ok (accessesOf next, [viewPath clientID])).

Fixpoint projectClients (repositories : gmap string repositoryRecord) (grants : gmap string RealmGrantRecord)
    (clients : gmap string canonicalGrantClient) (stamp : Time) (ids : list string)
    (effective : gmap string (gmap string string)) (changed : list string)
    : MC W (result serr (gmap string (gmap string string) * list string)) :=
  match ids with
  | [] => ret (Ok (effective, changed))
  | id :: rest =>
      let* r := projectClient repositories grants clients stamp id in
      ok? (accesses, paths) := r in
      projectClients repositories grants clients stamp rest (<[id := accesses]> effective) (changed ++ paths)
  end.

Definition updateAuthz (authz : string) (changed : list string) : MC W (result serr (list string)) :=
  let* current := ask (sv_readAuthz (pb_DataAuthzFile p)) in
  match (match current with Ok raw => Ok (Some raw) | Err e => if serr_is ENotExist e then Ok None else Err e end) with
  | Err e => ret (Err e)
  | Ok current =>
      if bool_decide (current = Some authz) then ret (Ok changed)
      else
        let* e := ask (sv_writeAuthz (pb_DataAuthzFile p) authz) in
        ret (match e with Some e => Err e | None => Ok (changed ++ [pb_DataAuthzFile p])%list end)
  end.

Definition rebuildGrantAuthority : MC W (result serr (list string)) :=
  let* r := loadGrantModel in
  ok? (previous, grants, clients) := r in
  let* r := projectShelfParents previous in
  ok? repositories := r in
  let* stamp := now in
  let* r := writeRepositories previous (mapRange repositories) [] in
  ok? changed := r in
  let* r := projectClients repositories grants clients stamp (sortedKeys clients) ∅ changed in
  ok? (effective, changed) := r in
  updateAuthz (renderCanonicalGrantAuthz repositories clients effective) changed.

(** [clean == wc || strings.HasPrefix(clean, wc+"/")] *)
Definition versioned (path : string) : bool :=
  let wc := Clean (pb_ServiceWC p) in
  bool_decide (Clean path = wc) || HasPrefix (Clean path) (wc ++ "/").

Definition RebuildGrantAuthority : MC W (option serr) :=
  orElse validateGrantPublisher (
    let* r := rebuildGrantAuthority in
    nil? changed := r in
    if bool_decide (changed = []) then ret None
    else if negb (existsb versioned changed) then ret None
    else ask (sv_publish changed "filees: rebuild realm grant authority")).

(** *** Granting and revoking *)
Definition withRealmSessionsStopped (realmID : string) (publish : MC W (option serr)) : MC W (option serr) :=
  let* e := ask (sv_stopSessions realmID) in
  orElse e (
    let* r := publish in
    let* _ := ask (sv_resumeSessions realmID) in
    ret r).

(** The closure [publish]: record, derived authority, commit. *)
Definition publishGrant (path : string) (record : RealmGrantRecord) (message : string) : MC W (option serr) :=
  let* e := ask (sv_writeGrant path record) in
  orElse e (
    let* r := rebuildGrantAuthority in
    nil? changed := r in ask (sv_publish (path :: changed) message)).

(** The head of a repository as an ownership boundary. *)
Definition headBoundary (repoID : string) : MC W (result serr (Z * string)) :=
  let* r := ask (sv_head repoID) in
  match r with
  | Err _ => ret (Err EBoundary)
  | Ok (number, incarnation) =>
      if (number <? 0)%Z then ret (Err EBoundary)
      else if negb (isUUID incarnation) then ret (Err EUuid)
      else ret (Ok (number, incarnation))
  end.

(** What is to be done about a grant: nothing, or write a record, under the
    session barrier when the flag is set. *)
Inductive grantPlan := Already (g : RealmGrantRecord) | WriteGrant (reducing : bool) (g : RealmGrantRecord).

Definition newGrant (ownerRealmID recipientRealmID repoID access : string) (stamp : Time) : RealmGrantRecord :=
  RealmRecords.Grant RealmGrantSchema repoID ownerRealmID recipientRealmID access "active"
    (if bool_decide (access = "rw") then "first_committer" else "") None "" stamp stamp.

Definition planGrant (old : result serr RealmGrantRecord) (ownerRealmID recipientRealmID repoID access : string) (stamp : Time)
    : MC W (result serr grantPlan) :=
  let record := newGrant ownerRealmID recipientRealmID repoID access stamp in
  match old with
  | Ok old =>
      if bool_decide (is_Some (validateRealmGrantRecord old)) || negb (bool_decide (gr_RepoID old = repoID))
         || negb (bool_decide (gr_RecipientRealmID old = recipientRealmID)) || negb (bool_decide (gr_OwnerRealmID old = ownerRealmID))
      then ret (Err EGrantConflict)
      else
        let record := RealmRecords.Grant RealmGrantSchema repoID ownerRealmID recipientRealmID access "active" (gr_PathOwnerPolicy record)
                        (gr_PathOwnerCutoffRevision old) (gr_PathOwnerRepositoryUUID old) (gr_CreatedAt old) stamp in
        let same := bool_decide (gr_State old = "active") && bool_decide (gr_Access old = access)
                    && bool_decide (gr_PathOwnerPolicy old = gr_PathOwnerPolicy record) in
        if same && negb (bool_decide (access = "r")) then ret (Ok (Already old))
        else
          let record := if same then old else record in
          if bool_decide (access = "rw") && (negb (bool_decide (gr_State old = "active")) || negb (bool_decide (gr_Access old = "rw"))) then
            if negb (pb_RepositoryHead p) then ret (Err EBoundary)
            else
              let* r := headBoundary repoID in
              ok? (number, incarnation) := r in
              if match gr_PathOwnerCutoffRevision old with
                 | Some cutoff => bool_decide (gr_PathOwnerRepositoryUUID old = incarnation) && (number <? cutoff)%Z
                 | None => false
                 end
              then ret (Err EBoundary)
              else ret (Ok (WriteGrant (bool_decide (access = "r")) (withBoundary number incarnation record)))
          else ret (Ok (WriteGrant (bool_decide (access = "r")) record))
  | Err e =>
      if negb (serr_is ENotExist e) then ret (Err e)
      else if bool_decide (access = "rw") && pb_RepositoryHead p then
        let* r := headBoundary repoID in
        ok? (number, incarnation) := r in ret (Ok (WriteGrant false (withBoundary number incarnation record)))
      else ret (Ok (WriteGrant false record))
  end.

(** The checks of [Grant] before it looks at an earlier record. *)
Definition grantable (ownerRealmID recipientRealmID repoID access : string) : MC W (option serr) :=
  orElse (validateGrantPublisher >>?
          require (bool_decide (access = "r") || bool_decide (access = "rw")) EAccess >>?
          require (negb (bool_decide (ownerRealmID = recipientRealmID))) ESelf) (
    let* r := loadActiveRepository (pb_ServiceWC p) repoID in
    nil? repo := r in
    if negb (bool_decide (rr_OwnerRealmID repo = ownerRealmID)) then ret (Some EOwner)
    else if bool_decide (access = "rw") && archiveProtected repo then ret (Some EArchiveReadOnly)
    else
      let* r := readRealmRecord (realmPath (pb_ServiceWC p) recipientRealmID) in
      ret (match r with
           | Ok recipient => if bool_decide (re_RealmID recipient = recipientRealmID) && bool_decide (re_State recipient = "active")
                             then None else Some EInactive
           | Err _ => Some EInactive
           end)).

Definition Grant (ownerRealmID recipientRealmID repoID access : string) : MC W (result serr RealmGrantRecord) :=
  let* e := grantable ownerRealmID recipientRealmID repoID access in
  match e with Some e => ret (Err e) | None =>
  ok? path := realmGrantPath (pb_ServiceWC p) repoID recipientRealmID in
  let* stamp := now in
  let* old := ask (rd_grant path) in
  let* r := planGrant old ownerRealmID recipientRealmID repoID access stamp in
  ok? plan := r in
  match plan with
  | Already old => ret (Ok old)
  | WriteGrant reducing record =>
      let publish := publishGrant path record ("filees: grant " ++ access ++ " " ++ repoID ++ " to realm " ++ recipientRealmID) in
      let* e := (if reducing
                 then if negb (pb_WithRealmSessionsStopped p) then ret (Some EBarrier)
                      else withRealmSessionsStopped recipientRealmID publish
                 else publish) in
      ret (match e with Some e => Err e | None => Ok record end)
  end end.

Definition RevokeGrant (ownerRealmID recipientRealmID repoID : string) : MC W (result serr RealmGrantRecord) :=
  match validateGrantPublisher with Some e => ret (Err e) | None =>
  let* r := loadActiveRepository (pb_ServiceWC p) repoID in
  ok? repo := r in
  if negb (bool_decide (rr_OwnerRealmID repo = ownerRealmID)) then ret (Err EOwner)
  else
    ok? path := realmGrantPath (pb_ServiceWC p) repoID recipientRealmID in
    let* r := ask (rd_grant path) in
    ok? record := r in
    if bool_decide (is_Some (validateRealmGrantRecord record)) || negb (bool_decide (gr_OwnerRealmID record = ownerRealmID))
       || negb (bool_decide (gr_RecipientRealmID record = recipientRealmID))
    then ret (Err ERecord)
    else if negb (pb_WithRealmSessionsStopped p) then ret (Err EBarrier)
    else
      let* record := (if bool_decide (gr_State record = "revoked") then ret record
                      else let* stamp := now in ret (revoked stamp record)) in
      let* e := withRealmSessionsStopped recipientRealmID
                  (publishGrant path record ("filees: revoke grant " ++ repoID ++ " from realm " ++ recipientRealmID)) in
      ret (match e with Some e => Err e | None => Ok record end)
  end.

Fixpoint revokeGrantFiles (repoID root : string) (stamp : Time) (entries : list (string * bool)) (changed : list string)
    : MC W (result serr (list string)) :=
  match entries with
  | [] => ret (Ok changed)
  | entry :: rest =>
      if negb (jsonEntry entry) then revokeGrantFiles repoID root stamp rest changed
      else
        let path := JoinPath [root; fst entry] in
        let* r := ask (rd_grant path) in
        ok? g := r in
        if bool_decide (is_Some (validateRealmGrantRecord g)) || negb (bool_decide (gr_RepoID g = repoID)) then ret (Err ERecord)
        else if bool_decide (gr_State g = "revoked") then revokeGrantFiles repoID root stamp rest changed
        else
          let* e := ask (sv_writeGrant path (revoked stamp g)) in
          match e with
          | Some e => ret (Err e)
          | None => revokeGrantFiles repoID root stamp rest (changed ++ [path])
          end
  end.

Definition revokeRepositoryGrants (repoID : string) (stamp : Time) : MC W (result serr (list string)) :=
  let root := adminPath ["grants"; repoID] in
  let* r := readDirOrEmpty root in
  ok? entries := r in revokeGrantFiles repoID root stamp entries [].

(** *** The directory *)
Fixpoint loadGrantsOf (repoID owner dir : string) (entries : list (string * bool)) (acc : gmap string RealmGrantRecord)
    : MC W (result serr (gmap string RealmGrantRecord)) :=
  match entries with
  | [] => ret (Ok acc)
  | entry :: rest =>
      if negb (jsonEntry entry) then loadGrantsOf repoID owner dir rest acc
      else
        let* r := ask (rd_grant (JoinPath [dir; fst entry])) in
        ok? g := r in
        if bool_decide (is_Some (validateRealmGrantRecord g)) || negb (bool_decide (gr_RepoID g = repoID))
           || negb (bool_decide (gr_OwnerRealmID g = owner))
        then ret (Err ERecord)
        else loadGrantsOf repoID owner dir rest (<[gr_RecipientRealmID g := g]> acc)
  end.

(** The realm may be shown to [requester]: not itself, active, with an alias, and
    listed or already holding an active grant. *)
Definition listable (requester : string) (grants : gmap string RealmGrantRecord) (r : realmRecord) : bool :=
  negb (bool_decide (re_RealmID r = requester)) && bool_decide (re_State r = "active") && negb (bool_decide (re_Alias r = ""))
  && (bool_decide (re_DirectoryVisibility r = "listed")
      || bool_decide (gr_State <$> grants !! re_RealmID r = Some "active")).

Fixpoint listRealms (requester : string) (grants : gmap string RealmGrantRecord) (dir : string) (entries : list (string * bool))
    (acc : list RealmGrantRecipient) : MC W (result serr (list RealmGrantRecipient)) :=
  match entries with
  | [] => ret (Ok acc)
  | entry :: rest =>
      if negb (jsonEntry entry) then listRealms requester grants dir rest acc
      else
        let* r := readRealmRecord (JoinPath [dir; fst entry]) in
        ok? record := r in
        listRealms requester grants dir rest
          (if listable requester grants record
           then acc ++ [Recipient (re_RealmID record) (re_Alias record)
                          (default "" (gr_Access <$> grants !! re_RealmID record)) (default "" (gr_State <$> grants !! re_RealmID record))]
           else acc)
  end.

Definition recipientLe (a b : RealmGrantRecipient) : Prop :=
  if bool_decide (rp_Alias a = rp_Alias b) then strLe (rp_RealmID a) (rp_RealmID b) else strLe (rp_Alias a) (rp_Alias b).

#[export] Instance recipientLe_dec a b : Decision (recipientLe a b).
Proof. unfold recipientLe. destruct (bool_decide _); apply _. Defined.

Definition ListGrantRecipients (requester repoID : string) : MC W (result serr (list RealmGrantRecipient)) :=
  if negb (IsAbs (pb_ServiceWC p)) then ret (Err EPublisher)
  else if negb (isUUID requester) then ret (Err EUuid)
  else
    let* r := (if bool_decide (repoID = "") then ret (Ok ∅)
               else
                 let* r := loadActiveRepository (pb_ServiceWC p) repoID in
                 match r with
                 | Err _ => ret (Err EOwner)
                 | Ok repo =>
                     if negb (bool_decide (rr_OwnerRealmID repo = requester)) then ret (Err EOwner)
                     else
                       let* r := readDirOrEmpty (adminPath ["grants"; repoID]) in
                       ok? entries := r in loadGrantsOf repoID requester (adminPath ["grants"; repoID]) entries ∅
                 end) in
    ok? grants := r in
    let* r := ask (sv_readDir (adminPath ["realms"])) in
    ok? entries := r in
    let* r := listRealms requester grants (adminPath ["realms"]) entries [] in
    ok? result := r in ret (Ok (merge_sort recipientLe result)).

Definition withVisibility (v : string) (r : realmRecord) : realmRecord :=
  Realm (re_Schema r) (re_RealmID r) (re_State r) (re_Alias r) v (re_PublicBranding r).

Definition SetRealmDirectoryVisibility (realmID visibility : string) : MC W (result serr string) :=
  if negb (IsAbs (pb_ServiceWC p)) || negb (pb_Runner p) then ret (Err EPublisher)
  else if negb (bool_decide (visibility = "hidden")) && negb (bool_decide (visibility = "listed")) then ret (Err EPolicy)
  else if negb (isUUID realmID) then ret (Err EUuid)
  else
    let path := realmPath (pb_ServiceWC p) realmID in
    let* r := readRealmRecord path in
    match r with
    | Err _ => ret (Err ERecord)
    | Ok record =>
        if negb (bool_decide (re_RealmID record = realmID)) || negb (bool_decide (re_State record = "active")) then ret (Err ERecord)
        else if bool_decide (visibility = "listed") && bool_decide (re_Alias record = "") then ret (Err EPolicy)
        else if bool_decide (re_DirectoryVisibility record = visibility) then ret (Ok visibility)
        else
          let* e := ask (sv_writeRealm path (withVisibility visibility record)) in
          match e with
          | Some e => ret (Err e)
          | None =>
              let* e := ask (sv_publish [path] ("filees: set realm directory visibility " ++ visibility)) in
              ret (match e with Some e => Err e | None => Ok visibility end)
          end
    end.

(** *** The editing policy *)
Definition OwnsActiveRepository (realmID repoID : string) : MC W (option serr) :=
  let* r := loadActiveRepository (pb_ServiceWC p) repoID in
  ret (match r with
       | Ok record => if bool_decide (rr_OwnerRealmID record = realmID) then None else Some EOwner
       | Err _ => Some EOwner
       end).

Definition ActiveRealmAlias (realmID : string) : MC W (result serr string) :=
  if negb (IsAbs (pb_ServiceWC p)) then ret (Err EPublisher)
  else
    let* r := readRealmRecord (realmPath (pb_ServiceWC p) realmID) in
    ret (match r with
         | Ok record => if bool_decide (re_State record = "active") && negb (bool_decide (TrimSpace (re_Alias record) = ""))
                        then Ok (re_Alias record) else Err EInactive
         | Err _ => Err EInactive
         end).

Definition editingPolicyLabel (policy : string) : string := if bool_decide (policy = EditingFree) then "free" else policy.

Definition storeEditingPolicy (path repoID policy : string) (record : repositoryRecord) : MC W (result serr string) :=
  let* e := ask (sv_writeRepository path (withEditingPolicy policy record)) in
  match e with
  | Some e => ret (Err e)
  | None =>
      let* r := rebuildGrantAuthority in
      ok? changed := r in
      let* e := ask (sv_publish (path :: changed)
                       ("filees: set repository editing policy " ++ editingPolicyLabel policy ++ " for " ++ repoID)) in
      ret (match e with Some e => Err e | None => Ok policy end)
  end.

Definition SetRepositoryEditingPolicy (realmID repoID policy : string) : MC W (result serr string) :=
  if negb (IsAbs (pb_ServiceWC p)) || negb (pb_Runner p) then ret (Err EPublisher)
  else if negb (isUUID realmID) then ret (Err EUuid)
  else if negb (ValidEditingPolicy policy) then ret (Err EPolicy)
  else
    let policy := NormalizeEditingPolicy policy in
    let* e := OwnsActiveRepository realmID repoID in
    match e with
    | Some e => ret (Err e)
    | None =>
        ok? path := repositoryRecordPath (pb_ServiceWC p) repoID in
        let* r := loadActiveRepository (pb_ServiceWC p) repoID in
        ok? record := r in
        if archiveProtected record then ret (Err EArchiveReadOnly)
        else
          let* e := (if bool_decide (policy = EditingLockRequired) && pb_EnsureLockGuards p
                     then ask (sv_ensureLockGuards repoID) else ret None) in
          match e with
          | Some e => ret (Err e)
          | None => if bool_decide (rr_EditingPolicy record = policy) then ret (Ok policy)
                    else storeEditingPolicy path repoID policy record
          end
    end.

(** ** authority.go *)

(** The loop over the client directories: a view that does not load is skipped. *)
Fixpoint eachView (step : string -> View -> MC W (result serr (list string))) (root : string) (entries : list (string * bool))
    (changed : list string) : MC W (result serr (list string)) :=
  match entries with
  | [] => ret (Ok changed)
  | entry :: rest =>
      if negb (snd entry) then eachView step root rest changed
      else
        let path := JoinPath [root; fst entry; "view.json"] in
        let* r := LoadView path in
        match r with
        | Err _ => eachView step root rest changed
        | Ok view =>
            let* r := step path view in
            ok? paths := r in eachView step root rest (changed ++ paths)
        end
  end.

Definition clientsRoot : string := JoinPath [pb_ServiceWC p; "clients"].

Definition storeView (path : string) (view : View) : MC W (result serr (list string)) :=
  let* r := StoreIfNewer path view in
  ok? _ := r in ret (Ok [path]).

(** *** renderAuthz: the owner groups alone *)
Fixpoint loadRecords (dir : string) (entries : list (string * bool)) (acc : list repositoryRecord)
    : MC W (result serr (list repositoryRecord)) :=
  match entries with
  | [] => ret (Ok acc)
  | entry :: rest =>
      if negb (jsonEntry entry) then loadRecords dir rest acc
      else
        let* r := ask (rd_repository (JoinPath [dir; fst entry])) in
        ok? record := r in
        if negb (bool_decide (rr_Schema record = RepositorySchema)) then ret (Err ERecord)
        else
          let* e := validateRepositoryArchive record (pb_ServiceWC p) in
          match e with
          | Some e => ret (Err e)
          | None => loadRecords dir rest (if bool_decide (rr_State record = "deleted") then acc else acc ++ [record])%list
          end
  end.

Fixpoint loadViews (root : string) (entries : list (string * bool)) (acc : list View) : MC W (list View) :=
  match entries with
  | [] => ret acc
  | entry :: rest =>
      if negb (snd entry) then loadViews root rest acc
      else
        let* r := LoadView (JoinPath [root; fst entry; "view.json"]) in
        loadViews root rest (match r with Ok v => (acc ++ [v])%list | Err _ => acc end)
  end.

Definition recordLe (a b : repositoryRecord) : Prop := strLe (rr_RepoID a) (rr_RepoID b).

#[export] Instance repositoryRecordLe_dec a b : Decision (recordLe a b).
Proof. unfold recordLe. apply _. Defined.

(** The clients of the owner realm whose view carries the repository. *)
Definition ownerClients (views : list View) (r : repositoryRecord) : list string :=
  flat_map (fun v =>
    if negb (bool_decide (vw_RealmID v = rr_OwnerRealmID r)) then []
    else flat_map (fun vr => if bool_decide (v_RepoID vr = rr_RepoID r)
                                && (bool_decide (v_Access vr = "rw") || (readOnlyRepository r && bool_decide (v_Access vr = "r")))
                             then [vw_ClientID v] else []) (vw_Repositories v)) views.

Definition ownerRules (r : repositoryRecord) : string :=
  nl ++ "[" ++ rr_RepoID r ++ ":/]" ++ nl ++ "@owner-" ++ rr_RepoID r ++ " = " ++ (if readOnlyRepository r then "r" else "rw") ++ nl ++
  "* =" ++ nl ++ nl ++ "[" ++ rr_RepoID r ++ ":/" ++ ReservedNamespace ++ "]" ++ nl ++ "* =" ++ nl.

(** [groups] of the source accumulates over records of one identifier. *)
Fixpoint ownerLines (views : list View) (seen : list repositoryRecord) (records : list repositoryRecord) : string :=
  match records with
  | [] => ""
  | r :: rest =>
      let same := List.filter (fun q => bool_decide (rr_RepoID q = rr_RepoID r)) (seen ++ [r])%list in
      "owner-" ++ rr_RepoID r ++ " = " ++ Join (merge_sort strLe (flat_map (ownerClients views) same)) "," ++ nl ++
      ownerLines views (seen ++ [r]) rest
  end.

Definition renderOwners (records : list repositoryRecord) (views : list View) : string :=
  let records := merge_sort recordLe records in
  "[groups]" ++ nl ++ ownerLines views [] records ++ concatStrings (List.map ownerRules records).

Definition renderAuthz : MC W (result serr string) :=
  let* r := ask (sv_readDir (adminPath ["repositories"])) in
  ok? entries := r in
  let* r := loadRecords (adminPath ["repositories"]) entries [] in
  ok? records := r in
  let* r := ask (sv_readDir clientsRoot) in
  let* views := loadViews clientsRoot (match r with Ok entries => entries | Err _ => [] end) [] in
  ret (Ok (renderOwners records views)).

(** *** Creating a repository *)

(** The entry a republication leaves for the repository, and whether it differs. *)
Definition republishEntry (record : repositoryRecord) (url realmID ownerAccess : string) (r : Repository) : result serr (Repository * bool) :=
  if negb (bool_decide (v_URL r = url)) || negb (bool_decide (v_OwnerRealmID r = realmID))
     || (negb (bool_decide (v_Access r = ownerAccess)) && negb (bool_decide (ownerAccess = "r") && bool_decide (v_Access r = "rw")))
  then Err EMismatch
  else if negb (bool_decide (rr_Purpose record = "")) && negb (bool_decide (v_Purpose r = ""))
          && negb (bool_decide (v_Purpose r = rr_Purpose record))
  then Err EPurpose
  else
    let next := Repo (v_RepoID r) (v_DisplayName r) (v_URL r) ownerAccess (v_State r) (v_OwnerRealmID r) (v_AttachmentPolicy r)
                  (v_MetadataDigest r) (v_EditingPolicy r)
                  (if bool_decide (rr_Purpose record = "") then v_Purpose r else rr_Purpose record) (rr_ParentRepoID record) in
    Ok (next, negb (bool_decide (next = r))).

(** The first entry of the repository replaced by [f]; [None] when there is none. *)
Fixpoint updateFirst {A} (repoID : string) (f : Repository -> result serr (Repository * A)) (l : list Repository)
    : result serr (option (list Repository * A)) :=
  match l with
  | [] => Ok None
  | r :: rest =>
      if bool_decide (v_RepoID r = repoID)
      then match f r with Err e => Err e | Ok (r, a) => Ok (Some (r :: rest, a)) end
      else match updateFirst repoID f rest with
           | Err e => Err e
           | Ok None => Ok None
           | Ok (Some (rest, a)) => Ok (Some (r :: rest, a))
           end
  end.

Definition publishView (record : repositoryRecord) (repoID realmID name url ownerAccess : string) (stamp : Time)
    (path : string) (view : View) : MC W (result serr (list string)) :=
  if negb (bool_decide (vw_RealmID view = realmID)) then ret (Ok [])
  else
    match updateFirst repoID (republishEntry record url realmID ownerAccess) (vw_Repositories view) with
    | Err e => ret (Err e)
    | Ok (Some (repos, true)) => storeView path (withRepos repos stamp view)
    | Ok (Some (_, false)) => ret (Ok [])
    | Ok None =>
        storeView path (withRepos (merge_sort repoLe (vw_Repositories view ++
          [Repo repoID name url ownerAccess "initializing" realmID "optional" "" (rr_EditingPolicy record) (rr_Purpose record)
                (rr_ParentRepoID record)])) stamp view)
    end.

(** The canonical record a creation starts from: written when new, or when an
    older record had no purpose. *)
Definition publishRecord (repoPath repoID realmID name url purpose : string) (stamp : Time) : MC W (result serr repositoryRecord) :=
  let write record :=
    let* e := ask (sv_writeRepository repoPath record) in
    ret (match e with Some e => Err e | None => Ok record end) in
  let* r := ask (rd_repository repoPath) in
  match r with
  | Ok old =>
      if negb (bool_decide (rr_RepoID old = repoID)) || negb (bool_decide (rr_OwnerRealmID old = realmID))
         || negb (bool_decide (rr_DisplayName old = name)) || negb (bool_decide (rr_URL old = url))
      then ret (Err ERecord)
      else
        let* e := validateRepositoryArchive old (pb_ServiceWC p) in
        match e with
        | Some e => ret (Err e)
        | None =>
            if negb (bool_decide (purpose = "")) && negb (bool_decide (rr_Purpose old = "")) && negb (bool_decide (rr_Purpose old = purpose))
            then ret (Err EPurpose)
            else
              let purpose := if bool_decide (purpose = "") then rr_Purpose old else purpose in
              if bool_decide (rr_State old = "deleted") then ret (Err EState)
              else if bool_decide (purpose = "") then ret (Ok old)
              else if bool_decide (rr_Purpose old = "") then write (withPurpose purpose old)
              else ret (Ok (withPurpose purpose old))
        end
  | Err e =>
      if negb (serr_is ENotExist e) then ret (Err e)
      else write (RepoRec RepositorySchema repoID realmID name url "initializing" stamp "" purpose "" None)
  end.

Definition Publish (repoID realmID name url purpose : string) : MC W (option serr) :=
  orElse validateGrantPublisher (
    let* stamp := now in
    nil? repoPath := repositoryRecordPath (pb_ServiceWC p) repoID in
    if negb (ValidPurpose purpose) then ret (Some EPurpose)
    else
      let* r := publishRecord repoPath repoID realmID name url purpose stamp in
      nil? record := r in
      let* r := readDirOrEmpty clientsRoot in
      nil? entries := r in
      let ownerAccess := if readOnlyRepository record then "r" else "rw" in
      let* r := eachView (publishView record repoID realmID name url ownerAccess stamp) clientsRoot entries [repoPath] in
      nil? changed := r in
      let* r := renderAuthz in
      nil? authz := r in
      let* e := ask (sv_writeAuthz (pb_DataAuthzFile p) authz) in
      orElse e (ask (sv_publish (changed ++ [pb_DataAuthzFile p]) ("filees: create repository " ++ repoID)))).

(** *** Activating *)
Definition healEntry (record : repositoryRecord) (r : Repository) : Repository :=
  Repo (v_RepoID r) (rr_DisplayName record) (rr_URL record) (if readOnlyRepository record then "r" else v_Access r)
       (if bool_decide (v_State r = "initializing") then "active" else v_State r) (rr_OwnerRealmID record) (v_AttachmentPolicy r)
       (v_MetadataDigest r) (rr_EditingPolicy record) (rr_Purpose record) (rr_ParentRepoID record).

Definition activateView (record : repositoryRecord) (repoID realmID : string) (stamp : Time) (path : string) (view : View)
    : MC W (result serr (list string)) :=
  if negb (bool_decide (vw_RealmID view = realmID)) then ret (Ok [])
  else
    let repos := List.map (fun r => if bool_decide (v_RepoID r = repoID) then healEntry record r else r) (vw_Repositories view) in
    if bool_decide (repos = vw_Repositories view) then ret (Ok []) else storeView path (withRepos repos stamp view).

Definition Activate (repoID realmID : string) : MC W (option serr) :=
  if negb (IsAbs (pb_ServiceWC p)) || negb (pb_Runner p) then ret (Some EPublisher)
  else
    nil? repoPath := repositoryRecordPath (pb_ServiceWC p) repoID in
    let* r := ask (rd_repository repoPath) in
    nil? record := r in
    if negb (bool_decide (rr_Schema record = RepositorySchema)) || negb (bool_decide (rr_RepoID record = repoID)) then ret (Some ERecord)
    else if negb (bool_decide (rr_OwnerRealmID record = realmID)) then ret (Some EOwner)
    else
      let* e := validateRepositoryArchive record (pb_ServiceWC p) in
      orElse e (
        if negb (bool_decide (rr_State record = "initializing")) && negb (bool_decide (rr_State record = "active")) then ret (Some EState)
        else
          let* stamp := now in
          let* r := (if bool_decide (rr_State record = "active") then ret (Ok (record, []))
                     else
                       let* e := ask (sv_writeRepository repoPath (withRepoState "active" record)) in
                       ret (match e with Some e => Err e | None => Ok (withRepoState "active" record, [repoPath]) end)) in
          nil? (record, changed) := r in
          let* r := readDirOrEmpty clientsRoot in
          nil? entries := r in
          let* r := eachView (activateView record repoID realmID stamp) clientsRoot entries changed in
          nil? changed := r in
          if bool_decide (changed = []) then ret None
          else ask (sv_publish changed ("filees: activate repository " ++ repoID))).

(** *** Deleting *)
Definition authorizeDelete (repoID realmID : string) : MC W (result serr (string * repositoryRecord)) :=
  if negb (isUUID realmID) then ret (Err EUuid)
  else
    ok? repoPath := repositoryRecordPath (pb_ServiceWC p) repoID in
    let* r := ask (rd_repository repoPath) in
    ok? record := r in
    if negb (bool_decide (rr_Schema record = RepositorySchema)) || negb (bool_decide (rr_RepoID record = repoID)) then ret (Err ERecord)
    else if negb (bool_decide (rr_OwnerRealmID record = realmID)) then ret (Err EOwner)
    else
      let* e := validateRepositoryArchive record (pb_ServiceWC p) in
      match e with
      | Some e => ret (Err e)
      | None => ret (if archiveProtected record
                        && negb (bool_decide (ap_State <$> rr_ArchivePolicy record = Some "archived"))
                     then Err EArchiveReadOnly else Ok (repoPath, record))
      end.

Definition dropRepository (repoID : string) (l : list Repository) : list Repository :=
  List.filter (fun r => negb (bool_decide (v_RepoID r = repoID))) l.

Definition deleteView (repoID : string) (stamp : Time) (path : string) (view : View) : MC W (result serr (list string)) :=
  if negb (existsb (fun r => bool_decide (v_RepoID r = repoID)) (vw_Repositories view)) then ret (Ok [])
  else storeView path (withRepos (dropRepository repoID (vw_Repositories view)) stamp view).

(** The tail shared by deletion and transfer: views, derived authority, commit. *)
Definition republish (step : string -> View -> MC W (result serr (list string))) (repoID : string) (stamp : Time)
    (changed : list string) (message : string) : MC W (option serr) :=
  let* r := revokeRepositoryGrants repoID stamp in
  nil? grantChanges := r in
  let* r := readDirOrEmpty clientsRoot in
  nil? entries := r in
  let* r := eachView step clientsRoot entries (changed ++ grantChanges) in
  nil? changed := r in
  let* r := rebuildGrantAuthority in
  nil? more := r in ask (sv_publish (changed ++ more) message).

Definition Delete (repoID realmID : string) : MC W (option serr) :=
  orElse validateGrantPublisher (
    let* r := authorizeDelete repoID realmID in
    nil? (repoPath, record) := r in
    let* stamp := now in
    let* e := (if bool_decide (rr_State record = "deleted") then ret None
               else ask (sv_writeRepository repoPath (withRepoState "deleted" record))) in
    orElse e (republish (deleteView repoID stamp) repoID stamp [repoPath] ("filees: delete repository " ++ repoID))).

Definition PruneAbandoned (repoID realmID : string) : MC W (option serr) :=
  let* r := authorizeDelete repoID realmID in
  nil? (_, record) := r in
  if negb (bool_decide (rr_State record = "initializing")) && negb (bool_decide (rr_State record = "deleted")) then ret (Some EState)
  else Delete repoID realmID.

Definition AuthorizeDelete (repoID realmID : string) : MC W (option serr) :=
  orElse validateGrantPublisher (
    let* r := authorizeDelete repoID realmID in
    nil? _ := r in ret None).

Fixpoint scanUploads (root repoID realmID : string) (entries : list (string * bool)) : MC W (option serr) :=
  match entries with
  | [] => ret None
  | entry :: rest =>
      if negb (jsonEntry entry) then scanUploads root repoID realmID rest
      else
        let* r := ask (sv_upload (JoinPath [root; fst entry])) in
        nil? upload := r in
        if negb (bool_decide (ur_Schema upload = UploadRecordSchema)) then ret (Some ERecord)
        else if bool_decide (ur_OwnerRealm upload = realmID) && bool_decide (um_AuthorityRepoID <$> ur_Manifest upload = Some repoID)
                && negb (bool_decide (ur_State upload = "deleted"))
        then ret (Some EHasUploads)
        else scanUploads root repoID realmID rest
  end.

Definition AuthorizeGenericDelete (repoID realmID : string) : MC W (option serr) :=
  orElse validateGrantPublisher (
    if negb (bool_decide (pb_PublicShareStateRoot p = "")) && negb (IsAbs (pb_PublicShareStateRoot p)) then ret (Some ERoot)
    else
      let* r := authorizeDelete repoID realmID in
      nil? (_, record) := r in
      if negb (bool_decide (rr_Purpose record = "")) then ret (Some ESpecialPurpose)
      else if bool_decide (rr_State record = "deleted") || bool_decide (pb_PublicShareStateRoot p = "") then ret None
      else
        let root := JoinPath [pb_PublicShareStateRoot p; "upload-channels"] in
        let* r := readDirOrEmpty root in
        nil? entries := r in scanUploads root repoID realmID entries).

(** *** Withdrawing a realm's grants, transferring a repository *)
Fixpoint withdrawGrants (realmID : string) (targets : list string) (changed : list string) : MC W (result serr (list string)) :=
  match targets with
  | [] => ret (Ok changed)
  | repoID :: rest =>
      ok? path := realmGrantPath (pb_ServiceWC p) repoID realmID in
      let* r := ask (rd_grant path) in
      ok? g := r in
      if bool_decide (is_Some (validateRealmGrantRecord g)) || negb (bool_decide (gr_RecipientRealmID g = realmID)) then ret (Err ERecord)
      else if bool_decide (gr_State g = "revoked") then withdrawGrants realmID rest changed
      else
        let* stamp := now in
        let* e := ask (sv_writeGrant path (revoked stamp g)) in
        match e with
        | Some e => ret (Err e)
        | None => withdrawGrants realmID rest (changed ++ [path])
        end
  end.

Definition targetSet (repoIDs : list string) : gmap string bool := fold_left (fun m id => <[id := true]> m) repoIDs ∅.

Definition WithdrawRealmGrants (realmID : string) (repoIDs : list string) : MC W (option serr) :=
  orElse (validateGrantPublisher >>? require (isUUID realmID) EUuid >>? require (forallb isUUID repoIDs) EUuid) (
    let* r := withdrawGrants realmID (List.map fst (mapRange (targetSet repoIDs))) [] in
    nil? changed := r in
    let* r := rebuildGrantAuthority in
    nil? more := r in
    if bool_decide ((changed ++ more)%list = []) then ret None
    else ask (sv_publish (changed ++ more) ("filees: withdraw realm grants " ++ realmID))).

Definition transferEntry (newRealmID access : string) (r : Repository) : Repository :=
  Repo (v_RepoID r) (v_DisplayName r) (v_URL r) access (v_State r) newRealmID (v_AttachmentPolicy r) (v_MetadataDigest r)
       (v_EditingPolicy r) (v_Purpose r) (v_ParentRepoID r).

Definition transferView (record : repositoryRecord) (repoID oldRealmID newRealmID : string) (stamp : Time) (path : string) (view : View)
    : MC W (result serr (list string)) :=
  if bool_decide (vw_RealmID view = oldRealmID) then deleteView repoID stamp path view
  else if bool_decide (vw_RealmID view = newRealmID) then
    let access := if bool_decide (rr_Purpose record = PurposeUploadShelf) then "r" else "rw" in
    match updateFirst repoID (fun r => Ok (transferEntry newRealmID access r, tt)) (vw_Repositories view) with
    | Ok (Some (repos, _)) => storeView path (withRepos repos stamp view)
    | _ => storeView path (withRepos (merge_sort repoLe (vw_Repositories view ++
             [Repo repoID (rr_DisplayName record) (rr_URL record) access (rr_State record) newRealmID "optional" ""
                   (rr_EditingPolicy record) (rr_Purpose record) (rr_ParentRepoID record)])) stamp view)
    end
  else ret (Ok []).

Definition TransferOwner (repoID newRealmID : string) : MC W (option serr) :=
  orElse validateGrantPublisher (
    nil? repoPath := repositoryRecordPath (pb_ServiceWC p) repoID in
    let* r := ask (rd_repository repoPath) in
    nil? record := r in
    if negb (bool_decide (rr_Schema record = RepositorySchema)) || negb (bool_decide (rr_RepoID record = repoID)) then ret (Some ERecord)
    else
      let oldRealmID := rr_OwnerRealmID record in
      let* e := validateRepositoryArchive record (pb_ServiceWC p) in
      orElse e (
        if archiveProtected record then ret (Some EArchiveReadOnly)
        else if bool_decide (rr_State record = "deleted") then ret (Some EState)
        else if bool_decide (oldRealmID = newRealmID) then ret None
        else
          let* stamp := now in
          let record := withOwner newRealmID record in
          let* e := ask (sv_writeRepository repoPath record) in
          orElse e (republish (transferView record repoID oldRealmID newRealmID stamp) repoID stamp [repoPath]
                      ("filees: transfer repository " ++ repoID ++ " owner")))).

(** archive_policy.go: an early refusal of writes. *)
Definition CheckCanonicalRepositoryWrite (repoID : string) : MC W (option serr) :=
  if negb (IsAbs (pb_ServiceWC p)) then ret (Some EPublisher)
  else
    nil? path := repositoryRecordPath (pb_ServiceWC p) repoID in
    let* r := ask (rd_repository path) in
    nil? record := r in
    if negb (bool_decide (rr_Schema record = RepositorySchema)) || negb (bool_decide (rr_RepoID record = repoID)) then ret (Some ERecord)
    else
      let* e := validateRepositoryArchive record (pb_ServiceWC p) in
      orElse e (ret (if archiveProtected record then Some EArchiveReadOnly else None)).

End Publisher.
