(* ===== verification/PublisherWorld.v ===== *)
(** * PublisherWorld: the service working copy under the publisher

    The publisher runs under the lock of the service working copy, so between two
    of its calls nobody else changes the files.  [HonestDisk] states what that and
    the file system promise: a read answers what is there or an error, a listing
    is complete, a write that succeeds is there, a write that fails may or may not
    be.  Beside the files the disk records which realm's sessions are stopped and,
    for each write, whose sessions were stopped while it happened.

    [triple] is a Hoare triple over the disk, with a condition [D] for the state a
    death of the process leaves; one rule per call follows the class. *)
From S2P Require Import Prelude GoStrings Passport Naming ServerBase RealmRecords ClientView Publisher.
From Stdlib Require Import Ascii String.

Open Scope string_scope.
Open Scope go_scope.

Record Disk := MkDisk {
  d_repos : gmap string repositoryRecord;
  d_grants : gmap string RealmGrantRecord;
  d_realms : gmap string realmRecord;
  d_clients : gmap string clientRecord;
  d_uploads : gmap string UploadRecord;
  d_views : gmap string View;
  d_authz : gmap string string;
  d_names : gset string;               (* the paths that exist *)
  d_held : option string;              (* the realm whose sessions are stopped *)
  d_writes : list (option string * string)
}.

Definition logged (path : string) (d : Disk) : Disk :=
  MkDisk (d_repos d) (d_grants d) (d_realms d) (d_clients d) (d_uploads d) (d_views d) (d_authz d)
         ({[path]} ∪ d_names d) (d_held d) ((d_held d, path) :: d_writes d).
Definition setRepo (path : string) (r : repositoryRecord) (d : Disk) : Disk :=
  logged path (MkDisk (<[path := r]> (d_repos d)) (d_grants d) (d_realms d) (d_clients d) (d_uploads d) (d_views d) (d_authz d)
                      (d_names d) (d_held d) (d_writes d)).
Definition setGrant (path : string) (g : RealmGrantRecord) (d : Disk) : Disk :=
  logged path (MkDisk (d_repos d) (<[path := g]> (d_grants d)) (d_realms d) (d_clients d) (d_uploads d) (d_views d) (d_authz d)
                      (d_names d) (d_held d) (d_writes d)).
Definition setRealm (path : string) (r : realmRecord) (d : Disk) : Disk :=
  logged path (MkDisk (d_repos d) (d_grants d) (<[path := r]> (d_realms d)) (d_clients d) (d_uploads d) (d_views d) (d_authz d)
                      (d_names d) (d_held d) (d_writes d)).
Definition setView (path : string) (v : View) (d : Disk) : Disk :=
  logged path (MkDisk (d_repos d) (d_grants d) (d_realms d) (d_clients d) (d_uploads d) (<[path := v]> (d_views d)) (d_authz d)
                      (d_names d) (d_held d) (d_writes d)).
Definition setAuthz (path : string) (s : string) (d : Disk) : Disk :=
  logged path (MkDisk (d_repos d) (d_grants d) (d_realms d) (d_clients d) (d_uploads d) (d_views d) (<[path := s]> (d_authz d))
                      (d_names d) (d_held d) (d_writes d)).
Definition setHeld (h : option string) (d : Disk) : Disk :=
  MkDisk (d_repos d) (d_grants d) (d_realms d) (d_clients d) (d_uploads d) (d_views d) (d_authz d) (d_names d) h (d_writes d).

(** A write succeeded, or failed before or after it took effect. *)
Definition wrote (upd : Disk -> Disk) (e : option serr) (d d' : Disk) : Prop :=
  d' = upd d \/ (e <> None /\ d' = d).

(** A read answers the content of [m], and "not there" only of a path that is not. *)
Definition answers {A} (m : gmap string A) (names : gset string) (path : string) (r : result serr A) : Prop :=
  match r with
  | Ok a => m !! path = Some a
  | Err e => serr_is ENotExist e = true -> path ∉ names
  end.

(** A listing names every file of the directory. *)
Definition lists {A} (m : gmap string A) (dir : string) (r : result serr (list (string * bool))) : Prop :=
  forall name, plainSegment name -> is_Some (m !! JoinPath [dir; name]) ->
  match r with Ok l => In (name, false) l | Err e => serr_is ENotExist e = false end.

Definition grantRoot (wc : string) : string := JoinPath [wc; "admin"; "grants"].

(** A walk that meets no other error names every file two levels below its root,
    and nothing that is not there. *)
Definition walks (d : Disk) (wc : string) (visits : list (result serr (string * bool))) : Prop :=
  (forall path, In (Ok (path, false)) visits -> path ∈ d_names d) /\
  ((forall e, In (Err e) visits -> serr_is ENotExist e = true) ->
   forall a b, plainSegment a -> plainSegment b ->
     is_Some (d_grants d !! JoinPath [wc; "admin"; "grants"; a; b]) ->
     In (Ok (JoinPath [wc; "admin"; "grants"; a; b], false)) visits).

Class HonestDisk (W : Type) `{!Mortal W} `{!Records W} `{!ViewFiles W} `{!Service W} := {
  disk : W -> Disk;
  hd_dies w : disk (dies w).2 = disk w;
  hd_now w : disk (sv_now w).2 = disk w;
  hd_clock w : IsZero (sv_now w).1 = false;
  hd_head id w : disk (sv_head id w).2 = disk w;
  hd_guards id w : disk (sv_ensureLockGuards id w).2 = disk w;
  hd_publish paths m w : disk (sv_publish paths m w).2 = disk w;
  hd_verify wc id a w : disk (rd_verifyRelease wc id a w).2 = disk w;
  hd_readDir dir w : disk (sv_readDir dir w).2 = disk w /\
    lists (d_repos (disk w)) dir (sv_readDir dir w).1 /\ lists (d_clients (disk w)) dir (sv_readDir dir w).1 /\
    lists (d_grants (disk w)) dir (sv_readDir dir w).1;
  hd_walkDir wc w : disk (sv_walkDir (grantRoot wc) w).2 = disk w /\ walks (disk w) wc (sv_walkDir (grantRoot wc) w).1;
  hd_repository path w : disk (rd_repository path w).2 = disk w /\ answers (d_repos (disk w)) (d_names (disk w)) path (rd_repository path w).1;
  hd_grant path w : disk (rd_grant path w).2 = disk w /\ answers (d_grants (disk w)) (d_names (disk w)) path (rd_grant path w).1;
  hd_realm path w : disk (rd_realm path w).2 = disk w /\ answers (d_realms (disk w)) (d_names (disk w)) path (rd_realm path w).1;
  hd_client path w : disk (sv_client path w).2 = disk w /\ answers (d_clients (disk w)) (d_names (disk w)) path (sv_client path w).1;
  hd_upload path w : disk (sv_upload path w).2 = disk w /\ answers (d_uploads (disk w)) (d_names (disk w)) path (sv_upload path w).1;
  hd_view path w : disk (vf_read path w).2 = disk w /\
    match (vf_read path w).1 with Ok (Some v) => d_views (disk w) !! path = Some v | Ok None => True
    | Err e => serr_is ENotExist e = true -> d_views (disk w) !! path = None end;
  hd_readAuthz path w : disk (sv_readAuthz path w).2 = disk w /\ answers (d_authz (disk w)) (d_names (disk w)) path (sv_readAuthz path w).1;
  hd_writeRepository path r w : wrote (setRepo path r) (sv_writeRepository path r w).1 (disk w) (disk (sv_writeRepository path r w).2);
  hd_writeGrant path g w : wrote (setGrant path g) (sv_writeGrant path g w).1 (disk w) (disk (sv_writeGrant path g w).2);
  hd_writeRealm path r w : wrote (setRealm path r) (sv_writeRealm path r w).1 (disk w) (disk (sv_writeRealm path r w).2);
  hd_writeView path v w : wrote (setView path v) (vf_write path v w).1 (disk w) (disk (vf_write path v w).2);
  hd_writeAuthz path s w : wrote (setAuthz path s) (sv_writeAuthz path s w).1 (disk w) (disk (sv_writeAuthz path s w).2);
  hd_stop realm w : disk (sv_stopSessions realm w).2 =
    match (sv_stopSessions realm w).1 with None => setHeld (Some realm) (disk w) | Some _ => disk w end;
  hd_resume realm w : disk (sv_resumeSessions realm w).2 = setHeld None (disk w)
}.

Section Triple.
  Context {W : Type} `{!Mortal W} `{!Records W} `{!ViewFiles W} `{!Service W} `{!HonestDisk W}.

(** From any world over disk [d], [m] ends in [Q] or dies in [D]. *)
Definition triple {A} (D : Disk -> Prop) (d : Disk) (m : MC W A) (Q : A -> Disk -> Prop) : Prop :=
  forall w, disk w = d -> wpc (fun w' => D (disk w')) m (fun a w' => Q a (disk w')) w.

Lemma triple_ret {A} D d (a : A) Q : Q a d -> triple D d (ret a) Q.
Proof. by intros ? w <-. Qed.

Lemma triple_bind {A B} D d (m : MC W A) (k : A -> MC W B) Q R :
  triple D d m R -> (forall a d', R a d' -> triple D d' (k a) Q) -> triple D d (bind m k) Q.
Proof.
  intros Hm Hk w Hw. apply wpc_bind. eapply wpc_mono; [by apply Hm|]. intros a w' HR. by apply (Hk a _ HR).
Qed.

Lemma triple_mono {A} D d (m : MC W A) (Q R : A -> Disk -> Prop) :
  triple D d m R -> (forall a d', R a d' -> Q a d') -> triple D d m Q.
Proof. intros Hm Hi w Hw. eapply wpc_mono; [by apply Hm|]. intros; by apply Hi. Qed.

Lemma triple_ask {A} (D : Disk -> Prop) d (f : W -> A * W) (Q : A -> Disk -> Prop) :
  D d -> (forall w, disk w = d -> Q (f w).1 (disk (f w).2)) -> triple D d (ask f) Q.
Proof.
  intros HD Hf w Hw. apply wpc_asked; intros w1 E; pose proof (hd_dies w) as Hd; rewrite E in Hd; simpl in Hd.
  - by rewrite Hd, Hw.
  - apply Hf. by rewrite Hd.
Qed.

Lemma triple_write (D : Disk -> Prop) d (f : W -> option serr * W) upd (Q : option serr -> Disk -> Prop) :
  D d -> (forall w, disk w = d -> wrote upd (f w).1 d (disk (f w).2)) ->
  (forall e, Q e (upd d)) -> (forall e, Q (Some e) d) -> triple D d (ask f) Q.
Proof.
  intros HD Hf Hu Hs. apply triple_ask; [done|]. intros w Hw. destruct (Hf w Hw) as [->|[Hn ->]]; [done|].
  by destruct (f w).1.
Qed.

Lemma triple_orElse D d (e : option serr) (k : MC W (option serr)) Q :
  (forall x, e = Some x -> Q (Some x) d) -> (e = None -> triple D d k Q) -> triple D d (orElse e k) Q.
Proof. destruct e; intros H1 H2; [apply triple_ret|]; auto. Qed.

Lemma triple_elim {A} D (m : MC W A) Q w o w' : triple D (disk w) m Q -> m w = (o, w') ->
  match o with Some a => Q a (disk w') | None => D (disk w') end.
Proof. intros Ht E. specialize (Ht w eq_refl). unfold wpc in Ht. rewrite E in Ht. by destruct o. Qed.

End Triple.
