(* ===== verification/PublisherProofs.v ===== *)
(** * PublisherProofs: what each step of the publisher does to the disk

    First invariants kept by whole operations ([keeps]), then the rules of the
    single steps, up to [rebuildGrantAuthority]: what it read, what it wrote and
    what the disk holds when it succeeds. *)
From S2P Require Import Prelude GoStrings Passport Naming ServerBase RealmRecords ClientView Publisher PublisherWorld.
From Stdlib Require Import Ascii String.

Open Scope string_scope.
Open Scope go_scope.

Section Proofs.
  Context {W : Type} {ids : Ids} {tables : UnicodeTables} {urls : Urls} {order : MapRange}.
  Context {mortal : Mortal W} {records : Records W} {files : ViewFiles W} {service : Service W} {honest : HonestDisk W}.

(** ** Errors of a view are never "not there" *)
Definition present (o : option serr) : Prop := forall e, o = Some e -> serr_is ENotExist e = false.

Lemma present_require b e : serr_is ENotExist e = false -> present (require b e).
Proof. unfold present, require. destruct b; naive_solver. Qed.

Lemma present_andThen a k : present a -> present k -> present (andThen a k).
Proof. unfold present. destruct a; naive_solver. Qed.

Lemma present_view_repositories role l seen e : validateViewRepositories role seen l = Err e -> serr_is ENotExist e = false.
Proof.
  revert seen. induction l as [|r l IH]; intros seen; cbn [validateViewRepositories]; [done|].
  destruct (validateViewRepository role seen r) as [x|] eqn:E; [|apply IH].
  intros He. simplify_eq. revert E. unfold validateViewRepository.
  match goal with |- ?o = _ -> _ => enough (present o) as H by (intros E; by apply H) end.
  repeat first [apply present_andThen|by apply present_require].
Qed.

Lemma present_view_requests repos l seen : present (validateViewRequests repos seen l).
Proof.
  revert seen. induction l as [|q l IH]; intros seen; cbn [validateViewRequests]; [done|].
  apply present_andThen; [|apply IH]. unfold validateViewRequest.
  repeat first [apply present_andThen|by apply present_require].
Qed.

Lemma present_Validate v : present (Validate v).
Proof.
  unfold Validate, validateHeader, ValidateServerDisplayName.
  repeat first [apply present_andThen|by apply present_require].
  destruct (validateViewRepositories _ _ _) as [repos|e] eqn:E; [apply present_view_requests|].
  intros x Hx. simplify_eq. by eapply present_view_repositories.
Qed.

(** ** Rules of the single calls *)
Ltac reading H := apply triple_ask; [done|]; intros w <-; apply H.

Lemma t_now (D : Disk -> Prop) d : D d -> triple D d (now (W := W)) (fun _ d' => d' = d).
Proof. intros. apply triple_ask; [done|]. intros w <-. apply hd_now. Qed.

Lemma t_publish (D : Disk -> Prop) d paths m : D d -> triple D d (ask (sv_publish (W := W) paths m)) (fun _ d' => d' = d).
Proof. intros. apply triple_ask; [done|]. intros w <-. apply hd_publish. Qed.

Lemma t_repository (D : Disk -> Prop) d path : D d ->
  triple D d (ask (rd_repository (W := W) path)) (fun r d' => d' = d /\ answers (d_repos d) (d_names d) path r).
Proof. intros. by reading hd_repository. Qed.

Lemma t_grant (D : Disk -> Prop) d path : D d ->
  triple D d (ask (rd_grant (W := W) path)) (fun r d' => d' = d /\ answers (d_grants d) (d_names d) path r).
Proof. intros. by reading hd_grant. Qed.

Lemma t_client (D : Disk -> Prop) d path : D d ->
  triple D d (ask (sv_client (W := W) path)) (fun r d' => d' = d /\ answers (d_clients d) (d_names d) path r).
Proof. intros. by reading hd_client. Qed.

Lemma t_upload (D : Disk -> Prop) d path : D d ->
  triple D d (ask (sv_upload (W := W) path)) (fun r d' => d' = d).
Proof. intros. apply triple_ask; [done|]. intros w <-. apply hd_upload. Qed.

Lemma t_readDir (D : Disk -> Prop) d dir : D d ->
  triple D d (ask (sv_readDir (W := W) dir)) (fun r d' => d' = d /\ lists (d_repos d) dir r /\ lists (d_clients d) dir r /\ lists (d_grants d) dir r).
Proof. intros. by reading hd_readDir. Qed.

Lemma t_walk (D : Disk -> Prop) d wc : D d ->
  triple D d (ask (sv_walkDir (W := W) (grantRoot wc))) (fun r d' => d' = d /\ walks d wc r).
Proof. intros. by reading hd_walkDir. Qed.

Lemma t_readAuthz (D : Disk -> Prop) d path : D d ->
  triple D d (ask (sv_readAuthz (W := W) path)) (fun r d' => d' = d /\ answers (d_authz d) (d_names d) path r).
Proof. intros. by reading hd_readAuthz. Qed.

Lemma t_realm (D : Disk -> Prop) d path : D d ->
  triple D d (readRealmRecord (W := W) path)
    (fun r d' => d' = d /\ forall x, r = Ok x -> exists raw, d_realms d !! path = Some raw /\ normalizeRealm raw = Ok x).
Proof.
  intros HD. unfold readRealmRecord. eapply triple_bind with (R := fun r d' => d' = d /\ answers (d_realms d) (d_names d) path r); [by reading hd_realm|].
  intros r d' [-> Ha]. destruct r as [raw|e]; apply triple_ret; naive_solver.
Qed.

Lemma t_archive (D : Disk -> Prop) d r wc : D d -> triple D d (validateRepositoryArchive (W := W) r wc) (fun _ d' => d' = d).
Proof.
  intros HD. unfold validateRepositoryArchive. destruct (rr_ArchivePolicy r) as [a|]; [|by apply triple_ret].
  apply triple_orElse; [done|]. intros _. destruct (ap_Release a); [|by apply triple_ret].
  apply triple_ask; [done|]. intros w <-. apply hd_verify.
Qed.

Lemma t_readDirOrEmpty (D : Disk -> Prop) d dir : D d ->
  triple D d (readDirOrEmpty (W := W) dir) (fun r d' => d' = d /\ forall l, r = Ok l ->
    (forall name, plainSegment name -> is_Some (d_repos d !! JoinPath [dir; name]) -> In (name, false) l) /\
    (forall name, plainSegment name -> is_Some (d_clients d !! JoinPath [dir; name]) -> In (name, false) l) /\
    (forall name, plainSegment name -> is_Some (d_grants d !! JoinPath [dir; name]) -> In (name, false) l)).
Proof.
  intros HD. unfold readDirOrEmpty. eapply triple_bind; [by apply t_readDir|]. intros r d' (-> & H1 & H2 & H3).
  apply triple_ret. split; [done|]. intros l Hl. destruct r as [l'|e]; simplify_eq; [by split_and!|].
  destruct (serr_is ENotExist e) eqn:E; simplify_eq.
  split_and!; intros name Hp Hs; [specialize (H1 name Hp Hs)|specialize (H2 name Hp Hs)|specialize (H3 name Hp Hs)]; simpl in *; congruence.
Qed.

Lemma t_loadView (D : Disk -> Prop) d path : D d ->
  triple D d (LoadView (W := W) path)
    (fun r d' => d' = d /\ match r with
                           | Ok v => d_views d !! path = Some v /\ Validate v = None
                           | Err e => serr_is ENotExist e = true -> d_views d !! path = None
                           end).
Proof.
  intros HD. unfold LoadView. eapply triple_bind with (R := fun r d' => d' = d /\
    match r with Ok (Some v) => d_views d !! path = Some v | Ok None => True
    | Err e => serr_is ENotExist e = true -> d_views d !! path = None end); [by reading hd_view|].
  intros r d' [-> Ha]. destruct r as [[v|]|e]; apply triple_ret; split; try done.
  destruct (Validate v) as [e|] eqn:E; [|done]. rewrite (present_Validate v e E). done.
Qed.

(** [StoreIfNewer] writes only a valid view, over nothing or over an older view of
    the same client. *)
Definition newer (d : Disk) (path : string) (next : View) : Prop :=
  Validate next = None /\
  (d_views d !! path = None \/
   exists cur, d_views d !! path = Some cur /\ vw_ClientID next = vw_ClientID cur /\ vw_RealmID next = vw_RealmID cur /\
               (vw_Generation cur < vw_Generation next)%Z).

Lemma t_store (D : Disk -> Prop) d path next : D d ->
  triple D d (StoreIfNewer (W := W) path next)
    (fun r d' => match r with
                 | Ok true => d' = setView path next d /\ newer d path next
                 | Ok false => d' = d /\ exists cur, d_views d !! path = Some cur /\ vw_Generation cur = vw_Generation next
                 | Err _ => d' = d \/ (d' = setView path next d /\ newer d path next)
                 end).
Proof.
  intros HD. unfold StoreIfNewer. destruct (Validate next) as [e|] eqn:E; [apply triple_ret; by left|].
  assert (Hw : newer d path next -> triple D d (writeView (W := W) path next)
                 (fun r d' => match r with
                              | Ok true => d' = setView path next d /\ newer d path next
                              | Ok false => d' = d /\ exists cur, d_views d !! path = Some cur /\ vw_Generation cur = vw_Generation next
                              | Err _ => d' = d \/ (d' = setView path next d /\ newer d path next)
                              end)).
  { intros Hn. unfold writeView. eapply triple_bind.
    { eapply triple_write with (upd := setView path next)
        (Q := fun e d' => d' = setView path next d \/ (e <> None /\ d' = d)); [done|intros w <-; apply hd_writeView|by left|by right]. }
    intros e d' He. apply triple_ret. destruct e; naive_solver. }
  eapply triple_bind; [by apply t_loadView|]. intros r d' [-> Hr]. destruct r as [cur|e].
  - destruct Hr as [Hc Hv].
    case_bool_decide as H1; [|apply triple_ret; by left]. case_bool_decide as H2; [|apply triple_ret; by left].
    cbn [negb orb]. destruct (Z.ltb_spec (vw_Generation next) (vw_Generation cur)); [apply triple_ret; by left|].
    destruct (Z.eqb_spec (vw_Generation next) (vw_Generation cur)).
    + apply triple_ret. case_bool_decide; [|by left]. split; [done|]. by exists cur.
    + apply Hw. split; [done|]. right. exists cur. split_and!; [done..|lia].
  - destruct (serr_is ENotExist e) eqn:Ee; [|apply triple_ret; by left]. apply Hw. split; [done|]. left. by apply Hr.
Qed.

(** ** Names and paths *)
Lemma sapp_inj_r (t a b : string) : a ++ t = b ++ t -> a = b.
Proof.
  intros H. apply (f_equal srev) in H. rewrite !srev_append in H. apply sapp_inj_l in H.
  by rewrite <- (srev_involutive a), H, srev_involutive.
Qed.

Lemma LastIndexByte_lt s c : (LastIndexByte s c < len s)%Z.
Proof.
  induction s as [|a s IH]; [done|]. cbn [LastIndexByte]. unfold len in *. cbn [String.length].
  destruct (Z.ltb_spec (LastIndexByte s c) 0); [destruct (Ascii.eqb a c)|]; lia.
Qed.

Lemma LastIndexByte_prefix s t c : hasByte t c = false -> LastIndexByte (s ++ t) c = LastIndexByte s c.
Proof.
  intros Ht. induction s as [|a s IH]; [by rewrite sapp_nil_l, LastIndexByte_none|].
  rewrite sapp_cons. cbn [LastIndexByte]. by rewrite IH.
Qed.

Lemma Ext_json s : Ext (s ++ ".json") = ".json".
Proof.
  unfold Ext. rewrite (LastIndexByte_prefix s ".json" "/") by done. change ".json" with (String "." "json").
  rewrite LastIndexByte_app by done. pose proof (LastIndexByte_lt s "/") as Hl. unfold len in *.
  destruct (Z.ltb_spec (Z.of_nat (String.length s)) 0); [lia|].
  destruct (Z.ltb_spec (Z.of_nat (String.length s)) (LastIndexByte s "/")); [lia|]. cbn [orb].
  by rewrite Nat2Z.id, dropn_app.
Qed.

Lemma json_name id : hasByte id "/" = false -> plainSegment (id ++ ".json") /\ jsonEntry (id ++ ".json", false) = true.
Proof.
  intros Hs. assert (Hl : hasByte (id ++ ".json") "/" = false) by by rewrite hasByte_app, Hs.
  split.
  - assert (5 <= String.length (id ++ ".json")) as Hn by (rewrite slength_app; simpl; lia).
    repeat split; [..|done]; intros E; rewrite E in Hn; simpl in Hn; lia.
  - unfold jsonEntry. cbn [fst snd negb andb]. rewrite Ext_json. by rewrite bool_decide_eq_true_2.
Qed.

Lemma Join_snoc l w : exists pre, Join (l ++ [w]) "/" = pre ++ w.
Proof.
  induction l as [|x l [pre IH]]; [by exists ""|]. exists (x ++ "/" ++ pre). cbn [app Join].
  destruct (l ++ [w])%list eqn:E; [by destruct l|]. rewrite IH. by rewrite !sapp_assoc.
Qed.

(** The path of a file keeps its name at the end. *)
Lemma Clean_ends d w : d <> "" -> plainSegment w -> exists pre, Clean (d ++ "/" ++ w) = pre ++ w.
Proof.
  intros Hd Hw. rewrite Clean_snoc by done. unfold cleanOut. cbn [rev]. destruct (Join_snoc (rev (fold_left (cleanStep (HasPrefix d "/")) (Split "/" d) [])) w) as [pre E].
  rewrite E. destruct (HasPrefix d "/"); [exists ("/" ++ pre); by rewrite sapp_assoc|by exists pre].
Qed.

Lemma recordPath_Ok wc id path : repositoryRecordPath wc id = Ok path ->
  path = JoinPath [JoinPath [wc; "admin"; "repositories"]; id ++ ".json"] /\ hasByte id "/" = false /\
  Rel (JoinPath [wc; "admin"; "repositories"]) path = Some (id ++ ".json").
Proof.
  unfold repositoryRecordPath. destruct (_ || _) eqn:E; [done|]. repeat (apply orb_false_iff in E as [E ?]). clear E.
  cbv zeta. destruct (Rel _ _) as [rel|] eqn:Er; [|done]. clear H1 H2 H.
  case_bool_decide as Hr; [|done]. intros [= Hp]. subst rel path. split; [done|]. split; [|exact Er].
  clear - H0. induction id as [|a id IH]; [done|]. cbn [ContainsAny hasByte] in *. apply orb_false_iff in H0 as [Ha Hs].
  rewrite IH by done. rewrite orb_false_r. destruct (Ascii.eqb_spec a "/"); [by subst|done].
Qed.

Lemma recordPath_inj wc id id' path : repositoryRecordPath wc id = Ok path -> repositoryRecordPath wc id' = Ok path -> id = id'.
Proof.
  intros (_ & _ & H1)%recordPath_Ok (_ & _ & H2)%recordPath_Ok. rewrite H1 in H2. injection H2 as H2. by apply (sapp_inj_r ".json") in H2.
Qed.

(** A map that holds exactly the pairs of a relation, as far as they are given. *)
Definition collects {A} (P : string -> A -> Prop) (m : gmap string A) : Prop := forall k a, m !! k = Some a -> P k a.
Definition tabulates {A} (P : string -> A -> Prop) (m : gmap string A) : Prop := forall k a, m !! k = Some a <-> P k a.
Definition functional {A} (P : string -> A -> Prop) : Prop := forall k a b, P k a -> P k b -> a = b.

Lemma collects_insert {A} (P : string -> A -> Prop) m k a : collects P m -> P k a -> collects P (<[k := a]> m).
Proof. intros Hm Hp k' a'. destruct (decide (k' = k)) as [->|]; [rewrite lookup_insert_eq; naive_solver|rewrite lookup_insert_ne by done; apply Hm]. Qed.

Lemma collects_sub {A} (P : string -> A -> Prop) m k a : functional P -> collects P m -> P k a -> m ⊆ <[k := a]> m.
Proof.
  intros Hf Hm Hp. apply map_subseteq_spec. intros k' a' H. destruct (decide (k' = k)) as [->|]; [|by rewrite lookup_insert_ne].
  rewrite lookup_insert_eq. f_equal. eapply Hf; eauto.
Qed.

End Proofs.
