(* ===== verification/PublisherRebuild.v ===== *)
(** * PublisherRebuild: the derived authority agrees with the records

    A successful [rebuildGrantAuthority] leaves a disk on which every active
    client's view is the projection of the records and the authz file the
    rendering of those views ([rebuild_spec]). *)
From S2P Require Import Prelude GoStrings Passport Naming ServerBase RealmRecords ClientView Publisher PublisherWorld PublisherProofs.
From Stdlib Require Import Ascii String.

Open Scope string_scope.
Open Scope go_scope.

(** ** The texts google/uuid accepts

    [uuid.Parse] documents four forms: the canonical 36 bytes, the same after
    ["urn:uuid:"], the same between any two bytes (only the middle 36 are
    examined), and 32 hexadecimal digits.  The third form may hold a slash, so an
    accepted text need not be a file name. *)
Definition uuidDigit (c : ascii) : bool :=
  let n := nat_of_ascii c in ((48 <=? n)%nat && (n <=? 57)%nat) || ((97 <=? n)%nat && (n <=? 102)%nat) || ((65 <=? n)%nat && (n <=? 70)%nat).

Definition uuidByte (i : nat) (c : ascii) : bool :=
  if bool_decide (i ∈ [8; 13; 18; 23]) then Ascii.eqb c "-" else uuidDigit c.

(** [n] bytes of [s] from [off] on, the [i]-th as [f i] wants it. *)
Definition bytesAt (f : nat -> ascii -> bool) (off n : nat) (s : string) : bool :=
  forallb (fun i => match String.get (off + i) s with Some c => f i c | None => false end) (seq 0 n).

Definition uuidForm (s : string) : bool :=
  let n := String.length s in
  if (n =? 36)%nat then bytesAt uuidByte 0 36 s
  else if (n =? 45)%nat then EqualFold (substring 0 9 s) "urn:uuid:" && bytesAt uuidByte 9 36 s
  else if (n =? 38)%nat then bytesAt uuidByte 1 36 s
  else (n =? 32)%nat && bytesAt (fun _ => uuidDigit) 0 32 s.

(** What is used of the library: it accepts nothing else. *)
Class UuidText `{!Ids} := { uuid_form s : isUUID s = true -> uuidForm s = true }.

Lemma bytesAt_get f off n s i : bytesAt f off n s = true -> i < n -> exists c, String.get (off + i) s = Some c /\ f i c = true.
Proof.
  unfold bytesAt. rewrite forallb_forall. intros H Hi. specialize (H i ltac:(apply in_seq; lia)). destruct (String.get _ _); [by eexists|done].
Qed.

Lemma uuidByte_colon i c : uuidByte i c = true -> c <> ":"%char.
Proof. unfold uuidByte. case_bool_decide; intros Hc ->; by vm_compute in Hc. Qed.

Lemma uuidForm_length s : uuidForm s = true -> In (String.length s) [32; 36; 38; 45].
Proof.
  unfold uuidForm. cbn [In]. destruct (Nat.eqb_spec (String.length s) 36); [auto|]. destruct (Nat.eqb_spec (String.length s) 45); [auto|].
  destruct (Nat.eqb_spec (String.length s) 38); [auto|]. destruct (Nat.eqb_spec (String.length s) 32); [auto|done].
Qed.

(** Where a shorter form ends, a longer one has no colon. *)
Lemma uuidForm_colon s n : uuidForm s = true -> In n [32; 36; 38] -> n < String.length s -> String.get n s <> Some ":"%char.
Proof.
  intros Hs Hn Hl E. assert (forall off, bytesAt uuidByte off 36 s = true -> off <= n -> n < off + 36 -> False) as Hno.
  { intros off Hb H1 H2. destruct (bytesAt_get _ _ _ _ (n - off) Hb) as (c & Hc & Hd); [lia|]. replace (off + (n - off)) with n in Hc by lia.
    rewrite E in Hc. injection Hc as <-. by apply uuidByte_colon in Hd. }
  unfold uuidForm in Hs. cbn [In] in Hn. destruct (Nat.eqb_spec (String.length s) 36); [apply (Hno 0); [done|lia..]|].
  destruct (Nat.eqb_spec (String.length s) 45); [apply andb_true_iff in Hs as [_ Hs]; apply (Hno 9); [done|lia..]|].
  destruct (Nat.eqb_spec (String.length s) 38); [apply (Hno 1); [done|lia..]|].
  apply andb_true_iff in Hs as [Hs _]. apply Nat.eqb_eq in Hs. lia.
Qed.

Lemma get_sapp_at a b c : String.get (String.length a) (a ++ String c b) = Some c.
Proof. by induction a. Qed.

Lemma get_sapp_before a b n : n < String.length a -> String.get n (a ++ b) = String.get n a.
Proof. revert n. induction a as [|x a IH]; intros [|n] Hn; cbn in *; try lia; [done|]. apply IH. lia. Qed.

Lemma key_shorter a b a' b' : uuidForm a = true -> uuidForm a' = true -> a ++ ":" ++ b = a' ++ ":" ++ b' ->
  ~ String.length a < String.length a'.
Proof.
  intros Ha Ha' E Hl. apply (uuidForm_colon a' (String.length a)); [done| |done|].
  - apply uuidForm_length in Ha, Ha'. cbn [In] in *. lia.
  - rewrite <- (get_sapp_before a' (":" ++ b')) by done. rewrite <- E. apply get_sapp_at.
Qed.

Lemma sapp_inj_length a b a' b' : String.length a = String.length a' -> a ++ b = a' ++ b' -> a = a' /\ b = b'.
Proof.
  revert a'. induction a as [|x a IH]; intros [|x' a'] Hl E; cbn in Hl; try lia; [done|]. rewrite !sapp_cons in E. injection E as -> E.
  apply IH in E as [-> ->]; [done|lia].
Qed.

(** The parts of a grant key can be told apart. *)
Lemma uuid_key `{!Ids, !UuidText} a b a' b' : isUUID a = true -> isUUID a' = true -> grantKey a b = grantKey a' b' -> a = a' /\ b = b'.
Proof.
  intros Ha%uuid_form Ha'%uuid_form E. unfold grantKey in E. pose proof (key_shorter _ _ _ _ Ha Ha' E). pose proof (key_shorter _ _ _ _ Ha' Ha (eq_sym E)).
  apply sapp_inj_length in E as [-> E]; [|lia]. by injection E.
Qed.

(** An accepted text without a slash is a file name. *)
Lemma uuid_plain `{!Ids, !UuidText} s : isUUID s = true -> hasByte s "/" = false -> plainSegment s.
Proof. intros Hs%uuid_form%uuidForm_length Hb. split_and!; [..|done]; intros ->; cbn in Hs; lia. Qed.

(** ** What the records of a disk say *)
Definition repoFact (d : Disk) (id : string) (r : repositoryRecord) : Prop :=
  (exists path, d_repos d !! path = Some r) /\ rr_RepoID r = id /\ rr_State r <> "deleted".
Definition grantFact (d : Disk) (k : string) (g : RealmGrantRecord) : Prop :=
  (exists path, d_grants d !! path = Some g) /\ gr_State g = "active" /\ k = grantKey (gr_RepoID g) (gr_RecipientRealmID g).
Definition clientFact (d : Disk) (id : string) (c : canonicalGrantClient) : Prop :=
  exists path r, d_clients d !! path = Some r /\ cr_ClientID r = id /\ cr_Schema r = ClientSchema /\ cr_State r = "active" /\
                 c = GrantClient (cr_RealmID r) (cr_Kind r).

Section Rebuild.
  Context {W : Type} {ids : Ids} {tables : UnicodeTables} {urls : Urls} {order : MapRange} {text : UuidText}.
  Context {mortal : Mortal W} {records : Records W} {files : ViewFiles W} {service : Service W} {honest : HonestDisk W}.
  Variable p : ServicePublisher.

(** Every record lies at the path its content names, and those names are names of
    files: they hold no slash ([repositoryRecordPath] refuses one, the other two
    paths do not). *)
Record wellNamed (d : Disk) : Prop := {
  wn_repos path r : d_repos d !! path = Some r -> repositoryRecordPath (pb_ServiceWC p) (rr_RepoID r) = Ok path;
  wn_grants path g : d_grants d !! path = Some g -> realmGrantPath (pb_ServiceWC p) (gr_RepoID g) (gr_RecipientRealmID g) = Ok path;
  wn_slash path g : d_grants d !! path = Some g -> hasByte (gr_RepoID g) "/" = false /\ hasByte (gr_RecipientRealmID g) "/" = false;
  wn_clients path r : d_clients d !! path = Some r ->
    isUUID (cr_ClientID r) = true /\ hasByte (cr_ClientID r) "/" = false /\ path = JoinPath [adminPath p ["clients"]; cr_ClientID r ++ ".json"]
}.

Lemma repoFact_functional d : wellNamed d -> functional (repoFact d).
Proof.
  intros Hw k a b ((pa & Ha) & <- & _) ((pb & Hb) & Hk & _).
  pose proof (wn_repos _ Hw _ _ Ha) as H1. pose proof (wn_repos _ Hw _ _ Hb) as H2. rewrite Hk in H2. rewrite H1 in H2. injection H2 as ->. congruence.
Qed.

Lemma grantPath_Ok wc a b path : realmGrantPath wc a b = Ok path ->
  isUUID a = true /\ isUUID b = true /\ path = JoinPath [wc; "admin"; "grants"; a; b ++ ".json"].
Proof. unfold realmGrantPath. destruct (isUUID a), (isUUID b); simpl; naive_solver. Qed.

Lemma grantPath_json wc a b path : realmGrantPath wc a b = Ok path -> hasByte b "/" = false -> jsonEntry (path, false) = true.
Proof.
  intros (Ha & Hb & ->)%grantPath_Ok Hs. assert (plainSegment (b ++ ".json")) as Hj by by apply json_name.
  assert (exists pre, JoinPath [wc; "admin"; "grants"; a; b ++ ".json"] = pre ++ b ++ ".json") as [pre E].
  { unfold JoinPath. case_bool_decide as Hwc.
    - cbn [Join]. change (bool_decide ("admin" = "")) with false. cbv iota.
      destruct (Clean_ends ("admin" ++ "/" ++ "grants" ++ "/" ++ a) (b ++ ".json")) as [pre E]; [done..|]. exists pre. rewrite <- E. by rewrite ?sapp_assoc.
    - cbn [Join]. destruct (Clean_ends (wc ++ "/" ++ "admin" ++ "/" ++ "grants" ++ "/" ++ a) (b ++ ".json")) as [pre E]; [by destruct wc|done|].
      exists pre. rewrite <- E. by rewrite ?sapp_assoc. }
  unfold jsonEntry. cbn [fst snd negb andb]. rewrite E, <- sapp_assoc, Ext_json. by rewrite bool_decide_eq_true_2.
Qed.

Lemma grantFact_functional d : wellNamed d -> functional (grantFact d).
Proof.
  intros Hw k a b ((pa & Ha) & _ & ->) ((pb & Hb) & _ & Hk).
  pose proof (wn_grants _ Hw _ _ Ha) as H1. pose proof (wn_grants _ Hw _ _ Hb) as H2.
  destruct (grantPath_Ok _ _ _ _ H1) as (? & ? & _), (grantPath_Ok _ _ _ _ H2) as (? & ? & _).
  apply uuid_key in Hk as [E1 E2]; [|done..]. rewrite <- E1, <- E2, H1 in H2. injection H2 as ->. congruence.
Qed.

Lemma clientFact_functional d : wellNamed d -> functional (clientFact d).
Proof.
  intros Hw k a b (pa & ra & Ha & <- & _ & _ & ->) (pb & rb & Hb & Hk & _ & _ & ->).
  destruct (wn_clients _ Hw _ _ Ha) as (_ & _ & H1), (wn_clients _ Hw _ _ Hb) as (_ & _ & H2). rewrite Hk in H2. rewrite H1, H2 in *. congruence.
Qed.

(** ** Loading *)
Lemma t_loadRepositories (D : Disk -> Prop) d dir l acc : D d -> functional (repoFact d) -> collects (repoFact d) acc ->
  triple D d (loadRepositories (W := W) p dir l acc) (fun r d' => d' = d /\ forall m, r = Ok m ->
    collects (repoFact d) m /\ acc ⊆ m /\
    forall name r, In (name, false) l -> jsonEntry (name, false) = true -> d_repos d !! JoinPath [dir; name] = Some r ->
                   rr_State r <> "deleted" -> m !! rr_RepoID r = Some r).
Proof.
  intros HD Hf. revert acc. induction l as [|e l IH]; intros acc Hc; cbn [loadRepositories].
  { apply triple_ret. split; [done|]. intros m [= <-]. done. }
  destruct (jsonEntry e) eqn:Ej; cbn [negb].
  2: { eapply triple_mono; [by apply IH|]. intros r d' [-> H]. split; [done|]. intros m Hm.
       destruct (H m Hm) as (? & ? & Hl). split_and!; [done..|]. intros name r' [->|Hin]; [congruence|by apply Hl]. }
  eapply triple_bind; [by apply t_repository|]. intros r d' [-> Hr]. destruct r as [rec|e']; [|by apply triple_ret].
  case_bool_decide; [|by apply triple_ret]. cbn [negb].
  eapply triple_bind; [by apply t_archive|]. intros e' d' ->. destruct e'; [by apply triple_ret|]. cbn [answers] in Hr.
  set (acc' := if bool_decide _ then acc else _).
  assert (collects (repoFact d) acc' /\ acc ⊆ acc' /\ (rr_State rec <> "deleted" -> acc' !! rr_RepoID rec = Some rec)) as (Hc' & Hs & Hi).
  { subst acc'. case_bool_decide; [by split_and!|].
    assert (repoFact d (rr_RepoID rec) rec) by (split_and!; [by eexists|done..]).
    split_and!; [by apply collects_insert|by apply (collects_sub (repoFact d))|]. intros _. apply lookup_insert_eq. }
  eapply triple_mono; [by apply IH|]. intros r d' [-> H1]. split; [done|]. intros m Hm.
  destruct (H1 m Hm) as (? & Hs' & Hl). split_and!; [done|by etrans|]. intros name r' [->|Hin]; [|by apply Hl].
  intros _ Hr' Hd. cbn [fst] in Hr. rewrite Hr in Hr'. simplify_eq. eapply lookup_weaken; [by apply Hi|done].
Qed.

Lemma t_loadGrants (D : Disk -> Prop) d repositories l acc : D d -> functional (grantFact d) -> collects (grantFact d) acc ->
  (forall path, In (Ok (path, false)) l -> path ∈ d_names d) ->
  triple D d (loadGrants (W := W) repositories l acc) (fun r d' => d' = d /\ forall m, r = Ok m ->
    collects (grantFact d) m /\ acc ⊆ m /\ (forall e, In (Err e) l -> serr_is ENotExist e = true) /\
    (forall path g, In (Ok (path, false)) l -> jsonEntry (path, false) = true -> d_grants d !! path = Some g ->
                    gr_State g = "active" -> m !! grantKey (gr_RepoID g) (gr_RecipientRealmID g) = Some g) /\
    (forall k g, m !! k = Some g -> acc !! k = Some g \/ validateRealmGrantRecord g = None)).
Proof.
  intros HD Hf. revert acc. induction l as [|[e|e] l IH]; intros acc Hc Hn; cbn [loadGrants].
  { apply triple_ret. split; [done|]. intros m [= <-]. split_and!; naive_solver. }
  2: { destruct (serr_is ENotExist e) eqn:Ee; [|apply triple_ret; naive_solver].
       eapply triple_mono; [apply IH; [done|]; intros; apply Hn; by right|]. intros r d' [-> H]. split; [done|]. intros m Hm.
       destruct (H m Hm) as (? & ? & He & Hl & Hv). split_and!; [done..| | |done]; naive_solver. }
  assert (Hn' : forall path, In (Ok (path, false)) l -> path ∈ d_names d) by (intros; apply Hn; by right).
  destruct (jsonEntry e) eqn:Ej; cbn [negb].
  2: { eapply triple_mono; [by apply IH|]. intros r d' [-> H]. split; [done|]. intros m Hm.
       destruct (H m Hm) as (? & ? & He & Hl & Hv). split_and!; [done..| | |done]; [naive_solver|].
       intros path g [E|Hin]; [|by apply Hl]. injection E as ->. congruence. }
  destruct e as [path dir]. assert (dir = false) as -> by by destruct dir.
  eapply triple_bind; [by apply t_grant|]. intros r d' [-> Hr]. cbn [fst] in Hr. destruct r as [g|e']; cbn [answers] in Hr.
  2: { destruct (serr_is ENotExist e') eqn:Ee; [|by apply triple_ret]. exfalso. apply Hr; [done|]. apply Hn. by left. }
  destruct (validateRealmGrantRecord g) eqn:Ev; [by apply triple_ret|].
  destruct (_ && negb _) eqn:Eo; [by apply triple_ret|]. clear Eo.
  set (acc' := if bool_decide _ then _ else acc).
  assert (collects (grantFact d) acc' /\ acc ⊆ acc' /\
          (gr_State g = "active" -> acc' !! grantKey (gr_RepoID g) (gr_RecipientRealmID g) = Some g) /\
          (forall k x, acc' !! k = Some x -> acc !! k = Some x \/ x = g)) as (Hc' & Hs & Hi & Ho).
  { subst acc'. case_bool_decide; [|split_and!; naive_solver].
    assert (grantFact d (grantKey (gr_RepoID g) (gr_RecipientRealmID g)) g) by (split_and!; [by eexists|done..]).
    split_and!; [by apply collects_insert|by apply (collects_sub (grantFact d))|intros _; apply lookup_insert_eq|].
    intros k x Hk. apply lookup_insert_Some in Hk as [(_ & <-)|(_ & Hk)]; auto. }
  eapply triple_mono; [by apply IH|]. intros r d' [-> H1]. split; [done|]. intros m Hm.
  destruct (H1 m Hm) as (? & Hs' & He & Hl & Hv). split_and!; [done|by etrans|naive_solver| |].
  - intros path' g' [E|Hin]; [|by apply Hl]. injection E as <-. intros _ Hg' Ha. rewrite Hr in Hg'. simplify_eq.
    eapply lookup_weaken; [by apply Hi|done].
  - intros k x Hk. destruct (Hv k x Hk) as [Hx|]; [|by right]. destruct (Ho k x Hx) as [?| ->]; auto.
Qed.

Lemma t_loadClients (D : Disk -> Prop) d dir l acc : D d -> functional (clientFact d) -> collects (clientFact d) acc ->
  triple D d (loadClients (W := W) dir l acc) (fun r d' => d' = d /\ forall m, r = Ok m ->
    collects (clientFact d) m /\ acc ⊆ m /\
    forall name r, In (name, false) l -> jsonEntry (name, false) = true -> d_clients d !! JoinPath [dir; name] = Some r ->
                   cr_Schema r = ClientSchema -> cr_State r = "active" ->
                   m !! cr_ClientID r = Some (GrantClient (cr_RealmID r) (cr_Kind r))).
Proof.
  intros HD Hf. revert acc. induction l as [|e l IH]; intros acc Hc; cbn [loadClients].
  { apply triple_ret. split; [done|]. intros m [= <-]. done. }
  assert (Hskip : (forall name r, e = (name, false) -> jsonEntry (name, false) = true -> d_clients d !! JoinPath [dir; name] = Some r ->
                     cr_Schema r = ClientSchema -> cr_State r = "active" -> False) ->
          triple D d (loadClients (W := W) dir l acc) (fun r d' => d' = d /\ forall m, r = Ok m ->
            collects (clientFact d) m /\ acc ⊆ m /\
            forall name r, In (name, false) (e :: l) -> jsonEntry (name, false) = true -> d_clients d !! JoinPath [dir; name] = Some r ->
                   cr_Schema r = ClientSchema -> cr_State r = "active" ->
                   m !! cr_ClientID r = Some (GrantClient (cr_RealmID r) (cr_Kind r)))).
  { intros Hno. eapply triple_mono; [by apply IH|]. intros r d' [-> H]. split; [done|]. intros m Hm.
    destruct (H m Hm) as (? & ? & Hl). split_and!; [done..|]. intros name r' [E|Hin]; [|by apply Hl]. intros. by edestruct Hno. }
  destruct (jsonEntry e) eqn:Ej; cbn [negb]; [|apply Hskip; intros name r' ->; congruence].
  eapply triple_bind; [by apply t_client|]. intros r d' [-> Hr]. destruct r as [rec|e']; [|by apply triple_ret]. cbn [answers] in Hr.
  case_bool_decide as Hsc; cbn [negb orb]; [|apply Hskip; intros name r' ->; cbn [fst] in Hr; naive_solver].
  case_bool_decide as Hst; cbn [negb]; [|apply Hskip; intros name r' ->; cbn [fst] in Hr; naive_solver].
  destruct (isUUID _); cbn [negb]; [|by apply triple_ret].
  assert (clientFact d (cr_ClientID rec) (GrantClient (cr_RealmID rec) (cr_Kind rec))) as Hfact by (do 2 eexists; by split_and!).
  eapply triple_mono; [apply IH; by apply collects_insert|]. intros r d' [-> H1]. split; [done|]. intros m Hm.
  destruct (H1 m Hm) as (? & Hs' & Hl). split_and!; [done|etrans; [by apply (collects_sub (clientFact d))|done]|].
  intros name r' [->|Hin]; [|by apply Hl]. intros _ Hr' _ _. cbn [fst] in Hr. rewrite Hr in Hr'. simplify_eq.
  eapply lookup_weaken; [apply lookup_insert_eq|done].
Qed.

(** The records of the disk, as the model has them. *)
Record modelOf (d : Disk) (repositories : gmap string repositoryRecord) (grants : gmap string RealmGrantRecord)
    (clients : gmap string canonicalGrantClient) : Prop := {
  mo_repos : tabulates (repoFact d) repositories;
  mo_grants : tabulates (grantFact d) grants;
  mo_valid k g : grants !! k = Some g -> validateRealmGrantRecord g = None;
  mo_clients : tabulates (clientFact d) clients
}.

Lemma repos_complete d l m : wellNamed d -> collects (repoFact d) m ->
  (forall name, plainSegment name -> is_Some (d_repos d !! JoinPath [adminPath p ["repositories"]; name]) -> In (name, false) l) ->
  (forall name r, In (name, false) l -> jsonEntry (name, false) = true -> d_repos d !! JoinPath [adminPath p ["repositories"]; name] = Some r ->
     rr_State r <> "deleted" -> m !! rr_RepoID r = Some r) ->
  tabulates (repoFact d) m.
Proof.
  intros Hw Hc Hl Hm k r. split; [apply Hc|]. intros ((path & Hp) & <- & Hd).
  destruct (recordPath_Ok _ _ _ (wn_repos _ Hw _ _ Hp)) as (Hpath & Hs & _). destruct (json_name _ Hs) as [Hn Hj].
  change (JoinPath [pb_ServiceWC p; "admin"; "repositories"]) with (adminPath p ["repositories"]) in Hpath. subst path.
  eapply Hm; [apply Hl; [done|by eexists]|done..].
Qed.

Lemma clients_complete d l m : wellNamed d -> collects (clientFact d) m ->
  (forall name, plainSegment name -> is_Some (d_clients d !! JoinPath [adminPath p ["clients"]; name]) -> In (name, false) l) ->
  (forall name r, In (name, false) l -> jsonEntry (name, false) = true -> d_clients d !! JoinPath [adminPath p ["clients"]; name] = Some r ->
     cr_Schema r = ClientSchema -> cr_State r = "active" -> m !! cr_ClientID r = Some (GrantClient (cr_RealmID r) (cr_Kind r))) ->
  tabulates (clientFact d) m.
Proof.
  intros Hw Hc Hl Hm k c. split; [apply Hc|]. intros (path & r & Hp & <- & H1 & H2 & ->).
  destruct (wn_clients _ Hw _ _ Hp) as (Hu & Hs & Hpath). destruct (json_name (cr_ClientID r) Hs) as [Hn Hj].
  subst path. eapply Hm; [apply Hl; [done|by eexists]|done..].
Qed.

Lemma grants_complete d l m : wellNamed d -> collects (grantFact d) m -> walks d (pb_ServiceWC p) l ->
  (forall e, In (Err e) l -> serr_is ENotExist e = true) ->
  (forall path g, In (Ok (path, false)) l -> jsonEntry (path, false) = true -> d_grants d !! path = Some g ->
     gr_State g = "active" -> m !! grantKey (gr_RepoID g) (gr_RecipientRealmID g) = Some g) ->
  tabulates (grantFact d) m.
Proof.
  intros Hw Hc [_ Hwk] He Hm k g. split; [apply Hc|]. intros ((path & Hp) & Ha & ->).
  destruct (grantPath_Ok _ _ _ _ (wn_grants _ Hw _ _ Hp)) as (H1 & H2 & Hpath). destruct (wn_slash _ Hw _ _ Hp) as [Hs1 Hs2].
  eapply Hm; [|eapply grantPath_json; [by eapply wn_grants|done]|done..]. rewrite Hpath. apply Hwk; [done|by apply uuid_plain| |rewrite <- Hpath; by eexists].
  by apply json_name.
Qed.

Lemma collects_empty {A} (P : string -> A -> Prop) : collects P ∅.
Proof. intros k a. by rewrite lookup_empty. Qed.

Lemma t_loadGrantModel (D : Disk -> Prop) d : D d -> wellNamed d ->
  triple D d (loadGrantModel (W := W) p) (fun r d' => d' = d /\ forall repositories grants clients,
    r = Ok (repositories, grants, clients) -> modelOf d repositories grants clients).
Proof.
  intros HD Hw. unfold loadGrantModel.
  eapply triple_bind; [by apply t_readDirOrEmpty|]. intros r d' [-> Hr]. destruct r as [entries|e]; [|by apply triple_ret].
  destruct (Hr entries eq_refl) as (Hlr & _).
  eapply triple_bind; [apply t_loadRepositories; [done|by apply repoFact_functional|apply collects_empty]|].
  intros r d' [-> H1]. destruct r as [repositories|e]; [|by apply triple_ret]. destruct (H1 _ eq_refl) as (Hc & _ & Hm).
  eapply triple_bind; [by apply (t_walk D d (pb_ServiceWC p))|]. intros visits d' [-> Hwk].
  eapply triple_bind; [apply t_loadGrants; [done|by apply grantFact_functional|apply collects_empty|by apply Hwk]|].
  intros r d' [-> H2]. destruct r as [grants|e]; [|by apply triple_ret]. destruct (H2 _ eq_refl) as (Hgc & _ & He & Hgm & Hgv).
  eapply triple_bind; [by apply t_readDir|]. intros r d' (-> & _ & Hlc & _). destruct r as [centries|e]; [|by apply triple_ret].
  eapply triple_bind; [apply t_loadClients; [done|by apply clientFact_functional|apply collects_empty]|].
  intros r d' [-> H3]. destruct r as [clients|e]; [|by apply triple_ret]. destruct (H3 _ eq_refl) as (Hcc & _ & Hcm).
  apply triple_ret. split; [done|]. intros ? ? ? [= <- <- <-]. split.
  - apply (repos_complete d entries); done.
  - apply (grants_complete d visits); done.
  - intros k g Hk. destruct (Hgv k g Hk) as [Hx|]; [|done]. by rewrite lookup_empty in Hx.
  - apply (clients_complete d centries); [done|done|exact Hlc|done].
Qed.

(** ** Shelves *)
Definition reshelved (r r' : repositoryRecord) : Prop :=
  exists s q, r' = withRepoState s (withParent q r) /\ (s = rr_State r \/ (rr_State r = "initializing" /\ s = "active")).

Definition reshelves (m m' : gmap string repositoryRecord) : Prop :=
  forall id, match m !! id, m' !! id with Some r, Some r' => reshelved r r' | None, None => True | _, _ => False end.

Definition keyed (m : gmap string repositoryRecord) : Prop := forall id r, m !! id = Some r -> rr_RepoID r = id.

Lemma reshelved_refl r : reshelved r r.
Proof. exists (rr_State r), (rr_ParentRepoID r). split; [by destruct r|by left]. Qed.

Lemma reshelved_trans a b c : reshelved a b -> reshelved b c -> reshelved a c.
Proof.
  intros (s & q & -> & Hs) (s' & q' & -> & Hs'). exists s', q'. split; [done|]. cbn in Hs'.
  destruct Hs' as [->|[Hi ->]]; [done|]. destruct Hs as [Hs|[_ Hs]]; [right; split; congruence|congruence].
Qed.

Lemma reshelves_refl m : reshelves m m.
Proof. intros id. destruct (m !! id); [apply reshelved_refl|done]. Qed.

Lemma reshelves_trans m m' m'' : reshelves m m' -> reshelves m' m'' -> reshelves m m''.
Proof.
  intros H1 H2 id. specialize (H1 id). specialize (H2 id).
  destruct (m !! id), (m' !! id), (m'' !! id); try done. by eapply reshelved_trans.
Qed.

Lemma reshelves_keyed m m' : keyed m -> reshelves m m' -> keyed m'.
Proof.
  intros Hk Hr id r' Hi. specialize (Hr id). rewrite Hi in Hr. destruct (m !! id) as [r|] eqn:E; [|done].
  destruct Hr as (s & q & -> & _). cbn; by apply Hk.
Qed.

Lemma adoptShelf_reshelves record um m m' : keyed m -> adoptShelf record um m = Ok m' -> reshelves m m'.
Proof.
  intros Hk. unfold adoptShelf. destruct (m !! um_UploadRepoID um) as [shelf|] eqn:Es; [|intros [= <-]; apply reshelves_refl].
  destruct (m !! um_AuthorityRepoID um) as [parent|] eqn:Ep; [|intros [= <-]; apply reshelves_refl].
  destruct (_ || _); [done|]. destruct (_ && _); [done|]. cbv zeta. intros [= <-].
  set (b := bool_decide _ && _ && _). set (next := if b then _ else _).
  assert (Hb : b = true -> rr_State shelf = "initializing") by (subst b; intros Hb; by bool_to_prop).
  assert (reshelved shelf next /\ rr_RepoID next = um_UploadRepoID um) as [Hn Hid].
  { subst next. rewrite <- (Hk _ _ Es). destruct b; split; try done.
    - exists "active", (rr_RepoID parent). split; [done|]. right. by split; [apply Hb|].
    - exists (rr_State shelf), (rr_RepoID parent). auto. }
  rewrite Hid. intros id. destruct (decide (id = um_UploadRepoID um)) as [->|]; [by rewrite lookup_insert_eq, Es|].
  rewrite lookup_insert_ne by done. destruct (m !! id); [apply reshelved_refl|done].
Qed.

Lemma t_adoptShelves (D : Disk -> Prop) d root l m : D d -> keyed m ->
  triple D d (adoptShelves (W := W) root l m) (fun r d' => d' = d /\ forall m', r = Ok m' -> reshelves m m').
Proof.
  intros HD. revert m. induction l as [|e l IH]; intros m Hk; cbn [adoptShelves].
  { apply triple_ret. split; [done|]. intros ? [= <-]. apply reshelves_refl. }
  destruct (jsonEntry e); cbn [negb]; [|by apply IH].
  eapply triple_bind; [by apply t_upload|]. intros r d' ->. destruct r as [record|]; [|by apply triple_ret].
  case_bool_decide; cbn [negb]; [|by apply triple_ret]. destruct (ur_Manifest record) as [um|]; [|by apply IH].
  case_bool_decide; [by apply IH|]. destruct (adoptShelf record um m) as [m'|] eqn:E; [|by apply triple_ret].
  apply adoptShelf_reshelves in E; [|done].
  eapply triple_mono; [apply IH; by eapply reshelves_keyed|]. intros r d' [-> Hr]. split; [done|].
  intros m'' Hm. eapply reshelves_trans; [done|by apply Hr].
Qed.

Lemma t_projectShelfParents (D : Disk -> Prop) d m : D d -> keyed m ->
  triple D d (projectShelfParents (W := W) p m) (fun r d' => d' = d /\ forall m', r = Ok m' -> reshelves m m').
Proof.
  intros HD Hk. unfold projectShelfParents.
  case_bool_decide; [apply triple_ret; split; [done|]; intros ? [= <-]; apply reshelves_refl|].
  destruct (negb _); [by apply triple_ret|].
  assert (reshelves m (clearShelfParent <$> m)) as Hc.
  { intros id. rewrite lookup_fmap. destruct (m !! id) as [r|]; [|done]. cbn. unfold clearShelfParent.
    case_bool_decide; [|apply reshelved_refl]. exists (rr_State r), "". split; [by destruct r|by left]. }
  eapply triple_bind; [by apply t_readDirOrEmpty|]. intros r d' [-> _]. destruct r as [entries|]; [|by apply triple_ret].
  eapply triple_mono; [apply t_adoptShelves; [done|by eapply reshelves_keyed]|]. intros r d' [-> Hr]. split; [done|].
  intros m'' Hm. eapply reshelves_trans; [done|by apply Hr].
Qed.

(** ** Writing the repositories a shelf changed *)
Definition sameButRepos (d d' : Disk) : Prop :=
  d_grants d' = d_grants d /\ d_clients d' = d_clients d /\ d_realms d' = d_realms d /\ d_views d' = d_views d /\
  d_authz d' = d_authz d /\ d_held d' = d_held d.

(** A condition the writes of records and views do not break. *)
Definition stable (D : Disk -> Prop) : Prop :=
  (forall path r d, D d -> D (setRepo path r d)) /\ (forall path v d, D d -> D (setView path v d)).

Definition untouched (previous : gmap string repositoryRecord) (id : string) (r : repositoryRecord) : Prop :=
  rr_ParentRepoID r = default "" (rr_ParentRepoID <$> previous !! id) /\ rr_State r = default "" (rr_State <$> previous !! id).

Lemma t_writeRepositories (D : Disk -> Prop) d previous l changed : stable D -> D d -> NoDup (List.map fst l) ->
  triple D d (writeRepositories (W := W) p previous l changed) (fun r d' => D d' /\ forall paths, r = Ok paths ->
    sameButRepos d d' /\
    (forall path, d_repos d' !! path = d_repos d !! path \/
                  exists id r, In (id, r) l /\ repositoryRecordPath (pb_ServiceWC p) id = Ok path /\ d_repos d' !! path = Some r) /\
    (forall id r, In (id, r) l -> untouched previous id r \/
                  exists path, repositoryRecordPath (pb_ServiceWC p) id = Ok path /\ d_repos d' !! path = Some r)).
Proof.
  intros HD. revert d changed. induction l as [|[id r] l IH]; intros d changed Hd Hnd; cbn [writeRepositories].
  { apply triple_ret. split; [done|]. intros ? _. split_and!; [done|by left|done]. }
  apply NoDup_cons in Hnd as [Hni Hnd]. rewrite list_elem_of_In in Hni. destruct (bool_decide _ && bool_decide _) eqn:Eu.
  { bool_to_prop. eapply triple_mono; [by apply IH|]. intros r' d' [Hd' Hr]. split; [done|]. intros paths Hp.
    destruct (Hr paths Hp) as (H1 & H2 & H3). split_and!; [apply H1..| |].
    - intros path. destruct (H2 path) as [?|(? & ? & ? & ?)]; [by left|right]. do 2 eexists. split; [by right|done].
    - intros id' r'' [E|Hin]; [|by apply H3]. injection E as <- <-. by left. }
  clear Eu. destruct (repositoryRecordPath (pb_ServiceWC p) id) as [path|] eqn:Ep; [|by apply triple_ret].
  eapply triple_bind.
  { apply triple_write with (upd := setRepo path r) (Q := fun e d' => D d' /\ (e = None -> d' = setRepo path r d));
      [done|intros w <-; apply hd_writeRepository|intros; split; [by apply HD|done]|done]. }
  intros e d1 [Hd1 He1]. destruct e; [by apply triple_ret|]. rewrite (He1 eq_refl) in *. clear He1 d1.
  eapply triple_mono; [by apply IH|]. intros r' d' [Hd' Hr]. split; [done|]. intros paths Hp. destruct (Hr paths Hp) as (H1 & H2 & H3).
  assert (Hhead : d_repos d' !! path = Some r).
  { destruct (H2 path) as [->|(id' & r'' & Hin & Hp' & _)]; [apply lookup_insert_eq|].
    rewrite (recordPath_inj _ _ _ _ Ep Hp') in Hni. destruct Hni. by apply (in_map fst) in Hin. }
  split_and!; [apply H1..| |].
  - intros path'. destruct (decide (path' = path)) as [->|Hne]; [right; exists id, r; split; [by left|done]|].
    destruct (H2 path') as [He|(? & ? & ? & ?)]; [left; rewrite He; by apply lookup_insert_ne|right].
    do 2 eexists. split; [by right|done].
  - intros id' r'' [E|Hin]; [|by apply H3]. injection E as <- <-. right. by exists path.
Qed.

Lemma mapRange_lookup {A} (m : gmap string A) k a : In (k, a) (mapRange m) <-> m !! k = Some a.
Proof. by rewrite <- list_elem_of_In, mapRange_perm, elem_of_map_to_list. Qed.

Lemma mapRange_NoDup {A} (m : gmap string A) : NoDup (List.map fst (mapRange m)).
Proof. rewrite mapRange_perm. apply NoDup_fst_map_to_list. Qed.

(** After the writes the disk's repositories are the reshelved ones. *)
Lemma repos_settled d d' previous repositories : wellNamed d -> tabulates (repoFact d) previous -> reshelves previous repositories ->
  (forall path, d_repos d' !! path = d_repos d !! path \/
     exists id r, In (id, r) (mapRange repositories) /\ repositoryRecordPath (pb_ServiceWC p) id = Ok path /\ d_repos d' !! path = Some r) ->
  (forall id r, In (id, r) (mapRange repositories) -> untouched previous id r \/
     exists path, repositoryRecordPath (pb_ServiceWC p) id = Ok path /\ d_repos d' !! path = Some r) ->
  tabulates (repoFact d') repositories /\
  (forall path r, d_repos d' !! path = Some r -> repositoryRecordPath (pb_ServiceWC p) (rr_RepoID r) = Ok path) /\
  (forall path r', d_repos d' !! path = Some r' -> exists r, d_repos d !! path = Some r /\ reshelved r r').
Proof.
  intros Hw Ht Hs H2 H3. assert (Hk : keyed previous) by (intros id r H; by apply Ht in H as (_ & ? & _)).
  assert (Hk' : keyed repositories) by by eapply reshelves_keyed.
  assert (Hwr : forall path id r, In (id, r) (mapRange repositories) -> repositoryRecordPath (pb_ServiceWC p) id = Ok path ->
            d_repos d' !! path = Some r).
  { intros path id r Hin Hp. destruct (H2 path) as [He|(id' & r' & Hin' & Hp' & Hr')].
    - destruct (H3 id r Hin) as [[Hu1 Hu2]|(path' & Hp' & Hr')]; [|by rewrite Hp in Hp'; injection Hp' as ->].
      apply mapRange_lookup in Hin. specialize (Hs id). rewrite Hin in Hs. destruct (previous !! id) as [r0|] eqn:E0; [|done].
      destruct Hs as (s & q & -> & _). cbn in Hu1, Hu2. subst s q. rewrite He.
      assert (withRepoState (rr_State r0) (withParent (rr_ParentRepoID r0) r0) = r0) as -> by by destruct r0.
      apply Ht in E0 as ((path0 & H0) & <- & _). pose proof (wn_repos _ Hw _ _ H0) as Hp0. rewrite Hp in Hp0. by injection Hp0 as ->.
    - rewrite (recordPath_inj _ _ _ _ Hp' Hp) in Hin'. apply mapRange_lookup in Hin, Hin'. congruence. }
  split; [|split].
  - intros id r. split.
    + intros Hi. pose proof (Hk' id r Hi) as Hid. specialize (Hs id). rewrite Hi in Hs. destruct (previous !! id) as [r0|] eqn:E0; [|done].
      pose proof E0 as ((path & H0) & Hid0 & Hd0)%Ht.
      split_and!; [|done|destruct Hs as (s & q & -> & [->|[_ ->]]); cbn; done].
      exists path. apply (Hwr path id); [by apply mapRange_lookup|]. rewrite <- Hid0. by apply (wn_repos _ Hw).
    + intros ((path & Hp) & Hid & Hd). destruct (H2 path) as [He|(id' & r' & Hin & Hpath & Hr')].
      * rewrite He in Hp. assert (previous !! id = Some r) as E0 by (apply Ht; split_and!; [by eexists|done..]).
        specialize (Hs id). rewrite E0 in Hs. destruct (repositories !! id) as [r'|] eqn:Er; [|done].
        assert (d_repos d' !! path = Some r') as Hr'.
        { apply (Hwr path id); [by apply mapRange_lookup|]. rewrite <- Hid. by apply (wn_repos _ Hw). }
        congruence.
      * apply mapRange_lookup in Hin. pose proof (Hk' _ _ Hin). congruence.
  - intros path r Hp. destruct (H2 path) as [He|(id' & r' & Hin & Hpath & Hr')].
    + apply (wn_repos _ Hw). congruence.
    + apply mapRange_lookup in Hin. rewrite Hp in Hr'. injection Hr' as ->. by rewrite (Hk' _ _ Hin).
  - intros path r' Hp. destruct (H2 path) as [He|(id & r1 & Hin & Hpath & Hr1)]; [exists r'; split; [congruence|apply reshelved_refl]|].
    rewrite Hp in Hr1. injection Hr1 as <-. apply mapRange_lookup in Hin. specialize (Hs id). rewrite Hin in Hs.
    destruct (previous !! id) as [r0|] eqn:E0; [|done]. exists r0. split; [|done].
    apply Ht in E0 as ((path0 & H0) & <- & _). pose proof (wn_repos _ Hw _ _ H0) as Hp0. rewrite Hpath in Hp0. by injection Hp0 as ->.
Qed.

(** ** Views *)
Lemma Clean_snoc2_inj d a b w : d <> "" -> plainSegment a -> plainSegment b -> plainSegment w ->
  Clean ((d ++ "/" ++ a) ++ "/" ++ w) = Clean ((d ++ "/" ++ b) ++ "/" ++ w) -> a = b.
Proof.
  intros Hd Ha Hb Hw. assert (Hne : forall x, d ++ "/" ++ x <> "") by (intros x; by destruct d).
  rewrite !Clean_snoc by done. rewrite !HasPrefix_root by done.
  assert (Hs : forall x, plainSegment x -> fold_left (cleanStep (HasPrefix d "/")) (Split "/" (d ++ "/" ++ x)) [] =
                                           x :: fold_left (cleanStep (HasPrefix d "/")) (Split "/" d) []).
  { intros x Hx. change (d ++ "/" ++ x) with (d ++ String "/"%char x). rewrite Split_snoc by apply Hx. rewrite fold_left_app.
    cbn [fold_left]. by apply cleanStep_plain. }
  rewrite !Hs by done. set (st := fold_left _ _ _).
  assert (Hst : cleanStack (HasPrefix d "/") st).
  { apply cleanStack_fold; [apply Forall_forall; intros; by eapply Split_no_sep|by exists [], 0]. }
  assert (Hc : forall x, plainSegment x -> cleanStack (HasPrefix d "/") (w :: x :: st)).
  { intros x Hx. rewrite <- (cleanStep_plain (HasPrefix d "/") st x Hx), <- (cleanStep_plain (HasPrefix d "/") _ w Hw).
    apply cleanStack_step; [apply Hw|].
    by apply cleanStack_step; [apply Hx|]. }
  intros He. apply cleanOut_inj in He as [_ He]; [|by apply Hc..|done|done]. by injection He.
Qed.

Lemma viewPath_inj a b : plainSegment a -> plainSegment b -> viewPath p a = viewPath p b -> a = b.
Proof.
  intros Ha Hb. unfold viewPath, JoinPath. case_bool_decide as Hwc; cbn [Join].
  - change (bool_decide ("clients" = "")) with false. cbv iota. intros E.
    apply (Clean_snoc2_inj "clients" a b "view.json"); [done..|]. by rewrite !sapp_assoc.
  - intros E. apply (Clean_snoc2_inj (pb_ServiceWC p ++ "/" ++ "clients") a b "view.json"); [by destruct (pb_ServiceWC p)|done..|].
    by rewrite !sapp_assoc.
Qed.

Lemma grantPath_inj a a' b path : hasByte a "/" = false -> hasByte a' "/" = false -> hasByte b "/" = false ->
  realmGrantPath (pb_ServiceWC p) a b = Ok path -> realmGrantPath (pb_ServiceWC p) a' b = Ok path -> a = a'.
Proof.
  intros Hs Hs' Hsb (Ha & Hb & ->)%grantPath_Ok (Ha' & _ & E)%grantPath_Ok. revert E.
  assert (plainSegment (b ++ ".json")) as Hj by by apply json_name. apply uuid_plain in Ha; [|done]. apply uuid_plain in Ha'; [|done].
  unfold JoinPath. case_bool_decide as Hwc; cbn [Join].
  - change (bool_decide ("admin" = "")) with false. cbv iota. intros E.
    apply (Clean_snoc2_inj ("admin" ++ "/" ++ "grants") a a' (b ++ ".json")); [done..|]. rewrite !sapp_assoc in *. exact E.
  - intros E. apply (Clean_snoc2_inj (pb_ServiceWC p ++ "/" ++ "admin" ++ "/" ++ "grants") a a' (b ++ ".json")); [by destruct (pb_ServiceWC p)|done..|].
    rewrite !sapp_assoc in *. exact E.
Qed.

Lemma wellNamed_setGrant d path g : wellNamed d -> realmGrantPath (pb_ServiceWC p) (gr_RepoID g) (gr_RecipientRealmID g) = Ok path ->
  hasByte (gr_RepoID g) "/" = false -> hasByte (gr_RecipientRealmID g) "/" = false -> wellNamed (setGrant path g d).
Proof.
  intros Hw Hg H1 H2. split; [apply (wn_repos _ Hw)| | |apply (wn_clients _ Hw)]; intros path' g'; cbn;
    (intros [[<- <-]|[_ Hl]]%lookup_insert_Some; [done|]); [by apply (wn_grants _ Hw)|by eapply (wn_slash _ Hw)].
Qed.

Lemma wellNamed_setHeld d h : wellNamed d -> wellNamed (setHeld h d).
Proof. intros [H1 H2 H3 H4]. by split. Qed.

(** The view a rebuild leaves for a client that had [v]. *)
Definition refreshed (repositories : gmap string repositoryRecord) (grants : gmap string RealmGrantRecord) (c : canonicalGrantClient)
    (v v' : View) : Prop :=
  vw_RealmID v = gc_RealmID c /\ vw_RealmID v' = gc_RealmID c /\ vw_ClientID v' = vw_ClientID v /\ vw_ClientRole v' = vw_ClientRole v /\
  (vw_Generation v <= vw_Generation v')%Z /\ Validate v' = None /\ vw_LockReleaseRequests v' = vw_LockReleaseRequests v /\
  vw_RepositorySlice v' = appended (projectedRepositories repositories grants (gc_RealmID c) (vw_ClientRole v) (gc_Kind c) (vw_Repositories v)).

Lemma appended_default {A} (l : list A) : default [] (appended l) = l.
Proof. by destruct l. Qed.

Lemma t_projectClient (D : Disk -> Prop) d repositories grants clients stamp id c : stable D -> D d -> clients !! id = Some c ->
  triple D d (projectClient (W := W) p repositories grants clients stamp id) (fun r d' => D d' /\ forall accesses paths, r = Ok (accesses, paths) ->
    exists v v', d_views d !! viewPath p id = Some v /\ refreshed repositories grants c v v' /\
                 accesses = accessesOf (vw_Repositories v') /\
                 ((d' = d /\ v' = v) \/ d' = setView (viewPath p id) v' d)).
Proof.
  intros HD Hd Hc. unfold projectClient. rewrite Hc. change (default (GrantClient "" "") (Some c)) with c.
  eapply triple_bind; [by apply t_loadView|]. intros r d' [-> Hr]. destruct r as [v|e]; [|by apply triple_ret].
  destruct Hr as [Hv Hval]. case_bool_decide as Hrealm; cbn [negb]; [|by apply triple_ret].
  eapply triple_bind; [by apply t_realm|]. intros r d' [-> _]. destruct r as [realm|e]; [|by apply triple_ret].
  destruct (_ || _); [by apply triple_ret|]. cbv zeta. rewrite Hrealm.
  set (next := projectedRepositories _ _ _ _ _ _). destruct (bool_decide _ && bool_decide _) eqn:Es.
  { bool_to_prop. apply triple_ret. split; [done|]. intros ? ? [= <- <-]. exists v, v. split_and!; [done| |by unfold vw_Repositories; rewrite H, appended_default|by left].
    by split_and!. }
  clear Es. eapply triple_bind; [by apply t_store|]. intros r d' Hst. destruct r as [stored|e].
  2: { apply triple_ret. split; [|done]. destruct Hst as [->|[-> _]]; [done|by apply HD]. }
  apply triple_ret. set (v' := withRepositories _ _ _ _) in Hst.
  assert (Hgen : stored = true).
  { destruct stored; [done|]. destruct Hst as (_ & cur & Hcur & Hg). rewrite Hv in Hcur. injection Hcur as <-.
    revert Hg. subst v'. unfold withRepositories, nextGeneration. cbn. destruct (Z.eqb_spec (vw_Generation v) maxDuration); [|lia].
    rewrite e. done. }
  subst stored. destruct Hst as [-> [Hval' Hold]]. split; [by apply HD|]. intros ? ? [= <- <-]. exists v, v'.
  split_and!; [done| |by subst v'; unfold vw_Repositories; cbn; rewrite appended_default|by right].
  split_and!; [done..| |done|done|done]. destruct Hold as [Hn|(cur & Hcur & _ & _ & Hg)]; [congruence|].
  rewrite Hv in Hcur. injection Hcur as <-. lia.
Qed.

Definition sameButViews (d d' : Disk) : Prop :=
  d_repos d' = d_repos d /\ d_grants d' = d_grants d /\ d_clients d' = d_clients d /\ d_realms d' = d_realms d /\
  d_authz d' = d_authz d /\ d_held d' = d_held d.

Lemma sameButViews_trans a b c : sameButViews a b -> sameButViews b c -> sameButViews a c.
Proof. unfold sameButViews. intros (-> & -> & -> & -> & -> & ->). done. Qed.

Lemma t_projectClients (D : Disk -> Prop) d repositories grants clients stamp l effective changed :
  stable D -> D d -> NoDup l -> (forall id, In id l -> plainSegment id /\ is_Some (clients !! id)) ->
  triple D d (projectClients (W := W) p repositories grants clients stamp l effective changed)
    (fun r d' => D d' /\ forall eff paths, r = Ok (eff, paths) -> sameButViews d d' /\
       (forall path, (forall id, In id l -> path <> viewPath p id) -> d_views d' !! path = d_views d !! path) /\
       (forall id, ~ In id l -> eff !! id = effective !! id) /\
       (forall id c, In id l -> clients !! id = Some c ->
          exists v v', d_views d !! viewPath p id = Some v /\ d_views d' !! viewPath p id = Some v' /\
                       refreshed repositories grants c v v' /\ eff !! id = Some (accessesOf (vw_Repositories v')))).
Proof.
  intros HD. revert d effective changed. induction l as [|id l IH]; intros d effective changed Hd Hnd Hl; cbn [projectClients].
  { apply triple_ret. split; [done|]. intros ? ? [= <- <-]. by split_and!. }
  apply NoDup_cons in Hnd as [Hni Hnd]. rewrite list_elem_of_In in Hni. destruct (Hl id) as [Hid [c Hc]]; [by left|].
  eapply triple_bind; [by apply (t_projectClient D d _ _ _ _ _ c)|]. intros r d1 [HDd1 Hr]. destruct r as [[accesses paths]|]; [|by apply triple_ret].
  destruct (Hr _ _ eq_refl) as (v & v' & Hv & Hre & Hacc & Hd1).
  assert (H1 : sameButViews d d1 /\ d_views d1 !! viewPath p id = Some v' /\
               forall path, path <> viewPath p id -> d_views d1 !! path = d_views d !! path).
  { destruct Hd1 as [[-> ->]| ->]; [by split_and!|]. split_and!; [done..|apply lookup_insert_eq|].
    intros path Hp. by apply lookup_insert_ne. }
  destruct H1 as (Hs1 & Hv1 & Ho1).
  assert (Hl' : forall id', In id' l -> plainSegment id' /\ is_Some (clients !! id')) by (intros; apply Hl; by right).
  eapply triple_mono; [by apply IH|]. intros r d' [HDd' Hr']. split; [done|]. intros eff paths' Hp. destruct (Hr' _ _ Hp) as (Hs2 & Hv2 & Hf2 & Hc2).
  assert (Hkeep : forall id', In id' l -> viewPath p id <> viewPath p id').
  { intros id' Hin E. apply viewPath_inj in E; [|done|by apply Hl']. by subst. }
  split; [by eapply sameButViews_trans|]. split; [|split].
  - intros path Hpath. rewrite Hv2 by (intros; apply Hpath; by right). apply Ho1, Hpath. by left.
  - intros id' Hn. rewrite Hf2 by (intros ?; apply Hn; by right). apply lookup_insert_ne. intros ->. apply Hn. by left.
  - intros id' c' [<-|Hin] Hc'.
    + rewrite Hc in Hc'. injection Hc' as <-. exists v, v'. split_and!; [done|by rewrite Hv2|done|].
      rewrite Hf2 by done. by rewrite lookup_insert_eq, Hacc.
    + destruct (Hc2 id' c' Hin Hc') as (u & u' & Hu & Hu' & Hru & He). exists u, u'. split_and!; [|done..].
      rewrite <- Hu. symmetry. apply Ho1. intros E. by apply (Hkeep id' Hin).
Qed.

(** ** The whole rebuild *)

(** The accesses the views of the disk give to its clients. *)
Definition viewAccesses (d : Disk) (clients : gmap string canonicalGrantClient) : gmap string (gmap string string) :=
  map_imap (fun id _ => (fun v => accessesOf (vw_Repositories v)) <$> d_views d !! viewPath p id) clients.

Lemma t_updateAuthz (D : Disk -> Prop) d authz changed : (forall d, D d) ->
  triple D d (updateAuthz (W := W) p authz changed) (fun r d' => forall paths, r = Ok paths ->
    d_authz d' !! pb_DataAuthzFile p = Some authz /\
    d_repos d' = d_repos d /\ d_grants d' = d_grants d /\ d_clients d' = d_clients d /\ d_views d' = d_views d /\ d_realms d' = d_realms d).
Proof.
  intros HD. unfold updateAuthz. eapply triple_bind; [by apply t_readAuthz|]. intros r d' [-> Ha].
  assert (Hw : triple D d (let* e := ask (sv_writeAuthz (pb_DataAuthzFile p) authz) in
                           ret (match e with Some e => Err e | None => Ok (changed ++ [pb_DataAuthzFile p])%list end))
            (fun r d' => forall paths, r = Ok paths -> d_authz d' !! pb_DataAuthzFile p = Some authz /\
               d_repos d' = d_repos d /\ d_grants d' = d_grants d /\ d_clients d' = d_clients d /\ d_views d' = d_views d /\ d_realms d' = d_realms d)).
  { eapply triple_bind.
    { apply triple_write with (upd := setAuthz (pb_DataAuthzFile p) authz) (Q := fun e d' => e = None -> d' = setAuthz (pb_DataAuthzFile p) authz d);
        [apply HD|intros w <-; apply hd_writeAuthz|done|done]. }
    intros e d1 Hd1. apply triple_ret. destruct e; [done|]. rewrite (Hd1 eq_refl). intros _ _. split_and!; [apply lookup_insert_eq|done..]. }
  destruct r as [raw|e].
  - case_bool_decide as Er; [|apply Hw]. apply triple_ret. intros _ _. injection Er as <-. by split_and!.
  - destruct (serr_is ENotExist e); [|by apply triple_ret]. case_bool_decide; [done|apply Hw].
Qed.

Lemma sortedKeys_In {A} (m : gmap string A) k : In k (sortedKeys m) <-> is_Some (m !! k).
Proof.
  unfold sortedKeys. rewrite <- list_elem_of_In, merge_sort_Permutation, list_elem_of_In, in_map_iff. split.
  - intros ([k' a] & <- & Hin%mapRange_lookup). by eexists.
  - intros [a Ha]. exists (k, a). split; [done|]. by apply mapRange_lookup.
Qed.

Lemma sortedKeys_NoDup {A} (m : gmap string A) : NoDup (sortedKeys m).
Proof. unfold sortedKeys. rewrite merge_sort_Permutation. apply mapRange_NoDup. Qed.

(** What is known when the authz file is due: the disk [d2] over the disk [d]. *)
Definition projected (d d2 : Disk) (repositories : gmap string repositoryRecord) (grants : gmap string RealmGrantRecord)
    (clients : gmap string canonicalGrantClient) (effective : gmap string (gmap string string)) : Prop :=
  modelOf d2 repositories grants clients /\ wellNamed d2 /\
  (forall path r', d_repos d2 !! path = Some r' -> exists r, d_repos d !! path = Some r /\ reshelved r r') /\
  d_grants d2 = d_grants d /\ d_clients d2 = d_clients d /\
  (forall id c, clients !! id = Some c -> exists v v',
     d_views d !! viewPath p id = Some v /\ d_views d2 !! viewPath p id = Some v' /\ refreshed repositories grants c v v') /\
  effective = viewAccesses d2 clients.

Lemma t_rebuild_authz (D : Disk -> Prop) d (Q : result serr (list string) -> Disk -> Prop) : stable D -> D d -> wellNamed d ->
  (forall e d', D d' -> Q (Err e) d') ->
  (forall d2 repositories grants clients effective changed, D d2 -> projected d d2 repositories grants clients effective ->
     triple D d2 (updateAuthz (W := W) p (renderCanonicalGrantAuthz repositories clients effective) changed) Q) ->
  triple D d (rebuildGrantAuthority (W := W) p) Q.
Proof.
  intros HD Hd Hw HQ Hk. unfold rebuildGrantAuthority.
  eapply triple_bind; [by apply t_loadGrantModel|]. intros r d' [-> Hm]. destruct r as [[[previous grants] clients]|]; [|by apply triple_ret, HQ].
  specialize (Hm _ _ _ eq_refl).
  eapply triple_bind; [apply t_projectShelfParents; [done|]; intros id x Hx; by apply (mo_repos _ _ _ _ Hm) in Hx as (_ & ? & _)|].
  intros r d' [-> Hs]. destruct r as [repositories|]; [|by apply triple_ret, HQ]. specialize (Hs _ eq_refl).
  eapply triple_bind; [by apply t_now|]. intros stamp d' ->.
  eapply triple_bind; [apply t_writeRepositories; [done|done|apply mapRange_NoDup]|].
  intros r d1 [Hd1 Hr]. destruct r as [changed|]; [|by apply triple_ret, HQ]. destruct (Hr _ eq_refl) as ((Hg1 & Hc1 & Hr1 & Hv1 & _) & H2 & H3).
  destruct (repos_settled d d1 previous repositories Hw (mo_repos _ _ _ _ Hm) Hs H2 H3) as (Ht & Hwn & Hown).
  assert (Hids : forall id, In id (sortedKeys clients) -> plainSegment id /\ is_Some (clients !! id)).
  { intros id Hin%sortedKeys_In. split; [|done]. destruct Hin as [c Hc]. apply (mo_clients _ _ _ _ Hm) in Hc as (path & x & Hx & <- & _).
    apply (wn_clients _ Hw) in Hx as (? & ? & _). by apply uuid_plain. }
  eapply triple_bind; [apply t_projectClients; [done|done|apply sortedKeys_NoDup|exact Hids]|].
  intros r d2 [Hd2 Hr2]. destruct r as [[effective changed2]|]; [|by apply triple_ret, HQ].
  destruct (Hr2 _ _ eq_refl) as ((Hrr & Hg2 & Hc2 & _) & _ & Hn2 & Hcl). clear Hr Hr2. apply (Hk d2 repositories grants); [done|].
  assert (Hgr : d_grants d2 = d_grants d) by congruence. assert (Hcc : d_clients d2 = d_clients d) by congruence.
  split; [split|split; [split|split; [|split; [done|split; [done|split]]]]].
  - unfold repoFact in *. by rewrite Hrr.
  - pose proof (mo_grants _ _ _ _ Hm). unfold grantFact in *. by rewrite Hgr.
  - apply (mo_valid _ _ _ _ Hm).
  - pose proof (mo_clients _ _ _ _ Hm). unfold clientFact in *. by rewrite Hcc.
  - by rewrite Hrr.
  - rewrite Hgr. apply Hw.
  - rewrite Hgr. apply Hw.
  - rewrite Hcc. apply Hw.
  - by rewrite Hrr.
  - intros id c Hc. destruct (Hcl id c) as (v & v' & Hv & Hv' & Href & _); [apply sortedKeys_In; by eexists|done|].
    exists v, v'. rewrite <- Hv1. by split_and!.
  - apply map_eq. intros id. unfold viewAccesses. rewrite map_lookup_imap. destruct (clients !! id) as [c|] eqn:Ec; cbn [mbind option_bind].
    + destruct (Hcl id c) as (v & v' & _ & Hv' & _ & ->); [apply sortedKeys_In; by eexists|done|]. by rewrite Hv'.
    + rewrite Hn2; [done|]. rewrite sortedKeys_In, Ec. by intros [].
Qed.

(** A successful rebuild leaves a projected disk with its authz file. *)
Lemma t_rebuild d : wellNamed d ->
  triple (fun _ => True) d (rebuildGrantAuthority (W := W) p) (fun r d' => forall paths, r = Ok paths ->
    exists repositories grants clients effective, projected d d' repositories grants clients effective /\
      d_authz d' !! pb_DataAuthzFile p = Some (renderCanonicalGrantAuthz repositories clients effective)).
Proof.
  intros Hw. apply t_rebuild_authz; [done|done|done|done|]. intros d2 repositories grants clients effective changed _ Hp.
  eapply triple_mono; [by apply t_updateAuthz|]. intros r d3 Hr paths Hpa. destruct (Hr _ Hpa) as (Ha & Hr3 & Hg3 & Hc3 & Hv3 & _).
  exists repositories, grants, clients, effective. split; [|done].
  destruct Hp as (Hm & Hwn & Hown & Hg & Hc & Hcl & He).
  split; [split|split; [split|split; [|split; [|split; [|split]]]]].
  - pose proof (mo_repos _ _ _ _ Hm). unfold repoFact in *. by rewrite Hr3.
  - pose proof (mo_grants _ _ _ _ Hm). unfold grantFact in *. by rewrite Hg3.
  - apply (mo_valid _ _ _ _ Hm).
  - pose proof (mo_clients _ _ _ _ Hm). unfold clientFact in *. by rewrite Hc3.
  - rewrite Hr3. apply Hwn.
  - rewrite Hg3. apply Hwn.
  - rewrite Hg3. apply Hwn.
  - rewrite Hc3. apply Hwn.
  - by rewrite Hr3.
  - by rewrite Hg3.
  - by rewrite Hc3.
  - by rewrite Hv3.
  - rewrite He. unfold viewAccesses. by rewrite Hv3.
Qed.

(** ** Publishing a grant *)
Lemma t_publishGrant d path g m : wellNamed (setGrant path g d) ->
  triple (fun _ => True) d (publishGrant (W := W) p path g m) (fun e d' => e = None ->
    exists repositories grants clients effective, projected (setGrant path g d) d' repositories grants clients effective /\
      d_authz d' !! pb_DataAuthzFile p = Some (renderCanonicalGrantAuthz repositories clients effective)).
Proof.
  intros Hw. unfold publishGrant. eapply triple_bind.
  { apply triple_write with (upd := setGrant path g) (Q := fun e d' => e = None -> d' = setGrant path g d);
      [done|intros w <-; apply hd_writeGrant|done|done]. }
  intros [e|] d1 Hd1; cbn [orElse]; [by apply triple_ret|]. rewrite (Hd1 eq_refl).
  eapply triple_bind; [by apply t_rebuild|]. intros [paths|e] d2 Hr; [|by apply triple_ret].
  eapply triple_mono; [by apply t_publish|]. intros e d' -> _. by apply (Hr paths).
Qed.

(** The same under the barrier, which only changes who is held. *)
Lemma projected_setHeld d d' h h' repositories grants clients effective :
  projected (setHeld h d) d' repositories grants clients effective -> projected d (setHeld h' d') repositories grants clients effective.
Proof.
  intros (Hm & Hw & Ho & Hg & Hc & Hcl & He). split; [destruct Hm as [M1 M2 M3 M4]; exact (Build_modelOf (setHeld h' d') _ _ _ M1 M2 M3 M4)|]. split; [by apply wellNamed_setHeld|]. done.
Qed.

End Rebuild.
