(* ===== verification/PublisherInvariants.v ===== *)
(** * PublisherInvariants: what no operation of the publisher breaks

    [keeps I m]: from a disk with [I], the computation [m] reaches only disks with
    [I], also when the process dies on the way.  Every operation keeps every
    condition its writes keep ([operation_keeps]); a history is any sequence of
    operations, each possibly cut off. *)
From S2P Require Import Prelude GoStrings Passport Naming ServerBase RealmRecords ClientView Publisher PublisherWorld PublisherProofs.
From Stdlib Require Import Ascii String.

Open Scope string_scope.
Open Scope go_scope.

Section Invariants.
  Context {W : Type} {ids : Ids} {tables : UnicodeTables} {urls : Urls} {order : MapRange}.
  Context {mortal : Mortal W} {records : Records W} {files : ViewFiles W} {service : Service W} {honest : HonestDisk W}.
  Variable p : ServicePublisher.

Definition keeps {A} (I : Disk -> Prop) (m : MC W A) : Prop := forall d, I d -> triple I d m (fun _ d' => I d').

(** The grant records an operation may write are left to [G], the states of the
    session barrier it may set to [H]. *)
Record kept (G : RealmGrantRecord -> Prop) (H : option string -> Prop) (I : Disk -> Prop) : Prop := {
  k_repo path r d : I d -> I (setRepo path r d);
  k_grant path g d : G g -> I d -> I (setGrant path g d);
  k_realm path r d : I d -> I (setRealm path r d);
  k_view path v d : newer d path v -> I d -> I (setView path v d);
  k_authz path s d : I d -> I (setAuthz path s d);
  k_held h d : H h -> I d -> I (setHeld h d)
}.

Section Keeps.
  Variables (G : RealmGrantRecord -> Prop) (Hd : option string -> Prop) (I : Disk -> Prop).
  Hypothesis K : kept G Hd I.

Lemma keeps_ret {A} (a : A) : keeps I (ret a).
Proof. intros d H. by apply triple_ret. Qed.

Lemma keeps_bind {A B} (m : MC W A) (k : A -> MC W B) : keeps I m -> (forall a, keeps I (k a)) -> keeps I (bind m k).
Proof. intros Hm Hk d H. eapply triple_bind; [by apply Hm|]. intros a d' H'. by apply Hk. Qed.

Lemma keeps_still {A} (m : MC W A) : (forall d, I d -> triple I d m (fun _ d' => d' = d)) -> keeps I m.
Proof. intros Hm d H. eapply triple_mono; [by apply Hm|]. by intros a d' ->. Qed.

Lemma keeps_reads {A} (f : W -> A * W) : (forall w, disk (f w).2 = disk w) -> keeps I (ask f).
Proof. intros Hf. apply keeps_still. intros d H. apply triple_ask; [done|]. intros w <-. apply Hf. Qed.

Lemma keeps_writes upd (f : W -> option serr * W) : (forall d, I d -> I (upd d)) ->
  (forall w, wrote upd (f w).1 (disk w) (disk (f w).2)) -> keeps I (ask f).
Proof. intros Hu Hf d H. eapply triple_write; [done|intros w <-; apply Hf|by intros; apply Hu|done]. Qed.

Lemma keeps_repository path : keeps I (ask (rd_repository (W := W) path)).
Proof. apply keeps_reads. intros. apply hd_repository. Qed.
Lemma keeps_grant path : keeps I (ask (rd_grant (W := W) path)).
Proof. apply keeps_reads. intros. apply hd_grant. Qed.
Lemma keeps_client path : keeps I (ask (sv_client (W := W) path)).
Proof. apply keeps_reads. intros. apply hd_client. Qed.
Lemma keeps_upload path : keeps I (ask (sv_upload (W := W) path)).
Proof. apply keeps_reads. intros. apply hd_upload. Qed.
Lemma keeps_readDir path : keeps I (ask (sv_readDir (W := W) path)).
Proof. apply keeps_reads. intros. apply hd_readDir. Qed.
Lemma keeps_readAuthz path : keeps I (ask (sv_readAuthz (W := W) path)).
Proof. apply keeps_reads. intros. apply hd_readAuthz. Qed.
Lemma keeps_now : keeps I (now (W := W)).
Proof. apply keeps_reads, hd_now. Qed.
Lemma keeps_head id : keeps I (ask (sv_head (W := W) id)).
Proof. apply keeps_reads, hd_head. Qed.
Lemma keeps_guards id : keeps I (ask (sv_ensureLockGuards (W := W) id)).
Proof. apply keeps_reads, hd_guards. Qed.
Lemma keeps_publish l m : keeps I (ask (sv_publish (W := W) l m)).
Proof. apply keeps_reads, hd_publish. Qed.
Lemma keeps_walk : keeps I (ask (sv_walkDir (W := W) (adminPath p ["grants"]))).
Proof. apply keeps_reads. intros. apply (hd_walkDir (pb_ServiceWC p)). Qed.
Lemma keeps_stop realm : Hd (Some realm) -> keeps I (ask (sv_stopSessions (W := W) realm)).
Proof. intros HS d H. apply triple_ask; [done|]. intros w Hw. rewrite hd_stop, Hw. destruct (sv_stopSessions realm w).1; [done|by apply K]. Qed.
Lemma keeps_resume realm : Hd None -> keeps I (ask (sv_resumeSessions (W := W) realm)).
Proof. intros HN d H. apply triple_ask; [done|]. intros w Hw. rewrite hd_resume, Hw. by apply K. Qed.
Lemma keeps_writeRepository path r : keeps I (ask (sv_writeRepository (W := W) path r)).
Proof. apply keeps_writes with (setRepo path r); [by intros; apply K|]. intros. apply hd_writeRepository. Qed.
Lemma keeps_writeGrant path g : G g -> keeps I (ask (sv_writeGrant (W := W) path g)).
Proof. intros. apply keeps_writes with (setGrant path g); [by intros; apply K|]. intros. apply hd_writeGrant. Qed.
Lemma keeps_writeRealm path r : keeps I (ask (sv_writeRealm (W := W) path r)).
Proof. apply keeps_writes with (setRealm path r); [by intros; apply K|]. intros. apply hd_writeRealm. Qed.
Lemma keeps_writeAuthz path s : keeps I (ask (sv_writeAuthz (W := W) path s)).
Proof. apply keeps_writes with (setAuthz path s); [by intros; apply K|]. intros. apply hd_writeAuthz. Qed.
Lemma keeps_archive r wc : keeps I (validateRepositoryArchive (W := W) r wc).
Proof. apply keeps_still. intros d H. by apply t_archive. Qed.
Lemma keeps_realm path : keeps I (readRealmRecord (W := W) path).
Proof. apply keeps_still. intros d H. eapply triple_mono; [by apply t_realm|]. by intros r d' [-> _]. Qed.
Lemma keeps_loadView path : keeps I (LoadView (W := W) path).
Proof. apply keeps_still. intros d H. eapply triple_mono; [by apply t_loadView|]. by intros r d' [-> _]. Qed.
Lemma keeps_store path v : keeps I (StoreIfNewer (W := W) path v).
Proof.
  intros d H. eapply triple_mono; [by apply t_store|]. intros [[]|] d'.
  - intros [-> ?]. by apply K.
  - by intros [-> _].
  - intros [->|[-> ?]]; [done|by apply K].
Qed.
End Keeps.
End Invariants.

#[export] Hint Resolve keeps_ret keeps_bind keeps_repository keeps_grant keeps_client keeps_upload keeps_readDir keeps_readAuthz
  keeps_now keeps_head keeps_guards keeps_publish keeps_walk keeps_stop keeps_resume keeps_writeRepository keeps_writeGrant
  keeps_writeRealm keeps_writeAuthz keeps_archive keeps_realm keeps_loadView keeps_store : filees.

(** Walk through a computation: one rule per call, one case per branch. *)
Ltac keep :=
  repeat first
    [ progress intros
    | solve [eauto 2 with filees]
    | apply keeps_bind
    | progress cbv zeta
    | match goal with |- keeps _ (match ?x with _ => _ end) => destruct x end
    | match goal with |- keeps _ (orElse ?e _) => destruct e; cbn [orElse] end ].

Section Operations.
  Context {W : Type} {ids : Ids} {tables : UnicodeTables} {urls : Urls} {order : MapRange}.
  Context {mortal : Mortal W} {records : Records W} {files : ViewFiles W} {service : Service W} {honest : HonestDisk W}.
  Variable p : ServicePublisher.
  Variables (G : RealmGrantRecord -> Prop) (Hd : option string -> Prop) (I : Disk -> Prop).
  Hypothesis K : kept G Hd I.

Lemma keeps_readDirOrEmpty dir : keeps I (readDirOrEmpty (W := W) dir).
Proof. unfold readDirOrEmpty. keep. Qed.

Lemma keeps_loadRepositories dir l acc : keeps I (loadRepositories (W := W) p dir l acc).
Proof. revert acc. induction l as [|e l IH]; intros acc; cbn [loadRepositories]; keep. Qed.

Lemma keeps_loadGrants repositories l acc : keeps I (loadGrants (W := W) repositories l acc).
Proof. revert acc. induction l as [|[e|e] l IH]; intros acc; cbn [loadGrants]; keep. Qed.

Lemma keeps_loadClients dir l acc : keeps I (loadClients (W := W) dir l acc).
Proof. revert acc. induction l as [|e l IH]; intros acc; cbn [loadClients]; keep. Qed.

Lemma keeps_adoptShelves root l m : keeps I (adoptShelves (W := W) root l m).
Proof. revert m. induction l as [|e l IH]; intros m; cbn [adoptShelves]; keep. Qed.

Lemma keeps_writeRepositories previous l changed : keeps I (writeRepositories (W := W) p previous l changed).
Proof. revert changed. induction l as [|[id r] l IH]; intros changed; cbn [writeRepositories]; keep. Qed.

Lemma keeps_projectClient repositories grants clients stamp id : keeps I (projectClient (W := W) p repositories grants clients stamp id).
Proof. unfold projectClient. keep. Qed.

#[local] Hint Resolve keeps_readDirOrEmpty keeps_loadRepositories keeps_loadGrants keeps_loadClients keeps_adoptShelves
  keeps_writeRepositories keeps_projectClient : filees.

Lemma keeps_projectClients repositories grants clients stamp l effective changed :
  keeps I (projectClients (W := W) p repositories grants clients stamp l effective changed).
Proof. revert effective changed. induction l as [|id l IH]; intros effective changed; cbn [projectClients]; keep. Qed.

Lemma keeps_updateAuthz authz changed : keeps I (updateAuthz (W := W) p authz changed).
Proof. unfold updateAuthz. keep. Qed.

#[local] Hint Resolve keeps_projectClients keeps_updateAuthz : filees.

Lemma keeps_rebuild : keeps I (rebuildGrantAuthority (W := W) p).
Proof. unfold rebuildGrantAuthority, loadGrantModel, projectShelfParents. keep. Qed.

#[local] Hint Resolve keeps_rebuild : filees.

Lemma keeps_publishGrant path g m : G g -> keeps I (publishGrant (W := W) p path g m).
Proof. unfold publishGrant. keep. Qed.

Hypothesis HH : forall h, Hd h.

Lemma keeps_barrier realm m : keeps I m -> keeps I (withRealmSessionsStopped (W := W) realm m).
Proof. unfold withRealmSessionsStopped. keep. Qed.

Lemma keeps_loadActive wc id : keeps I (loadActiveRepository (W := W) wc id).
Proof. unfold loadActiveRepository. keep. Qed.

Lemma keeps_headBoundary id : keeps I (headBoundary (W := W) id).
Proof. unfold headBoundary. keep. Qed.

Lemma keeps_storeView path v : keeps I (storeView (W := W) path v).
Proof. unfold storeView. keep. Qed.

#[local] Hint Resolve keeps_publishGrant keeps_barrier keeps_loadActive keeps_headBoundary keeps_storeView : filees.

Lemma keeps_grantable owner recipient repoID access : keeps I (grantable (W := W) p owner recipient repoID access).
Proof. unfold grantable. keep. Qed.

Lemma keeps_planGrant old owner recipient repoID access stamp : keeps I (planGrant (W := W) p old owner recipient repoID access stamp).
Proof. unfold planGrant. keep. Qed.

Lemma keeps_eachView step root l changed : (forall path v, keeps I (step path v)) -> keeps I (eachView (W := W) step root l changed).
Proof. intros Hs. revert changed. induction l as [|e l IH]; intros changed; cbn [eachView]; keep. Qed.

Lemma keeps_loadRecords dir l acc : keeps I (loadRecords (W := W) p dir l acc).
Proof. revert acc. induction l as [|e l IH]; intros acc; cbn [loadRecords]; keep. Qed.

Lemma keeps_loadViews root l acc : keeps I (loadViews (W := W) root l acc).
Proof. revert acc. induction l as [|e l IH]; intros acc; cbn [loadViews]; keep. Qed.

#[local] Hint Resolve keeps_grantable keeps_planGrant keeps_eachView keeps_loadRecords keeps_loadViews : filees.

Lemma keeps_visibility realmID v : keeps I (SetRealmDirectoryVisibility (W := W) p realmID v).
Proof. unfold SetRealmDirectoryVisibility. keep. Qed.

Lemma keeps_policy realmID repoID policy : keeps I (SetRepositoryEditingPolicy (W := W) p realmID repoID policy).
Proof. unfold SetRepositoryEditingPolicy, OwnsActiveRepository, storeEditingPolicy. keep. Qed.

Lemma keeps_renderAuthz : keeps I (renderAuthz (W := W) p).
Proof. unfold renderAuthz. keep. Qed.

#[local] Hint Resolve keeps_renderAuthz : filees.

Lemma keeps_publishRecord path repoID realmID name url purpose stamp :
  keeps I (publishRecord (W := W) p path repoID realmID name url purpose stamp).
Proof. unfold publishRecord. keep. Qed.

Lemma keeps_publishView record repoID realmID name url access stamp path v :
  keeps I (publishView (W := W) record repoID realmID name url access stamp path v).
Proof. unfold publishView. keep. Qed.

#[local] Hint Resolve keeps_publishRecord keeps_publishView : filees.

Lemma keeps_Publish repoID realmID name url purpose : keeps I (Publish (W := W) p repoID realmID name url purpose).
Proof. unfold Publish. keep. Qed.

Lemma keeps_activateView record repoID realmID stamp path v : keeps I (activateView (W := W) record repoID realmID stamp path v).
Proof. unfold activateView. keep. Qed.

#[local] Hint Resolve keeps_activateView : filees.

Lemma keeps_Activate repoID realmID : keeps I (Activate (W := W) p repoID realmID).
Proof. unfold Activate. keep. Qed.

Lemma keeps_authorizeDelete repoID realmID : keeps I (authorizeDelete (W := W) p repoID realmID).
Proof. unfold authorizeDelete. keep. Qed.

Lemma keeps_deleteView repoID stamp path v : keeps I (deleteView (W := W) repoID stamp path v).
Proof. unfold deleteView. keep. Qed.

Lemma keeps_transferView record repoID old new stamp path v : keeps I (transferView (W := W) record repoID old new stamp path v).
Proof. unfold transferView, deleteView. keep. Qed.

#[local] Hint Resolve keeps_authorizeDelete keeps_deleteView keeps_transferView : filees.

(** *** Operations that write grants *)
Hypothesis HG : forall g, validateRealmGrantRecord g = None -> G g.

Lemma revoked_valid stamp g : IsZero stamp = false -> validateRealmGrantRecord g = None -> validateRealmGrantRecord (revoked stamp g) = None.
Proof.
  intros Hs. unfold validateRealmGrantRecord. rewrite !andThen_None. intros (H1 & H2 & H3 & H4 & H5 & H6 & H7 & _).
  cbn [revoked gr_PathOwnerRepositoryUUID gr_PathOwnerCutoffRevision gr_Schema gr_CreatedAt gr_UpdatedAt gr_RepoID gr_OwnerRealmID gr_RecipientRealmID gr_State].
  split_and!; try done. rewrite require_None, Hs in *. apply andb_true_iff in H3 as [-> _]. done.
Qed.

Lemma keeps_now_then {B} (k : Time -> MC W B) : (forall t, IsZero t = false -> keeps I (k t)) -> keeps I (bind now k).
Proof.
  intros Hk d H. eapply triple_bind with (R := fun t d' => d' = d /\ IsZero t = false).
  - apply triple_ask; [done|]. intros w <-. split; [apply hd_now|apply hd_clock].
  - intros t d' [-> Ht]. by apply Hk.
Qed.

(** Branch on the validity of a grant that was read. *)
Ltac validated g Hv :=
  destruct (validateRealmGrantRecord g) eqn:Hv;
  [rewrite (bool_decide_eq_true_2 (is_Some (Some _))) by done; cbn [orb]; by keep
  |rewrite (bool_decide_eq_false_2 (is_Some None)) by (by intros []); cbn [orb]].

Lemma keeps_revokeGrantFiles repoID root stamp l changed : IsZero stamp = false -> keeps I (revokeGrantFiles (W := W) repoID root stamp l changed).
Proof.
  intros Hs. revert changed. induction l as [|e l IH]; intros changed; cbn [revokeGrantFiles]; [keep|].
  destruct (negb _); [keep|]. cbv zeta. apply keeps_bind; [keep|]. intros [g|]; [|keep]. validated g Hv.
  assert (G (revoked stamp g)) by by apply HG, revoked_valid. keep.
Qed.

#[local] Hint Resolve keeps_revokeGrantFiles : filees.

Lemma keeps_republish step repoID stamp changed m : IsZero stamp = false -> (forall path v, keeps I (step path v)) ->
  keeps I (republish (W := W) p step repoID stamp changed m).
Proof. intros Hs Hst. unfold republish, revokeRepositoryGrants. keep. Qed.

Lemma keeps_Delete repoID realmID : keeps I (Delete (W := W) p repoID realmID).
Proof.
  unfold Delete. destruct (validateGrantPublisher p); cbn [orElse]; [keep|]. apply keeps_bind; [keep|]. intros [[path r]|]; [|keep].
  apply keeps_now_then. intros t Ht. apply keeps_bind; [keep|]. intros [e|]; cbn [orElse]; [keep|]. apply keeps_republish; [done|keep].
Qed.

Lemma keeps_PruneAbandoned repoID realmID : keeps I (PruneAbandoned (W := W) p repoID realmID).
Proof. pose proof keeps_Delete. unfold PruneAbandoned. keep. Qed.

Lemma keeps_TransferOwner repoID realmID : keeps I (TransferOwner (W := W) p repoID realmID).
Proof.
  unfold TransferOwner. destruct (validateGrantPublisher p); cbn [orElse]; [keep|]. destruct (repositoryRecordPath _ _); [|keep].
  apply keeps_bind; [keep|]. intros [r|]; [|keep]. destruct (_ || _); [keep|]. cbv zeta. apply keeps_bind; [keep|].
  intros [e|]; cbn [orElse]; [keep|]. destruct (archiveProtected r); [keep|]. destruct (bool_decide _); [keep|]. destruct (bool_decide _); [keep|].
  apply keeps_now_then. intros t Ht. apply keeps_bind; [keep|]. intros [e|]; cbn [orElse]; [keep|]. apply keeps_republish; [done|keep].
Qed.

Lemma keeps_withdrawGrants realmID l changed : keeps I (withdrawGrants (W := W) p realmID l changed).
Proof.
  revert changed. induction l as [|id l IH]; intros changed; cbn [withdrawGrants]; [keep|].
  destruct (realmGrantPath _ _ _); [|keep]. apply keeps_bind; [keep|]. intros [g|]; [|keep]. validated g Hv.
  destruct (negb _); [keep|]. destruct (bool_decide _); [keep|]. apply keeps_now_then. intros t Ht.
  assert (G (revoked t g)) by by apply HG, revoked_valid. keep.
Qed.

#[local] Hint Resolve keeps_withdrawGrants : filees.

Lemma keeps_WithdrawRealmGrants realmID l : keeps I (WithdrawRealmGrants (W := W) p realmID l).
Proof. unfold WithdrawRealmGrants. keep. Qed.

Lemma keeps_bind_post {A B} (m : MC W A) (k : A -> MC W B) (R : A -> Prop) :
  (forall d, I d -> triple I d m (fun a d' => I d' /\ R a)) -> (forall a, R a -> keeps I (k a)) -> keeps I (bind m k).
Proof. intros Hm Hk d H. eapply triple_bind; [by apply Hm|]. intros a d' [H' HR]. by apply Hk. Qed.

Lemma keeps_RevokeGrant owner recipient repoID : keeps I (RevokeGrant (W := W) p owner recipient repoID).
Proof.
  unfold RevokeGrant. destruct (validateGrantPublisher p); [keep|]. apply keeps_bind; [keep|]. intros [r|]; [|keep].
  destruct (negb _); [keep|]. destruct (realmGrantPath _ _ _); [|keep]. apply keeps_bind; [keep|]. intros [g|]; [|keep]. validated g Hv.
  destruct (_ || _); [keep|]. destruct (negb _); [keep|]. apply keeps_bind_post with (R := G).
  - intros d H. destruct (bool_decide _); [apply triple_ret; auto|].
    eapply triple_bind with (R := fun t d' => d' = d /\ IsZero t = false).
    + apply triple_ask; [done|]. intros w <-. split; [apply hd_now|apply hd_clock].
    + intros t d' [-> Ht]. apply triple_ret. split; [done|]. by apply HG, revoked_valid.
  - intros g' Hg'. keep.
Qed.

(** *** Granting *)

(** The fields a grant inherits from an earlier valid record, or starts with. *)
Definition validBoundary (cutoff : option Z) (incarnation : string) : Prop :=
  (if bool_decide (incarnation = "") then None else require (isUUID incarnation && bool_decide (is_Some cutoff)) ERecord) = None /\
  require (match cutoff with Some n => negb (n <? 0)%Z | None => true end) ERecord = None.

Lemma active_valid repoID owner recipient access cutoff incarnation created updated :
  validBoundary cutoff incarnation -> IsZero created = false -> IsZero updated = false ->
  isUUID repoID = true -> isUUID owner = true -> isUUID recipient = true -> owner <> recipient -> access = "r" \/ access = "rw" ->
  validateRealmGrantRecord (RealmRecords.Grant RealmGrantSchema repoID owner recipient access "active"
    (if bool_decide (access = "rw") then "first_committer" else "") cutoff incarnation created updated) = None.
Proof.
  intros [H1 H2] Hc Hu Hr Ho Hp Hne Ha. unfold validateRealmGrantRecord. rewrite !andThen_None, !require_None.
  cbn [gr_PathOwnerRepositoryUUID gr_PathOwnerCutoffRevision gr_Schema gr_CreatedAt gr_UpdatedAt gr_RepoID gr_OwnerRealmID gr_RecipientRealmID gr_State gr_Access gr_PathOwnerPolicy].
  rewrite require_None in H2. rewrite Hc, Hu, Hr, Ho, Hp. rewrite (bool_decide_eq_false_2 (owner = recipient)) by done.
  split_and!; try done. destruct Ha as [-> | ->]; done.
Qed.

Lemma valid_fields g : validateRealmGrantRecord g = None ->
  validBoundary (gr_PathOwnerCutoffRevision g) (gr_PathOwnerRepositoryUUID g) /\ IsZero (gr_CreatedAt g) = false.
Proof.
  unfold validateRealmGrantRecord. rewrite !andThen_None. intros (H1 & H2 & H3 & _). split; [by split|].
  rewrite require_None in H3. apply andb_true_iff in H3 as [H3 _]. apply andb_true_iff in H3 as [_ H3]. by apply negb_true_iff in H3.
Qed.

(** An answer of the repository about its head, given over the disk [d]. *)
Definition headOf (d : Disk) (repoID : string) (n : Z) (u : string) : Prop :=
  exists w : W, disk w = d /\ (sv_head repoID w).1 = Ok (n, u).

Lemma t_headBoundary d repoID : I d ->
  triple I d (headBoundary (W := W) repoID) (fun r d' => d' = d /\ forall n u, r = Ok (n, u) -> (0 <= n)%Z /\ isUUID u = true /\ headOf d repoID n u).
Proof.
  intros H. unfold headBoundary.
  eapply triple_bind with (R := fun r d' => d' = d /\ forall n u, r = Ok (n, u) -> headOf d repoID n u).
  { apply triple_ask; [done|]. intros w <-. split; [apply hd_head|]. intros n u E. by exists w. }
  intros [[n u]|e] d' [-> Hh]; [|by apply triple_ret]. destruct (Z.ltb_spec n 0); [by apply triple_ret|].
  destruct (isUUID u) eqn:E; cbn [negb]; apply triple_ret; split; try done. intros ? ? [= <- <-]. split_and!; [done..|]. by apply Hh.
Qed.

Lemma boundary_valid n u : (0 <= n)%Z -> isUUID u = true -> validBoundary (Some n) u.
Proof.
  intros Hn Hu. split; [case_bool_decide; [done|]; by rewrite Hu|]. apply require_None, negb_true_iff. by apply Z.ltb_ge.
Qed.

(** The plan of a grant, when its premises are checked. *)
Definition soundPlan (r : result serr grantPlan) : Prop :=
  match r with Ok (WriteGrant _ g) => validateRealmGrantRecord g = None | _ => True end.

Lemma t_planGrant d old owner recipient repoID access stamp : I d -> IsZero stamp = false ->
  isUUID repoID = true -> isUUID owner = true -> isUUID recipient = true -> owner <> recipient -> access = "r" \/ access = "rw" ->
  triple I d (planGrant (W := W) p old owner recipient repoID access stamp) (fun r d' => I d' /\ soundPlan r).
Proof.
  intros H Hs Hr Ho Hp Hne Ha. unfold planGrant. cbv zeta. destruct old as [g|e].
  - destruct (validateRealmGrantRecord g) eqn:Hv; [rewrite bool_decide_eq_true_2 by done; by apply triple_ret|].
    rewrite (bool_decide_eq_false_2 (is_Some None)) by by intros []. cbn [orb]. destruct (_ || _); [by apply triple_ret|].
    destruct (valid_fields g Hv) as [Hb Hc]. destruct (_ && negb _); [by apply triple_ret|].
    set (same := _ && _ && _). set (rec := if same then g else _).
    assert (Hrec : validateRealmGrantRecord rec = None) by (subst rec; destruct same; [done|by apply active_valid]).
    destruct (bool_decide (access = "rw") && _) eqn:Erw; [|by apply triple_ret]. destruct (negb (pb_RepositoryHead p)); [by apply triple_ret|].
    eapply triple_bind; [by apply t_headBoundary|]. intros r d' [-> Hn]. destruct r as [[n u]|]; [|by apply triple_ret].
    destruct (Hn n u eq_refl) as (Hn0 & Hu & _). destruct (match gr_PathOwnerCutoffRevision g with Some _ => _ | None => _ end); [by apply triple_ret|].
    apply triple_ret. split; [done|]. cbn [soundPlan]. subst rec. destruct same eqn:Es.
    + subst same. exfalso. clear Hrec. apply andb_true_iff in Erw as [Eacc Eor]. bool_to_prop. apply orb_true_iff in Eor as [E|E]; bool_to_prop; congruence.
    + apply active_valid; try done. by apply boundary_valid.
  - destruct (negb _); [by apply triple_ret|].
    assert (Hnew : forall c u, validBoundary c u -> validateRealmGrantRecord (RealmRecords.Grant RealmGrantSchema repoID owner recipient access "active"
              (if bool_decide (access = "rw") then "first_committer" else "") c u stamp stamp) = None) by (intros; by apply active_valid).
    destruct (_ && _); [|apply triple_ret; split; [done|]; by apply Hnew].
    eapply triple_bind; [by apply t_headBoundary|]. intros r d' [-> Hn]. destruct r as [[n u]|]; [|by apply triple_ret].
    destruct (Hn n u eq_refl) as (Hn0 & Hu & _). apply triple_ret. split; [done|]. apply Hnew. by apply boundary_valid.
Qed.

Lemma keeps_Grant owner recipient repoID access : isUUID owner = true \/ (forall g, G g) -> keeps I (Grant (W := W) p owner recipient repoID access).
Proof.
  intros Hu. unfold Grant.
  apply keeps_bind_post with (R := fun e => e = None -> owner <> recipient /\ (access = "r" \/ access = "rw")).
  { intros d H. unfold grantable. destruct (validateGrantPublisher p >>? _) as [e|] eqn:E; cbn [orElse]; [by apply triple_ret|].
    rewrite !andThen_None, !require_None in E. destruct E as (_ & Ea & Ee).
    assert (owner <> recipient /\ (access = "r" \/ access = "rw")) as Hpre.
    { split; [by apply negb_true_iff, bool_decide_eq_false in Ee|]. apply orb_true_iff in Ea as [Ea|Ea]; apply bool_decide_eq_true in Ea; auto. }
    eapply triple_mono with (R := fun _ d' => I d'); [|done]. revert d H. change (keeps I (A := option serr) (
      let* r := loadActiveRepository (pb_ServiceWC p) repoID in
      nil? repo := r in
      if negb (bool_decide (rr_OwnerRealmID repo = owner)) then ret (Some EOwner)
      else if bool_decide (access = "rw") && archiveProtected repo then ret (Some EArchiveReadOnly)
      else let* r := readRealmRecord (realmPath (pb_ServiceWC p) recipient) in
           ret (match r with
                | Ok rc => if bool_decide (re_RealmID rc = recipient) && bool_decide (re_State rc = "active") then None else Some EInactive
                | Err _ => Some EInactive end))). keep. }
  intros [e|] Hpre; [keep|]. destruct (Hpre eq_refl) as [Hne Ha]. destruct (realmGrantPath _ _ _) as [path|] eqn:Ep; [|keep].
  assert (isUUID repoID = true /\ isUUID recipient = true) as [Hr Hp].
  { unfold realmGrantPath in Ep. by destruct (isUUID repoID), (isUUID recipient). }
  apply keeps_now_then. intros t Ht. apply keeps_bind; [keep|]. intros old.
  apply keeps_bind_post with (R := fun r => match r with Ok (WriteGrant _ g) => G g | _ => True end).
  { intros d H. destruct Hu as [Hu|Hg].
    - eapply triple_mono; [by apply t_planGrant|]. intros r d' [H' Hs]. split; [done|]. destruct r as [[|]|]; try done. by apply HG.
    - eapply triple_mono; [by apply keeps_planGrant|]. intros r d' H'. split; [done|]. by destruct r as [[|]|]. }
  intros r Hr'. destruct r as [[|reducing g]|]; [keep| |keep]. cbv zeta. keep.
Qed.

End Operations.

(** ** Histories *)
Inductive request :=
| RqGrant (owner recipient repoID access : string)
| RqRevoke (owner recipient repoID : string)
| RqVisibility (realmID visibility : string)
| RqPolicy (realmID repoID policy : string)
| RqRebuild
| RqPublish (repoID realmID name url purpose : string)
| RqActivate (repoID realmID : string)
| RqDelete (repoID realmID : string)
| RqPrune (repoID realmID : string)
| RqWithdraw (realmID : string) (repoIDs : list string)
| RqTransfer (repoID newRealmID : string).

Section Histories.
  Context {W : Type} {ids : Ids} {tables : UnicodeTables} {urls : Urls} {order : MapRange}.
  Context {mortal : Mortal W} {records : Records W} {files : ViewFiles W} {service : Service W}.
  Variable p : ServicePublisher.

(** One request: the world it leaves, whether it ended or died. *)
Definition perform (q : request) (w : W) : W :=
  match q with
  | RqGrant owner recipient repoID access => (Grant p owner recipient repoID access w).2
  | RqRevoke owner recipient repoID => (RevokeGrant p owner recipient repoID w).2
  | RqVisibility realmID visibility => (SetRealmDirectoryVisibility p realmID visibility w).2
  | RqPolicy realmID repoID policy => (SetRepositoryEditingPolicy p realmID repoID policy w).2
  | RqRebuild => (RebuildGrantAuthority p w).2
  | RqPublish repoID realmID name url purpose => (Publish p repoID realmID name url purpose w).2
  | RqActivate repoID realmID => (Activate p repoID realmID w).2
  | RqDelete repoID realmID => (Delete p repoID realmID w).2
  | RqPrune repoID realmID => (PruneAbandoned p repoID realmID w).2
  | RqWithdraw realmID repoIDs => (WithdrawRealmGrants p realmID repoIDs w).2
  | RqTransfer repoID newRealmID => (TransferOwner p repoID newRealmID w).2
  end.

Definition performAll (qs : list request) (w : W) : W := fold_left (fun w q => perform q w) qs w.

(** A grant is asked for by an authenticated realm. *)
Definition authenticated (q : request) : Prop := match q with RqGrant owner _ _ _ => isUUID owner = true | _ => True end.

Context {honest : HonestDisk W}.

Lemma keeps_snd {A} (I : Disk -> Prop) (m : MC W A) w : keeps I m -> I (disk w) -> I (disk (m w).2).
Proof. intros Hm H. destruct (m w) as [o w'] eqn:E. pose proof (triple_elim _ _ _ _ _ _ (Hm _ H) E) as He. by destruct o. Qed.

Lemma perform_keeps G Hd I q w : kept G Hd I -> (forall h, Hd h) -> (forall g, validateRealmGrantRecord g = None -> G g) -> authenticated q \/ (forall g, G g) ->
  I (disk w) -> I (disk (perform q w)).
Proof.
  intros K HH HG Hq H. destruct q; cbn [perform]; apply keeps_snd; try done.
  - eapply keeps_Grant; [done|done|done|]. destruct Hq; auto.
  - by eapply keeps_RevokeGrant.
  - by eapply keeps_visibility.
  - by eapply keeps_policy.
  - unfold RebuildGrantAuthority. pose proof (keeps_rebuild p G Hd I K). keep.
  - by eapply keeps_Publish.
  - by eapply keeps_Activate.
  - by eapply keeps_Delete.
  - by eapply keeps_PruneAbandoned.
  - by eapply keeps_WithdrawRealmGrants.
  - by eapply keeps_TransferOwner.
Qed.

Lemma performAll_keeps G Hd I qs w : kept G Hd I -> (forall h, Hd h) -> (forall g, validateRealmGrantRecord g = None -> G g) ->
  Forall authenticated qs \/ (forall g, G g) -> I (disk w) -> I (disk (performAll qs w)).
Proof.
  intros K HH HG. unfold performAll. revert w. induction qs as [|q qs IH]; intros w Hq H; [done|]. cbn [fold_left]. apply IH.
  - destruct Hq as [Hq|]; [left; by apply Forall_cons in Hq as [_ ?]|by right].
  - eapply perform_keeps; [done|done|done| |done]. destruct Hq as [Hq|]; [left; by apply Forall_cons in Hq as [? _]|by right].
Qed.

End Histories.
