(* ===== verification/PublisherProps.v ===== *)
(** * PublisherProps: who can do what after the publisher ran

    The projection of the records into views and authz groups is exact; a revoked
    grant is gone from both; a reduction of access is published only while the
    sessions of the realm are stopped; the ownership boundary of a grant never
    moves back.  Two defects are shown as well: a projected release request makes
    every rebuild fail that would withdraw its repository, and the creation of a
    repository writes an authz file without any grant. *)
From S2P Require Import Prelude GoStrings Passport Naming ServerBase RealmRecords ClientView Publisher PublisherWorld PublisherProofs PublisherRebuild PublisherInvariants.
From Stdlib Require Import Ascii String.

Open Scope string_scope.
Open Scope go_scope.

(** ** Entitlement: what the records give one client for one repository

    [held] is the client's entry before; a mobile client keeps to those. *)
Definition mayRead (grants : gmap string RealmGrantRecord) (realm kind : string) (held : option Repository) (r : repositoryRecord) : Prop :=
  (rr_OwnerRealmID r = realm \/ exists g, grants !! grantKey (rr_RepoID r) realm = Some g) /\
  (kind = "mobile" -> rr_Purpose r = "" /\ is_Some held).

Definition mayWrite (grants : gmap string RealmGrantRecord) (realm role kind : string) (held : option Repository) (r : repositoryRecord) : Prop :=
  (rr_OwnerRealmID r = realm \/ exists g, grants !! grantKey (rr_RepoID r) realm = Some g /\ gr_Access g = "rw") /\
  role <> "ro" /\ readOnlyRepository r = false /\
  (kind = "mobile" -> rr_Purpose r = "" /\ exists q, held = Some q /\ v_Access q <> "r").

Lemma mayWrite_mayRead grants realm r held role kind : mayWrite grants realm role kind held r -> mayRead grants realm kind held r.
Proof.
  intros ([Ho|(g & Hg & _)] & _ & _ & Hmob); (split; [|intros Hkind; destruct (Hmob Hkind) as (? & q & ? & _); by eauto]);
    [by left|right; by exists g].
Qed.

Section Projection.
  Context {order : MapRange}.
  Implicit Types (grants : gmap string RealmGrantRecord) (repositories : gmap string repositoryRecord).

Definition validAccess grants : Prop := forall k g, grants !! k = Some g -> gr_Access g = "r" \/ gr_Access g = "rw".

Lemma canonicalAccess_none grants realm r : validAccess grants ->
  (canonicalAccess grants realm r = "" <-> rr_OwnerRealmID r <> realm /\ grants !! grantKey (rr_RepoID r) realm = None).
Proof.
  intros Hv. unfold canonicalAccess. case_bool_decide; [naive_solver|]. destruct (grants !! _) as [g|] eqn:E; [|naive_solver].
  split; [|naive_solver]. intros E'. destruct (Hv _ _ E); congruence.
Qed.

Lemma canonicalAccess_rw grants realm r : 
  canonicalAccess grants realm r = "rw" <->
  rr_OwnerRealmID r = realm \/ (rr_OwnerRealmID r <> realm /\ exists g, grants !! grantKey (rr_RepoID r) realm = Some g /\ gr_Access g = "rw").
Proof.
  unfold canonicalAccess. case_bool_decide; [naive_solver|]. destruct (grants !! _) as [g|] eqn:E; naive_solver.
Qed.

Lemma canonicalAccess_cases grants realm r : validAccess grants -> canonicalAccess grants realm r <> "" ->
  canonicalAccess grants realm r = "r" \/ canonicalAccess grants realm r = "rw".
Proof.
  intros Hv. unfold canonicalAccess. case_bool_decide; [auto|]. destruct (grants !! _) as [g|] eqn:E; [|done]. intros _. by eapply Hv.
Qed.

(** One repository: whether there is an entry, and its access. *)
Lemma projectRepository_spec grants realm role kind current r : validAccess grants ->
  (mayRead grants realm kind (current !! rr_RepoID r) r <->
   exists e, projectRepository grants realm role kind current r = Some e) /\
  (forall e, projectRepository grants realm role kind current r = Some e ->
     v_RepoID e = rr_RepoID r /\ (v_Access e = "r" \/ v_Access e = "rw") /\
     (v_Access e = "rw" <-> mayWrite grants realm role kind (current !! rr_RepoID r) r)).
Proof.
  intros Hv. pose proof (canonicalAccess_none grants realm r Hv) as Hn. pose proof (canonicalAccess_rw grants realm r) as Hrw.
  pose proof (canonicalAccess_cases grants realm r Hv) as Hc.
  unfold projectRepository. cbv zeta. case_bool_decide as Ha.
  { split; [|done]. split; [|by intros [? ?]]. apply Hn in Ha as [H1 H2]. unfold mayRead. rewrite H2. naive_solver. }
  assert (rr_OwnerRealmID r = realm \/ exists g, grants !! grantKey (rr_RepoID r) realm = Some g) as Hown.
  { destruct (decide (rr_OwnerRealmID r = realm)); [by left|]. destruct (grants !! _) as [g|] eqn:E; [right; by eexists|]. destruct Ha. by apply Hn. }
  assert (Hread : (kind = "mobile" -> rr_Purpose r = "" /\ is_Some (current !! rr_RepoID r)) ->
                  mayRead grants realm kind (current !! rr_RepoID r) r) by (intros; by split).
  assert (Hfin : forall a, (a = "r" \/ a = "rw") ->
            let f := (if readOnlyRepository r then "r" else if bool_decide (role = "ro") then "r" else a) in
            (f = "r" \/ f = "rw") /\ (f = "rw" <-> a = "rw" /\ role <> "ro" /\ readOnlyRepository r = false)).
  { intros a Haa. cbv zeta. destruct (readOnlyRepository r); [split; [by left|split; [done|by intros (_ & _ & ?)]]|].
    case_bool_decide; [split; [by left|split; [done|by intros (_ & ? & _)]]|]. split; [done|]. split; [by intros|by intros []]. }
  assert (Hw : canonicalAccess grants realm r = "rw" <->
               rr_OwnerRealmID r = realm \/ exists g, grants !! grantKey (rr_RepoID r) realm = Some g /\ gr_Access g = "rw").
  { rewrite Hrw. destruct (decide (rr_OwnerRealmID r = realm)); naive_solver. }
  clear Hn Hrw. destruct (match current !! rr_RepoID r with Some _ => _ | None => _ end) as [ap md].
  destruct (bool_decide_reflect (kind = "mobile")) as [Hk|Hk].
  - destruct (bool_decide_reflect (rr_Purpose r = "")) as [Hp|Hp]; cbn [negb]; [|split; [|done]; split; [intros [_ H]; by destruct (H Hk)|by intros []]].
    destruct (current !! rr_RepoID r) as [q|] eqn:Eq.
    2: { split; [|done]. split; [|by intros []]. intros [_ H]. by destruct (H Hk) as [_ []]. }
    split; [split; [by eexists|intros _; apply Hread; intros _; split; [done|by eexists]]|].
    intros e [= <-]. cbn [v_RepoID v_Access]. split; [done|].
    destruct (Hfin (if bool_decide (v_Access q = "r") then "r" else canonicalAccess grants realm r)) as [H1 H2];
      [destruct (bool_decide (v_Access q = "r")); [by left|by apply (Hc Ha)]|].
    split; [done|]. rewrite H2. unfold mayWrite. rewrite <- Hw. clear Hfin H1 H2. destruct (bool_decide_reflect (v_Access q = "r")) as [Hq|Hq].
    + split; [by intros []|]. intros (_ & _ & _ & H). destruct (H Hk) as (_ & q' & [= <-] & ?). done.
    + split; [|by intros (? & ? & ? & _)]. intros (? & ? & ?). split_and!; [done..|]. intros _. split; [done|]. by exists q.
  - split; [split; [by eexists|intros _; apply Hread; by intros]|].
    intros e [= <-]. cbn [v_RepoID v_Access]. split; [done|]. destruct (Hfin (canonicalAccess grants realm r) (Hc Ha)) as [H1 H2].
    split; [done|]. rewrite H2. unfold mayWrite. rewrite <- Hw. naive_solver.
Qed.

(** ** The whole projection *)
Lemma projected_In repositories grants realm role kind current e :
  In e (projectedRepositories repositories grants realm role kind current) <->
  exists id r, repositories !! id = Some r /\ projectRepository grants realm role kind (byRepo current) r = Some e.
Proof.
  unfold projectedRepositories. rewrite <- list_elem_of_In, merge_sort_Permutation, list_elem_of_omap. split.
  - intros ([id r] & Hin & He). exists id, r. split; [|done]. by apply mapRange_lookup, list_elem_of_In.
  - intros (id & r & Hin & He). exists (id, r). split; [|done]. by apply list_elem_of_In, mapRange_lookup.
Qed.

Lemma projectRepository_id grants realm role kind current r e :
  projectRepository grants realm role kind current r = Some e -> v_RepoID e = rr_RepoID r.
Proof.
  unfold projectRepository. cbv zeta. case_bool_decide; [done|].
  destruct (match current !! rr_RepoID r with Some _ => _ | None => _ end) as [ap md].
  repeat case_match; intros; simplify_eq; done.
Qed.

Lemma omap_NoDup_ids grants realm role kind current (l : list (string * repositoryRecord)) :
  (forall id r, In (id, r) l -> rr_RepoID r = id) -> NoDup (List.map fst l) ->
  NoDup (List.map v_RepoID (omap (fun kv => projectRepository grants realm role kind current (snd kv)) l)).
Proof.
  induction l as [|[id r] l IH]; intros Hk Hnd; [constructor|]. cbn [List.map fst] in Hnd. apply NoDup_cons in Hnd as [Hni Hnd].
  cbn [omap list_omap snd]. specialize (IH (fun i x H => Hk i x (or_intror H)) Hnd).
  destruct (projectRepository _ _ _ _ _ r) as [e|] eqn:E; [|done]. cbn [List.map]. constructor; [|done].
  rewrite (projectRepository_id _ _ _ _ _ _ _ E), (Hk id r) by by left.
  rewrite list_elem_of_In, in_map_iff. intros (e' & He' & Hin). rewrite <- list_elem_of_In, list_elem_of_omap in Hin.
  destruct Hin as ([id' r'] & Hin & Hp). apply list_elem_of_In in Hin. cbn [snd] in Hp.
  apply projectRepository_id in Hp. rewrite (Hk id' r') in Hp by by right. destruct Hni. rewrite list_elem_of_In, in_map_iff.
  exists (id', r'). cbn. split; [congruence|done].
Qed.

Lemma projected_NoDup repositories grants realm role kind current : keyed repositories ->
  NoDup (List.map v_RepoID (projectedRepositories repositories grants realm role kind current)).
Proof.
  intros Hk. unfold projectedRepositories. rewrite merge_sort_Permutation. apply omap_NoDup_ids; [|apply mapRange_NoDup].
  intros id r Hin%mapRange_lookup. by apply Hk.
Qed.

Lemma accessesOf_fold l (m : gmap string string) rid : NoDup (List.map v_RepoID l) ->
  (forall e, In e l -> v_RepoID e = rid -> fold_left (fun m r => <[v_RepoID r := v_Access r]> m) l m !! rid = Some (v_Access e)) /\
  (~ In rid (List.map v_RepoID l) -> fold_left (fun m r => <[v_RepoID r := v_Access r]> m) l m !! rid = m !! rid).
Proof.
  revert m. induction l as [|r l IH]; intros m Hnd; cbn [fold_left List.map] in *; [done|].
  apply NoDup_cons in Hnd as [Hni Hnd]. rewrite list_elem_of_In in Hni. destruct (IH (<[v_RepoID r:=v_Access r]> m) Hnd) as [H1 H2]. split.
  - intros e [<-|Hin] He; [|by apply H1]. rewrite H2 by (by rewrite <- He). rewrite He. apply lookup_insert_eq.
  - intros Hn. rewrite H2 by (intros ?; apply Hn; by right). apply lookup_insert_ne. intros E. apply Hn. by left.
Qed.

Lemma accessesOf_lookup l rid a : NoDup (List.map v_RepoID l) ->
  (accessesOf l !! rid = Some a <-> exists e, In e l /\ v_RepoID e = rid /\ v_Access e = a).
Proof.
  intros Hnd. destruct (accessesOf_fold l ∅ rid Hnd) as [H1 H2]. unfold accessesOf. split.
  - intros Ha. destruct (decide (rid ∈ List.map v_RepoID l)) as [Hin|Hn].
    + apply list_elem_of_In, in_map_iff in Hin as (e & He & Hin). exists e. split_and!; [done..|]. specialize (H1 e Hin He). congruence.
    + rewrite H2 in Ha by (by rewrite <- list_elem_of_In). by rewrite lookup_empty in Ha.
  - intros (e & Hin & He & <-). by apply H1.
Qed.

Lemma members_In g clients effective repo rid id :
  In id (members g clients effective repo rid) <->
  exists acc, effective !! id = Some acc /\ groupOf clients repo rid id acc = Some g.
Proof.
  unfold members. rewrite <- list_elem_of_In, merge_sort_Permutation, list_elem_of_In, in_map_iff. split.
  - intros ([id' acc] & <- & Hin). apply filter_In in Hin as [Hin Hg]. apply bool_decide_eq_true in Hg.
    apply mapRange_lookup in Hin. by exists acc.
  - intros (acc & He & Hg). exists (id, acc). split; [done|]. apply filter_In. split; [by apply mapRange_lookup|].
    cbn. by apply bool_decide_eq_true.
Qed.

(** The group of a client with accesses [acc] is decided by its access. *)
Lemma groupOf_spec clients repo rid id (acc : gmap string string) :
  (forall a, acc !! rid = Some a -> a = "r" \/ a = "rw") -> (acc !! rid = Some "rw" -> readOnlyRepository repo = false) ->
  ((groupOf clients repo rid id acc = Some GOwner \/ groupOf clients repo rid id acc = Some GWriter) <-> acc !! rid = Some "rw") /\
  (groupOf clients repo rid id acc = Some GReader <-> acc !! rid = Some "r").
Proof.
  intros Ha Hro. unfold groupOf. destruct (acc !! rid) as [a|]; cbn.
  2: { split; split; try done. by intros [?|?]. }
  destruct (Ha a eq_refl) as [-> | ->].
  - cbn. split; split; try done. by intros [?|?].
  - rewrite Hro by done. change (bool_decide ("rw" = "")) with false. change (bool_decide ("rw" = "r")) with false. cbn [orb].
    destruct (bool_decide _); split; split; try done; auto.
Qed.

End Projection.

Section Effects.
  Context {W : Type} {ids : Ids} {tables : UnicodeTables} {urls : Urls} {order : MapRange} {text : UuidText}.
  Context {mortal : Mortal W} {records : Records W} {files : ViewFiles W} {service : Service W} {honest : HonestDisk W}.
  Variable p : ServicePublisher.

Lemma valid_active_access g : validateRealmGrantRecord g = None -> gr_State g = "active" -> gr_Access g = "r" \/ gr_Access g = "rw".
Proof.
  unfold validateRealmGrantRecord. intros H Ha. rewrite (bool_decide_eq_true_2 (gr_State g = "active")) in H by done.
  autorewrite with filees in H. destruct H as (_ & _ & _ & _ & _ & _ & _ & H & _).
  apply orb_true_iff in H as [H|H]; apply bool_decide_eq_true in H; auto.
Qed.

Lemma model_validAccess d repositories grants clients : modelOf d repositories grants clients -> validAccess grants.
Proof.
  intros Hm k g Hk. apply valid_active_access; [by eapply mo_valid|]. by apply (mo_grants _ _ _ _ Hm) in Hk as (_ & ? & _).
Qed.

Lemma model_keyed d repositories grants clients : modelOf d repositories grants clients -> keyed repositories.
Proof. intros Hm id r Hi. by apply (mo_repos _ _ _ _ Hm) in Hi as (_ & ? & _). Qed.

(** The view [v'] and the authz groups give the client exactly what the records
    entitle it to, given the view [v] it had. *)
Definition exactFor (repositories : gmap string repositoryRecord) (grants : gmap string RealmGrantRecord)
    (clients : gmap string canonicalGrantClient) (effective : gmap string (gmap string string)) (id : string) (c : canonicalGrantClient)
    (v v' : View) : Prop :=
  forall rid r, repositories !! rid = Some r ->
    let held := byRepo (vw_Repositories v) !! rid in
    let read := mayRead grants (gc_RealmID c) (gc_Kind c) held r in
    let write := mayWrite grants (gc_RealmID c) (vw_ClientRole v) (gc_Kind c) held r in
    ((exists e, In e (vw_Repositories v') /\ v_RepoID e = rid) <-> read) /\
    ((exists e, In e (vw_Repositories v') /\ v_RepoID e = rid /\ v_Access e = "rw") <-> write) /\
    ((In id (members GOwner clients effective r rid) \/ In id (members GWriter clients effective r rid)) <-> write) /\
    (In id (members GReader clients effective r rid) <-> read /\ ~ write).

Lemma projected_exact d d' repositories grants clients effective id c : projected p d d' repositories grants clients effective ->
  clients !! id = Some c -> exists v v',
    d_views d !! viewPath p id = Some v /\ d_views d' !! viewPath p id = Some v' /\
    refreshed repositories grants c v v' /\ exactFor repositories grants clients effective id c v v'.
Proof.
  intros (Hm & _ & _ & _ & _ & Hcl & He) Hc. destruct (Hcl id c Hc) as (v & v' & Hv & Hv' & Href). exists v, v'. split_and!; [done..|].
  intros rid r Hr held read write. pose proof (model_validAccess _ _ _ _ Hm) as Hva. pose proof (model_keyed _ _ _ _ Hm) as Hk.
  pose proof Href as (_ & _ & _ & _ & _ & _ & _ & Hs).
  assert (Hrep : vw_Repositories v' = projectedRepositories repositories grants (gc_RealmID c) (vw_ClientRole v) (gc_Kind c) (vw_Repositories v)).
  { unfold vw_Repositories at 1. by rewrite Hs, appended_default. }
  destruct (projectRepository_spec grants (gc_RealmID c) (vw_ClientRole v) (gc_Kind c) (byRepo (vw_Repositories v)) r Hva) as [Hex Hac].
  rewrite (Hk _ _ Hr) in Hex, Hac.
  assert (Hent : forall e, (In e (vw_Repositories v') /\ v_RepoID e = rid) <->
            projectRepository grants (gc_RealmID c) (vw_ClientRole v) (gc_Kind c) (byRepo (vw_Repositories v)) r = Some e).
  { intros e. rewrite Hrep, projected_In. split.
    - intros [(id' & r' & Hr' & Hp) Hid]. pose proof (projectRepository_id _ _ _ _ _ _ _ Hp) as Hi. rewrite (Hk _ _ Hr') in Hi.
      assert (r' = r) as -> by congruence. done.
    - intros Hp. split; [by exists rid, r|]. by apply Hac. }
  assert (Hr1 : (exists e, In e (vw_Repositories v') /\ v_RepoID e = rid) <-> read).
  { unfold read, held. rewrite Hex. split; intros [e He']; exists e; by apply Hent. }
  assert (Hw1 : (exists e, In e (vw_Repositories v') /\ v_RepoID e = rid /\ v_Access e = "rw") <-> write).
  { split.
    - intros (e & Hin & Hid & Ha). apply (Hac e); [by apply Hent|done].
    - intros Hw. assert (read) as Hrd by by eapply mayWrite_mayRead.
      apply Hr1 in Hrd as (e & Hin & Hid). exists e. split_and!; [done..|]. apply (Hac e); [by apply Hent|done]. }
  assert (Hnd : NoDup (List.map v_RepoID (vw_Repositories v'))) by (rewrite Hrep; by apply projected_NoDup).
  assert (Heff : effective !! id = Some (accessesOf (vw_Repositories v'))).
  { rewrite He. unfold viewAccesses. rewrite map_lookup_imap, Hc. cbn [mbind option_bind]. by rewrite Hv'. }
  set (acc := accessesOf (vw_Repositories v')) in *.
  assert (Haw : acc !! rid = Some "rw" <-> write) by (unfold acc; by rewrite accessesOf_lookup by done).
  assert (Har : (exists a, acc !! rid = Some a) <-> read).
  { rewrite <- Hr1. unfold acc. split.
    - intros [a (e & ? & ? & _)%accessesOf_lookup]; [by exists e|done].
    - intros (e & ? & ?). exists (v_Access e). apply accessesOf_lookup; [done|]. by exists e. }
  assert (Hcase : forall a, acc !! rid = Some a -> a = "r" \/ a = "rw").
  { intros a (e & Hin & Hid & <-)%accessesOf_lookup; [|done]. apply (Hac e). by apply Hent. }
  destruct (groupOf_spec clients r rid id acc Hcase) as [Hg1 Hg2]; [intros Hx%Haw; apply Hx|].
  split_and!; [done|done| |].
  - rewrite !members_In, <- Haw, <- Hg1. rewrite Heff. split.
    + intros [(a & [= <-] & ?)|(a & [= <-] & ?)]; auto.
    + intros [?|?]; [left|right]; by exists acc.
  - rewrite members_In, <- Haw, <- Har. split.
    + intros (a & Ha & Hg). rewrite Heff in Ha. injection Ha as <-. apply Hg2 in Hg. rewrite Hg. split; [by eexists|done].
    + intros [[a Ha] Hn]. exists acc. split; [done|]. apply Hg2. destruct (Hcase a Ha) as [-> | ->]; done.
Qed.

(** C11. Whoever rebuilds: on success every active client's view and its place in
    the authz groups are exactly what the canonical records on the disk entitle it
    to, whatever the views and the authz file said before. *)
Theorem rebuild_exact w paths w' : wellNamed p (disk w) -> rebuildGrantAuthority p w = (Some (Ok paths), w') ->
  exists repositories grants clients effective,
    modelOf (disk w') repositories grants clients /\
    d_authz (disk w') !! pb_DataAuthzFile p = Some (renderCanonicalGrantAuthz repositories clients effective) /\
    forall id c, clients !! id = Some c -> exists v v',
      d_views (disk w) !! viewPath p id = Some v /\ d_views (disk w') !! viewPath p id = Some v' /\
      refreshed repositories grants c v v' /\ exactFor repositories grants clients effective id c v v'.
Proof.
  intros Hw E. destruct (triple_elim _ _ _ _ _ _ (t_rebuild p (disk w) Hw) E _ eq_refl) as (repositories & grants & clients & effective & Hp & Ha).
  exists repositories, grants, clients, effective. split_and!; [apply Hp|done|]. intros id c Hc. by eapply projected_exact.
Qed.

(** ** Along every history *)

(** The stored view of a client only advances. *)
Definition advanced (v v' : View) : Prop :=
  v' = v \/ (vw_ClientID v' = vw_ClientID v /\ vw_RealmID v' = vw_RealmID v /\ (vw_Generation v < vw_Generation v')%Z /\ Validate v' = None).

Lemma advanced_trans a b c : advanced a b -> advanced b c -> advanced a c.
Proof.
  intros H [->|(H1 & H2 & H3 & H4)]; [done|]. destruct H as [->|(H5 & H6 & H7 & _)]; right; [done|]. split_and!; [congruence|congruence|lia|done].
Qed.

Definition viewsSince (d0 d : Disk) : Prop :=
  forall path v, d_views d0 !! path = Some v -> exists v', d_views d !! path = Some v' /\ advanced v v'.

Lemma viewsSince_kept d0 : kept (fun _ => True) (fun _ => True) (viewsSince d0).
Proof.
  split; try done. intros path v d [Hv Hn] H path' u Hu. destruct (H path' u Hu) as (u' & Hu' & Ha).
  destruct (decide (path' = path)) as [->|Hne]; [|exists u'; split; [|done]; cbn; by rewrite lookup_insert_ne].
  exists v. split; [apply lookup_insert_eq|]. eapply advanced_trans; [exact Ha|].
  destruct Hn as [Hn|(cur & Hc & ? & ? & ?)]; [congruence|]. rewrite Hu' in Hc. injection Hc as <-. right. done.
Qed.

(** C14. Over any sequence of publisher requests, each finished, failed or cut off
    by the death of the process, the stored view of a client is never lost, keeps
    its client and realm, and changes only to a valid view of a higher generation:
    effective permissions are not rolled back. *)
Theorem views_never_roll_back (qs : list request) w path v :
  d_views (disk w) !! path = Some v -> exists v', d_views (disk (performAll p qs w)) !! path = Some v' /\ advanced v v'.
Proof.
  revert path v. apply (performAll_keeps p (fun _ => True) (fun _ => True) (viewsSince (disk w)) qs w (viewsSince_kept _)); [done|done|by right|].
  intros path v Hv. exists v. split; [done|by left].
Qed.

Definition grantsValid (d : Disk) : Prop := forall path g, d_grants d !! path = Some g -> validateRealmGrantRecord g = None.

Lemma grantsValid_kept : kept (fun g => validateRealmGrantRecord g = None) (fun _ => True) grantsValid.
Proof.
  split; try done. intros path g d Hg H path' g'. cbn.
  intros [[_ <-]|[_ Hl]]%lookup_insert_Some; [done|by eapply H].
Qed.

(** C24. The canonical grants are well typed at all times: over any sequence of
    publisher requests by authenticated realms, every grant record on the disk
    validates. *)
Theorem grants_well_typed (qs : list request) w :
  Forall authenticated qs -> (forall path g, d_grants (disk w) !! path = Some g -> validateRealmGrantRecord g = None) ->
  forall path g, d_grants (disk (performAll p qs w)) !! path = Some g -> validateRealmGrantRecord g = None.
Proof.
  intros Hq H. apply (performAll_keeps p _ _ grantsValid qs w grantsValid_kept); [done|done|by left|done].
Qed.

(** ** Reading steps *)
Lemma t_loadActive (D : Disk -> Prop) d wc id : D d ->
  triple D d (loadActiveRepository (W := W) wc id) (fun r d' => d' = d /\ forall repo, r = Ok repo ->
    (exists path, d_repos d !! path = Some repo) /\ rr_RepoID repo = id).
Proof.
  intros H. unfold loadActiveRepository. destruct (repositoryRecordPath wc id) as [path|]; [|by apply triple_ret].
  eapply triple_bind; [by apply t_repository|]. intros [r|e] d' [-> Hr]; [|by apply triple_ret].
  destruct (_ || _) eqn:E; [by apply triple_ret|]. apply orb_false_iff in E as [E _]. apply orb_false_iff in E as [_ E].
  apply negb_false_iff, bool_decide_eq_true in E.
  eapply triple_bind; [by apply t_archive|]. intros [e|] d' ->; apply triple_ret; split; try done. intros ? [= <-]. split; [by exists path|done].
Qed.

Lemma triple_true {A} d (m : MC W A) : triple (fun _ => True) d m (fun _ _ => True).
Proof. intros w _. unfold wpc. by destruct (m w) as [[a|] w']. Qed.

Lemma t_grantable (D : Disk -> Prop) d owner recipient repoID access : D d ->
  triple D d (grantable (W := W) p owner recipient repoID access) (fun _ d' => d' = d).
Proof.
  intros H. unfold grantable. apply triple_orElse; [done|]. intros _. eapply triple_bind; [by apply t_loadActive|].
  intros [r|e] d' [-> _]; [|by apply triple_ret]. destruct (negb _); [by apply triple_ret|]. destruct (_ && _); [by apply triple_ret|].
  eapply triple_bind; [by apply t_realm|]. intros r' d' [-> _]. by apply triple_ret.
Qed.

(** ** The session barrier *)

(** The writes since [base] all happened while the sessions of [realm] were stopped. *)
Definition fenced (realm : string) (base : list (option string * string)) (d : Disk) : Prop :=
  exists new, d_writes d = (new ++ base)%list /\ Forall (fun ev => fst ev = Some realm) new.

Lemma fenced_logged realm base path d : d_held d = Some realm -> fenced realm base d -> fenced realm base (logged path d).
Proof. intros Hh (new & Hn & Hf). exists ((d_held d, path) :: new). cbn. rewrite Hn. split; [done|]. by constructor. Qed.

Definition inside (realm : string) (base : list (option string * string)) (d : Disk) : Prop :=
  d_held d = Some realm /\ fenced realm base d.

Lemma inside_logged realm base path d : inside realm base d -> inside realm base (logged path d).
Proof. intros [Hh Hf]. split; [done|]. by apply fenced_logged. Qed.

Lemma inside_kept realm base : kept (fun _ => True) (fun _ => False) (inside realm base).
Proof.
  split; [intros path r d H|intros path g d _ H|intros path r d H|intros path v d _ H|intros path s d H|by intros h d []];
    apply inside_logged; destruct H; by split.
Qed.

Lemma triple_weaken {A} (D D' : Disk -> Prop) d (m : MC W A) Q : (forall d, D d -> D' d) -> triple D d m Q -> triple D' d m Q.
Proof. intros Hi Ht w Hw. specialize (Ht w Hw). unfold wpc in *. destruct (m w) as [[a|] w']; auto. Qed.

(** What only writes inside the barrier is fenced. *)
Lemma keeps_fenced realm base (m : MC W (option serr)) : keeps (inside realm base) m ->
  keeps (fenced realm base) (withRealmSessionsStopped (W := W) realm m).
Proof.
  intros Hm d H. unfold withRealmSessionsStopped.
  eapply triple_bind with (R := fun e d' => match e with None => inside realm base d' | Some _ => fenced realm base d' end).
  { apply triple_ask; [done|]. intros w Hw. rewrite hd_stop, Hw. by destruct (sv_stopSessions realm w).1. }
  intros [e|] d' H'; cbn [orElse]; [by apply triple_ret|].
  eapply triple_bind; [apply (triple_weaken (inside realm base)); [by intros x [_ ?]|by apply Hm]|]. intros e d1 [_ H1].
  eapply triple_bind with (R := fun _ d' => fenced realm base d').
  - apply triple_ask; [done|]. intros w Hw. by rewrite hd_resume, Hw.
  - intros _ d2 H2. by apply triple_ret.
Qed.

Lemma publishGrant_fenced realm base path g m : keeps (fenced realm base) (withRealmSessionsStopped (W := W) realm (publishGrant p path g m)).
Proof. apply keeps_fenced. eapply keeps_publishGrant; [apply inside_kept|done]. Qed.

#[local] Hint Resolve publishGrant_fenced : filees.

Lemma fenced_loadActive realm base wc id : keeps (fenced realm base) (loadActiveRepository (W := W) wc id).
Proof. unfold loadActiveRepository. keep. Qed.

Lemma fenced_planGrant realm base old owner recipient repoID access stamp :
  keeps (fenced realm base) (planGrant (W := W) p old owner recipient repoID access stamp).
Proof. unfold planGrant, headBoundary. keep. Qed.

#[local] Hint Resolve fenced_loadActive fenced_planGrant : filees.

Lemma planGrant_reducing d D old owner recipient repoID stamp : D d ->
  triple D d (planGrant (W := W) p (Ok old) owner recipient repoID "r" stamp)
    (fun r d' => d' = d /\ match r with Ok (WriteGrant reducing _) => reducing = true | _ => True end).
Proof.
  intros H. unfold planGrant. cbv zeta. destruct (_ || _); [by apply triple_ret|]. destruct (_ && negb _); [by apply triple_ret|].
  change (bool_decide ("r" = "rw")) with false. cbn [andb]. by apply triple_ret.
Qed.

(** C13. Access is taken away only while the sessions of the realm are stopped:
    every file a revocation writes, and every file a read grant writes when a
    grant of that realm already exists, is written inside the barrier, whatever
    the outcome, also if the process dies. *)
Theorem reduction_inside_barrier owner recipient repoID w :
  fenced recipient (d_writes (disk w)) (disk (RevokeGrant p owner recipient repoID w).2) /\
  (forall path, realmGrantPath (pb_ServiceWC p) repoID recipient = Ok path -> path ∈ d_names (disk w) ->
     fenced recipient (d_writes (disk w)) (disk (Grant p owner recipient repoID "r" w).2)).
Proof.
  assert (Hw : fenced recipient (d_writes (disk w)) (disk w)) by by exists []. split.
  - apply keeps_snd; [|done]. unfold RevokeGrant. keep.
  - intros path Hp Hn.
    set (D := fun d => fenced recipient (d_writes (disk w)) d).
    enough (triple D (disk w) (Grant (W := W) p owner recipient repoID "r") (fun _ d => D d)) as Ht.
    { destruct (Grant p owner recipient repoID "r" w) as [o w'] eqn:E. pose proof (triple_elim _ _ _ _ _ _ Ht E). by destruct o. }
    unfold Grant. eapply triple_bind; [by apply t_grantable|].
    intros [e|] d' ->; [by apply triple_ret|]. rewrite Hp.
    eapply triple_bind; [by apply t_now|]. intros stamp d' ->.
    eapply triple_bind; [by apply t_grant|]. intros [old|e] d' [-> Ha].
    + eapply triple_bind; [by apply planGrant_reducing|]. intros r d' [-> Hr]. destruct r as [[|reducing g]|]; [by apply triple_ret| |by apply triple_ret].
      subst reducing. eapply triple_bind with (R := fun _ d' => D d').
      * destruct (negb _); [by apply triple_ret|]. by apply publishGrant_fenced.
      * intros e d' H'. by apply triple_ret.
    + unfold planGrant. destruct (serr_is ENotExist e) eqn:Ee; [by destruct (Ha Ee)|]. cbn [negb].
      eapply triple_bind with (R := fun r d' => d' = disk w /\ exists e, r = Err e); [apply triple_ret; eauto|].
      intros r d' [-> [e' ->]]. by apply triple_ret.
Qed.

(** ** Revocation *)
(** What is known of a revocation when it comes to its publication. *)
Record revoking (d : Disk) (owner recipient repoID path : string) (repo : repositoryRecord) (g : RealmGrantRecord) : Prop := {
  rv_repo : exists q, d_repos d !! q = Some repo;
  rv_id : rr_RepoID repo = repoID;
  rv_owner : rr_OwnerRealmID repo = owner;
  rv_path : realmGrantPath (pb_ServiceWC p) repoID recipient = Ok path;
  rv_self : owner <> recipient;
  rv_grant : exists old, d_grants d !! path = Some old /\ gr_RepoID g = gr_RepoID old /\ gr_RecipientRealmID old = recipient;
  rv_recipient : gr_RecipientRealmID g = recipient;
  rv_state : gr_State g = "revoked"
}.

Lemma t_RevokeGrant (D : Disk -> Prop) d owner recipient repoID (Q : result serr RealmGrantRecord -> Disk -> Prop) : D d ->
  (forall e d', D d' -> Q (Err e) d') ->
  (forall path repo g m, revoking d owner recipient repoID path repo g ->
     triple D d (withRealmSessionsStopped (W := W) recipient (publishGrant p path g m))
       (fun e d' => match e with None => Q (Ok g) d' | Some e => Q (Err e) d' end)) ->
  triple D d (RevokeGrant (W := W) p owner recipient repoID) Q.
Proof.
  intros H HE Hk. unfold RevokeGrant. destruct (validateGrantPublisher p); [by apply triple_ret, HE|].
  eapply triple_bind; [by apply t_loadActive|]. intros [repo|e] d' [-> Hr]; [|by apply triple_ret, HE]. destruct (Hr _ eq_refl) as [Hq Hid].
  destruct (bool_decide_reflect (rr_OwnerRealmID repo = owner)) as [Hown|]; cbn [negb]; [|by apply triple_ret, HE].
  destruct (realmGrantPath _ _ _) as [path|] eqn:Ep; [|by apply triple_ret, HE].
  eapply triple_bind; [by apply t_grant|]. intros [old|e] d' [-> Ho]; [|by apply triple_ret, HE]. cbn [answers] in Ho.
  destruct (validateRealmGrantRecord old) eqn:Hv; [rewrite bool_decide_eq_true_2 by done; by apply triple_ret, HE|].
  rewrite (bool_decide_eq_false_2 (is_Some None)) by by intros []. cbn [orb].
  destruct (bool_decide_reflect (gr_OwnerRealmID old = owner)) as [Ho1|]; cbn [negb orb]; [|by apply triple_ret, HE].
  destruct (bool_decide_reflect (gr_RecipientRealmID old = recipient)) as [Ho2|]; cbn [negb]; [|by apply triple_ret, HE].
  destruct (negb _); [by apply triple_ret, HE|].
  assert (owner <> recipient) as Hself.
  { unfold validateRealmGrantRecord in Hv. autorewrite with filees in Hv. destruct Hv as (_ & _ & _ & _ & _ & _ & Hv & _).
    apply negb_true_iff, bool_decide_eq_false in Hv. congruence. }
  eapply triple_bind with (R := fun g d' => d' = d /\ gr_State g = "revoked" /\ gr_RepoID g = gr_RepoID old /\ gr_RecipientRealmID g = recipient).
  { destruct (bool_decide_reflect (gr_State old = "revoked")); [by apply triple_ret|].
    eapply triple_bind; [by apply t_now|]. intros t d' ->. by apply triple_ret. }
  intros g d' (-> & Hs & Hrid & Hrec). eapply triple_bind.
  - apply (Hk path repo g). split; try done. by exists old.
  - intros [e|] d' HQ; by apply triple_ret.
Qed.

Lemma revoking_wellNamed d owner recipient repoID path repo g h : wellNamed p d -> revoking d owner recipient repoID path repo g ->
  wellNamed p (setGrant path g (setHeld h d)) /\ gr_RepoID g = repoID.
Proof.
  intros Hw Hr. destruct (rv_grant _ _ _ _ _ _ _ Hr) as (old & Hold & Hid & Hrec). pose proof (wn_grants _ _ Hw _ _ Hold) as Hp.
  destruct (wn_slash _ _ Hw _ _ Hold) as [Hs1 Hs2]. rewrite Hrec in Hp, Hs2.
  assert (hasByte repoID "/" = false) as Hs.
  { destruct (rv_repo _ _ _ _ _ _ _ Hr) as [q Hq%(wn_repos _ _ Hw)]. rewrite (rv_id _ _ _ _ _ _ _ Hr) in Hq. by apply recordPath_Ok in Hq as (_ & ? & _). }
  assert (gr_RepoID g = repoID) as Hg.
  { rewrite Hid. eapply grantPath_inj; [exact Hs1|exact Hs|exact Hs2|exact Hp|apply (rv_path _ _ _ _ _ _ _ Hr)]. }
  split; [|done]. apply wellNamed_setGrant; [by apply wellNamed_setHeld| |by rewrite Hg|by rewrite (rv_recipient _ _ _ _ _ _ _ Hr)].
  rewrite Hg, (rv_recipient _ _ _ _ _ _ _ Hr). apply (rv_path _ _ _ _ _ _ _ Hr).
Qed.

(** Nothing in the records entitles the realm to the repository any more. *)
Lemma revoked_unreadable d d2 owner recipient repoID path repo g h repositories grants clients effective r kind held :
  wellNamed p d -> revoking d owner recipient repoID path repo g ->
  projected p (setGrant path g (setHeld h d)) d2 repositories grants clients effective -> repositories !! repoID = Some r ->
  ~ mayRead grants recipient kind held r.
Proof.
  intros Hw Hr (Hm & Hw2 & Hown & Hg & _) Hrep [[Ho|[g' Hg']] _].
  - destruct (rv_repo _ _ _ _ _ _ _ Hr) as [q Hq]. apply (mo_repos _ _ _ _ Hm) in Hrep as ((q' & Hq') & Hid & _).
    destruct (Hown _ _ Hq') as (r0 & Hr0 & s & x & -> & _). cbn in Hid, Ho.
    assert (r0 = repo) as ->.
    { pose proof (wn_repos _ _ Hw _ _ Hr0) as E1. pose proof (wn_repos _ _ Hw _ _ Hq) as E2.
      rewrite Hid in E1. rewrite (rv_id _ _ _ _ _ _ _ Hr), E1 in E2. injection E2 as <-. cbn in Hr0. congruence. }
    apply (rv_self _ _ _ _ _ _ _ Hr). by rewrite <- (rv_owner _ _ _ _ _ _ _ Hr).
  - assert (rr_RepoID r = repoID) as Hid by (by apply (mo_repos _ _ _ _ Hm) in Hrep as (_ & ? & _)).
    rewrite Hid in Hg'. apply (mo_grants _ _ _ _ Hm) in Hg' as ((q & Hq) & Ha & Hk).
    pose proof (wn_grants _ _ Hw2 _ _ Hq) as Hp. pose proof (rv_path _ _ _ _ _ _ _ Hr) as Hpath.
    destruct (grantPath_Ok _ _ _ _ Hp) as (? & ? & _), (grantPath_Ok _ _ _ _ Hpath) as (? & ? & _).
    apply uuid_key in Hk as [E1 E2]; [|done..]. rewrite <- E1, <- E2, Hpath in Hp. injection Hp as <-.
    rewrite Hg in Hq. cbn in Hq. rewrite lookup_insert_eq in Hq. injection Hq as <-. by rewrite (rv_state _ _ _ _ _ _ _ Hr) in Ha.
Qed.

Lemma t_revoke_published d owner recipient repoID path repo g m : wellNamed p d -> revoking d owner recipient repoID path repo g ->
  triple (fun _ => True) d (withRealmSessionsStopped (W := W) recipient (publishGrant p path g m))
    (fun e d' => e = None -> exists repositories grants clients effective,
       projected p (setGrant path g (setHeld (Some recipient) d)) d' repositories grants clients effective /\
       d_authz d' !! pb_DataAuthzFile p = Some (renderCanonicalGrantAuthz repositories clients effective)).
Proof.
  intros Hw Hr. unfold withRealmSessionsStopped. destruct (revoking_wellNamed _ _ _ _ _ _ _ (Some recipient) Hw Hr) as [Hw' _].
  eapply triple_bind with (R := fun e d' => e = None -> d' = setHeld (Some recipient) d).
  { apply triple_ask; [done|]. intros w <-. rewrite hd_stop. by intros ->. }
  intros [e|] d1 Hd1; cbn [orElse]; [by apply triple_ret|]. rewrite (Hd1 eq_refl).
  eapply triple_bind; [by apply t_publishGrant|]. intros e d2 H2. cbn beta in H2.
  eapply triple_bind with (R := fun _ d' => d' = setHeld None d2).
  { apply triple_ask; [done|]. intros w <-. apply hd_resume. }
  intros _ d3 ->. apply triple_ret. intros He. destruct (H2 He) as (repositories & grants & clients & effective & Hp & Ha).
  exists repositories, grants, clients, effective. split; [|exact Ha].
  apply (projected_setHeld p _ _ (Some recipient) None). exact Hp.
Qed.

(** No active client of the realm has the repository in its view, or its name in
    one of the repository's authz groups. *)
Definition withdrawn (d : Disk) (realm repoID : string) : Prop :=
  exists repositories clients effective,
    d_authz d !! pb_DataAuthzFile p = Some (renderCanonicalGrantAuthz repositories clients effective) /\
    forall id c, clientFact d id c -> gc_RealmID c = realm ->
      (exists v, d_views d !! viewPath p id = Some v /\ forall e, In e (vw_Repositories v) -> v_RepoID e <> repoID) /\
      (forall r grp, repositories !! repoID = Some r -> ~ In id (members grp clients effective r repoID)).

(** C12. A revocation that answers success is complete: the record on the disk is
    the revoked one, and no active client of the realm has the repository in its
    view or its name in any of the repository's authz groups. *)
Theorem revocation_takes_effect owner recipient repoID w g w' : wellNamed p (disk w) ->
  RevokeGrant p owner recipient repoID w = (Some (Ok g), w') ->
  gr_State g = "revoked" /\ (exists path, realmGrantPath (pb_ServiceWC p) repoID recipient = Ok path /\ d_grants (disk w') !! path = Some g) /\
  withdrawn (disk w') recipient repoID.
Proof.
  intros Hw E. pose proof (fun Q H1 H2 => triple_elim _ _ Q _ _ _ (t_RevokeGrant (fun _ => True) (disk w) owner recipient repoID Q I H1 H2) E) as Ht.
  refine (Ht (fun r d' => forall g, r = Ok g -> gr_State g = "revoked" /\
    (exists path, realmGrantPath (pb_ServiceWC p) repoID recipient = Ok path /\ d_grants d' !! path = Some g) /\
    withdrawn d' recipient repoID) _ _ g eq_refl); [done|].
  clear Ht E w' g. intros path repo g m Hr. eapply triple_mono; [by apply (t_revoke_published _ owner recipient repoID path repo g)|]. intros [e|] d' Hd'; [done|].
  intros g' [= <-]. destruct (Hd' eq_refl) as (repositories & grants & clients & effective & Hp & Ha). pose proof Hp as (Hm & _ & _ & Hg & _).
  split; [apply (rv_state _ _ _ _ _ _ _ Hr)|]. split.
  { exists path. split; [apply (rv_path _ _ _ _ _ _ _ Hr)|]. rewrite Hg. apply lookup_insert_eq. }
  exists repositories, clients, effective. split; [done|]. intros id c Hc Hrealm. apply (mo_clients _ _ _ _ Hm) in Hc.
  destruct (projected_exact _ _ _ _ _ _ _ _ Hp Hc) as (v & v' & _ & Hv' & Href & Hex).
  assert (Hno : forall r kind held, repositories !! repoID = Some r -> ~ mayRead grants (gc_RealmID c) kind held r).
  { intros r kind held Hrep. rewrite Hrealm. by eapply revoked_unreadable. }
  split.
  - exists v'. split; [done|]. intros e Hin Hid.
    pose proof Href as (_ & _ & _ & _ & _ & _ & _ & Hs). pose proof Hin as Hin'. unfold vw_Repositories in Hin'. rewrite Hs, appended_default in Hin'.
    apply projected_In in Hin' as (rid & r & Hrep & Hpr). apply projectRepository_id in Hpr.
    pose proof (model_keyed _ _ _ _ Hm _ _ Hrep) as Hk. assert (rid = repoID) as -> by congruence.
    destruct (Hex repoID r Hrep) as [Hx _]. eapply Hno; [done|]. apply Hx. by exists e.
  - intros r grp Hrep Hin. destruct (Hex repoID r Hrep) as (_ & _ & Hgw & Hgr).
    assert (Hwr : forall held role kind, mayWrite grants (gc_RealmID c) role kind held r -> mayRead grants (gc_RealmID c) kind held r) by apply mayWrite_mayRead.
    destruct grp; [eapply Hno, Hwr, Hgw; [done|by left]|eapply Hno, Hwr, Hgw; [done|by right]|eapply Hno; [done|by apply Hgr]].
Qed.

(** ** A projected release request blocks the withdrawal of its repository *)
Lemma t_rebuild_blocked (D : Disk -> Prop) d id c v q : stable D -> D d -> wellNamed p d -> clientFact d id c ->
  d_views d !! viewPath p id = Some v -> In q (vw_LockReleaseRequests v) ->
  (forall d2 repositories grants clients effective r kind held, projected p d d2 repositories grants clients effective ->
     repositories !! vq_RepoID q = Some r -> ~ mayRead grants (gc_RealmID c) kind held r) ->
  triple D d (rebuildGrantAuthority (W := W) p) (fun r d' => D d' /\ exists e, r = Err e).
Proof.
  intros HD Hd Hw Hc Hv Hq Hno. apply t_rebuild_authz; try done; [intros e d' He; split; [done|by eexists]|].
  intros d2 repositories grants clients effective changed _ Hp. exfalso. pose proof Hp as (Hm & _ & _ & _ & Hcl & _).
  assert (clients !! id = Some c) as Hcc by (apply (mo_clients _ _ _ _ Hm); unfold clientFact in *; by rewrite Hcl).
  destruct (projected_exact _ _ _ _ _ _ _ _ Hp Hcc) as (v0 & v' & Hv0 & _ & Href & Hex). rewrite Hv in Hv0. injection Hv0 as <-.
  pose proof Href as (_ & _ & _ & _ & _ & Hval & Hrq & Hs). apply Validate_facts in Hval as (_ & _ & _ & Hreq).
  rewrite Hrq in Hreq. specialize (Hreq q Hq). apply in_map_iff in Hreq as (e & He & Hin).
  pose proof Hin as Hin'. unfold vw_Repositories in Hin'. rewrite Hs, appended_default in Hin'.
  apply projected_In in Hin' as (rid & r & Hrep & Hpr). apply projectRepository_id in Hpr.
  pose proof (model_keyed _ _ _ _ Hm _ _ Hrep) as Hk. assert (rid = vq_RepoID q) as -> by congruence.
  destruct (Hex _ r Hrep) as [Hx _]. eapply Hno; [done..|]. apply Hx. by exists e.
Qed.

(** C26. While the view of a client carries a lock-release request for a repository,
    its realm's grant of that repository cannot be revoked: no revocation answers
    success, and the authz file, with the access it gives, stays as it was. *)
Theorem revocation_blocked_by_request owner recipient repoID w o w' id c v q : wellNamed p (disk w) ->
  clientFact (disk w) id c -> gc_RealmID c = recipient -> d_views (disk w) !! viewPath p id = Some v ->
  In q (vw_LockReleaseRequests v) -> vq_RepoID q = repoID ->
  RevokeGrant p owner recipient repoID w = (o, w') ->
  d_authz (disk w') = d_authz (disk w) /\ (forall g, o <> Some (Ok g)).
Proof.
  intros Hw Hc Hrealm Hv Hq Hrid E. set (D := fun d => d_authz d = d_authz (disk w)).
  assert (stable D) as HD by done.
  enough (triple D (disk w) (RevokeGrant (W := W) p owner recipient repoID) (fun r d' => D d' /\ exists e, r = Err e)) as Ht.
  { pose proof (triple_elim _ _ _ _ _ _ Ht E) as He. destruct o as [r|]; [|by split]. destruct He as [He [e ->]]. by split. }
  apply t_RevokeGrant; [done|intros e d' He; split; [done|by eexists]|]. intros path repo g m Hr. unfold withRealmSessionsStopped.
  destruct (revoking_wellNamed _ _ _ _ _ _ _ (Some recipient) Hw Hr) as [Hw' _].
  eapply triple_bind with (R := fun e d' => d' = disk w \/ (e = None /\ d' = setHeld (Some recipient) (disk w))).
  { apply triple_ask; [done|]. intros x Hx. rewrite hd_stop, Hx. destruct (sv_stopSessions recipient x).1; auto. }
  intros [e|] d1 Hd1; cbn [orElse]; [apply triple_ret; destruct Hd1 as [->|[? _]]; [split; [done|by eexists]|done]|].
  assert (D d1) as HD1 by (destruct Hd1 as [->|[_ ->]]; done).
  eapply triple_bind with (R := fun e d' => D d' /\ exists x, e = Some x).
  - unfold publishGrant. eapply triple_bind with (R := fun e d' => D d' /\ (e = None -> d' = setGrant path g d1)).
    { apply triple_write with (upd := setGrant path g); [done|intros x <-; apply hd_writeGrant|intros; split; [exact HD1|done]|by intros]. }
    intros [e|] d2 [HD2 Hd2]; cbn [orElse]; [apply triple_ret; split; [done|by eexists]|]. rewrite (Hd2 eq_refl) in *.
    assert (exists h, d1 = setHeld h (disk w)) as [h Hh].
    { destruct Hd1 as [->|[_ ->]]; [exists (d_held (disk w)); by destruct (disk w)|by eexists]. }
    destruct (revoking_wellNamed _ _ _ _ _ _ _ h Hw Hr) as [Hwh _]. rewrite Hh in *.
    eapply triple_bind; [apply (t_rebuild_blocked D _ id c v q); try done|].
    + intros d3 repositories grants clients effective r kind held Hp Hrep. rewrite Hrealm. rewrite Hrid in Hrep. by apply (revoked_unreadable (disk w) d3 owner recipient repoID path repo g h repositories grants clients effective r kind held Hw Hr Hp).
    + intros r d3 [HD3 [e ->]]. apply triple_ret. split; [done|by eexists].
  - intros e d2 [HD2 [x ->]]. eapply triple_bind with (R := fun _ d' => D d').
    + apply triple_ask; [done|]. intros y Hy. rewrite hd_resume, Hy. done.
    + intros _ d3 HD3. apply triple_ret. split; [done|by eexists].
Qed.

(** ** The ownership boundary of a grant *)

(** What granting [access] over the record [old] answers: an active grant of that
    access whose boundary is that of [old] or, when write access is restored, the
    head the repository names over the disk [d], not behind the old boundary. *)
Definition boundaryKept (d : Disk) (repoID access : string) (old g : RealmGrantRecord) : Prop :=
  gr_Access g = access /\ gr_State g = "active" /\
  if bool_decide (access = "rw") && negb (bool_decide (gr_State old = "active") && bool_decide (gr_Access old = "rw")) then
    exists n, gr_PathOwnerCutoffRevision g = Some n /\ headOf d repoID n (gr_PathOwnerRepositoryUUID g) /\
              (0 <= n)%Z /\ isUUID (gr_PathOwnerRepositoryUUID g) = true /\
              (gr_PathOwnerRepositoryUUID old = gr_PathOwnerRepositoryUUID g -> forall c, gr_PathOwnerCutoffRevision old = Some c -> (c <= n)%Z)
  else gr_PathOwnerCutoffRevision g = gr_PathOwnerCutoffRevision old /\ gr_PathOwnerRepositoryUUID g = gr_PathOwnerRepositoryUUID old.

Lemma t_planGrant_boundary (D : Disk -> Prop) d old owner recipient repoID access stamp : D d ->
  triple D d (planGrant (W := W) p (Ok old) owner recipient repoID access stamp)
    (fun r d' => d' = d /\ match r with Ok (Already g) | Ok (WriteGrant _ g) => boundaryKept d repoID access old g | Err _ => True end).
Proof.
  intros H. unfold planGrant. cbv zeta. destruct (_ || _); [by apply triple_ret|].
  set (same := bool_decide (gr_State old = "active") && _ && _).
  assert (Hsame : same = true -> boundaryKept d repoID access old old).
  { intros Hs. subst same. bool_to_prop. unfold boundaryKept. split_and!; [done..|].
    rewrite (bool_decide_eq_true_2 (gr_State old = "active")) by done.
    match goal with E : gr_Access old = access |- _ => rewrite E end. by destruct (bool_decide (access = "rw")). }
  destruct same eqn:Es; cbn [andb].
  - destruct (negb _); [apply triple_ret; split; [done|by apply Hsame]|].
    subst same. bool_to_prop. rewrite (bool_decide_eq_true_2 (gr_State old = "active")) by done. cbn [negb orb].
    match goal with E : gr_Access old = access |- _ => rewrite E end.
    destruct (bool_decide (access = "rw")); cbn [negb andb]; apply triple_ret; (split; [done|by apply Hsame]).
  - clear Hsame. subst same. set (g := RealmRecords.Grant _ _ _ _ _ _ _ _ _ _ _).
    destruct (bool_decide_reflect (access = "rw")) as [Ha|Ha]; cbn [andb].
    2: { apply triple_ret. split; [done|]. unfold boundaryKept. subst g. cbn. by rewrite bool_decide_eq_false_2. }
    destruct (negb (bool_decide (gr_State old = "active")) || _) eqn:Ew.
    2: { apply triple_ret. split; [done|]. unfold boundaryKept. rewrite <- negb_andb in Ew. rewrite Ew. rewrite andb_false_r. by subst g. }
    destruct (negb (pb_RepositoryHead p)); [by apply triple_ret|].
    eapply triple_bind; [by apply t_headBoundary|]. intros [[n u]|e] d' [-> Hn]; [|by apply triple_ret]. destruct (Hn n u eq_refl) as (Hn0 & Hu & Hhead).
    destruct (match gr_PathOwnerCutoffRevision old with Some _ => _ | None => _ end) eqn:Eb; [by apply triple_ret|].
    apply triple_ret. split; [done|]. unfold boundaryKept. rewrite negb_andb, Ew. subst g access. cbn. split_and!; [done..|].
    exists n. split_and!; [done..|]. intros Hi c Hc. rewrite Hc, bool_decide_eq_true_2 in Eb by done. cbn in Eb. by apply Z.ltb_ge in Eb.
Qed.

(** C25. Granting again never gives back ownership of what was born before: a grant
    over an earlier record is active with the access asked for and keeps the
    record's ownership boundary, unless it restores write access; then the
    boundary is the head, revision and incarnation, that the repository itself
    names, and within one incarnation it is not behind the old boundary. *)
Theorem regrant_keeps_boundary owner recipient repoID access w g w' path old :
  realmGrantPath (pb_ServiceWC p) repoID recipient = Ok path -> d_grants (disk w) !! path = Some old -> path ∈ d_names (disk w) ->
  Grant p owner recipient repoID access w = (Some (Ok g), w') -> boundaryKept (disk w) repoID access old g.
Proof.
  intros Hp Hold Hname E.
  enough (triple (fun _ => True) (disk w) (Grant (W := W) p owner recipient repoID access) (fun r _ => forall g, r = Ok g -> boundaryKept (disk w) repoID access old g)) as Ht
    by exact (triple_elim _ _ _ _ _ _ Ht E g eq_refl).
  unfold Grant. eapply triple_bind; [by apply t_grantable|]. intros [e|] d' ->; [by apply triple_ret|]. rewrite Hp.
  eapply triple_bind; [by apply t_now|]. intros stamp d' ->.
  eapply triple_bind; [by apply t_grant|]. intros [old'|e] d' [-> Ha].
  - cbn [answers] in Ha. rewrite Hold in Ha. injection Ha as <-.
    eapply triple_bind; [by apply t_planGrant_boundary|]. intros [[g'|reducing g']|e] d' [-> Hb]; [|..|by apply triple_ret].
    + apply triple_ret. by intros ? [= <-].
    + eapply triple_bind with (R := fun _ _ => True); [apply triple_true|]. intros [e|] d' _; apply triple_ret; [done|]. by intros ? [= <-].
  - unfold planGrant. destruct (serr_is ENotExist e) eqn:Ee; [by destruct (Ha Ee)|]. cbn [negb].
    eapply triple_bind with (R := fun r d' => exists e, r = Err e); [apply triple_ret; by eexists|].
    intros r d' [e' ->]. by apply triple_ret.
Qed.

(** ** Creating a repository *)
Lemma t_loadViews d root l acc :
  triple (fun _ => True) d (loadViews (W := W) root l acc) (fun vs d' => d' = d /\
    forall v, In v vs -> In v acc \/ exists path, d_views d !! path = Some v).
Proof.
  revert acc. induction l as [|e l IH]; intros acc; cbn [loadViews]; [apply triple_ret; auto|].
  destruct (negb _); [apply IH|]. eapply triple_bind; [by apply t_loadView|]. intros r d' [-> Hr].
  eapply triple_mono; [apply IH|]. intros vs d' [-> Hvs]. split; [done|]. intros v Hv. destruct (Hvs v Hv) as [Hin|]; [|by right].
  destruct r as [u|]; [|by left]. apply in_app_or in Hin as [?|[<-|[]]]; [by left|right]. by eexists; apply Hr.
Qed.

(** What one line of an authz file made for the owners alone may be: a frame of
    the file, closing everything to everybody else, or a line about a repository
    on the disk - its section, its one access rule, or its one group, of clients
    whose view carries the repository and whose realm owns it. *)
Definition ownsEntry (d : Disk) (repoID client : string) : Prop :=
  exists vp v rp r e, d_views d !! vp = Some v /\ vw_ClientID v = client /\ d_repos d !! rp = Some r /\ rr_RepoID r = repoID /\
    vw_RealmID v = rr_OwnerRealmID r /\ In e (vw_Repositories v) /\ v_RepoID e = repoID.

Definition ownersLine (d : Disk) (line : string) : Prop :=
  In line ["[groups]"; ""; "* ="] \/
  exists path r, d_repos d !! path = Some r /\ rr_State r <> "deleted" /\
    (line = "[" ++ rr_RepoID r ++ ":/]" \/ line = "[" ++ rr_RepoID r ++ ":/" ++ ReservedNamespace ++ "]" \/
     line = "@owner-" ++ rr_RepoID r ++ " = " ++ (if readOnlyRepository r then "r" else "rw") \/
     exists clients, line = "owner-" ++ rr_RepoID r ++ " = " ++ Join clients "," /\ Forall (ownsEntry d (rr_RepoID r)) clients).

Definition ownersText (d : Disk) (text : string) : Prop :=
  exists lines, text = concatStrings (List.map (fun line => line ++ nl) lines) /\ Forall (ownersLine d) lines.

Lemma concatStrings_app l l' : concatStrings (l ++ l') = concatStrings l ++ concatStrings l'.
Proof. induction l as [|x l IH]; [done|]. cbn [app concatStrings List.fold_right]. fold (concatStrings (l ++ l')) (concatStrings l). by rewrite IH, sapp_assoc. Qed.

Lemma ownersText_app d a b : ownersText d a -> ownersText d b -> ownersText d (a ++ b).
Proof.
  intros (la & -> & Ha) (lb & -> & Hb). exists (la ++ lb)%list. split; [|by apply Forall_app]. by rewrite List.map_app, concatStrings_app.
Qed.

Lemma ownersText_line d line : ownersLine d line -> ownersText d (line ++ nl).
Proof. intros H. exists [line]. split; [|by constructor]. cbn. by rewrite sapp_nil_r. Qed.

Lemma ownersText_empty d : ownersText d "".
Proof. by exists []. Qed.

(** Records and views as they were read from the disk. *)
Definition recordsOf (d : Disk) (rs : list repositoryRecord) : Prop :=
  forall r, In r rs -> (exists path, d_repos d !! path = Some r) /\ rr_State r <> "deleted".
Definition viewsOf (d : Disk) (vs : list View) : Prop := forall v, In v vs -> exists path, d_views d !! path = Some v.

Lemma ownerClients_owns d views r id : viewsOf d views -> (exists path, d_repos d !! path = Some r) ->
  In id (ownerClients views r) -> ownsEntry d (rr_RepoID r) id.
Proof.
  intros Hv [rp Hr]. unfold ownerClients. rewrite in_flat_map. intros (v & Hin & H).
  destruct (bool_decide_reflect (vw_RealmID v = rr_OwnerRealmID r)) as [Ho|]; [|done]. cbn [negb] in H. apply in_flat_map in H as (en & He & H).
  destruct (bool_decide_reflect (v_RepoID en = rr_RepoID r)) as [Hid|]; [|done]. destruct (_ || _); [|done]. destruct H as [<-|[]].
  destruct (Hv v Hin) as [vp Hvp]. by exists vp, v, rp, r, en.
Qed.

Lemma ownerLines_text d views seen rs : viewsOf d views -> recordsOf d seen -> recordsOf d rs ->
  ownersText d (ownerLines views seen rs).
Proof.
  intros Hv. revert seen. induction rs as [|r rs IH]; intros seen Hs Hr; cbn [ownerLines]; [apply ownersText_empty|].
  assert (recordsOf d (seen ++ [r])) as Hs'.
  { intros q [Hq|[<-|[]]]%in_app_or; [by apply Hs|apply Hr; by left]. }
  assert (ownersText d (ownerLines views (seen ++ [r]) rs)) as Hrest by (apply IH; [done|]; intros q Hq; apply Hr; by right).
  set (same := List.filter _ _). set (cs := merge_sort strLe (flat_map (ownerClients views) same)).
  assert (forall t u, "owner-" ++ rr_RepoID r ++ " = " ++ t ++ nl ++ u = ("owner-" ++ rr_RepoID r ++ " = " ++ t) ++ nl ++ u) as -> by (intros; by rewrite ?sapp_assoc).
  rewrite <- sapp_assoc. apply ownersText_app; [|done]. apply ownersText_line. right.
  destruct (Hr r ltac:(by left)) as [[path Hp] Hd]. exists path, r. split_and!; [done..|]. do 3 right. exists cs. split; [done|].
  apply Forall_forall. intros id Hid%list_elem_of_In. subst cs. rewrite <- list_elem_of_In, merge_sort_Permutation, list_elem_of_In, in_flat_map in Hid.
  destruct Hid as (q & Hq & Hid). subst same. apply filter_In in Hq as [Hq Hsame]. apply bool_decide_eq_true in Hsame. rewrite <- Hsame.
  apply (ownerClients_owns d views); [done|by apply Hs'|done].
Qed.

Lemma ownerRules_text d r : (exists path, d_repos d !! path = Some r) /\ rr_State r <> "deleted" -> ownersText d (ownerRules r).
Proof.
  intros [[path Hp] Hd]. exists [""; "[" ++ rr_RepoID r ++ ":/]"; "@owner-" ++ rr_RepoID r ++ " = " ++ (if readOnlyRepository r then "r" else "rw");
    "* ="; ""; "[" ++ rr_RepoID r ++ ":/" ++ ReservedNamespace ++ "]"; "* ="].
  split; [unfold ownerRules; cbn [List.map concatStrings List.fold_right]; by rewrite !sapp_assoc|].
  assert (forall line, In line ["[groups]"; ""; "* ="] -> ownersLine d line) as Hframe by (intros line Hl; by left).
  assert (ownersLine d "" /\ ownersLine d "* =") as [H1 H2] by (split; apply Hframe; [right; by left|do 2 right; by left]).
  assert (forall line, line = "[" ++ rr_RepoID r ++ ":/]" \/ line = "[" ++ rr_RepoID r ++ ":/" ++ ReservedNamespace ++ "]" \/
    line = "@owner-" ++ rr_RepoID r ++ " = " ++ (if readOnlyRepository r then "r" else "rw") -> ownersLine d line) as H.
  { intros line Hl. right. exists path, r. split; [exact Hp|]. split; [exact Hd|]. destruct Hl as [?|[?|?]]; [by left|right; by left|do 2 right; by left]. }
  apply Forall_cons_2; [exact H1|]. apply Forall_cons_2; [apply H; by left|]. apply Forall_cons_2; [apply H; do 2 right; reflexivity|].
  apply Forall_cons_2; [exact H2|]. apply Forall_cons_2; [exact H1|]. apply Forall_cons_2; [apply H; right; by left|]. by apply Forall_cons_2.
Qed.

Lemma renderOwners_text d rs views : recordsOf d rs -> viewsOf d views -> ownersText d (renderOwners rs views).
Proof.
  intros Hr Hv. unfold renderOwners. set (sorted := merge_sort recordLe rs).
  assert (recordsOf d sorted) as Hs by (intros r Hin; apply Hr; subst sorted; by rewrite <- list_elem_of_In, merge_sort_Permutation, list_elem_of_In in Hin).
  rewrite <- sapp_assoc. apply ownersText_app; [apply ownersText_line; left; by left|]. apply ownersText_app; [by apply ownerLines_text|].
  revert Hs. generalize sorted. intros l Hl. induction l as [|r l IH]; [apply ownersText_empty|]. cbn [List.map concatStrings List.fold_right].
  apply ownersText_app; [by apply ownerRules_text, Hl; left|]. apply IH. intros q Hq. apply Hl. by right.
Qed.

Lemma t_loadRecords d dir l acc : recordsOf d acc ->
  triple (fun _ => True) d (loadRecords (W := W) p dir l acc) (fun r d' => d' = d /\ forall rs, r = Ok rs -> recordsOf d rs).
Proof.
  revert acc. induction l as [|e l IH]; intros acc Hacc; cbn [loadRecords]; [apply triple_ret; split; [done|]; by intros rs [= <-]|].
  destruct (negb _); [by apply IH|]. eapply triple_bind; [by apply t_repository|]. intros [r|e'] d' [-> Hr]; [|by apply triple_ret].
  destruct (negb _); [by apply triple_ret|]. eapply triple_bind; [by apply t_archive|]. intros [e'|] d' ->; [by apply triple_ret|].
  apply IH. destruct (bool_decide_reflect (rr_State r = "deleted")) as [|Hd]; [done|].
  intros q [Hq|[<-|[]]]%in_app_or; [by apply Hacc|]. split; [by eexists|done].
Qed.

Lemma t_renderAuthz d : triple (fun _ => True) d (renderAuthz (W := W) p) (fun r d' => d' = d /\ forall authz, r = Ok authz -> ownersText d authz).
Proof.
  unfold renderAuthz. eapply triple_bind; [by apply t_readDir|]. intros [entries|e] d' (-> & _); [|by apply triple_ret].
  eapply triple_bind; [by apply t_loadRecords|]. intros [rs|e] d' [-> Hr]; [|by apply triple_ret].
  eapply triple_bind; [by apply t_readDir|]. intros r d' (-> & _).
  eapply triple_bind; [apply t_loadViews|]. intros vs d' [-> Hv]. apply triple_ret. split; [done|]. intros authz [= <-].
  apply renderOwners_text; [by apply Hr|]. intros v Hin. by destruct (Hv v Hin).
Qed.

(** C27. Creating a repository forgets every grant: on success the grant records
    stand as they were, but the whole authz file is rewritten from the owners'
    views alone - line by line it is frame, sections, the owner group's rule, and
    owner groups whose every member is a client of the realm that owns the
    repository.  No writer or reader group and no right of anybody else is left
    in it, for any repository. *)
Theorem creation_forgets_grants repoID realmID name url purpose w w' : Publish p repoID realmID name url purpose w = (Some None, w') ->
  d_grants (disk w') = d_grants (disk w) /\
  exists authz, d_authz (disk w') !! pb_DataAuthzFile p = Some authz /\ ownersText (disk w') authz.
Proof.
  intros E. split.
  { pose proof (keeps_Publish p (fun _ => False) (fun _ => True) (fun d => d_grants d = d_grants (disk w))) as Hk.
    assert (keeps (W := W) (fun d => d_grants d = d_grants (disk w)) (Publish p repoID realmID name url purpose)) as Hk' by (apply Hk; by split).
    exact (triple_elim _ _ _ _ _ _ (Hk' _ eq_refl) E). }
  enough (triple (fun _ => True) (disk w) (Publish (W := W) p repoID realmID name url purpose) (fun e d' => e = None ->
    exists authz, d_authz d' !! pb_DataAuthzFile p = Some authz /\ ownersText d' authz)) as Ht by exact (triple_elim _ _ _ _ _ _ Ht E eq_refl).
  unfold Publish. apply triple_orElse; [done|]. intros _. eapply triple_bind; [apply triple_true|]. intros stamp d0 _.
  destruct (repositoryRecordPath _ _); [|by apply triple_ret]. destruct (negb _); [by apply triple_ret|].
  eapply triple_bind; [apply triple_true|]. intros [record|e] d1 _; [|by apply triple_ret].
  eapply triple_bind; [apply triple_true|]. intros [entries|e] d2 _; [|by apply triple_ret]. cbv zeta.
  eapply triple_bind; [apply triple_true|]. intros [changed|e] d3 _; [|by apply triple_ret].
  eapply triple_bind; [by apply t_renderAuthz|]. intros [authz|e] d4 [-> Hr]; [|by apply triple_ret].
  eapply triple_bind.
  { apply triple_write with (upd := setAuthz (pb_DataAuthzFile p) authz)
      (Q := fun e d' => e = None -> d' = setAuthz (pb_DataAuthzFile p) authz d3); [done|intros x <-; apply hd_writeAuthz|done|done]. }
  intros [e|] d5 Hd5; cbn [orElse]; [by apply triple_ret|]. rewrite (Hd5 eq_refl).
  eapply triple_mono; [by apply t_publish|]. intros e d6 -> _. exists authz. split; [apply lookup_insert_eq|]. by apply (Hr authz).
Qed.

End Effects.
