(* ===== verification/PublisherDemo.v ===== *)
(** * PublisherDemo: a service working copy in memory

    An instance of the file system the publisher works on, a proof that it is
    honest, and a small server on it: realm [ra] owns repository [r1], realm [rb]
    receives grants of it, [ca] and [cb] are their clients.  The theorems of
    [PublisherProps] are applied here, and the two defects are seen on it. *)
From S2P Require Import Prelude GoStrings Passport Naming ServerBase RealmRecords ClientView Publisher PublisherWorld PublisherProofs PublisherRebuild PublisherInvariants PublisherProps.
From Stdlib Require Import Ascii String.

Open Scope string_scope.
Open Scope go_scope.

(** The files, who is stopped, the writes so far, and how many writes of the
    authz file are still to fail. *)
Record Memory := Mem {
  m_repos : gmap string repositoryRecord;
  m_grants : gmap string RealmGrantRecord;
  m_realms : gmap string realmRecord;
  m_clients : gmap string clientRecord;
  m_uploads : gmap string UploadRecord;
  m_views : gmap string View;
  m_authz : gmap string string;
  m_held : option string;
  m_writes : list (option string * string);
  m_failing : nat
}.

Definition names (m : Memory) : gset string :=
  dom (m_repos m) ∪ dom (m_grants m) ∪ dom (m_realms m) ∪ dom (m_clients m) ∪ dom (m_uploads m) ∪ dom (m_views m) ∪ dom (m_authz m).

Definition memoryDisk (m : Memory) : Disk :=
  MkDisk (m_repos m) (m_grants m) (m_realms m) (m_clients m) (m_uploads m) (m_views m) (m_authz m) (names m) (m_held m) (m_writes m).

Definition readFrom {A} (f : Memory -> gmap string A) (path : string) (m : Memory) : result serr A * Memory :=
  (match f m !! path with
   | Some a => Ok a
   | None => Err (if decide (path ∈ names m) then EIO 0 else ENotExist)
   end, m).

Fixpoint suffixes (s : string) : list string := s :: match s with EmptyString => [] | String _ t => suffixes t end.

Definition plainb (s : string) : bool :=
  negb (bool_decide (s = "")) && negb (bool_decide (s = ".")) && negb (bool_decide (s = "..")) && negb (hasByte s "/").

(** The names in [dir] of the files among [paths]. *)
Definition filesIn (dir : string) (paths : list string) : list (string * bool) :=
  flat_map (fun path => List.map (fun s => (s, false))
    (List.filter (fun s => if plainb s then bool_decide (JoinPath [dir; s] = path) else false) (suffixes path))) paths.

Definition foldersIn (dir : string) (paths : list string) : list (string * bool) :=
  flat_map (fun path => flat_map (fun s =>
    let id := TrimSuffix s "/view.json" in
    if plainb id then if HasSuffix s "/view.json" && bool_decide (JoinPath [dir; id; "view.json"] = path) then [(id, true)] else [] else [])
    (suffixes path)) paths.

Definition keys {A} (m : gmap string A) : list string := List.map fst (map_to_list m).

Definition listing (dir : string) (m : Memory) : result serr (list (string * bool)) :=
  Ok (filesIn dir (keys (m_repos m)) ++ filesIn dir (keys (m_grants m)) ++ filesIn dir (keys (m_realms m))
      ++ filesIn dir (keys (m_clients m)) ++ filesIn dir (keys (m_uploads m)) ++ foldersIn dir (keys (m_views m)))%list.

#[export] Instance demoMortal : Mortal Memory := {| dies m := (false, m) |}.
#[export] Instance demoIds : Ids := {| isUUID := uuidForm; uuidString s := s |}.
#[export] Instance demoTables : UnicodeTables := {| u_lower r := r; u_upper r := r; u_format _ := false |}.
#[export] Instance demoUrls : Urls := {| projectedURL _ := true |}.
#[export] Instance demoRange : MapRange := {| mapRange A m := map_to_list m; mapRange_perm A m := Permutation_refl _ |}.

#[export] Instance demoRecords : Records Memory := {|
  rd_client _ m := (Err ENotExist, m);
  rd_realm := readFrom m_realms;
  rd_repository := readFrom m_repos;
  rd_grant := readFrom m_grants;
  rd_normalizeBranding b := Ok b;
  rd_validateRelease _ _ := None;
  rd_verifyRelease _ _ _ m := (None, m)
|}.

Definition put (path : string) (m : Memory) (upd : Memory -> Memory) : option serr * Memory :=
  let m' := upd m in
  (None, Mem (m_repos m') (m_grants m') (m_realms m') (m_clients m') (m_uploads m') (m_views m') (m_authz m') (m_held m')
             ((m_held m, path) :: m_writes m) (m_failing m')).

#[export] Instance demoViews : ViewFiles Memory := {|
  vf_read path m := (match m_views m !! path with Some v => Ok (Some v) | None => Err ENotExist end, m);
  vf_write path v m := put path m (fun m => Mem (m_repos m) (m_grants m) (m_realms m) (m_clients m) (m_uploads m)
                                         (<[path := v]> (m_views m)) (m_authz m) (m_held m) (m_writes m) (m_failing m));
  vf_marshal v := vw_ServerDisplayName v
|}.

#[export] Instance demoService : Service Memory := {|
  sv_now m := (7%Z, m);
  sv_readDir dir m := (listing dir m, m);
  sv_walkDir _ m := (List.map (fun path => Ok (path, false)) (keys (m_grants m)), m);
  sv_client := readFrom m_clients;
  sv_upload := readFrom m_uploads;
  sv_writeRepository path r m := put path m (fun m => Mem (<[path := r]> (m_repos m)) (m_grants m) (m_realms m) (m_clients m) (m_uploads m)
                                         (m_views m) (m_authz m) (m_held m) (m_writes m) (m_failing m));
  sv_writeGrant path g m := put path m (fun m => Mem (m_repos m) (<[path := g]> (m_grants m)) (m_realms m) (m_clients m) (m_uploads m)
                                         (m_views m) (m_authz m) (m_held m) (m_writes m) (m_failing m));
  sv_writeRealm path r m := put path m (fun m => Mem (m_repos m) (m_grants m) (<[path := r]> (m_realms m)) (m_clients m) (m_uploads m)
                                         (m_views m) (m_authz m) (m_held m) (m_writes m) (m_failing m));
  sv_readAuthz := readFrom m_authz;
  sv_writeAuthz path s m :=
    match m_failing m with
    | S n => (Some (EIO 1), Mem (m_repos m) (m_grants m) (m_realms m) (m_clients m) (m_uploads m) (m_views m) (m_authz m) (m_held m) (m_writes m) n)
    | O => put path m (fun m => Mem (m_repos m) (m_grants m) (m_realms m) (m_clients m) (m_uploads m) (m_views m)
                                    (<[path := s]> (m_authz m)) (m_held m) (m_writes m) (m_failing m))
    end;
  sv_publish _ _ m := (None, m);
  sv_head _ m := (Ok (4%Z, "0f0f0f0f-0000-4000-8000-0f0f0f0f0f0f"), m);
  sv_ensureLockGuards _ m := (None, m);
  sv_stopSessions realm m := (None, Mem (m_repos m) (m_grants m) (m_realms m) (m_clients m) (m_uploads m) (m_views m) (m_authz m)
                                        (Some realm) (m_writes m) (m_failing m));
  sv_resumeSessions _ m := (tt, Mem (m_repos m) (m_grants m) (m_realms m) (m_clients m) (m_uploads m) (m_views m) (m_authz m)
                                    None (m_writes m) (m_failing m))
|}.

(** ** It is honest *)
Lemma plainb_spec s : plainb s = true <-> plainSegment s.
Proof.
  unfold plainb, plainSegment. rewrite !andb_true_iff, !negb_true_iff, !bool_decide_eq_false. tauto.
Qed.

Lemma suffix_In pre s : In s (suffixes (pre ++ s)).
Proof. induction pre as [|a pre IH]; [destruct s; by left|]. rewrite sapp_cons. cbn [suffixes]. by right. Qed.

Lemma joined_ends dir name : plainSegment name -> exists pre, JoinPath [dir; name] = pre ++ name.
Proof.
  intros Hn. unfold JoinPath. case_bool_decide as Hd.
  - rewrite bool_decide_eq_false_2 by apply Hn. cbn [Join]. exists "". unfold Clean. rewrite bool_decide_eq_false_2 by apply Hn.
    assert (HasPrefix name "/" = false) as ->.
    { destruct Hn as (_ & _ & _ & Hs). destruct name as [|a t]; [done|].
      cbn [hasByte] in Hs. apply orb_false_iff in Hs as [Hs _]. rewrite HasPrefix_one. by rewrite Ascii.eqb_sym. }
    rewrite Split_single by apply Hn. cbn [fold_left]. rewrite cleanStep_plain by done. cbn. by rewrite bool_decide_eq_false_2 by apply Hn.
  - cbn [Join]. by apply Clean_ends.
Qed.

Lemma keys_In {A} (m : gmap string A) path : is_Some (m !! path) -> In path (keys m).
Proof. intros [a Ha]. unfold keys. apply in_map_iff. exists (path, a). split; [done|]. by apply list_elem_of_In, elem_of_map_to_list. Qed.

Lemma filesIn_lists {A} (m : gmap string A) dir name : plainSegment name -> is_Some (m !! JoinPath [dir; name]) -> In (name, false) (filesIn dir (keys m)).
Proof.
  intros Hn Hs. unfold filesIn. apply in_flat_map. exists (JoinPath [dir; name]). split; [by apply keys_In|]. apply in_map_iff. exists name. split; [done|].
  apply filter_In. split; [destruct (joined_ends dir name Hn) as [pre E]; rewrite E; apply suffix_In|].
  by rewrite (proj2 (plainb_spec name) Hn), bool_decide_eq_true.
Qed.

Lemma readFrom_answers {A} (f : Memory -> gmap string A) path m : answers (f m) (names m) path (readFrom f path m).1.
Proof. unfold readFrom, answers. cbn. destruct (f m !! path); [done|]. by destruct (decide _). Qed.

Lemma put_names path m upd g : names (upd m) = {[path]} ∪ names m -> m_held (upd m) = m_held m ->
  g (memoryDisk m) = logged path (MkDisk (m_repos (upd m)) (m_grants (upd m)) (m_realms (upd m)) (m_clients (upd m)) (m_uploads (upd m))
                                  (m_views (upd m)) (m_authz (upd m)) (names m) (m_held m) (m_writes m)) ->
  wrote g (put path m upd).1 (memoryDisk m) (memoryDisk (put path m upd).2).
Proof.
  intros Hn Hh Hg. left. rewrite Hg. unfold memoryDisk, put, logged. cbn. rewrite Hh. f_equal. change (names _) with (names (upd m)) at 1. exact Hn.
Qed.

Ltac writing := apply put_names; [unfold names; cbn; rewrite dom_insert_L; set_solver|done|done].

#[export] Instance demoHonest : HonestDisk Memory.
Proof.
  refine {| disk := memoryDisk |}; try done; intros.
  - split; [done|]. split_and!; intros name Hn Hs; cbn; unfold listing; rewrite !in_app_iff; cbn in Hs; apply filesIn_lists in Hs; tauto.
  - split; [done|]. split.
    + intros path Hin. cbn in Hin. apply in_map_iff in Hin as (q & [= ->] & Hq). apply in_map_iff in Hq as ([k g] & <- & Hk).
      apply list_elem_of_In, elem_of_map_to_list in Hk. cbn. unfold names. apply elem_of_dom_2 in Hk. set_solver.
    + intros _ a b _ _ Hs. cbn. apply in_map_iff. eexists. split; [done|]. by apply keys_In.
  - split; [done|]. apply (readFrom_answers m_repos).
  - split; [done|]. apply (readFrom_answers m_grants).
  - split; [done|]. apply (readFrom_answers m_realms).
  - split; [done|]. apply (readFrom_answers m_clients).
  - split; [done|]. apply (readFrom_answers m_uploads).
  - split; [done|]. cbn. by destruct (m_views w !! path).
  - split; [done|]. apply (readFrom_answers m_authz).
  - writing.
  - writing.
  - writing.
  - writing.
  - cbn. destruct (m_failing w); [writing|]. right. split; [done|]. by destruct w.
Defined.

#[export] Instance demoText : UuidText.
Proof. by split. Qed.

(** ** A small server *)
(** The identifiers of the example. *)
Definition ra : string := "a1a1a1a1-0000-4000-8000-a1a1a1a1a1a1".
Definition rb : string := "b1b1b1b1-0000-4000-8000-b1b1b1b1b1b1".
Definition ca : string := "ca00ca00-0000-4000-8000-ca00ca00ca00".
Definition cb : string := "cb00cb00-0000-4000-8000-cb00cb00cb00".
Definition r1 : string := "11111111-0000-4000-8000-111111111111".
Definition r2 : string := "22222222-0000-4000-8000-222222222222".

Definition recordAt (kind id : string) : string := "/s/admin/" ++ kind ++ "/" ++ id ++ ".json".
Definition viewAt (client : string) : string := "/s/clients/" ++ client ++ "/view.json".
Definition grantAt : string := "/s/admin/grants/" ++ r1 ++ "/" ++ rb ++ ".json".

Definition pub : ServicePublisher := Pub "/s" "/authz" "" true true false true.

Definition viewOf (client realm : string) (requests : list ViewRequest) : View :=
  MkView ViewSchema "Office" client realm "" 1%Z 1%Z "" "normal" None (Some []) requests [].

Definition start : Memory :=
  Mem {[(recordAt "repositories" r1) := RepoRec RepositorySchema r1 ra "Docs" "svn" "active" 1%Z "" "" "" None]} ∅
      {[(recordAt "realms" ra) := Realm RealmSchema ra "active" "" "" None;
        (recordAt "realms" rb) := Realm RealmSchema rb "active" "" "" None]}
      {[(recordAt "clients" ca) := ClientRec ClientSchema ca ra "active" "";
        (recordAt "clients" cb) := ClientRec ClientSchema cb rb "active" ""]} ∅
      {[(viewAt ca) := viewOf ca ra []; (viewAt cb) := viewOf cb rb []]} ∅ None [] 0.

(** The world after a request, computed. *)
Definition after (qs : list request) (m : Memory) : Memory := performAll pub qs m.

Definition granted : Memory := Eval vm_compute in after [RqGrant ra rb r1 "rw"] start.
Definition reduced : Memory := Eval vm_compute in after [RqRevoke ra rb r1] granted.

(** A request for the release of a lock in "r1" reaches the view of "cb". *)
Definition request1 : ViewRequest := VReq "99999999-0000-4000-8000-999999999999" r1 "a.txt" "token" ca "" "pending" 1%Z 1%Z 2%Z.
Definition withRequest (v : View) : View :=
  MkView (vw_Schema v) (vw_ServerDisplayName v) (vw_ClientID v) (vw_RealmID v) (vw_RealmAlias v) (vw_Generation v) (vw_GeneratedAt v)
         (vw_MinimumClientVersion v) (vw_ClientRole v) (vw_Capabilities v) (vw_RepositorySlice v) [request1] (vw_ActiveOperations v).
Definition asked : Memory := Eval vm_compute in
  Mem (m_repos granted) (m_grants granted) (m_realms granted) (m_clients granted) (m_uploads granted)
      (alter withRequest (viewAt cb) (m_views granted)) (m_authz granted) None [] 0.

Definition authzOf (m : Memory) : string := default "" (m_authz m !! "/authz").

Definition wellNamedb (m : Memory) : bool :=
  forallb (fun kv => match repositoryRecordPath (pb_ServiceWC pub) (rr_RepoID (snd kv)) with Ok q => bool_decide (q = fst kv) | Err _ => false end)
          (map_to_list (m_repos m)) &&
  forallb (fun kv => match realmGrantPath (pb_ServiceWC pub) (gr_RepoID (snd kv)) (gr_RecipientRealmID (snd kv)) with
                     | Ok q => bool_decide (q = fst kv) && negb (hasByte (gr_RepoID (snd kv)) "/" || hasByte (gr_RecipientRealmID (snd kv)) "/")
                     | Err _ => false end) (map_to_list (m_grants m)) &&
  forallb (fun kv => isUUID (cr_ClientID (snd kv)) && negb (hasByte (cr_ClientID (snd kv)) "/") && bool_decide (fst kv = JoinPath [adminPath pub ["clients"]; cr_ClientID (snd kv) ++ ".json"]))
          (map_to_list (m_clients m)).

Lemma map_forallb {A} (f : string * A -> bool) (m : gmap string A) k a : forallb f (map_to_list m) = true -> m !! k = Some a -> f (k, a) = true.
Proof. intros H Ha. rewrite forallb_forall in H. apply H. by apply list_elem_of_In, elem_of_map_to_list. Qed.

Lemma wellNamedb_spec m : wellNamedb m = true -> wellNamed pub (disk m).
Proof.
  unfold wellNamedb. rewrite !andb_true_iff. intros [[H1 H2] H3].
  assert (forall path g, m_grants m !! path = Some g -> realmGrantPath (pb_ServiceWC pub) (gr_RepoID g) (gr_RecipientRealmID g) = Ok path /\
    hasByte (gr_RepoID g) "/" = false /\ hasByte (gr_RecipientRealmID g) "/" = false) as Hg.
  { intros path g Hx. pose proof (map_forallb _ _ _ _ H2 Hx) as H. cbn [fst snd] in H. destruct (realmGrantPath _ _ _); [|done].
    apply andb_true_iff in H as [<-%bool_decide_eq_true [? ?]%negb_true_iff%orb_false_iff]. done. }
  split; intros path x Hx; [|by apply Hg|by apply (Hg path)|].
  - pose proof (map_forallb _ _ _ _ H1 Hx) as H. cbn [fst snd] in H. destruct (repositoryRecordPath _ _); [|done]. apply bool_decide_eq_true in H. by subst.
  - pose proof (map_forallb _ _ _ _ H3 Hx) as H. cbn [fst snd] in H. by apply andb_true_iff in H as [[? ?%negb_true_iff]%andb_true_iff ?%bool_decide_eq_true].
Qed.

Definition succeeded {A} (o : option (result serr A)) : bool := match o with Some (Ok _) => true | _ => false end.

Lemma took {A} (m : MC Memory (result serr A)) w : succeeded (m w).1 = true -> exists a, m w = (Some (Ok a), (m w).2).
Proof. destruct (m w) as [[[a|]|] w']; cbn; try done. by exists a. Qed.

(** Access before and after. *)
Lemma granted_writes : Contains (authzOf granted) ("writer-" ++ r1 ++ " = " ++ cb) = true /\ Contains (authzOf reduced) cb = false.
Proof. by vm_compute. Qed.

Lemma rebuild_exact_witness : exists repositories grants clients effective,
  modelOf (disk (rebuildGrantAuthority pub start).2) repositories grants clients /\
  d_authz (disk (rebuildGrantAuthority pub start).2) !! pb_DataAuthzFile pub = Some (renderCanonicalGrantAuthz repositories clients effective).
Proof.
  destruct (took (rebuildGrantAuthority pub) start) as [paths E]; [by vm_compute|].
  destruct (rebuild_exact pub start paths _ (wellNamedb_spec start ltac:(by vm_compute)) E) as (r & g & c & e & H1 & H2 & _).
  exists r, g, c, e. exact (conj H1 H2).
Defined.

Lemma views_never_roll_back_witness : exists v', d_views (disk (performAll pub [RqGrant ra rb r1 "rw"] start)) !! (viewAt cb) = Some v' /\
  advanced (viewOf cb rb []) v' /\ (1 < vw_Generation v')%Z.
Proof.
  destruct (views_never_roll_back pub [RqGrant ra rb r1 "rw"] start (viewAt cb) (viewOf cb rb [])) as (v' & Hv & Ha); [by vm_compute|].
  exists v'. split; [exact Hv|split; [exact Ha|]]. vm_compute in Hv. injection Hv as <-. by vm_compute.
Defined.

Lemma grants_well_typed_witness : exists g,
  d_grants (disk (performAll pub [RqGrant ra rb r1 "rw"; RqRevoke ra rb r1] start)) !! grantAt = Some g /\
  gr_State g = "revoked" /\ validateRealmGrantRecord g = None.
Proof.
  eexists. split; [vm_compute; reflexivity|]. split; [reflexivity|].
  refine (grants_well_typed pub [RqGrant ra rb r1 "rw"; RqRevoke ra rb r1] start _ _ grantAt _ _);
    [by repeat constructor| |by vm_compute].
  intros path g H. by vm_compute in H.
Defined.

Lemma revocation_takes_effect_witness : withdrawn pub (disk (RevokeGrant pub ra rb r1 granted).2) rb r1.
Proof.
  destruct (took (RevokeGrant pub ra rb r1) granted) as [g E]; [by vm_compute|].
  destruct (revocation_takes_effect pub ra rb r1 granted g _ (wellNamedb_spec granted ltac:(by vm_compute)) E) as (_ & _ & H). exact H.
Defined.

(** The access the request protects from withdrawal is write access. *)
Lemma revocation_blocked_by_request_witness :
  d_authz (disk (RevokeGrant pub ra rb r1 asked).2) = m_authz asked /\ Contains (authzOf asked) ("writer-" ++ r1 ++ " = " ++ cb) = true.
Proof.
  split; [|by vm_compute].
  refine (proj1 (revocation_blocked_by_request pub ra rb r1 asked _ _ cb (GrantClient rb "")
    (default (viewOf "" "" []) (m_views asked !! (viewAt cb))) request1 (wellNamedb_spec asked ltac:(by vm_compute)) _ _ _ _ _ (surjective_pairing _))).
  - exists (recordAt "clients" cb), (ClientRec ClientSchema cb rb "active" ""). by vm_compute.
  - done.
  - by vm_compute.
  - by left.
  - done.
Defined.

Lemma regrant_keeps_boundary_witness : exists old g, boundaryKept (disk reduced) r1 "rw" old g /\ gr_State old = "revoked" /\ gr_PathOwnerCutoffRevision g = Some 4%Z.
Proof.
  destruct (took (Grant pub ra rb r1 "rw") reduced) as [g E]; [by vm_compute|].
  exists (default (newGrant "" "" "" "" 0%Z) (m_grants reduced !! grantAt)), g. split; [|split; [by vm_compute|]].
  - eapply (regrant_keeps_boundary pub ra rb r1 "rw" reduced g _ grantAt); [by vm_compute|by vm_compute|by vm_compute|exact E].
  - assert (match (Grant pub ra rb r1 "rw" reduced).1 with Some (Ok g) => gr_PathOwnerCutoffRevision g = Some 4%Z | _ => False end) as H by by vm_compute.
    by rewrite E in H.
Defined.

(** The creation of an unrelated repository takes "cb" out of the authz file. *)
Lemma creation_forgets_grants_witness : let after := (Publish pub r2 ra "New" "svn" "" granted).2 in
  ownersText (disk after) (authzOf after) /\ Contains (authzOf granted) cb = true /\ Contains (authzOf after) cb = false.
Proof.
  intros after. assert (Publish pub r2 ra "New" "svn" "" granted = (Some None, after)) as E
    by (rewrite (surjective_pairing (Publish _ _ _ _ _ _ _)) at 1; f_equal; by vm_compute).
  destruct (creation_forgets_grants pub _ _ _ _ _ _ _ E) as (_ & authz & H & Ht). split; [|split; by vm_compute].
  assert (authzOf after = authz) as ->; [|exact Ht]. unfold authzOf. change (m_authz after) with (d_authz (disk after)). change "/authz" with (pb_DataAuthzFile pub). by rewrite H.
Defined.

Lemma reduction_inside_barrier_witness : fenced rb [] (disk (Grant pub ra rb r1 "r" (Mem (m_repos granted) (m_grants granted) (m_realms granted)
    (m_clients granted) (m_uploads granted) (m_views granted) (m_authz granted) None [] 0)).2).
Proof.
  refine (proj2 (reduction_inside_barrier pub ra rb r1 (Mem (m_repos granted) (m_grants granted) (m_realms granted)
    (m_clients granted) (m_uploads granted) (m_views granted) (m_authz granted) None [] 0)) grantAt _ _); by vm_compute.
Defined.

(** ** Two more runs *)

(** The realm has a read-only client: the view a creation would give it is
    invalid, so the creation fails, with the record already written. *)
Definition readonlyClient : Memory :=
  let v := viewOf ca ra [] in
  Mem (m_repos start) (m_grants start) (m_realms start) (m_clients start) ∅
      {[(viewAt ca) := MkView (vw_Schema v) (vw_ServerDisplayName v) ca ra "" 1%Z 1%Z "" "ro" None (Some []) [] []]} ∅ None [] 0.

Example creation_fails_with_readonly_client :
  (Publish pub r2 ra "New" "svn" "" readonlyClient).1 = Some (Some EView) /\
  rr_State <$> m_repos (Publish pub r2 ra "New" "svn" "" readonlyClient).2 !! (recordAt "repositories" r2) = Some "initializing".
Proof. split; by vm_compute. Qed.

(** A policy change fails while the authz file cannot be written; asked again it
    answers success, and authz file and views never see it published. *)
Definition failingOnce : Memory :=
  Mem (m_repos start) (m_grants start) (m_realms start) (m_clients start) ∅ (m_views start) ∅ None [] 1.

Example policy_retry_skips_publication :
  let first := SetRepositoryEditingPolicy pub ra r1 "lock_required" failingOnce in
  let second := SetRepositoryEditingPolicy pub ra r1 "lock_required" first.2 in
  first.1 = Some (Err (EIO 1)) /\ second.1 = Some (Ok "lock_required") /\ m_authz second.2 = ∅ /\ m_writes second.2 = m_writes first.2.
Proof. split_and!; by vm_compute. Qed.
