(* ===== verification/SessionLeases.v ===== *)
(** * SessionLeases: SSH session leases and the barrier that stops sessions

    Models src/pkg/activation: session_lease_unix.go (one private directory per
    supervised session, with its metadata and a FIFO a revocation writes to),
    lock_unix.go (the activation lock, polled) and session_barrier_unix.go (signal
    the sessions of a realm, wait until their leases are gone, publish).

    The file system, random bytes, the lock and the timers are the fields of
    [SessionFiles] and [Waiting].  The two polling loops take fuel; [Spinning] is
    the outcome when it runs out.  [SessionProps] shows how much is enough. *)
From S2P Require Import Prelude GoStrings Passport Naming ServerBase.
From Stdlib Require Import Ascii String.

Open Scope string_scope.
Open Scope go_scope.

(** ** Errors *)
Inductive lerr :=
| LNotExist             (* os.ErrNotExist *)
| LExist                (* os.ErrExist *)
| LNoReader             (* ENXIO *)
| LAgain                (* EAGAIN, EWOULDBLOCK *)
| LInterrupted          (* EINTR *)
| LDone                 (* the context's error *)
| LUnsafe | LInvalid | LIncomplete | LCollision | LRoot | LUuid | LClosed | LBarrier
| LRecord | LAdmission | LConflict | LReason
| LIO (code : nat)
| LPublish (e : serr).  (* the error of the publication run inside the barrier *)

Definition retried (e : lerr) : bool := match e with LAgain | LInterrupted => true | _ => false end.

(** ** Data *)
Definition sessionLeaseSchema : string := "filees.session-lease/v1".
Definition sessionRecordName : string := "session.json".
Definition sessionFIFOName : string := "revoke.fifo".

Record SessionMetadata := Meta {
  sm_Schema : string;
  sm_SessionID : string;
  sm_OperationID : string;
  sm_ClientID : string;
  sm_RealmID : string;
  sm_StartedAt : Time
}.

(** A lease of this process: [sl_fifo] is false once the FIFO is closed. *)
Record SessionLease := Lease { sl_Metadata : SessionMetadata; sl_Dir : string; sl_fifo : bool }.

(** What os.FileInfo says: the type, the permission bits, and whether the file
    belongs to the effective user. *)
Inductive fileKind := KDir | KRegular | KFifo | KOther.

#[export] Instance fileKind_eq_dec : EqDecision fileKind.
Proof. solve_decision. Defined.

Record FileInfo := Info { fi_kind : fileKind; fi_perm : Z; fi_mine : bool }.

Definition private (kind : fileKind) (info : FileInfo) : bool :=
  bool_decide (fi_kind info = kind) && (Z.land (fi_perm info) 63 =? 0)%Z && fi_mine info.
Definition privateSessionDirectory : FileInfo -> bool := private KDir.
Definition privateSessionFile : FileInfo -> bool := private KRegular.
Definition privateSessionFIFO : FileInfo -> bool := private KFifo.

Class SessionFiles (W : Type) := {
  sf_lstat : string -> W -> result lerr FileInfo * W;
  sf_readDir : string -> W -> result lerr (list (string * bool)) * W;
  (* os.ReadFile of a metadata file: its length and what it decodes to *)
  sf_readMetadata : string -> W -> result lerr (Z * option SessionMetadata) * W;
  sf_writeMetadata : string -> SessionMetadata -> W -> option lerr * W;
  sf_mkdir : string -> W -> option lerr * W;
  sf_mkdirAll : string -> W -> option lerr * W;
  sf_chmod : string -> W -> option lerr * W;
  sf_mkfifo : string -> W -> option lerr * W;
  sf_remove : string -> W -> option lerr * W;
  sf_removeAll : string -> W -> option lerr * W;
  (* the FIFO: the supervisor's end, read without blocking, and a writer's *)
  sf_openReader : string -> W -> option lerr * W;
  sf_readMark : string -> W -> result lerr Z * W;
  sf_closeReader : string -> W -> option lerr * W;
  sf_openWriter : string -> W -> option lerr * W;
  sf_writeMark : string -> W -> option lerr * W;
  sf_closeWriter : string -> W -> option lerr * W;
  sf_random : W -> result lerr (list Z) * W
}.

(** A context is its deadline; the background context has none.  A [true] answer
    of a select is the case [<-ctx.Done()]. *)
Definition Context : Type := option Time.

Class Waiting (W : Type) := {
  wt_now : W -> Time * W;
  wt_err : Context -> W -> option lerr * W;
  wt_after : Context -> Duration -> W -> bool * W;
  wt_newTicker : W -> Time * W;
  (* a receive from a ticker, by its start, its interval and the ticks received *)
  wt_tick : Context -> Time -> Duration -> nat -> W -> bool * W;
  wt_mkdirAll : string -> W -> option lerr * W;
  wt_open : string -> W -> option lerr * W;
  wt_flock : string -> W -> option lerr * W;
  wt_unlock : string -> W -> unit * W;
  wt_close : string -> W -> unit * W
}.

(** ** Session identifiers *)
Definition hexChar (n : Z) : ascii := chr (if (n <? 10)%Z then 0x30 + n else 0x57 + n)%Z.

(** [hex.EncodeToString] *)
Fixpoint hexEncode (bytes : list Z) : string :=
  match bytes with
  | [] => ""
  | b :: rest => String (hexChar (b / 16)) (String (hexChar (b mod 16)) (hexEncode rest))
  end.

Definition hexRune (c : ascii) : bool :=
  ((0x30 <=? byte c) && (byte c <=? 0x39) || (0x61 <=? byte c) && (byte c <=? 0x66) || (0x41 <=? byte c) && (byte c <=? 0x46))%Z.

(** 32 bytes that [hex.DecodeString] accepts, hence 16 decoded ones. *)
Definition validSessionID (id : string) : bool := (len id =? 32)%Z && allb hexRune id.

Definition sessionLeaseDirectoryName (id : string) : string := "session-" ++ id.

Definition isSession (name : string) : bool := HasPrefix name "session-".

(** ** Leases *)
Section Leases.
  Context {W : Type} `{!Ids} `{!Mortal W} `{!SessionFiles W}.

Definition newSessionID : MC W (result lerr string) :=
  let* r := ask sf_random in
  ok? raw := r in ret (Ok (hexEncode raw)).

Definition validMetadata (dir : string) (m : SessionMetadata) : bool :=
  bool_decide (sm_Schema m = sessionLeaseSchema) && validSessionID (sm_SessionID m)
  && bool_decide (Base dir = sessionLeaseDirectoryName (sm_SessionID m)) && negb (IsZero (sm_StartedAt m))
  && isUUID (sm_OperationID m) && isUUID (sm_ClientID m) && isUUID (sm_RealmID m).

Definition readSessionMetadata (dir : string) : MC W (result lerr SessionMetadata) :=
  let* r := ask (sf_lstat dir) in
  if negb (match r with Ok info => privateSessionDirectory info | Err _ => false end) then ret (Err LUnsafe)
  else
    let path := JoinPath [dir; sessionRecordName] in
    let* r := ask (sf_lstat path) in
    if negb (match r with Ok info => privateSessionFile info | Err _ => false end) then ret (Err LUnsafe)
    else
      let* r := ask (sf_readMetadata path) in
      ret (match r with
           | Ok (size, Some m) => if (16 * 1024 <? size)%Z || negb (validMetadata dir m) then Err LInvalid else Ok m
           | _ => Err LInvalid
           end).

Definition validateSessionRoot (root : string) : MC W (option lerr) :=
  if negb (IsAbs root) then ret (Some LRoot)
  else
    let* r := ask (sf_lstat root) in
    let* r := (match r with
               | Err LNotExist =>
                   let* e := ask (sf_mkdirAll root) in
                   match e with Some e => ret (Err e) | None => ask (sf_lstat root) end
               | r => ret r
               end) in
    ret (match r with Ok info => if privateSessionDirectory info then None else Some LRoot | Err _ => Some LRoot end).

(** The four attempts at a fresh directory. *)
Fixpoint makeLeaseDir (attempts : nat) (root : string) : MC W (result lerr (string * string)) :=
  match attempts with
  | O => ret (Err LCollision)
  | S attempts =>
      let* r := newSessionID in
      ok? id := r in
      let dir := JoinPath [root; sessionLeaseDirectoryName id] in
      let* e := ask (sf_mkdir dir) in
      match e with
      | None => ret (Ok (id, dir))
      | Some LExist => makeLeaseDir attempts root
      | Some e => ret (Err e)
      end
  end.

Definition createSessionLease (root : string) (m : SessionMetadata) : MC W (result lerr SessionLease) :=
  let* e := validateSessionRoot root in
  match e with Some e => ret (Err e) | None =>
  if bool_decide (sm_OperationID m = "") || bool_decide (sm_ClientID m = "") || bool_decide (sm_RealmID m = "")
     || IsZero (sm_StartedAt m)
  then ret (Err LIncomplete)
  else
    let* r := makeLeaseDir 4 root in
    ok? (id, dir) := r in
    let m := Meta sessionLeaseSchema id (sm_OperationID m) (sm_ClientID m) (sm_RealmID m) (sm_StartedAt m) in
    let cleanup e := let* _ := ask (sf_removeAll dir) in ret (Err e) in
    let* e := ask (sf_chmod dir) in
    match e with Some e => cleanup e | None =>
    let* e := ask (sf_writeMetadata (JoinPath [dir; sessionRecordName]) m) in
    match e with Some e => cleanup e | None =>
    let fifo := JoinPath [dir; sessionFIFOName] in
    let* e := ask (sf_mkfifo fifo) in
    match e with Some e => cleanup e | None =>
    let* e := ask (sf_openReader fifo) in
    match e with Some e => cleanup e | None => ret (Ok (Lease m dir true)) end end end end
  end.

(** [Revoked]: a marker was read; no data is not one. *)
Definition Revoked (lease : SessionLease) : MC W (result lerr bool) :=
  if negb (sl_fifo lease) then ret (Err LClosed)
  else
    let* r := ask (sf_readMark (JoinPath [sl_Dir lease; sessionFIFOName])) in
    ret (match r with
         | Ok n => Ok (0 <? n)%Z
         | Err LAgain => Ok false
         | Err e => Err e
         end).

(** *** Removing a lease *)
Record sessionLeaseArtifacts := Artifacts { sa_metadata : string; sa_fifo : string }.

Fixpoint inspectEntries (dir : string) (entries : list (string * bool)) (acc : sessionLeaseArtifacts)
    : MC W (result lerr sessionLeaseArtifacts) :=
  match entries with
  | [] => ret (Ok acc)
  | (name, _) :: rest =>
      let path := JoinPath [dir; name] in
      let* r := ask (sf_lstat path) in
      ok? info := r in
      if bool_decide (name = sessionRecordName) then
        if negb (privateSessionFile info) then ret (Err LUnsafe)
        else inspectEntries dir rest (Artifacts path (sa_fifo acc))
      else if bool_decide (name = sessionFIFOName) then
        if negb (privateSessionFIFO info) then ret (Err LUnsafe)
        else inspectEntries dir rest (Artifacts (sa_metadata acc) path)
      else ret (Err LUnsafe)
  end.

Definition inspectSessionLeaseArtifacts (dir : string) : MC W (result lerr sessionLeaseArtifacts) :=
  let* r := ask (sf_lstat dir) in
  ok? info := r in
  if negb (privateSessionDirectory info) then ret (Err LUnsafe)
  else
    let id := TrimPrefix (Base dir) "session-" in
    if negb (validSessionID id) || negb (bool_decide (Base dir = sessionLeaseDirectoryName id)) then ret (Err LUnsafe)
    else
      let* r := ask (sf_readDir dir) in
      ok? entries := r in
      let* r := inspectEntries dir entries (Artifacts "" "") in
      ok? artifacts := r in
      let* e := (if bool_decide (sa_metadata artifacts = "") then ret None
                 else let* r := readSessionMetadata dir in ret (match r with Ok _ => None | Err e => Some e end)) in
      ret (match e with
           | Some e => Err e
           | None => if bool_decide (sa_metadata artifacts = "") && negb (bool_decide (sa_fifo artifacts = "")) then Err LUnsafe
                     else Ok artifacts
           end).

Fixpoint removeAll (paths : list string) : MC W (option lerr) :=
  match paths with
  | [] => ret None
  | path :: rest =>
      if bool_decide (path = "") then removeAll rest
      else
        let* e := ask (sf_remove path) in
        match e with
        | None | Some LNotExist => removeAll rest
        | Some e => ret (Some e)
        end
  end.

Definition removeSessionLease (dir : string) : MC W (option lerr) :=
  let* r := ask (sf_lstat dir) in
  match r with
  | Err LNotExist => ret None
  | Err e => ret (Some e)
  | Ok _ =>
      let* r := inspectSessionLeaseArtifacts dir in
      nil? artifacts := r in
      removeAll [sa_fifo artifacts; sa_metadata artifacts; dir]
  end.

Definition Close (lease : SessionLease) : MC W (option lerr) :=
  let* closeErr := (if sl_fifo lease then ask (sf_closeReader (JoinPath [sl_Dir lease; sessionFIFOName])) else ret None) in
  let* e := removeSessionLease (sl_Dir lease) in
  ret (match closeErr with Some e => Some e | None => e end).

(** [if firstErr == nil { firstErr = e }] *)
Definition keepError (first e : option lerr) : option lerr := match first with Some _ => first | None => e end.

(** *** Cleaning up leases whose supervisor is gone *)
Definition cleanupLease (dir : string) : MC W (nat * option lerr) :=
  let remove :=
    let* e := removeSessionLease dir in
    ret (match e with Some e => (0, Some e) | None => (1, None) end) in
  let* r := inspectSessionLeaseArtifacts dir in
  match r with
  | Err e => ret (0, Some e)
  | Ok artifacts =>
      if bool_decide (sa_fifo artifacts = "") then remove
      else
        let* e := ask (sf_openWriter (sa_fifo artifacts)) in
        match e with
        | None => let* e := ask (sf_closeWriter (sa_fifo artifacts)) in ret (0, e)
        | Some LNoReader | Some LNotExist => remove
        | Some e => ret (0, Some e)
        end
  end.

Fixpoint cleanupLeases (root : string) (entries : list (string * bool)) (cleaned : nat) (first : option lerr)
    : MC W (nat * option lerr) :=
  match entries with
  | [] => ret (cleaned, first)
  | (name, _) :: rest =>
      if negb (isSession name) then cleanupLeases root rest cleaned first
      else
        let* r := cleanupLease (JoinPath [root; name]) in
        cleanupLeases root rest (cleaned + fst r) (keepError first (snd r))
  end.

Definition cleanupOrphanedSessionLeases (root : string) : MC W (nat * option lerr) :=
  let* r := ask (sf_lstat root) in
  match r with
  | Err LNotExist => ret (0, None)
  | Err _ => ret (0, Some LRoot)
  | Ok info =>
      if negb (privateSessionDirectory info) then ret (0, Some LRoot)
      else
        let* r := ask (sf_readDir root) in
        match r with
        | Err e => ret (0, Some e)
        | Ok entries => cleanupLeases root entries 0 None
        end
  end.

(** *** Signalling *)

(** One lease: its error, if any; [None] also for one that is not addressed. *)
Definition signalLease (dir clientID realmID : string) : MC W (option lerr) :=
  let* r := readSessionMetadata dir in
  nil? m := r in
  if (negb (bool_decide (clientID = "")) && negb (bool_decide (sm_ClientID m = clientID)))
     || (negb (bool_decide (realmID = "")) && negb (bool_decide (sm_RealmID m = realmID)))
  then ret None
  else
    let fifo := JoinPath [dir; sessionFIFOName] in
    let* r := ask (sf_lstat fifo) in
    if negb (match r with Ok info => privateSessionFIFO info | Err _ => false end) then ret (Some LUnsafe)
    else
      let* e := ask (sf_openWriter fifo) in
      match e with
      | Some LNoReader | Some LNotExist => ret None
      | Some e => ret (Some e)
      | None =>
          let* writeErr := ask (sf_writeMark fifo) in
          let* closeErr := ask (sf_closeWriter fifo) in
          ret (keepError writeErr closeErr)
      end.

Fixpoint signalLeases (root clientID realmID : string) (entries : list (string * bool)) (first : option lerr)
    : MC W (option lerr) :=
  match entries with
  | [] => ret first
  | (name, isDir) :: rest =>
      if negb isDir || negb (isSession name) then signalLeases root clientID realmID rest first
      else
        let* e := signalLease (JoinPath [root; name]) clientID realmID in
        signalLeases root clientID realmID rest (keepError first e)
  end.

Definition signalSessionLeases (root clientID realmID : string) : MC W (option lerr) :=
  let* r := ask (sf_readDir root) in
  match r with
  | Err LNotExist => ret None
  | Err e => ret (Some e)
  | Ok entries => signalLeases root clientID realmID entries None
  end.

(** *** Which sessions are live *)

(** Decides one entry; [None] when the search goes on. *)
Definition sessionLive (dir realmID : string) : MC W (option (result lerr bool)) :=
  let* r := readSessionMetadata dir in
  match r with
  | Ok m => ret (if bool_decide (realmID = "") || bool_decide (sm_RealmID m = realmID) then Some (Ok true) else None)
  | Err e =>
      let* r := ask (sf_lstat dir) in
      match r with
      | Err LNotExist => ret None
      | _ =>
          let* r := ask (sf_lstat (JoinPath [dir; sessionRecordName])) in
          ret (Some (match r with Err LNotExist => Ok true | _ => Err e end))
      end
  end.

Fixpoint anySession (root realmID : string) (entries : list (string * bool)) : MC W (result lerr bool) :=
  match entries with
  | [] => ret (Ok false)
  | (name, _) :: rest =>
      if negb (isSession name) then anySession root realmID rest
      else
        let* d := sessionLive (JoinPath [root; name]) realmID in
        match d with Some r => ret r | None => anySession root realmID rest end
  end.

Definition realmSessionExists (root realmID : string) : MC W (result lerr bool) :=
  let* r := ask (sf_readDir root) in
  match r with
  | Err LNotExist => ret (Ok false)
  | Err e => ret (Err e)
  | Ok entries => anySession root realmID entries
  end.

End Leases.

(** ** The activation lock *)
Inductive outcome (A : Type) := Finished (r : result lerr A) | Spinning.
Arguments Finished {A} r.
Arguments Spinning {A}.

Inductive locking := Locked | Returned (e : option lerr) | Waits.

Section Lock.
  Context {W : Type} `{!Mortal W} `{!Waiting W}.
  Variable fuel : nat.

Definition lockPoll : Duration := 20000000%Z.
Definition barrierTimeout : Duration := (15 * Second)%Z.
Definition barrierTick : Duration := 25000000%Z.

Fixpoint acquireFlock (fuel : nat) (ctx : Context) (path : string) : MC W locking :=
  match fuel with
  | O => ret Waits
  | S fuel =>
      let* e := ask (wt_err ctx) in
      match e with
      | Some e => ret (Returned (Some e))
      | None =>
          let* e := ask (wt_flock path) in
          match e with
          | None => ret Locked
          | Some e =>
              if negb (retried e) then ret (Returned (Some e))
              else
                let* done := ask (wt_after ctx lockPoll) in
                if done then let* e := ask (wt_err ctx) in ret (Returned e)
                else acquireFlock fuel ctx path
          end
      end
  end.

(** [run] under the lock; the deferred unlock and close run on every return.
    [zero] is what the variables [run] assigns hold before it is called. *)
Definition withFileLockContext {A} (zero : A) (ctx : Context) (path : string) (run : MC W (outcome A)) : MC W (outcome A) :=
  let* e := ask (wt_mkdirAll (Dir path)) in
  match e with Some e => ret (Finished (Err e)) | None =>
  let* e := ask (wt_open path) in
  match e with Some e => ret (Finished (Err e)) | None =>
  let* l := acquireFlock fuel ctx path in
  match l with
  | Waits => ret Spinning
  | Returned e => let* _ := ask (wt_close path) in ret (Finished (match e with Some e => Err e | None => Ok zero end))
  | Locked =>
      let* e := ask (wt_err ctx) in
      let* r := (match e with Some e => ret (Finished (Err e)) | None => run end) in
      let* _ := ask (wt_unlock path) in
      let* _ := ask (wt_close path) in ret r
  end end end.

Definition withFileLock {A} (zero : A) (path : string) (run : MC W (outcome A)) : MC W (outcome A) :=
  withFileLockContext zero None path run.

End Lock.

(** ** The barrier *)
Section Barrier.
  Context {W : Type} `{!Ids} `{!Mortal W} `{!SessionFiles W} `{!Waiting W}.
  Variable fuel : nat.
  (* m.config.Root and m.sessionRoot() *)
  Variables activationRoot sessionRoot : string.

Definition activationLock : string := JoinPath [activationRoot; ".activation.lock"].

(** [context.WithTimeout] *)
Definition withTimeout (ctx : Context) (d : Duration) : MC W Context :=
  let* now := ask wt_now in
  ret (Some (match ctx with Some t => Z.min t (Add now d) | None => Add now d end)).

Fixpoint awaitSessions (fuel : nat) (ctx : Context) (started : Time) (ticks : nat) (realmID : string)
    (publish : MC W (option serr)) : MC W (outcome unit) :=
  match fuel with
  | O => ret Spinning
  | S fuel =>
      let* r := realmSessionExists sessionRoot realmID in
      match r with
      | Err e => ret (Finished (Err e))
      | Ok false =>
          let* e := ask (wt_err ctx) in
          match e with
          | Some e => ret (Finished (Err e))
          | None => let* e := publish in ret (Finished (match e with Some e => Err (LPublish e) | None => Ok tt end))
          end
      | Ok true =>
          let* done := ask (wt_tick ctx started barrierTick ticks) in
          if done then let* _ := ask (wt_err ctx) in ret (Finished (Err LDone))
          else awaitSessions fuel ctx started (S ticks) realmID publish
      end
  end.

Definition withSessionsStopped (ctx : Context) (realmID : string) (publish : MC W (option serr)) : MC W (outcome unit) :=
  let* ctx := withTimeout ctx barrierTimeout in
  withFileLockContext fuel tt ctx activationLock (
    let* e := ask (wt_err ctx) in
    match e with Some e => ret (Finished (Err e)) | None =>
    let* e := signalSessionLeases sessionRoot "" realmID in
    match e with Some e => ret (Finished (Err e)) | None =>
    let* started := ask wt_newTicker in
    awaitSessions fuel ctx started 0 realmID publish
    end end).

Definition WithRealmSessionsStopped (ctx : Context) (realmID : string) (publish : MC W (option serr)) : MC W (outcome unit) :=
  if negb (isUUID realmID) then ret (Finished (Err LBarrier)) else withSessionsStopped ctx realmID publish.

Definition WithAllSessionsStopped (ctx : Context) (publish : MC W (option serr)) : MC W (outcome unit) :=
  withSessionsStopped ctx "" publish.

Definition SignalAllSessions (ctx : Context) : MC W (outcome unit) :=
  withFileLockContext fuel tt ctx activationLock (
    let* e := signalSessionLeases sessionRoot "" "" in
    ret (Finished (match e with Some e => Err e | None => Ok tt end))).

End Barrier.
