(* ===== verification/SessionProps.v ===== *)
(** * SessionProps: the session barrier excludes sessions and ends

    [HonestSessions] states what the barrier relies on.  Of the file system: a
    listing names every lease that is still there afterwards, a missing directory
    is gone, metadata names the realm its lease was made for.  Of the other
    processes: leases are made under the activation lock only, so while this
    process holds it they can only disappear.  Of the Go runtime: clocks do not run
    back, a timer does not fire early, a context past its deadline is over and
    stays over.  A select with two ready cases takes either, so the world counts in
    [late] how often one went on although its context was over.

    Shown: the publication runs only while the lock is held and no session of the
    realm is left, and the barrier ends within a fixed number of rounds, plus one
    for each late select. *)
From S2P Require Import Prelude GoStrings Passport Naming ServerBase SessionLeases.
From Stdlib Require Import Ascii String.

Open Scope string_scope.
Open Scope go_scope.

(** ** What can be observed of the world *)
Class Observed (W : Type) := {
  sessions : W -> gmap string string;   (* lease directories, and the realm each was made for *)
  held : W -> bool;                     (* this process holds the activation lock *)
  clock : W -> Time;
  over : Context -> W -> bool;          (* the context is done *)
  late : W -> nat
}.

Section Laws.
  Context {W : Type} `{!Observed W}.

(** Time passes. *)
Definition quiet (w w' : W) : Prop :=
  (clock w <= clock w')%Z /\ late w' = late w /\ forall c, over c w = true -> over c w' = true.

(** Time passes, the lock stays, and under the lock leases only disappear. *)
Definition calm (w w' : W) : Prop :=
  quiet w w' /\ held w' = held w /\ (held w = true -> sessions w' ⊆ sessions w).

Definition noSessions (realmID : string) (w : W) : Prop :=
  forall dir realm, sessions w !! dir = Some realm -> realmID <> "" /\ realm <> realmID.

Lemma quiet_refl w : quiet w w.
Proof. by split_and!. Qed.

Lemma quiet_trans a b c : quiet a b -> quiet b c -> quiet a c.
Proof. intros (H1 & H2 & H3) (H4 & H5 & H6). split_and!; [lia|congruence|auto]. Qed.

Lemma calm_refl w : calm w w.
Proof. by split_and!; [..|apply quiet_refl| |]. Qed.

Lemma calm_trans a b c : calm a b -> calm b c -> calm a c.
Proof.
  intros (H1 & H2 & H3) (H4 & H5 & H6). split_and!; [by eapply quiet_trans|congruence|].
  intros Ha. etrans; [apply H6; congruence|by apply H3].
Qed.

Lemma calm_held a b : calm a b -> held a = true -> held b = true.
Proof. by intros (_ & -> & _). Qed.

(** What is gone under the lock stays gone. *)
Lemma calm_gone a b dir : calm a b -> held a = true -> sessions a !! dir = None -> sessions b !! dir = None.
Proof. intros (_ & _ & H) Ha Hd. eapply lookup_weaken_None; [done|by apply H]. Qed.

Lemma calm_still a b dir realm : calm a b -> held a = true -> sessions b !! dir = Some realm -> sessions a !! dir = Some realm.
Proof. intros (_ & _ & H) Ha Hd. eapply lookup_weaken; [done|by apply H]. Qed.

Lemma noSessions_calm realmID a b : calm a b -> held a = true -> noSessions realmID a -> noSessions realmID b.
Proof. intros Hc Ha Hn dir realm Hd. by eapply Hn, calm_still. Qed.

End Laws.

Class HonestSessions (W : Type) `{!Mortal W} `{!SessionFiles W} `{!Waiting W} `{!Observed W} (activationRoot sessionRoot : string) := {
  hs_dies (w w' : W) : dies w = (false, w') -> calm w w';
  hs_lstat path w : calm w (sf_lstat path w).2 /\
    ((sf_lstat path w).1 = Err LNotExist -> sessions (sf_lstat path w).2 !! path = None);
  hs_readDir dir w : calm w (sf_readDir dir w).2;
  hs_list w : match (sf_readDir sessionRoot w).1 with
    | Ok entries => forall dir realm, sessions (sf_readDir sessionRoot w).2 !! dir = Some realm ->
        exists name isDir, In (name, isDir) entries /\ isSession name = true /\ dir = JoinPath [sessionRoot; name]
    | Err LNotExist => sessions (sf_readDir sessionRoot w).2 = ∅
    | Err _ => True
    end;
  hs_metadata dir w : calm w (sf_readMetadata dir w).2;
  hs_realm dir w size m realm : (sf_readMetadata (JoinPath [dir; sessionRecordName]) w).1 = Ok (size, Some m) ->
    sessions w !! dir = Some realm -> sm_RealmID m = realm;
  hs_openWriter path w : calm w (sf_openWriter path w).2;
  hs_writeMark path w : calm w (sf_writeMark path w).2;
  hs_closeWriter path w : calm w (sf_closeWriter path w).2;
  hs_now w : calm w (wt_now w).2 /\ ((wt_now w).1 <= clock (wt_now w).2)%Z;
  hs_err ctx w : calm w (wt_err ctx w).2 /\ (over ctx w = true -> (wt_err ctx w).1 <> None);
  hs_deadline t w : (t <= clock w)%Z -> over (Some t) w = true;
  hs_after ctx d w : calm w (wt_after ctx d w).2 /\
    (if (wt_after ctx d w).1 then over ctx (wt_after ctx d w).2 = true else (clock w + d <= clock (wt_after ctx d w).2)%Z);
  hs_newTicker w : calm w (wt_newTicker w).2 /\ (clock w <= (wt_newTicker w).1 <= clock (wt_newTicker w).2)%Z;
  (* the n-th tick comes no earlier than n intervals after the start *)
  hs_tick ctx started d n w : let '(done, w') := wt_tick ctx started d n w in
    (clock w <= clock w')%Z /\ (forall c, over c w = true -> over c w' = true) /\
    held w' = held w /\ (held w = true -> sessions w' ⊆ sessions w) /\
    late w' = (late w + (if negb done && over ctx w then 1 else 0))%nat /\
    (done = false -> (started + Z.of_nat (S n) * d <= clock w')%Z);
  hs_mkdirAll path w : calm w (wt_mkdirAll path w).2;
  hs_open path w : calm w (wt_open path w).2;
  hs_unlock path w : quiet w (wt_unlock path w).2;
  hs_close path w : quiet w (wt_close path w).2;
  hs_flock w : quiet w (wt_flock (activationLock activationRoot) w).2 /\
    ((wt_flock (activationLock activationRoot) w).1 = None -> held (wt_flock (activationLock activationRoot) w).2 = true)
}.

(** ** Call rules *)
Section Rules.
  Context {W : Type} {ids : Ids} `{!Mortal W} `{!SessionFiles W} `{!Waiting W} `{!Observed W}.
  Context (activationRoot sessionRoot : string) {HS : HonestSessions W activationRoot sessionRoot}.

(** From [w], [m] ends in [Q] or the process dies. *)
Definition runs {A} (m : MC W A) (Q : A -> W -> Prop) (w : W) : Prop := wpc (fun _ => True) m Q w.

Lemma runs_ret {A} (a : A) (Q : A -> W -> Prop) w : Q a w -> runs (ret a) Q w.
Proof. done. Qed.

Lemma runs_bind {A B} (m : MC W A) (k : A -> MC W B) (R : A -> W -> Prop) Q w :
  runs m R w -> (forall a w', R a w' -> runs (k a) Q w') -> runs (bind m k) Q w.
Proof. intros Hm Hk. apply wpc_bind. by eapply wpc_mono. Qed.

Lemma runs_mono {A} (m : MC W A) (Q R : A -> W -> Prop) w : runs m R w -> (forall a w', R a w' -> Q a w') -> runs m Q w.
Proof. intros. by eapply wpc_mono. Qed.

Lemma runs_elim {A} (m : MC W A) Q w (o : option A) w' : runs m Q w -> m w = (o, w') -> match o with Some a => Q a w' | None => True end.
Proof. unfold runs, wpc. intros H E. rewrite E in H. by destruct o. Qed.

Lemma bind_same {A B} (m m' : MC W A) (k : A -> MC W B) w : m w = m' w -> bind m k w = bind m' k w.
Proof. unfold bind, mbind_st. by intros ->. Qed.

(** A call, after the moment at which the process may die. *)
Lemma runs_ask {A} (f : W -> A * W) (Q : A -> W -> Prop) w :
  (forall w1, calm w w1 -> Q (f w1).1 (f w1).2) -> runs (ask f) Q w.
Proof. intros H. apply wpc_asked; [done|]. intros w1 E. apply H. by eapply hs_dies. Qed.

Lemma runs_calm {A} (f : W -> A * W) w : (forall x, calm x (f x).2) -> runs (ask f) (fun _ => calm w) w.
Proof. intros H. apply runs_ask. intros w1 Hw1. by eapply calm_trans. Qed.

Lemma any_run {A} (m : MC W A) w : runs m (fun _ _ => True) w.
Proof. unfold runs, wpc. by destruct (m w) as [[a|] w']. Qed.

(** Two continuations that agree wherever [m] can lead. *)
Lemma bind_agree {A B} (m : MC W A) (k k' : A -> MC W B) (R : A -> W -> Prop) w :
  runs m R w -> (forall a w', R a w' -> k a w' = k' a w') -> bind m k w = bind m k' w.
Proof. unfold runs, wpc, bind, mbind_st. destruct (m w) as [[a|] w']; [|done]. intros HR Hk. by apply Hk. Qed.

Lemma err_calm ctx w : runs (ask (wt_err ctx)) (fun e w' => calm w w' /\ (over ctx w = true -> e <> None)) w.
Proof.
  apply runs_ask. intros w1 H1. destruct (hs_err ctx w1) as [Hc He]. split; [by eapply calm_trans|].
  intros Ho. apply He. destruct H1 as [(_ & _ & H1) _]. by apply H1.
Qed.

(** ** Reading leases is calm *)
Lemma lstat_calm path w : runs (ask (sf_lstat path)) (fun r w' => calm w w' /\ (r = Err LNotExist -> sessions w' !! path = None)) w.
Proof. apply runs_ask. intros w1 H1. destruct (hs_lstat path w1). split; [by eapply calm_trans|done]. Qed.

Lemma readMetadata_calm dir w : held w = true ->
  runs (readSessionMetadata (W := W) dir)
    (fun r w' => calm w w' /\ forall m realm, r = Ok m -> sessions w' !! dir = Some realm -> sm_RealmID m = realm) w.
Proof.
  intros Hw. unfold readSessionMetadata. eapply runs_bind; [apply lstat_calm|]. intros r w1 [H1 _].
  destruct (negb _); [by apply runs_ret|]. eapply runs_bind; [apply lstat_calm|]. intros r' w2 [H2 _].
  pose proof (calm_trans _ _ _ H1 H2) as H12. destruct (negb _); [by apply runs_ret|].
  eapply runs_bind with (R := fun r w' => calm w w' /\ forall size m realm, r = Ok (size, Some m) -> sessions w' !! dir = Some realm -> sm_RealmID m = realm).
  - apply runs_ask. intros w3 H3. pose proof (hs_metadata (JoinPath [dir; sessionRecordName]) w3) as H4.
    split; [eapply calm_trans; [done|by eapply calm_trans]|]. intros size m realm E Hd. eapply hs_realm; [done|].
    eapply calm_still; [done| |done]. by do 2 (eapply calm_held; [done|]).
  - intros [[size [m|]]|e] w3 [H3 Hm]; apply runs_ret; (split; [done|]); intros m' realm E Hd; [|done|done].
    destruct (_ || _); [done|]. injection E as <-. by eapply Hm.
Qed.

Lemma sessionLive_spec dir realmID w : held w = true ->
  runs (sessionLive (W := W) dir realmID) (fun d w' => calm w w' /\ d <> Some (Ok false) /\
    (d = None -> forall realm, sessions w' !! dir = Some realm -> realmID <> "" /\ realm <> realmID)) w.
Proof.
  intros Hw. unfold sessionLive. eapply runs_bind; [by apply readMetadata_calm|]. intros [m|e] w1 [H1 Hm].
  - apply runs_ret. split; [done|]. destruct (bool_decide_reflect (realmID = "")) as [|Hn]; [done|].
    destruct (bool_decide_reflect (sm_RealmID m = realmID)) as [|Hr]; [done|]. split; [done|].
    intros _ realm Hd. rewrite <- (Hm m realm eq_refl Hd). done.
  - eapply runs_bind; [apply lstat_calm|]. intros r w2 [H2 Hd]. pose proof (calm_trans _ _ _ H1 H2) as H12.
    assert (runs (let* r := ask (sf_lstat (JoinPath [dir; sessionRecordName])) in
                  ret (Some (match r with Err LNotExist => Ok true | _ => Err e end)))
              (fun d w' => calm w w' /\ d <> Some (Ok false) /\
                (d = None -> forall realm, sessions w' !! dir = Some realm -> realmID <> "" /\ realm <> realmID)) w2) as Hk.
    { eapply runs_bind; [apply lstat_calm|]. intros r' w3 [H3 _]. apply runs_ret. split; [by eapply calm_trans|]. split; [|done].
      by destruct r' as [|[]]. }
    destruct r as [info|[]]; try exact Hk. apply runs_ret. split; [done|]. split; [done|]. intros _ realm Hr. by rewrite (Hd eq_refl) in Hr.
Qed.

Lemma anySession_spec realmID entries w : held w = true ->
  (forall dir realm, sessions w !! dir = Some realm ->
     (exists name isDir, In (name, isDir) entries /\ isSession name = true /\ dir = JoinPath [sessionRoot; name])
     \/ (realmID <> "" /\ realm <> realmID)) ->
  runs (anySession (W := W) sessionRoot realmID entries) (fun r w' => calm w w' /\ (r = Ok false -> noSessions realmID w')) w.
Proof.
  revert w. induction entries as [|[name isDir] rest IH]; intros w Hw Hs; cbn [anySession].
  { apply runs_ret. split; [apply calm_refl|]. intros _ dir realm Hd. by destruct (Hs _ _ Hd) as [(? & ? & [] & _)|]. }
  destruct (isSession name) eqn:En; cbn [negb].
  - eapply runs_bind; [by apply sessionLive_spec|]. intros d w1 (H1 & Hf & Hd). destruct d as [r|].
    { apply runs_ret. split; [done|]. intros ->. done. }
    assert (held w1 = true) as Hw1 by by eapply calm_held.
    eapply runs_mono; [apply IH; [done|]|].
    + intros dir realm Hr. destruct (Hs dir realm) as [(n & b & Hin & Hn & ->)|]; [by eapply calm_still| |by right].
      destruct Hin as [[= <- <-]|Hin]; [right; by apply Hd|left; eauto].
    + intros r w2 [H2 Hr]. split; [by eapply calm_trans|done].
  - apply IH; [done|]. intros dir realm Hr. destruct (Hs dir realm Hr) as [(n & b & Hin & Hn & Hd)|]; [|by right].
    destruct Hin as [[= <- <-]|Hin]; [congruence|left; eauto].
Qed.

Lemma realmSessionExists_spec realmID w : held w = true ->
  runs (realmSessionExists (W := W) sessionRoot realmID) (fun r w' => calm w w' /\ (r = Ok false -> noSessions realmID w')) w.
Proof.
  intros Hw. unfold realmSessionExists.
  eapply runs_bind with (R := fun r w' => calm w w' /\ match r with
    | Ok entries => forall dir realm, sessions w' !! dir = Some realm ->
        exists name isDir, In (name, isDir) entries /\ isSession name = true /\ dir = JoinPath [sessionRoot; name]
    | Err LNotExist => sessions w' = ∅ | Err _ => True end).
  { apply runs_ask. intros w1 H1. split; [eapply calm_trans; [done|apply hs_readDir]|apply hs_list]. }
  intros r w1 [H1 Hl]. assert (held w1 = true) as Hw1 by by eapply calm_held.
  destruct r as [entries|e].
  - eapply runs_mono; [apply anySession_spec; [done|]; intros dir realm Hd; left; by eapply Hl|].
    intros r w2 [H2 Hr]. split; [by eapply calm_trans|done].
  - destruct e; apply runs_ret; split; try done. intros _ dir realm. by rewrite Hl.
Qed.

Lemma signalLease_calm dir clientID realmID w : held w = true -> runs (signalLease (W := W) dir clientID realmID) (fun _ => calm w) w.
Proof.
  intros Hw. unfold signalLease. eapply runs_bind; [by apply readMetadata_calm|]. intros [m|e] w1 [H1 _]; [|by apply runs_ret].
  destruct (_ || _); [by apply runs_ret|]. eapply runs_bind; [apply lstat_calm|]. intros r w2 [H2 _].
  destruct (negb _); [apply runs_ret; by eapply calm_trans|].
  eapply runs_bind; [apply runs_calm; intros; apply hs_openWriter|]. intros e w3 H3.
  assert (calm w w3) as H13 by exact (calm_trans _ _ _ H1 (calm_trans _ _ _ H2 H3)).
  destruct e as [e|]; [by destruct e; apply runs_ret|].
  eapply runs_bind; [apply runs_calm; intros; apply hs_writeMark|]. intros e w4 H4.
  eapply runs_bind; [apply runs_calm; intros; apply hs_closeWriter|]. intros e' w5 H5. apply runs_ret.
  exact (calm_trans _ _ _ H13 (calm_trans _ _ _ H4 H5)).
Qed.

Lemma signalLeases_calm root clientID realmID entries first w : held w = true ->
  runs (signalLeases (W := W) root clientID realmID entries first) (fun _ => calm w) w.
Proof.
  revert w first. induction entries as [|[name isDir] rest IH]; intros w first Hw; cbn [signalLeases]; [apply runs_ret, calm_refl|].
  destruct (_ || _); [by apply IH|]. eapply runs_bind; [by apply signalLease_calm|]. intros e w1 H1.
  eapply runs_mono; [apply IH, (calm_held _ _ H1 Hw)|]. intros ? w2 H2. exact (calm_trans _ _ _ H1 H2).
Qed.

Lemma signalSessionLeases_calm root clientID realmID w : held w = true ->
  runs (signalSessionLeases (W := W) root clientID realmID) (fun _ => calm w) w.
Proof.
  intros Hw. unfold signalSessionLeases. eapply runs_bind; [apply runs_calm; intros; apply hs_readDir|]. intros [entries|e] w1 H1.
  - eapply runs_mono; [apply signalLeases_calm, (calm_held _ _ H1 Hw)|]. intros ? w2 H2. exact (calm_trans _ _ _ H1 H2).
  - destruct e; by apply runs_ret.
Qed.


(** ** The lock *)

(** The lock is held when the loop says so; a loop that runs out of fuel spent its
    rounds before the deadline, one poll apart. *)
Lemma acquireFlock_spec fuel ctx w :
  runs (acquireFlock (W := W) fuel ctx (activationLock activationRoot)) (fun l w' => quiet w w' /\
    (l = Locked -> held w' = true) /\ (forall e, l = Returned e -> e <> None) /\
    (l = Waits -> forall t n, ctx = Some t -> fuel = S n -> (clock w + Z.of_nat n * lockPoll < t)%Z)) w.
Proof.
  revert w. induction fuel as [|fuel IH]; intros w; cbn [acquireFlock]; [apply runs_ret; split_and!; [apply quiet_refl|done..]|].
  eapply runs_bind; [apply err_calm|].
  intros [e|] w1 [[H1 _] He]; [apply runs_ret; split_and!; [done|done|by intros ? [= <-]|done]|].
  eapply runs_bind with (R := fun e w2 => quiet w w2 /\ (e = None -> held w2 = true)).
  { apply runs_ask. intros w2 [H2 _]. destruct (hs_flock w2) as [H3 Hh]. split; [|done].
    eapply quiet_trans; [exact H1|by eapply quiet_trans]. }
  intros [e|] w2 [H2 Hh]; [|apply runs_ret; split_and!; [done|by intros _; apply Hh|done..]].
  destruct (negb (retried e)); [apply runs_ret; split_and!; [done|done|by intros ? [= <-]|done]|].
  eapply runs_bind with (R := fun done w3 => quiet w w3 /\ if done : bool then over ctx w3 = true else (clock w + lockPoll <= clock w3)%Z).
  { apply runs_ask. intros w3 [H3 _]. destruct (hs_after ctx lockPoll w3) as [[H4 _] Hd].
    pose proof (quiet_trans _ _ _ H2 H3) as H23. split; [by eapply quiet_trans|].
    destruct (wt_after ctx lockPoll w3) as [[] w4]; [done|]. destruct H23 as [H23 _]. cbn in *. lia. }
  intros [] w3 [H3 Hd].
  - eapply runs_bind; [apply err_calm|]. intros e' w4 [[H4 _] He']. apply runs_ret.
    split_and!; [by eapply quiet_trans|done| |done]. intros ? [= <-]. by apply He'.
  - eapply runs_mono; [apply IH|]. intros l w4 (H4 & Hl & Hr & Hn). split_and!; [by eapply quiet_trans|done|done|].
    intros -> t n -> [= ->]. destruct n as [|n].
    + destruct (Z.ltb_spec (clock w) t); [lia|]. exfalso. by apply He; [apply hs_deadline|].
    + specialize (Hn eq_refl t n eq_refl eq_refl). lia.
Qed.

(** ** Waiting for the sessions *)
Lemma awaitSessions_ends fuel t started ticks realmID publish w : held w = true ->
  (t <= started + barrierTimeout)%Z -> (started + Z.of_nat ticks * barrierTick <= clock w)%Z ->
  runs (awaitSessions (W := W) sessionRoot fuel (Some t) started ticks realmID publish) (fun r w' => r = Spinning ->
    (late w + fuel <= late w' + (600 - ticks))%nat) w.
Proof.
  revert w ticks. induction fuel as [|fuel IH]; intros w ticks Hw Ht Hs; cbn [awaitSessions]; [apply runs_ret; lia|].
  eapply runs_bind; [by apply realmSessionExists_spec|]. intros r w1 [H1 _]. destruct r as [[]|e]; [| |by apply runs_ret].
  - eapply runs_bind with (R := fun done w2 => held w2 = true /\ (done = false ->
      (late w <= late w2)%nat /\ ((ticks < 600)%nat \/ late w2 = S (late w)) /\
      (started + Z.of_nat (S ticks) * barrierTick <= clock w2)%Z)).
    { apply runs_ask. intros w2 H2. pose proof (calm_trans _ _ _ H1 H2) as H12.
      pose proof (hs_tick (Some t) started barrierTick ticks w2) as Hk.
      destruct (wt_tick (Some t) started barrierTick ticks w2) as [d w3]. destruct Hk as (_ & _ & Hh & _ & Hl & Hc). cbn.
      split; [rewrite Hh; by eapply calm_held|]. intros ->. cbn in Hl.
      destruct H12 as ((Hck & Hl' & _) & _). rewrite Hl' in Hl. split_and!; [lia| |by apply Hc].
      destruct (over (Some t) w2) eqn:Eo; [right; lia|left].
      destruct (Z.leb_spec t (clock w2)) as [Hle|Hlt]; [by rewrite (hs_deadline t w2 Hle) in Eo|].
      unfold barrierTimeout, barrierTick, Second in *. lia. }
    intros d w2 [Hh Hd]. destruct d.
    { eapply runs_bind; [apply err_calm|]. intros e w3 _. by apply runs_ret. }
    destruct (Hd eq_refl) as (Hl & Hor & Hc). eapply runs_mono; [by apply IH|]. intros r w3 Hr Hsp. specialize (Hr Hsp). lia.
  - eapply runs_bind; [apply err_calm|]. intros [e|] w2 _; [by apply runs_ret|].
    eapply runs_bind; [apply any_run|]. intros e w3 _. by apply runs_ret.
Qed.

(** Two publications that agree where no session is left. *)
Definition agree (realmID : string) (publish publish' : MC W (option serr)) : Prop :=
  forall w, held w = true -> noSessions realmID w -> publish w = publish' w.

Lemma awaitSessions_agree fuel ctx started ticks realmID publish publish' w : agree realmID publish publish' -> held w = true ->
  awaitSessions (W := W) sessionRoot fuel ctx started ticks realmID publish w =
  awaitSessions (W := W) sessionRoot fuel ctx started ticks realmID publish' w.
Proof.
  intros Ha. revert w ticks. induction fuel as [|fuel IH]; intros w ticks Hw; cbn [awaitSessions]; [done|].
  eapply bind_agree; [by apply realmSessionExists_spec|]. intros r w1 [H1 Hn]. pose proof (calm_held _ _ H1 Hw) as Hw1.
  destruct r as [[]|e]; [| |done].
  - eapply bind_agree with (R := fun _ w2 => held w2 = true).
    { apply runs_ask. intros w2 H2. pose proof (hs_tick ctx started barrierTick ticks w2) as Hk.
      destruct (wt_tick ctx started barrierTick ticks w2) as [d w3]. destruct Hk as (_ & _ & Hh & _). cbn. rewrite Hh. by eapply calm_held. }
    intros [] w2 Hw2; [done|by apply IH].
  - eapply bind_agree; [apply err_calm|]. intros [e|] w2 [H2 _]; [done|]. apply bind_same, Ha; [by eapply calm_held|].
    by eapply noSessions_calm; [| |apply Hn].
Qed.

(** ** The barrier *)

(** The part under the lock. *)
Lemma underLock_ends fuel t realmID publish w : held w = true -> (t <= clock w + barrierTimeout)%Z ->
  runs (let* e := ask (wt_err (Some t)) in
        match e with Some e => ret (Finished (Err e)) | None =>
        let* e := signalSessionLeases sessionRoot "" realmID in
        match e with Some e => ret (Finished (Err e)) | None =>
        let* started := ask wt_newTicker in
        awaitSessions sessionRoot fuel (Some t) started 0 realmID publish end end)
    (fun r w' => r = Spinning -> (late w + fuel <= late w' + 600)%nat) w.
Proof.
  intros Hw Ht. eapply runs_bind; [apply err_calm|]. intros [e|] w1 [H1 _]; [by apply runs_ret|].
  eapply runs_bind; [apply signalSessionLeases_calm, (calm_held _ _ H1 Hw)|]. intros [e|] w2 H2; [by apply runs_ret|].
  pose proof (calm_trans _ _ _ H1 H2) as H12.
  eapply runs_bind with (R := fun started w3 => calm w w3 /\ (t <= started + barrierTimeout)%Z /\ (started <= clock w3)%Z).
  { apply runs_ask. intros w3 H3. destruct (hs_newTicker w3) as [H4 Hc]. pose proof (calm_trans _ _ _ H12 H3) as H13.
    split; [by eapply calm_trans|]. destruct H13 as ((Hck & _) & _). destruct (wt_newTicker w3) as [started w4]. cbn in *. lia. }
  intros started w3 (H3 & Hs & Hc). eapply runs_mono; [apply awaitSessions_ends; [by eapply calm_held|done|lia]|].
  intros r w4 Hr Hsp. specialize (Hr Hsp). destruct H3 as ((_ & Hl & _) & _). rewrite Hl in Hr. lia.
Qed.

Lemma withTimeout_spec ctx d w : runs (withTimeout (W := W) ctx d) (fun c w' => calm w w' /\ exists t, c = Some t /\ (t <= clock w' + d)%Z) w.
Proof.
  unfold withTimeout. eapply runs_bind with (R := fun now w' => calm w w' /\ (now <= clock w')%Z).
  { apply runs_ask. intros w1 H1. destruct (hs_now w1). split; [by eapply calm_trans|done]. }
  intros now w1 [H1 Hn]. apply runs_ret. split; [done|]. destruct ctx as [t|]; eexists; (split; [done|]); unfold Add; lia.
Qed.

Lemma runs_quiet {A} (f : W -> A * W) w : (forall x, quiet x (f x).2) -> runs (ask f) (fun _ => quiet w) w.
Proof. intros H. apply runs_ask. intros w1 [H1 _]. by eapply quiet_trans. Qed.

(** What is shown of [run] under the lock holds of the whole, up to the unlock. *)
Lemma locked_runs fuel ctx run (Q : outcome unit -> W -> Prop) w :
  (forall e w', Q (Finished (Err e)) w') ->
  (forall w', quiet w w' -> (forall t n, ctx = Some t -> fuel = S n -> (clock w + Z.of_nat n * lockPoll < t)%Z) -> Q Spinning w') ->
  (forall w1, quiet w w1 -> held w1 = true -> runs run (fun r w2 => forall w3, quiet w2 w3 -> Q r w3) w1) ->
  runs (withFileLockContext (W := W) fuel tt ctx (activationLock activationRoot) run) Q w.
Proof.
  intros He Hs Hr. unfold withFileLockContext.
  eapply runs_bind; [apply runs_calm; intros; apply hs_mkdirAll|]. intros [e|] w1 [H1 _]; [by apply runs_ret|].
  eapply runs_bind; [apply runs_calm; intros; apply hs_open|]. intros [e|] w2 [H2 _]; [by apply runs_ret|].
  pose proof (quiet_trans _ _ _ H1 H2) as H12.
  eapply runs_bind; [apply acquireFlock_spec|]. intros l w3 (H3 & Hl & Hn & Hw). pose proof (quiet_trans _ _ _ H12 H3) as H13. destruct l as [|e|].
  - eapply runs_bind; [apply err_calm|]. intros e w4 [H4 _]. pose proof (calm_held _ _ H4 (Hl eq_refl)) as Hh. destruct H4 as [H4 _].
    eapply runs_bind with (R := fun r w5 => forall w6, quiet w5 w6 -> Q r w6).
    { destruct e as [e|]; [by apply runs_ret|]. apply Hr; [by eapply quiet_trans|done]. }
    intros r w5 H5. eapply runs_bind; [apply runs_quiet; intros; apply hs_unlock|]. intros ? w6 H6.
    eapply runs_bind; [apply runs_quiet; intros; apply hs_close|]. intros ? w7 H7. apply runs_ret, H5. exact (quiet_trans _ _ _ H6 H7).
  - eapply runs_bind; [apply any_run|]. intros ? w4 _. apply runs_ret. destruct e as [e|]; [done|]. by destruct (Hn None eq_refl).
  - apply runs_ret, Hs; [done|]. intros t n Hc Hf. specialize (Hw eq_refl t n Hc Hf). destruct H12 as [H12 _]. lia.
Qed.

Lemma locked_agree fuel ctx run run' w : (forall w1, held w1 = true -> run w1 = run' w1) ->
  withFileLockContext (W := W) fuel tt ctx (activationLock activationRoot) run w =
  withFileLockContext (W := W) fuel tt ctx (activationLock activationRoot) run' w.
Proof.
  intros Ha. unfold withFileLockContext. do 2 (eapply bind_agree; [apply any_run|]; intros [e|] ? _; [done|]).
  eapply bind_agree; [apply acquireFlock_spec|]. intros l w3 (_ & Hl & _). destruct l; [|done..].
  eapply bind_agree; [apply err_calm|]. intros e w4 [H4 _]. apply bind_same.
  destruct e; [done|]. apply Ha. exact (calm_held _ _ H4 (Hl eq_refl)).
Qed.

(** C16. The barrier ends: whatever the publication, the parent context, the other
    processes and the sessions do, 751 rounds of each loop are enough, and one more
    for every time a select went on although the deadline had passed; with that
    fuel a run ends in a result or with the death of the process. *)
Theorem barrier_terminates fuel k ctx realmID publish w o w' : (751 + k <= fuel)%nat ->
  withSessionsStopped (W := W) fuel activationRoot sessionRoot ctx realmID publish w = (o, w') -> (late w' <= late w + k)%nat ->
  o = None \/ exists e, o = Some (Finished e).
Proof.
  intros Hf E Hl. enough (runs (withSessionsStopped (W := W) fuel activationRoot sessionRoot ctx realmID publish)
    (fun r w' => r = Spinning -> (late w + k < late w')%nat) w) as H.
  { pose proof (runs_elim _ _ _ _ _ H E) as Ho. destruct o as [[e|]|]; [right; by eexists| |by left]. specialize (Ho eq_refl). lia. }
  unfold withSessionsStopped. eapply runs_bind; [apply withTimeout_spec|]. intros c w1 ([(_ & Hl1 & _) _] & t & -> & Ht).
  apply locked_runs; [done| |].
  - intros w2 _ Hs. destruct fuel as [|n]; [lia|]. specialize (Hs t n eq_refl eq_refl). unfold lockPoll, barrierTimeout, Second in *. lia.
  - intros w2 (Hc & Hl2 & _) Hh. eapply runs_mono; [apply underLock_ends; [done|lia]|].
    intros r w3 Hr w4 (_ & Hl4 & _) Hsp. specialize (Hr Hsp). lia.
Qed.

(** The part under the lock reaches success only through the publication. *)
Lemma underLock_success fuel ctx realmID publish w : held w = true ->
  runs (let* e := ask (wt_err ctx) in
        match e with Some e => ret (Finished (Err e)) | None =>
        let* e := signalSessionLeases sessionRoot "" realmID in
        match e with Some e => ret (Finished (Err e)) | None =>
        let* started := ask wt_newTicker in
        awaitSessions sessionRoot fuel ctx started 0 realmID publish end end)
    (fun r _ => r = Finished (Ok tt) -> exists w1 w2, held w1 = true /\ noSessions realmID w1 /\ publish w1 = (Some None, w2)) w.
Proof.
  intros Hw. eapply runs_bind; [apply err_calm|]. intros [e|] w1 [H1 _]; [by apply runs_ret|].
  eapply runs_bind; [apply signalSessionLeases_calm, (calm_held _ _ H1 Hw)|]. intros [e|] w2 H2; [by apply runs_ret|].
  eapply runs_bind; [apply runs_calm; intros; apply hs_newTicker|]. intros started w3 H3.
  pose proof (calm_held _ _ (calm_trans _ _ _ H1 (calm_trans _ _ _ H2 H3)) Hw) as Hw3. clear -Hw3 HS.
  generalize 0%nat as ticks. revert w3 Hw3. induction fuel as [|fuel IH]; intros w Hw ticks; cbn [awaitSessions]; [by apply runs_ret|].
  eapply runs_bind; [by apply realmSessionExists_spec|]. intros r w1 [H1 Hn]. pose proof (calm_held _ _ H1 Hw) as Hw1.
  destruct r as [[]|e]; [| |by apply runs_ret].
  - eapply runs_bind with (R := fun _ w2 => held w2 = true).
    { apply runs_ask. intros w2 H2. pose proof (hs_tick ctx started barrierTick ticks w2) as Hk.
      destruct (wt_tick ctx started barrierTick ticks w2) as [d w3]. destruct Hk as (_ & _ & Hh & _). cbn. rewrite Hh. by eapply calm_held. }
    intros [] w2 Hw2; [|by apply IH]. eapply runs_bind; [apply any_run|]. intros ? ? _. by apply runs_ret.
  - eapply runs_bind; [apply err_calm|]. intros [e|] w2 [H2 _]; [by apply runs_ret|].
    pose proof (calm_held _ _ H2 Hw1) as Hw2. pose proof (noSessions_calm _ _ _ H2 Hw1 (Hn eq_refl)) as Hn2.
    unfold runs, wpc, bind, mbind_st. destruct (publish w2) as [[e|] w3] eqn:E; [|done]. cbn. intros He. exists w2, w3.
    split_and!; [done|done|]. by destruct e.
Qed.

(** C15. No session outlives the barrier: the publication is only ever run while
    this process holds the activation lock and no lease of the realm is left (two
    publications that agree there make no difference), and success is reported only
    after it was run and succeeded. *)
Theorem barrier_excludes_sessions fuel ctx realmID publish w :
  (forall publish', agree realmID publish publish' ->
     withSessionsStopped (W := W) fuel activationRoot sessionRoot ctx realmID publish w =
     withSessionsStopped (W := W) fuel activationRoot sessionRoot ctx realmID publish' w) /\
  (forall w', withSessionsStopped (W := W) fuel activationRoot sessionRoot ctx realmID publish w = (Some (Finished (Ok tt)), w') ->
     exists w1 w2, held w1 = true /\ noSessions realmID w1 /\ publish w1 = (Some None, w2)).
Proof.
  split.
  - intros publish' Ha. unfold withSessionsStopped. eapply bind_agree; [apply any_run|]. intros c w1 _. apply locked_agree. intros w2 Hw2.
    eapply bind_agree; [apply err_calm|]. intros [e|] w3 [H3 _]; [done|]. pose proof (calm_held _ _ H3 Hw2) as Hw3.
    eapply bind_agree; [by apply signalSessionLeases_calm|]. intros [e|] w4 H4; [done|].
    eapply bind_agree; [apply runs_calm; intros; apply hs_newTicker|]. intros started w5 H5.
    apply awaitSessions_agree; [done|]. exact (calm_held _ _ (calm_trans _ _ _ H4 H5) Hw3).
  - intros w' E. enough (runs (withSessionsStopped (W := W) fuel activationRoot sessionRoot ctx realmID publish) (fun r _ => r = Finished (Ok tt) ->
      exists w1 w2, held w1 = true /\ noSessions realmID w1 /\ publish w1 = (Some None, w2)) w) as H
      by exact (runs_elim _ _ _ _ _ H E eq_refl).
    unfold withSessionsStopped. eapply runs_bind; [apply any_run|]. intros c w1 _.
    apply locked_runs; [done|done|]. intros w2 _ Hw2. eapply runs_mono; [by apply underLock_success|]. intros r w3 Hr w4 _. done.
Qed.

End Rules.
