(* ===== verification/Activation.v ===== *)
(** * Activation: client installations from ticket to revocation

    Models src/pkg/activation/activation.go and realm_removal.go: the record of an
    installation ([staged], [active], [expired], [revoking], [revoked]), the proof
    of possession, the claim of a session, the publication and revocation of a
    client, the fence a realm removal sets, and the rendering of authorized_keys
    and of the service authz file from the records.  Everything runs under the
    activation lock of [SessionLeases].

    Parameters: [SSHKeys] (golang.org/x/crypto/ssh) and [ActivationFiles], with the
    record files, the admission gate of internal/storagewatch, and the commits of
    client files to the service working copy, which run svn. *)
From S2P Require Import Prelude GoStrings Passport Naming ServerBase RealmRecords SessionLeases.
From Stdlib Require Import Ascii String.

Open Scope string_scope.
Open Scope go_scope.

(** ** Data *)
Record MobileRepositoryGrant := MobileGrant { mg_RepoID : string; mg_Access : string; mg_AttachmentPolicy : string }.

#[export] Instance MobileRepositoryGrant_eq_dec : EqDecision MobileRepositoryGrant.
Proof. solve_decision. Defined.

Record ActivationRecord := ActRec {
  ar_Schema : string;
  ar_OperationID : string;
  ar_DeployRequestID : string;
  ar_ClientID : string;
  ar_RealmID : string;
  ar_Kind : string;
  ar_Repositories : list MobileRepositoryGrant;
  ar_PublicKey : string;
  ar_Fingerprint : string;
  ar_State : string;
  ar_CreatedAt : Time;
  ar_ExpiresAt : Time;
  ar_ActivatedAt : option Time;
  ar_ServiceRevision : Z;
  ar_RevokedAt : option Time;
  ar_RevokeReason : string
}.

#[export] Instance ActivationRecord_eq_dec : EqDecision ActivationRecord.
Proof. solve_decision. Defined.

Record Receipt := PossessionReceipt { rc_OperationID : string; rc_ClientID : string; rc_At : Time }.

Record RealmRemovalFence := Fence { fn_OperationID : string; fn_RealmID : string; fn_ClientIDs : list string; fn_CreatedAt : Time }.

Record ActivationGrant := ActGrant {
  ag_OperationID : string;
  ag_ClientID : string;
  ag_RealmID : string;
  ag_Kind : string;
  ag_Repositories : list MobileRepositoryGrant;
  ag_DeployRequestID : string;
  ag_PublicKey : string;
  ag_Fingerprint : string;
  ag_ExpiresAt : Time
}.

Record Config := MkConfig {
  cf_Root : string;
  cf_SessionRoot : string;
  cf_AuthorizedKeysFile : string;
  cf_AuthzFile : string;
  cf_DataAuthzFile : string;
  cf_ClientEntryPath : string;
  cf_MobileEntryPath : string;
  cf_SingleActivationPerRealm : bool;
  cf_ServiceWorkingCopyHeld : bool
}.

Definition RecordSchema : string := "filees.activation-record/v1".
Definition KindDesktop : string := "desktop".
Definition KindMobile : string := "mobile".

(** [record.State, record.RevokedAt, record.RevokeReason = "revoking", &now, reason] *)
Definition markRevoking (now : Time) (reason : string) (r : ActivationRecord) : ActivationRecord :=
  ActRec (ar_Schema r) (ar_OperationID r) (ar_DeployRequestID r) (ar_ClientID r) (ar_RealmID r) (ar_Kind r) (ar_Repositories r)
         (ar_PublicKey r) (ar_Fingerprint r) "revoking" (ar_CreatedAt r) (ar_ExpiresAt r) (ar_ActivatedAt r) (ar_ServiceRevision r)
         (Some now) reason.
Definition markState (state : string) (at_ : option Time) (revision : Z) (r : ActivationRecord) : ActivationRecord :=
  ActRec (ar_Schema r) (ar_OperationID r) (ar_DeployRequestID r) (ar_ClientID r) (ar_RealmID r) (ar_Kind r) (ar_Repositories r)
         (ar_PublicKey r) (ar_Fingerprint r) state (ar_CreatedAt r) (ar_ExpiresAt r) at_ revision (ar_RevokedAt r) (ar_RevokeReason r).
Definition markExpired (r : ActivationRecord) : ActivationRecord := markState "expired" (ar_ActivatedAt r) (ar_ServiceRevision r) r.
Definition markActive (at_ : Time) (revision : Z) (r : ActivationRecord) : ActivationRecord := markState "active" (Some at_) revision r.
Definition markRevoked (revision : Z) (r : ActivationRecord) : ActivationRecord := markState "revoked" (ar_ActivatedAt r) revision r.

Definition isLive (r : ActivationRecord) : bool := bool_decide (ar_State r = "staged") || bool_decide (ar_State r = "active").

(** What ssh.ParseAuthorizedKey tells of one line. *)
Record SSHKey := Key { k_ed25519 : bool; k_comment : string; k_options : nat; k_rest : string; k_fingerprint : string; k_text : string }.
Class SSHKeys := { parseAuthorizedKey : string -> option SSHKey }.

Class ActivationFiles (W : Type) := {
  ac_now : W -> Time * W;
  ac_readRecord : string -> W -> result lerr ActivationRecord * W;
  ac_writeRecord : string -> ActivationRecord -> W -> option lerr * W;
  ac_readReceipt : string -> W -> result lerr Receipt * W;
  ac_writeReceipt : string -> Receipt -> W -> option lerr * W;
  ac_removeReceipt : string -> W -> option lerr * W;
  ac_readFence : string -> W -> result lerr RealmRemovalFence * W;
  ac_writeFence : string -> RealmRemovalFence -> W -> option lerr * W;
  ac_readDir : string -> W -> result lerr (list (string * bool)) * W;
  ac_mkdirAll : string -> W -> option lerr * W;
  ac_writeFile : string -> string -> W -> option lerr * W;
  (* storagewatch.Gate.CheckInstallationAdmission *)
  ac_admission : W -> option lerr * W;
  (* the lock of the service working copy with its reconciliation, and its release,
     with another reconciliation after an error *)
  ac_enterWorkingCopy : W -> option lerr * W;
  ac_leaveWorkingCopy : bool -> W -> unit * W;
  (* publishServiceFiles, publishRevocation, rebuildDataAuthority and the revision of the view *)
  ac_publishFiles : ActivationRecord -> Time -> W -> result lerr Z * W;
  ac_publishRevocation : ActivationRecord -> W -> result lerr Z * W;
  ac_rebuildAuthority : W -> option lerr * W;
  ac_viewRevision : string -> W -> result lerr Z * W
}.

(** ** Pure rules *)
Section Pure.
  Context `{!Ids} `{!SSHKeys}.

Definition validateGrant (g : ActivationGrant) : result lerr string :=
  if negb (isUUID (ag_OperationID g) && isUUID (ag_DeployRequestID g) && isUUID (ag_ClientID g) && isUUID (ag_RealmID g)) then Err LUuid
  else match parseAuthorizedKey (TrimSpace (ag_PublicKey g)) with
       | None => Err LInvalid
       | Some key =>
           if negb (k_ed25519 key) || negb (k_options key =? 0)%nat || negb (bool_decide (TrimSpace (k_rest key) = ""))
              || bool_decide (k_comment key = "")
           then Err LInvalid
           else if negb (bool_decide (k_fingerprint key = ag_Fingerprint g)) then Err LInvalid
           else if IsZero (ag_ExpiresAt g) then Err LInvalid
           else Ok (TrimSpace (k_text key) ++ " " ++ k_comment key)
       end.

Definition sameGrant (r : ActivationRecord) (g : ActivationGrant) (canonical : string) : bool :=
  bool_decide (ar_OperationID r = ag_OperationID g) && bool_decide (ar_DeployRequestID r = ag_DeployRequestID g)
  && bool_decide (ar_ClientID r = ag_ClientID g) && bool_decide (ar_RealmID r = ag_RealmID g) && bool_decide (ar_Kind r = ag_Kind g)
  && bool_decide (ar_PublicKey r = canonical) && bool_decide (ar_Fingerprint r = ag_Fingerprint g).

Definition stagedRecord (g : ActivationGrant) (canonical : string) (now : Time) : ActivationRecord :=
  ActRec RecordSchema (ag_OperationID g) (ag_DeployRequestID g) (ag_ClientID g) (ag_RealmID g) (ag_Kind g) (ag_Repositories g)
         canonical (ag_Fingerprint g) "staged" now (ag_ExpiresAt g) None 0%Z None "".

Definition validateRevokeReason (reason : string) : result lerr string :=
  let reason := TrimSpace reason in
  if bool_decide (reason = "") || (200 <? len reason)%Z || ContainsAny reason (str [0x0D; 0x0A]%Z) then Err LReason else Ok reason.

(** Adjacent equal elements, which sorting brings together. *)
Fixpoint adjacent (ids : list string) : bool :=
  match ids with
  | a :: ((b :: _) as rest) => bool_decide (a = b) || adjacent rest
  | _ => false
  end.

Definition validateRealmRemovalFenceIDs (realmID operationID : string) (clientIDs : list string) : result lerr (list string) :=
  let ids := merge_sort strLe clientIDs in
  if negb (isUUID realmID && isUUID operationID) || negb (forallb isUUID ids) || adjacent ids then Err LUuid else Ok ids.

(** [idSet]; [equalIDs] is equality of lists. *)
Definition idSet (ids : list string) : gset string := list_to_set ids.

(** One record of the realm against the snapshot. *)
Definition removalConflict (targets : gset string) (realmID revokeReason : string) (r : ActivationRecord) : bool :=
  if negb (bool_decide (ar_RealmID r = realmID)) then false
  else if bool_decide (ar_ClientID r ∈ targets) then
    if isLive r then false
    else if bool_decide (ar_State r = "revoking") then
      bool_decide (revokeReason = "") || negb (bool_decide (ar_RevokeReason r = revokeReason))
    else negb (bool_decide (ar_State r = "expired") || bool_decide (ar_State r = "revoked"))
  else isLive r || bool_decide (ar_State r = "revoking").

Definition validateRealmRemovalRecords (records : list ActivationRecord) (realmID : string) (expected : list string) (revokeReason : string)
    : option lerr :=
  if existsb (removalConflict (idSet expected) realmID revokeReason) records then Some LConflict
  else if forallb (fun id => existsb (fun r => bool_decide (ar_RealmID r = realmID) && bool_decide (ar_ClientID r = id)) records) expected
       then None else Some LConflict.

Definition validFence (realmID : string) (f : RealmRemovalFence) : bool :=
  bool_decide (fn_RealmID f = realmID) && negb (IsZero (fn_CreatedAt f))
  && match validateRealmRemovalFenceIDs (fn_RealmID f) (fn_OperationID f) (fn_ClientIDs f) with
     | Ok ids => bool_decide (ids = fn_ClientIDs f)
     | Err _ => false
     end.

(** *** The rendered access files *)
Definition eol : string := str [0x0A]%Z.
Definition quote : string := str [0x22]%Z.

Definition keyLine (c : Config) (r : ActivationRecord) : result lerr string :=
  match parseAuthorizedKey (ar_PublicKey r) with
  | None => Err LInvalid
  | Some key =>
      if bool_decide (ar_Kind r = KindMobile) && bool_decide (cf_MobileEntryPath c = "") then Err LRecord
      else
        let entryPath := if bool_decide (ar_Kind r = KindMobile) then cf_MobileEntryPath c else cf_ClientEntryPath c in
        Ok ("restrict,command=" ++ quote ++ entryPath ++ " " ++ ar_OperationID r ++ " " ++ ar_ClientID r ++ quote ++ " " ++
            TrimSpace (k_text key) ++ " filees:" ++ ar_ClientID r ++ eol)
  end.

(** The keys of the live records, in order; the first bad key is an error. *)
Fixpoint renderKeys (c : Config) (records : list ActivationRecord) : result lerr string :=
  match records with
  | [] => Ok ""
  | r :: rest =>
      if negb (isLive r) then renderKeys c rest
      else match keyLine c r with
           | Err e => Err e
           | Ok line => match renderKeys c rest with Err e => Err e | Ok keys => Ok (line ++ keys) end
           end
  end.

Definition isActive (r : ActivationRecord) : bool := bool_decide (ar_State r = "active").

Definition onDesktop (r : ActivationRecord) : bool :=
  isActive r && (bool_decide (ar_Kind r = "") || bool_decide (ar_Kind r = KindDesktop)).

Definition grantLine (id : string) : string := id ++ " = r" ++ eol.

Definition concatLines (l : list string) : string := List.fold_right String.append "" l.

Definition renderServiceAuthz (records : list ActivationRecord) : string :=
  "[/]" ++ eol ++ "* =" ++ eol ++ eol ++ "[/proof]" ++ eol ++
  concatLines (List.map (fun r => grantLine (ar_ClientID r)) (List.filter isLive records)) ++
  concatLines (List.map (fun r => eol ++ "[/clients/" ++ ar_ClientID r ++ "]" ++ eol ++ grantLine (ar_ClientID r)) (List.filter isActive records)) ++
  let desktops := List.filter onDesktop records in
  concatLines (List.map (fun realm =>
      eol ++ "[/alerts/" ++ realm ++ "]" ++ eol ++
      concatLines (List.map (fun r => grantLine (ar_ClientID r)) (List.filter (fun r => bool_decide (ar_RealmID r = realm)) desktops)))
    (merge_sort strLe (remove_dups (List.map ar_RealmID desktops)))).

End Pure.

Definition recordByClient (a b : ActivationRecord) : Prop := strLe (ar_ClientID a) (ar_ClientID b).

#[export] Instance recordByClient_dec a b : Decision (recordByClient a b).
Proof. unfold recordByClient. apply _. Defined.

(** ** Operations *)
Section Operations.
  Context {W : Type} {ids : Ids} `{!SSHKeys} `{!Mortal W} `{!SessionFiles W} `{!Waiting W} `{!ActivationFiles W}.
  Variables (fuel : nat) (c : Config).

Definition recordsDir : string := JoinPath [cf_Root c; "records"].
Definition proofsDir : string := JoinPath [cf_Root c; "proofs"].
Definition recordPath (id : string) : string := JoinPath [recordsDir; id ++ ".json"].
Definition receiptPath (id : string) : string := JoinPath [proofsDir; id ++ ".json"].
Definition realmRemovalFencePath (realmID : string) : string := JoinPath [cf_Root c; "realm-removal-fences"; realmID ++ ".json"].
Definition sessionRoot : string := if bool_decide (cf_SessionRoot c = "") then JoinPath [cf_Root c; "sessions"] else cf_SessionRoot c.

(** [withFileLock] on the activation lock. *)
Definition locked {A} (zero : A) (run : MC W (result lerr A)) : MC W (outcome A) :=
  withFileLock fuel zero (activationLock (cf_Root c)) (let* r := run in ret (Finished r)).

(** [if err != nil { return err }] before a result. *)
Definition orFail {A} (e : option lerr) (k : MC W (result lerr A)) : MC W (result lerr A) :=
  match e with Some e => ret (Err e) | None => k end.

Fixpoint readRecords (entries : list (string * bool)) (acc : list ActivationRecord) : MC W (result lerr (list ActivationRecord)) :=
  match entries with
  | [] => ret (Ok acc)
  | (name, isDir) :: rest =>
      if isDir || negb (HasSuffix name ".json") then readRecords rest acc
      else
        let* r := ask (ac_readRecord (JoinPath [recordsDir; name])) in
        ok? record := r in readRecords rest (acc ++ [record])
  end.

Definition recordsLocked : MC W (result lerr (list ActivationRecord)) :=
  let* r := ask (ac_readDir recordsDir) in
  match r with
  | Err LNotExist => ret (Ok [])
  | Err e => ret (Err e)
  | Ok entries =>
      let* r := readRecords entries [] in
      ok? records := r in ret (Ok (merge_sort recordByClient records))
  end.

Definition renderAccessLocked : MC W (result lerr unit) :=
  let* r := recordsLocked in
  ok? records := r in
  ok? keys := renderKeys c records in
  let* e := ask (ac_writeFile (cf_AuthorizedKeysFile c) keys) in
  orFail e (
    let* e := ask (ac_writeFile (cf_AuthzFile c) (renderServiceAuthz records)) in
    ret (match e with Some e => Err e | None => Ok tt end)).

Definition RefreshAlertAccess : MC W (outcome unit) := locked tt renderAccessLocked.

(** *** Staging and expiry *)
Fixpoint expireRecords (now : Time) (records : list ActivationRecord) (count : nat) : MC W (result lerr nat) :=
  match records with
  | [] => ret (Ok count)
  | r :: rest =>
      if negb (bool_decide (ar_State r = "staged")) || Before now (ar_ExpiresAt r) then expireRecords now rest count
      else
        let* e := ask (ac_writeRecord (recordPath (ar_OperationID r)) (markExpired r)) in
        orFail e (
          let* _ := ask (ac_removeReceipt (receiptPath (ar_OperationID r))) in
          expireRecords now rest (S count))
  end.

Definition expireStagedLocked (now : Time) : MC W (result lerr nat) :=
  let* r := recordsLocked in
  ok? records := r in expireRecords now records 0.

Definition loadRealmRemovalFence (realmID : string) : MC W (result lerr RealmRemovalFence) :=
  let* r := ask (ac_readFence (realmRemovalFencePath realmID)) in
  ok? fence := r in ret (if validFence realmID fence then Ok fence else Err LInvalid).

Definition stageNew (g : ActivationGrant) (canonical path : string) : MC W (result lerr unit) :=
  let* r := loadRealmRemovalFence (ag_RealmID g) in
  match r with
  | Ok _ => ret (Err LConflict)
  | Err LNotExist =>
      let* r := (if cf_SingleActivationPerRealm c then
                   let* r := recordsLocked in
                   ok? records := r in
                   ret (if existsb (fun r => bool_decide (ar_RealmID r = ag_RealmID g)) records then Err LConflict else Ok tt)
                 else ret (Ok tt)) in
      ok? _ := r in
      let* now := ask ac_now in
      let* e := ask (ac_writeRecord path (stagedRecord g canonical now)) in
      orFail e renderAccessLocked
  | Err e => ret (Err e)
  end.

Definition Stage (g : ActivationGrant) : MC W (outcome unit) :=
  match validateGrant g with
  | Err e => ret (Finished (Err e))
  | Ok canonical =>
      locked tt (
        let* e := ask (ac_mkdirAll recordsDir) in
        orFail e (
          let* e := ask (ac_mkdirAll proofsDir) in
          orFail e (
            let* now := ask ac_now in
            let* r := expireStagedLocked now in
            ok? _ := r in
            let path := recordPath (ag_OperationID g) in
            let* r := ask (ac_readRecord path) in
            match r with
            | Ok existing => if negb (sameGrant existing g canonical) then ret (Err LConflict) else renderAccessLocked
            | Err LNotExist => stageNew g canonical path
            | Err e => ret (Err e)
            end)))
  end.

Definition CleanupExpired : MC W (outcome nat) :=
  locked 0 (
    let* now := ask ac_now in
    let* r := expireStagedLocked now in
    ok? count := r in
    let* r := renderAccessLocked in
    ok? _ := r in ret (Ok count)).

(** *** Possession and sessions *)
Definition recordProofLocked (operationID clientID : string) : MC W (result lerr ActivationRecord) :=
  let* r := ask (ac_readRecord (recordPath operationID)) in
  ok? record := r in
  let* now := ask ac_now in
  if negb (bool_decide (ar_ClientID record = clientID)) || negb (bool_decide (ar_State record = "staged"))
     || negb (Before now (ar_ExpiresAt record))
  then ret (if bool_decide (ar_ClientID record = clientID) && bool_decide (ar_State record = "active") then Ok record else Err LRecord)
  else
    let* e := ask (ac_writeReceipt (receiptPath operationID) (PossessionReceipt operationID clientID now)) in
    ret (match e with Some e => Err e | None => Ok record end).

Definition RecordProof (operationID clientID : string) : MC W (outcome unit) :=
  if negb (isUUID operationID && isUUID clientID) then ret (Finished (Err LUuid))
  else locked tt (
    let* r := recordProofLocked operationID clientID in
    ok? _ := r in ret (Ok tt)).

Definition ClaimSession (operationID clientID : string) : MC W (outcome (option SessionLease)) :=
  if negb (isUUID operationID && isUUID clientID) then ret (Finished (Err LUuid))
  else locked None (
    let* e := ask ac_admission in
    orFail e (
      let* r := recordProofLocked operationID clientID in
      ok? record := r in
      if negb (isLive record) then ret (Err LRecord)
      else
        let* now := ask ac_now in
        let* r := createSessionLease sessionRoot (Meta "" "" operationID clientID (ar_RealmID record) now) in
        ok? lease := r in ret (Ok (Some lease)))).

Definition SessionAllowed (operationID clientID : string) : MC W bool :=
  let* r := ask (ac_readRecord (recordPath operationID)) in
  match r with
  | Err _ => ret false
  | Ok record =>
      if negb (bool_decide (ar_ClientID record = clientID)) then ret false
      else if bool_decide (ar_State record = "active") then ret true
      else if negb (bool_decide (ar_State record = "staged")) then ret false
      else let* now := ask ac_now in ret (Before now (ar_ExpiresAt record))
  end.

Definition CleanupOrphanedSessionLeases : MC W (outcome nat) :=
  locked 0 (
    let* r := cleanupOrphanedSessionLeases sessionRoot in
    ret (match snd r with Some e => Err e | None => Ok (fst r) end)).

(** *** Publication *)
Definition HasProof (g : ActivationGrant) : MC W (result lerr unit) :=
  let* now := ask ac_now in
  if negb (Before now (ag_ExpiresAt g)) then ret (Err LRecord)
  else
    let* r := ask (ac_readReceipt (receiptPath (ag_OperationID g))) in
    ok? receipt := r in
    ret (if negb (bool_decide (rc_OperationID receipt = ag_OperationID g)) || negb (bool_decide (rc_ClientID receipt = ag_ClientID g))
            || After (rc_At receipt) (ag_ExpiresAt g)
         then Err LRecord else Ok tt).

(** The publication runs in the service working copy, whose lock comes first. *)
Definition withServiceWorkingCopy {A} (fn : MC W (outcome A)) : MC W (outcome A) :=
  if cf_ServiceWorkingCopyHeld c then fn
  else
    let* e := ask ac_enterWorkingCopy in
    match e with
    | Some e => ret (Finished (Err e))
    | None =>
        let* r := fn in
        match r with
        | Spinning => ret Spinning
        | Finished r => let* _ := ask (ac_leaveWorkingCopy (negb (is_ok r))) in ret (Finished r)
        end
    end.

Definition latestRevision (viewPath : string) (revision : Z) : MC W (result lerr Z) :=
  if bool_decide (cf_DataAuthzFile c = "") then ret (Ok revision)
  else
    let* e := ask ac_rebuildAuthority in
    orFail e (
      let* r := ask (ac_viewRevision viewPath) in
      ok? latest := r in
      ret (if (latest <=? 0)%Z then Err LRecord else Ok (if (revision <? latest)%Z then latest else revision))).

Definition Publish (serviceWC : string) (g : ActivationGrant) : MC W (outcome Z) :=
  match validateGrant g with
  | Err e => ret (Finished (Err e))
  | Ok canonical =>
      withServiceWorkingCopy (locked 0%Z (
        let* r := ask (ac_readRecord (recordPath (ag_OperationID g))) in
        ok? record := r in
        if isActive record && sameGrant record g canonical then ret (Ok (ar_ServiceRevision record))
        else
          let* r := HasProof g in
          ok? _ := r in
          if negb (bool_decide (ar_State record = "staged")) || negb (sameGrant record g canonical) then ret (Err LRecord)
          else
            let* r := ask (ac_readReceipt (receiptPath (ag_OperationID g))) in
            ok? receipt := r in
            let* r := ask (ac_publishFiles record (rc_At receipt)) in
            ok? revision := r in
            let* r := latestRevision (JoinPath [serviceWC; "clients"; ar_ClientID record; "view.json"]) revision in
            ok? revision := r in
            let* e := ask (ac_writeRecord (recordPath (ag_OperationID g)) (markActive (rc_At receipt) revision record)) in
            orFail e (
              let* r := renderAccessLocked in
              ok? _ := r in ret (Ok revision))))
  end.

(** *** Revocation *)

(** The one record of a client. *)
Definition selectRecord (clientID : string) (records : list ActivationRecord) : result lerr ActivationRecord :=
  match List.filter (fun r => bool_decide (ar_ClientID r = clientID)) records with
  | [] => Err LNotExist
  | [r] => Ok r
  | _ => Err LConflict
  end.

(** Moves a live record to [revoking]; another is accepted when it already is, for
    the same reason. *)
Definition startRevoking (reason : string) (record : ActivationRecord) : MC W (result lerr ActivationRecord) :=
  if isLive record then
    let* now := ask ac_now in
    let record := markRevoking now reason record in
    let* e := ask (ac_writeRecord (recordPath (ar_OperationID record)) record) in
    ret (match e with Some e => Err e | None => Ok record end)
  else ret (if negb (bool_decide (ar_State record = "revoking")) || negb (bool_decide (ar_RevokeReason record = reason))
               || bool_decide (ar_RevokedAt record = None)
            then Err LConflict else Ok record).

(** The revision, and whether sessions are to be signalled. *)
Definition revokeLocked (clientID reason : string) : MC W (result lerr (Z * bool)) :=
  let* r := recordsLocked in
  ok? records := r in
  ok? record := selectRecord clientID records in
  if bool_decide (ar_State record = "revoked") then
    ret (if negb (bool_decide (ar_RevokeReason record = reason)) then Err LConflict else Ok (ar_ServiceRevision record, true))
  else
    let* r := startRevoking reason record in
    ok? record := r in
    let* r := renderAccessLocked in
    ok? _ := r in
    let* r := ask (ac_publishRevocation record) in
    ok? revision := r in
    let* e := (if bool_decide (cf_DataAuthzFile c = "") then ret None else ask ac_rebuildAuthority) in
    orFail e (
      let* e := ask (ac_writeRecord (recordPath (ar_OperationID record)) (markRevoked revision record)) in
      orFail e (
        let* r := renderAccessLocked in
        ok? _ := r in ret (Ok (revision, true)))).

Definition Revoke (clientID reason : string) : MC W (outcome Z) :=
  if negb (isUUID clientID) then ret (Finished (Err LUuid))
  else match validateRevokeReason reason with
  | Err e => ret (Finished (Err e))
  | Ok reason =>
      let* r := withServiceWorkingCopy (locked (0%Z, false) (revokeLocked clientID reason)) in
      match r with
      | Spinning => ret Spinning
      | Finished (Err e) => ret (Finished (Err e))
      | Finished (Ok (revision, signal)) =>
          if signal : bool then let* _ := signalSessionLeases sessionRoot clientID "" in ret (Finished (Ok revision))
          else ret (Finished (Ok revision))
      end
  end.

(** The clients revoked so far, with the error that stopped it. *)
Fixpoint revokeEach (reason : string) (targets revoked : list string) : MC W (outcome (list string * option lerr)) :=
  match targets with
  | [] => ret (Finished (Ok (revoked, None)))
  | id :: rest =>
      let* r := Revoke id reason in
      match r with
      | Spinning => ret Spinning
      | Finished (Err e) => ret (Finished (Ok (revoked, Some e)))
      | Finished (Ok _) => revokeEach reason rest (revoked ++ [id])
      end
  end.

Fixpoint signalEach (targets : list string) : MC W unit :=
  match targets with
  | [] => ret tt
  | id :: rest => let* _ := signalSessionLeases sessionRoot id "" in signalEach rest
  end.

Definition revokeTargets (reason : string) (r : outcome (list string)) : MC W (outcome (list string * option lerr)) :=
  match r with
  | Spinning => ret Spinning
  | Finished (Err e) => ret (Finished (Err e))
  | Finished (Ok targets) =>
      let* _ := signalEach targets in revokeEach reason targets []
  end.

(** Closes the admission of every client of the realm. *)
Fixpoint closeRealm (realmID reason : string) (records : list ActivationRecord) (targets : list string) : MC W (result lerr (list string)) :=
  match records with
  | [] => ret (Ok targets)
  | r :: rest =>
      if negb (bool_decide (ar_RealmID r = realmID)) || bool_decide (ar_State r = "revoked") then closeRealm realmID reason rest targets
      else
        let* q := startRevoking reason r in
        ok? _ := q in closeRealm realmID reason rest (targets ++ [ar_ClientID r])
  end.

Definition RevokeRealm (realmID reason : string) : MC W (outcome (list string * option lerr)) :=
  if negb (isUUID realmID) then ret (Finished (Err LUuid))
  else match validateRevokeReason reason with
  | Err e => ret (Finished (Err e))
  | Ok reason =>
      let* r := locked [] (
        let* r := recordsLocked in
        ok? records := r in
        let* r := closeRealm realmID reason records [] in
        ok? targets := r in
        let* r := renderAccessLocked in
        ok? _ := r in ret (Ok targets)) in
      revokeTargets reason r
  end.

(** *** Queries *)
Definition earliest (acc : gmap string Time) (r : ActivationRecord) : gmap string Time :=
  match ar_ActivatedAt r with
  | None => acc
  | Some at_ =>
      match acc !! ar_RealmID r with
      | Some first => if Before at_ first then <[ar_RealmID r := at_]> acc else acc
      | None => <[ar_RealmID r := at_]> acc
      end
  end.

Definition RealmActivations : MC W (outcome (gmap string Time)) :=
  locked ∅ (
    let* r := recordsLocked in
    ok? records := r in ret (Ok (fold_left earliest records ∅))).

Definition RealmActivatedAt (realmID : string) : MC W (outcome (option Time)) :=
  let* r := RealmActivations in
  ret (match r with
       | Spinning => Spinning
       | Finished (Err e) => Finished (Err e)
       | Finished (Ok m) => Finished (Ok (m !! realmID))
       end).

Definition ClientRealmActivatedAt (operationID clientID : string) : MC W (outcome (option Time)) :=
  let* r := ask (ac_readRecord (recordPath operationID)) in
  match r with
  | Err e => ret (Finished (Err e))
  | Ok record => if negb (bool_decide (ar_ClientID record = clientID)) then ret (Finished (Err LRecord)) else RealmActivatedAt (ar_RealmID record)
  end.

Definition ActiveClientsInRealm (realmID : string) : MC W (outcome (list string)) :=
  if negb (isUUID realmID) then ret (Finished (Err LUuid))
  else locked [] (
    let* r := recordsLocked in
    ok? records := r in
    ret (Ok (List.map ar_ClientID (List.filter (fun r => bool_decide (ar_RealmID r = realmID) && isLive r) records)))).

(** *** Realm removal *)
Definition RealmRemovalFenceForRealm (realmID : string) : MC W (outcome (option RealmRemovalFence)) :=
  if negb (isUUID realmID) then ret (Finished (Err LUuid))
  else
    let* r := locked None (
      let* r := loadRealmRemovalFence realmID in
      ok? fence := r in ret (Ok (Some fence))) in
    ret (match r with Finished (Err LNotExist) => Finished (Ok None) | r => r end).

Definition FenceRealmRemoval (realmID operationID : string) (clientIDs : list string) : MC W (outcome unit) :=
  match validateRealmRemovalFenceIDs realmID operationID clientIDs with
  | Err e => ret (Finished (Err e))
  | Ok expected =>
      locked tt (
        let* r := loadRealmRemovalFence realmID in
        match r with
        | Ok existing =>
            ret (if negb (bool_decide (fn_OperationID existing = operationID)) || negb (bool_decide (fn_ClientIDs existing = expected))
                 then Err LConflict else Ok tt)
        | Err LNotExist =>
            let* r := recordsLocked in
            ok? records := r in
            orFail (validateRealmRemovalRecords records realmID expected "") (
              let* now := ask ac_now in
              let* e := ask (ac_writeFence (realmRemovalFencePath realmID) (Fence operationID realmID expected now)) in
              ret (match e with Some e => Err e | None => Ok tt end))
        | Err e => ret (Err e)
        end)
  end.

Fixpoint closeTargets (targetSet : gset string) (reason : string) (records : list ActivationRecord) (targets : list string)
    : MC W (result lerr (list string)) :=
  match records with
  | [] => ret (Ok targets)
  | r :: rest =>
      if negb (bool_decide (ar_ClientID r ∈ targetSet)) || bool_decide (ar_State r = "expired") || bool_decide (ar_State r = "revoked")
      then closeTargets targetSet reason rest targets
      else
        let* q := (if isLive r then startRevoking reason r else ret (Ok r)) in
        ok? _ := q in closeTargets targetSet reason rest (targets ++ [ar_ClientID r])
  end.

Definition RevokeRealmRemoval (realmID operationID : string) (clientIDs : list string) (reason : string)
    : MC W (outcome (list string * option lerr)) :=
  match validateRealmRemovalFenceIDs realmID operationID clientIDs with
  | Err e => ret (Finished (Err e))
  | Ok expected =>
      match validateRevokeReason reason with
      | Err e => ret (Finished (Err e))
      | Ok reason =>
          let* r := locked [] (
            let* r := loadRealmRemovalFence realmID in
            ok? fence := r in
            if negb (bool_decide (fn_OperationID fence = operationID)) || negb (bool_decide (fn_ClientIDs fence = expected))
            then ret (Err LConflict)
            else
              let* r := recordsLocked in
              ok? records := r in
              orFail (validateRealmRemovalRecords records realmID expected reason) (
                let* r := closeTargets (idSet expected) reason records [] in
                ok? targets := r in
                let* r := renderAccessLocked in
                ok? _ := r in ret (Ok targets))) in
          revokeTargets reason r
      end
  end.

End Operations.
