(* ===== verification/ActivationWorld.v ===== *)
(** * ActivationWorld: the activation records under several processes

    The records and fences of [Activation] change only under the activation lock.
    [HonestStore] states it as a rely condition: a call made without the lock may
    find that other processes moved the store along [evolves]; under the lock it is
    this process's own.  The proofs discharge the same condition as a guarantee, so
    it holds of any number of processes together.

    [evolves] is the contract: a record stays at its place with its identity and
    its state only follows the life of an installation, which begins staged, a
    fence stays, and no record is added to a fenced realm. *)
From S2P Require Import Prelude GoStrings Passport Naming ServerBase RealmRecords SessionLeases Activation.
From stdpp Require Import relations.
From Stdlib Require Import Ascii String.

Open Scope string_scope.
Open Scope go_scope.

(** ** The life of an installation *)
Inductive follows : string -> string -> Prop :=
| staged_active : follows "staged" "active"
| staged_expired : follows "staged" "expired"
| staged_revoking : follows "staged" "revoking"
| active_revoking : follows "active" "revoking"
| revoking_revoked : follows "revoking" "revoked".

Definition sameInstallation (r r' : ActivationRecord) : Prop :=
  ar_OperationID r' = ar_OperationID r /\ ar_DeployRequestID r' = ar_DeployRequestID r /\ ar_ClientID r' = ar_ClientID r /\
  ar_RealmID r' = ar_RealmID r /\ ar_Kind r' = ar_Kind r /\ ar_PublicKey r' = ar_PublicKey r /\
  ar_Fingerprint r' = ar_Fingerprint r /\ ar_ExpiresAt r' = ar_ExpiresAt r.

(** Access is closed for good. *)
Definition closed (s : string) : Prop := s = "expired" \/ s = "revoking" \/ s = "revoked".

Record advances (r r' : ActivationRecord) : Prop := {
  adv_same : sameInstallation r r';
  adv_state : rtc follows (ar_State r) (ar_State r');
  adv_reason : ar_State r = "revoking" \/ ar_State r = "revoked" -> ar_RevokeReason r' = ar_RevokeReason r
}.

Lemma sameInstallation_trans a b c : sameInstallation a b -> sameInstallation b c -> sameInstallation a c.
Proof. unfold sameInstallation. intuition congruence. Qed.

Lemma follows_closed s s' : closed s -> follows s s' -> closed s'.
Proof. unfold closed. intros [-> |[-> | ->]] H; inversion H; auto. Qed.

(** From a closed state no live one is reached. *)
Lemma closed_forever s s' : rtc follows s s' -> closed s -> closed s'.
Proof. induction 1 as [|a b c' Hab _ IH]; [done|]. intros Ha. by eapply IH, follows_closed. Qed.

Lemma revoking_stays s s' : rtc follows s s' -> s = "revoking" \/ s = "revoked" -> s' = "revoking" \/ s' = "revoked".
Proof.
  induction 1 as [|a b c' Hab _ IH]; [done|]. intros [-> | ->]; inversion Hab; subst; apply IH; auto.
Qed.

Lemma expired_stays s s' : rtc follows s s' -> s = "expired" -> s' = "expired".
Proof. induction 1 as [|a b c' Hab _ IH]; [done|]. intros ->. inversion Hab. Qed.

Lemma advances_refl r : advances r r.
Proof. split; [by unfold sameInstallation|done|done]. Qed.

Lemma advances_trans a b c : advances a b -> advances b c -> advances a c.
Proof.
  intros [H1 H2 H3] [H4 H5 H6]. split; [by eapply sameInstallation_trans|by etrans|].
  intros Ha. rewrite H6; [by apply H3|]. by eapply revoking_stays.
Qed.

Lemma isLive_cases r : isLive r = true -> ar_State r = "staged" \/ ar_State r = "active".
Proof. unfold isLive. intros [H|H]%orb_true_iff; apply bool_decide_eq_true in H; auto. Qed.

Lemma advances_revoking now reason r : isLive r = true -> advances r (markRevoking now reason r).
Proof.
  intros Hl%isLive_cases. split; [by unfold sameInstallation| |].
  - destruct Hl as [-> | ->]; apply rtc_once; constructor.
  - intros H. exfalso. destruct Hl as [E|E], H as [H|H]; congruence.
Qed.

Lemma advances_revoked revision r : ar_State r = "revoking" -> advances r (markRevoked revision r).
Proof. intros Hs. split; [by unfold sameInstallation|rewrite Hs; apply rtc_once; constructor|done]. Qed.

Lemma advances_expired r : ar_State r = "staged" -> advances r (markExpired r).
Proof. intros Hs. split; [by unfold sameInstallation|rewrite Hs; apply rtc_once; constructor|done]. Qed.

Lemma advances_active at_ revision r : ar_State r = "staged" -> advances r (markActive at_ revision r).
Proof. intros Hs. split; [by unfold sameInstallation|rewrite Hs; apply rtc_once; constructor|done]. Qed.

(** ** The store *)
Record Store := MkStore { s_records : gmap string ActivationRecord; s_fences : gmap string RealmRemovalFence }.

Definition putRecord (path : string) (r : ActivationRecord) (s : Store) : Store := MkStore (<[path := r]> (s_records s)) (s_fences s).
Definition putFence (path : string) (f : RealmRemovalFence) (s : Store) : Store := MkStore (s_records s) (<[path := f]> (s_fences s)).

Section Evolution.
  Variable c : Config.

(** Every record lies under the name of its operation. *)
Definition wellKept (s : Store) : Prop := forall path r, s_records s !! path = Some r -> path = recordPath c (ar_OperationID r).

Definition fencedRealm (s : Store) (realmID : string) : Prop := is_Some (s_fences s !! realmRemovalFencePath c realmID).

Record evolves (s s' : Store) : Prop := {
  ev_records path r : s_records s !! path = Some r -> exists r', s_records s' !! path = Some r' /\ advances r r';
  ev_new path r' : s_records s' !! path = Some r' ->
    is_Some (s_records s !! path) \/ (~ fencedRealm s (ar_RealmID r') /\ rtc follows "staged" (ar_State r'));
  ev_fences path f : s_fences s !! path = Some f -> s_fences s' !! path = Some f;
  ev_kept : wellKept s -> wellKept s'
}.

Lemma evolves_refl s : evolves s s.
Proof. split; [|by left; eexists|done|done]. intros path r Hr. exists r. split; [done|apply advances_refl]. Qed.

Lemma evolves_trans s1 s2 s3 : evolves s1 s2 -> evolves s2 s3 -> evolves s1 s3.
Proof.
  intros [A1 A2 A3 A4] [B1 B2 B3 B4]. split; [| |auto|auto].
  - intros path r Hr. destruct (A1 _ _ Hr) as (r' & Hr' & Ha). destruct (B1 _ _ Hr') as (r'' & Hr'' & Hb).
    exists r''. split; [done|by eapply advances_trans].
  - intros path r'' Hr''. destruct (B2 _ _ Hr'') as [[r' Hr']|[Hn Hs]].
    + destruct (B1 _ _ Hr') as (x & Hx & [Hs Hst _]). rewrite Hx in Hr''. injection Hr'' as ->.
      destruct Hs as (_ & _ & _ & -> & _). destruct (A2 _ _ Hr') as [|[Hf Hs]]; [by left|right]. split; [done|by etrans].
    + right. split; [|done]. intros [f Hf]. apply Hn. exists f. by apply A3.
Qed.

(** Writing a successor of the record that is there. *)
Lemma evolves_put path r r' s : s_records s !! path = Some r -> advances r r' -> evolves s (putRecord path r' s).
Proof.
  intros Hr Ha. split; cbn.
  - intros path' x Hx. destruct (decide (path' = path)) as [->|].
    + rewrite Hr in Hx. injection Hx as <-. exists r'. by rewrite lookup_insert_eq.
    + exists x. rewrite lookup_insert_ne by done. split; [done|apply advances_refl].
  - intros path' x. destruct (decide (path' = path)) as [->|]; [left; by eexists|].
    rewrite lookup_insert_ne by done. left. by eexists.
  - done.
  - intros Hk path' x. cbn. intros [[<- <-]|[_ Hx]]%lookup_insert_Some; [|by apply Hk].
    destruct Ha as [(-> & _) _ _]. by apply Hk.
Qed.

(** Writing a new record outside fenced realms. *)
Lemma evolves_add path r' s : s_records s !! path = None -> path = recordPath c (ar_OperationID r') ->
  ~ fencedRealm s (ar_RealmID r') -> ar_State r' = "staged" -> evolves s (putRecord path r' s).
Proof.
  intros Hn Hp Hf Hs. split; cbn.
  - intros path' x Hx. exists x. rewrite lookup_insert_ne by congruence. split; [done|apply advances_refl].
  - intros path' x [[<- <-]|[_ Hx]]%lookup_insert_Some; [right; by rewrite Hs|left; by eexists].
  - done.
  - intros Hk path' x. cbn. intros [[<- <-]|[_ Hx]]%lookup_insert_Some; [done|by apply Hk].
Qed.

Lemma evolves_fence path f s : s_fences s !! path = None -> evolves s (putFence path f s).
Proof.
  intros Hn. split; cbn; [|by left; eexists| |done].
  - intros path' x Hx. exists x. split; [done|apply advances_refl].
  - intros path' x Hx. rewrite lookup_insert_ne by congruence. done.
Qed.

End Evolution.

(** ** The world *)
Class Stored (W : Type) := { store : W -> Store; mine : W -> bool }.

Section Steady.
  Context {W : Type} `{!Stored W}.
  Variable c : Config.

(** Under the lock the store stands still; otherwise it evolves. *)
Definition steady (w w' : W) : Prop :=
  mine w' = mine w /\ if mine w then store w' = store w else evolves c (store w) (store w').

Definition wroteStore (upd : Store -> Store) (e : option lerr) (w w' : W) : Prop :=
  mine w' = true /\ (store w' = upd (store w) \/ (e <> None /\ store w' = store w)).

Lemma steady_refl w : steady w w.
Proof. split; [done|]. destruct (mine w); [done|apply evolves_refl]. Qed.

Lemma steady_trans a b d : steady a b -> steady b d -> steady a d.
Proof.
  intros [H1 H2] [H3 H4]. split; [congruence|]. rewrite H1 in H4. destruct (mine a); [congruence|by eapply evolves_trans].
Qed.

Lemma steady_evolves a b : steady a b -> evolves c (store a) (store b).
Proof. intros [_ H]. destruct (mine a); [rewrite H; apply evolves_refl|done]. Qed.

End Steady.

Class HonestStore (W : Type) `{!Mortal W} `{!SessionFiles W} `{!Waiting W} `{!ActivationFiles W} `{!Stored W} (c : Config) := {
  st_dies (w : W) : if (dies w).1 then mine (dies w).2 = false /\ evolves c (store w) (store (dies w).2) else steady c w (dies w).2;
  st_lstat path w : steady c w (sf_lstat path w).2;
  st_listDir path w : steady c w (sf_readDir path w).2;
  st_readMetadata path w : steady c w (sf_readMetadata path w).2;
  st_writeMetadata path m w : steady c w (sf_writeMetadata path m w).2;
  st_mkdir path w : steady c w (sf_mkdir path w).2;
  st_makeDirs path w : steady c w (sf_mkdirAll path w).2;
  st_chmod path w : steady c w (sf_chmod path w).2;
  st_mkfifo path w : steady c w (sf_mkfifo path w).2;
  st_remove path w : steady c w (sf_remove path w).2;
  st_removeAll path w : steady c w (sf_removeAll path w).2;
  st_openReader path w : steady c w (sf_openReader path w).2;
  st_openWriter path w : steady c w (sf_openWriter path w).2;
  st_writeMark path w : steady c w (sf_writeMark path w).2;
  st_closeWriter path w : steady c w (sf_closeWriter path w).2;
  st_random w : steady c w (sf_random w).2;
  st_err ctx w : steady c w (wt_err ctx w).2;
  st_after ctx d w : steady c w (wt_after ctx d w).2;
  st_background d w : (wt_after None d w).1 = false;
  st_lockDir path w : steady c w (wt_mkdirAll path w).2;
  st_open path w : steady c w (wt_open path w).2;
  st_close path w : steady c w (wt_close path w).2;
  st_flock (w : W) : let '(e, w') := wt_flock (activationLock (cf_Root c)) w in
    evolves c (store w) (store w') /\ mine w' = (if e then mine w else true);
  st_unlock (w : W) : let '(_, w') := wt_unlock (activationLock (cf_Root c)) w in evolves c (store w) (store w') /\ mine w' = false;
  st_now w : steady c w (ac_now w).2;
  st_readReceipt path w : steady c w (ac_readReceipt path w).2;
  st_writeReceipt path r w : steady c w (ac_writeReceipt path r w).2;
  st_removeReceipt path w : steady c w (ac_removeReceipt path w).2;
  st_mkdirAll path w : steady c w (ac_mkdirAll path w).2;
  st_writeFile path s w : steady c w (ac_writeFile path s w).2;
  st_admission w : steady c w (ac_admission w).2;
  st_enter w : steady c w (ac_enterWorkingCopy w).2;
  st_leave b w : steady c w (ac_leaveWorkingCopy b w).2;
  st_publishFiles r t w : steady c w (ac_publishFiles r t w).2;
  st_publishRevocation r w : steady c w (ac_publishRevocation r w).2;
  st_rebuild w : steady c w (ac_rebuildAuthority w).2;
  st_viewRevision path w : steady c w (ac_viewRevision path w).2;
  (* under the lock a read answers what is there, a listing is complete, a write that succeeds is there *)
  st_readRecord path w : steady c w (ac_readRecord path w).2 /\
    (mine w = true -> match (ac_readRecord path w).1 with
      | Ok r => s_records (store w) !! path = Some r
      | Err LNotExist => s_records (store w) !! path = None
      | Err _ => True end);
  st_readFence path w : steady c w (ac_readFence path w).2 /\
    (mine w = true -> (ac_readFence path w).1 = Err LNotExist -> s_fences (store w) !! path = None);
  st_readDir w : steady c w (ac_readDir (recordsDir c) w).2 /\
    (mine w = true -> match (ac_readDir (recordsDir c) w).1 with
      | Ok entries => forall path r, s_records (store w) !! path = Some r ->
          exists name, In (name, false) entries /\ HasSuffix name ".json" = true /\ path = JoinPath [recordsDir c; name]
      | Err LNotExist => s_records (store w) = ∅
      | Err _ => True end);
  st_writeRecord path r w : mine w = true -> wroteStore (putRecord path r) (ac_writeRecord path r w).1 w (ac_writeRecord path r w).2;
  st_writeFence path f w : mine w = true -> wroteStore (putFence path f) (ac_writeFence path f w).1 w (ac_writeFence path f w).2
}.
