(* ===== verification/ActivationProps.v ===== *)
(** * ActivationProps: what every activation request guarantees

    Every request, finished, failed or cut off by the death of its process, moves
    the store along [evolves], whatever the other processes do meanwhile within the
    same contract.  From it: closed installations stay closed, a closed one claims
    no session, a fenced realm gains no installation, and a realm with an expired
    installation cannot be revoked. *)
From S2P Require Import Prelude GoStrings Passport Naming ServerBase RealmRecords SessionLeases Activation ActivationWorld.
From stdpp Require Import relations.
From Stdlib Require Import Ascii String.

Open Scope string_scope.
Open Scope go_scope.

Create HintDb activation.

Section Guarantee.
  Context {W : Type} {ids : Ids} {keys : SSHKeys} `{!Mortal W} `{!SessionFiles W} `{!Waiting W} `{!ActivationFiles W} `{!Stored W}.
  Context (c : Config) {HS : HonestStore W c}.

(** [m] evolves the store, also in death, and ends in [Q]. *)
Definition guar {A} (m : MC W A) (Q : A -> W -> Prop) (w : W) : Prop :=
  wpc (fun w' => evolves c (store w) (store w') /\ mine w' = false) m (fun a w' => evolves c (store w) (store w') /\ Q a w') w.

Lemma guar_ret {A} (a : A) (Q : A -> W -> Prop) w : Q a w -> guar (ret a) Q w.
Proof. intros H. split; [apply evolves_refl|done]. Qed.

Lemma guar_mono {A} (m : MC W A) (Q R : A -> W -> Prop) w : guar m R w -> (forall a w', R a w' -> Q a w') -> guar m Q w.
Proof. intros Hm Hi. eapply wpc_mono; [exact Hm|]. intros a w' [He HR]. split; [done|by apply Hi]. Qed.

Lemma guar_bind {A B} (m : MC W A) (k : A -> MC W B) (R : A -> W -> Prop) Q w :
  guar m R w -> (forall a w', evolves c (store w) (store w') -> R a w' -> guar (k a) Q w') -> guar (bind m k) Q w.
Proof.
  intros Hm Hk. apply wpc_bind. eapply wpc_mono; [exact Hm|]. intros a w' [He HR]. specialize (Hk a w' He HR). unfold guar, wpc in *.
  destruct (k a w') as [[b|] w'']; destruct Hk as [Hk ?]; (split; [by eapply evolves_trans|done]).
Qed.

Lemma guar_elim {A} (m : MC W A) Q w (o : option A) w' : guar m Q w -> m w = (o, w') ->
  evolves c (store w) (store w') /\ match o with Some a => Q a w' | None => mine w' = false end.
Proof. unfold guar, wpc. intros H E. rewrite E in H. by destruct o. Qed.

(** A call, seen from the state it is made in. *)
Lemma guar_ask {A} (f : W -> A * W) (Q : A -> W -> Prop) w :
  (forall w1, steady c w w1 -> evolves c (store w1) (store (f w1).2) /\ Q (f w1).1 (f w1).2) -> guar (ask f) Q w.
Proof.
  intros H. unfold guar. pose proof (st_dies w) as Hd. apply wpc_asked; intros w1 E; rewrite E in Hd; cbn in Hd.
  - by destruct Hd.
  - destruct (H w1 Hd) as [He HQ]. split; [|done]. eapply evolves_trans; [by eapply steady_evolves|done].
Qed.

(** Computations that leave the store alone. *)
Definition still {A} (m : MC W A) : Prop := forall w, guar m (fun _ w' => steady c w w') w.

Lemma still_ret {A} (a : A) : still (ret a).
Proof. intros w. apply guar_ret, steady_refl. Qed.

Lemma still_bind {A B} (m : MC W A) (k : A -> MC W B) : still m -> (forall a, still (k a)) -> still (bind m k).
Proof.
  intros Hm Hk w. eapply guar_bind; [apply Hm|]. intros a w' _ H1. eapply guar_mono; [apply Hk|]. intros b w'' H2. exact (steady_trans c _ _ _ H1 H2).
Qed.

Lemma still_ask {A} (f : W -> A * W) : (forall w, steady c w (f w).2) -> still (ask f).
Proof. intros Hf w. apply guar_ask. intros w1 H1. split; [apply steady_evolves, Hf|exact (steady_trans c _ _ _ H1 (Hf w1))]. Qed.

(** The same under the lock. *)
Lemma still_mine {A} (m : MC W A) w : still m -> mine w = true -> guar m (fun _ w' => mine w' = true /\ store w' = store w) w.
Proof. intros Hm Hw. eapply guar_mono; [apply Hm|]. intros a w' [H1 H2]. rewrite Hw in *. done. Qed.

Hint Resolve st_lstat st_listDir st_readMetadata st_writeMetadata st_mkdir st_makeDirs st_chmod st_mkfifo st_remove st_removeAll
  st_openReader st_openWriter st_writeMark st_closeWriter st_random st_err st_after st_lockDir st_open st_close st_now st_readReceipt
  st_writeReceipt st_removeReceipt st_mkdirAll st_writeFile st_admission st_enter st_leave st_publishFiles st_publishRevocation
  st_rebuild st_viewRevision : activation.

(** Follows the structure of a computation down to its calls. *)
Ltac still_step :=
  match goal with
  | |- still (ret _) => apply still_ret
  | |- still (bind _ _) => apply still_bind; [|intros ?]
  | |- still (ask _) => apply still_ask; intros ?; eauto with activation
  | |- still (match ?x with _ => _ end) => destruct x
  | |- still (orFail _ _) => unfold orFail
  end.
Ltac keep_still := repeat first [still_step | solve [eauto with activation] | progress cbv zeta].

Lemma still_readMetadata dir : still (readSessionMetadata (W := W) dir).
Proof. unfold readSessionMetadata. keep_still. Qed.

Lemma still_validateRoot root : still (validateSessionRoot (W := W) root).
Proof. unfold validateSessionRoot. keep_still. Qed.

Lemma still_makeLeaseDir n root : still (makeLeaseDir (W := W) n root).
Proof. induction n as [|n IH]; cbn [makeLeaseDir]; unfold newSessionID; keep_still. Qed.

Hint Resolve still_readMetadata still_validateRoot still_makeLeaseDir : activation.

Lemma still_createLease root m : still (createSessionLease (W := W) root m).
Proof. unfold createSessionLease. keep_still. Qed.

Lemma still_signalLease dir clientID realmID : still (signalLease (W := W) dir clientID realmID).
Proof. unfold signalLease. keep_still. Qed.

Hint Resolve still_signalLease : activation.

Lemma still_signalLeases root clientID realmID l first : still (signalLeases (W := W) root clientID realmID l first).
Proof. revert first. induction l as [|[name d] l IH]; intros first; cbn [signalLeases]; keep_still. Qed.

Hint Resolve still_signalLeases : activation.

Lemma still_signal root clientID realmID : still (signalSessionLeases (W := W) root clientID realmID).
Proof. unfold signalSessionLeases. keep_still. Qed.

Lemma still_inspectEntries dir l acc : still (inspectEntries (W := W) dir l acc).
Proof. revert acc. induction l as [|[name d] l IH]; intros acc; cbn [inspectEntries]; keep_still. Qed.

Hint Resolve still_inspectEntries : activation.

Lemma still_inspect dir : still (inspectSessionLeaseArtifacts (W := W) dir).
Proof. unfold inspectSessionLeaseArtifacts. keep_still. Qed.

Lemma still_removeEach l : still (removeAll (W := W) l).
Proof. induction l; cbn [removeAll]; keep_still. Qed.

Hint Resolve still_inspect still_removeEach : activation.

Lemma still_removeLease dir : still (removeSessionLease (W := W) dir).
Proof. unfold removeSessionLease. keep_still. Qed.

Hint Resolve still_removeLease : activation.

Lemma still_cleanupLease dir : still (cleanupLease (W := W) dir).
Proof. unfold cleanupLease. keep_still. Qed.

Hint Resolve still_cleanupLease : activation.

Lemma still_cleanupLeases root l n first : still (cleanupLeases (W := W) root l n first).
Proof. revert n first. induction l as [|[name d] l IH]; intros n first; cbn [cleanupLeases]; keep_still. Qed.

Hint Resolve still_cleanupLeases : activation.

Lemma still_cleanup root : still (cleanupOrphanedSessionLeases (W := W) root).
Proof. unfold cleanupOrphanedSessionLeases. keep_still. Qed.

Lemma steady_readRecord path w : steady c w (ac_readRecord path w).2.
Proof. apply st_readRecord. Qed.

Lemma steady_readFence path w : steady c w (ac_readFence path w).2.
Proof. apply st_readFence. Qed.

Lemma steady_readDir w : steady c w (ac_readDir (recordsDir c) w).2.
Proof. apply st_readDir. Qed.

Hint Resolve steady_readRecord steady_readFence steady_readDir : activation.

Lemma still_readRecords l acc : still (readRecords (W := W) c l acc).
Proof. revert acc. induction l as [|[name d] l IH]; intros acc; cbn [readRecords]; keep_still. Qed.

Hint Resolve still_readRecords : activation.

Lemma still_records : still (recordsLocked (W := W) c).
Proof. unfold recordsLocked. keep_still. Qed.

Hint Resolve still_records : activation.

Lemma still_render : still (renderAccessLocked (W := W) c).
Proof. unfold renderAccessLocked. keep_still. Qed.

Lemma still_proof operationID clientID : still (recordProofLocked (W := W) c operationID clientID).
Proof. unfold recordProofLocked. keep_still. Qed.

Lemma still_hasProof g : still (HasProof (W := W) c g).
Proof. unfold HasProof. keep_still. Qed.

Lemma still_latest path revision : still (latestRevision (W := W) c path revision).
Proof. unfold latestRevision. keep_still. Qed.

Lemma still_loadFence realmID : still (loadRealmRemovalFence (W := W) c realmID).
Proof. unfold loadRealmRemovalFence. keep_still. Qed.

Lemma still_signalEach l : still (signalEach (W := W) c l).
Proof. induction l; cbn [signalEach]; keep_still. apply still_signal. Qed.

Hint Resolve still_createLease still_signal still_cleanup still_records still_render
  still_proof still_hasProof still_latest still_loadFence still_signalEach : activation.

(** ** The lock *)
Lemma acquire_guar fuel w : mine w = false -> guar (acquireFlock (W := W) fuel None (activationLock (cf_Root c)))
  (fun l w' => mine w' = (if l is Locked then true else false) /\ (forall e, l = Returned e -> e <> None)) w.
Proof.
  revert w. induction fuel as [|fuel IH]; intros w Hw; cbn [acquireFlock]; [by apply guar_ret|].
  eapply guar_bind; [apply (still_ask (wt_err None)); eauto with activation|].
  intros [e|] w1 _ [H1 _]; rewrite Hw in H1; [apply guar_ret; split; [done|by intros ? [= <-]]|].
  eapply guar_bind with (R := fun e w2 => mine w2 = (if e is Some _ then false else true)).
  { apply guar_ask. intros w2 [H2 _]. pose proof (st_flock w2) as Hf. destruct (wt_flock _ w2) as [[e|] w3]; cbn in *; destruct Hf as [Hf Hm];
      (split; [done|]); [congruence|done]. }
  intros [e|] w2 _ H2; [|by apply guar_ret]. destruct (negb _); [apply guar_ret; split; [done|by intros ? [= <-]]|].
  eapply guar_bind with (R := fun done w3 => mine w3 = false /\ done = false).
  { apply guar_ask. intros w3 [H3 _]. pose proof (st_after None lockPoll w3) as Hs. split; [by apply steady_evolves|].
    split; [destruct Hs as [-> _]; congruence|apply st_background]. }
  intros [] w3 _ [H3 Hd]; [done|]. by apply IH.
Qed.

(** What is shown of [run] under the lock holds of the whole. *)
Lemma locked_guar {A} fuel (zero : A) (run : MC W (result lerr A)) (Q : result lerr A -> W -> Prop) w : mine w = false ->
  (forall w1, mine w1 = true -> evolves c (store w) (store w1) -> guar run (fun r w2 => mine w2 = true /\ Q r w2) w1) ->
  guar (locked fuel c zero run) (fun o w' => mine w' = false /\
    match o with Finished r => (exists e, r = Err e) \/ exists w2, Q r w2 | Spinning => True end) w.
Proof.
  intros Hw Hrun. unfold locked, withFileLock, withFileLockContext.
  eapply guar_bind; [apply (still_ask (wt_mkdirAll _)); eauto with activation|]. intros [e|] w1 He1 [H1 _]; rewrite Hw in H1;
    [apply guar_ret; split; [done|left; by eexists]|].
  eapply guar_bind; [apply (still_ask (wt_open _)); eauto with activation|]. intros [e|] w2 He2 [H2 _]; rewrite H1 in H2;
    [apply guar_ret; split; [done|left; by eexists]|].
  eapply guar_bind; [by apply acquire_guar|]. intros l w3 He3 [H3 Hn]. destruct l as [|e|]; [| |by apply guar_ret].
  - assert (evolves c (store w) (store w3)) as He by (do 2 (eapply evolves_trans; [eassumption|]); done).
    eapply guar_bind; [apply (still_ask (wt_err None)); eauto with activation|]. intros e w4 He4 [H4 _]. rewrite H3 in H4.
    eapply guar_bind with (R := fun o w5 => mine w5 = true /\
      match o with Finished r => (exists e, r = Err e) \/ exists w2, Q r w2 | Spinning => True end).
    { destruct e as [e|]; [apply guar_ret; split; [done|left; by eexists]|].
      eapply guar_bind; [apply Hrun; [done|by eapply evolves_trans]|]. intros r w5 _ [H5 Hq]. apply guar_ret. split; [done|right; by eexists]. }
    intros o w5 _ [H5 Ho].
    eapply guar_bind with (R := fun _ w6 => mine w6 = false).
    { apply guar_ask. intros w6 _. pose proof (st_unlock w6) as Hu. by destruct (wt_unlock _ w6) as [u w7]. }
    intros _ w6 _ H6. eapply guar_bind; [apply (still_ask (wt_close _)); eauto with activation|]. intros _ w7 _ [H7 _]. apply guar_ret.
    split; [congruence|done].
  - eapply guar_bind; [apply (still_ask (wt_close _)); eauto with activation|]. intros _ w4 _ [H4 _]. apply guar_ret. split; [congruence|].
    left. destruct e as [e|]; [by eexists|]. by destruct (Hn None eq_refl).
Qed.

(** A request that only reads. *)
Lemma locked_still {A} fuel (zero : A) (run : MC W (result lerr A)) w : mine w = false -> still run ->
  guar (locked fuel c zero run) (fun _ w' => mine w' = false) w.
Proof.
  intros Hw Hs. eapply guar_mono; [apply (locked_guar fuel zero run (fun _ _ => True)); [done|]|by intros ? ? [? _]].
  intros w1 H1 _. eapply guar_mono; [by apply still_mine|]. by intros ? ? [? _].
Qed.

(** ** Reading the records *)

(** The listed records are those of the store. *)
Definition snapshot (s : Store) (l : list ActivationRecord) : Prop :=
  (forall r, In r l -> s_records s !! recordPath c (ar_OperationID r) = Some r) /\
  (forall path r, s_records s !! path = Some r -> In r l).

Lemma readRecord_guar path w : mine w = true ->
  guar (ask (ac_readRecord path)) (fun r w' => mine w' = true /\ store w' = store w /\
    match r with Ok r => s_records (store w) !! path = Some r | Err LNotExist => s_records (store w) !! path = None | Err _ => True end) w.
Proof.
  intros Hw. apply guar_ask. intros w1 [H1 H2]. rewrite Hw in *. destruct (st_readRecord path w1) as [[H3 H4] Hr]. rewrite H1 in *.
  specialize (Hr eq_refl). rewrite H4, H2 in *. split; [apply evolves_refl|]. by split_and!.
Qed.

Lemma readRecords_guar entries acc w : mine w = true -> (forall r, In r acc -> exists path, s_records (store w) !! path = Some r) ->
  guar (readRecords c entries acc) (fun res w' => mine w' = true /\ store w' = store w /\ forall l, res = Ok l ->
    (forall r, In r l -> exists path, s_records (store w) !! path = Some r) /\ (forall r, In r acc -> In r l) /\
    (forall name r, In (name, false) entries -> HasSuffix name ".json" = true ->
       s_records (store w) !! JoinPath [recordsDir c; name] = Some r -> In r l)) w.
Proof.
  revert acc w. induction entries as [|[name d] rest IH]; intros acc w Hw Ha; cbn [readRecords].
  { apply guar_ret. split_and!; [done..|]. intros l [= <-]. split_and!; [done|done|]. by intros ? ? []. }
  destruct (d || negb (HasSuffix name ".json")) eqn:Ed.
  - eapply guar_mono; [by apply IH|]. intros res w' (H1 & H2 & H3). split_and!; [done..|]. intros l Hl. destruct (H3 l Hl) as (? & ? & Hc).
    split_and!; [done..|]. intros n r [[= -> ->]|Hin] Hs Hr; [|by eapply Hc]. rewrite Hs in Ed. done.
  - eapply guar_bind; [by apply readRecord_guar|]. intros [r|e] w1 _ (H1 & H2 & Hr); [|apply guar_ret; split_and!; [done|done|done]].
    rewrite <- H2 in *. eapply guar_mono; [apply (IH _ w1 H1)|].
    + intros x [Hx|[<-|[]]]%in_app_or; [by apply Ha|by eexists].
    + intros res w' (H3 & H4 & H5). split_and!; [done..|]. intros l Hl. destruct (H5 l Hl) as (Hs & Hi & Hc).
      split_and!; [done|intros; apply Hi, in_or_app; by left|]. intros n x [[= -> ->]|Hin] Hsuf Hx; [|by eapply Hc].
      rewrite Hr in Hx. injection Hx as <-. apply Hi, in_or_app. right. by left.
Qed.

Lemma records_guar w : mine w = true -> wellKept c (store w) ->
  guar (recordsLocked c) (fun res w' => mine w' = true /\ store w' = store w /\ forall l, res = Ok l -> snapshot (store w) l) w.
Proof.
  intros Hw Hk. unfold recordsLocked.
  eapply guar_bind with (R := fun r w' => mine w' = true /\ store w' = store w /\ match r with
    | Ok entries => forall path r, s_records (store w) !! path = Some r ->
        exists name, In (name, false) entries /\ HasSuffix name ".json" = true /\ path = JoinPath [recordsDir c; name]
    | Err LNotExist => s_records (store w) = ∅ | Err _ => True end).
  { apply guar_ask. intros w1 [H1 H2]. rewrite Hw in *. destruct (st_readDir w1) as [[H3 H4] Hr]. rewrite H1 in *.
    specialize (Hr eq_refl). rewrite H4, H2 in *. split; [apply evolves_refl|]. by split_and!. }
  intros r w1 _ (H1 & H2 & Hr). destruct r as [entries|e].
  - eapply guar_bind; [apply (readRecords_guar entries [] w1 H1); by intros ? []|]. intros res w2 _ (H3 & H4 & H5). rewrite H2 in *.
    destruct res as [l|e]; apply guar_ret; (split_and!; [done|congruence|]); [|done]. intros l' [= <-]. destruct (H5 l eq_refl) as (Hs & _ & Hc). split.
    + intros x Hx. apply (Permutation_in _ (merge_sort_Permutation recordByClient l)) in Hx. destruct (Hs x Hx) as [path Hp].
      by rewrite <- (Hk _ _ Hp).
    + intros path x Hx. destruct (Hr path x Hx) as (name & Hin & Hsuf & ->).
      eapply Permutation_in; [symmetry; apply merge_sort_Permutation|]. by eapply Hc.
  - destruct e; apply guar_ret; split_and!; try done. intros l [= <-]. split; [by intros ? []|]. intros path x. by rewrite Hr.
Qed.

(** ** Writing records *)
Lemma write_guar path r w : mine w = true -> evolves c (store w) (putRecord path r (store w)) ->
  guar (ask (ac_writeRecord path r)) (fun e w' => mine w' = true /\
    (store w' = putRecord path r (store w) \/ (e <> None /\ store w' = store w))) w.
Proof.
  intros Hw He. apply guar_ask. intros w1 [H1 H2]. rewrite Hw in *. destruct (st_writeRecord path r w1 H1) as [H3 H4]. rewrite H2 in *.
  destruct H4 as [H4|[Hn H4]]; rewrite H4; (split; [|split; [done|auto]]); [done|apply evolves_refl].
Qed.

(** Rounds that rewrite the listed records with [f]: each is as it was, or rewritten. *)
Definition touched (f : Time -> ActivationRecord -> ActivationRecord) (s0 s : Store) : Prop :=
  forall path r, s_records s0 !! path = Some r -> s_records s !! path = Some r \/ exists t, s_records s !! path = Some (f t r).

Lemma touched_refl f s : touched f s s.
Proof. by left. Qed.

Lemma touched_put f s0 s path r t : s_records s0 !! path = Some r -> touched f s0 s -> touched f s0 (putRecord path (f t r) s).
Proof.
  intros Hr Ht path' x Hx. cbn. destruct (decide (path' = path)) as [->|].
  - rewrite Hr in Hx. injection Hx as <-. right. exists t. apply lookup_insert_eq.
  - rewrite lookup_insert_ne by done. by apply Ht.
Qed.

(** Rewriting one of them. *)
Lemma rewrite_guar f s0 path r t w : mine w = true -> touched f s0 (store w) -> s_records s0 !! path = Some r ->
  advances r (f t r) -> (forall t', advances (f t' r) (f t r)) ->
  guar (ask (ac_writeRecord path (f t r))) (fun e w' => mine w' = true /\ touched f s0 (store w') /\
    (e = None -> s_records (store w') !! path = Some (f t r))) w.
Proof.
  intros Hw Ht Hr Ha Ha'. eapply guar_mono; [apply write_guar; [done|]|].
  - destruct (Ht _ _ Hr) as [Hc|[t' Hc]]; by eapply evolves_put.
  - intros e w' [H1 [H2|[Hn H2]]]; rewrite H2; (split_and!; [done|..]); [by apply touched_put|intros _; apply lookup_insert_eq|done|done].
Qed.

Lemma expire_guar now l n s0 w : mine w = true -> touched (fun _ => markExpired) s0 (store w) ->
  (forall r, In r l -> s_records s0 !! recordPath c (ar_OperationID r) = Some r) ->
  guar (expireRecords c now l n) (fun _ w' => mine w' = true) w.
Proof.
  revert n w. induction l as [|r l IH]; intros n w Hw Ht Hl; cbn [expireRecords]; [by apply guar_ret|].
  destruct (_ || _) eqn:E; [apply IH; [done|done|intros; apply Hl; by right]|].
  apply orb_false_iff in E as [E _]. apply negb_false_iff, bool_decide_eq_true in E.
  eapply guar_bind; [apply (rewrite_guar (fun _ => markExpired) s0 _ r 0%Z w); [done|done|by apply Hl; left|by apply advances_expired|]|].
  { intros _. apply advances_refl. }
  intros [e|] w1 _ (H1 & H2 & _); cbn [orFail]; [by apply guar_ret|].
  eapply guar_bind; [apply still_mine; [apply still_ask; eauto with activation|done]|]. intros _ w2 _ [H3 H4].
  apply IH; [done|by rewrite H4|intros; apply Hl; by right].
Qed.

Lemma expireStaged_guar now w : mine w = true -> wellKept c (store w) -> guar (expireStagedLocked c now) (fun _ w' => mine w' = true) w.
Proof.
  intros Hw Hk. unfold expireStagedLocked. eapply guar_bind; [by apply records_guar|].
  intros [l|e] w1 _ (H1 & H2 & Hs); [|by apply guar_ret]. destruct (Hs l eq_refl) as [Hl _].
  eapply expire_guar; [done|rewrite H2; apply touched_refl|done].
Qed.

Definition remark (reason : string) : Time -> ActivationRecord -> ActivationRecord := fun t => markRevoking t reason.

Lemma advances_remark reason t t' r : advances (remark reason t' r) (remark reason t r).
Proof. split; [by unfold sameInstallation|done|done]. Qed.

Lemma startRevoking_guar reason r s0 w : mine w = true -> touched (remark reason) s0 (store w) ->
  s_records s0 !! recordPath c (ar_OperationID r) = Some r ->
  guar (startRevoking c reason r) (fun q w' => mine w' = true /\ touched (remark reason) s0 (store w') /\
    forall x, q = Ok x -> ar_State x = "revoking" /\ ar_OperationID x = ar_OperationID r /\
      (isLive r = true -> s_records (store w') !! recordPath c (ar_OperationID r) = Some x) /\ (isLive r = false -> x = r /\ store w' = store w)) w.
Proof.
  intros Hw Ht Hr. unfold startRevoking. destruct (isLive r) eqn:El.
  - eapply guar_bind; [apply still_mine; [apply still_ask; eauto with activation|done]|]. intros now w1 _ [H1 H2].
    eapply guar_bind; [apply (rewrite_guar (remark reason) s0 _ r now w1); [done|by rewrite H2|done|by apply advances_revoking|]|].
    { intros t'. apply advances_remark. }
    intros [e|] w2 _ (H3 & H4 & H5); apply guar_ret; (split_and!; [done|done|]); [done|]. intros x [= <-]. split_and!; [done|done|by intros _; apply H5|done].
  - destruct (_ || _) eqn:E; apply guar_ret; (split_and!; [done|done|]); [done|]. intros x [= <-].
    apply orb_false_iff in E as [E _]. apply orb_false_iff in E as [E _]. by apply negb_false_iff, bool_decide_eq_true in E.
Qed.

Lemma closeRealm_guar realmID reason l targets s0 w : mine w = true -> touched (remark reason) s0 (store w) ->
  (forall r, In r l -> s_records s0 !! recordPath c (ar_OperationID r) = Some r) ->
  guar (closeRealm c realmID reason l targets) (fun q w' => mine w' = true /\
    ((exists r, In r l /\ ar_RealmID r = realmID /\ ar_State r = "expired") -> exists e, q = Err e)) w.
Proof.
  revert targets w. induction l as [|r l IH]; intros targets w Hw Ht Hl; cbn [closeRealm]; [apply guar_ret; split; [done|by intros (? & [] & _)]|].
  destruct (_ || _) eqn:E.
  - eapply guar_mono; [apply IH; [done|done|intros; apply Hl; by right]|]. intros q w' [H1 H2]. split; [done|].
    intros (x & [<-|Hx] & Hrealm & Hs); [|apply H2; eauto]. apply orb_true_iff in E as [E|E]; bool_to_prop; congruence.
  - eapply guar_bind; [apply (startRevoking_guar reason r s0 w); [done|done|by apply Hl; left]|].
    intros [x|e] w1 _ (H1 & H2 & H3); [|apply guar_ret; split; [done|by intros; eexists]].
    eapply guar_mono; [apply IH; [done|done|intros; apply Hl; by right]|]. intros q w' [H4 H5]. split; [done|].
    intros (y & [<-|Hy] & Hrealm & Hs); [|apply H5; eauto].
    exfalso. destruct (H3 x eq_refl) as (Hx & _ & _ & Hn). assert (isLive r = false) as Hlive by (unfold isLive; by rewrite Hs).
    destruct (Hn Hlive) as [-> _]. congruence.
Qed.

Lemma closeTargets_guar set reason l targets s0 w : mine w = true -> touched (remark reason) s0 (store w) ->
  (forall r, In r l -> s_records s0 !! recordPath c (ar_OperationID r) = Some r) ->
  guar (closeTargets c set reason l targets) (fun _ w' => mine w' = true) w.
Proof.
  revert targets w. induction l as [|r l IH]; intros targets w Hw Ht Hl; cbn [closeTargets]; [by apply guar_ret|].
  destruct (_ || _); [apply IH; [done|done|intros; apply Hl; by right]|].
  eapply guar_bind with (R := fun _ w1 => mine w1 = true /\ touched (remark reason) s0 (store w1)).
  { destruct (isLive r); [|by apply guar_ret]. eapply guar_mono; [apply (startRevoking_guar reason r s0 w); [done|done|by apply Hl; left]|].
    by intros ? ? (? & ? & _). }
  intros [x|e] w1 _ [H1 H2]; [|by apply guar_ret]. apply IH; [done|done|intros; apply Hl; by right].
Qed.

Lemma selectRecord_In clientID l r : selectRecord clientID l = Ok r -> In r l /\ ar_ClientID r = clientID.
Proof.
  unfold selectRecord. destruct (List.filter _ l) as [|x [|y t]] eqn:E; try done. intros [= <-].
  assert (In x (List.filter (fun r => bool_decide (ar_ClientID r = clientID)) l)) as [H1 H2]%filter_In by (rewrite E; by left).
  by apply bool_decide_eq_true in H2.
Qed.

Lemma revokeLocked_guar clientID reason w : mine w = true -> wellKept c (store w) ->
  guar (revokeLocked c clientID reason) (fun _ w' => mine w' = true) w.
Proof.
  intros Hw Hk. unfold revokeLocked. eapply guar_bind; [by apply records_guar|].
  intros [l|e] w1 _ (H1 & H2 & Hs); [|by apply guar_ret]. destruct (Hs l eq_refl) as [Hl _]. rewrite <- H2 in *.
  destruct (selectRecord clientID l) as [r|e] eqn:Er; [|by apply guar_ret]. apply selectRecord_In in Er as [Hin _]. specialize (Hl r Hin).
  destruct (bool_decide _); [by apply guar_ret|].
  eapply guar_bind; [apply (startRevoking_guar reason r (store w1) w1); [done|apply touched_refl|done]|].
  intros [x|e] w2 _ (H3 & _ & H4); [|by apply guar_ret]. destruct (H4 x eq_refl) as (Hx & Hop & Hlive & Hdead).
  assert (s_records (store w2) !! recordPath c (ar_OperationID x) = Some x) as Hcur.
  { rewrite Hop. destruct (isLive r); [by apply Hlive|]. destruct (Hdead eq_refl) as [-> ->]. done. }
  eapply guar_bind; [apply still_mine; [apply still_render|done]|]. intros [u|e] w3 _ [H5 H6]; [|by apply guar_ret].
  eapply guar_bind; [apply still_mine; [apply still_ask; eauto with activation|done]|]. intros [revision|e] w4 _ [H7 H8]; [|by apply guar_ret].
  eapply guar_bind with (R := fun _ w5 => mine w5 = true /\ store w5 = store w4).
  { destruct (bool_decide _); [by apply guar_ret|]. apply still_mine; [apply still_ask; eauto with activation|done]. }
  intros [e|] w5 _ [H9 H10]; cbn [orFail]; [by apply guar_ret|].
  eapply guar_bind; [apply write_guar; [done|]; rewrite H10, H8, H6; eapply evolves_put; [done|by apply advances_revoked]|].
  intros [e|] w6 _ [H11 _]; cbn [orFail]; [by apply guar_ret|].
  eapply guar_bind; [apply still_mine; [apply still_render|done]|]. intros [u'|e] w7 _ [H12 _]; by apply guar_ret.
Qed.

(** ** Requests *)
Lemma loadFence_guar realmID w : mine w = true ->
  guar (loadRealmRemovalFence c realmID) (fun r w' => mine w' = true /\ store w' = store w /\
    (r = Err LNotExist -> s_fences (store w) !! realmRemovalFencePath c realmID = None)) w.
Proof.
  intros Hw. unfold loadRealmRemovalFence. eapply guar_bind with (R := fun r w' => mine w' = true /\ store w' = store w /\
    (r = Err LNotExist -> s_fences (store w) !! realmRemovalFencePath c realmID = None)).
  - apply guar_ask. intros w1 [H1 H2]. rewrite Hw in *. destruct (st_readFence (realmRemovalFencePath c realmID) w1) as [[H3 H4] Hf].
    rewrite H1 in *. rewrite H4, H2 in *. split; [apply evolves_refl|]. split_and!; [done..|]. by apply Hf.
  - intros [f|e] w1 _ (H1 & H2 & Hf); apply guar_ret; (split_and!; [done|done|]); [by destruct (validFence _ f)|done].
Qed.

Lemma Stage_guar fuel g w : mine w = false -> wellKept c (store w) -> guar (Stage fuel c g) (fun _ w' => mine w' = false) w.
Proof.
  intros Hw Hk. unfold Stage. destruct (validateGrant g) as [canonical|e]; [|by apply guar_ret].
  eapply guar_mono; [apply (locked_guar fuel tt _ (fun _ _ => True)); [done|]|by intros ? ? [? _]].
  intros w1 H1 He1. apply (ev_kept _ _ _ He1) in Hk. unfold orFail.
  eapply guar_bind; [apply still_mine; [apply still_ask; eauto with activation|done]|]. intros [e|] w2 _ [H2 H3]; [by apply guar_ret|].
  eapply guar_bind; [apply still_mine; [apply still_ask; eauto with activation|done]|]. intros [e|] w3 _ [H4 H5]; [by apply guar_ret|].
  eapply guar_bind; [apply still_mine; [apply still_ask; eauto with activation|done]|]. intros now w4 _ [H6 H7].
  rewrite <- H3, <- H5, <- H7 in Hk. eapply guar_bind; [by apply expireStaged_guar|]. intros [n|e] w5 He5 H8; [|by apply guar_ret].
  eapply guar_bind; [by apply readRecord_guar|]. intros r w6 _ (H9 & H10 & Hr). destruct r as [existing|e].
  { destruct (negb _); [by apply guar_ret|]. eapply guar_mono; [apply still_mine; [apply still_render|done]|]. by intros ? ? [? _]. }
  assert (forall e, guar (ret (Err e) : MC W (result lerr unit)) (fun _ w2 => mine w2 = true /\ True) w6) as Hend by (intros; by apply guar_ret).
  destruct e; try apply Hend. unfold stageNew.
  eapply guar_bind; [by apply loadFence_guar|].
  intros r w7 _ (H11 & H12 & Hf). destruct r as [f|e]; [by apply guar_ret|].
  assert (forall e, guar (ret (Err e) : MC W (result lerr unit)) (fun _ w2 => mine w2 = true /\ True) w7) as Hend' by (intros; by apply guar_ret).
  destruct e; try apply Hend'.
  eapply guar_bind with (R := fun _ w8 => mine w8 = true /\ store w8 = store w6).
  { destruct (cf_SingleActivationPerRealm c); [|by apply guar_ret]. eapply guar_mono; [apply still_mine; [keep_still|done]|].
    intros ? ? [? ?]. split; [done|congruence]. }
  intros [u|e] w8 _ [H13 H14]; [|by apply guar_ret].
  eapply guar_bind; [apply still_mine; [apply still_ask; eauto with activation|done]|]. intros now' w9 _ [H15 H16].
  eapply guar_bind; [apply write_guar; [done|]; rewrite H16, H14|].
  { apply evolves_add; [by rewrite H10|done| |done]. intros [f Hx].
    change (s_fences (store w6) !! realmRemovalFencePath c (ag_RealmID g) = Some f) in Hx. by rewrite (Hf eq_refl) in Hx. }
  intros [e|] w10 _ [H17 _]; [by apply guar_ret|]. eapply guar_mono; [apply still_mine; [apply still_render|done]|]. by intros ? ? [? _].
Qed.

Lemma Cleanup_guar fuel w : mine w = false -> wellKept c (store w) -> guar (CleanupExpired fuel c) (fun _ w' => mine w' = false) w.
Proof.
  intros Hw Hk. unfold CleanupExpired. eapply guar_mono; [apply (locked_guar fuel 0%nat _ (fun _ _ => True)); [done|]|by intros ? ? [? _]].
  intros w1 H1 He1. apply (ev_kept _ _ _ He1) in Hk.
  eapply guar_bind; [apply still_mine; [apply still_ask; eauto with activation|done]|]. intros now w2 _ [H2 H3]. rewrite <- H3 in Hk.
  eapply guar_bind; [by apply expireStaged_guar|]. intros [n|e] w3 _ H4; [|by apply guar_ret].
  eapply guar_bind; [apply still_mine; [apply still_render|done]|]. intros [u|e] w4 _ [H5 _]; by apply guar_ret.
Qed.

Lemma RecordProof_guar fuel operationID clientID w : mine w = false -> guar (RecordProof fuel c operationID clientID) (fun _ w' => mine w' = false) w.
Proof. intros Hw. unfold RecordProof. destruct (negb _); [by apply guar_ret|]. apply locked_still; [done|]. keep_still. Qed.

Lemma withServiceWC_guar {A} (fn : MC W (outcome A)) (Q : outcome A -> Prop) w : mine w = false ->
  (forall e, Q (Finished (Err e))) ->
  (forall w1, mine w1 = false -> evolves c (store w) (store w1) -> guar fn (fun o w' => mine w' = false /\ Q o) w1) ->
  guar (withServiceWorkingCopy c fn) (fun o w' => mine w' = false /\ Q o) w.
Proof.
  intros Hw Hq Hf. unfold withServiceWorkingCopy. destruct (cf_ServiceWorkingCopyHeld c); [apply Hf; [done|apply evolves_refl]|].
  eapply guar_bind; [apply (still_ask ac_enterWorkingCopy); eauto with activation|]. intros [e|] w1 He [H1 _]; rewrite Hw in H1; [by apply guar_ret|].
  eapply guar_bind; [by apply Hf|]. intros [r|] w2 _ [H2 Ho]; [|by apply guar_ret].
  eapply guar_bind; [apply still_ask; eauto with activation|]. intros ? w3 _ [H3 _]. apply guar_ret. split; [congruence|done].
Qed.

Lemma Publish_guar fuel wc g w : mine w = false -> guar (Publish fuel c wc g) (fun _ w' => mine w' = false) w.
Proof.
  intros Hw. unfold Publish. destruct (validateGrant g) as [canonical|e]; [|by apply guar_ret].
  eapply guar_mono; [apply (withServiceWC_guar _ (fun _ => True)); [done|done|]|by intros ? ? [? _]]. intros w0 Hw0 _.
  eapply guar_mono; [apply (locked_guar fuel 0%Z _ (fun _ _ => True)); [done|]|by intros ? ? [? _]].
  intros w1 H1 _. eapply guar_bind; [by apply readRecord_guar|]. intros [r|e] w2 _ (H2 & H3 & Hr); [|by apply guar_ret].
  destruct (_ && _); [by apply guar_ret|].
  eapply guar_bind; [apply still_mine; [apply still_hasProof|done]|]. intros [u|e] w3 _ [H4 H5]; [|by apply guar_ret].
  destruct (_ || _) eqn:E; [by apply guar_ret|]. apply orb_false_iff in E as [E _]. apply negb_false_iff, bool_decide_eq_true in E.
  eapply guar_bind; [apply still_mine; [apply still_ask; eauto with activation|done]|]. intros [rc|e] w4 _ [H6 H7]; [|by apply guar_ret].
  eapply guar_bind; [apply still_mine; [apply still_ask; eauto with activation|done]|]. intros [rev|e] w5 _ [H8 H9]; [|by apply guar_ret].
  eapply guar_bind; [apply still_mine; [apply still_latest|done]|]. intros [rev'|e] w6 _ [H10 H11]; [|by apply guar_ret].
  eapply guar_bind; [apply write_guar; [done|]; rewrite H11, H9, H7, H5, H3; eapply evolves_put; [done|by apply advances_active]|].
  intros [e|] w7 _ [H12 _]; cbn [orFail]; [by apply guar_ret|].
  eapply guar_bind; [apply still_mine; [apply still_render|done]|]. intros [u'|e] w8 _ [H13 _]; by apply guar_ret.
Qed.

Lemma Revoke_guar fuel clientID reason w : mine w = false -> wellKept c (store w) ->
  guar (Revoke fuel c clientID reason) (fun _ w' => mine w' = false) w.
Proof.
  intros Hw Hk. unfold Revoke. destruct (negb _); [by apply guar_ret|]. destruct (validateRevokeReason reason) as [reason'|e]; [|by apply guar_ret].
  eapply guar_bind; [apply (withServiceWC_guar _ (fun _ => True)); [done|done|]|].
  { intros w1 H1 He1. apply (ev_kept _ _ _ He1) in Hk.
    eapply guar_mono; [apply (locked_guar fuel (0%Z, false) _ (fun _ _ => True)); [done|]|by intros ? ? [? _]].
    intros w2 H2 He2. apply (ev_kept _ _ _ He2) in Hk. eapply guar_mono; [by apply revokeLocked_guar|done]. }
  intros [[[revision signal]|e]|] w1 _ [H1 _]; [|by apply guar_ret..]. destruct signal; [|by apply guar_ret].
  eapply guar_bind; [apply still_signal|]. intros ? w2 _ [H2 _]. apply guar_ret. congruence.
Qed.

Lemma revokeEach_guar fuel reason targets revoked w : mine w = false -> wellKept c (store w) ->
  guar (revokeEach fuel c reason targets revoked) (fun _ w' => mine w' = false) w.
Proof.
  revert revoked w. induction targets as [|id rest IH]; intros revoked w Hw Hk; cbn [revokeEach]; [by apply guar_ret|].
  eapply guar_bind; [by apply Revoke_guar|]. intros [[z|e]|] w1 He H1; [|by apply guar_ret..]. apply IH; [done|by eapply ev_kept].
Qed.

Lemma revokeTargets_guar fuel reason r w : mine w = false -> wellKept c (store w) ->
  guar (revokeTargets fuel c reason r) (fun o w' => mine w' = false /\
    match r with Finished (Err e) => o = Finished (Err e) | Finished (Ok _) => True | Spinning => o = Spinning end) w.
Proof.
  intros Hw Hk. unfold revokeTargets. destruct r as [[targets|e]|]; [|by apply guar_ret..].
  eapply guar_bind; [apply still_signalEach|]. intros ? w1 He [H1 _]. rewrite Hw in H1.
  eapply guar_mono; [apply revokeEach_guar; [done|by eapply ev_kept]|]. done.
Qed.

Lemma RevokeRealm_guar fuel realmID reason w : mine w = false -> wellKept c (store w) ->
  guar (RevokeRealm fuel c realmID reason) (fun o w' => mine w' = false /\
    ((exists path r, s_records (store w) !! path = Some r /\ ar_RealmID r = realmID /\ ar_State r = "expired") ->
     o = Spinning \/ exists e, o = Finished (Err e))) w.
Proof.
  intros Hw Hk. unfold RevokeRealm. destruct (negb _); [apply guar_ret; split; [done|right; by eexists]|].
  destruct (validateRevokeReason reason) as [reason'|e]; [|apply guar_ret; split; [done|right; by eexists]].
  set (P := exists path r, s_records (store w) !! path = Some r /\ ar_RealmID r = realmID /\ ar_State r = "expired").
  eapply guar_bind; [apply (locked_guar fuel [] _ (fun r _ => P -> exists e, r = Err e)); [done|]|].
  - intros w1 H1 He1. pose proof (ev_kept _ _ _ He1 Hk) as Hk1.
    eapply guar_bind; [by apply records_guar|]. intros [l|e] w2 _ (H2 & H3 & Hs); [|apply guar_ret; split; [done|by intros; eexists]].
    destruct (Hs l eq_refl) as [Hl Hc]. rewrite <- H3 in *.
    eapply guar_bind; [apply (closeRealm_guar realmID reason' l [] (store w2) w2); [done|apply touched_refl|done]|].
    intros q w3 _ [H4 Hq]. assert (P -> exists e, q = Err e) as HP.
    { intros (path & r & Hr & Hrealm & Hst). apply Hq. destruct (ev_records _ _ _ He1 _ _ Hr) as (r' & Hr' & [Hsame Hrtc _]). exists r'.
      split_and!; [by eapply Hc|by destruct Hsame as (_ & _ & _ & -> & _)|by eapply expired_stays]. }
    destruct q as [targets|e]; [|apply guar_ret; split; [done|by intros; eexists]].
    eapply guar_bind; [apply still_mine; [apply still_render|done]|]. intros [u|e] w4 _ [H5 _]; apply guar_ret; (split; [done|]); [|by intros; eexists].
    intros H. by destruct (HP H).
  - intros o w1 He [H1 Ho]. eapply guar_mono; [apply revokeTargets_guar; [done|by eapply ev_kept]|]. intros o' w2 [H2 Herr]. split; [done|].
    intros H. destruct o as [r|]; [right|by left]. destruct Ho as [[e ->]|[w3 Hr]]; [by eexists|]. destruct (Hr H) as [e ->]. by eexists.
Qed.

(** Under the lock, a closed record yields no proof of possession. *)
Lemma proof_closed operationID clientID r w : mine w = true -> s_records (store w) !! recordPath c operationID = Some r -> closed (ar_State r) ->
  guar (recordProofLocked c operationID clientID) (fun q w' => mine w' = true /\ exists e, q = Err e) w.
Proof.
  intros Hw Hr Hc. unfold recordProofLocked. eapply guar_bind; [by apply readRecord_guar|].
  intros [x|e] w1 _ (H1 & H2 & Hx); [|apply guar_ret; eauto]. rewrite Hr in Hx. injection Hx as <-.
  eapply guar_bind; [apply still_mine; [apply still_ask; eauto with activation|done]|]. intros now w2 _ [H3 _].
  destruct (bool_decide_reflect (ar_State r = "staged")) as [E|_]; [destruct Hc as [H|[H|H]]; congruence|].
  destruct (bool_decide_reflect (ar_State r = "active")) as [E|_]; [destruct Hc as [H|[H|H]]; congruence|].
  rewrite orb_true_r, andb_false_r. apply guar_ret. eauto.
Qed.

Lemma ClaimSession_guar fuel operationID clientID w : mine w = false ->
  guar (ClaimSession fuel c operationID clientID) (fun o w' => mine w' = false /\
    ((exists r, s_records (store w) !! recordPath c operationID = Some r /\ closed (ar_State r)) -> forall l, o <> Finished (Ok (Some l)))) w.
Proof.
  intros Hw. unfold ClaimSession. destruct (negb _); [by apply guar_ret|].
  set (P := exists r, s_records (store w) !! recordPath c operationID = Some r /\ closed (ar_State r)).
  eapply guar_mono; [apply (locked_guar fuel None _ (fun q _ => P -> forall l, q <> Ok (Some l))); [done|]|].
  2:{ intros o w' [H1 Ho]. split; [done|]. intros H l ->. destruct Ho as [[e He]|[w2 Hq]]; [done|by eapply Hq]. }
  intros w1 H1 He1. unfold orFail.
  eapply guar_bind; [apply still_mine; [apply still_ask; eauto with activation|done]|]. intros [e|] w2 _ [H2 H3]; [by apply guar_ret|].
  eapply guar_bind with (R := fun q w3 => mine w3 = true /\ (P -> exists e, q = Err e)).
  { assert (P \/ ~ P) as [[r [Hr Hc]]|Hn].
    { destruct (s_records (store w) !! recordPath c operationID) as [r|] eqn:Er; [|right; by intros (? & ? & _)].
      destruct (decide (ar_State r = "expired" \/ ar_State r = "revoking" \/ ar_State r = "revoked")) as [Hd|Hd]; [left; by exists r|right].
      intros (x & [= <-] & Hx). by apply Hd. }
    - destruct (ev_records _ _ _ He1 _ _ Hr) as (r' & Hr' & Ha). rewrite <- H3 in Hr'.
      eapply guar_mono; [eapply (proof_closed operationID clientID r'); [done|done|eapply closed_forever; [apply Ha|done]]|].
      intros q w3 [H4 He]. by split.
    - eapply guar_mono; [apply still_mine; [apply still_proof|done]|]. intros q w3 [H4 _]. split; [done|]. by intros H. }
  intros q w3 _ [H4 Hq]. destruct q as [r|e]; [|by apply guar_ret]. destruct (negb (isLive r)); [by apply guar_ret|].
  eapply guar_bind; [apply still_mine; [apply still_ask; eauto with activation|done]|]. intros now w4 _ [H5 _].
  eapply guar_bind; [apply still_mine; [apply still_createLease|done]|]. intros q w5 _ [H6 _].
  destruct q as [l|e]; apply guar_ret; (split; [done|]); [|done]. intros H. by destruct (Hq H).
Qed.

Lemma Fence_guar fuel realmID operationID clientIDs w : mine w = false -> wellKept c (store w) ->
  guar (FenceRealmRemoval fuel c realmID operationID clientIDs) (fun _ w' => mine w' = false) w.
Proof.
  intros Hw Hk. unfold FenceRealmRemoval. destruct (validateRealmRemovalFenceIDs _ _ _) as [expected|e]; [|by apply guar_ret].
  eapply guar_mono; [apply (locked_guar fuel tt _ (fun _ _ => True)); [done|]|by intros ? ? [? _]].
  intros w1 H1 He1. apply (ev_kept _ _ _ He1) in Hk.
  eapply guar_bind; [by apply loadFence_guar|]. intros r w2 _ (H2 & H3 & Hf). destruct r as [f|e]; [by apply guar_ret|].
  assert (forall e, guar (ret (Err e) : MC W (result lerr unit)) (fun _ w2 => mine w2 = true /\ True) w2) as Hend by (intros; by apply guar_ret).
  destruct e; try apply Hend.
  eapply guar_bind; [apply still_mine; [apply still_records|done]|]. intros [l|e] w3 _ [H4 H5]; [|by apply guar_ret].
  unfold orFail. destruct (validateRealmRemovalRecords _ _ _ _); [by apply guar_ret|].
  eapply guar_bind; [apply still_mine; [apply still_ask; eauto with activation|done]|]. intros now w4 _ [H6 H7].
  eapply guar_bind with (R := fun _ w5 => mine w5 = true); [|intros e w5 _ H8; by apply guar_ret].
  apply guar_ask. intros w5 [H8 H9]. rewrite H6 in *. destruct (st_writeFence (realmRemovalFencePath c realmID) (Fence operationID realmID expected now) w5 H8) as [H10 H11].
  split; [|done]. assert (store w5 = store w1) as E by congruence. rewrite E in H11 |- *. destruct H11 as [H11|[_ H11]]; rewrite H11.
  - apply evolves_fence. by apply Hf.
  - apply evolves_refl.
Qed.

Lemma RevokeRemoval_guar fuel realmID operationID clientIDs reason w : mine w = false -> wellKept c (store w) ->
  guar (RevokeRealmRemoval fuel c realmID operationID clientIDs reason) (fun _ w' => mine w' = false) w.
Proof.
  intros Hw Hk. unfold RevokeRealmRemoval. destruct (validateRealmRemovalFenceIDs _ _ _) as [expected|e]; [|by apply guar_ret].
  destruct (validateRevokeReason reason) as [reason'|e]; [|by apply guar_ret].
  eapply guar_bind; [apply (locked_guar fuel [] _ (fun _ _ => True)); [done|]|].
  - intros w1 H1 He1. pose proof (ev_kept _ _ _ He1 Hk) as Hk1.
    eapply guar_bind; [by apply loadFence_guar|]. intros [f|e] w2 _ (H2 & H3 & _); [|by apply guar_ret]. rewrite <- H3 in Hk1.
    destruct (_ || _); [by apply guar_ret|].
    eapply guar_bind; [by apply records_guar|]. intros [l|e] w3 _ (H4 & H5 & Hs); [|by apply guar_ret].
    destruct (Hs l eq_refl) as [Hl _]. rewrite <- H5 in *. unfold orFail. destruct (validateRealmRemovalRecords _ _ _ _); [by apply guar_ret|].
    eapply guar_bind; [apply (closeTargets_guar _ reason' l [] (store w3) w3); [done|apply touched_refl|done]|].
    intros [targets|e] w4 _ H6; [|by apply guar_ret].
    eapply guar_bind; [apply still_mine; [apply still_render|done]|]. intros [u|e] w5 _ [H7 _]; by apply guar_ret.
  - intros o w1 He [H1 _]. eapply guar_mono; [apply revokeTargets_guar; [done|by eapply ev_kept]|]. by intros ? ? [? _].
Qed.

End Guarantee.

(** ** Histories *)
Inductive activity :=
| DoStage (g : ActivationGrant)
| DoCleanupExpired
| DoRecordProof (operationID clientID : string)
| DoClaimSession (operationID clientID : string)
| DoCleanupSessions
| DoPublish (serviceWC : string) (g : ActivationGrant)
| DoRevoke (clientID reason : string)
| DoRevokeRealm (realmID reason : string)
| DoFence (realmID operationID : string) (clientIDs : list string)
| DoRevokeRemoval (realmID operationID : string) (clientIDs : list string) (reason : string)
| DoRefresh.

Section Histories.
  Context {W : Type} {ids : Ids} {keys : SSHKeys} `{!Mortal W} `{!SessionFiles W} `{!Waiting W} `{!ActivationFiles W} `{!Stored W}.
  Variables (fuel : nat) (c : Config).

(** The world after a request, finished or cut off. *)
Definition act (q : activity) (w : W) : W :=
  match q with
  | DoStage g => (Stage fuel c g w).2
  | DoCleanupExpired => (CleanupExpired fuel c w).2
  | DoRecordProof o i => (RecordProof fuel c o i w).2
  | DoClaimSession o i => (ClaimSession fuel c o i w).2
  | DoCleanupSessions => (CleanupOrphanedSessionLeases fuel c w).2
  | DoPublish wc g => (Publish fuel c wc g w).2
  | DoRevoke i reason => (Revoke fuel c i reason w).2
  | DoRevokeRealm i reason => (RevokeRealm fuel c i reason w).2
  | DoFence i o l => (FenceRealmRemoval fuel c i o l w).2
  | DoRevokeRemoval i o l reason => (RevokeRealmRemoval fuel c i o l reason w).2
  | DoRefresh => (RefreshAlertAccess fuel c w).2
  end.

Definition actAll (qs : list activity) (w : W) : W := fold_left (fun w q => act q w) qs w.

  Context {HS : HonestStore W c}.

Lemma guar_act {A} (m : MC W A) w (Q : A -> W -> Prop) : guar c m Q w -> (forall a w', Q a w' -> mine w' = false) ->
  evolves c (store w) (store (m w).2) /\ mine (m w).2 = false.
Proof.
  intros H HQ. destruct (m w) as [o w'] eqn:E. destruct (guar_elim c m Q w o w' H E) as [He Ho]. split; [done|].
  destruct o as [a|]; [by eapply HQ|done].
Qed.

Lemma act_evolves q w : mine w = false -> wellKept c (store w) -> evolves c (store w) (store (act q w)) /\ mine (act q w) = false.
Proof.
  intros Hw Hk. destruct q; cbn [act].
  - eapply guar_act; [by apply (Stage_guar c)|done].
  - eapply guar_act; [by apply (Cleanup_guar c)|done].
  - eapply guar_act; [by apply (RecordProof_guar c)|done].
  - eapply guar_act; [by apply (ClaimSession_guar c)|by intros ? ? [? _]].
  - eapply guar_act; [apply (locked_still c); [done|]|done]. unfold CleanupOrphanedSessionLeases.
    apply still_bind; [apply (still_cleanup c)|intros; apply still_ret].
  - eapply guar_act; [by apply (Publish_guar c)|done].
  - eapply guar_act; [by apply (Revoke_guar c)|done].
  - eapply guar_act; [by apply (RevokeRealm_guar c)|by intros ? ? [? _]].
  - eapply guar_act; [by apply (Fence_guar c)|done].
  - eapply guar_act; [by apply (RevokeRemoval_guar c)|done].
  - eapply guar_act; [apply (locked_still c); [done|apply (still_render c)]|done].
Qed.

Lemma actAll_evolves qs w : mine w = false -> wellKept c (store w) -> evolves c (store w) (store (actAll qs w)) /\ mine (actAll qs w) = false.
Proof.
  revert w. induction qs as [|q qs IH]; intros w Hw Hk; cbn; [split; [apply evolves_refl|done]|].
  destruct (act_evolves q w Hw Hk) as [He Hm]. destruct (IH (act q w) Hm (ev_kept _ _ _ He Hk)) as [He' Hm'].
  split; [by eapply evolves_trans|done].
Qed.

(** C17. Installations only advance: over any history of requests, each finished,
    failed or cut off by the death of its process, and with other processes doing
    the same meanwhile, a record stays at its place with its identity, its state
    follows staged, active, revoking, revoked or ends expired, and one that is
    expired, revoking or revoked is never staged or active again. *)
Theorem installations_advance qs w path r : mine w = false -> wellKept c (store w) -> s_records (store w) !! path = Some r ->
  exists r', s_records (store (actAll qs w)) !! path = Some r' /\ advances r r' /\ (closed (ar_State r) -> isLive r' = false).
Proof.
  intros Hw Hk Hr. destruct (actAll_evolves qs w Hw Hk) as [He _]. destruct (ev_records _ _ _ He _ _ Hr) as (r' & Hr' & Ha).
  exists r'. split_and!; [done..|]. intros Hc. pose proof (closed_forever _ _ (adv_state _ _ Ha) Hc) as Hd. unfold isLive.
  by destruct Hd as [-> |[-> | ->]].
Qed.

(** C18. A closed installation claims no session: once its record is expired,
    revoking or revoked, no later claim is answered with a lease, whatever requests
    came in between. *)
Theorem closed_claims_nothing qs operationID clientID w r o w' : mine w = false -> wellKept c (store w) ->
  s_records (store w) !! recordPath c operationID = Some r -> closed (ar_State r) ->
  ClaimSession fuel c operationID clientID (actAll qs w) = (o, w') -> forall lease, o <> Some (Finished (Ok (Some lease))).
Proof.
  intros Hw Hk Hr Hc E lease ->. destruct (actAll_evolves qs w Hw Hk) as [He Hm]. destruct (ev_records _ _ _ He _ _ Hr) as (r' & Hr' & Ha).
  destruct (guar_elim c _ _ _ _ _ (ClaimSession_guar c fuel operationID clientID _ Hm) E) as (_ & _ & Hno).
  apply (Hno (ex_intro _ r' (conj Hr' (closed_forever _ _ (adv_state _ _ Ha) Hc))) lease eq_refl).
Qed.

(** C28. A fenced realm is closed to new installations: after the fence of a realm
    removal is set, every record of the realm was there before, in an earlier or
    the same state, whatever is requested. *)
Theorem fence_closes_realm qs w realmID path r' : mine w = false -> wellKept c (store w) -> fencedRealm c (store w) realmID ->
  s_records (store (actAll qs w)) !! path = Some r' -> ar_RealmID r' = realmID ->
  exists r, s_records (store w) !! path = Some r /\ advances r r'.
Proof.
  intros Hw Hk Hf Hr' <-. destruct (actAll_evolves qs w Hw Hk) as [He _]. destruct (ev_new _ _ _ He _ _ Hr') as [[r Hr]|[Hn _]]; [|done].
  exists r. split; [done|]. destruct (ev_records _ _ _ He _ _ Hr) as (x & Hx & Ha). rewrite Hr' in Hx. by injection Hx as ->.
Qed.

(** C29. One expired installation makes its realm irrevocable: from then on no
    revocation of the whole realm succeeds, whatever requests came in between. *)
Theorem expired_blocks_realm_revocation qs realmID reason w path r o w' : mine w = false -> wellKept c (store w) ->
  s_records (store w) !! path = Some r -> ar_RealmID r = realmID -> ar_State r = "expired" ->
  RevokeRealm fuel c realmID reason (actAll qs w) = (o, w') -> forall revoked, o <> Some (Finished (Ok revoked)).
Proof.
  intros Hw Hk Hr Hrealm Hs E revoked ->. destruct (actAll_evolves qs w Hw Hk) as [He Hm].
  destruct (ev_records _ _ _ He _ _ Hr) as (r' & Hr' & [Hsame Hrtc _]).
  destruct (guar_elim c _ _ _ _ _ (RevokeRealm_guar c fuel realmID reason _ Hm (ev_kept _ _ _ He Hk)) E) as (_ & _ & Hno).
  destruct Hno as [Hn|[e Hn]]; [|done..]. exists path, r'. split_and!; [done|by destruct Hsame as (_ & _ & _ & -> & _)|by eapply expired_stays].
Qed.

End Histories.
