(* ===== verification/SessionDemo.v ===== *)
(** * SessionDemo: the session laws hold of concrete worlds

    [Lane] is a host with one supervised session that closes a few ticks after it
    was signalled; it obeys [HonestSessions].  [Office] is a store of activation
    records in memory; it obeys [HonestStore].  The witnesses apply the theorems of
    [SessionProps] and [ActivationProps] to them. *)
From S2P Require Import Prelude GoStrings Passport Naming ServerBase RealmRecords SessionLeases SessionProps Activation ActivationWorld ActivationProps.
From stdpp Require Import relations.
From Stdlib Require Import Ascii String.

Open Scope string_scope.
Open Scope go_scope.

#[local] Instance plainIds : Ids := { isUUID id := negb (bool_decide (id = "")); uuidString id := id }.

(** ** One session *)
Definition leaseName : string := "session-00112233445566778899aabbccddeeff".
Definition leaseRoot : string := "/run/filees".
Definition leaseDir : string := JoinPath [leaseRoot; leaseName].
Definition leaseMeta : SessionMetadata := Meta sessionLeaseSchema "00112233445566778899aabbccddeeff" "op" "client" "realm" 5%Z.

Record Lane := MkLane { ln_present : bool; ln_left : nat; ln_held : bool; ln_clock : Time }.

Definition lnOver (ctx : Context) (w : Lane) : bool := match ctx with Some t => (t <=? ln_clock w)%Z | None => false end.
Definition lnAt (t : Time) (w : Lane) : Lane := MkLane (ln_present w) (ln_left w) (ln_held w) (Z.max (ln_clock w) t).
Definition lnHold (b : bool) (w : Lane) : Lane := MkLane (ln_present w) (ln_left w) b (ln_clock w).

(** A tick passes, and the session with the last of its ticks. *)
Definition lnTick (t : Time) (w : Lane) : Lane :=
  MkLane (ln_present w && negb (ln_left w =? 0)%nat) (pred (ln_left w)) (ln_held w) (Z.max (ln_clock w) t).

#[local] Instance laneMortal : Mortal Lane := { dies w := (false, w) }.

#[local] Instance laneFiles : SessionFiles Lane := {
  sf_lstat path w :=
    (if negb (ln_present w) then Err LNotExist
     else if bool_decide (path = leaseDir) then Ok (Info KDir 448%Z true)
     else if bool_decide (path = JoinPath [leaseDir; sessionRecordName]) then Ok (Info KRegular 384%Z true)
     else if bool_decide (path = JoinPath [leaseDir; sessionFIFOName]) then Ok (Info KFifo 384%Z true)
     else Err LNotExist, w);
  sf_readDir dir w := (if bool_decide (dir = leaseRoot) then Ok (if ln_present w then [(leaseName, true)] else []) else Err (LIO 1), w);
  sf_readMetadata path w := (if ln_present w then Ok (100%Z, Some leaseMeta) else Err LNotExist, w);
  sf_writeMetadata _ _ w := (None, w); sf_mkdir _ w := (None, w); sf_mkdirAll _ w := (None, w); sf_chmod _ w := (None, w);
  sf_mkfifo _ w := (None, w); sf_remove _ w := (None, w); sf_removeAll _ w := (None, w); sf_openReader _ w := (None, w);
  sf_readMark _ w := (Ok 0%Z, w); sf_closeReader _ w := (None, w); sf_openWriter _ w := (None, w); sf_writeMark _ w := (None, w);
  sf_closeWriter _ w := (None, w); sf_random w := (Ok [], w)
}.

#[local] Instance laneWaiting : Waiting Lane := {
  wt_now w := (ln_clock w, w);
  wt_err ctx w := (if lnOver ctx w then Some LDone else None, w);
  wt_after ctx d w := if lnOver ctx w then (true, w) else (false, lnAt (ln_clock w + d)%Z w);
  wt_newTicker w := (ln_clock w, w);
  wt_tick ctx started d n w := if lnOver ctx w then (true, w) else (false, lnTick (started + Z.of_nat (S n) * d)%Z w);
  wt_mkdirAll _ w := (None, w); wt_open _ w := (None, w);
  wt_flock _ w := (None, lnHold true w); wt_unlock _ w := (tt, lnHold false w); wt_close _ w := (tt, w)
}.

#[local] Instance laneObserved : Observed Lane := {
  sessions w := if ln_present w then {[leaseDir := "realm"]} else ∅;
  held := ln_held; clock := ln_clock; over := lnOver; late _ := 0%nat
}.

Lemma lane_quiet (w w' : Lane) : (ln_clock w <= ln_clock w')%Z -> quiet w w'.
Proof.
  intros H. split_and!; [done|done|]. intros [t|]; [|done]. cbn. intros Ht%Z.leb_le. apply Z.leb_le. lia.
Qed.

#[local] Instance laneHonest : HonestSessions Lane "/srv/activation" leaseRoot.
Proof.
  assert (forall w : Lane, calm w w) as Hc by apply calm_refl.
  split; try (intros; exact (Hc _)).
  - by intros w w' [= <-].
  - intros path w. split; [apply Hc|]. cbn. destruct (ln_present w); cbn; [|done]. case_bool_decide as E; [done|].
    intros _. by apply lookup_singleton_ne.
  - intros w. cbn. destruct (ln_present w); cbn; [|by intros]. intros dir realm [<- <-]%lookup_singleton_Some. exists leaseName, true.
    split_and!; [by left|vm_compute; reflexivity|done].
  - intros dir w size m realm. cbn. destruct (ln_present w); [|done]. intros [= <- <-]. by intros [_ <-]%lookup_singleton_Some.
  - intros w. split; [apply Hc|done].
  - intros ctx w. split; [apply Hc|]. cbn. by intros ->.
  - intros t w H. by apply Z.leb_le.
  - intros ctx d w. cbn. destruct (lnOver ctx w) eqn:E; cbn; [by split; [apply Hc|]|]. split; [|lia].
    split_and!; [apply lane_quiet; cbn; lia|done|done].
  - intros w. split; [apply Hc|done].
  - intros ctx started d n w. cbn. destruct (lnOver ctx w) eqn:E; cbn [negb andb]; [by split_and!|].
    split_and!; [cbn; lia|by apply lane_quiet; cbn; lia|done| |done|cbn; lia].
    intros _. cbn. destruct (ln_present w); [|done]. destruct (ln_left w =? 0)%nat; cbn; [apply map_empty_subseteq|done].
  - intros path w. apply lane_quiet. cbn. lia.
  - intros path w. apply lane_quiet. cbn. lia.
  - intros w. split; [apply lane_quiet; cbn; lia|done].
Defined.

Definition lane0 : Lane := MkLane true 3 false 1000%Z.

Definition laneRun : option (outcome unit) * Lane :=
  withSessionsStopped 751 "/srv/activation" leaseRoot None "realm" (ret None) lane0.

(** The session is gone after four ticks and the publication has run. *)
Example lane_ends : laneRun.1 = Some (Finished (Ok tt)) /\ ln_present laneRun.2 = false.
Proof. vm_compute. by split. Qed.

(** A session that never closes: the barrier gives up at its deadline. *)
Example lane_times_out :
  (withSessionsStopped 751 "/srv/activation" leaseRoot None "realm" (ret None) (MkLane true 9999 false 1000%Z)).1 = Some (Finished (Err LDone)).
Proof. vm_compute. reflexivity. Qed.

Lemma barrier_terminates_witness : laneRun.1 = None \/ exists e, laneRun.1 = Some (Finished e).
Proof.
  apply (barrier_terminates "/srv/activation" leaseRoot 751 0 None "realm" (ret None) lane0 laneRun.1 laneRun.2).
  - lia.
  - apply surjective_pairing.
  - apply le_n.
Defined.

Lemma barrier_excludes_sessions_witness :
  laneRun.1 = Some (Finished (Ok tt)) /\ exists w1, held (W := Lane) w1 = true /\ noSessions "realm" w1.
Proof.
  split; [apply lane_ends|].
  destruct (proj2 (barrier_excludes_sessions "/srv/activation" leaseRoot 751 None "realm" (ret None) lane0) laneRun.2) as (w1 & w2 & H1 & H2 & _).
  - rewrite <- (proj1 lane_ends). apply surjective_pairing.
  - by exists w1.
Defined.

(** ** A store of records in memory *)
Record Office := MkOffice { of_store : Store; of_mine : bool }.

Definition officeConfig : Config := MkConfig "/srv/activation" "" "/srv/keys" "/srv/authz" "" "/bin/entry" "" false true.

Definition ofHold (b : bool) (w : Office) : Office := MkOffice (of_store w) b.
Definition ofPut (f : Store -> Store) (w : Office) : Office := MkOffice (f (of_store w)) (of_mine w).

#[local] Instance anyKeys : SSHKeys := { parseAuthorizedKey s := Some (Key true "comment" 0 "" "fingerprint" s) }.
#[local] Instance officeMortal : Mortal Office := { dies w := (false, w) }.
#[local] Instance officeFiles : SessionFiles Office := {
  sf_lstat _ w := (Err (LIO 1), w); sf_readDir _ w := (Ok [], w); sf_readMetadata _ w := (Err (LIO 1), w);
  sf_writeMetadata _ _ w := (None, w); sf_mkdir _ w := (None, w); sf_mkdirAll _ w := (None, w); sf_chmod _ w := (None, w);
  sf_mkfifo _ w := (None, w); sf_remove _ w := (None, w); sf_removeAll _ w := (None, w); sf_openReader _ w := (None, w);
  sf_readMark _ w := (Ok 0%Z, w); sf_closeReader _ w := (None, w); sf_openWriter _ w := (None, w); sf_writeMark _ w := (None, w);
  sf_closeWriter _ w := (None, w); sf_random w := (Ok [], w)
}.
#[local] Instance officeWaiting : Waiting Office := {
  wt_now w := (0%Z, w); wt_err _ w := (None, w); wt_after _ _ w := (false, w); wt_newTicker w := (0%Z, w);
  wt_tick _ _ _ _ w := (false, w); wt_mkdirAll _ w := (None, w); wt_open _ w := (None, w);
  wt_flock _ w := (None, ofHold true w); wt_unlock _ w := (tt, ofHold false w); wt_close _ w := (tt, w)
}.

Definition officeName (path : string) : string := TrimPrefix path (recordsDir officeConfig ++ "/").
Definition officeNamed (path : string) : bool :=
  bool_decide (JoinPath [recordsDir officeConfig; officeName path] = path) && HasSuffix (officeName path) ".json".
Definition officeList (s : Store) : result lerr (list (string * bool)) :=
  let paths := List.map fst (map_to_list (s_records s)) in
  if forallb officeNamed paths then Ok (List.map (fun path => (officeName path, false)) paths) else Err (LIO 1).

#[local] Instance officeActivation : ActivationFiles Office := {
  ac_now w := (10%Z, w);
  ac_readRecord path w := (match s_records (of_store w) !! path with Some r => Ok r | None => Err LNotExist end, w);
  ac_writeRecord path r w := (None, ofPut (putRecord path r) w);
  ac_readReceipt path w := (Ok (PossessionReceipt "op1" "client1" 9%Z), w);
  ac_writeReceipt _ _ w := (None, w); ac_removeReceipt _ w := (None, w);
  ac_readFence path w := (match s_fences (of_store w) !! path with Some f => Ok f | None => Err LNotExist end, w);
  ac_writeFence path f w := (None, ofPut (putFence path f) w);
  ac_readDir _ w := (officeList (of_store w), w);
  ac_mkdirAll _ w := (None, w); ac_writeFile _ _ w := (None, w); ac_admission w := (None, w);
  ac_enterWorkingCopy w := (None, w); ac_leaveWorkingCopy _ w := (tt, w);
  ac_publishFiles _ _ w := (Ok 7%Z, w); ac_publishRevocation _ w := (Ok 8%Z, w); ac_rebuildAuthority w := (None, w);
  ac_viewRevision _ w := (Ok 7%Z, w)
}.
#[local] Instance officeStored : Stored Office := { store := of_store; mine := of_mine }.

Lemma office_listed (s : Store) entries path r : officeList s = Ok entries -> s_records s !! path = Some r ->
  exists name, In (name, false) entries /\ HasSuffix name ".json" = true /\ path = JoinPath [recordsDir officeConfig; name].
Proof.
  unfold officeList. destruct (forallb officeNamed _) eqn:E; [|done]. intros [= <-] Hr.
  assert (In path (List.map fst (map_to_list (s_records s)))) as Hin.
  { apply in_map_iff. exists (path, r). split; [done|]. by apply list_elem_of_In, elem_of_map_to_list. }
  rewrite forallb_forall in E. specialize (E path Hin). apply andb_true_iff in E as [E Hs]. apply bool_decide_eq_true in E.
  exists (officeName path). split_and!; [|done|done]. apply in_map_iff. by exists path.
Qed.

#[local] Instance officeHonest : HonestStore Office officeConfig.
Proof.
  assert (forall w : Office, steady officeConfig w w) as Hs by apply steady_refl.
  split; try (intros; exact (Hs _)); try (intros; exact eq_refl).
  - intros w. cbn. split; [apply evolves_refl|done].
  - intros w. cbn. split; [apply evolves_refl|done].
  - intros path w. split; [exact (Hs _)|]. intros _. cbn. by destruct (s_records (of_store w) !! path).
  - intros path w. split; [exact (Hs _)|]. intros _. cbn. by destruct (s_fences (of_store w) !! path).
  - intros w. split; [exact (Hs _)|]. intros _. cbn. destruct (officeList (of_store w)) as [entries|e] eqn:E.
    + intros path r. by apply office_listed.
    + unfold officeList in E. destruct (forallb _ _); [done|]. by injection E as <-.
  - intros path r w Hw. split; [done|by left].
  - intros path f w Hw. split; [done|by left].
Defined.

Definition officeRecord (state : string) : ActivationRecord :=
  ActRec RecordSchema "op1" "deploy1" "client1" "realm1" "" [] "key comment" "fingerprint" state 1%Z 100%Z None 0%Z None "".
Definition officeGrant (op client : string) : ActivationGrant := ActGrant op client "realm1" "" [] "deploy1" "key" "fingerprint" 100%Z.
Definition officeWith (state : string) (fences : gmap string RealmRemovalFence) : Office :=
  MkOffice (MkStore {[recordPath officeConfig "op1" := officeRecord state]} fences) false.
Definition officeFence : gmap string RealmRemovalFence :=
  {[realmRemovalFencePath officeConfig "realm1" := Fence "removal" "realm1" ["client1"] 5%Z]}.

Lemma office_kept state fences : wellKept officeConfig (of_store (officeWith state fences)).
Proof. intros path r. cbn. by intros [<- <-]%lookup_singleton_Some. Qed.

(** From staging to revocation. *)
Example office_life :
  ar_State <$> s_records (of_store (actAll 5 officeConfig
    [DoStage (officeGrant "op1" "client1"); DoPublish "/srv/wc" (officeGrant "op1" "client1"); DoRevoke "client1" "left"]
    (MkOffice (MkStore ∅ ∅) false))) !! recordPath officeConfig "op1" = Some "revoked".
Proof. vm_compute. reflexivity. Qed.

Lemma installations_advance_witness : exists r',
  s_records (of_store (actAll 5 officeConfig [DoRevoke "client1" "left"; DoStage (officeGrant "op1" "client1")] (officeWith "revoking" ∅)))
    !! recordPath officeConfig "op1" = Some r' /\ isLive r' = false.
Proof.
  destruct (installations_advance 5 officeConfig [DoRevoke "client1" "left"; DoStage (officeGrant "op1" "client1")] (officeWith "revoking" ∅)
    (recordPath officeConfig "op1") (officeRecord "revoking")) as (r' & H1 & _ & H3).
  - reflexivity.
  - apply office_kept.
  - apply lookup_singleton_eq.
  - exists r'. split; [exact H1|apply H3]. right. left. reflexivity.
Defined.

Definition officeClaim : option (outcome (option SessionLease)) * Office :=
  ClaimSession 5 officeConfig "op1" "client1" (actAll 5 officeConfig [DoRevoke "client1" "left"] (officeWith "revoked" ∅)).

Lemma closed_claims_nothing_witness : bool_decide (is_Some officeClaim.1) = true /\ (forall lease, officeClaim.1 <> Some (Finished (Ok (Some lease)))).
Proof.
  split; [vm_compute; reflexivity|].
  apply (closed_claims_nothing 5 officeConfig [DoRevoke "client1" "left"] "op1" "client1" (officeWith "revoked" ∅) (officeRecord "revoked")
    officeClaim.1 officeClaim.2).
  - reflexivity.
  - apply office_kept.
  - apply lookup_singleton_eq.
  - right. right. reflexivity.
  - apply surjective_pairing.
Defined.

Lemma fence_closes_realm_witness : exists r,
  s_records (store (officeWith "active" officeFence)) !! recordPath officeConfig "op1" = Some r /\ advances r (officeRecord "active").
Proof.
  apply (fence_closes_realm 5 officeConfig [DoStage (officeGrant "op2" "client2")] (officeWith "active" officeFence) "realm1"
    (recordPath officeConfig "op1") (officeRecord "active")).
  - reflexivity.
  - apply office_kept.
  - eexists. apply lookup_singleton_eq.
  - vm_compute. reflexivity.
  - reflexivity.
Defined.

Definition officeRevocation : option (outcome (list string * option lerr)) * Office :=
  RevokeRealm 5 officeConfig "realm1" "left" (actAll 5 officeConfig [DoCleanupExpired] (officeWith "expired" ∅)).

Lemma expired_blocks_realm_revocation_witness : bool_decide (is_Some officeRevocation.1) = true /\ (forall revoked, officeRevocation.1 <> Some (Finished (Ok revoked))).
Proof.
  split; [vm_compute; reflexivity|].
  apply (expired_blocks_realm_revocation 5 officeConfig [DoCleanupExpired] "realm1" "left" (officeWith "expired" ∅) (recordPath officeConfig "op1")
    (officeRecord "expired") officeRevocation.1 officeRevocation.2).
  - reflexivity.
  - apply office_kept.
  - apply lookup_singleton_eq.
  - reflexivity.
  - reflexivity.
  - apply surjective_pairing.
Defined.
