(* ===== verification/Executions.v ===== *)
(** * Executions: the server's gate around one lock acquisition

    Models src/pkg/repoworker/passport_executions.go and
    passport_scheduled_reap.go.  A client arms an acquisition; the pre-lock hook
    admits the lock request of one SVN process and records its parent's pid;
    settling, expiry and the reaper close the acquisition, releasing the lock it
    obtained.  One record file per acquisition, guarded by its own file lock.

    The class [ExecutionFiles] reads and writes record files.  A file is the value
    the JSON decoder sees in it: its size, whether the object has the field
    [executor_pid] with a value, and the decoded record.  [atomicJSON] may fail
    before or after the rename: both are answers of [ef_write]. *)
From S2P Require Import Prelude GoStrings Passport ControlTickets ServerBase RealmRecords LockAuthority ServerHost.
From Stdlib Require Import Ascii String.

Open Scope string_scope.
Open Scope go_scope.

Inductive execState := Armed | Started | Closing | Closed | UnknownState (s : string).

#[export] Instance execState_eq_dec : EqDecision execState.
Proof. solve_decision. Defined.

Record passportExecution := PExec {
  pe_Schema : string;
  pe_RepoID : string;
  pe_RepositoryUUID : string;
  pe_ClientID : string;
  pe_RealmID : string;
  pe_Path : string;
  pe_Comment : string;
  pe_State : execState;
  pe_ExecutorPID : Z;
  pe_ObservedToken : string;
  pe_ExpiresAt : Time
}.

#[export] Instance passportExecution_eq_dec : EqDecision passportExecution.
Proof. solve_decision. Defined.

Definition withState (s : execState) (r : passportExecution) : passportExecution :=
  PExec (pe_Schema r) (pe_RepoID r) (pe_RepositoryUUID r) (pe_ClientID r) (pe_RealmID r) (pe_Path r) (pe_Comment r)
        s (pe_ExecutorPID r) (pe_ObservedToken r) (pe_ExpiresAt r).
Definition withExecutor (pid : Z) (r : passportExecution) : passportExecution :=
  PExec (pe_Schema r) (pe_RepoID r) (pe_RepositoryUUID r) (pe_ClientID r) (pe_RealmID r) (pe_Path r) (pe_Comment r)
        Started pid (pe_ObservedToken r) (pe_ExpiresAt r).
Definition withToken (token : string) (r : passportExecution) : passportExecution :=
  PExec (pe_Schema r) (pe_RepoID r) (pe_RepositoryUUID r) (pe_ClientID r) (pe_RealmID r) (pe_Path r) (pe_Comment r)
        (pe_State r) (pe_ExecutorPID r) token (pe_ExpiresAt r).

Definition executionSchema : string := "filees.passport-execution/v1".

Record execFile := ExecFile { xf_size : Z; xf_fields : option bool; xf_record : option passportExecution }.

Class ExecutionFiles (W : Type) := {
  ef_read : string -> W -> result serr execFile * W;
  ef_write : string -> passportExecution -> W -> option serr * W
}.

(** The deployment: [PassportExecutions] with its authority. *)
Record Deployment := Deploy { d_ServiceWC : string; d_Locks : Admin; d_GuardExecutable : string }.

Section Executions.
  Context {W : Type} `{!Ids} `{!Comments} `{!UnicodeTables} `{!Mortal W} `{!Host W} `{!Records W} `{!Locks W}
          `{!ExecutionFiles W} `{!Wire W} `{!Replies}.
  Variable d : Deployment.

(** ** Reading a record *)
Definition executionRepositoryUUID (repository : string) : MC W (result serr string) :=
  let* r := ask (ho_readFile (JoinPath [repository; "db"; "uuid"])) in
  ok? raw := r in
  let id := List.hd "" (Split newline raw) in
  ret (if canonicalUUID id then Ok id else Err EUuid).

Definition executionMetadata (comment : string) : result serr Metadata :=
  match ParseComment comment with
  | None => Err EMetadata
  | Some m =>
      if negb (bool_decide (FormatComment m = comment)) || (4096 <? len comment)%Z then Err EMetadata
      else if negb (forallb canonicalUUID
                (app [md_AcquisitionID m; md_PassportID m; md_InstanceUID m]
                     (if bool_decide (md_RealmID m = "") then [] else [md_RealmID m]))) then Err EMetadata
      else if IsZero (md_IssuedAt m) || negb (After (md_ExpiresAt m) (md_IssuedAt m))
              || Before (md_HardExpiresAt m) (md_ExpiresAt m)
              || (24 * Hour <? Sub (md_HardExpiresAt m) (md_IssuedAt m))%Z then Err ELifetime
      else Ok m
  end.

Definition validExecutor (r : passportExecution) : bool :=
  negb ((pe_ExecutorPID r <? 0)%Z || (pe_ExecutorPID r =? 1)%Z
        || (bool_decide (pe_State r = Started) && (pe_ExecutorPID r <=? 1)%Z)
        || (bool_decide (pe_State r = Armed) && negb (pe_ExecutorPID r =? 0)%Z)
        || ((pe_ExecutorPID r =? 0)%Z && negb (bool_decide (pe_ObservedToken r = "")))).

Definition knownState (s : execState) : bool := match s with UnknownState _ => false | _ => true end.

Definition validateExecutionRecord (r : passportExecution) : option serr :=
  (match executionMetadata (pe_Comment r) with
   | Err _ => Some ERecord
   | Ok m => require (bool_decide (pe_Schema r = executionSchema)
                      && (bool_decide (md_RealmID m = "") || bool_decide (pe_RealmID r = md_RealmID m))
                      && bool_decide (pe_ExpiresAt r = md_ExpiresAt m)) ERecord
   end) >>?
  require (knownState (pe_State r)) ERecord >>?
  require (validExecutor r) ERecord >>?
  require (isUUID (pe_ClientID r)) EUuid >>? require (isUUID (pe_RealmID r)) EUuid >>?
  require (isUUID (pe_RepoID r)) EUuid >>? require (isUUID (pe_RepositoryUUID r)) EUuid >>?
  validateLockReleasePath (pe_Path r) >>?
  (if bool_decide (pe_ObservedToken r = "") then None else validateObservedLockID (pe_ObservedToken r)).

Definition decodeExecution (f : execFile) : result serr passportExecution :=
  if (16384 <? xf_size f)%Z then Err ERecord
  else match xf_fields f, xf_record f with
       | None, _ => Err ERecord
       | Some false, _ => Err ERecord
       | Some true, None => Err ERecord
       | Some true, Some r => match validateExecutionRecord r with Some e => Err e | None => Ok r end
       end.

Definition readExecution (file : string) : MC W (result serr passportExecution) :=
  let* e := privateExecutionFile file in
  match e with Some e => ret (Err e) | None =>
    let* r := ask (ef_read file) in
    ok? f := r in ret (decodeExecution f)
  end.

Definition atomicJSON (file : string) (r : passportExecution) : MC W (option serr) := ask (ef_write file r).

Definition now : MC W Time := ask ho_now.
Definition inspect (repoID path : string) : MC W (result serr (option svnAdminLock)) := ask (lk_inspect repoID path).

(** Only ESRCH proves that a process ended; a pid of at most 1 is never proof. *)
Definition passportExecutorDead (pid : Z) : MC W bool :=
  if (pid <=? 1)%Z then ret false else ask (ho_noSuchProcess pid).

(** ** Closing *)
Definition closeExecution (file : string) (r : passportExecution) (generation : string) : MC W (option serr) :=
  if bool_decide (pe_State r = Closed) then ret None
  else
    let r := withState Closing r in
    let* e := atomicJSON file r in
    orElse e (
      if negb (bool_decide (pe_RepositoryUUID r = generation)) then
        let* running := (if (1 <? pe_ExecutorPID r)%Z
                         then let* dead := passportExecutorDead (pe_ExecutorPID r) in ret (negb dead)
                         else ret false) in
        if running then ret (Some ERunning) else atomicJSON file (withState Closed r)
      else
        let* l := inspect (pe_RepoID r) (pe_Path r) in
        nil? lock := l in
        let mine := match lock with
                    | Some l => bool_decide (al_Owner l = pe_ClientID r) && bool_decide (al_Comment l = pe_Comment r)
                    | None => false
                    end in
        let held := match lock with Some l => al_Token l | None => "" end in
        let seen := bool_decide (pe_ObservedToken r = "") && mine && (1 <? pe_ExecutorPID r)%Z in
        let r := if seen then withToken held r else r in
        let* e := (if seen then atomicJSON file r else ret None) in
        orElse e (
          let* running := (if bool_decide (pe_ObservedToken r = "") && (1 <? pe_ExecutorPID r)%Z
                           then let* dead := passportExecutorDead (pe_ExecutorPID r) in ret (negb dead)
                           else ret false) in
          if running then ret (Some ERunning)
          else
            let* e := (if mine && negb (bool_decide (pe_ObservedToken r = "")) && bool_decide (pe_ObservedToken r = held)
                       then ask (lk_unlock (pe_RepoID r) (pe_Path r) (pe_ClientID r) (pe_ObservedToken r))
                       else ret None) in
            orElse e (atomicJSON file (withState Closed r)))).

(** ** Arming and settling *)
Definition bindsTo (r : passportExecution) (p : Execution) (session : Session) : bool :=
  bool_decide (pe_RepoID r = ex_RepoID p) && bool_decide (pe_ClientID r = se_ClientID session)
  && bool_decide (pe_RealmID r = se_RealmID session) && bool_decide (pe_Path r = ex_Path p)
  && bool_decide (pe_Comment r = ex_Comment p).

(** The record of an acquisition seen for the first time; an acquisition that
    already expired, or one first heard of when it is settled, is born closed. *)
Definition newRecord (p : Execution) (session : Session) (generation : string) (meta : Metadata)
    (settle expired : bool) : passportExecution :=
  PExec executionSchema (ex_RepoID p) generation (se_ClientID session) (se_RealmID session) (ex_Path p) (ex_Comment p)
        (if settle || expired then Closed else Armed) 0 "" (md_ExpiresAt meta).

Definition createExecution (file : string) (p : Execution) (session : Session) (generation : string) (meta : Metadata)
    (arm settle : bool) : MC W (result serr passportExecution) :=
  let* t := now in
  let record := newRecord p session generation meta settle (negb (Before t (md_ExpiresAt meta))) in
  let* early := (if arm then
                   let* t1 := now in
                   if After (md_IssuedAt meta) (Add t1 Minute) then ret true
                   else let* t2 := now in ret (After (md_ExpiresAt meta) (Add t2 (24 * Hour)%Z))
                 else ret false) in
  if early then ret (Err EDenied)
  else
    let* e := atomicJSON file record in
    ret (match e with Some e => Err e | None => Ok record end).

(** The body run under the acquisition's lock; [arm] false is a settlement. *)
Definition handleLocked (file : string) (p : Execution) (session : Session) (generation : string) (meta : Metadata)
    (arm : bool) : MC W (option serr) :=
  let* e := ask ho_ctxErr in
  orElse e (
    let* r := readExecution file in
    let* r := (match r with
               | Err ENotExist => createExecution file p session generation meta arm (negb arm)
               | r => ret r
               end) in
    nil? record := r in
    if negb (bindsTo record p session) then ret (Some EDenied)
    else if arm then
      let* expired := (if bool_decide (pe_State record = Armed)
                       then let* t := now in ret (negb (Before t (pe_ExpiresAt record))) else ret false) in
      let record := if expired then withState Closed record else record in
      let* e := (if expired then atomicJSON file record else ret None) in
      orElse e (
        if negb (bool_decide (pe_RepositoryUUID record = generation)) || negb (bool_decide (pe_State record = Armed))
        then ret (Some EStale)
        else
          let* t := now in
          ret (if negb (Before t (pe_ExpiresAt record)) then Some EStale else None))
    else closeExecution file record generation).

(** The guards of the repository are in place, installed now if they are absent. *)
Definition guardsReady (repo : string) : MC W bool :=
  let exe := d_GuardExecutable d in
  let* e := checkExecutionGuardExecutable exe in
  match e with Some _ => ret false | None =>
    let* r := InspectLockGuards repo exe in
    match r with Err _ => ret false | Ok states =>
      let* r := (if lockGuardsMissing states then
                   let* e := InstallLockGuards repo exe in
                   match e with Some e => ret (Err e) | None => InspectLockGuards repo exe end
                 else ret (Ok states)) in
      ret (match r with Err _ => false | Ok states => forallb (fun s => bool_decide (s.2 = GInstalled)) states end)
    end
  end.

Definition failure (t : Ticket) (key : Key) : MC W (result serr Result) :=
  let* n := now in ret (preparationError t key n).

Definition success (t : Ticket) (p : Execution) (comment state : string) : MC W (result serr Result) :=
  let* n := now in
  ret (NewSuccessResult (tk_OperationID t) (tk_RequestID t) (tk_Type t)
         (y_executionResult (ExecResult (ex_RepoID p) (ex_Path p) comment state)) n).

(** ** Expiry *)
Definition legacyLifetime (m : Metadata) : bool :=
  negb (IsZero (md_IssuedAt m)) && After (md_ExpiresAt m) (md_IssuedAt m)
  && negb (Before (md_HardExpiresAt m) (md_ExpiresAt m))
  && isUUID (md_PassportID m) && isUUID (md_InstanceUID m)
  && (bool_decide (md_RealmID m = "") || isUUID (md_RealmID m)).

Definition expireLocked (file repoID path : string) (lock : svnAdminLock) (generation : string) : MC W (option serr) :=
  let* r := readExecution file in
  nil? r := r in
  if negb (bool_decide (pe_ClientID r = al_Owner lock) && bool_decide (pe_Path r = path)
           && bool_decide (pe_Comment r = al_Comment lock) && bool_decide (pe_RepoID r = repoID))
  then ret (Some EMismatch)
  else
    let* t := now in
    if Before t (pe_ExpiresAt r) then ret None else closeExecution file r generation.

Definition ExpirePath (repoID path : string) : MC W (option serr) :=
  let* l := inspect repoID path in
  match l with
  | Err e => ret (Some e)
  | Ok None => ret None
  | Ok (Some lock) =>
      match ParseComment (al_Comment lock) with
      | None => ret None
      | Some meta =>
          if negb (legacyLifetime meta) then ret None
          else
            let* t := now in
            let* live := (if Before t (md_ExpiresAt meta)
                          then let* t := now in ret (Before t (md_HardExpiresAt meta)) else ret false) in
            if live then ret None
            else if bool_decide (md_AcquisitionID meta = "")
            then ask (lk_unlock repoID path (al_Owner lock) (al_Token lock))
            else match repositoryPath (d_Locks d) repoID path with
                 | Err e => ret (Some e)
                 | Ok repo =>
                     let* g := executionRepositoryUUID repo in
                     nil? generation := g in
                     withExecution repo (md_AcquisitionID meta)
                       (fun file => expireLocked file repoID path lock generation)
                 end
      end
  end.

(** ** The control requests *)
Definition handleAcquisition (session : Session) (t : Ticket) (p : Execution) (repo : string) : MC W (result serr Result) :=
  let arm := bool_decide (tk_Type t = TicketArm) in
  match executionMetadata (ex_Comment p) with
  | Err _ => failure t KDenied
  | Ok meta =>
      if negb (bool_decide (md_RealmID meta = "")) && negb (bool_decide (md_RealmID meta = se_RealmID session))
      then failure t KDenied
      else
        let* ready := (if arm then guardsReady repo else ret true) in
        if negb ready then failure t KUnavailable
        else
          let* g := executionRepositoryUUID repo in
          ok? generation := g in
          let* e := withExecution repo (md_AcquisitionID meta)
                      (fun file => handleLocked file p session generation meta arm) in
          match e with
          | None => success t p (ex_Comment p) (if arm then "armed" else "closed")
          | Some e => if serr_is EDenied e then failure t KDenied
                      else if serr_is EStale e then failure t KAborted
                      else if serr_is ERunning e then failure t KUncertain
                      else ret (Err e)
          end
  end.

Definition Handle (session : Session) (t : Ticket) : MC W (result serr Result) :=
  match validateSession session with Some e => ret (Err e) | None =>
  match validateTicket (W:=W) t with Some _ => ret (Err ETicket) | None =>
  if negb (bool_decide (tk_ClientID t = se_ClientID session)) then ret (Err EActor)
  else if negb (isExecutionType (tk_Type t)) then ret (Err ETicket)
  else match decodeStrict (x_execution (W:=W)) (tk_Payload t) with Err _ => ret (Err ETicket) | Ok p =>
    let* denied := (if bool_decide (tk_Type t = TicketSettle)
                    then authorizePassportCleanup (d_ServiceWC d) session
                    else authorizeRequester (d_ServiceWC d) session (ex_RepoID p)) in
    match denied with Some _ => failure t KDenied | None =>
      ok? repo := repositoryPath (d_Locks d) (ex_RepoID p) (ex_Path p) in
      if bool_decide (tk_Type t = TicketExpire) then
        let* e := ExpirePath (ex_RepoID p) (ex_Path p) in
        match e with Some e => ret (Err e) | None => success t p "" "checked" end
      else handleAcquisition session t p repo
    end
  end
  end end.

(** ** The pre-lock hook: [args] are the repository, the path, the user, the
    comment and the force bit; [parent] is the svnserve process. *)
Definition admitLocked (file repo generation path user comment : string) (parent : Z) (at_ : Time) : MC W (option serr) :=
  let* r := readExecution file in
  nil? r := r in
  if negb (bool_decide (pe_State r = Armed)) || negb (bool_decide (pe_RepositoryUUID r = generation))
     || negb (bool_decide (pe_ClientID r = user)) || negb (bool_decide (pe_Path r = TrimPrefix path "/"))
     || negb (bool_decide (pe_Comment r = comment)) || negb (bool_decide (pe_RepoID r = Base repo))
  then ret (Some ENotArmed)
  else if negb (Before at_ (pe_ExpiresAt r)) then
    let* e := atomicJSON file (withState Closed r) in
    orElse e (ret (Some EExpired))
  else atomicJSON file (withExecutor parent r).

Definition AdmitPassportExecution (args : list string) (parent : Z) (at_ : Time) : MC W (option serr) :=
  match args with
  | [repository; path; user; comment; force] =>
      if negb (bool_decide (force = "0")) then ret (Some EForced)
      else match ParseComment comment with
           | None => ret None
           | Some m =>
               if bool_decide (md_AcquisitionID m = "") then ret None
               else match executionMetadata comment with
                    | Err e => ret (Some e)
                    | Ok meta =>
                        if (parent <=? 1)%Z || negb (IsAbs repository) || negb (HasPrefix path "/") then ret (Some EExecutor)
                        else
                          let repo := Clean repository in
                          if negb (isUUID (Base repo)) then ret (Some EUuid)
                          else
                            let* g := executionRepositoryUUID repo in
                            nil? generation := g in
                            withExecution repo (md_AcquisitionID meta)
                              (fun file => admitLocked file repo generation path user comment parent at_)
                    end
           end
  | _ => ret (Some EForced)
  end.

(** ** The reaper *)
Definition reapLocked (repo repoID id file : string) : MC W (option serr) :=
  let* r := readExecution file in
  nil? r := r in
  let acquisition := match ParseComment (pe_Comment r) with Some m => md_AcquisitionID m | None => "" end in
  if negb (bool_decide (pe_RepoID r = repoID)) || negb (bool_decide (acquisition = id)) then ret (Some EMismatch)
  else if bool_decide (pe_State r = Closed) then ret None
  else
    let* waiting := (if bool_decide (pe_State r = Closing) then ret false
                     else let* t := now in ret (Before t (pe_ExpiresAt r))) in
    if waiting then ret None
    else
      let* g := executionRepositoryUUID repo in
      match g with
      | Ok generation => closeExecution file r generation
      | Err e =>
          let* s := ask (ho_lstat repo) in
          match s with
          | Err ENotExist => closeExecution file r ""
          | _ => ret (Some e)
          end
      end.

Fixpoint reapEntries (repo repoID : string) (entries : list (string * bool)) (failures : list serr) : MC W (option serr) :=
  match entries with
  | [] => ret (errorsJoin failures)
  | (name, _) :: rest =>
      let* e := ask ho_ctxErr in
      match e with
      | Some e => ret (errorsJoin (app failures [e]))
      | None =>
          if negb (HasSuffix name ".json") then reapEntries repo repoID rest failures
          else
            let id := TrimSuffix name ".json" in
            let* e := withExecutionLocker true repo id (reapLocked repo repoID id) in
            reapEntries repo repoID rest (match e with Some e => app failures [e] | None => failures end)
      end
  end.

Definition ReapRepository (repoID : string) : MC W (option serr) :=
  nil? repo := repositoryPath (d_Locks d) repoID "validation" in
  let* r := ask (ho_readDir (executionDirectory repo)) in
  match r with
  | Err ENotExist => ret None
  | Err e => ret (Some e)
  | Ok files => reapEntries repo repoID files []
  end.

Fixpoint reapRepositories (dirs : list (string * bool)) (failures : list serr) : MC W (option serr) :=
  match dirs with
  | [] => ret (errorsJoin failures)
  | (name, isDir) :: rest =>
      let* e := ask ho_ctxErr in
      match e with
      | Some e => ret (errorsJoin (app failures [e]))
      | None =>
          if negb isDir then reapRepositories rest (app failures [EUnsafe])
          else
            let* e := ReapRepository name in
            reapRepositories rest (match e with Some e => app failures [e] | None => failures end)
      end
  end.

Definition Reap : MC W (option serr) :=
  let root := JoinPath [RepositoriesRoot (d_Locks d); ".filees-passport-executions"] in
  let* s := ask (ho_lstat root) in
  match s with
  | Err ENotExist => ask ho_ctxErr
  | Err e => ret (Some e)
  | Ok info =>
      if negb (privateDir info) then ret (Some EUnsafe)
      else
        let* r := ask (ho_readDir root) in
        match r with
        | Err ENotExist => ret None
        | Err e => ret (Some e)
        | Ok dirs => reapRepositories dirs []
        end
  end.

(** ** The scheduled pass (passport_scheduled_reap.go) *)
Inductive reapState := RBusy | RRunning | RChecked | RFailed | ROther (s : string).

#[export] Instance reapState_eq_dec : EqDecision reapState.
Proof. solve_decision. Defined.

Record PassportReapStatus := ReapStatus {
  ps_Schema : string;
  ps_State : reapState;
  ps_StartedAt : Time;
  ps_FinishedAt : Time;
  ps_Error : bool
}.

Definition maintenanceSchema : string := "filees.passport-maintenance/v1".

Definition ValidateMaintenanceRoot (path : string) : MC W (option serr) :=
  if negb (IsAbs path) || bool_decide (Clean path = "/") then ret (Some ERoot)
  else
    let* r := ask (ho_lstat path) in
    nil? info := r in
    ret (if negb (fi_dir info) || fi_symlink info then Some ERoot else None).

Record Reaper := MkReaper { rp_WorkerLock : string; rp_ServiceLock : string; rp_StatusFile : string }.

Definition scopedPaths (s : Reaper) : bool :=
  forallb (fun p => IsAbs p && negb (bool_decide (Clean p = "/"))) [rp_WorkerLock s; rp_ServiceLock s; rp_StatusFile s].

(** The status is kept in memory beside the file, which [writeStatus] saves; its
    error text is not modelled, only whether there is one. *)
Definition reapPass (s : Reaper) (writeStatus : PassportReapStatus -> W -> option serr * W) (status : PassportReapStatus)
    : MC W (PassportReapStatus * option serr) :=
  let* e := ask (ho_lockFile true (rp_WorkerLock s)) in
  match e with Some e => ret (status, Some e) | None =>
    let* out := (
      let* e := ask ho_ctxErr in
      match e with Some e => ret (status, Some e) | None =>
        let* e := privateExecutionFile (rp_StatusFile s) in
        match e with Some e => ret (status, Some e) | None =>
          let status := ReapStatus (ps_Schema status) RRunning (ps_StartedAt status) (ps_FinishedAt status) false in
          let* e := ask (writeStatus status) in
          match e with Some e => ret (status, Some e) | None =>
            let* e := withFileLock true (rp_ServiceLock s) Reap in
            let* t := now in
            let status := ReapStatus (ps_Schema status) (match e with Some _ => RFailed | None => RChecked end)
                            (ps_StartedAt status) t (match e with Some _ => true | None => false end) in
            let* saved := ask (writeStatus status) in
            ret (status, errorsJoin (app (match e with Some e => [e] | None => [] end)
                                         (match saved with Some e => [e] | None => [] end)))
          end
        end
      end) in
    let* _ := ask (ho_unlockFile (rp_WorkerLock s)) in
    ret out
  end.

Definition RunReaper (s : Reaper) (writeStatus : PassportReapStatus -> W -> option serr * W)
    : MC W (PassportReapStatus * option serr) :=
  let* t := now in
  let status := ReapStatus maintenanceSchema RBusy t 0%Z false in
  let* e := ValidateMaintenanceRoot (RepositoriesRoot (d_Locks d)) in
  match e with Some e => ret (status, Some e) | None =>
    if negb (scopedPaths s) then ret (status, Some ERoot)
    else
      let* r := reapPass s writeStatus status in
      let '(status, e) := r in
      ret (match e with
           | Some _ => ReapStatus (ps_Schema status) (ps_State status) (ps_StartedAt status) (ps_FinishedAt status) true
           | None => status
           end, e)
  end.

Definition CheckPassportMaintenance (status : PassportReapStatus) (at_ : Time) (maxAge : Duration) : option serr :=
  if negb (bool_decide (ps_Schema status = maintenanceSchema)) || negb (bool_decide (ps_State status = RChecked))
     || ps_Error status || IsZero (ps_StartedAt status) || Before (ps_FinishedAt status) (ps_StartedAt status)
     || IsZero (ps_FinishedAt status) || (maxAge <=? 0)%Z || Before at_ (ps_FinishedAt status)
     || (maxAge <? Sub at_ (ps_FinishedAt status))%Z
  then Some EUnhealthy else None.

End Executions.
