(* ===== verification/ExecutionWorld.v ===== *)
(** * ExecutionWorld: the server around the acquisition gate, as a transition system

    A concrete host for the operations of [Executions]: record files, the locks of
    the repositories, the live SVN processes with the admission each has not used
    yet, and everything else (clock, directory checks, canonical records, command
    output) answered by an arbitrary schedule.  Before every call an operation
    makes, the schedule lets the rest of the server act: processes start, take the
    lock they were admitted for, fail or exit, other clients lock and unlock,
    repositories are replaced, and pre-lock hooks of other acquisitions run.  A
    schedule may make any call fail, with or without its effect, and may kill the
    worker before any call.  [step] is one operation or one such event. *)
From S2P Require Import Prelude GoStrings Passport ControlTickets ServerBase RealmRecords LockAuthority ServerHost Executions.
From Stdlib Require Import Ascii String.

Open Scope string_scope.
Open Scope go_scope.

(** What the host answers to one call. *)
Record answers := Answers {
  a_dies : bool;
  a_fault : option nat;       (* the call fails *)
  a_after : bool;             (* ... after taking effect *)
  a_now : Time;
  a_canceled : bool;
  a_err : option serr;
  a_info : result serr fileInfo;
  a_text : result serr string;
  a_names : result serr (list (string * bool));
  a_client : result serr clientIdentity;
  a_realm : result serr realmRecord;
  a_repository : result serr repositoryRecord;
  a_grant : result serr RealmGrantRecord
}.

(** An admission a process has not used. *)
Record admission := Admit { ad_RepoID : string; ad_Path : string; ad_Client : string; ad_Comment : string }.

Inductive event :=
| EvSpawn (pid : Z)
| EvExit (pid : Z)
| EvLock (pid : Z)
| EvGiveUp (pid : Z)
| EvOrdinaryLock (repoID path owner comment : string)
| EvUnlock (repoID path : string)
| EvReplace (repoID file uuid : string)
| EvHook (repoID path user comment : string) (parent : Z) (at_ : Time) (host : list answers).

Record tick := Tick_ { t_events : list event; t_answers : answers }.

(** A lock born of an admission: where, with which comment, and its token. *)
Record birth := Birth { bi_RepoID : string; bi_Comment : string; bi_Token : string }.

Record World := MkWorld {
  w_sched : list tick;
  w_cur : answers;
  w_files : gmap string execFile;
  w_held : gset string;
  w_uuids : gmap string string;
  w_locks : gmap (string * string) svnAdminLock;
  w_procs : gmap Z (option admission);
  w_births : list birth;
  w_fresh : nat
}.

Definition setSched (s : list tick) (w : World) : World :=
  MkWorld s (w_cur w) (w_files w) (w_held w) (w_uuids w) (w_locks w) (w_procs w) (w_births w) (w_fresh w).
Definition setCur (a : answers) (w : World) : World :=
  MkWorld (w_sched w) a (w_files w) (w_held w) (w_uuids w) (w_locks w) (w_procs w) (w_births w) (w_fresh w).
Definition setFiles (m : gmap string execFile) (w : World) : World :=
  MkWorld (w_sched w) (w_cur w) m (w_held w) (w_uuids w) (w_locks w) (w_procs w) (w_births w) (w_fresh w).
Definition setHeld (h : gset string) (w : World) : World :=
  MkWorld (w_sched w) (w_cur w) (w_files w) h (w_uuids w) (w_locks w) (w_procs w) (w_births w) (w_fresh w).
Definition setUuids (u : gmap string string) (w : World) : World :=
  MkWorld (w_sched w) (w_cur w) (w_files w) (w_held w) u (w_locks w) (w_procs w) (w_births w) (w_fresh w).
Definition setLocks (l : gmap (string * string) svnAdminLock) (w : World) : World :=
  MkWorld (w_sched w) (w_cur w) (w_files w) (w_held w) (w_uuids w) l (w_procs w) (w_births w) (w_fresh w).
Definition setProcs (p : gmap Z (option admission)) (w : World) : World :=
  MkWorld (w_sched w) (w_cur w) (w_files w) (w_held w) (w_uuids w) (w_locks w) p (w_births w) (w_fresh w).
Definition setBirths (b : list birth) (w : World) : World :=
  MkWorld (w_sched w) (w_cur w) (w_files w) (w_held w) (w_uuids w) (w_locks w) (w_procs w) b (w_fresh w).
Definition setFresh (n : nat) (w : World) : World :=
  MkWorld (w_sched w) (w_cur w) (w_files w) (w_held w) (w_uuids w) (w_locks w) (w_procs w) (w_births w) n.

(** SVN never issues a token twice: the n-th token has n marks. *)
Definition token (n : nat) : string := "opaquelocktoken:" ++ Nat.iter n (String "x") "".

(** The answers when the schedule has run out: nothing fails. *)
Definition quiet : answers :=
  Answers false None false 0%Z false None (Err ENotExist) (Err (EIO 0)) (Ok [])
    (Err (EIO 0)) (Err (EIO 0)) (Err (EIO 0)) (Err (EIO 0)).

(** A worker that dies releases its file locks. *)
Definition die (a : answers) (w : World) : bool * World :=
  if a_dies a then (true, setHeld ∅ (setCur a w)) else (false, setCur a w).

(** A call that may fail, with or without its effect. *)
Definition effectful (eff : World -> World) : World -> option serr * World := fun w =>
  match a_fault (w_cur w) with
  | None => (None, eff w)
  | Some n => (Some (EIO n), if a_after (w_cur w) then eff w else w)
  end.

Definition reading {A} (f : World -> result serr A) : World -> result serr A * World := fun w =>
  (match a_fault (w_cur w) with None => f w | Some n => Err (EIO n) end, w).

(** The deployment, the parts of [Records] no theorem depends on, and the size of
    an encoded record. *)
Class Site := {
  site : Deployment;
  site_normalizeBranding : string -> result serr string;
  site_validateRelease : string -> archivePolicy -> option serr;
  site_encodedSize : passportExecution -> Z
}.

Section World.
  Context `{!Ids} `{!Comments} `{!UnicodeTables} `{!Wire World} `{!Replies} `{!Site}.

#[export] Instance host : Host World := {|
  ho_now w := (a_now (w_cur w), w);
  ho_ctxErr w := (if a_canceled (w_cur w) then Some ECanceled else None, w);
  ho_lstat _ w := (a_info (w_cur w), w);
  ho_stat _ w := (a_info (w_cur w), w);
  ho_readlink _ w := (a_text (w_cur w), w);
  ho_symlink _ _ w := (a_err (w_cur w), w);
  ho_mkdirAll _ w := (a_err (w_cur w), w);
  ho_syncDirectory _ w := (a_err (w_cur w), w);
  ho_readFile path := reading (fun w => match w_uuids w !! path with Some t => Ok t | None => Err ENotExist end);
  ho_readDir _ w := (a_names (w_cur w), w);
  ho_lockFile _ path w :=
    if bool_decide (path ∈ w_held w) then (Some ELockBusy, w)
    else match a_fault (w_cur w) with
         | Some n => (Some (EIO n), w)
         | None => (None, setHeld ({[path]} ∪ w_held w) w)
         end;
  ho_unlockFile path w := (tt, setHeld (w_held w ∖ {[path]}) w);
  ho_noSuchProcess pid w := (bool_decide (w_procs w !! pid = None), w);
  ho_output _ _ w := (a_text (w_cur w), w)
|}.

#[export] Instance records : Records World := {|
  rd_client _ w := (a_client (w_cur w), w);
  rd_realm _ w := (a_realm (w_cur w), w);
  rd_repository _ w := (a_repository (w_cur w), w);
  rd_grant _ w := (a_grant (w_cur w), w);
  rd_normalizeBranding := site_normalizeBranding;
  rd_validateRelease := site_validateRelease;
  rd_verifyRelease _ _ _ w := (a_err (w_cur w), w)
|}.

#[export] Instance locks : Locks World := {|
  lk_inspect repoID path := reading (fun w => Ok (w_locks w !! (repoID, path)));
  lk_unlock repoID path holder tok w :=
    match w_locks w !! (repoID, path) with
    | Some l => if bool_decide (al_Token l = tok)
                then effectful (fun w => setLocks (delete (repoID, path) (w_locks w)) w) w
                else (Some (EIO 0), w)
    | None => (Some (EIO 0), w)
    end
|}.

#[export] Instance files : ExecutionFiles World := {|
  ef_read file := reading (fun w => match w_files w !! file with Some f => Ok f | None => Err ENotExist end);
  ef_write file r := effectful (fun w =>
    setFiles (<[file := ExecFile (site_encodedSize r) (Some true) (Some r)]> (w_files w)) w)
|}.

(** ** Processes and locks *)
Definition newLock (repoID path owner comment : string) (w : World) : World :=
  setFresh (S (w_fresh w))
    (setLocks (<[(repoID, path) := AdminLock ("/" ++ path) (token (w_fresh w)) owner comment]> (w_locks w)) w).

(** A lock request is subject to the hook when its comment names an acquisition. *)
Definition fenced (comment : string) : bool :=
  match ParseComment comment with Some m => negb (bool_decide (md_AcquisitionID m = "")) | None => false end.

(** The process uses its admission: SVN creates the lock unless the path has one. *)
Definition takeLock (pid : Z) (w : World) : World :=
  match w_procs w !! pid with
  | Some (Some a) =>
      let w := setProcs (<[pid := None]> (w_procs w)) w in
      match w_locks w !! (ad_RepoID a, ad_Path a) with
      | Some _ => w
      | None =>
          let tok := token (w_fresh w) in
          setBirths (Birth (ad_RepoID a) (ad_Comment a) tok :: w_births w)
            (newLock (ad_RepoID a) (ad_Path a) (ad_Client a) (ad_Comment a) w)
      end
  | _ => w
  end.

(** ** Pre-lock hooks *)
Definition hookMortal : Mortal World := {|
  dies w := match w_sched w with
            | [] => (false, setCur quiet w)
            | t :: rest => die (t_answers t) (setSched rest w)
            end
|}.

Definition repoDir (repoID : string) : string := JoinPath [Clean (RepositoriesRoot (d_Locks site)); repoID].

Definition isNil (r : option (option serr)) : bool := match r with Some None => true | _ => false end.

(** svnserve [parent] asks for a lock: the hook runs on its own and, when it
    admits the request, the parent holds an admission.  A repository lives in the
    directory its identifier names. *)
Definition runHook (repoID path user comment : string) (parent : Z) (at_ : Time) (answered : list answers) (w : World) : World :=
  match w_procs w !! parent with
  | Some None =>
      if fenced comment && bool_decide (Base (repoDir repoID) = repoID) then
        let '(r, w1) := AdmitPassportExecution (Mortal0 := hookMortal) [repoDir repoID; "/" ++ path; user; comment; "0"] parent at_
                          (setSched (map (Tick_ []) answered) w) in
        let w2 := setHeld (w_held w) (setSched (w_sched w) w1) in
        if isNil r then setProcs (<[parent := Some (Admit repoID path user comment)]> (w_procs w2)) w2 else w2
      else w
  | _ => w
  end.

Definition happen (e : event) (w : World) : World :=
  match e with
  | EvSpawn pid => match w_procs w !! pid with None => setProcs (<[pid := None]> (w_procs w)) w | Some _ => w end
  | EvExit pid => setProcs (delete pid (w_procs w)) w
  | EvLock pid => takeLock pid w
  | EvGiveUp pid => match w_procs w !! pid with
                    | Some _ => setProcs (<[pid := None]> (w_procs w)) w
                    | None => w
                    end
  | EvOrdinaryLock repoID path owner comment =>
      if fenced comment then w
      else match w_locks w !! (repoID, path) with Some _ => w | None => newLock repoID path owner comment w end
  | EvUnlock repoID path => setLocks (delete (repoID, path) (w_locks w)) w
  | EvReplace repoID file uuid =>
      setLocks (filter (fun p => p.1.1 <> repoID) (w_locks w)) (setUuids (<[file := uuid]> (w_uuids w)) w)
  | EvHook repoID path user comment parent at_ host => runHook repoID path user comment parent at_ host w
  end.

Definition happenAll (es : list event) (w : World) : World := fold_left (fun w e => happen e w) es w.

(** Between two calls of the worker the events of the next tick happen. *)
Definition workerMortal : Mortal World := {|
  dies w := match w_sched w with
            | [] => (false, setCur quiet w)
            | t :: rest => let '(b, w') := die (t_answers t) (setSched rest w) in
                           if b then (b, w') else (false, setCur (t_answers t) (happenAll (t_events t) w'))
            end
|}.

(** ** Operations *)
Inductive operation :=
| OpHandle (session : Session) (t : Ticket)
| OpExpire (repoID path : string)
| OpReap.

Definition runOperation (o : operation) : World -> World := fun w =>
  match o with
  | OpHandle session t => snd (Handle (Mortal0 := workerMortal) site session t w)
  | OpExpire repoID path => snd (ExpirePath (Mortal0 := workerMortal) site repoID path w)
  | OpReap => snd (Reap (Mortal0 := workerMortal) site w)
  end.

Inductive step (w : World) : World -> Prop :=
| step_event e : step w (happen e (setHeld ∅ w))
| step_operation o sched : step w (runOperation o (setHeld ∅ (setSched sched w))).

(** A server that has just been set up: no acquisition, no process, no lock. *)
Definition initial (uuids : gmap string string) : World :=
  MkWorld [] quiet ∅ ∅ uuids ∅ ∅ [] 0.

Definition reachable (w : World) : Prop := exists uuids, rtc step (initial uuids) w.

End World.
