(* ===== verification/ExecutionProofs.v ===== *)
(** * ExecutionProofs: invariants of the acquisition gate

    The invariant [Inv] ties the record files of [ExecutionWorld] to the processes'
    admissions and to the locks born of them; [advance] orders the life of a
    record.  One rule per operation of [Executions] shows that it preserves the
    invariant and only advances records, whatever the schedule does.  A frame
    [owned] carries what the holder of an acquisition's lock knows across calls. *)
From S2P Require Import Prelude GoStrings Passport ControlTickets ServerBase RealmRecords LockAuthority ServerHost.
From S2P Require Import Executions ExecutionWorld.
From Stdlib Require Import Ascii String.

Open Scope string_scope.
Open Scope go_scope.

(** ** The life of a record *)
Definition rank (s : execState) : nat :=
  match s with Armed => 0 | Started => 1 | Closing => 2 | Closed => 3 | UnknownState _ => 4 end.

Definition sameBinding (r r' : passportExecution) : Prop :=
  pe_Schema r' = pe_Schema r /\ pe_RepoID r' = pe_RepoID r /\ pe_RepositoryUUID r' = pe_RepositoryUUID r /\
  pe_ClientID r' = pe_ClientID r /\ pe_RealmID r' = pe_RealmID r /\ pe_Path r' = pe_Path r /\
  pe_Comment r' = pe_Comment r /\ pe_ExpiresAt r' = pe_ExpiresAt r.

Definition advance (r r' : passportExecution) : Prop :=
  sameBinding r r' /\ rank (pe_State r) <= rank (pe_State r') /\
  (pe_State r <> Armed -> pe_ExecutorPID r' = pe_ExecutorPID r) /\
  (pe_ObservedToken r <> "" -> pe_ObservedToken r' = pe_ObservedToken r) /\
  (pe_State r = Closed -> r' = r).

Lemma advance_refl r : advance r r.
Proof. unfold advance, sameBinding. naive_solver. Qed.

Lemma advance_trans r1 r2 r3 : advance r1 r2 -> advance r2 r3 -> advance r1 r3.
Proof.
  intros ((?&?&?&?&?&?&?&?) & Hr & Hp & Ht & Hc) ((?&?&?&?&?&?&?&?) & Hr' & Hp' & Ht' & Hc').
  split; [unfold sameBinding; split_and!; congruence|]. split_and!; [lia|..].
  - intros Hn. rewrite Hp' by (intros E; rewrite E in Hr; destruct (pe_State r1); simpl in *; done || lia). by apply Hp.
  - intros Hn. rewrite Ht' by (by rewrite Ht). by apply Ht.
  - intros E. pose proof (Hc E) as ->. by apply Hc'.
Qed.

(** ** Rules for the calls of a process *)
Section Rules.
  Context {Mo : Mortal World} (P D : World -> Prop).

(** [P] survives what happens between calls, and [D] holds at a death. *)
Definition tolerates : Prop :=
  forall w, P w -> match dies w with (true, w') => D w' | (false, w') => P w' end.

Hypothesis Ht : tolerates.

Lemma wpc_call {A} (f : World -> A * World) (Q : A -> World -> Prop) w :
  P w -> (forall w', P w' -> Q (f w').1 (f w').2) -> wpc D (ask f) Q w.
Proof. intros Hw Hq. apply wpc_asked; intros w1 E; specialize (Ht w Hw); rewrite E in Ht; auto. Qed.

Definition Pres {A} (m : MC World A) : Prop := forall w, P w -> wpc D m (fun _ => P) w.

Lemma Pres_ret {A} (a : A) : Pres (ret a).
Proof. by intros w ?. Qed.

Lemma Pres_bind {A B} (m : MC World A) (k : A -> MC World B) : Pres m -> (forall a, Pres (k a)) -> Pres (bind m k).
Proof. intros Hm Hk w Hw. apply wpc_bind. eapply wpc_mono; [by apply Hm|]. intros a w' ?. by apply Hk. Qed.

Lemma Pres_read {A} (f : World -> A * World) : (forall w, (f w).2 = w) -> Pres (ask f).
Proof. intros Hf w Hw. apply wpc_call; [done|]. intros w' ?. by rewrite Hf. Qed.

Lemma Pres_orElse (e : option serr) (k : MC World (option serr)) : Pres k -> Pres (orElse e k).
Proof. intros Hk. destruct e; [apply Pres_ret|done]. Qed.

Lemma wpc_after {A B} (m : MC World A) (k : A -> MC World B) Q w :
  Pres m -> P w -> (forall a w', P w' -> wpc D (k a) Q w') -> wpc D (bind m k) Q w.
Proof. intros Hm Hw Hk. apply wpc_bind. eapply wpc_mono; [by apply Hm|]. auto. Qed.

End Rules.

Ltac pres := repeat first
  [ apply Pres_ret | assumption
  | apply Pres_orElse
  | apply Pres_bind; [|intros ?]
  | (apply Pres_read; [assumption|intros ?; reflexivity])
  | case_match
  | progress cbv zeta ].

Section Proofs.
  Context {ids : Ids} {codec : Comments} {tables : UnicodeTables} {wire : Wire World} {replies : Replies} {deployed : Site}.

Definition fileOf (repoID id : string) : string := JoinPath [executionDirectory (repoDir repoID); id ++ ".json"].
Definition lockOf (repoID id : string) : string := JoinPath [executionDirectory (repoDir repoID); id ++ ".lock"].

#[local] Arguments fileOf : simpl never.
#[local] Arguments lockOf : simpl never.
#[local] Arguments executionMetadata : simpl never.
#[local] Arguments fenced : simpl never.
#[local] Arguments takeLock : simpl never.
#[local] Arguments runHook : simpl never.

Definition advanceFile (f f' : execFile) : Prop :=
  f' = f \/ exists r r', xf_record f = Some r /\ xf_record f' = Some r' /\ advance r r'.

Lemma decodeExecution_Ok f r : decodeExecution f = Ok r -> xf_record f = Some r /\ validateExecutionRecord r = None.
Proof. unfold decodeExecution. repeat case_match; naive_solver. Qed.

Lemma decodeExecution_executor f r : decodeExecution f = Ok r ->
  (pe_State r = Armed -> pe_ExecutorPID r = 0%Z) /\ (pe_State r = Started -> (1 < pe_ExecutorPID r)%Z) /\
  ((pe_ExecutorPID r <= 1)%Z -> pe_ExecutorPID r = 0%Z /\ pe_ObservedToken r = "").
Proof.
  intros [_ Hv]%decodeExecution_Ok. unfold validateExecutionRecord in Hv.
  autorewrite with filees in Hv. destruct Hv as (_ & _ & Hv & _). unfold validExecutor in Hv. bool_to_prop.
  repeat match goal with E : andb _ _ = false |- _ => apply andb_false_iff in E end.
  split_and!; intros;
    repeat match goal with E : _ = false \/ _ = false |- _ => destruct E as [E|E] end; bool_to_prop;
    try done; try lia; split; lia || done.
Qed.

Lemma advanceFile_trans f1 f2 f3 : advanceFile f1 f2 -> advanceFile f2 f3 -> advanceFile f1 f3.
Proof.
  intros [->|(r1 & r2 & A1 & A2 & A3)] [->|(r2' & r3 & A4 & A5 & A6)]; unfold advanceFile; eauto 8.
  simplify_eq. right. exists r1, r3. eauto using advance_trans.
Qed.

Definition advanceAll (w0 w : World) : Prop :=
  forall key f, w_files w0 !! key = Some f -> exists f', w_files w !! key = Some f' /\ advanceFile f f'.

(** ** The invariant *)
Definition recordAt (w : World) (repoID comment : string) (r : passportExecution) : Prop :=
  exists m n, executionMetadata comment = Ok m /\
    w_files w !! fileOf repoID (md_AcquisitionID m) = Some (ExecFile n (Some true) (Some r)) /\
    pe_RepoID r = repoID /\ pe_Comment r = comment.

Definition bornOf (b : birth) (repoID comment : string) : Prop := bi_RepoID b = repoID /\ bi_Comment b = comment.

Definition noAdmission (w : World) (repoID comment : string) : Prop :=
  forall pid a, w_procs w !! pid = Some (Some a) -> ad_RepoID a = repoID -> ad_Comment a = comment -> False.

Definition noBirth (w : World) (repoID comment : string) : Prop :=
  forall b, b ∈ w_births w -> bornOf b repoID comment -> False.

Record Inv (w : World) : Prop := {
  inv_files key f : w_files w !! key = Some f ->
    exists r m, xf_fields f = Some true /\ xf_record f = Some r /\ executionMetadata (pe_Comment r) = Ok m /\
      key = fileOf (pe_RepoID r) (md_AcquisitionID m);
  inv_admission pid a : w_procs w !! pid = Some (Some a) ->
    noBirth w (ad_RepoID a) (ad_Comment a) /\
    exists r, recordAt w (ad_RepoID a) (ad_Comment a) r /\ pe_ClientID r = ad_Client a /\ pe_Path r = ad_Path a /\
      pe_ExecutorPID r = pid /\ (1 < pid)%Z /\ (pe_State r = Started \/ pe_State r = Closing) /\ pe_ObservedToken r = "";
  inv_birth b : b ∈ w_births w ->
    exists r, recordAt w (bi_RepoID b) (bi_Comment b) r /\ (1 < pe_ExecutorPID r)%Z /\ pe_State r <> Armed /\
      (pe_ObservedToken r = "" \/ pe_ObservedToken r = bi_Token b);
  inv_unique : NoDup ((fun b => (bi_RepoID b, bi_Comment b)) <$> w_births w);
  inv_locks repoID path l : w_locks w !! (repoID, path) = Some l -> fenced (al_Comment l) = true ->
    Birth repoID (al_Comment l) (al_Token l) ∈ w_births w;
  inv_tokens b : b ∈ w_births w -> bi_Token b <> ""
}.

(** No lock is born of a record closed in [w0]. *)
Definition finalBirths (w0 w : World) : Prop :=
  forall b, b ∈ w_births w -> b ∈ w_births w0 \/
    forall r, recordAt w0 (bi_RepoID b) (bi_Comment b) r -> pe_State r <> Closed.

Definition I (w0 w : World) : Prop := Inv w /\ advanceAll w0 w /\ finalBirths w0 w.

Lemma recordAt_fun w repoID comment r r' : recordAt w repoID comment r -> recordAt w repoID comment r' -> r = r'.
Proof. intros (m & n & Em & ? & _) (m' & n' & ? & ? & _). assert (m = m') as -> by congruence. congruence. Qed.

Lemma births_unique w b b' : Inv w -> b ∈ w_births w -> b' ∈ w_births w ->
  bi_RepoID b = bi_RepoID b' -> bi_Comment b = bi_Comment b' -> b = b'.
Proof.
  intros Hi Hb Hb' E1 E2. pose proof (inv_unique _ Hi) as Hn.
  apply list_elem_of_lookup in Hb as [i Hi1], Hb' as [j Hj1].
  assert (i = j) as ->; [|congruence].
  apply (NoDup_lookup _ i j (bi_RepoID b, bi_Comment b) Hn); rewrite list_lookup_fmap.
  - by rewrite Hi1.
  - rewrite Hj1. simpl. congruence.
Qed.

(** Changing what no invariant looks at. *)
Definition sameState (w w' : World) : Prop :=
  w_files w' = w_files w /\ w_procs w' = w_procs w /\ w_births w' = w_births w /\ w_locks w' = w_locks w.

Lemma Inv_same w w' : sameState w w' -> Inv w -> Inv w'.
Proof.
  intros (Hf & Hp & Hb & Hl) [A1 A2 A3 A4 A5 A7].
  assert (Hr : forall i c r, recordAt w i c r -> recordAt w' i c r) by (unfold recordAt; by rewrite Hf).
  split; rewrite ?Hf, ?Hp, ?Hb, ?Hl; eauto.
  - intros pid a Ha. destruct (A2 pid a Ha) as (Hn & r & ? & ?). unfold noBirth. rewrite Hb. split; [done|]. eauto.
  - intros b Hbb. destruct (A3 b Hbb) as (r & ? & ?). eauto.
Qed.

Lemma I_same w0 w w' : sameState w w' -> I w0 w -> I w0 w'.
Proof.
  intros Hs (Hi & Ha & Hb). split; [by eapply Inv_same|]. destruct Hs as (Hf & _ & Hbb & _).
  split; [intros key f Hk; rewrite Hf; eauto|intros b; rewrite Hbb; apply Hb].
Qed.

(** ** Writing a record *)
Definition written (n : Z) (r : passportExecution) : execFile := ExecFile n (Some true) (Some r).

Definition put (F : string) (n : Z) (r : passportExecution) (w : World) : World :=
  setFiles (<[F := written n r]> (w_files w)) w.

Lemma put_eq F n r w : w_files (put F n r w) !! F = Some (written n r).
Proof. apply lookup_insert_eq. Qed.

Lemma put_ne F G n r w : F <> G -> w_files (put F n r w) !! G = w_files w !! G.
Proof. apply lookup_insert_ne. Qed.

(** What a write may do to a record [r] of the world [w]. *)
Definition mayWrite (w : World) (r r' : passportExecution) : Prop :=
  advance r r' /\
  (noAdmission w (pe_RepoID r) (pe_Comment r) \/
   pe_ExecutorPID r' = pe_ExecutorPID r /\ (pe_State r' = Started \/ pe_State r' = Closing) /\
   pe_ObservedToken r' = pe_ObservedToken r) /\
  (pe_ObservedToken r' = pe_ObservedToken r \/
   Birth (pe_RepoID r) (pe_Comment r) (pe_ObservedToken r') ∈ w_births w).

Lemma recordAt_put w F f r n r' repoID c r0 : Inv w -> w_files w !! F = Some f -> xf_record f = Some r -> sameBinding r r' ->
  recordAt w repoID c r0 ->
  (r0 = r /\ repoID = pe_RepoID r /\ c = pe_Comment r /\ recordAt (put F n r' w) repoID c r') \/
  recordAt (put F n r' w) repoID c r0.
Proof.
  intros Hi Hf Hr (_ & E1 & _ & _ & _ & _ & E2 & _) (m & k & Hm & Hk & Hb1 & Hb2).
  destruct (decide (fileOf repoID (md_AcquisitionID m) = F)) as [<-|Hne].
  - left. rewrite Hk in Hf. injection Hf as <-. cbn [xf_record] in Hr. injection Hr as ->.
    split_and!; [done..|]. exists m, n. split_and!; [done|by rewrite put_eq|congruence..].
  - right. exists m, k. split_and!; [done|by rewrite put_ne|done..].
Qed.

Lemma Inv_put w F f r n r' : Inv w -> w_files w !! F = Some f -> xf_record f = Some r -> mayWrite w r r' ->
  Inv (put F n r' w).
Proof.
  intros Hi Hf Hr (Hadv & Hadm & Htok). pose proof Hi as [A1 A2 A3 A4 A5 A7].
  pose proof Hadv as (Hsb & Hrank & Hpid & Hob & Hcl). split; [..|done|done|done].
  - intros key g. destruct (decide (key = F)) as [->|Hne]; [|rewrite put_ne by done; eauto].
    rewrite put_eq. intros [= <-]. destruct (A1 F f Hf) as (r0 & m & ? & ? & Hm & ->).
    simplify_eq. destruct Hsb as (_ & E1 & _ & _ & _ & _ & E2 & _). exists r', m. rewrite E1, E2. done.
  - intros pid a Ha. destruct (A2 pid a Ha) as (Hn & r0 & Hat & Hc1 & Hc2 & Hc3 & Hc4 & Hc5 & Hc6). split; [done|].
    destruct (recordAt_put w F f r n r' _ _ _ Hi Hf Hr Hsb Hat) as [(-> & E1 & E2 & Hat')|?]; eauto 10.
    exists r'. destruct Hsb as (_ & _ & _ & E4 & _ & E5 & _ & _).
    destruct Hadm as [Hno|(E6 & E7 & E8)]; [by destruct (Hno pid a Ha)|]. split_and!; try done; congruence.
  - intros b Hb. destruct (A3 b Hb) as (r0 & Hat & Hc1 & Hc2 & Hc3).
    destruct (recordAt_put w F f r n r' _ _ _ Hi Hf Hr Hsb Hat) as [(-> & E1 & E2 & Hat')|?]; eauto 10.
    exists r'. split_and!; [done|by rewrite Hpid|intros E; rewrite E in Hrank; destruct (pe_State r); simpl in *; done || lia|].
    destruct Htok as [->|Hb']; [done|]. right.
    assert (Birth (pe_RepoID r) (pe_Comment r) (pe_ObservedToken r') = b) as <-; [|done].
    by eapply births_unique.
Qed.

Lemma I_put w0 w F f r n r' : I w0 w -> w_files w !! F = Some f -> xf_record f = Some r -> mayWrite w r r' ->
  I w0 (put F n r' w).
Proof.
  intros (Hi & Ha & Hb) Hf Hr Hw.
  split; [by eapply Inv_put|]. split; [|exact Hb].
  intros key g Hg. destruct (Ha key g Hg) as (f' & Hf' & Hadv).
  destruct (decide (key = F)) as [->|Hne]; [|rewrite put_ne; eauto].
  rewrite put_eq. simplify_eq. eexists. split; [done|]. eapply advanceFile_trans; [exact Hadv|].
  right. exists r, r'. destruct Hw as (? & _). done.
Qed.

(** The first record of an acquisition. *)
Lemma I_new w0 w n r m : I w0 w -> executionMetadata (pe_Comment r) = Ok m ->
  w_files w !! fileOf (pe_RepoID r) (md_AcquisitionID m) = None ->
  I w0 (put (fileOf (pe_RepoID r) (md_AcquisitionID m)) n r w).
Proof.
  intros ([A1 A2 A3 A4 A5 A7] & Ha & Hb) Hm Hf.
  assert (Hat : forall i c r0, recordAt w i c r0 -> recordAt (put (fileOf (pe_RepoID r) (md_AcquisitionID m)) n r w) i c r0).
  { intros i c r0 (m0 & k & ? & Hk & ?). exists m0, k. split; [done|]. split; [|done].
    rewrite put_ne; [done|]. intros E. congruence. }
  split; [split; [..|done|done|done]|split; [|done]].
  - intros key g. destruct (decide (fileOf (pe_RepoID r) (md_AcquisitionID m) = key)) as [<-|Hne].
    + rewrite put_eq. intros [= <-]. exists r, m. done.
    + rewrite put_ne by done. eauto.
  - intros pid a Hpa. destruct (A2 pid a Hpa) as (? & r0 & ? & ?). split; [done|]. eauto.
  - intros b Hbb. destruct (A3 b Hbb) as (r0 & ? & ?). eauto.
  - intros key g Hg. destruct (Ha key g Hg) as (f' & Hf' & ?). exists f'. split; [|done].
    rewrite put_ne; [done|]. intros <-. congruence.
Qed.

(** ** Processes and locks come and go *)
Definition setAside (w w' : World) : Prop := w_files w' = w_files w /\ w_births w' = w_births w.

Lemma recordAt_aside w w' i c r : w_files w' = w_files w -> recordAt w i c r -> recordAt w' i c r.
Proof. unfold recordAt. by intros ->. Qed.

Lemma I_aside w0 w w' : setAside w w' -> I w0 w ->
  (forall pid a, w_procs w' !! pid = Some (Some a) -> w_procs w !! pid = Some (Some a)) ->
  (forall k l, w_locks w' !! k = Some l -> w_locks w !! k = Some l \/ fenced (al_Comment l) = false) ->
  I w0 w'.
Proof.
  intros [Hf Hb] ([A1 A2 A3 A4 A5 A7] & Ha & Hfin) Hp Hl.
  split; [|split; [intros key f Hk; rewrite Hf; eauto|intros b; rewrite Hb; apply Hfin]].
  split; rewrite ?Hf, ?Hb; eauto.
  - intros pid a Hpa%Hp. destruct (A2 pid a Hpa) as (Hn & r & Hr & ?).
    split; [unfold noBirth; by rewrite Hb|]. exists r. split; [by eapply recordAt_aside|done].
  - intros b Hbb. destruct (A3 b Hbb) as (r & Hr & ?). exists r. split; [by eapply recordAt_aside|done].
  - intros i p l Hk Hfe. destruct (Hl _ _ Hk) as [?|E]; [eauto|by rewrite E in Hfe].
Qed.

Lemma I_takeLock w0 w pid : I w0 w -> I w0 (takeLock pid w).
Proof.
  intros HI. unfold takeLock. destruct (w_procs w !! pid) as [[a|]|] eqn:Hp; [|done|done].
  assert (Hshrink : forall pid' a', <[pid:=None]> (w_procs w) !! pid' = Some (Some a') ->
            pid' <> pid /\ w_procs w !! pid' = Some (Some a')).
  { intros pid' a'. destruct (decide (pid = pid')) as [->|Hne]; [by rewrite lookup_insert_eq|].
    by rewrite lookup_insert_ne. }
  cbv zeta. simpl. destruct (w_locks w !! _) as [l|] eqn:Hl.
  { apply (I_aside w0 w); [done|done| |simpl; eauto]. simpl. intros ? ? [_ ?]%Hshrink. done. }
  destruct HI as ([A1 A2 A3 A4 A5 A7] & Ha & Hfin).
  destruct (A2 pid a Hp) as (Hnb & r & Hat & Hc & Hpa & Hpid & Hpid1 & Hst & Hob).
  set (b := Birth _ _ _).
  split; [split|split; [done|]]; simpl.
  - done.
  - intros pid' a' [Hne Hp']%Hshrink. destruct (A2 pid' a' Hp') as (Hn & r' & Hat' & ? & ? & Hpid' & ?). split; [|by exists r'].
    intros b' [->|Hb']%elem_of_cons Hbo; [|by eapply Hn].
    unfold bornOf, b in Hbo. simpl in Hbo. destruct Hbo as [E1 E2]. rewrite <- E1, <- E2 in Hat'.
    pose proof (recordAt_fun _ _ _ _ _ Hat Hat') as ->. congruence.
  - intros b' [->|Hb']%elem_of_cons; [|by apply A3]. exists r. simpl. split_and!; [done|lia| |by left].
    destruct Hst as [-> | ->]; done.
  - apply NoDup_cons. split; [|done]. intros (b' & Hb' & Hin)%list_elem_of_fmap. simplify_eq/=.
    eapply Hnb; [exact Hin|done].
  - intros i p l. destruct (decide ((ad_RepoID a, ad_Path a) = (i, p))) as [E|Hne].
    + injection E as <- <-. rewrite lookup_insert_eq. intros [= <-] _. simpl. apply elem_of_cons. by left.
    + rewrite lookup_insert_ne by done. intros Hk Hfe. apply elem_of_cons. right. eauto.
  - intros b' [->|Hb']%elem_of_cons; [done|by apply A7].
  - intros b' [->|Hb']%elem_of_cons; [|by apply Hfin]. right. simpl. intros r0 (m & n & Hm & Hk & E1 & E2) Hcl.
    destruct (Ha _ _ Hk) as (f' & Hf' & Hadv). destruct Hat as (m' & n' & Hm' & Hk' & ? & ?).
    assert (m' = m) as -> by congruence. simplify_eq.
    destruct Hadv as [E|(r1 & r2 & Hd & Hr2 & Hd2)].
    + injection E as <- <-. destruct Hst; congruence.
    + simpl in Hd. injection Hd as <-. simpl in Hr2. injection Hr2 as <-.
      destruct Hd2 as (_ & _ & _ & _ & Hd2). specialize (Hd2 Hcl). subst. destruct Hst; congruence.
Qed.

Section Reading.
  Context {Mo : Mortal World} (P D : World -> Prop) (Ht : tolerates P D).

Lemma Pres_privateExecutionFile p : Pres P D (privateExecutionFile p).
Proof. unfold privateExecutionFile. pres. Qed.

Lemma Pres_prepareDirectories ds : Pres P D (prepareDirectories ds).
Proof. induction ds; simpl; pres. Qed.

Lemma Pres_executionRepositoryUUID repo : Pres P D (executionRepositoryUUID repo).
Proof. unfold executionRepositoryUUID. pres. Qed.

Lemma Pres_now : Pres P D now.
Proof. unfold now. pres. Qed.

Lemma Pres_readExecution file : Pres P D (readExecution file).
Proof. unfold readExecution. apply Pres_bind; [apply Pres_privateExecutionFile|intros ?]. pres. Qed.

Lemma decodeExecution_exists f : decodeExecution f <> Err ENotExist.
Proof.
  unfold decodeExecution, validateExecutionRecord, validateLockReleasePath, validateObservedLockID, require, andThen.
  repeat case_match; congruence.
Qed.

Lemma wpc_readExecution file (Q : result serr passportExecution -> World -> Prop) w : P w ->
  (forall w' f r, P w' -> w_files w' !! file = Some f -> decodeExecution f = Ok r -> Q (Ok r) w') ->
  (forall w', P w' -> w_files w' !! file = None -> Q (Err ENotExist) w') ->
  (forall w' e, P w' -> e <> ENotExist -> Q (Err e) w') ->
  wpc D (readExecution file) Q w.
Proof.
  intros Hw Q1 Q2 Q3. unfold readExecution, privateExecutionFile.
  apply wpc_bind, wpc_bind, (wpc_call P D); [done..|]. intros w1 H1. cbn [fst snd ho_lstat host].
  apply wpc_ret.
  assert (Hpriv : forall e, match a_info (w_cur w1) with
            | Ok i => if negb (fi_regular i) || negb (private i) then Some EUnsafe else None
            | Err ENotExist => None
            | Err e => Some e end = Some e -> e <> ENotExist) by (intros e; repeat case_match; congruence).
  destruct (match a_info _ with Ok _ => _ | Err _ => _ end) as [e|] eqn:E; [apply wpc_ret, Q3; [done|by apply Hpriv]|].
  apply wpc_bind, (wpc_call P D); [done..|]. intros w2 H2. cbn [fst snd ef_read files reading].
  destruct (a_fault (w_cur w2)); [by apply wpc_ret, Q3|].
  destruct (w_files w2 !! file) as [f|] eqn:Hf; [|by apply wpc_ret, Q2].
  apply wpc_ret. destruct (decodeExecution f) as [r|e] eqn:Hd; [by eapply Q1|].
  apply Q3; [done|]. intros ->. by apply (decodeExecution_exists f).
Qed.

(** Running [fn] under the lock of one acquisition. *)
Lemma wpc_withExecution (Q : option serr -> World -> Prop) try repo id fn w :
  (canonicalUUID id = true -> forall w', P w' -> JoinPath [executionDirectory repo; id ++ ".lock"] ∉ w_held w' ->
     let w1 := setHeld ({[JoinPath [executionDirectory repo; id ++ ".lock"]]} ∪ w_held w') w' in
     wpc D (fn (JoinPath [executionDirectory repo; id ++ ".json"]))
       (fun e w2 => exists R, tolerates R D /\ R w2 /\ forall w3, R w3 ->
          Q e (setHeld (w_held w3 ∖ {[JoinPath [executionDirectory repo; id ++ ".lock"]]}) w3)) w1) ->
  (forall e w', P w' -> Q (Some e) w') ->
  P w -> wpc D (withExecutionLocker try repo id fn) Q w.
Proof.
  intros Hfn He Hw. unfold withExecutionLocker. destruct (canonicalUUID id) eqn:Hid; cbn [negb]; [|by apply wpc_ret, He]. cbv zeta.
  specialize (Hfn eq_refl).
  apply (wpc_after P D); [apply Pres_prepareDirectories|done|]. intros [e|] w1 H1; [by apply wpc_ret, He|]. cbn [orElse].
  apply (wpc_after P D); [apply Pres_privateExecutionFile|done|]. intros [e|] w2 H2; [by apply wpc_ret, He|]. cbn [orElse].
  apply (wpc_after P D); [apply Pres_privateExecutionFile|done|]. intros [e|] w3 H3; [by apply wpc_ret, He|]. cbn [orElse].
  unfold withFileLock. apply wpc_bind, (wpc_call P D); [done..|]. intros w4 H4. cbn [fst snd ho_lockFile host].
  case_bool_decide as Hin; [by apply wpc_ret, He|]. destruct (a_fault (w_cur w4)); [by apply wpc_ret, He|].
  cbn [orElse]. apply wpc_bind. eapply wpc_mono; [by apply Hfn|]. intros e w5 (R & HR & H5 & Hout).
  apply wpc_bind, (wpc_call R D); [done..|]. intros w6 H6. apply wpc_ret. simpl. by apply Hout.
Qed.

End Reading.

(** ** The pre-lock hook *)
Hypothesis uuid_plain : forall id, canonicalUUID id = true -> id <> "" /\ hasByte id "/" = false.

Lemma plain_file id : canonicalUUID id = true -> plainSegment (id ++ ".json") /\ plainSegment (id ++ ".lock").
Proof.
  intros [_ Hid]%uuid_plain. unfold plainSegment. rewrite !hasByte_app, Hid.
  split; split_and!; try done; intros E; apply (f_equal String.length) in E; rewrite slength_app in E; simpl in E; lia.
Qed.

Lemma executionDirectory_nonempty repo : executionDirectory repo <> "".
Proof.
  unfold executionDirectory. unfold JoinPath at 1. case_bool_decide as E; [|apply Clean_nonempty].
  by destruct (Clean_nonempty _ E).
Qed.

(** A record file determines its lock file. *)
Lemma lock_of_file repo repo' id id' : canonicalUUID id = true -> canonicalUUID id' = true ->
  JoinPath [executionDirectory repo; id ++ ".json"] = JoinPath [executionDirectory repo'; id' ++ ".json"] ->
  JoinPath [executionDirectory repo; id ++ ".lock"] = JoinPath [executionDirectory repo'; id' ++ ".lock"].
Proof.
  intros [Hj Hl]%plain_file [Hj' Hl']%plain_file.
  rewrite !JoinPath_two by apply executionDirectory_nonempty.
  intros He. apply Clean_snoc_inj in He as [He Hd]; [|apply executionDirectory_nonempty..|done|done].
  assert (id = id') as ->; [|by apply Hd].
  apply (f_equal srev) in He. rewrite !srev_append in He. apply sapp_inj_l in He.
  by rewrite <- (srev_involutive id), He, srev_involutive.
Qed.

(** What a hook leaves alone: processes, locks, and the files of held acquisitions. *)
Definition quietly (w w1 : World) : Prop :=
  w_procs w1 = w_procs w /\ w_births w1 = w_births w /\ w_locks w1 = w_locks w /\
  (forall repoID id, canonicalUUID id = true -> lockOf repoID id ∈ w_held w ->
     w_files w1 !! fileOf repoID id = w_files w !! fileOf repoID id).

Definition hookD (w0 w w1 : World) : Prop := I w0 w1 /\ quietly w w1.
Definition hookP (w0 w w1 : World) : Prop := hookD w0 w w1 /\ w_held w ⊆ w_held w1.

Lemma hookD_same w0 w w1 w2 : sameState w1 w2 -> hookD w0 w w1 -> hookD w0 w w2.
Proof.
  intros Hs [HI (?&?&?&?)]. split; [by eapply I_same|]. destruct Hs as (Hf & Hp & Hb & Hl).
  unfold quietly. rewrite Hf, Hp, Hb, Hl. done.
Qed.

Lemma tolerates_die (P D : World -> Prop) :
  (forall w w', sameState w w' -> w_held w' = w_held w -> P w -> P w') ->
  (forall w w', sameState w w' -> P w -> D w') -> @tolerates hookMortal P D.
Proof.
  intros HP HD w Hw. simpl. destruct (w_sched w) as [|t rest]; [by apply (HP w)|].
  unfold die. destruct (a_dies _); [by apply (HD w)|by apply (HP w)].
Qed.

Lemma tolerates_hook w0 w : @tolerates hookMortal (hookP w0 w) (hookD w0 w).
Proof.
  apply tolerates_die.
  - intros w1 w2 Hs Hh [? ?]. split; [by eapply hookD_same|by rewrite Hh].
  - intros w1 w2 Hs [? _]. by eapply hookD_same.
Qed.

Definition admitted (w : World) (repoID path user comment : string) (parent : Z) : Prop :=
  (1 < parent)%Z /\ noBirth w repoID comment /\ noAdmission w repoID comment /\
  exists r, recordAt w repoID comment r /\ pe_ClientID r = user /\ pe_Path r = path /\ pe_ExecutorPID r = parent /\
    pe_State r = Started /\ pe_ObservedToken r = "".

Lemma mayWrite_armed w r r' : Inv w -> (forall c, recordAt w (pe_RepoID r) (pe_Comment r) c -> pe_State c = Armed) ->
  advance r r' -> pe_ObservedToken r' = pe_ObservedToken r ->
  noBirth w (pe_RepoID r) (pe_Comment r) /\ noAdmission w (pe_RepoID r) (pe_Comment r) /\ mayWrite w r r'.
Proof.
  intros Hi Har Hadv Htok.
  assert (noAdmission w (pe_RepoID r) (pe_Comment r)) as Hna.
  { intros pid a Hp E1 E2. destruct (inv_admission _ Hi _ _ Hp) as (_ & r0 & Hat & _ & _ & _ & _ & Hst & _).
    rewrite E1, E2 in Hat. rewrite (Har _ Hat) in Hst. naive_solver. }
  split; [|split; [done|split; [done|auto]]].
  intros b Hb [E1 E2]. destruct (inv_birth _ Hi _ Hb) as (r0 & Hat & _ & Hst & _).
  rewrite E1, E2 in Hat. by apply Hst, Har.
Qed.

Lemma advance_state r s : rank (pe_State r) <= rank s -> pe_State r <> Closed -> advance r (withState s r).
Proof. unfold advance, sameBinding. naive_solver. Qed.

Lemma repoDir_clean repoID : Clean (repoDir repoID) = repoDir repoID.
Proof.
  unfold repoDir. rewrite JoinPath_two by apply Clean_nonempty. apply Clean_idempotent.
Qed.

Lemma quietly_put w w1 repoID id n r : quietly w w1 -> canonicalUUID id = true -> lockOf repoID id ∉ w_held w ->
  quietly w (put (fileOf repoID id) n r w1).
Proof.
  intros (?&?&?&Hf) Hid Hl. unfold quietly. split_and!; [done..|]. intros repo' id' Hid' Hl'.
  rewrite put_ne; [by apply Hf|]. intros E. apply Hl.
  unfold lockOf, fileOf in *. by rewrite (lock_of_file _ _ _ _ Hid Hid' E).
Qed.

Lemma wpc_write (P D : World -> Prop) {Mo : Mortal World} file r (Q : option serr -> World -> Prop) w :
  tolerates P D -> P w -> (forall w' e n, P w' -> Q e (put file n r w')) -> (forall w' e, P w' -> Q (Some e) w') ->
  wpc D (atomicJSON file r) Q w.
Proof.
  intros Ht Hw Q1 Q2. unfold atomicJSON. apply (wpc_call P D); [done..|]. intros w' H'. simpl.
  unfold effectful. destruct (a_fault (w_cur w')); [destruct (a_after (w_cur w')); [by apply Q1|by apply Q2]|by apply Q1].
Qed.

(** The record of a file is the one its name says. *)
Lemma file_record w F f r : Inv w -> w_files w !! F = Some f -> xf_record f = Some r ->
  exists n m, f = written n r /\ executionMetadata (pe_Comment r) = Ok m /\ F = fileOf (pe_RepoID r) (md_AcquisitionID m) /\
    recordAt w (pe_RepoID r) (pe_Comment r) r.
Proof.
  intros Hi Hf Hr'. destruct (inv_files _ Hi _ _ Hf) as (r' & m & Hx & Hr & Hm & ->).
  destruct f as [n b o]. simpl in *. simplify_eq.
  exists n, m. split_and!; try done. exists m, n. done.
Qed.

Lemma admitted_same w w' repoID path user comment parent : sameState w w' ->
  admitted w repoID path user comment parent -> admitted w' repoID path user comment parent.
Proof.
  intros (Hf & Hp & Hb & _) (H1 & H2 & H3 & r & Hr & H4). unfold admitted, noBirth, noAdmission.
  rewrite Hb, Hp. split_and!; [done..|]. exists r. split; [by eapply recordAt_aside|done].
Qed.

Lemma hookP_put w0 w F f repoID id n r r' w' : hookP w0 w w' -> F = fileOf repoID id -> canonicalUUID id = true ->
  lockOf repoID id ∉ w_held w -> w_files w' !! F = Some f -> xf_record f = Some r -> mayWrite w' r r' ->
  hookP w0 w (put F n r' w').
Proof.
  intros [[HI Hq] Hh] -> Hid Hl Hf Hd Hm. split; [|done]. split; [by eapply I_put|by apply quietly_put].
Qed.

Lemma wpc_admitLocked w0 w F repoID path user comment generation parent at_ id w1 :
  F = fileOf repoID id -> canonicalUUID id = true -> lockOf repoID id ∉ w_held w -> Base (repoDir repoID) = repoID ->
  (1 < parent)%Z -> hookP w0 w w1 ->
  wpc (hookD w0 w) (admitLocked (Mortal0 := hookMortal) F (repoDir repoID) generation ("/" ++ path) user comment parent at_)
    (fun e w2 => exists R, @tolerates hookMortal R (hookD w0 w) /\ R w2 /\
       forall w3, R w3 -> hookP w0 w w3 /\ (e = None -> admitted w3 repoID path user comment parent)) w1.
Proof.
  intros HF Hid Hl Hbase Hpar Hw1. set (P := hookP w0 w). set (D := hookD w0 w).
  assert (Ht : @tolerates hookMortal P D) by apply tolerates_hook.
  assert (Hret : forall (e : serr) w2, P w2 -> exists R, @tolerates hookMortal R D /\ R w2 /\
            forall w3, R w3 -> P w3 /\ (Some e = None -> admitted w3 repoID path user comment parent)).
  { intros e w2 H2. exists P. split_and!; [done..|]. intros w3 H3. by split. }
  unfold admitLocked. apply wpc_bind, (wpc_readExecution P D); [done|done|..];
    [|intros; by apply wpc_ret, Hret|intros; by apply wpc_ret, Hret].
  intros w2 f r H2 Hf Hdec. pose proof (decodeExecution_Ok _ _ Hdec) as [Hd _]. cbv beta iota.
  destruct (_ || _) eqn:Hg; [by apply wpc_ret, Hret|]. bool_to_prop.
  repeat match goal with E : _ = TrimPrefix _ _ |- _ => rewrite TrimPrefix_app in E end. rewrite Hbase in *.
  match goal with E : pe_State r = Armed |- _ => rename E into HArmed end.
  match goal with E : pe_RepoID r = _ |- _ => rename E into HRepo end.
  match goal with E : pe_Comment r = _ |- _ => rename E into HComment end.
  match goal with E : pe_ClientID r = _ |- _ => rename E into HClient end.
  match goal with E : pe_Path r = _ |- _ => rename E into HPath end.
  set (P2 := fun w' => P w' /\ w_files w' !! F = Some f).
  assert (Ht2 : @tolerates hookMortal P2 D).
  { apply tolerates_die.
    - intros w3 w4 Hs Hh [[? ?] ?]. split; [split; [by eapply hookD_same|by rewrite Hh]|]. by rewrite (proj1 Hs).
    - intros w3 w4 Hs [[? ?] ?]. by eapply hookD_same. }
  assert (Hmay : forall r' w', P2 w' -> advance r r' -> pe_ObservedToken r' = pe_ObservedToken r ->
            noBirth w' repoID comment /\ noAdmission w' repoID comment /\ mayWrite w' r r').
  { intros r' w' [[[[Hi _] _] _] Hf'] Hadv Htok. destruct (file_record _ _ _ _ Hi Hf' Hd) as (n & m & _ & _ & _ & Hat).
    rewrite <- HRepo, <- HComment. apply mayWrite_armed; [done| |done|done].
    intros c Hc. by rewrite <- (recordAt_fun _ _ _ _ _ Hat Hc). }
  destruct (negb (Before at_ _)).
  - apply wpc_bind. eapply (wpc_write P2 D); [done|by split|..].
    + intros w3 e n Hw3. destruct (Hmay (withState Closed r) w3 Hw3) as (_ & _ & Hm);
        [apply advance_state; rewrite HArmed; simpl; [lia|done]|done|].
      assert (P (put F n (withState Closed r) w3)) by (destruct Hw3; by apply (hookP_put w0 w F f repoID id n r)).
      destruct e; cbn [orElse]; by apply wpc_ret, Hret.
    + intros w3 e [Hw3 _]. cbn [orElse]. by apply wpc_ret, Hret.
  - eapply (wpc_write P2 D); [done|by split|..].
    + intros w3 e n Hw3. destruct (Hmay (withExecutor parent r) w3 Hw3) as (Hnb & Hna & Hm).
      { unfold advance, sameBinding. rewrite HArmed. simpl. split_and!; try done; lia. } { done. }
      exists (fun w' => P w' /\ admitted w' repoID path user comment parent). split_and!.
      * apply tolerates_die.
        -- intros w4 w5 Hs Hh [[? ?] ?]. split; [split; [by eapply hookD_same|by rewrite Hh]|by eapply admitted_same].
        -- intros w4 w5 Hs [[? ?] ?]. by eapply hookD_same.
      * destruct Hw3. by apply (hookP_put w0 w F f repoID id n r).
      * destruct Hw3 as [[[[Hi ?] ?] ?] Hf3]. destruct (file_record _ _ _ _ Hi Hf3 Hd) as (k & m & _ & Hm' & HF' & _).
        split_and!; [done..|]. exists (withExecutor parent r). split_and!; try done.
        { exists m, n. rewrite <- HRepo, <- HComment, <- HF', put_eq. done. }
        by apply (decodeExecution_executor f r) in Hdec as (Hd1 & _ & Hd3); apply Hd3; rewrite Hd1.
      * intros w4 [? ?]. by split.
    + intros w3 e [Hw3 _]. by apply Hret.
Qed.

Lemma executionMetadata_parse comment m : executionMetadata comment = Ok m -> ParseComment comment = Some m.
Proof. unfold executionMetadata. repeat case_match; congruence. Qed.

Lemma executionMetadata_id comment m : executionMetadata comment = Ok m -> canonicalUUID (md_AcquisitionID m) = true.
Proof.
  unfold executionMetadata. destruct (ParseComment comment) as [m'|]; [|done]. destruct (_ || _); [done|].
  destruct (forallb _ _) eqn:Hf; [|done]. cbn [negb]. destruct (_ || _ || _ || _); [done|]. intros [= ->].
  cbn [app forallb] in Hf. by apply andb_true_iff in Hf as [? _].
Qed.

Lemma wpc_hook w0 w repoID path user comment parent at_ w1 :
  fenced comment = true -> Base (repoDir repoID) = repoID -> I w0 w -> sameState w w1 -> w_held w1 = w_held w ->
  wpc (hookD w0 w) (AdmitPassportExecution (Mortal0 := hookMortal) [repoDir repoID; "/" ++ path; user; comment; "0"] parent at_)
    (fun e w2 => hookD w0 w w2 /\ (e = None -> admitted w2 repoID path user comment parent /\
       forall m, executionMetadata comment = Ok m -> lockOf repoID (md_AcquisitionID m) ∉ w_held w)) w1.
Proof.
  intros Hfe Hbase HI Hs Hh. unfold AdmitPassportExecution. rewrite bool_decide_eq_true_2 by done. cbn [negb].
  assert (Hw1 : hookP w0 w w1).
  { split; [apply (hookD_same w0 w w); [done|]|by rewrite Hh]. split; [done|]. by unfold quietly. }
  pose proof (tolerates_hook w0 w) as Ht.
  assert (Hret : forall (e : serr) w2, hookP w0 w w2 ->
            hookD w0 w w2 /\ (Some e = None -> admitted w2 repoID path user comment parent /\
       forall m, executionMetadata comment = Ok m -> lockOf repoID (md_AcquisitionID m) ∉ w_held w)) by (intros ? ? [? _]; done).
  unfold fenced in Hfe. destruct (ParseComment comment) as [m|] eqn:Hp; [|done]. bool_to_prop.
  rewrite bool_decide_eq_false_2 by done. destruct (executionMetadata comment) as [meta|e] eqn:Hm; [|by apply wpc_ret, Hret].
  destruct (_ || _ || _) eqn:Hg; [by apply wpc_ret, Hret|]. cbv zeta. rewrite repoDir_clean, Hbase.
  bool_to_prop. destruct (isUUID repoID); cbn [negb]; [|by apply wpc_ret, Hret].
  eapply (wpc_after (hookP w0 w) (hookD w0 w)); [by apply Pres_executionRepositoryUUID|done|].
  intros [generation|e] w2 Hw2; [|by apply wpc_ret, Hret].
  apply (wpc_withExecution (hookP w0 w) (hookD w0 w)); [done| |by intros; apply Hret|done].
  intros Hid w3 Hw3 Hnotin. cbv zeta.
  eapply wpc_mono.
  - apply (wpc_admitLocked w0 w _ repoID path user comment generation parent at_ (md_AcquisitionID meta)); try done; try lia.
    + intros Hin. apply Hnotin. destruct Hw3 as [_ Hsub]. by apply Hsub.
    + destruct Hw3 as [? Hsub]. split; [by apply (hookD_same w0 w w3)|].
      intros L HL. apply elem_of_union. right. by apply Hsub.
  - intros e w4 (R & HR & Hw4 & Hout). exists R. split_and!; [done..|]. intros w5 Hw5.
    destruct (Hout w5 Hw5) as [[Hd _] Ha]. split; [by apply (hookD_same w0 w w5)|].
    intros ->. split; [eapply (admitted_same w5); [done|by apply Ha]|].
    intros m' Hm'. assert (m' = meta) as -> by congruence. intros Hin. apply Hnotin.
    destruct Hw3 as [_ Hsub]. by apply Hsub.
Qed.

Lemma I_admit w0 w parent repoID path user comment : w_procs w !! parent = Some None ->
  I w0 w -> admitted w repoID path user comment parent ->
  I w0 (setProcs (<[parent := Some (Admit repoID path user comment)]> (w_procs w)) w).
Proof.
  intros Hp ([A1 A2 A3 A4 A5 A7] & Ha & Hfin) (Hpar & Hnb & Hna & r & Hr & E1 & E2 & E3 & E4 & E5).
  split; [split; [done| |done..]|by split]. simpl. intros pid a.
  destruct (decide (parent = pid)) as [<-|Hne].
  - rewrite lookup_insert_eq. intros [= <-]. simpl. split; [done|]. exists r. split_and!; try done. by left.
  - rewrite lookup_insert_ne by done. intros Ha'. by apply A2.
Qed.

(** The hook of one process, as an event. *)
Lemma runHook_ok w0 w repoID path user comment parent at_ answered : I w0 w ->
  let w' := runHook repoID path user comment parent at_ answered w in
  I w0 w' /\ w_held w' = w_held w /\ w_sched w' = w_sched w /\ w_locks w' = w_locks w /\ w_births w' = w_births w /\
  (forall repoID id, canonicalUUID id = true -> lockOf repoID id ∈ w_held w ->
     w_files w' !! fileOf repoID id = w_files w !! fileOf repoID id /\
     (forall pid a, w_procs w' !! pid = Some (Some a) -> w_procs w !! pid = Some (Some a) \/
        forall m, executionMetadata (ad_Comment a) = Ok m -> fileOf (ad_RepoID a) (md_AcquisitionID m) <> fileOf repoID id)).
Proof.
  intros HI. unfold runHook. destruct (w_procs w !! parent) as [[a|]|] eqn:Hp; [by eauto 10..| |by eauto 10].
  destruct (fenced comment && _) eqn:Hfe; [|by eauto 10]. bool_to_prop.
  match goal with E : fenced comment = true |- _ => rename E into Hfc end.
  match goal with E : Base _ = _ |- _ => rename E into Hbase end.
  pose proof (wpc_hook w0 w repoID path user comment parent at_ (setSched (map (Tick_ []) answered) w) Hfc Hbase HI
                ltac:(done) ltac:(done)) as Hw.
  unfold wpc in Hw. destruct (AdmitPassportExecution _ _ _ _) as [r w1].
  assert (HD : hookD w0 w w1 /\ (r = Some None -> admitted w1 repoID path user comment parent /\
       forall m, executionMetadata comment = Ok m -> lockOf repoID (md_AcquisitionID m) ∉ w_held w)).
  { destruct r as [e|]; [|done]. destruct Hw as [? Hw]. split; [done|]. intros [= ->]. by apply Hw. }
  clear Hw. destruct HD as [[HI1 (Hpr & Hb & Hl & Hf)] Hadm]. set (w2 := setHeld _ _).
  assert (HI2 : I w0 w2) by (by apply (I_same w0 w1)).
  destruct (isNil r) eqn:Hr.
  2: { split_and!; try done. intros repo' id' Hid' Hin. split; [by apply Hf|]. intros pid a. simpl. rewrite Hpr. auto. }
  assert (r = Some None) as -> by (destruct r as [[]|]; done). destruct (Hadm eq_refl) as [Hadm1 Hfree]. clear Hadm.
  assert (Hadm2 : admitted w2 repoID path user comment parent) by (by apply (admitted_same w1)).
  split_and!; try done.
  - apply I_admit; [|done|done]. simpl. by rewrite Hpr.
  - intros repo' id' Hid' Hin. split; [by apply Hf|]. simpl. intros pid a.
    destruct (decide (parent = pid)) as [<-|Hne]; [|rewrite lookup_insert_ne, Hpr by done; auto].
    rewrite lookup_insert_eq. intros [= <-]. right. simpl. intros m Hm E.
    apply (Hfree m Hm). unfold lockOf, fileOf in *. by rewrite (lock_of_file _ _ _ _ (executionMetadata_id _ _ Hm) Hid' E).
Qed.

(** ** What may happen between two calls *)
Record around (w0 w w' : World) (noLock : Prop) : Prop := {
  ar_inv : I w0 w';
  ar_held : w_held w' = w_held w;
  ar_sched : w_sched w' = w_sched w;
  ar_births b : b ∈ w_births w -> b ∈ w_births w';
  ar_files repoID id : canonicalUUID id = true -> lockOf repoID id ∈ w_held w ->
    w_files w' !! fileOf repoID id = w_files w !! fileOf repoID id;
  ar_admissions repoID id pid a m : canonicalUUID id = true -> lockOf repoID id ∈ w_held w ->
    w_procs w' !! pid = Some (Some a) -> executionMetadata (ad_Comment a) = Ok m ->
    fileOf (ad_RepoID a) (md_AcquisitionID m) = fileOf repoID id -> w_procs w !! pid = Some (Some a);
  ar_locks k l : noLock -> w_locks w' !! k = Some l -> w_locks w !! k = Some l \/ fenced (al_Comment l) = false
}.

Lemma around_refl w0 w P : I w0 w -> around w0 w w P.
Proof. intros HI. split; auto. Qed.

Lemma around_aside w0 w w' P : setAside w w' -> w_held w' = w_held w -> w_sched w' = w_sched w -> I w0 w ->
  (forall pid a, w_procs w' !! pid = Some (Some a) -> w_procs w !! pid = Some (Some a)) ->
  (forall k l, w_locks w' !! k = Some l -> w_locks w !! k = Some l \/ fenced (al_Comment l) = false) ->
  around w0 w w' P.
Proof.
  intros Hs Hh Hsc HI Hp Hl. split; try done; eauto using I_aside.
  - destruct Hs as [_ ->]. done.
  - intros. destruct Hs as [-> _]. done.
Qed.

Lemma procs_shrink (m : gmap Z (option admission)) pid pid' a :
  <[pid := None]> m !! pid' = Some (Some a) -> m !! pid' = Some (Some a).
Proof. destruct (decide (pid = pid')) as [->|?]; [by rewrite lookup_insert_eq|by rewrite lookup_insert_ne]. Qed.

Lemma happen_ok w0 w e : I w0 w -> around w0 w (happen e w) (forall pid, e <> EvLock pid).
Proof.
  intros HI. destruct e as [pid|pid|pid|pid|repoID path owner comment|repoID path|repoID file u|repoID path user comment parent at_ host].
  - simpl. destruct (w_procs w !! pid) eqn:E; [by apply around_refl|].
    apply around_aside; try done; simpl; [apply procs_shrink|auto].
  - apply around_aside; try done; simpl; [|auto]. intros pid' a ?%lookup_delete_Some. naive_solver.
  - simpl. pose proof (I_takeLock w0 w pid HI) as HT. unfold takeLock in *.
    destruct (w_procs w !! pid) as [[a|]|] eqn:E; [|by apply around_refl..].
    cbv zeta in *. simpl in *. destruct (w_locks w !! _); split; simpl; auto; try (intros ? ? Hn; by destruct (Hn pid)).
    + intros ? ? ? ? ? ? ? ?%procs_shrink. done.
    + intros b Hb. apply elem_of_cons. by right.
    + intros ? ? ? ? ? ? ? ?%procs_shrink. done.
  - simpl. destruct (w_procs w !! pid) eqn:E; [|by apply around_refl].
    apply around_aside; try done; simpl; [apply procs_shrink|auto].
  - simpl. destruct (fenced comment) eqn:Hf; [by apply around_refl|].
    destruct (w_locks w !! (repoID, path)) eqn:E; [by apply around_refl|].
    apply around_aside; try done; simpl. intros k l. destruct (decide ((repoID, path) = k)) as [<-|?].
    + rewrite lookup_insert_eq. intros [= <-]. by right.
    + rewrite lookup_insert_ne by done. auto.
  - apply around_aside; try done; simpl. intros k l ?%lookup_delete_Some. naive_solver.
  - apply around_aside; try done; simpl. intros k l ?%map_lookup_filter_Some. naive_solver.
  - simpl. destruct (runHook_ok w0 w repoID path user comment parent at_ host HI) as (A1 & A2 & A3 & A4 & A5 & A6).
    split; [done|done|done| | | |].
    + by rewrite A5.
    + intros. by apply A6.
    + intros repo' id' pid a m Hid Hin Hpr Hm E. destruct (A6 repo' id' Hid Hin) as [_ H6].
      destruct (H6 pid a Hpr) as [?|Hne]; [done|by destruct (Hne m Hm)].
    + intros k l _. rewrite A4. auto.
Qed.

Lemma around_trans w0 w1 w2 w3 P : around w0 w1 w2 P -> around w0 w2 w3 P -> around w0 w1 w3 P.
Proof.
  intros [B1 B2 B3 B4 B5 B6 B7] [C1 C2 C3 C4 C5 C6 C7]. split; try done; try congruence; auto.
  - intros. rewrite C5, B5; [done..|congruence].
  - intros repo' id' pid a m Hid Hin Hpr Hm E. apply (B6 repo' id' pid a m); try done.
    apply (C6 repo' id' pid a m); try done. by rewrite B2.
  - intros k l HP Hk. destruct (C7 k l HP Hk) as [Hk'|]; auto.
Qed.

Lemma happenAll_ok w0 es w : I w0 w -> around w0 w (happenAll es w) (forall pid, EvLock pid ∉ es).
Proof.
  revert w. induction es as [|e es IH]; intros w HI; [by apply around_refl|].
  unfold happenAll in *. cbn [fold_left]. pose proof (happen_ok w0 w e HI) as H1.
  pose proof (IH (happen e w) (ar_inv _ _ _ _ H1)) as H2. eapply around_trans.
  - destruct H1 as [B1 B2 B3 B4 B5 B6 B7]. split; try done. intros k l HP. apply B7. intros pid ->.
    apply (HP pid), elem_of_cons. by left.
  - destruct H2 as [B1 B2 B3 B4 B5 B6 B7]. split; try done. intros k l HP. apply B7. intros pid Hin.
    apply (HP pid), elem_of_cons. by right.
Qed.

(** ** What the holder of an acquisition's lock knows

    [fr_calm] says that no process takes a lock for the rest of the schedule;
    under it, [fr_clear] says that a path has no lock of an owner and comment. *)
Record frame := Frame {
  fr_repo : string;
  fr_id : string;
  fr_file : option execFile;
  fr_noAdm : bool;
  fr_births : list birth;
  fr_calm : bool;
  fr_clear : option (string * string * string)
}.

Definition noAdmissionAt (w : World) (F : string) : Prop :=
  forall pid a m, w_procs w !! pid = Some (Some a) -> executionMetadata (ad_Comment a) = Ok m ->
    fileOf (ad_RepoID a) (md_AcquisitionID m) <> F.

Definition calm (sched : list tick) : Prop := Forall (fun t => forall pid, EvLock pid ∉ t_events t) sched.

Definition noMine (w : World) (repoID path owner comment : string) : Prop :=
  forall l, w_locks w !! (repoID, path) = Some l -> al_Owner l = owner -> al_Comment l = comment -> False.

Record owned (w0 : World) (fr : frame) (w : World) : Prop := {
  ow_inv : I w0 w;
  ow_held : lockOf (fr_repo fr) (fr_id fr) ∈ w_held w;
  ow_file : w_files w !! fileOf (fr_repo fr) (fr_id fr) = fr_file fr;
  ow_noAdm : fr_noAdm fr = true -> noAdmissionAt w (fileOf (fr_repo fr) (fr_id fr));
  ow_births b : b ∈ fr_births fr -> b ∈ w_births w;
  ow_calm : fr_calm fr = true -> calm (w_sched w);
  ow_clear path owner comment : fr_clear fr = Some (path, owner, comment) -> fr_calm fr = true ->
    fenced comment = true /\ noMine w (fr_repo fr) path owner comment
}.

(** Without a frame: only the invariant, and calm if asked for. *)
Definition free (w0 : World) (c : bool) (w : World) : Prop := I w0 w /\ (c = true -> calm (w_sched w)).

Lemma tolerates_owned w0 fr : canonicalUUID (fr_id fr) = true -> @tolerates workerMortal (owned w0 fr) (I w0).
Proof.
  intros Hid w [B1 B2 B3 B4 B5 B6 B7]. simpl. destruct (w_sched w) as [|t rest] eqn:Hs.
  { split; simpl; try done; [by apply (I_same w0 w)|by rewrite Hs]. }
  unfold die. destruct (a_dies _); cbv beta iota.
  { apply (I_same w0 w); [by split_and!|done]. }
  set (w1 := setCur (t_answers t) (setSched rest w)). assert (HI1 : I w0 w1) by (by apply (I_same w0 w)).
  destruct (happenAll_ok w0 (t_events t) w1 HI1) as [C1 C2 C3 C4 C5 C6 C7].
  split; simpl.
  - by apply (I_same w0 (happenAll (t_events t) w1)).
  - by rewrite C2.
  - by rewrite C5.
  - intros Hn pid a m Hp Hm E. eapply B4; [done| |done|exact E]. by eapply (C6 _ _ pid a m Hid).
  - intros b Hb. by apply C4, B5.
  - intros Hc. rewrite C3. simpl. specialize (B6 Hc). by apply Forall_cons in B6 as [_ ?].
  - intros path owner comment Hcl Hc. destruct (B7 _ _ _ Hcl Hc) as [Hf Hno]. split; [done|].
    intros l Hl Ho Hco. specialize (B6 Hc). apply Forall_cons in B6 as [Hcalm _].
    destruct (C7 _ _ Hcalm Hl) as [Hl'|Hf']; [by eapply Hno|]. by rewrite Hco, Hf in Hf'.
Qed.

Lemma tolerates_free w0 c : @tolerates workerMortal (free w0 c) (I w0).
Proof.
  intros w [HI Hc]. simpl. destruct (w_sched w) as [|t rest] eqn:Hs.
  { split; [by apply (I_same w0 w)|]. simpl. by rewrite Hs. }
  unfold die. destruct (a_dies _); cbv beta iota.
  { apply (I_same w0 w); [by split_and!|done]. }
  set (w1 := setCur (t_answers t) (setSched rest w)). assert (HI1 : I w0 w1) by (by apply (I_same w0 w)).
  destruct (happenAll_ok w0 (t_events t) w1 HI1) as [C1 C2 C3 C4 C5 C6 C7].
  split; [by apply (I_same w0 (happenAll (t_events t) w1))|]. simpl. rewrite C3. simpl. intros E.
  specialize (Hc E). by apply Forall_cons in Hc as [_ ?].
Qed.

(** The worker's own write. *)
Lemma owned_put w0 fr w f r r' n : owned w0 fr w -> fr_file fr = Some f -> xf_record f = Some r -> mayWrite w r r' ->
  owned w0 (Frame (fr_repo fr) (fr_id fr) (Some (written n r')) (fr_noAdm fr) (fr_births fr) (fr_calm fr) (fr_clear fr))
    (put (fileOf (fr_repo fr) (fr_id fr)) n r' w).
Proof.
  intros [B1 B2 B3 B4 B5 B6 B7] Hf Hd Hm. rewrite Hf in B3.
  split; [by eapply I_put|done|apply put_eq|done..].
Qed.

(** Who can still use an admission of a record: a live process it names, while
    the record has not been closed and no lock of it was seen. *)
Lemma noAdm_record w F f r : Inv w -> w_files w !! F = Some f -> xf_record f = Some r ->
  (pe_ObservedToken r <> "" \/ (pe_ExecutorPID r <= 1)%Z \/ w_procs w !! pe_ExecutorPID r = None \/ pe_State r = Closed) ->
  noAdmissionAt w F.
Proof.
  intros Hi Hf Hr Hor pid a m Hp Hm E.
  destruct (inv_admission _ Hi _ _ Hp) as (_ & r' & (m' & n & Hm' & Hk & _) & _ & _ & Hpid & H1 & Hst & Hob).
  assert (m' = m) as -> by congruence. rewrite E, Hf in Hk. injection Hk as ->. cbn [xf_record] in Hr. injection Hr as ->.
  destruct Hor as [?|[?|[?|Hc]]]; [done|lia|congruence|]. rewrite Hc in Hst. by destruct Hst.
Qed.

Lemma noAdm_birth w F f r l : Inv w -> w_files w !! F = Some f -> xf_record f = Some r ->
  Birth (pe_RepoID r) (pe_Comment r) l ∈ w_births w ->
  noAdmissionAt w F /\ (1 < pe_ExecutorPID r)%Z /\ (pe_ObservedToken r = "" \/ pe_ObservedToken r = l).
Proof.
  intros Hi Hf Hr Hb. destruct (file_record _ _ _ _ Hi Hf Hr) as (n & m & -> & Hm & -> & Hat).
  destruct (inv_birth _ Hi _ Hb) as (r' & Hat' & Hp & _ & Ho). simpl in *.
  pose proof (recordAt_fun _ _ _ _ _ Hat Hat') as <-. split; [|done].
  intros pid a m' Hpr Hm' E. destruct (inv_admission _ Hi _ _ Hpr) as (Hnb & r2 & (m2 & n2 & Hm2 & Hk & E1 & E2) & _).
  assert (m2 = m') as -> by congruence. rewrite E, Hf in Hk. injection Hk as <- <-. apply (Hnb _ Hb). split; simpl; congruence.
Qed.

Lemma noAdm_write w F f r : Inv w -> w_files w !! F = Some f -> xf_record f = Some r -> noAdmissionAt w F ->
  noAdmission w (pe_RepoID r) (pe_Comment r).
Proof.
  intros Hi Hf Hr Hno pid a Hp E1 E2. destruct (file_record _ _ _ _ Hi Hf Hr) as (n & m & -> & Hm & -> & Hat).
  apply (Hno pid a m Hp); congruence.
Qed.

Definition setFrame (fr : frame) (file : option execFile) (noAdm : bool) (births : list birth)
    (clear : option (string * string * string)) : frame :=
  Frame (fr_repo fr) (fr_id fr) file noAdm births (fr_calm fr) clear.

(** *** The liveness probe *)
Lemma wpc_probe w0 fr n r (Q : bool -> World -> Prop) w b : canonicalUUID (fr_id fr) = true ->
  owned w0 fr w -> fr_file fr = Some (written n r) ->
  (b = false -> pe_ObservedToken r <> "" \/ (pe_ExecutorPID r <= 1)%Z) ->
  (b = true -> (1 < pe_ExecutorPID r)%Z) ->
  (forall w', owned w0 (setFrame fr (fr_file fr) true (fr_births fr) (fr_clear fr)) w' -> Q false w') ->
  (forall w', owned w0 fr w' -> Q true w') ->
  wpc (I w0) (if b then let* dead := passportExecutorDead (Mortal0 := workerMortal) (pe_ExecutorPID r) in ret (negb dead)
              else ret false) Q w.
Proof.
  intros Hid Hw Hf Hb0 Hb1 Q1 Q2.
  assert (Hset : forall w', owned w0 fr w' -> noAdmissionAt w' (fileOf (fr_repo fr) (fr_id fr)) ->
            owned w0 (setFrame fr (fr_file fr) true (fr_births fr) (fr_clear fr)) w').
  { intros w' [] ?. split; simpl; try done. }
  assert (Hno : forall w', owned w0 fr w' ->
            (pe_ObservedToken r <> "" \/ (pe_ExecutorPID r <= 1)%Z \/ w_procs w' !! pe_ExecutorPID r = None) ->
            noAdmissionAt w' (fileOf (fr_repo fr) (fr_id fr))).
  { intros w' Hw' Hor. pose proof (ow_file _ _ _ Hw') as Hk. rewrite Hf in Hk.
    apply (noAdm_record w' _ (written n r) r); [apply (ow_inv _ _ _ Hw')|done..|]. tauto. }
  destruct b.
  - specialize (Hb1 eq_refl). unfold passportExecutorDead. replace (pe_ExecutorPID r <=? 1)%Z with false by (symmetry; lia).
    apply wpc_bind. eapply (wpc_call (owned w0 fr)); [by apply tolerates_owned|done|].
    intros w' Hw'. simpl. case_bool_decide as Hp; apply wpc_ret; simpl; [|by apply Q2].
    apply Q1, Hset; [done|]. apply Hno; auto.
  - apply wpc_ret, Q1, Hset; [done|]. apply Hno; [done|]. destruct (Hb0 eq_refl); auto.
Qed.

(** *** Writing under the frame *)
Lemma wpc_owned_write w0 fr n r r' (Q : option serr -> World -> Prop) w : canonicalUUID (fr_id fr) = true ->
  owned w0 fr w -> fr_file fr = Some (written n r) ->
  (forall w', owned w0 fr w' -> mayWrite w' r r') ->
  (forall w' e n', owned w0 (setFrame fr (Some (written n' r')) (fr_noAdm fr) (fr_births fr) (fr_clear fr)) w' -> Q e w') ->
  (forall w' e, owned w0 fr w' -> Q (Some e) w') ->
  wpc (I w0) (atomicJSON (Mortal0 := workerMortal) (fileOf (fr_repo fr) (fr_id fr)) r') Q w.
Proof.
  intros Hid Hw Hf Hm Q1 Q2. apply (wpc_write (owned w0 fr)); [by apply tolerates_owned|done|..|done].
  intros w' e n' Hw'. apply (Q1 _ _ n'). eapply owned_put; [done|exact Hf|done|by apply Hm].
Qed.

Lemma mayWrite_owned w0 fr n r r' w : owned w0 fr w -> fr_file fr = Some (written n r) -> advance r r' ->
  (fr_noAdm fr = true \/ pe_ExecutorPID r' = pe_ExecutorPID r /\ (pe_State r' = Started \/ pe_State r' = Closing) /\
     pe_ObservedToken r' = pe_ObservedToken r) ->
  (pe_ObservedToken r' = pe_ObservedToken r \/
   Birth (pe_RepoID r) (pe_Comment r) (pe_ObservedToken r') ∈ fr_births fr) ->
  mayWrite w r r'.
Proof.
  intros [[Hi _] _ Hk Hno Hb _ _] Hf Hadv Hor Ht. rewrite Hf in Hk. split; [done|]. split.
  - destruct Hor as [Hn|?]; [left|by right]. by eapply noAdm_write; eauto.
  - destruct Ht; [by left|right; auto].
Qed.

(** *** Closing *)
Definition closePost (w0 : World) (fr : frame) (r : passportExecution) (generation : string) (e : option serr) (w : World) : Prop :=
  exists fr' n r', fr_repo fr' = fr_repo fr /\ fr_id fr' = fr_id fr /\ fr_calm fr' = fr_calm fr /\ owned w0 fr' w /\
    fr_file fr' = Some (written n r') /\
    (e = None -> pe_State r' = Closed /\
       (pe_State r <> Closed -> pe_RepositoryUUID r = generation ->
        fr_clear fr' = Some (pe_Path r, pe_ClientID r, pe_Comment r))).

Lemma closePost_error w0 fr fr' r n r' generation e w : owned w0 fr' w -> fr_repo fr' = fr_repo fr -> fr_id fr' = fr_id fr ->
  fr_calm fr' = fr_calm fr -> fr_file fr' = Some (written n r') -> closePost w0 fr r generation (Some e) w.
Proof. intros. exists fr', n, r'. done. Qed.

(** The last write of every way to close. *)
Lemma wpc_finish w0 fr fr' n r1 r generation w : canonicalUUID (fr_id fr) = true ->
  fr_repo fr' = fr_repo fr -> fr_id fr' = fr_id fr -> fr_calm fr' = fr_calm fr ->
  owned w0 fr' w -> fr_file fr' = Some (written n r1) -> fr_noAdm fr' = true -> pe_State r1 = Closing ->
  (pe_RepositoryUUID r = generation -> fr_clear fr' = Some (pe_Path r, pe_ClientID r, pe_Comment r)) ->
  wpc (I w0) (atomicJSON (Mortal0 := workerMortal) (fileOf (fr_repo fr) (fr_id fr)) (withState Closed r1))
    (closePost w0 fr r generation) w.
Proof.
  intros Hid E1 E2 E3 Hw Hf Hno Hst Hcl. rewrite <- E1, <- E2 in *.
  apply (wpc_owned_write w0 fr' n r1); [done..| | |].
  - intros w' Hw'. eapply mayWrite_owned; [exact Hw'|done| |by left|by left].
    apply advance_state; rewrite Hst; simpl; [lia|done].
  - intros w' e n' Hw'. do 3 eexists. split_and!; [..|exact Hw'|done|]; simpl; [done..|]. intros _. split; [done|auto].
  - intros w' e Hw'. by eapply closePost_error.
Qed.

Lemma closable r : validateExecutionRecord r = None -> pe_State r <> Closed -> rank (pe_State r) <= 2.
Proof.
  unfold validateExecutionRecord. intros Hv Hne. autorewrite with filees in Hv. destruct Hv as (_ & Hk & _).
  destruct (pe_State r); simpl in *; try lia; done.
Qed.

Lemma comment_fenced comment m : executionMetadata comment = Ok m -> fenced comment = true.
Proof.
  intros Hm. unfold fenced. rewrite (executionMetadata_parse _ _ Hm).
  destruct (uuid_plain _ (executionMetadata_id _ _ Hm)) as [Hne _]. by rewrite bool_decide_eq_false_2.
Qed.

Lemma validate_metadata r : validateExecutionRecord r = None -> exists m, executionMetadata (pe_Comment r) = Ok m.
Proof.
  unfold validateExecutionRecord. intros Hv. autorewrite with filees in Hv. destruct Hv as (Hv & _).
  destruct (executionMetadata _); [by eexists|done].
Qed.

(** What an inspection under the frame tells about the path of the record. *)
Lemma inspect_mine w0 fr n r w l : owned w0 fr w -> fr_file fr = Some (written n r) -> fenced (pe_Comment r) = true ->
  w_locks w !! (pe_RepoID r, pe_Path r) = Some l -> al_Comment l = pe_Comment r ->
  let b := Birth (pe_RepoID r) (pe_Comment r) (al_Token l) in
  owned w0 (setFrame fr (fr_file fr) true [b] None) w /\ (1 < pe_ExecutorPID r)%Z /\
  (pe_ObservedToken r = "" \/ pe_ObservedToken r = al_Token l) /\ al_Token l <> "".
Proof.
  intros Hw Hf Hfe Hl Hc b. pose proof (ow_file _ _ _ Hw) as Hk. rewrite Hf in Hk.
  pose proof (proj1 (ow_inv _ _ _ Hw)) as Hi.
  assert (Hb : b ∈ w_births w) by (unfold b; rewrite <- Hc in Hfe |- *; by eapply inv_locks).
  destruct (noAdm_birth _ _ _ r _ Hi Hk eq_refl Hb) as (Hno & Hpid & Hob).
  split; [|split_and!; [done..|by apply (inv_tokens _ Hi b)]].
  destruct Hw. split; simpl; try done. intros b' ->%list_elem_of_singleton. done.
Qed.

Lemma inspect_clear w0 fr n r w path owner comment : owned w0 fr w -> fr_file fr = Some (written n r) -> fenced comment = true ->
  pe_RepoID r = fr_repo fr -> noMine w (fr_repo fr) path owner comment ->
  owned w0 (setFrame fr (fr_file fr) (fr_noAdm fr) (fr_births fr) (Some (path, owner, comment))) w.
Proof. intros [] Hf Hfe Hr Hno. split; simpl; try done. intros ? ? ? [= <- <- <-] _. done. Qed.

(** Releasing the lock of the acquisition: it is gone when the release succeeds. *)
Lemma wpc_release w0 fr w path owner comment token (Q : option serr -> World -> Prop) n r : canonicalUUID (fr_id fr) = true ->
  owned w0 fr w -> fenced comment = true -> fr_file fr = Some (written n r) -> pe_RepoID r = fr_repo fr ->
  (forall w', owned w0 (setFrame fr (fr_file fr) (fr_noAdm fr) (fr_births fr) (Some (path, owner, comment))) w' -> Q None w') ->
  (forall w' e, owned w0 fr w' -> Q (Some e) w') ->
  wpc (I w0) (ServerBase.ask (Mortal0 := workerMortal) (lk_unlock (fr_repo fr) path owner token)) Q w.
Proof.
  intros Hid Hw Hfe Hf Hr Q1 Q2. apply (wpc_call (owned w0 fr)); [by apply tolerates_owned|done|].
  intros w' Hw'. simpl. destruct (w_locks w' !! _) as [l|] eqn:Hl; [|by apply Q2].
  case_bool_decide; [|by apply Q2]. unfold effectful. simpl.
  assert (Hdel : owned w0 fr (setLocks (delete (fr_repo fr, path) (w_locks w')) w')).
  { assert (Hshrink : forall k l', delete (fr_repo fr, path) (w_locks w') !! k = Some l' -> w_locks w' !! k = Some l')
      by (intros k l' ?%lookup_delete_Some; naive_solver).
    destruct Hw' as [B1 B2 B3 B4 B5 B6 B7]. split; simpl; try done.
    - apply (I_aside w0 w'); try done. simpl. auto.
    - intros p' o' c' E1 E2. destruct (B7 _ _ _ E1 E2) as [? Hno]. split; [done|]. intros l' Hl'. apply Hno. by apply Hshrink. }
  destruct (a_fault (w_cur w')) as [k|]; simpl.
  - destruct (a_after (w_cur w')); by apply Q2.
  - apply Q1. eapply inspect_clear; try done. intros l'. simpl. by rewrite lookup_delete_eq.
Qed.

Lemma wpc_closeExecution w0 fr n r generation w : canonicalUUID (fr_id fr) = true -> owned w0 fr w ->
  fr_file fr = Some (written n r) -> pe_RepoID r = fr_repo fr ->
  pe_State r = Closed \/ validateExecutionRecord r = None ->
  wpc (I w0) (closeExecution (Mortal0 := workerMortal) (fileOf (fr_repo fr) (fr_id fr)) r generation)
    (closePost w0 fr r generation) w.
Proof.
  intros Hid Hw Hf Hrepo Hv. unfold closeExecution. case_bool_decide as Hst.
  { apply wpc_ret. exists fr, n, r. split_and!; [done..|]. intros _. split; [done|]. intros Hn. by destruct Hn. }
  destruct Hv as [?|Hv]; [done|]. destruct (validate_metadata _ Hv) as [m Hm]. apply comment_fenced in Hm as Hfe.
  pose proof (closable _ Hv Hst) as Hrank. cbv zeta. set (r1 := withState Closing r).
  apply wpc_bind. apply (wpc_owned_write w0 fr n r); [done..| | |by intros; simpl; apply wpc_ret; eapply closePost_error].
  { intros w' Hw'. eapply mayWrite_owned; [exact Hw'|done|by apply advance_state| |by left]. right. simpl. auto. }
  intros w1 e n1 Hw1. destruct e as [e|]; cbn [orElse]; [by apply wpc_ret; eapply closePost_error|].
  set (fr1 := setFrame _ _ _ _ _) in Hw1. assert (Hf1 : fr_file fr1 = Some (written n1 r1)) by done.
  change (fr_repo fr) with (fr_repo fr1). change (fr_id fr) with (fr_id fr1).
  destruct (bool_decide (pe_RepositoryUUID r1 = generation)) eqn:Hgen; cbn [negb]; bool_to_prop.
  2: { apply wpc_bind. apply (wpc_probe w0 fr1 n1 r1); [done..| | | |].
       - intros E. bool_to_prop. by right.
       - intros E. by bool_to_prop.
       - intros w2 Hw2. by refine (wpc_finish w0 fr _ n1 r1 r generation w2 Hid _ _ _ Hw2 Hf1 _ _ _).
       - intros w2 Hw2. apply wpc_ret. by eapply closePost_error. }
  assert (Hclose : forall fr' w' n' rc, owned w0 fr' w' -> fr_repo fr' = fr_repo fr -> fr_id fr' = fr_id fr ->
            fr_calm fr' = fr_calm fr -> fr_file fr' = Some (written n' rc) -> fr_noAdm fr' = true -> pe_State rc = Closing ->
            fr_clear fr' = Some (pe_Path r, pe_ClientID r, pe_Comment r) ->
            wpc (I w0) (atomicJSON (Mortal0 := workerMortal) (fileOf (fr_repo fr) (fr_id fr)) (withState Closed rc))
              (closePost w0 fr r generation) w').
  { intros. by eapply wpc_finish. }
  apply wpc_bind. unfold inspect. apply (wpc_call (owned w0 fr1)); [by apply tolerates_owned|done|].
  intros w2 Hw2. change (pe_RepoID r1) with (pe_RepoID r). change (pe_Path r1) with (pe_Path r).
  change (pe_ClientID r1) with (pe_ClientID r). change (pe_Comment r1) with (pe_Comment r).
  cbn [lk_inspect locks]. unfold reading. cbn [fst snd].
  destruct (a_fault (w_cur w2)); [by apply wpc_ret; eapply closePost_error|].
  assert (Hclear : noMine w2 (pe_RepoID r) (pe_Path r) (pe_ClientID r) (pe_Comment r) ->
            owned w0 (setFrame fr1 (fr_file fr1) (fr_noAdm fr1) (fr_births fr1)
                        (Some (pe_Path r, pe_ClientID r, pe_Comment r))) w2).
  { rewrite Hrepo. intros Hno. by apply (inspect_clear w0 fr1 n1 r1). }
  assert (Hother : noMine w2 (pe_RepoID r) (pe_Path r) (pe_ClientID r) (pe_Comment r) ->
            wpc (I w0)
              (let* running := (if bool_decide (pe_ObservedToken r1 = "") && (1 <? pe_ExecutorPID r1)%Z
                                then let* dead := passportExecutorDead (Mortal0 := workerMortal) (pe_ExecutorPID r1) in ret (negb dead)
                                else ret false) in
               if running then ret (Some ERunning)
               else atomicJSON (Mortal0 := workerMortal) (fileOf (fr_repo fr) (fr_id fr)) (withState Closed r1))
              (closePost w0 fr r generation) w2).
  { intros Hno%Hclear. set (fr2 := setFrame _ _ _ _ _) in Hno. apply wpc_bind.
    apply (wpc_probe w0 fr2 n1 r1); [done..| | | |].
    - intros [E|E]%andb_false_iff; bool_to_prop; auto.
    - intros [_ ?]%andb_true_iff. by bool_to_prop.
    - intros w3 Hw3. by eapply Hclose.
    - intros w3 Hw3. apply wpc_ret. by eapply closePost_error. }
  destruct (w_locks w2 !! (pe_RepoID r, pe_Path r)) as [l|] eqn:Hl; cbv beta iota.
  2: { rewrite andb_false_r. cbn [andb]. apply Hother. intros l Hl' _ _. congruence. }
  destruct (bool_decide (al_Owner l = pe_ClientID r) && bool_decide (al_Comment l = pe_Comment r)) eqn:Hmine.
  2: { rewrite andb_false_r. cbn [andb]. apply Hother. intros l' Hl' E1 E2.
       apply andb_false_iff in Hmine as [?|?]; bool_to_prop; congruence. }
  bool_to_prop. match goal with E : al_Comment l = _ |- _ => rename E into Hcom end.
  destruct (inspect_mine w0 fr1 n1 r1 w2 l Hw2 Hf1 Hfe Hl Hcom) as (Hw2' & Hpid & Hob & Htok).
  assert (Hrest : forall fr2 w' n' rc, owned w0 fr2 w' -> fr_repo fr2 = fr_repo fr -> fr_id fr2 = fr_id fr ->
            fr_calm fr2 = fr_calm fr -> fr_file fr2 = Some (written n' rc) -> fr_noAdm fr2 = true -> pe_State rc = Closing ->
            pe_RepoID rc = pe_RepoID r -> pe_Path rc = pe_Path r -> pe_ObservedToken rc = al_Token l ->
            wpc (I w0)
              (let* running := (if bool_decide (pe_ObservedToken rc = "") && (1 <? pe_ExecutorPID rc)%Z
                                then let* dead := passportExecutorDead (Mortal0 := workerMortal) (pe_ExecutorPID rc) in ret (negb dead)
                                else ret false) in
               if running then ret (Some ERunning)
               else
                 let* e := (if true && negb (bool_decide (pe_ObservedToken rc = "")) && bool_decide (pe_ObservedToken rc = al_Token l)
                            then ServerBase.ask (Mortal0 := workerMortal) (lk_unlock (pe_RepoID rc) (pe_Path rc) (pe_ClientID r) (pe_ObservedToken rc))
                            else ret None) in
                 orElse e (atomicJSON (Mortal0 := workerMortal) (fileOf (fr_repo fr) (fr_id fr)) (withState Closed rc)))
              (closePost w0 fr r generation) w').
  { intros fr2 w' n' rc Hw' E1 E2 E3 Hfc Hno Hst' E4 E5 E6. rewrite E4, E5, E6, Hrepo.
    rewrite (bool_decide_eq_false_2 (al_Token l = "")) by done. rewrite bool_decide_eq_true_2 by done. cbn [andb negb].
    apply wpc_bind, wpc_ret. cbv beta iota. apply wpc_bind. rewrite <- E1.
    apply (wpc_release w0 fr2 w' _ _ (pe_Comment r) _ _ n' rc); [by rewrite E2|done|done|done|congruence|..].
    - intros w3 Hw3. cbn [orElse]. rewrite E1. by eapply Hclose.
    - intros w3 e Hw3. cbn [orElse]. apply wpc_ret. by eapply closePost_error. }
  rewrite andb_true_r.
  destruct (bool_decide (pe_ObservedToken r1 = "")) eqn:Hseen; cbn [andb].
  - replace (1 <? pe_ExecutorPID r1)%Z with true by (symmetry; by apply Z.ltb_lt). cbv beta iota.
    set (fr2 := setFrame _ _ _ _ _) in Hw2'. set (r2 := withToken (al_Token l) r1). bool_to_prop.
    apply wpc_bind. apply (wpc_owned_write w0 fr2 n1 r1 r2); [done..| | |].
    + intros w3 Hw3. eapply mayWrite_owned; [exact Hw3|done| |by left|].
      * unfold advance, sameBinding. simpl. split_and!; try done; lia.
      * right. by apply list_elem_of_singleton.
    + intros w3 e n2 Hw3. destruct e as [e|]; cbn [orElse]; [by apply wpc_ret; eapply closePost_error|].
      by eapply Hrest.
    + intros w3 e Hw3. cbn [orElse]. apply wpc_ret. by eapply closePost_error.
  - bool_to_prop. apply wpc_bind, wpc_ret. cbn [orElse]. destruct Hob as [?|Hob]; [done|].
    eapply Hrest; [exact Hw2'|done..].
Qed.

(** ** The other operations, under the acquisition's lock *)
Definition kept (w0 : World) (repoID id : string) (c : bool) (w : World) : Prop :=
  exists fr, fr_repo fr = repoID /\ fr_id fr = id /\ fr_calm fr = c /\ owned w0 fr w.

Definition startFrame (repoID id : string) (c : bool) (w : World) : frame :=
  Frame repoID id (w_files w !! fileOf repoID id) false [] c None.

Lemma owned_start w0 repoID id c w : free w0 c w -> lockOf repoID id ∈ w_held w -> owned w0 (startFrame repoID id c w) w.
Proof. intros [HI Hc] Hl. split; simpl; try done. intros b Hb. by apply elem_of_nil in Hb. Qed.

Lemma kept_owned w0 fr w : owned w0 fr w -> kept w0 (fr_repo fr) (fr_id fr) (fr_calm fr) w.
Proof. intros. by exists fr. Qed.

Lemma close_kept w0 fr r generation e w : closePost w0 fr r generation e w -> kept w0 (fr_repo fr) (fr_id fr) (fr_calm fr) w.
Proof. intros (fr' & n & r' & E1 & E2 & E3 & Hw & _). by exists fr'. Qed.

(** Reading the record under the lock. *)
Lemma wpc_read_owned w0 fr (Q : result serr passportExecution -> World -> Prop) w : canonicalUUID (fr_id fr) = true ->
  owned w0 fr w ->
  (forall w' n r, owned w0 fr w' -> fr_file fr = Some (written n r) -> decodeExecution (written n r) = Ok r -> Q (Ok r) w') ->
  (forall w', owned w0 fr w' -> fr_file fr = None -> Q (Err ENotExist) w') ->
  (forall w' e, owned w0 fr w' -> e <> ENotExist -> Q (Err e) w') ->
  wpc (I w0) (readExecution (Mortal0 := workerMortal) (fileOf (fr_repo fr) (fr_id fr))) Q w.
Proof.
  intros Hid Hw Q1 Q2 Q3. apply (wpc_readExecution (owned w0 fr)); [by apply tolerates_owned|done|..|done].
  - intros w' f r Hw' Hf Hd. destruct (file_record w' _ f r (proj1 (ow_inv _ _ _ Hw')) Hf) as (n & m & -> & _);
      [by apply decodeExecution_Ok|]. apply (Q1 _ n); try done. by rewrite <- (ow_file _ _ _ Hw').
  - intros w' Hw' Hf. apply Q2; [done|]. by rewrite <- (ow_file _ _ _ Hw').
Qed.

Lemma wpc_createExecution w0 fr p session generation meta arm settle (Q : result serr passportExecution -> World -> Prop) w :
  canonicalUUID (fr_id fr) = true -> owned w0 fr w -> fr_file fr = None -> executionMetadata (ex_Comment p) = Ok meta ->
  fr_repo fr = ex_RepoID p -> fr_id fr = md_AcquisitionID meta ->
  (forall w' n r, owned w0 (setFrame fr (Some (written n r)) (fr_noAdm fr) (fr_births fr) (fr_clear fr)) w' ->
     pe_RepoID r = fr_repo fr -> (settle = true -> pe_State r = Closed) -> Q (Ok r) w') ->
  (forall w' e, kept w0 (fr_repo fr) (fr_id fr) (fr_calm fr) w' -> Q (Err e) w') ->
  wpc (I w0) (createExecution (Mortal0 := workerMortal) (fileOf (fr_repo fr) (fr_id fr)) p session generation meta arm settle) Q w.
Proof.
  intros Hid Hw Hf Hm E1 E2 Q1 Q2. pose proof (tolerates_owned w0 fr Hid) as Ht.
  unfold createExecution. apply (wpc_after (owned w0 fr) (I w0)); [by apply Pres_now|done|]. intros t w1 Hw1. cbv zeta.
  apply (wpc_after (owned w0 fr) (I w0)); [|done|].
  { destruct arm; [|apply Pres_ret]. apply Pres_bind; [by apply Pres_now|]. intros t1. destruct (After _ _); [apply Pres_ret|].
    apply Pres_bind; [by apply Pres_now|]. intros t2. apply Pres_ret. }
  intros early w2 Hw2. destruct early; [apply wpc_ret, Q2; by apply kept_owned|].
  set (r := newRecord _ _ _ _ _ _). apply wpc_bind.
  assert (HF : fileOf (fr_repo fr) (fr_id fr) = fileOf (pe_RepoID r) (md_AcquisitionID meta)) by (by rewrite E1, E2).
  assert (Hput : forall w' n, owned w0 fr w' ->
            owned w0 (setFrame fr (Some (written n r)) (fr_noAdm fr) (fr_births fr) (fr_clear fr))
              (put (fileOf (fr_repo fr) (fr_id fr)) n r w')).
  { intros w' n [B1 B2 B3 B4 B5 B6 B7]. split; [|done|apply put_eq|done..].
    rewrite HF. apply I_new; [done|done|]. by rewrite <- HF, B3. }
  apply (wpc_write (owned w0 fr)); [done|done|..].
  - intros w' e n Hw'. apply (Hput w' n) in Hw'. destruct e as [e|]; apply wpc_ret.
    + apply Q2. exact (kept_owned _ _ _ Hw').
    + apply (Q1 _ n); [done|by rewrite E1|]. intros ->. done.
  - intros w' e Hw'. apply wpc_ret, Q2. by apply kept_owned.
Qed.

(** The decision on a record that exists. *)
Definition boundDecision (file : string) (p : Execution) (session : Session) (generation : string) (arm : bool)
    (record : passportExecution) : MC World (option serr) :=
  if negb (bindsTo record p session) then ret (Some EDenied)
  else if arm then
    let* expired := (if bool_decide (pe_State record = Armed)
                     then let* t := now (Mortal0 := workerMortal) in ret (negb (Before t (pe_ExpiresAt record))) else ret false) in
    let record := if expired then withState Closed record else record in
    let* e := (if expired then atomicJSON (Mortal0 := workerMortal) file record else ret None) in
    orElse e (
      if negb (bool_decide (pe_RepositoryUUID record = generation)) || negb (bool_decide (pe_State record = Armed))
      then ret (Some EStale)
      else
        let* t := now (Mortal0 := workerMortal) in
        ret (if negb (Before t (pe_ExpiresAt record)) then Some EStale else None))
  else closeExecution (Mortal0 := workerMortal) file record generation.

Lemma wpc_bound w0 fr n r p session generation arm w : canonicalUUID (fr_id fr) = true -> owned w0 fr w ->
  fr_file fr = Some (written n r) -> fr_repo fr = ex_RepoID p ->
  (arm = false -> pe_State r = Closed \/ validateExecutionRecord r = None) ->
  wpc (I w0) (boundDecision (fileOf (fr_repo fr) (fr_id fr)) p session generation arm r)
    (fun _ => kept w0 (fr_repo fr) (fr_id fr) (fr_calm fr)) w.
Proof.
  intros Hid Hw Hf Hrepo Hv. unfold boundDecision. destruct (bindsTo r p session) eqn:Hb; cbn [negb];
    [|by apply wpc_ret, kept_owned].
  destruct arm.
  2: { eapply wpc_mono; [apply (wpc_closeExecution w0 fr n r); try done; [|by apply Hv]|].
       - unfold bindsTo in Hb. bool_to_prop. congruence.
       - intros e w' Hc. by eapply close_kept. }
  assert (Hrest : forall fr' rc w', fr_repo fr' = fr_repo fr -> fr_id fr' = fr_id fr -> fr_calm fr' = fr_calm fr -> owned w0 fr' w' ->
            wpc (I w0) (if negb (bool_decide (pe_RepositoryUUID rc = generation)) || negb (bool_decide (pe_State rc = Armed))
                        then ret (Some EStale)
                        else let* t := now (Mortal0 := workerMortal) in
                             ret (if negb (Before t (pe_ExpiresAt rc)) then Some EStale else None))
              (fun _ => kept w0 (fr_repo fr) (fr_id fr) (fr_calm fr)) w').
  { intros fr' rc w' E1 E2 E3 Hw'. rewrite <- E1, <- E2, <- E3. destruct (_ || _); [by apply wpc_ret, kept_owned|].
    apply (wpc_after (owned w0 fr') (I w0)); [|done|]; [apply Pres_now, tolerates_owned; congruence|].
    intros t w2 Hw2. by apply wpc_ret, kept_owned. }
  case_bool_decide as Harm; apply wpc_bind; [apply wpc_bind, (wpc_call (owned w0 fr)); [by apply tolerates_owned|done|]|].
  2: { apply wpc_ret. cbv zeta iota. apply wpc_bind, wpc_ret. cbn [orElse]. by apply (Hrest fr). }
  intros w1 Hw1. apply wpc_ret. cbv zeta. destruct (negb _); [|apply wpc_bind, wpc_ret; by apply (Hrest fr)].
  apply wpc_bind, (wpc_owned_write w0 fr n r); [done..| | |].
  - intros w2 Hw2. pose proof (ow_file _ _ _ Hw2) as Hk. rewrite Hf in Hk. pose proof (proj1 (ow_inv _ _ _ Hw2)) as Hi.
    destruct (file_record _ _ _ _ Hi Hk eq_refl) as (? & ? & _ & _ & _ & Hat).
    apply mayWrite_armed; [done| |apply advance_state; rewrite Harm; simpl; [lia|done]|done].
    intros rx Hx. by rewrite <- (recordAt_fun _ _ _ _ _ Hat Hx).
  - intros w2 e n2 Hw2. destruct e; cbn [orElse]; [apply wpc_ret; exact (kept_owned _ _ _ Hw2)|].
    eapply Hrest; [| | |exact Hw2]; done.
  - intros w2 e Hw2. apply wpc_ret. by apply kept_owned.
Qed.


Lemma wpc_handleLocked w0 p session generation meta arm c w :
  executionMetadata (ex_Comment p) = Ok meta -> free w0 c w -> lockOf (ex_RepoID p) (md_AcquisitionID meta) ∈ w_held w ->
  wpc (I w0) (handleLocked (Mortal0 := workerMortal) (fileOf (ex_RepoID p) (md_AcquisitionID meta)) p session generation meta arm)
    (fun _ => kept w0 (ex_RepoID p) (md_AcquisitionID meta) c) w.
Proof.
  intros Hm Hfree Hl. pose proof (executionMetadata_id _ _ Hm) as Hid. set (R := ex_RepoID p). set (id := md_AcquisitionID meta).
  pose proof (owned_start w0 R id c w Hfree Hl) as Hw. set (fr := startFrame R id c w) in Hw.
  unfold handleLocked. apply (wpc_after (owned w0 fr) (I w0)).
  { apply Pres_read; [by apply tolerates_owned|done]. } { done. }
  intros [e|] w1 Hw1; cbn [orElse]; [by apply wpc_ret; apply (kept_owned w0 fr)|].
  apply wpc_bind. change (fileOf R id) with (fileOf (fr_repo fr) (fr_id fr)).
  apply (wpc_read_owned w0 fr); [done|done|..].
  - intros w2 n r Hw2 Hf Hd. apply wpc_bind, wpc_ret. cbv beta iota. apply (wpc_bound w0 fr n); try done.
    intros _. right. by apply decodeExecution_Ok in Hd as [_ ?].
  - intros w2 Hw2 Hf. apply wpc_bind, (wpc_createExecution w0 fr); [done..| |].
    + intros w3 n r Hw3 Hr Hc. set (fr3 := setFrame _ _ _ _ _) in Hw3. apply (wpc_bound w0 fr3 n); [done|done|done|done|].
      intros ->. left. by apply Hc.
    + intros w3 e Hw3. by apply wpc_ret.
  - intros w2 e Hw2 He. destruct e; try done; apply wpc_bind, wpc_ret; apply wpc_ret; by apply (kept_owned w0 fr).
Qed.

End Proofs.
