(* ===== verification/ExecutionProps.v ===== *)
(** * ExecutionProps: what the acquisition gate guarantees

    The remaining operations of [Executions] preserve the invariant of
    [ExecutionProofs]; histories of the server; the theorems, and a concrete
    deployment in Module [GateDemo] for their witnesses. *)
From S2P Require Import Prelude GoStrings Passport ControlTickets ServerBase RealmRecords LockAuthority ServerHost.
From S2P Require Import Executions ExecutionWorld ExecutionProofs.
From Stdlib Require Import Ascii String.

Open Scope string_scope.
Open Scope go_scope.

#[local] Arguments fileOf : simpl never.
#[local] Arguments lockOf : simpl never.
#[local] Arguments executionMetadata : simpl never.
#[local] Arguments fenced : simpl never.
#[local] Arguments JoinPath : simpl never.

Section Operations.
  Context {ids : Ids} {codec : Comments} {tables : UnicodeTables} {wire : Wire World} {replies : Replies} {deployed : Site}.
  Hypothesis uuid_plain : forall id, canonicalUUID id = true -> id <> "" /\ hasByte id "/" = false.
  #[local] Existing Instance workerMortal.

(** ** Reading the canonical records changes nothing *)
Section Reads.
  Context (P D : World -> Prop) (Ht : tolerates P D).

Lemma Pres_client wc c : Pres P D (client wc c).
Proof. unfold client. pres. Qed.

Lemma Pres_realmActive wc r : Pres P D (realmActive wc r).
Proof. unfold realmActive, readRealmRecord. pres. Qed.

Lemma Pres_loadActiveRepository wc r : Pres P D (loadActiveRepository wc r).
Proof. unfold loadActiveRepository, validateRepositoryArchive. pres. Qed.

Lemma Pres_authorizeAccess wc s r b : Pres P D (authorizeAccess wc s r b).
Proof.
  unfold authorizeAccess. repeat first [apply Pres_client|apply Pres_realmActive|apply Pres_loadActiveRepository|progress pres].
Qed.

Lemma Pres_authorizePassportCleanup wc s : Pres P D (authorizePassportCleanup wc s).
Proof. unfold authorizePassportCleanup. repeat first [apply Pres_client|apply Pres_realmActive|progress pres]. Qed.

Lemma Pres_validRepo p : Pres P D (validRepo p).
Proof. unfold validRepo. pres. Qed.

Lemma Pres_lockGuardDirectory p : Pres P D (lockGuardDirectory p).
Proof. unfold lockGuardDirectory. repeat first [apply Pres_validRepo|progress pres]. Qed.

Lemma Pres_inspectHooks h e names : Pres P D (inspectHooks h e names).
Proof. induction names; simpl; unfold inspectHook; pres. Qed.

Lemma Pres_InspectLockGuards p e : Pres P D (InspectLockGuards p e).
Proof. unfold InspectLockGuards. repeat first [apply Pres_lockGuardDirectory|apply Pres_inspectHooks|progress pres]. Qed.

Lemma Pres_linkGuards h e states : Pres P D (linkGuards h e states).
Proof. induction states as [|[]]; simpl; pres. Qed.

(** Predicates that do not look at the file locks survive locking and unlocking. *)
Lemma Pres_withFileLock try p fn : (forall w h, P w -> P (setHeld h w)) -> Pres P D fn -> Pres P D (withFileLock try p fn).
Proof.
  intros Hh Hfn. unfold withFileLock. apply Pres_bind.
  - intros w Hw. apply (wpc_call P D); [done..|]. intros w' Hw'. simpl. repeat case_match; simpl; auto.
  - intros e. apply Pres_orElse, Pres_bind; [done|]. intros r. apply Pres_bind; [|intros; apply Pres_ret].
    intros w Hw. apply (wpc_call P D); [done..|]. intros w' Hw'. simpl. auto.
Qed.

Lemma Pres_InstallLockGuards p e : (forall w h, P w -> P (setHeld h w)) -> Pres P D (InstallLockGuards p e).
Proof.
  intros Hh. unfold InstallLockGuards, CheckLockGuardExecutable.
  apply Pres_bind; [pres|]. intros x. apply Pres_orElse, Pres_bind; [apply Pres_lockGuardDirectory|]. intros [hooks|]; [|pres].
  apply Pres_withFileLock; [done|]. apply Pres_bind; [apply Pres_InspectLockGuards|]. intros [states|]; [|pres].
  destruct (existsb _ _); [pres|apply Pres_linkGuards].
Qed.

Lemma Pres_guardsReady d repo : (forall w h, P w -> P (setHeld h w)) -> Pres P D (guardsReady d repo).
Proof.
  intros Hh. unfold guardsReady, checkExecutionGuardExecutable. cbv zeta.
  apply Pres_bind; [pres|]. intros [e|]; [pres|]. apply Pres_bind; [apply Pres_InspectLockGuards|].
  intros [states|e]; [|pres]. apply Pres_bind; [|intros ?; pres]. destruct (lockGuardsMissing states); [|pres].
  apply Pres_bind; [by apply Pres_InstallLockGuards|]. intros [e|]; [pres|apply Pres_InspectLockGuards].
Qed.

Lemma Pres_failure t k : Pres P D (failure t k).
Proof. unfold failure, now. pres. Qed.

Lemma Pres_success t p c s : Pres P D (success t p c s).
Proof. unfold success, now. pres. Qed.

End Reads.

(** ** Under an acquisition's lock *)
Lemma free_held w0 c w h : free w0 c w -> free w0 c (setHeld h w).
Proof. intros [HI Hc]. split; [by apply (I_same w0 w)|done]. Qed.

Lemma kept_free w0 repoID id c w h : kept w0 repoID id c w -> free w0 c (setHeld h w).
Proof.
  intros (fr & _ & _ & <- & [B1 B2 B3 B4 B5 B6 B7]). split; [by apply (I_same w0 w)|done].
Qed.

Lemma Pres_locked w0 c try repoID id fn :
  (forall w, free w0 c w -> lockOf repoID id ∈ w_held w -> canonicalUUID id = true ->
     wpc (I w0) (fn (fileOf repoID id)) (fun _ => kept w0 repoID id c) w) ->
  Pres (free w0 c) (I w0) (withExecutionLocker try (repoDir repoID) id fn).
Proof.
  intros Hfn w Hw. apply (wpc_withExecution (free w0 c) (I w0)); [by apply (tolerates_free uuid_plain)| |done|done].
  intros Hid w1 Hw1 Hnot. cbv zeta. eapply wpc_mono.
  - apply Hfn; [by apply free_held| |done]. simpl. apply elem_of_union. left. by apply elem_of_singleton.
  - intros e w2 (fr & E1 & E2 & E3 & Hw2). exists (owned w0 fr). split_and!; [apply (tolerates_owned uuid_plain); congruence|done|].
    intros w3 Hw3. eapply kept_free. exists fr. split_and!; [exact E1|exact E2|exact E3|exact Hw3].
Qed.

Lemma wpc_expireLocked w0 c repoID id path lock generation w : free w0 c w -> lockOf repoID id ∈ w_held w ->
  canonicalUUID id = true ->
  wpc (I w0) (expireLocked (fileOf repoID id) repoID path lock generation) (fun _ => kept w0 repoID id c) w.
Proof.
  intros Hfree Hl Hid. pose proof (owned_start w0 repoID id c w Hfree Hl) as Hw. set (fr := startFrame repoID id c w) in Hw.
  unfold expireLocked. apply wpc_bind. change (fileOf repoID id) with (fileOf (fr_repo fr) (fr_id fr)).
  apply (wpc_read_owned uuid_plain w0 fr); [done|done|..]; try (intros; apply wpc_ret; by apply (kept_owned w0 fr)).
  intros w1 n r Hw1 Hf Hd. destruct (negb _) eqn:Hb; [apply wpc_ret; by apply (kept_owned w0 fr)|].
  apply negb_false_iff in Hb. bool_to_prop.
  apply (wpc_after (owned w0 fr) (I w0)); [by apply Pres_now, (tolerates_owned uuid_plain)|done|]. intros t w2 Hw2.
  destruct (Before _ _); [apply wpc_ret; by apply (kept_owned w0 fr)|].
  eapply wpc_mono; [apply (wpc_closeExecution uuid_plain w0 fr n r); try done; right; by apply decodeExecution_Ok in Hd as [_ ?]|].
  intros e w3 Hc. by apply (close_kept w0 fr) in Hc.
Qed.

Lemma wpc_reapLocked w0 c repoID id w : free w0 c w -> lockOf repoID id ∈ w_held w -> canonicalUUID id = true ->
  wpc (I w0) (reapLocked (repoDir repoID) repoID id (fileOf repoID id)) (fun _ => kept w0 repoID id c) w.
Proof.
  intros Hfree Hl Hid. pose proof (owned_start w0 repoID id c w Hfree Hl) as Hw. set (fr := startFrame repoID id c w) in Hw.
  assert (Ht : tolerates (owned w0 fr) (I w0)) by (by apply (tolerates_owned uuid_plain)).
  assert (Hend : forall (e : option serr) w', owned w0 fr w' -> wpc (I w0) (ret e) (fun _ => kept w0 repoID id c) w').
  { intros e w' Hw'. apply wpc_ret. by apply (kept_owned w0 fr). }
  unfold reapLocked. apply wpc_bind. change (fileOf repoID id) with (fileOf (fr_repo fr) (fr_id fr)).
  apply (wpc_read_owned uuid_plain w0 fr); [done|done| |by intros; apply Hend..].
  intros w1 n r Hw1 Hf Hd. cbv zeta. destruct (_ || _) eqn:Hb; [by apply Hend|].
  apply orb_false_iff in Hb as [Hb _]. bool_to_prop.
  case_bool_decide as Hst; [by apply Hend|].
  assert (Hclose : forall g w', owned w0 fr w' -> wpc (I w0) (closeExecution (fileOf (fr_repo fr) (fr_id fr)) r g) (fun _ => kept w0 repoID id c) w').
  { intros g w' Hw'. eapply wpc_mono.
    - apply (wpc_closeExecution uuid_plain w0 fr n r); try done. right. by apply decodeExecution_Ok in Hd as [_ ?].
    - intros e w2 Hc. by apply (close_kept w0 fr) in Hc. }
  apply (wpc_after (owned w0 fr) (I w0)); [|done|].
  { case_bool_decide; [apply Pres_ret|]. apply Pres_bind; [by apply Pres_now|]. intros t. apply Pres_ret. }
  intros waiting w2 Hw2. destruct waiting; [by apply Hend|].
  apply (wpc_after (owned w0 fr) (I w0)); [by apply Pres_executionRepositoryUUID|done|].
  intros [g|e] w3 Hw3; [by apply Hclose|].
  apply (wpc_after (owned w0 fr) (I w0)); [by apply Pres_read|done|].
  intros [i|e'] w4 Hw4; [by apply Hend|]. destruct e'; try by apply Hend. by apply Hclose.
Qed.

(** ** Whole operations *)
Lemma repositoryPath_dir repoID path repo : repositoryPath (d_Locks site) repoID path = Ok repo -> repo = repoDir repoID.
Proof. unfold repositoryPath, repoDir. repeat case_match; naive_solver. Qed.

Section Whole.
  Context (w0 : World) (c : bool).
  #[local] Notation PresI := (Pres (free w0 c) (I w0)).

Lemma Ht_free : tolerates (free w0 c) (I w0).
Proof. by apply (tolerates_free uuid_plain). Qed.

Lemma Pres_unlock repoID path holder tok : PresI (ServerBase.ask (lk_unlock repoID path holder tok)).
Proof.
  intros w Hw. apply (wpc_call (free w0 c) (I w0)); [apply Ht_free|done|]. intros w' [HI Hc].
  assert (Hdel : free w0 c (setLocks (delete (repoID, path) (w_locks w')) w')).
  { split; [|done]. apply (I_aside w0 w'); try done. simpl. intros k l ?%lookup_delete_Some. naive_solver. }
  simpl. unfold effectful. repeat case_match; simpl; done.
Qed.

Lemma Pres_ExpirePath repoID path : PresI (ExpirePath site repoID path).
Proof.
  unfold ExpirePath. apply Pres_bind; [apply Pres_read; [apply Ht_free|done]|]. intros [[lock|]|e]; [|apply Pres_ret..].
  destruct (ParseComment _) as [meta|]; [|apply Pres_ret]. destruct (negb _); [apply Pres_ret|].
  apply Pres_bind; [apply Pres_now, Ht_free|]. intros t. apply Pres_bind.
  { destruct (Before _ _); [|apply Pres_ret]. apply Pres_bind; [apply Pres_now, Ht_free|]. intros ?. apply Pres_ret. }
  intros live. destruct live; [apply Pres_ret|]. case_bool_decide; [apply Pres_unlock|].
  destruct (repositoryPath _ _ _) as [repo|] eqn:Hr; [|apply Pres_ret]. apply repositoryPath_dir in Hr as ->.
  apply Pres_bind; [apply Pres_executionRepositoryUUID, Ht_free|]. intros [g|]; [|apply Pres_ret].
  apply Pres_locked. intros. by apply wpc_expireLocked.
Qed.

Lemma Pres_handleAcquisition session t p : PresI (handleAcquisition site session t p (repoDir (ex_RepoID p))).
Proof.
  unfold handleAcquisition. cbv zeta. destruct (executionMetadata _) as [meta|] eqn:Hm; [|apply Pres_failure, Ht_free].
  destruct (_ && _); [apply Pres_failure, Ht_free|]. apply Pres_bind.
  { case_bool_decide; [apply Pres_guardsReady; [apply Ht_free|apply free_held]|apply Pres_ret]. }
  intros []; cbn [negb]; [|apply Pres_failure, Ht_free].
  apply Pres_bind; [apply Pres_executionRepositoryUUID, Ht_free|]. intros [g|]; [|apply Pres_ret].
  apply Pres_bind.
  { apply Pres_locked. intros w Hw Hl Hid. by apply (wpc_handleLocked uuid_plain). }
  intros [e|]; [|apply Pres_success, Ht_free]. repeat case_match; apply Pres_ret || apply Pres_failure, Ht_free.
Qed.

Lemma Pres_Handle session t : PresI (Handle site session t).
Proof.
  unfold Handle. destruct (validateSession _); [apply Pres_ret|]. destruct (validateTicket _); [apply Pres_ret|].
  case_bool_decide; cbn [negb]; [|apply Pres_ret]. destruct (isExecutionType _); cbn [negb]; [|apply Pres_ret].
  destruct (decodeStrict _ _) as [p|]; [|apply Pres_ret]. apply Pres_bind.
  { case_bool_decide; [apply Pres_authorizePassportCleanup, Ht_free|apply Pres_authorizeAccess, Ht_free]. }
  intros [e|]; [apply Pres_failure, Ht_free|].
  destruct (repositoryPath _ _ _) as [repo|] eqn:Hr; [|apply Pres_ret]. apply repositoryPath_dir in Hr as ->.
  case_bool_decide; [|apply Pres_handleAcquisition].
  apply Pres_bind; [apply Pres_ExpirePath|]. intros [e|]; [apply Pres_ret|apply Pres_success, Ht_free].
Qed.

Lemma Pres_reapEntries repoID entries failures : PresI (reapEntries (repoDir repoID) repoID entries failures).
Proof.
  revert failures. induction entries as [|[name isDir] rest IH]; intros failures; simpl; [apply Pres_ret|].
  apply Pres_bind; [apply Pres_read; [apply Ht_free|done]|]. intros [e|]; [apply Pres_ret|].
  destruct (HasSuffix _ _); cbn [negb]; [|done]. apply Pres_bind; [|done].
  apply Pres_locked. intros. by apply wpc_reapLocked.
Qed.

Lemma Pres_ReapRepository repoID : PresI (ReapRepository site repoID).
Proof.
  unfold ReapRepository. destruct (repositoryPath _ _ _) as [repo|] eqn:Hr; [|apply Pres_ret].
  apply repositoryPath_dir in Hr as ->. apply Pres_bind; [apply Pres_read; [apply Ht_free|done]|].
  intros [files|e]; [apply Pres_reapEntries|]. case_match; apply Pres_ret.
Qed.

Lemma Pres_reapRepositories dirs failures : PresI (reapRepositories site dirs failures).
Proof.
  revert failures. induction dirs as [|[name isDir] rest IH]; intros failures; simpl; [apply Pres_ret|].
  apply Pres_bind; [apply Pres_read; [apply Ht_free|done]|]. intros [e|]; [apply Pres_ret|].
  destruct isDir; cbn [negb]; [|done]. apply Pres_bind; [apply Pres_ReapRepository|done].
Qed.

Lemma Pres_Reap : PresI (Reap site).
Proof.
  unfold Reap. cbv zeta. apply Pres_bind; [apply Pres_read; [apply Ht_free|done]|].
  intros [info|e]; [|case_match; try apply Pres_ret; by apply Pres_read; [apply Ht_free|]].
  destruct (privateDir info); cbn [negb]; [|apply Pres_ret].
  apply Pres_bind; [apply Pres_read; [apply Ht_free|done]|].
  intros [dirs|e]; [apply Pres_reapRepositories|]. case_match; apply Pres_ret.
Qed.

End Whole.

(** ** Histories *)
Lemma Pres_snd {A} w0 (m : MC World A) w : Pres (free w0 false) (I w0) m -> I w0 w -> I w0 (snd (m w)).
Proof.
  intros Hm HI. assert (Hf : free w0 false w) by done. specialize (Hm w Hf). unfold wpc in Hm.
  destruct (m w) as [[a|] w']; [by destruct Hm|done].
Qed.

Lemma step_ok w0 w w' : I w0 w -> step w w' -> I w0 w'.
Proof.
  intros HI Hs. destruct Hs as [e|o sched].
  - apply (happen_ok uuid_plain w0 _ e). by apply (I_same w0 w).
  - destruct o; simpl; (apply Pres_snd; [first [apply Pres_Handle|apply Pres_ExpirePath|apply Pres_Reap]|by apply (I_same w0 w)]).
Qed.

Lemma I_refl w : Inv w -> I w w.
Proof. intros Hi. split; [done|]. split; [intros key f Hk; exists f; split; [done|by left]|intros b Hb; by left]. Qed.

Lemma Inv_initial uuids : Inv (initial uuids).
Proof.
  split; simpl; try done; try (intros b Hb; by apply elem_of_nil in Hb). apply NoDup_nil. done.
Qed.

Lemma reachable_Inv w : reachable w -> Inv w.
Proof.
  intros (uuids & Hr). assert (H : I (initial uuids) w); [|by destruct H].
  refine (rtc_ind_r (I (initial uuids)) _ _ _ w Hr); [by apply I_refl, Inv_initial|]. intros y z _ Hs IH. by eapply step_ok.
Qed.

Lemma history_I w w' : reachable w -> rtc step w w' -> I w w'.
Proof.
  intros Hw Hr. apply reachable_Inv in Hw.
  refine (rtc_ind_r (I w) _ _ _ w' Hr); [by apply I_refl|]. intros y z _ Hs IH. by eapply step_ok.
Qed.

End Operations.

(** ** A concrete deployment *)
Module GateDemo.

Definition hexHyphen (c : ascii) : bool :=
  ((0x30 <=? byte c) && (byte c <=? 0x39))%Z || ((0x61 <=? byte c) && (byte c <=? 0x66))%Z || Ascii.eqb c "-".

#[export] Instance ids : Ids := {|
  isUUID id := negb (bool_decide (id = "")) && allb hexHyphen id;
  uuidString id := id
|}.

Definition meta : Metadata := Meta "ac-1" "ba-1" "ca-1" "" "" 10%Z 1000%Z 2000%Z.

#[export] Instance codec : Comments := {|
  marshalMeta _ := "m";
  unmarshalMeta s := if bool_decide (s = "m") then Some meta else None
|}.

Definition comment : string := FormatComment meta.

#[export] Instance tables : UnicodeTables := {| u_lower := id; u_upper := id; u_format _ := false |}.

#[export] Instance wire : Wire World := {|
  x_marshalExecution := ex_Comment;
  x_marshalReplacement := rp_Mode;
  x_marshalTicket _ := None;
  x_marshalCancel _ := None;
  x_execution _ := Some (Exec "e-1" "a.dwg" comment);
  x_replacement _ := None;
  x_cancel _ := None;
  x_executionResult raw := Some (ExecResult "e-1" "a.dwg" comment raw);
  x_replacementResult _ := None;
  x_cancelResult _ := None;
  x_isUUID := isUUID;
  x_sha1UUID s := s;
  x_parseTime _ := Some 1%Z;
  x_formatTime _ := "t";
  x_otherTicket _ := None;
  x_otherResult _ := None;
  x_inCatalogue _ _ := true;
  x_newUUID w := ("", w);
  x_ctxErr w := (None, w);
  x_wallNow w := (1%Z, w);
  x_exchange := None
|}.

#[export] Instance replies : Replies := {|
  y_executionResult r := Some (er_State r);
  y_replacementResult _ := None;
  y_cancelResult _ := None
|}.

#[export] Instance deployed : Site := {|
  site := Deploy "/wc" (MkAdmin "/svnadmin" "/repos") "/guard";
  site_normalizeBranding s := Ok s;
  site_validateRelease _ _ := None;
  site_encodedSize _ := 600%Z
|}.

Definition session : Session :=
  Sess "d-1" "f-1" [Repo "e-1" "" "" "rw" "active" "" "" "" "" "" ""].
Definition ticket (typ : string) : Ticket := Passport.Tick "filees.control/v1" "0-1" "0-2" typ "d-1" "t" "{}".

(** The host's answers: everything is in order at time [t]. *)
Definition good (t : Time) (info : fileInfo) (text : string) : answers :=
  Answers false None false t false None (Ok info) (Ok text) (Ok [])
    (Ok (Client ClientSchema "d-1" "f-1" "active"))
    (Ok (Realm RealmSchema "f-1" "active" "" "" None))
    (Ok (RepoRec RepositorySchema "e-1" "f-1" "" "" "active" 1%Z "" "" "" None))
    (Err ENotExist).

Definition dir : fileInfo := FI true true false 0x1C0%Z.
Definition link : fileInfo := FI false false true 0x1FF%Z.
Definition plain (t : Time) : tick := Tick_ [] (good t dir "").
Definition says (t : Time) (text : string) : tick := Tick_ [] (good t dir text).
Definition linked (t : Time) : tick := Tick_ [] (good t link "/guard").
Definition meanwhile (es : list event) (t : Time) : tick := Tick_ es (good t dir "").

Definition armSchedule (t : Time) : list tick :=
  (replicate 3 (plain t) ++ [says t newlineOutput] ++ replicate 4 (plain t) ++ [linked t; linked t; linked t; linked t]
   ++ replicate 26 (plain t))%list.

Definition start : World := initial {[ "/repos/e-1/db/uuid" := "e-9" ]}.
Definition armed : World := runOperation (OpHandle session (ticket TicketArm)) (setHeld ∅ (setSched (armSchedule 20%Z) start)).

Definition executor : Z := 77%Z.
Definition hook : event := EvHook "e-1" "a.dwg" "d-1" comment executor 21%Z (replicate 20 (good 21%Z dir "")).
Definition admitted : World := happen hook (setHeld ∅ (happen (EvSpawn executor) (setHeld ∅ armed))).

(** The executor takes its lock and exits between the inspection and the probe. *)
Definition race (t : Time) : list tick :=
  (replicate 17 (plain t) ++ [meanwhile [EvLock executor; EvExit executor] t] ++ replicate 4 (plain t))%list.
Definition settle (sched : list tick) (w : World) : option (result serr Result) * World :=
  Handle (Mortal0 := workerMortal) site session (ticket TicketSettle) (setHeld ∅ (setSched sched w)).
Definition stranded : World :=
  runOperation (OpHandle session (ticket TicketSettle)) (setHeld ∅ (setSched (race 22%Z) admitted)).
(** Long after the hard deadline, with nothing in the way. *)
Definition late : list tick := replicate 40 (plain 5000%Z).
Definition expired : option (option serr) * World :=
  ExpirePath (Mortal0 := workerMortal) site "e-1" "a.dwg" (setHeld ∅ (setSched late stranded)).
Definition took : World := happen (EvLock executor) (setHeld ∅ admitted).
Definition file : string := fileOf "e-1" "ac-1".

Lemma ids_plain id : canonicalUUID id = true -> id <> "" /\ hasByte id "/" = false.
Proof.
  unfold canonicalUUID. simpl. intros Hc. bool_to_prop. split; [done|]. by apply (allb_hasByte hexHyphen).
Qed.

Lemma step_armed : step start armed.
Proof. unfold armed. apply step_operation. Qed.

Lemma step_spawned : step armed (happen (EvSpawn executor) (setHeld ∅ armed)).
Proof. apply step_event. Qed.

Lemma step_admitted : step (happen (EvSpawn executor) (setHeld ∅ armed)) admitted.
Proof. unfold admitted. apply step_event. Qed.

Lemma step_took : step admitted took.
Proof. unfold took. apply step_event. Qed.

Lemma step_stranded : step admitted stranded.
Proof. unfold stranded. apply step_operation. Qed.

Lemma reachable_step w w' : reachable w -> step w w' -> reachable w'.
Proof. intros (u & Hr) Hs. exists u. by eapply rtc_r. Qed.

Lemma reachable_armed : reachable armed.
Proof. apply (reachable_step start); [|exact step_armed]. eexists. apply rtc_refl. Qed.

Lemma reachable_admitted : reachable admitted.
Proof. exact (reachable_step _ _ (reachable_step _ _ reachable_armed step_spawned) step_admitted). Qed.

Lemma reachable_took : reachable took.
Proof. exact (reachable_step _ _ reachable_admitted step_took). Qed.

Lemma reachable_stranded : reachable stranded.
Proof. exact (reachable_step _ _ reachable_admitted step_stranded). Qed.

Lemma armed_to_stranded : rtc step armed stranded.
Proof. exact (rtc_l _ _ _ _ step_spawned (rtc_l _ _ _ _ step_admitted (rtc_once _ _ step_stranded))). Qed.

End GateDemo.

(** ** The theorems *)
Section Theorems.
  Context {ids : Ids} {codec : Comments} {tables : UnicodeTables} {wire : Wire World} {replies : Replies} {deployed : Site}.

(** An acquisition record only moves forward.  Along every history of control
    requests, reaper passes, hook admissions and acts of the rest of the server,
    each call failing or killing its process at will, the record in a file keeps
    its binding (repository, generation, client, realm, path, comment, expiry),
    its state never steps back along armed, started, closing, closed, executor and
    observed token are written once, and a closed record never changes again. *)
Theorem acquisition_record_advances w w' file f r :
  (forall id, canonicalUUID id = true -> id <> "" /\ hasByte id "/" = false) ->
  reachable w -> rtc step w w' -> w_files w !! file = Some f -> xf_record f = Some r ->
  exists f' r', w_files w' !! file = Some f' /\ xf_record f' = Some r' /\ advance r r'.
Proof.
  intros Hu Hw Hr Hf Hx. destruct (history_I Hu w w' Hw Hr) as (_ & Ha & _).
  destruct (Ha file f Hf) as (f' & Hf' & [->|(r1 & r2 & E1 & E2 & Hadv)]).
  - exists f, r. eauto using advance_refl.
  - simplify_eq. exists f', r2. done.
Qed.

(** C3. An acquisition takes at most one lock.  In every reachable state of the
    server no acquisition has given birth to two locks; every standing lock with an
    acquisition comment is one of those births; and each birth belongs to a record
    that names its executor and is past the armed state. *)
Theorem one_lock_per_acquisition w :
  (forall id, canonicalUUID id = true -> id <> "" /\ hasByte id "/" = false) ->
  reachable w ->
  NoDup ((fun b => (bi_RepoID b, bi_Comment b)) <$> w_births w) /\
  (forall repoID path l, w_locks w !! (repoID, path) = Some l -> fenced (al_Comment l) = true ->
     Birth repoID (al_Comment l) (al_Token l) ∈ w_births w) /\
  (forall b, b ∈ w_births w -> exists r, recordAt w (bi_RepoID b) (bi_Comment b) r /\
     (1 < pe_ExecutorPID r)%Z /\ pe_State r <> Armed).
Proof.
  intros Hu Hw. pose proof (reachable_Inv Hu w Hw) as Hi. split_and!.
  - apply (inv_unique _ Hi).
  - intros. by eapply inv_locks.
  - intros b Hb. destruct (inv_birth _ Hi b Hb) as (r & ? & ? & ? & _). eauto.
Qed.

(** C19. Closed is a fence: once the record of an acquisition is closed, no process
    holds an unused admission for it and no lock is ever created under it again,
    whatever the server does afterwards. *)
Theorem closed_acquisition_takes_no_lock w w' repoID comment r :
  (forall id, canonicalUUID id = true -> id <> "" /\ hasByte id "/" = false) ->
  reachable w -> recordAt w repoID comment r -> pe_State r = Closed -> rtc step w w' ->
  noAdmission w' repoID comment /\
  (forall b, b ∈ w_births w' -> bi_RepoID b = repoID -> bi_Comment b = comment -> b ∈ w_births w).
Proof.
  intros Hu Hw Hat Hst Hr. destruct (history_I Hu w w' Hw Hr) as (Hi & Ha & Hb). split.
  - intros pid a Hp E1 E2. destruct (inv_admission _ Hi _ _ Hp) as (_ & r' & (m' & n' & Hm' & Hk' & _) & _ & _ & _ & _ & Hst' & _).
    rewrite E1, E2 in *. destruct Hat as (m & n & Hm & Hk & _). assert (m' = m) as -> by congruence.
    destruct (Ha _ _ Hk) as (f' & Hf' & Hadv). rewrite Hk' in Hf'. injection Hf' as <-.
    destruct Hadv as [E|(r1 & r2 & [= <-] & [= <-] & (_ & _ & _ & _ & Hcl))].
    + injection E as _ ->. rewrite Hst in Hst'. by destruct Hst'.
    + rewrite (Hcl Hst), Hst in Hst'. by destruct Hst'.
  - intros b Hbb E1 E2. destruct (Hb b Hbb) as [?|Hn]; [done|]. rewrite E1, E2 in Hn. by destruct (Hn r Hat).
Qed.


End Theorems.

(** The witnesses: one acquisition of the demonstration deployment. *)
Import GateDemo.

Lemma acquisition_record_advances_witness :
  exists f' r', w_files stranded !! file = Some f' /\ xf_record f' = Some r' /\
    advance (PExec executionSchema "e-1" "e-9" "d-1" "f-1" "a.dwg" comment Armed 0%Z "" 1000%Z) r'.
Proof.
  apply (acquisition_record_advances armed stranded file
           (ExecFile 600 (Some true) (Some (PExec executionSchema "e-1" "e-9" "d-1" "f-1" "a.dwg" comment Armed 0%Z "" 1000%Z)))).
  - exact ids_plain.
  - exact reachable_armed.
  - exact armed_to_stranded.
  - vm_compute. reflexivity.
  - reflexivity.
Defined.

Lemma one_lock_per_acquisition_witness :
  w_births took = [Birth "e-1" comment (token 0)] /\
  NoDup ((fun b => (bi_RepoID b, bi_Comment b)) <$> w_births took).
Proof.
  split; [vm_compute; reflexivity|].
  exact (proj1 (one_lock_per_acquisition took ids_plain reachable_took)).
Defined.

Lemma closed_acquisition_takes_no_lock_witness : noAdmission stranded "e-1" comment.
Proof.
  refine (proj1 (closed_acquisition_takes_no_lock stranded stranded "e-1" comment
                   (PExec executionSchema "e-1" "e-9" "d-1" "f-1" "a.dwg" comment Closed executor "" 1000%Z)
                   ids_plain reachable_stranded _ eq_refl (rtc_refl _ _))).
  exists meta, 600%Z. split_and!; vm_compute; reflexivity.
Defined.


(** An example of why the schedule of [closing_releases_lock] must hold no lock
    event: the hook admitted the executor, which takes its lock and exits between
    the inspection and the liveness probe of a settlement.  The client is told the
    acquisition is closed, the lock stands, and an expiry pass long after the hard
    deadline succeeds without releasing it. *)
Example settled_lock_may_be_stranded :
  reachable admitted /\
  (exists answer, fst (settle (race 22%Z) admitted) = Some (Ok answer) /\ rs_Status answer = "ok" /\ rs_Result answer = "closed") /\
  w_locks stranded !! ("e-1", "a.dwg") = Some (AdminLock "/a.dwg" (token 0) "d-1" comment) /\
  fst expired = Some None /\ w_locks (snd expired) = w_locks stranded.
Proof.
  split; [exact reachable_admitted|]. split; [eexists; vm_compute; split_and!; reflexivity|].
  split_and!; vm_compute; reflexivity.
Qed.
