(* ===== verification/Supervisor.v ===== *)
(** * Supervisor: reconciling server projections with live pipelines

    Models src/pkg/reposupervisor: [Module Supervisor] is supervisor.go, whose
    mutex makes every method one atomic step over the supervisor's maps;
    [Module Managed] is instance.go, whose goroutines are a step relation.

    The starter and the instances it returns are the class [Starter] over an
    arbitrary world; each call into it is recorded in a trace, newest first. *)
From S2P Require Import Prelude GoStrings.
From Stdlib Require Import Ascii String.

Open Scope string_scope.
Open Scope go_scope.

Module Supervisor.

Record Key := MkKey { ServerID : string; RepoID : string }.

#[export] Instance Key_eq_dec : EqDecision Key.
Proof. solve_decision. Defined.

#[export] Instance Key_countable : Countable Key.
Proof.
  refine (inj_countable' (fun k => (ServerID k, RepoID k)) (fun p => MkKey (fst p) (snd p)) _).
  by intros [].
Defined.

Definition KeyString (k : Key) : string := ServerID k ++ "/" ++ RepoID k.

Record Desired := MkDesired {
  d_Key : Key;
  d_Access : string;
  d_State : string;
  d_URL : string;
  d_DisplayName : string;
  d_EditingPolicy : string;
  d_SessionTimeout : Duration
}.

(** An instance is known by the number the world gives it. *)
Definition Instance_ := nat.

Inductive err :=
| EKeyInvalid | EServerRequired | EArgs | ELocalGeneration | EStaleGeneration
| EProjectionKey | EAccess | EState | EDuplicated
| EStop (k : Key) (e : nat) | EStart (k : Key) (e : nat).

Class Starter (W : Type) := {
  start : Desired -> W -> result nat Instance_ * W;
  stop : Instance_ -> W -> option nat * W
}.

Record live := Live { l_desired : Desired; l_instance : Instance_ }.

Inductive event :=
| Started (k : Key) (d : Desired) (i : Instance_)
| StopTried (k : Key) (i : Instance_) (ok : bool)
| Transition (d : Desired)
| Emitted (k : Key) (action access : string).

Record t (W : Type) := Sup {
  generation : gmap string Z;
  lives : gmap Key live;
  world : W;
  trace : list event
}.
Arguments Sup {W}. Arguments generation {W}. Arguments lives {W}. Arguments world {W}. Arguments trace {W}.

Definition keyLe (a b : Key) : Prop := String.le (KeyString a) (KeyString b).
#[export] Instance keyLe_dec : RelDecision keyLe := fun a b => String.le_dec (KeyString a) (KeyString b).

Section Methods.
  Context {W : Type} `{!Starter W}.
  Notation S := (t W).
  (** Whether the daemon listens to events ([onEvent != nil]). *)
  Variable onEvent : bool.

Definition getLive : M S (gmap Key live) := fun s => (lives s, s).
Definition getGeneration (server : string) : M S Z := fun s => (default 0%Z (generation s !! server), s).
Definition setLive (k : Key) (l : live) : M S unit := fun s =>
  (tt, Sup (generation s) (<[k := l]> (lives s)) (world s) (trace s)).
Definition dropLive (k : Key) : M S unit := fun s =>
  (tt, Sup (generation s) (delete k (lives s)) (world s) (trace s)).
Definition setGeneration (server : string) (g : Z) : M S unit := fun s =>
  (tt, Sup (<[server := g]> (generation s)) (lives s) (world s) (trace s)).
Definition log (e : event) : M S unit := fun s =>
  (tt, Sup (generation s) (lives s) (world s) (e :: trace s)).

Definition emit (k : Key) (action access : string) : M S unit :=
  if onEvent then log (Emitted k action access) else mret_st tt.

(** [instance.Stop]: the attempt and its outcome are recorded. *)
Definition stopInstance (k : Key) (i : Instance_) : M S (option nat) := fun s =>
  let '(e, w) := stop i (world s) in
  (e, Sup (generation s) (lives s) w (StopTried k i (match e with None => true | Some _ => false end) :: trace s)).

(** [starter.Start]; a failed start leaves no instance. *)
Definition startInstance (k : Key) (d : Desired) : M S (result nat Instance_) := fun s =>
  let '(r, w) := start d (world s) in
  (r, Sup (generation s) (lives s) w (match r with Ok i => Started k d i :: trace s | Err _ => trace s end)).

Definition serverKeys (serverID : string) (next : gmap Key Desired) : M S (list Key) :=
  let! l := getLive in
  mret_st (merge_sort keyLe (elements (dom next ∪ filter (fun k => ServerID k = serverID) (dom l)))).

(** The validation loop of [applyLocked]. *)
Fixpoint collect (serverID : string) (next : gmap Key Desired) (desired : list Desired) : result err (gmap Key Desired) :=
  match desired with
  | [] => Ok next
  | d :: rest =>
      if negb (bool_decide (ServerID (d_Key d) = serverID)) || bool_decide (RepoID (d_Key d) = "") then Err EProjectionKey
      else if negb (bool_decide (d_Access d = "r")) && negb (bool_decide (d_Access d = "rw")) then Err EAccess
      else if negb (bool_decide (d_State d = "initializing")) && negb (bool_decide (d_State d = "active"))
              && negb (bool_decide (d_State d = "disabled")) && negb (bool_decide (d_State d = "revoked")) then Err EState
      else match next !! d_Key d with
           | Some _ => Err EDuplicated
           | None => collect serverID (<[d_Key d := d]> next) rest
           end
  end.

Definition unchanged (old wanted : Desired) : bool :=
  bool_decide (d_Access old = d_Access wanted) && bool_decide (d_URL old = d_URL wanted)
  && bool_decide (d_EditingPolicy old = d_EditingPolicy wanted)
  && bool_decide (d_SessionTimeout old = d_SessionTimeout wanted).

Definition active (w : option Desired) : bool :=
  match w with Some d => bool_decide (d_State d = "active") | None => false end.

(** Start the wanted pipeline, once the old one is out of the way. *)
Definition startWanted (k : Key) (wanted : option Desired) : M S (option err) :=
  match wanted with
  | Some d =>
      if active wanted then
        let! r := startInstance k d in
        match r with
        | Err e => mret_st (Some (EStart k e))
        | Ok i => do! setLive k (Live d i); do! emit k "started" (d_Access d); mret_st None
        end
      else mret_st None
  | None => mret_st None
  end.

(** One iteration of the reconciliation loop. *)
Definition reconcile (transition : bool) (next : gmap Key Desired) (k : Key) : M S (option err) :=
  let! l := getLive in
  let wanted := next !! k in
  let replace : M S (option err) :=
    do! (match wanted with Some d => if transition then log (Transition d) else mret_st tt | None => mret_st tt end);
    startWanted k wanted in
  match l !! k with
  | None => replace
  | Some old =>
      if match wanted with Some w => active wanted && unchanged (l_desired old) w | None => false end then
        match wanted with
        | Some w => do! setLive k (Live w (l_instance old)); mret_st None
        | None => mret_st None
        end
      else
        let! e := stopInstance k (l_instance old) in
        match e with
        | Some e => mret_st (Some (EStop k e))
        | None => do! dropLive k; do! emit k "stopped" (d_Access (l_desired old)); replace
        end
  end.

Fixpoint reconcileAll (transition : bool) (next : gmap Key Desired) (keys : list Key) : M S (option err) :=
  match keys with
  | [] => mret_st None
  | k :: rest =>
      let! e := reconcile transition next k in
      match e with Some e => mret_st (Some e) | None => reconcileAll transition next rest end
  end.

Definition applyLocked (serverID0 : string) (gen : Z) (desired : list Desired) (transition localReapply : bool) : M S (option err) :=
  let serverID := TrimSpace serverID0 in
  if bool_decide (serverID = "") || (gen <? 1)%Z then mret_st (Some EArgs)
  else
    let! current := getGeneration serverID in
    if localReapply && negb (gen =? current)%Z then mret_st (Some ELocalGeneration)
    else if negb localReapply && (gen <=? current)%Z then mret_st (Some EStaleGeneration)
    else
      match collect serverID ∅ desired with
      | Err e => mret_st (Some e)
      | Ok next =>
          let! keys := serverKeys serverID next in
          let! e := reconcileAll transition next keys in
          match e with
          | Some e => mret_st (Some e)
          | None => if localReapply then mret_st None else do! setGeneration serverID gen; mret_st None
          end
      end.

Definition Apply (serverID : string) (gen : Z) (desired : list Desired) : M S (option err) :=
  applyLocked serverID gen desired false false.
Definition ApplyWithTransition (serverID : string) (gen : Z) (desired : list Desired) : M S (option err) :=
  applyLocked serverID gen desired true false.
Definition ApplyLocalAttachment (serverID : string) (gen : Z) (desired : list Desired) : M S (option err) :=
  applyLocked serverID gen desired true true.

(** Stop one running pipeline and forget it. *)
Definition stopLive (k : Key) (item : live) : M S (option err) :=
  let! e := stopInstance k (l_instance item) in
  match e with
  | Some e => mret_st (Some (EStop k e))
  | None => do! dropLive k; do! emit k "stopped" (d_Access (l_desired item)); mret_st None
  end.

Definition DetachLocal (k : Key) : M S (option err) :=
  if bool_decide (TrimSpace (ServerID k) = "") || bool_decide (TrimSpace (RepoID k) = "") then mret_st (Some EKeyInvalid)
  else
    let! l := getLive in
    match l !! k with None => mret_st None | Some item => stopLive k item end.

Fixpoint suspendLoop (keys : list Key) : M S (option err) :=
  match keys with
  | [] => mret_st None
  | k :: rest =>
      let! l := getLive in
      match l !! k with
      | None => suspendLoop rest
      | Some item =>
          let! e := stopLive k item in
          match e with Some e => mret_st (Some e) | None => suspendLoop rest end
      end
  end.

Definition SuspendServer (serverID0 : string) : M S (option err) :=
  let serverID := TrimSpace serverID0 in
  if bool_decide (serverID = "") then mret_st (Some EServerRequired)
  else let! keys := serverKeys serverID ∅ in suspendLoop keys.

(** [Stop] forgets every instance, stopped or not: it ends the process. *)
Fixpoint stopLoop (first : option err) (keys : list Key) : M S (option err) :=
  match keys with
  | [] => mret_st first
  | k :: rest =>
      let! l := getLive in
      match l !! k with
      | None => stopLoop first rest
      | Some item =>
          let! e := stopInstance k (l_instance item) in
          do! dropLive k;
          do! emit k "stopped" (d_Access (l_desired item));
          stopLoop (match first with Some _ => first | None => match e with Some e => Some (EStop k e) | None => None end end) rest
      end
  end.

Definition Stop : M S (option err) :=
  let! l := getLive in stopLoop None (merge_sort keyLe (elements (dom l))).

End Methods.

(** ** The trace discipline *)
Fixpoint starts (k : Key) (tr : list event) : nat :=
  match tr with
  | [] => 0
  | Started k' _ _ :: tr => (if bool_decide (k' = k) then 1 else 0) + starts k tr
  | _ :: tr => starts k tr
  end.

Fixpoint stops (k : Key) (tr : list event) : nat :=
  match tr with
  | [] => 0
  | StopTried k' _ true :: tr => (if bool_decide (k' = k) then 1 else 0) + stops k tr
  | _ :: tr => stops k tr
  end.

(** Whenever a pipeline was started, every earlier one of that key had been
    stopped successfully. *)
Fixpoint exclusive (tr : list event) : Prop :=
  match tr with
  | [] => True
  | Started k _ _ :: tr => starts k tr = stops k tr /\ exclusive tr
  | _ :: tr => exclusive tr
  end.

Definition counted (l : gmap Key live) (tr : list event) : Prop :=
  exclusive tr /\ forall k, starts k tr = stops k tr + (match l !! k with Some _ => 1 | None => 0 end).

(** An event that neither starts nor successfully stops anything. *)
Definition neutral (e : event) : Prop :=
  match e with Started _ _ _ | StopTried _ _ true => False | _ => True end.

Lemma counted_neutral l tr e : neutral e -> counted l tr -> counted l (e :: tr).
Proof. intros Hn [H1 H2]. destruct e as [| ? ? [] | |]; done. Qed.

Lemma counted_start l tr k d i : l !! k = None -> counted l tr -> counted (<[k := Live d i]> l) (Started k d i :: tr).
Proof.
  intros Hk [H1 H2]. split.
  - split; [|done]. specialize (H2 k). rewrite Hk in H2. lia.
  - intros k'. cbn [starts stops]. specialize (H2 k'). case_bool_decide as Hx.
    + subst k'. rewrite lookup_insert_eq. rewrite Hk in H2. lia.
    + rewrite lookup_insert_ne by done. lia.
Qed.

Lemma counted_stop l tr k i o : l !! k = Some o -> counted l tr -> counted (delete k l) (StopTried k i true :: tr).
Proof.
  intros Hk [H1 H2]. split; [done|]. intros k'. cbn [starts stops]. specialize (H2 k'). case_bool_decide as Hx.
  - subst k'. rewrite lookup_delete_eq. rewrite Hk in H2. lia.
  - rewrite lookup_delete_ne by done. lia.
Qed.

Lemma counted_update l tr k o o' : l !! k = Some o -> counted l tr -> counted (<[k := o']> l) tr.
Proof.
  intros Hk [H1 H2]. split; [done|]. intros k'. specialize (H2 k'). destruct (decide (k = k')) as [<-|Hne].
  - rewrite lookup_insert_eq. by rewrite Hk in H2.
  - by rewrite lookup_insert_ne.
Qed.

(** What a reconciled key looks like. *)
Definition settledAt (l : gmap Key live) (k : Key) (wanted : option Desired) : Prop :=
  match wanted with
  | Some d => if active wanted then exists i, l !! k = Some (Live d i) else l !! k = None
  | None => l !! k = None
  end.

Section Proofs.
  Context {W : Type} `{!Starter W}.
  Notation S := (t W).
  Variable onEvent : bool.

Definition frame (k : Key) (s s' : S) : Prop :=
  generation s' = generation s /\ forall k', k' <> k -> lives s' !! k' = lives s !! k'.

Lemma emit_run k a c (s : S) : exists tr, emit onEvent k a c s = (tt, Sup (generation s) (lives s) (world s) tr) /\
  (counted (lives s) (trace s) -> counted (lives s) tr).
Proof.
  unfold emit. destruct onEvent.
  - eexists. split; [reflexivity|]. by apply counted_neutral.
  - exists (trace s). by destruct s.
Qed.

Lemma startWanted_spec k wanted (s s' : S) r : startWanted onEvent k wanted s = (r, s') ->
  lives s !! k = None -> counted (lives s) (trace s) ->
  counted (lives s') (trace s') /\ frame k s s' /\ (r = None -> settledAt (lives s') k wanted).
Proof.
  intros H Hk Hc. unfold startWanted in H. destruct wanted as [d|]; [|by injection H as <- <-].
  unfold settledAt. destruct (active (Some d)) eqn:Ha; [|by injection H as <- <-].
  unfold mbind_st at 1, startInstance in H. destruct (start d (world s)) as [[i|e] w].
  - unfold mbind_st in H. cbn in H.
    destruct (emit_run k "started" (d_Access d)
      (Sup (generation s) (<[k := Live d i]> (lives s)) w (Started k d i :: trace s))) as (tr & Htr & Hc').
    rewrite Htr in H. injection H as <- <-. cbn in *. split_and!.
    + apply Hc'. by apply counted_start.
    + split; [done|]. intros k' Hne. cbn. by rewrite lookup_insert_ne.
    + intros _. exists i. by rewrite lookup_insert_eq.
  - injection H as <- <-. split_and!; [done|done|discriminate].
Qed.

(** Stop, forget, announce. *)
Lemma stopLive_spec k item (s s' : S) r : stopLive onEvent k item s = (r, s') ->
  lives s !! k = Some item -> counted (lives s) (trace s) ->
  counted (lives s') (trace s') /\ frame k s s' /\ (r = None -> lives s' !! k = None).
Proof.
  intros H Hk Hc. unfold stopLive, mbind_st at 1, stopInstance in H. destruct (stop (l_instance item) (world s)) as [[e|] w].
  - injection H as <- <-. split_and!; [by apply counted_neutral|done|discriminate].
  - unfold mbind_st in H. cbn in H.
    destruct (emit_run k "stopped" (d_Access (l_desired item))
      (Sup (generation s) (delete k (lives s)) w (StopTried k (l_instance item) true :: trace s))) as (tr & Htr & Hc').
    rewrite Htr in H. injection H as <- <-. cbn in *. split_and!.
    + apply Hc'. by eapply counted_stop.
    + split; [done|]. intros k' Hne. cbn. by rewrite lookup_delete_ne.
    + intros _. by rewrite lookup_delete_eq.
Qed.

Definition replaceWith (transition : bool) (k : Key) (wanted : option Desired) : M S (option err) :=
  do! (match wanted with Some d => if transition then log (Transition d) else mret_st tt | None => mret_st tt end);
  startWanted onEvent k wanted.

Lemma replaceWith_spec transition k wanted (s s' : S) r : replaceWith transition k wanted s = (r, s') ->
  lives s !! k = None -> counted (lives s) (trace s) ->
  counted (lives s') (trace s') /\ frame k s s' /\ (r = None -> settledAt (lives s') k wanted).
Proof.
  intros H Hk Hc. unfold replaceWith, mbind_st in H.
  destruct wanted as [d|]; [destruct transition|]; try by eapply startWanted_spec.
  unfold log in H. eapply startWanted_spec in H; [exact H|done|]. by apply counted_neutral.
Qed.

(** One key: the discipline is kept, nothing else is touched, and success
    leaves exactly the wanted pipeline. *)
Lemma reconcile_spec transition next k (s s' : S) r : reconcile onEvent transition next k s = (r, s') ->
  counted (lives s) (trace s) ->
  counted (lives s') (trace s') /\ frame k s s' /\ (r = None -> settledAt (lives s') k (next !! k)).
Proof.
  intros H Hc. unfold reconcile, mbind_st at 1, getLive in H. fold (replaceWith transition k (next !! k)) in H.
  destruct (lives s !! k) as [old|] eqn:Hk; [|by eapply replaceWith_spec].
  destruct (match next !! k with Some w => active (next !! k) && unchanged (l_desired old) w | None => false end) eqn:Hu.
  - destruct (next !! k) as [w|]; [|discriminate Hu]. apply andb_true_iff in Hu as [Ha _].
    injection H as <- <-. cbn [lives trace]. split_and!; [by eapply counted_update| |].
    + split; [done|]. intros k' Hne. cbn. by rewrite lookup_insert_ne.
    + intros _. unfold settledAt. rewrite Ha. exists (l_instance old). by rewrite lookup_insert_eq.
  - assert (exists r0 s0, stopLive onEvent k old s = (r0, s0) /\
      match r0 with Some e => (r, s') = (Some e, s0) | None => replaceWith transition k (next !! k) s0 = (r, s') end) as (r0 & s0 & H0 & H1).
    { unfold stopLive, mbind_st in *. destruct (stopInstance k (l_instance old) s) as [[e|] s1].
      - exists (Some (EStop k e)), s1. auto.
      - destruct (dropLive k s1) as [[] s2]. destruct (emit onEvent k "stopped" (d_Access (l_desired old)) s2) as [[] s3].
        exists None, s3. auto. }
    eapply stopLive_spec in H0 as (Hc0 & [Hg0 Hl0] & Hn0); [|done|done]. destruct r0 as [e|].
    + injection H1 as -> ->. split_and!; [done|by split|discriminate].
    + eapply replaceWith_spec in H1 as (Hc1 & [Hg1 Hl1] & Hn1); [|by apply Hn0|done].
      split_and!; [done| |done]. split; [congruence|]. intros k' Hne. by rewrite Hl1, Hl0.
Qed.

Lemma settledAt_frame k k' wanted (s s' : S) : frame k s s' -> k' <> k ->
  settledAt (lives s) k' wanted -> settledAt (lives s') k' wanted.
Proof. intros [_ Hl] Hne. unfold settledAt. by rewrite Hl. Qed.

Lemma reconcileAll_spec transition next keys (s s' : S) r : reconcileAll onEvent transition next keys s = (r, s') ->
  NoDup keys -> counted (lives s) (trace s) ->
  counted (lives s') (trace s') /\ generation s' = generation s /\
  (forall k, k ∉ keys -> lives s' !! k = lives s !! k) /\
  (r = None -> forall k, k ∈ keys -> settledAt (lives s') k (next !! k)).
Proof.
  revert s. induction keys as [|k ks IH]; intros s H Hnd Hc; cbn [reconcileAll] in H.
  - injection H as <- <-. split_and!; [done|done|done|]. intros _ k Hk. by apply elem_of_nil in Hk.
  - apply NoDup_cons in Hnd as [Hni Hnd]. unfold mbind_st in H.
    destruct (reconcile onEvent transition next k s) as [r0 s0] eqn:H0.
    apply reconcile_spec in H0 as (Hc0 & [Hg0 Hl0] & Hn0); [|done]. destruct r0 as [e|].
    + injection H as <- <-. split_and!; [done|done| |discriminate]. intros k' Hk'. apply Hl0. set_solver.
    + apply IH in H as (Hc1 & Hg1 & Hl1 & Hn1); [|done|done]. split_and!; [done|congruence| |].
      * intros k' Hk'. rewrite Hl1, Hl0; set_solver.
      * intros Hr k' [->|Hk']%elem_of_cons; [|by apply Hn1].
        unfold settledAt. rewrite (Hl1 k Hni). by apply Hn0.
Qed.

Lemma collect_spec serverID desired next0 next : collect serverID next0 desired = Ok next ->
  (forall k d, next !! k = Some d <-> next0 !! k = Some d \/ (d ∈ desired /\ d_Key d = k)) /\
  Forall (fun d => ServerID (d_Key d) = serverID /\ (d_Access d = "r" \/ d_Access d = "rw")) desired.
Proof.
  revert next0. induction desired as [|d ds IH]; intros next0 H; cbn [collect] in H.
  - injection H as <-. split; [|constructor]. intros k d. split; [auto|]. intros [?|[Hd _]]; [done|]. by apply elem_of_nil in Hd.
  - destruct (negb (bool_decide (ServerID (d_Key d) = serverID)) || _) eqn:H1; [done|].
    destruct (negb (bool_decide (d_Access d = "r")) && _) eqn:H2; [done|].
    destruct (negb (bool_decide (d_State d = "initializing")) && _ && _ && _); [done|].
    destruct (next0 !! d_Key d) eqn:H3; [done|]. apply IH in H as [Hk Hf]. bool_to_prop. split.
    + intros k x. rewrite Hk, lookup_insert_Some, elem_of_cons. split.
      * intros [[[<- <-]|[? ?]]|[? ?]]; auto.
      * intros [Hx|[[->|Hx] <-]]; auto. left. right. split; [|done]. intros <-. congruence.
    + constructor; [|done]. split; [done|]. apply andb_false_iff in H2 as [H2|H2]; bool_to_prop; auto.
Qed.

Lemma serverKeys_elem serverID next (s : S) k : (forall k d, next !! k = Some d -> ServerID k = serverID) ->
  k ∈ fst (serverKeys serverID next s) <-> (is_Some (next !! k) \/ is_Some (lives s !! k)) /\ ServerID k = serverID.
Proof.
  intros Hn. unfold serverKeys. cbn. rewrite merge_sort_Permutation, elem_of_elements, elem_of_union, elem_of_filter,
    !elem_of_dom. split; [|naive_solver]. intros [[d Hd]|[? ?]]; [|auto]. split; [eauto|by eapply Hn].
Qed.

Lemma serverKeys_NoDup serverID next (s : S) : NoDup (fst (serverKeys serverID next s)).
Proof. unfold serverKeys. cbn. rewrite merge_sort_Permutation. apply NoDup_elements. Qed.

Lemma suspendLoop_spec keys (s s' : S) r : suspendLoop onEvent keys s = (r, s') ->
  counted (lives s) (trace s) ->
  counted (lives s') (trace s') /\ generation s' = generation s /\
  (forall k, k ∉ keys -> lives s' !! k = lives s !! k) /\
  (r = None -> forall k, k ∈ keys -> lives s' !! k = None) /\
  (forall k, lives s !! k = None -> lives s' !! k = None).
Proof.
  revert s. induction keys as [|k ks IH]; intros s H Hc; cbn [suspendLoop] in H.
  - injection H as <- <-. split_and!; [done|done|done| |done]. intros _ k Hk. by apply elem_of_nil in Hk.
  - unfold mbind_st at 1, getLive in H. destruct (lives s !! k) as [item|] eqn:Hk.
    + unfold mbind_st in H. destruct (stopLive onEvent k item s) as [r0 s0] eqn:H0.
      apply stopLive_spec in H0 as (Hc0 & [Hg0 Hl0] & Hn0); [|done|done].
      assert (forall k', lives s !! k' = None -> lives s0 !! k' = None) as Hmono.
      { intros k' Hk'. rewrite Hl0; [done|]. congruence. }
      destruct r0 as [e|].
      * injection H as <- <-. split_and!; [done|done| |discriminate|done]. intros k' Hk'. apply Hl0. set_solver.
      * apply IH in H as (Hc1 & Hg1 & Hl1 & Hn1 & Hm1); [|done]. split_and!; [done|congruence| | |by auto].
        -- intros k' Hk'. rewrite Hl1, Hl0; set_solver.
        -- intros Hr k' [->|Hk']%elem_of_cons; [by apply Hm1, Hn0|by apply Hn1].
    + apply IH in H as (Hc1 & Hg1 & Hl1 & Hn1 & Hm1); [|done]. split_and!; [done|done| | |done].
      * intros k' Hk'. apply Hl1. set_solver.
      * intros Hr k' [->|Hk']%elem_of_cons; [by apply Hm1|by apply Hn1].
Qed.

(** Every way [applyLocked] ends. *)
Lemma applyLocked_cases server gen desired transition loc (s s' : S) r :
  applyLocked onEvent server gen desired transition loc s = (r, s') -> counted (lives s) (trace s) ->
  (exists e, r = Some e /\ s' = s) \/
  exists next s1, collect (TrimSpace server) ∅ desired = Ok next /\
    (loc = false -> (default 0%Z (generation s !! TrimSpace server) < gen)%Z) /\
    (loc = true -> gen = default 0%Z (generation s !! TrimSpace server)) /\
    reconcileAll onEvent transition next (fst (serverKeys (TrimSpace server) next s)) s = (r, s1) /\
    s' = (match r with None => if loc then s1 else Sup (<[TrimSpace server := gen]> (generation s1)) (lives s1) (world s1) (trace s1)
                     | Some _ => s1 end).
Proof.
  intros H Hc. unfold applyLocked in H. cbv zeta in H.
  destruct (bool_decide _ || _); [left; injection H as <- <-; eauto|].
  unfold mbind_st at 1, getGeneration in H.
  destruct (loc && _) eqn:H1; [left; injection H as <- <-; eauto|].
  destruct (negb loc && _) eqn:H2; [left; injection H as <- <-; eauto|].
  destruct (collect (TrimSpace server) ∅ desired) as [next|e] eqn:Hcol; [|left; injection H as <- <-; eauto].
  right. exists next. unfold mbind_st at 1, serverKeys in H. cbn [mbind_st getLive mret_st] in H.
  unfold mbind_st in H at 1.
  destruct (reconcileAll onEvent transition next (fst (serverKeys (TrimSpace server) next s)) s) as [r0 s1] eqn:Hr.
  assert (match r0 with Some e => (Some e, s1) | None => if loc then (None, s1) else
    (None, Sup (<[TrimSpace server := gen]> (generation s1)) (lives s1) (world s1) (trace s1)) end = (r, s')) as Hres.
  { rewrite <- H. unfold serverKeys, mbind_st, getLive, mret_st in Hr |- *. cbn in Hr |- *. rewrite Hr.
    by destruct r0, loc. }
  exists s1. split_and!; [done| | |by destruct r0, loc; injection Hres as <- <-|by destruct r0, loc; injection Hres as <- <-].
  - intros ->. cbn in H2. bool_to_prop. done.
  - intros ->. cbn in H1. apply negb_false_iff, Z.eqb_eq in H1. done.
Qed.

(** ** Histories *)
Inductive reached : S -> Prop :=
| reached_new w : reached (Sup ∅ ∅ w [])
| reached_world s w : reached s -> reached (Sup (generation s) (lives s) w (trace s))
| reached_apply server gen desired transition loc s : reached s ->
    reached (snd (applyLocked onEvent server gen desired transition loc s))
| reached_detach k s : reached s -> reached (snd (DetachLocal onEvent k s))
| reached_suspend server s : reached s -> reached (snd (SuspendServer onEvent server s)).

Lemma reached_counted s : reached s -> counted (lives s) (trace s).
Proof.
  induction 1 as [w|s w _ IH|server gen desired tr loc s _ IH|k s _ IH|server s _ IH].
  - split; [done|]. intros k. cbn [lives trace]. by rewrite lookup_empty.
  - done.
  - destruct (applyLocked onEvent server gen desired tr loc s) as [r s'] eqn:H.
    apply applyLocked_cases in H as [(e & _ & ->)|(next & s1 & _ & _ & _ & Hr & ->)]; [done| |done].
    apply reconcileAll_spec in Hr as (Hc & _); [|apply serverKeys_NoDup|done]. by destruct r; [|destruct loc].
  - unfold DetachLocal. destruct (bool_decide _ || _); [done|]. unfold mbind_st, getLive.
    destruct (lives s !! k) as [item|] eqn:Hk; [|done].
    destruct (stopLive onEvent k item s) as [r s'] eqn:H. by apply stopLive_spec in H as (? & _).
  - unfold SuspendServer. cbv zeta. destruct (bool_decide _); [done|]. unfold mbind_st.
    destruct (serverKeys _ _ s) as [keys s0] eqn:Hk. assert (s0 = s) as -> by by injection Hk.
    destruct (suspendLoop onEvent keys s) as [r s'] eqn:H. by apply suspendLoop_spec in H as (? & _).
Qed.

(** C6. Two pipelines of one repository never overlap: along every sequence of
    projections, local attachments, detachments and suspensions, whatever the
    starter and the instances answer, a pipeline was started for a key only when
    every pipeline started for it before had been stopped successfully, and the
    supervisor keeps exactly the one that is running. *)
Theorem supervisor_never_overlaps s : reached s ->
  exclusive (trace s) /\
  forall k, starts k (trace s) = stops k (trace s) + (match lives s !! k with Some _ => 1 | None => 0 end).
Proof. apply reached_counted. Qed.

(** A projection that is applied takes full effect: the running pipelines
    of the server are exactly the wanted active repositories, each with the
    wanted description; pipelines of other servers are untouched; a server
    projection advances the generation strictly, a local reapplication keeps it. *)
Theorem supervisor_apply_exact server gen desired transition loc s s' : reached s ->
  applyLocked onEvent server gen desired transition loc s = (None, s') ->
  (forall k, ServerID k = TrimSpace server -> forall d, (exists i, lives s' !! k = Some (Live d i)) <->
     (d ∈ desired /\ d_Key d = k /\ d_State d = "active")) /\
  (forall k, ServerID k <> TrimSpace server -> lives s' !! k = lives s !! k) /\
  (if loc then generation s' = generation s
   else generation s' = <[TrimSpace server := gen]> (generation s) /\
        (default 0 (generation s !! TrimSpace server) < gen)%Z).
Proof.
  intros Hs%reached_counted H. apply applyLocked_cases in H as [(e & [=] & _)|(next & s1 & Hcol & Hg1 & Hg2 & Hr & Hs')]; [|done].
  apply collect_spec in Hcol as [Hnext Hf]. rewrite Forall_forall in Hf.
  assert (forall k d, next !! k = Some d <-> d ∈ desired /\ d_Key d = k) as Hn.
  { intros k d. rewrite Hnext, lookup_empty. split; [by intros [?|?]|auto]. }
  assert (forall k d, next !! k = Some d -> ServerID k = TrimSpace server) as Hsrv.
  { intros k d [Hd <-]%Hn. by apply Hf. }
  apply reconcileAll_spec in Hr as (Hc & Hgen & Hother & Hset); [|apply serverKeys_NoDup|done].
  assert (lives s' = lives s1) as Hl by (subst s'; by destruct loc). rewrite Hl.
  split_and!.
  - intros k Hk d.
    assert (settledAt (lives s1) k (next !! k)) as Hat.
    { destruct (decide (k ∈ fst (serverKeys (TrimSpace server) next s))) as [Hin|Hout]; [by apply Hset|].
      assert (next !! k = None /\ lives s !! k = None) as [H1 H2].
      { rewrite serverKeys_elem in Hout by done. split; apply eq_None_not_Some; naive_solver. }
      unfold settledAt. rewrite H1. by rewrite Hother. }
    unfold settledAt in Hat. split.
    + intros [i Hi]. destruct (next !! k) as [d'|] eqn:Hd'; [|congruence].
      destruct (active (Some d')) eqn:Ha; [|congruence]. destruct Hat as [i' Hi']. rewrite Hi' in Hi. injection Hi as <- _.
      apply Hn in Hd' as [? ?]. cbn in Ha. bool_to_prop. done.
    + intros (Hd & Hkd & Ha). assert (next !! k = Some d) as Hnk by (apply Hn; auto). rewrite Hnk in Hat.
      cbn [active] in Hat. by rewrite bool_decide_eq_true_2 in Hat.
  - intros k Hk. apply Hother. rewrite serverKeys_elem by done. naive_solver.
  - subst s'. destruct loc; [done|]. cbn. rewrite Hgen. auto.
Qed.

(** A refused projection has no effect: an error other than a failed stop
    or start leaves the supervisor as it was and makes no call, and no error at
    all advances the generation, so the same projection can be applied again;
    in particular a projection that is not newer, or a local reapplication of
    another generation, is refused this way. *)
Theorem supervisor_refusal_without_effect server gen desired transition loc s e s' : reached s ->
  applyLocked onEvent server gen desired transition loc s = (Some e, s') ->
  generation s' = generation s /\ (match e with EStop _ _ | EStart _ _ => True | _ => s' = s end).
Proof.
  intros Hs%reached_counted H. apply applyLocked_cases in H as [(e' & [= ->] & ->)|(next & s1 & _ & _ & _ & Hr & ->)]; [|..|done].
  { split; [done|]. by destruct e'. }
  pose proof Hr as Hr'. apply reconcileAll_spec in Hr as (_ & Hgen & _); [|apply serverKeys_NoDup|done].
  split; [done|].
  assert (forall keys s0, reconcileAll onEvent transition next keys s0 = (Some e, s1) ->
    match e with EStop _ _ | EStart _ _ => True | _ => False end) as He; [|apply He in Hr'; by destruct e].
  clear. induction keys as [|k ks IH]; intros s0 H; cbn [reconcileAll] in H; [done|]. unfold mbind_st in H.
  destruct (reconcile onEvent transition next k s0) as [[e'|] s2] eqn:Hk; [|by eapply IH]. injection H as -> <-.
  assert (forall w s3 s4, startWanted onEvent k w s3 = (Some e, s4) -> match e with EStop _ _ | EStart _ _ => True | _ => False end) as Hst.
  { intros w s3 s4 Hw. unfold startWanted, mbind_st in Hw. destruct w as [d|]; [|done]. destruct (active (Some d)); [|done].
    destruct (startInstance k d s3) as [[i|x] s5]; [|by injection Hw as <- _].
    destruct (setLive k (Live d i) s5) as [u s6], (emit onEvent k "started" (d_Access d) s6). done. }
  assert (forall w s3 s4, replaceWith transition k w s3 = (Some e, s4) -> match e with EStop _ _ | EStart _ _ => True | _ => False end) as Hre.
  { intros w s3 s4 Hw. unfold replaceWith, mbind_st, log, mret_st in Hw.
    destruct w; [destruct transition|]; eapply Hst, Hw. }
  unfold reconcile, mbind_st at 1, getLive in Hk. fold (replaceWith transition k (next !! k)) in Hk.
  destruct (lives s0 !! k) as [old|]; [|by eapply Hre].
  destruct (match next !! k with Some w => _ | None => false end); [by destruct (next !! k)|].
  unfold mbind_st in Hk. destruct (stopInstance k (l_instance old) s0) as [[x|] s3]; [by injection Hk as <- _|].
  destruct (dropLive k s3) as [u s4], (emit onEvent k "stopped" (d_Access (l_desired old)) s4) as [u' s5].
  by eapply Hre.
Qed.

(** A suspended server runs nothing: after a successful suspension no
    pipeline of that server is left, those of other servers are untouched, and
    the authoritative generation is neither advanced nor forgotten. *)
Theorem supervisor_suspend_complete server s s' : reached s ->
  SuspendServer onEvent server s = (None, s') ->
  (forall k, ServerID k = TrimSpace server -> lives s' !! k = None) /\
  (forall k, ServerID k <> TrimSpace server -> lives s' !! k = lives s !! k) /\
  generation s' = generation s.
Proof.
  intros Hs%reached_counted H. unfold SuspendServer in H. cbv zeta in H. destruct (bool_decide _); [done|].
  unfold mbind_st in H. destruct (serverKeys (TrimSpace server) ∅ s) as [keys s0] eqn:Hk.
  assert (s0 = s) as -> by by injection Hk.
  assert (forall k, k ∈ keys <-> is_Some (lives s !! k) /\ ServerID k = TrimSpace server) as Hkeys.
  { intros k. pose proof (serverKeys_elem (TrimSpace server) ∅ s k) as He. rewrite Hk in He. cbn in He.
    rewrite He by (intros ? ? ?; set_solver). rewrite lookup_empty.
    split; [intros [[[? [=]]|?] ?]; done|intros [? ?]; auto]. }
  apply suspendLoop_spec in H as (_ & Hg & Hl & Hn & Hm); [|done]. split_and!; [|intros k Hne; apply Hl; rewrite Hkeys; naive_solver|done].
  intros k Hsv. destruct (decide (k ∈ keys)) as [Hin|Hout]; [by apply Hn|]. apply Hm.
  apply eq_None_not_Some. intros Hsome. by apply Hout, Hkeys.
Qed.

End Proofs.
End Supervisor.

(** ** Managed instances *)
Module Managed.

(** What a run or cleanup function returns: nil, a cancellation, or another
    error. *)
Inductive outcome := Nil | Canceled | Failure (e : nat).

#[export] Instance outcome_eq_dec : EqDecision outcome.
Proof. solve_decision. Defined.

(** Where the one goroutine that runs [stop] is. *)
Inductive phase := NotStarted | Begun | Cancelling | RunExited | CleanedUp | Closed.

#[export] Instance phase_eq_dec : EqDecision phase.
Proof. solve_decision. Defined.

Record t := Inst {
  cancelled : bool;
  runErr : option outcome;   (** [None] while run has not returned *)
  where_ : phase;
  cleanups : nat;            (** how often cleanup was called *)
  stopErr : outcome
}.

Definition StartManaged : t := Inst false None NotStarted 0 Nil.

(** [stopOnce.Do]: only the first call of [Stop] starts the goroutine. *)
Definition stopOnce (m : t) : t :=
  match where_ m with
  | NotStarted => Inst (cancelled m) (runErr m) Begun (cleanups m) (stopErr m)
  | _ => m
  end.

Definition runReturns (r : outcome) (m : t) : t := Inst (cancelled m) (Some r) (where_ m) (cleanups m) (stopErr m).

(** The last assignment of [stop]. *)
Definition finalErr (cleanup run : outcome) : outcome :=
  match cleanup, run with
  | Nil, Failure e => Failure e
  | _, _ => cleanup
  end.

Section Steps.
  Variable hasCleanup : bool.

(** Interleaving of callers of [Stop], the run goroutine and the stop goroutine. *)
Inductive step : t -> t -> Prop :=
| step_call m : step m (stopOnce m)
| step_run m r : runErr m = None -> step m (runReturns r m)
| step_cancel m : where_ m = Begun ->
    step m (Inst true (runErr m) Cancelling (cleanups m) (stopErr m))
| step_done m r : where_ m = Cancelling -> runErr m = Some r ->
    step m (Inst (cancelled m) (runErr m) RunExited (cleanups m) (stopErr m))
| step_cleanup m e : where_ m = RunExited -> hasCleanup = true ->
    step m (Inst (cancelled m) (runErr m) CleanedUp (S (cleanups m)) e)
| step_no_cleanup m : where_ m = RunExited -> hasCleanup = false ->
    step m (Inst (cancelled m) (runErr m) CleanedUp (cleanups m) (stopErr m))
| step_close m r : where_ m = CleanedUp -> runErr m = Some r ->
    step m (Inst (cancelled m) (runErr m) Closed (cleanups m) (finalErr (stopErr m) r)).

(** [Stop] answers when [stopDone] is closed (or its context ends). *)
Definition Stop_select (m : t) : option outcome :=
  if bool_decide (where_ m = Closed) then Some (stopErr m) else None.

Inductive reachable : t -> Prop :=
| reach_start : reachable StartManaged
| reach_step m m' : reachable m -> step m m' -> reachable m'.

Definition sane (m : t) : Prop :=
  match where_ m with
  | NotStarted | Begun => cleanups m = 0 /\ stopErr m = Nil
  | Cancelling => cancelled m = true /\ cleanups m = 0 /\ stopErr m = Nil
  | RunExited => cancelled m = true /\ cleanups m = 0 /\ stopErr m = Nil /\ is_Some (runErr m)
  | CleanedUp => cancelled m = true /\ cleanups m = (if hasCleanup then 1 else 0) /\ is_Some (runErr m) /\
                 (hasCleanup = false -> stopErr m = Nil)
  | Closed => cancelled m = true /\ cleanups m = (if hasCleanup then 1 else 0) /\
              exists r c, runErr m = Some r /\ stopErr m = finalErr c r /\ (hasCleanup = false -> c = Nil)
  end.

Lemma sane_step m m' : sane m -> step m m' -> sane m'.
Proof.
  intros Hs H. unfold sane in *. destruct H as [m|m r Hr|m Hw|m r Hw Hr|m e Hw Hc|m Hw Hc|m r Hw Hr];
    try rewrite Hw in Hs; cbn in *.
  - unfold stopOnce. destruct (where_ m) eqn:Hw; cbn; rewrite ?Hw; done.
  - destruct (where_ m); try done.
    + destruct Hs as (? & ? & ? & [? ?]). congruence.
    + destruct Hs as (? & ? & [? ?] & ?). congruence.
    + destruct Hs as (? & ? & ? & ? & ? & _). congruence.
  - naive_solver.
  - rewrite Hr. naive_solver.
  - rewrite Hc. destruct Hs as (? & -> & _ & ?). split_and!; done.
  - rewrite Hc. destruct Hs as (? & ? & ? & ?). split_and!; done.
  - destruct Hs as (? & ? & ? & ?). split_and!; [done|done|]. exists r, (stopErr m). done.
Qed.

(** [Stop] is a completion boundary: in every interleaving of callers, the
    run goroutine and the stop goroutine, an answer of [Stop] other than a
    context error comes after run was cancelled and has returned and after the
    cleanup, which is called exactly once (never, if there is none); the answer
    is the cleanup's error, or else the run's error unless it is a cancellation. *)
Theorem managed_stop_boundary m e : reachable m -> Stop_select m = Some e ->
  cancelled m = true /\ cleanups m = (if hasCleanup then 1 else 0) /\
  exists r c, runErr m = Some r /\ e = finalErr c r /\ (hasCleanup = false -> c = Nil).
Proof.
  intros H He. assert (sane m) as Hs by (clear He; induction H; [done|by eapply sane_step]).
  unfold Stop_select in He. destruct (bool_decide (where_ m = Closed)) eqn:Hw; [|done]. bool_to_prop.
  injection He as <-. unfold sane in Hs. rewrite Hw in Hs. done.
Qed.

End Steps.
End Managed.

(** ** Concrete inputs *)
Module SupervisorDemo.
Import Supervisor.

(** A starter that numbers its instances and always succeeds. *)
#[export] Instance starter : Starter nat := {|
  start := fun _ w => (Ok w, S w);
  stop := fun _ w => (None, w)
|}.

Definition kA : Key := MkKey "srv" "a".
Definition desiredA : Desired := MkDesired kA "rw" "active" "svn://x/a" "A" "free" Minute.
Definition s0 : Supervisor.t nat := Sup ∅ ∅ 0 [].
Definition s1 : Supervisor.t nat := snd (applyLocked true "srv" 1 [desiredA] true false s0).
Definition readOnly : Desired := MkDesired kA "r" "active" "svn://x/a" "A" "free" Minute.
Definition s2 : Supervisor.t nat := snd (applyLocked true "srv" 2 [readOnly] true false s1).

Lemma s1_reached : reached true s1.
Proof. apply reached_apply, reached_new. Qed.

Lemma s2_reached : reached true s2.
Proof. apply reached_apply, s1_reached. Qed.

(** The switch from rw to r stopped the writer before starting the reader. *)
Lemma supervisor_never_overlaps_witness : starts kA (trace s2) = 2 /\ exclusive (trace s2).
Proof. split; [vm_compute; reflexivity|]. apply (supervisor_never_overlaps true s2). apply s2_reached. Defined.

Lemma supervisor_apply_exact_witness : exists i, lives s2 !! kA = Some (Live readOnly i).
Proof.
  destruct (supervisor_apply_exact true "srv" 2 [readOnly] true false s1 s2) as [H _].
  - apply s1_reached.
  - vm_compute. reflexivity.
  - apply (H kA eq_refl readOnly). split; [by left|done].
Defined.

Lemma supervisor_refusal_without_effect_witness : generation (snd (applyLocked true "srv" 2 [desiredA] true false s2)) = generation s2.
Proof.
  destruct (supervisor_refusal_without_effect true "srv" 2 [desiredA] true false s2 EStaleGeneration
              (snd (applyLocked true "srv" 2 [desiredA] true false s2))) as [H _].
  - apply s2_reached.
  - vm_compute. reflexivity.
  - exact H.
Defined.

Lemma supervisor_suspend_complete_witness : lives (snd (SuspendServer true "srv" s2)) !! kA = None.
Proof.
  destruct (supervisor_suspend_complete true "srv" s2 (snd (SuspendServer true "srv" s2))) as [H _].
  - apply s2_reached.
  - vm_compute. reflexivity.
  - apply H. reflexivity.
Defined.

Definition ended : Managed.t := Managed.Inst true (Some Managed.Canceled) Managed.Closed 1 Managed.Nil.

Lemma ended_reachable : Managed.reachable true ended.
Proof.
  eapply Managed.reach_step; [|apply (Managed.step_close _ (Managed.Inst true (Some Managed.Canceled) Managed.CleanedUp 1 Managed.Nil) Managed.Canceled); reflexivity].
  eapply Managed.reach_step; [|apply (Managed.step_cleanup _ (Managed.Inst true (Some Managed.Canceled) Managed.RunExited 0 Managed.Nil) Managed.Nil); reflexivity].
  eapply Managed.reach_step; [|apply (Managed.step_done _ (Managed.Inst true (Some Managed.Canceled) Managed.Cancelling 0 Managed.Nil) Managed.Canceled); reflexivity].
  eapply Managed.reach_step; [|apply (Managed.step_run _ (Managed.Inst true None Managed.Cancelling 0 Managed.Nil) Managed.Canceled); reflexivity].
  eapply Managed.reach_step; [|apply (Managed.step_cancel _ (Managed.Inst false None Managed.Begun 0 Managed.Nil)); reflexivity].
  eapply Managed.reach_step; [apply Managed.reach_start|apply (Managed.step_call _ Managed.StartManaged)].
Qed.

Lemma managed_stop_boundary_witness : Managed.cleanups ended = 1.
Proof.
  destruct (Managed.managed_stop_boundary true ended Managed.Nil) as (_ & H & _).
  - apply ended_reachable.
  - reflexivity.
  - exact H.
Defined.

End SupervisorDemo.
