(* ===== verification/AnchorQueue.v ===== *)
(** * AnchorQueue: the durable queue of confirmed releases

    Models src/pkg/anchorqueue: store.go (the store and its file) and runner.go
    (the tick that executes at most one queued intent), with the readiness callback
    of src/cmd/filees/explorer_anchor_queue_windows.go.  A method runs under the
    store's mutex, which the tick does not hold between its own accesses: [others]
    runs there whatever confirmations other goroutines enqueue.  The process may die
    at any call into the world, which leaves the store file.  Clocks, the file system, JSON sizes, UUID parsing and the
    RFC 3339 layout are the class [Env]; snapshots of the trace are kept newest
    first.  Pointers to snapshots are never written through, so [cloneIntent] is
    the identity. *)
From S2P Require Import Prelude GoStrings Naming.
From Stdlib Require Import Ascii String.

Open Scope string_scope.
Open Scope go_scope.

Definition maxRecords : nat := 128.
Definition maxPending : nat := 32.

Inductive err := ErrFull | ErrConflict | ErrPoisoned | ErrInvalidConfirmation | ErrInvalidOutcome | ErrNotExist
| ErrPath | ErrInvalidQueue | ErrInvalidIntent | ErrMarshal | ErrFS (code : nat) | ErrBusy | ErrOther (code : nat)
| ErrSelectionChanged | ErrJoin (a b : err).

(** contract.RepoAnchorQueuePayload, flattened as Go embeds it. *)
Record Payload := MkPayload {
  ServerID : string; RepoID : string; Path : string; Action : string;
  Fingerprint : string; IntentID : string; Files : Z
}.

#[export] Instance Payload_eq_dec : EqDecision Payload.
Proof. solve_decision. Defined.

(** contract.RepoAnchorBatchResult *)
Record BatchResult := MkBatch {
  b_LocalPath : string; b_Path : string; b_State : string; b_Completed : Z; b_Total : Z;
  b_FailureCode : string; b_FailureKey : string; b_FailureDetail : string; b_FailurePath : string
}.

(** contract.RepoAnchorQueueResult *)
Record QueueResult := MkQueue {
  r_Batch : BatchResult; r_IntentID : string; r_ServerID : string; r_RepoID : string;
  r_UpdatedAt : string; r_Superseded : bool
}.

Record Snapshot := MkSnapshot { RootID : string; Paths : list string }.

#[export] Instance Snapshot_eq_dec : EqDecision Snapshot.
Proof. solve_decision. Defined.

Record Intent := MkIntent {
  x_Payload : Payload; x_OperationID : string; x_RepoURL : string; x_Root : string;
  x_Snapshot : option Snapshot; x_CreatedAt : Time; x_Result : QueueResult
}.

Definition State (x : Intent) : string := b_State (r_Batch (x_Result x)).
Definition Id (x : Intent) : string := IntentID (x_Payload x).

(** The arguments of one [EnqueueSnapshot]: a confirmation of the user. *)
Record Confirmation := MkConfirmation {
  c_payload : Payload; c_operation : string; c_url : string; c_root : string; c_snapshot : option Snapshot
}.

Inductive fsop := FsCreateTemp | FsChmod | FsWrite (l : list Intent) | FsSync | FsClose | FsRename | FsSyncDirectory.

Class Env (W : Type) := {
  e_now : W -> Time * W;
  e_dies : W -> bool * W;
  e_fs : fsop -> W -> option err * W;
  e_readStore : W -> option err * W;
  e_size : list Intent -> option Z;          (** length of the JSON document *)
  e_canonicalUUID : string -> bool;          (** parses and prints back as itself *)
  e_formatNano : Time -> string;
  e_parseNano : string -> bool;
  e_ctxErr : W -> option err * W;
  e_bound : Intent -> W -> bool * W;         (** the lifecycle record still is the intent's attached anchor *)
  e_bridgeReady : Intent -> W -> bool * W;   (** its bridge runs in this daemon *)
  e_confirmations : W -> list Confirmation * W;  (** enqueued by other goroutines while the store is unlocked *)
  e_execute : Intent -> W -> result err BatchResult * W;
  e_diagnostic : err -> string
}.

(** ** Validity *)
Definition isHexDigit (c : ascii) : bool :=
  ((0x30 <=? byte c) && (byte c <=? 0x39) || (0x61 <=? byte c) && (byte c <=? 0x66) || (0x41 <=? byte c) && (byte c <=? 0x46))%Z.

(** [hex.DecodeString] gives 32 bytes. *)
Definition hex32 (s : string) : bool := (String.length s =? 64)%nat && allb isHexDigit s.

Definition forbidden : string := String (ascii_of_nat 92) (":" ++ String (ascii_of_nat 0) (String (ascii_of_nat 13)
  (String (ascii_of_nat 10) (String (ascii_of_nat 9) "")))).

Definition partOk (part : string) : bool :=
  negb (bool_decide (part = "..") || bool_decide (part = ".") || bool_decide (part = "")
        || EqualFold part ".svn" || EqualFold part ".filees" || negb (bool_decide (TrimRight part " ." = part))).

Definition pathOk (path : string) : bool :=
  negb (ContainsAny path forbidden) && bool_decide (Clean path = path) && negb (IsAbs path)
  && forallb partOk (Split "/" path).

Section Store.
  Context `{UnicodeTables} {W : Type} `{!Env W}.

(** The loop over the snapshot's paths. *)
Fixpoint snapshotOk (dir : string) (seen : gset string) (total : Z) (paths : list string) : bool :=
  match paths with
  | [] => true
  | path :: rest =>
      if bool_decide (path = "") || negb (pathOk path)
         || (negb (bool_decide (dir = ".")) && negb (HasPrefix path (dir ++ "/")))
         || bool_decide (PortablePath.CollisionKey path ∈ seen) then false
      else
        let total := (total + Z.of_nat (String.length path))%Z in
        if (8 * 2 ^ 20 <? total)%Z then false
        else snapshotOk dir ({[PortablePath.CollisionKey path]} ∪ seen) total rest
  end.

Definition resultOk (x : Intent) : bool :=
  let p := x_Payload x in
  let r := x_Result x in
  let b := r_Batch r in
  let st := b_State b in
  let noFailure := bool_decide (b_FailureCode b = "") && bool_decide (b_FailureKey b = "") in
  bool_decide (r_IntentID r = IntentID p) && bool_decide (r_ServerID r = ServerID p) && bool_decide (r_RepoID r = RepoID p)
  && bool_decide (b_LocalPath b = x_Root x) && bool_decide (b_Path b = Path p) && (b_Total b =? Files p)%Z
  && (0 <=? b_Completed b)%Z && (b_Completed b <=? b_Total b)%Z
  && e_parseNano (r_UpdatedAt r)
  && negb (bool_decide (st = "attached") && negb ((b_Completed b =? b_Total b)%Z && noFailure))
  && negb ((bool_decide (st = "queued") || bool_decide (st = "running")) && negb ((b_Completed b =? 0)%Z && noFailure))
  && negb (bool_decide (st = "failed") && (bool_decide (b_FailureCode b = "") || bool_decide (b_FailureKey b = "")))
  && (bool_decide (st = "queued") || bool_decide (st = "running") || bool_decide (st = "attached") || bool_decide (st = "failed")).

(** The part of [valid] that does not look at the result. *)
Definition requestOk (x : Intent) : bool :=
  let p := x_Payload x in
  e_canonicalUUID (IntentID p)
  && hex32 (Fingerprint p) && bool_decide (Action p = "release") && negb (bool_decide (ServerID p = ""))
  && negb (bool_decide (RepoID p = "")) && (0 <? Files p)%Z && (Files p <=? 20000)%Z
  && negb (bool_decide (Path p = "")) && (String.length (Path p) <=? Z.to_nat 32768)%nat
  && negb (bool_decide (x_OperationID x = "")) && negb (bool_decide (x_RepoURL x = "")) && IsAbs (x_Root x)
  && negb (IsZero (x_CreatedAt x))
  && (bool_decide (Path p = ".") || pathOk (Path p))
  && match x_Snapshot x with
     | None => true
     | Some sn => negb (bool_decide (RootID sn = "")) && (String.length (RootID sn) <=? 128)%nat
                  && (Z.of_nat (List.length (Paths sn)) =? Files p)%Z && snapshotOk (Path p) ∅ 0 (Paths sn)
     end.

Definition valid (x : Intent) : bool := requestOk x && resultOk x.

(** ** The store *)
Inductive event := EvAdmit (id : string) | EvExec (id : string) | EvBusy (id : string).

Record st := Sto {
  intents : list Intent;
  poisoned : bool;
  faultAt : string;
  disk : option (list Intent);
  world : W;
  trace : list event
}.

Definition Q (A : Type) : Type := MC st A.

Definition setWorld (w : W) (s : st) : st := Sto (intents s) (poisoned s) (faultAt s) (disk s) w (trace s).
Definition setDisk (l : list Intent) (s : st) : st := Sto (intents s) (poisoned s) (faultAt s) (Some l) (world s) (trace s).
Definition setIntents (l : list Intent) (s : st) : st := Sto l (poisoned s) (faultAt s) (disk s) (world s) (trace s).
Definition poison (at_ : string) (s : st) : st := Sto (intents s) true at_ (disk s) (world s) (trace s).
Definition logEvent (e : event) (s : st) : st := Sto (intents s) (poisoned s) (faultAt s) (disk s) (world s) (e :: trace s).

Definition ask {A} (f : W -> A * W) : Q A := fun s =>
  let '(dead, w) := e_dies (world s) in
  if dead then (None, setWorld w s) else let '(a, w') := f w in (Some a, setWorld w' s).
Definition modify (f : st -> st) : Q unit := fun s => (Some tt, f s).
Definition get : Q st := fun s => (Some s, s).

(** Chmod, Write and Sync stop at the first error; Close always runs and its
    error counts only if there is none yet. *)
Definition writeTemp (next : list Intent) : Q (option err) :=
  let* e := ask (e_fs FsChmod) in
  let* e := match e with Some e => ret (Some e) | None => ask (e_fs (FsWrite next)) end in
  let* e := match e with Some e => ret (Some e) | None => ask (e_fs FsSync) end in
  let* c := ask (e_fs FsClose) in
  ret (match e with Some e => Some e | None => c end).

(** [save] without its deferred handler. *)
Definition saveFile (next : list Intent) : Q (option err) :=
  match e_size next with
  | None => ret (Some ErrMarshal)
  | Some n =>
      if (2 ^ 20 <=? n)%Z then ret (Some ErrFull)
      else
        let* e := ask (e_fs FsCreateTemp) in
        match e with
        | Some e => ret (Some e)
        | None =>
            let* e := writeTemp next in
            match e with
            | Some e => ret (Some e)
            | None =>
                let* e := ask (e_fs FsRename) in
                match e with
                | Some e => ret (Some e)
                | None => do* modify (setDisk next); ask (e_fs FsSyncDirectory)
                end
            end
        end
  end.

Definition save (next : list Intent) : Q (option err) :=
  let* e := saveFile next in
  match e with
  | None => ret None
  | Some e => let* t := ask e_now in do* modify (poison (e_formatNano t)); ret (Some e)
  end.

(** A running intent found on opening is closed as interrupted. *)
Definition interrupt (t : Time) (x : Intent) : Intent :=
  if bool_decide (State x = "running") then
    let r := x_Result x in
    let b := r_Batch r in
    MkIntent (x_Payload x) (x_OperationID x) (x_RepoURL x) (x_Root x) (x_Snapshot x) (x_CreatedAt x)
      (MkQueue (MkBatch (b_LocalPath b) (b_Path b) "failed" (b_Completed b) (b_Total b) "HEAD-2025"
                        "head.release_queue_interrupted" (b_FailureDetail b) (b_FailurePath b))
               (r_IntentID r) (r_ServerID r) (r_RepoID r) (e_formatNano t) (r_Superseded r))
  else x.

(** The loop of [Open]: each entry is checked, then a running one interrupted. *)
Fixpoint recover (ids : gset string) (l : list Intent) : Q (result err (list Intent * bool)) :=
  match l with
  | [] => ret (Ok ([], false))
  | x :: rest =>
      if negb (valid x) || bool_decide (Id x ∈ ids) then ret (Err ErrInvalidIntent)
      else
        let running := bool_decide (State x = "running") in
        let* t := if running then ask e_now else ret 0%Z in
        let* r := recover ({[Id x]} ∪ ids) rest in
        match r with
        | Err e => ret (Err e)
        | Ok (rest', again) => ret (Ok (interrupt t x :: rest', running || again))
        end
  end.

Definition Open (path : string) : Q (option err) :=
  if negb (IsAbs path) then ret (Some ErrPath)
  else
    let* s := get in
    match disk s with
    | None => do* modify (fun s => Sto [] false "" (disk s) (world s) (trace s)); ret None
    | Some l =>
        let* e := ask e_readStore in
        match e with
        | Some e => ret (Some e)
        | None =>
            if (maxRecords <? List.length l)%nat then ret (Some ErrInvalidQueue)
            else
              let* r := recover ∅ l in
              match r with
              | Err e => ret (Some e)
              | Ok (l', recovering) =>
                  do* modify (fun s => Sto l' false "" (disk s) (world s) (trace s));
                  if recovering then save l' else ret None
              end
        end
    end.

(** *** Enqueue *)
Definition pending (x : Intent) : bool := bool_decide (State x = "queued") || bool_decide (State x = "running").

Definition supersede (p : Payload) (x : Intent) : Intent :=
  if negb (pending x) && bool_decide (ServerID (x_Payload x) = ServerID p) && bool_decide (RepoID (x_Payload x) = RepoID p)
     && bool_decide (Path (x_Payload x) = Path p)
  then let r := x_Result x in
       MkIntent (x_Payload x) (x_OperationID x) (x_RepoURL x) (x_Root x) (x_Snapshot x) (x_CreatedAt x)
         (MkQueue (r_Batch r) (r_IntentID r) (r_ServerID r) (r_RepoID r) (r_UpdatedAt r) true)
  else x.

Definition evictable (t : Time) (x : Intent) : bool :=
  r_Superseded (x_Result x) && negb (pending x) && (24 * Hour <? Sub t (x_CreatedAt x))%Z.

(** Remove the first evictable record; [None] when there is none. *)
Fixpoint evict (t : Time) (l : list Intent) : option (list Intent) :=
  match l with
  | [] => None
  | x :: rest => if evictable t x then Some rest
                 else match evict t rest with Some rest' => Some (x :: rest') | None => None end
  end.

Definition sameRequest (p : Payload) (operationID url root : string) (snapshot : option Snapshot) (x : Intent) : bool :=
  bool_decide (x_Payload x = p) && bool_decide (x_OperationID x = operationID) && bool_decide (x_RepoURL x = url)
  && bool_decide (x_Root x = root)
  && match snapshot with None => true | Some _ => bool_decide (snapshot = x_Snapshot x) end.

Definition findId (id : string) (l : list Intent) : option Intent := List.find (fun x => bool_decide (Id x = id)) l.

Definition freshIntent (p : Payload) (operationID url root : string) (snapshot : option Snapshot) (t : Time) : Intent :=
  MkIntent p operationID url root snapshot t
    (MkQueue (MkBatch root (Path p) "queued" 0 (Files p) "" "" "" "") (IntentID p) (ServerID p) (RepoID p)
             (e_formatNano t) false).

(** Make room for one more record, as far as the rules allow. *)
Definition room (t : Time) (l : list Intent) : option (list Intent) :=
  if (maxRecords <=? List.length l)%nat then evict t l else Some l.

Definition EnqueueSnapshot (p : Payload) (operationID url root : string) (snapshot : option Snapshot)
    : Q (result err Intent) :=
  let* s := get in
  if poisoned s then ret (Err ErrPoisoned)
  else match findId (IntentID p) (intents s) with
  | Some x => if sameRequest p operationID url root snapshot x then ret (Ok x) else ret (Err ErrConflict)
  | None =>
      let* t := ask e_now in
      let x := freshIntent p operationID url root snapshot t in
      if negb (valid x) then ret (Err ErrInvalidConfirmation)
      else
        let next := map (supersede p) (intents s) in
        if (maxPending <=? List.length (List.filter pending next))%nat then ret (Err ErrFull)
        else match room t next with
        | None => ret (Err ErrFull)
        | Some next =>
            let next := (next ++ [x])%list in
            match e_size next with
            | None => ret (Err ErrMarshal)
            | Some n =>
                if (2 ^ 20 <=? n)%Z then ret (Err ErrFull)
                else
                  do* modify (logEvent (EvAdmit (IntentID p)));
                  let* e := save next in
                  match e with
                  | Some e => ret (Err e)
                  | None => do* modify (setIntents next); ret (Ok x)
                  end
            end
        end
  end.

Definition Enqueue (p : Payload) (operationID url root : string) : Q (result err Intent) :=
  EnqueueSnapshot p operationID url root None.

(** *** Set *)
Definition withResult (result : BatchResult) (t : Time) (x : Intent) : Intent :=
  let r := x_Result x in
  let b := MkBatch (if bool_decide (b_LocalPath result = "") then x_Root x else b_LocalPath result)
                   (if bool_decide (b_Path result = "") then Path (x_Payload x) else b_Path result)
                   (b_State result) (b_Completed result) (Files (x_Payload x))
                   (b_FailureCode result) (b_FailureKey result) (b_FailureDetail result) (b_FailurePath result) in
  MkIntent (x_Payload x) (x_OperationID x) (x_RepoURL x) (x_Root x) (x_Snapshot x) (x_CreatedAt x)
    (MkQueue b (r_IntentID r) (r_ServerID r) (r_RepoID r) (e_formatNano t) (r_Superseded r)).

(** The first record with this ID, replaced. *)
Fixpoint replaceId (id : string) (y : Intent) (l : list Intent) : list Intent :=
  match l with
  | [] => []
  | x :: rest => if bool_decide (Id x = id) then y :: rest else x :: replaceId id y rest
  end.

Definition Set_ (id expected : string) (result : BatchResult) : Q (option err) :=
  let* s := get in
  if poisoned s then ret (Some ErrPoisoned)
  else match findId id (intents s) with
  | None => ret (Some ErrNotExist)
  | Some x =>
      if negb (bool_decide (State x = expected))
         || (negb (bool_decide (expected = "queued")) && negb (bool_decide (expected = "running")))
      then ret (Some ErrConflict)
      else
        let* t := ask e_now in
        let y := withResult result t x in
        if negb (valid y) then ret (Some ErrInvalidOutcome)
        else
          let next := replaceId id y (intents s) in
          let* e := save next in
          match e with
          | Some e => ret (Some e)
          | None => do* modify (setIntents next); ret None
          end
  end.

(** ** The runner *)
Definition stateOnly (state : string) : BatchResult := MkBatch "" "" state 0 0 "" "" "" "".

Definition interrupted (detail : string) : BatchResult :=
  MkBatch "" "" "failed" 0 0 "HEAD-2025" "head.release_queue_interrupted" detail "".

Definition isBusy (e : err) : bool := match e with ErrBusy => true | _ => false end.

Definition partialFailed (b : BatchResult) : BatchResult :=
  if bool_decide (b_State b = "partial")
  then MkBatch (b_LocalPath b) (b_Path b) "failed" (b_Completed b) (b_Total b) (b_FailureCode b) (b_FailureKey b)
               (b_FailureDetail b) (b_FailurePath b)
  else b.

(** The effect itself: the trace says whether it was a pre-effect refusal. *)
Definition execute (x : Intent) : Q (result err BatchResult) := fun s =>
  let '(dead, w) := e_dies (world s) in
  if dead then (None, setWorld w s)
  else let '(r, w') := e_execute x w in
       (Some r, logEvent (match r with Err ErrBusy => EvBusy (Id x) | _ => EvExec (Id x) end) (setWorld w' s)).

(** *** Between two accesses of the runner the store's mutex is free *)
Fixpoint confirmAll (l : list Confirmation) : Q unit :=
  match l with
  | [] => ret tt
  | c :: rest =>
      do* EnqueueSnapshot (c_payload c) (c_operation c) (c_url c) (c_root c) (c_snapshot c);
      confirmAll rest
  end.

Definition others : Q unit := let* l := ask e_confirmations in confirmAll l.

(** [queueFailure] of an intent whose folder is no longer the confirmed one. *)
Definition queueFailure (x : Intent) : BatchResult :=
  MkBatch (x_Root x) (Path (x_Payload x)) "failed" 0 (Files (x_Payload x)) "HEAD-2017" "head.folder_changed"
          (e_diagnostic ErrSelectionChanged) "".

(** The readiness callback: it closes an intent that lost its binding. *)
Definition queuedReleaseReady (x : Intent) : Q (result err bool) :=
  let* bound := ask (e_bound x) in
  if negb bound then
    do* others;
    let* e := Set_ (Id x) "queued" (queueFailure x) in
    ret (match e with Some e => Err e | None => Ok false end)
  else let* ready := ask (e_bridgeReady x) in ret (Ok ready).

Definition runOne (x : Intent) : Q (option err) :=
  do* others;
  let* r := execute x in
  do* others;
  match r with
  | Err e =>
      if isBusy e then Set_ (Id x) "running" (stateOnly "queued")
      else
        let* e2 := Set_ (Id x) "running" (interrupted (e_diagnostic e)) in
        ret (Some (match e2 with Some e2 => ErrJoin e e2 | None => e end))
  | Ok result => Set_ (Id x) "running" (partialFailed result)
  end.

Fixpoint tickLoop (l : list Intent) : Q (option err) :=
  match l with
  | [] => ret None
  | x :: rest =>
      let* c := ask e_ctxErr in
      match c with
      | Some e => ret (Some e)
      | None =>
          if negb (bool_decide (State x = "queued")) then tickLoop rest
          else
            let* r := queuedReleaseReady x in
            match r with
            | Err e => if isBusy e then tickLoop rest else ret (Some e)
            | Ok false => tickLoop rest
            | Ok true =>
                do* others;
                let* e := Set_ (Id x) "queued" (stateOnly "running") in
                match e with Some e => ret (Some e) | None => runOne x end
            end
      end
  end.

(** [Tick] over the snapshot [List] takes; a second runner holding the runner's
    mutex makes it return at once. *)
Definition Tick (locked : bool) : Q (option err) :=
  if locked then ret None else let* s := get in tickLoop (intents s).

End Store.
