(* ===== verification/AnchorQueueProps.v ===== *)
(** * AnchorQueueProps: what the release queue guarantees

    The invariant of the store file, weakest preconditions of the store's
    methods and of the tick, and the histories of one queue file with deaths of
    the process at any call into the world. *)
From S2P Require Import Prelude GoStrings Naming AnchorQueue.
From Stdlib Require Import Ascii String.

Open Scope string_scope.
Open Scope go_scope.

(** ** Accounting *)
Fixpoint execs (id : string) (tr : list event) : nat :=
  match tr with
  | [] => 0
  | EvExec id' :: tr => (if bool_decide (id' = id) then 1 else 0) + execs id tr
  | _ :: tr => execs id tr
  end.

Fixpoint admits (id : string) (tr : list event) : nat :=
  match tr with
  | [] => 0
  | EvAdmit id' :: tr => (if bool_decide (id' = id) then 1 else 0) + admits id tr
  | _ :: tr => admits id tr
  end.

Definition queuedIn (l : list Intent) (id : string) : bool :=
  existsb (fun x => bool_decide (Id x = id) && bool_decide (State x = "queued")) l.

Definition bit (b : bool) : nat := if b then 1 else 0.

Definition fileList (d : option (list Intent)) : list Intent := default [] d.

Definition creditFor (c : option string) (id : string) : nat :=
  match c with Some i => bit (bool_decide (i = id)) | None => 0 end.

Lemma queuedIn_true l id : queuedIn l id = true <-> exists x, x ∈ l /\ Id x = id /\ State x = "queued".
Proof.
  unfold queuedIn. rewrite existsb_exists. split.
  - intros (x & Hx & Hb). bool_to_prop. exists x. by rewrite list_elem_of_In.
  - intros (x & Hx & <- & Hs). exists x. rewrite <- list_elem_of_In. split; [done|].
    by rewrite !bool_decide_eq_true_2.
Qed.

Lemma bit_le a b : (a = true -> b = true) -> bit a <= bit b.
Proof. destruct a, b; cbn; intros H; try lia. Qed.

(** ** Pure facts on the record lists *)
Definition pendings (l : list Intent) : nat := List.length (List.filter pending l).

Lemma pendings_cons x l : pendings (x :: l) = bit (pending x) + pendings l.
Proof. unfold pendings. cbn. by destruct (pending x). Qed.

Lemma pendings_app l1 l2 : pendings (l1 ++ l2) = pendings l1 + pendings l2.
Proof. unfold pendings. by rewrite List.filter_app, List.length_app. Qed.

Lemma findId_some id l x : findId id l = Some x -> x ∈ l /\ Id x = id.
Proof. intros [Hin Hb]%List.find_some. bool_to_prop. by rewrite list_elem_of_In. Qed.

Lemma findId_none id l : findId id l = None -> id ∉ map Id l.
Proof.
  intros H Hin. apply list_elem_of_fmap in Hin as (x & -> & Hx). apply list_elem_of_In in Hx.
  eapply List.find_none in H; [|exact Hx]. bool_to_prop. done.
Qed.

Lemma replaceId_ids id y l : Id y = id -> map Id (replaceId id y l) = map Id l.
Proof.
  intros Hy. induction l as [|x l IH]; [done|]. cbn. case_bool_decide as Hx; cbn; [congruence|by rewrite IH].
Qed.

Lemma replaceId_elem id y l z : NoDup (map Id l) -> id ∈ map Id l -> Id y = id ->
  z ∈ replaceId id y l <-> z = y \/ (z ∈ l /\ Id z <> id).
Proof.
  induction l as [|x l IH]; intros Hnd Hin Hy; [by apply elem_of_nil in Hin|].
  cbn in Hnd, Hin |- *. apply NoDup_cons in Hnd as [Hni Hnd]. case_bool_decide as Hx.
  - rewrite !elem_of_cons. split.
    + intros [->|Hz]; [by left|]. right. split; [by right|]. intros Hz'. apply Hni. rewrite Hx, <- Hz'.
      apply list_elem_of_fmap. by exists z.
    + intros [->|[[->|Hz] Hne]]; [by left|done|by right].
  - apply elem_of_cons in Hin as [Hin|Hin]; [congruence|].
    rewrite !elem_of_cons, IH by done. split.
    + intros [->|[->|[? ?]]]; auto.
    + intros [->|[[->|?] ?]]; auto.
Qed.

Lemma replaceId_pendings id y l x : findId id l = Some x -> pending x = true -> pendings (replaceId id y l) <= pendings l.
Proof.
  unfold findId. induction l as [|z l IH]; [done|]. cbn [List.find replaceId]. case_bool_decide as Hz.
  - intros [= ->] Hp. rewrite !pendings_cons, Hp. destruct (pending y); cbn; lia.
  - intros Hf Hp. rewrite !pendings_cons. specialize (IH Hf Hp). lia.
Qed.

Lemma replaceId_length id y l : List.length (replaceId id y l) = List.length l.
Proof. induction l as [|x l IH]; [done|]. cbn. case_bool_decide; cbn; [done|by rewrite IH]. Qed.

Lemma supersede_fields p x : Id (supersede p x) = Id x /\ State (supersede p x) = State x /\
  pending (supersede p x) = pending x /\ (pending x = true -> supersede p x = x).
Proof.
  unfold supersede. destruct (pending x) eqn:Hp; cbn [negb andb]; [by rewrite Hp|].
  destruct (_ && _); [|by rewrite Hp]. split_and!; [done|done|exact Hp|done].
Qed.

Lemma supersede_map p l : map Id (map (supersede p) l) = map Id l /\ pendings (map (supersede p) l) = pendings l.
Proof.
  induction l as [|x l [IH1 IH2]]; [done|]. destruct (supersede_fields p x) as (H1 & _ & H3 & _).
  cbn [map]. rewrite !pendings_cons, H3, IH2, H1, IH1. done.
Qed.

Lemma evict_spec t l l' : evict t l = Some l' ->
  sublist l' l /\ S (List.length l') = List.length l /\ pendings l' = pendings l /\
  (forall x, x ∈ l -> pending x = true -> x ∈ l').
Proof.
  revert l'. induction l as [|x l IH]; intros l' H; cbn in H; [done|]. destruct (evictable t x) eqn:He.
  - injection H as <-. unfold evictable in He.
    apply andb_true_iff in He as [[_ Hnp%negb_true_iff]%andb_true_iff _]. rewrite pendings_cons, Hnp.
    split_and!; [by apply sublist_cons|done|done|]. intros y [->|Hy]%elem_of_cons Hp; [congruence|done].
  - destruct (evict t l) as [r|] eqn:Hr; [|done]. injection H as <-. destruct (IH r eq_refl) as (H1 & H2 & H3 & H4).
    rewrite !pendings_cons, H3. split_and!; [by apply sublist_skip|cbn; by rewrite H2|done|].
    intros y [->|Hy]%elem_of_cons Hp; [by left|right; auto].
Qed.

Lemma room_spec t l l' : room t l = Some l' -> List.length l <= maxRecords ->
  sublist l' l /\ List.length l' < maxRecords /\ pendings l' = pendings l /\
  (forall x, x ∈ l -> pending x = true -> x ∈ l').
Proof.
  unfold room. intros H Hl. destruct (Nat.leb_spec maxRecords (List.length l)).
  - apply evict_spec in H as (? & ? & ? & ?). split_and!; [done|lia|done|done].
  - injection H as <-. done.
Qed.

Section Queue.
  Context `{UnicodeTables} {W : Type} `{!Env W}.
  #[local] Notation st := (AnchorQueue.st (W:=W)).

(** Documented behaviour of package time: the layout parses what it prints. *)
Hypothesis parse_format : forall t, e_parseNano (e_formatNano t) = true.
(** The executor's contract: a result without an error is an outcome, never a
    request to queue again. *)
Hypothesis execute_terminal : forall x w b w', e_execute x w = (Ok b, w') -> b_State b <> "queued".

(** ** The store invariant *)
Record storeInv (l : list Intent) : Prop := {
  si_valid : Forall (fun x => valid x = true) l;
  si_unique : NoDup (map Id l);
  si_length : List.length l <= maxRecords;
  si_pending : pendings l <= maxPending
}.

Definition onceAt (c : option string) (l : list Intent) (tr : list event) : Prop :=
  forall id, execs id tr + bit (queuedIn l id) + creditFor c id <= admits id tr.

Definition Dur (s : st) : Prop := storeInv (fileList (disk s)) /\ onceAt None (fileList (disk s)) (trace s).

Definition Inv (c : option string) (s : st) : Prop :=
  storeInv (fileList (disk s)) /\ onceAt c (fileList (disk s)) (trace s) /\
  (poisoned s = false -> intents s = fileList (disk s)).

Lemma once_drop c l tr : onceAt c l tr -> onceAt None l tr.
Proof. intros Ho id. specialize (Ho id). cbn. lia. Qed.

Lemma once_weaken c l l' tr : (forall id, queuedIn l' id = true -> queuedIn l id = true) -> onceAt c l tr -> onceAt c l' tr.
Proof. intros Hq Ho id. specialize (Ho id). pose proof (bit_le _ _ (Hq id)). lia. Qed.

Lemma Inv_Dur c s : Inv c s -> Dur s.
Proof. intros (H1 & H2 & _). split; [done|by eapply once_drop]. Qed.

(** Two states that differ only in the world. *)
Definition same (s s' : st) : Prop :=
  intents s' = intents s /\ poisoned s' = poisoned s /\ disk s' = disk s /\ trace s' = trace s.

Lemma same_Dur s s' : same s s' -> Dur s -> Dur s'.
Proof. intros (_ & _ & H1 & H2). unfold Dur. by rewrite H1, H2. Qed.

Lemma same_Inv c s s' : same s s' -> Inv c s -> Inv c s'.
Proof. intros (H1 & H2 & H3 & H4). unfold Inv. by rewrite H1, H2, H3, H4. Qed.

Lemma queue_same_trans s1 s2 s3 : same s1 s2 -> same s2 s3 -> same s1 s3.
Proof. intros (A & B & C & D) (A' & B' & C' & D'). unfold same. by rewrite A', B', C', D'. Qed.

Lemma wpc_ask {A} (f : W -> A * W) R s : Dur s ->
  (forall a w w' s', f w = (a, w') -> same s s' -> R a s') -> wpc Dur (ask f) R s.
Proof.
  intros Hd HR. unfold wpc, ask. destruct (e_dies (world s)) as [[] w]; [exact Hd|].
  destruct (f w) as [a w'] eqn:Hf. by eapply HR.
Qed.

Lemma wpc_get R s : R s s -> wpc Dur AnchorQueue.get R s.
Proof. done. Qed.

Lemma wpc_modify f R s : R tt (f s) -> wpc Dur (modify f) R s.
Proof. done. Qed.

(** ** Saving *)
Lemma writeTemp_wp next R s : Dur s -> (forall e s', same s s' -> R e s') -> wpc Dur (writeTemp next) R s.
Proof.
  intros Hd HR. unfold writeTemp.
  assert (forall (e : option err) op s1, same s s1 -> forall K,
    (forall e s', same s s' -> wpc Dur (K e) R s') ->
    wpc Dur (let* e := match e with Some e => ret (Some e) | None => ask (e_fs op) end in K e) R s1) as Hstep.
  { intros e op s1 Hs K HK. apply wpc_bind. destruct e; [by apply wpc_ret, HK|].
    apply wpc_ask; [by eapply same_Dur|]. intros a w w' s2 _ Hs2. apply HK. by eapply queue_same_trans. }
  apply wpc_bind, wpc_ask; [done|]. intros e w w' s1 _ Hs1.
  apply Hstep; [done|]. intros e2 s2 Hs2. apply Hstep; [done|]. intros e3 s3 Hs3.
  apply wpc_bind, wpc_ask; [by eapply same_Dur|]. intros c ? ? s4 _ Hs4. apply wpc_ret, HR. by eapply queue_same_trans.
Qed.

(** [save] ends with the file replaced, or poisons the store and leaves the old
    or the new file. *)
Lemma save_wp next R s : Dur s -> storeInv next -> onceAt None next (trace s) ->
  (forall s', intents s' = intents s -> poisoned s' = poisoned s -> disk s' = Some next -> trace s' = trace s -> R None s') ->
  (forall e s', poisoned s' = true -> trace s' = trace s -> (disk s' = disk s \/ disk s' = Some next) -> R (Some e) s') ->
  wpc Dur (save next) R s.
Proof.
  intros Hd Hn Ho Hok Hbad. unfold save. apply wpc_bind.
  assert (forall e s', trace s' = trace s -> (disk s' = disk s \/ disk s' = Some next) ->
    wpc Dur (let* t := ask e_now in do* modify (poison (e_formatNano t)); ret (Some e)) R s') as Hp.
  { intros e s' Ht Hdk. assert (Dur s') as Hd'.
    { unfold Dur in *. rewrite Ht. destruct Hdk as [-> | ->]; [done|]. by split. }
    apply wpc_bind, wpc_ask; [done|]. intros t w w' s2 _ (_ & _ & H3 & H4).
    apply wpc_bind. cbn. apply Hbad; [done|cbn; congruence|cbn; by rewrite H3]. }
  unfold saveFile. destruct (e_size next) as [n|]; [|apply wpc_ret; by apply Hp; auto].
  destruct (2 ^ 20 <=? n)%Z; [apply wpc_ret; by apply Hp; auto|].
  apply wpc_bind, wpc_ask; [done|]. intros [e|] w w' s1 _ Hs1; [apply wpc_ret; apply Hp; [by apply Hs1|left; by apply Hs1]|].
  apply wpc_bind, writeTemp_wp; [by eapply same_Dur|]. intros [e|] s2 Hs2; pose proof (queue_same_trans _ _ _ Hs1 Hs2) as Hs12;
    [apply wpc_ret; apply Hp; [by apply Hs12|left; by apply Hs12]|].
  apply wpc_bind, wpc_ask; [by eapply same_Dur|]. intros [e|] w2 w2' s3 _ Hs3; pose proof (queue_same_trans _ _ _ Hs12 Hs3) as Hs13;
    [apply wpc_ret; apply Hp; [by apply Hs13|left; by apply Hs13]|].
  apply wpc_bind, wpc_modify. destruct Hs13 as (Hi & Hpo & Hdk & Ht).
  apply wpc_ask.
  - unfold Dur. cbn. rewrite Ht. by split.
  - intros [e|] w3 w3' s4 _ (H1 & H2 & H3 & H4); cbn in *.
    + apply Hp; [congruence|right; congruence].
    + apply (wpc_ret Dur), Hok; congruence.
Qed.

(** ** Set *)
Lemma withResult_fields b t x : Id (withResult b t x) = Id x /\ State (withResult b t x) = b_State b.
Proof. done. Qed.

Lemma replace_storeInv id y l x : storeInv l -> findId id l = Some x -> pending x = true -> valid y = true -> Id y = id ->
  storeInv (replaceId id y l).
Proof.
  intros [H1 H2 H3 H4] Hf Hp Hv Hy. pose proof (findId_some _ _ _ Hf) as [Hx Hid].
  assert (id ∈ map Id l) as Hin by (apply list_elem_of_fmap; by exists x).
  split.
  - apply Forall_forall. intros z Hz. apply replaceId_elem in Hz as [->|[Hz _]]; [done| |done..].
    rewrite Forall_forall in H1. by apply H1.
  - by rewrite replaceId_ids.
  - by rewrite replaceId_length.
  - pose proof (replaceId_pendings id y l x Hf Hp). lia.
Qed.

Lemma replace_queued id y l x id' : storeInv l -> findId id l = Some x -> Id y = id ->
  queuedIn (replaceId id y l) id' = true -> if bool_decide (id' = id) then State y = "queued" else queuedIn l id' = true.
Proof.
  intros [_ Hnd _ _] Hf Hy Hq. pose proof (findId_some _ _ _ Hf) as [Hx Hid].
  assert (id ∈ map Id l) as Hin by (apply list_elem_of_fmap; by exists x).
  apply queuedIn_true in Hq as (z & Hz & Hzi & Hzs). apply replaceId_elem in Hz; [|done..]. case_bool_decide as Hd.
  - destruct Hz as [->|[_ Hne]]; [done|congruence].
  - destruct Hz as [->|[Hz _]]; [congruence|]. apply queuedIn_true. by exists z.
Qed.

Definition after (c1 c2 : option string) (r : option err) (s : st) : Prop :=
  match r with None => Inv c1 s | Some _ => Inv c2 s end.

(** [c1] is the credit if the transition is saved; it may differ from the credit
    in hand only by the queued bit of this record. *)
Lemma Set_wp id expected b c c1 s : Inv c s ->
  (forall x, findId id (intents s) = Some x -> State x = expected ->
     expected = "queued" \/ expected = "running" ->
     forall y tr, Id y = id -> State y = b_State b -> storeInv (intents s) ->
     onceAt c (intents s) tr -> onceAt c1 (replaceId id y (intents s)) tr) ->
  wpc Dur (Set_ id expected b) (after c1 None) s.
Proof.
  intros HI Hc. unfold Set_. apply wpc_bind, wpc_get.
  assert (forall s', same s s' -> Inv None s') as Hkeep.
  { intros s' Hs. apply (same_Inv c s s' Hs) in HI as (H1 & H2 & H3). split_and!; [done|by eapply once_drop|done]. }
  destruct (poisoned s) eqn:Hp; [by apply wpc_ret, Hkeep|].
  destruct HI as (H1 & H2 & H3). specialize (H3 Hp). rewrite <- H3 in H1, H2.
  assert (Dur s) as Hd by (split; [by rewrite <- H3|rewrite <- H3; by eapply once_drop]).
  destruct (findId id (intents s)) as [x|] eqn:Hf; [|by apply wpc_ret, Hkeep].
  destruct (negb (bool_decide (State x = expected)) || _) eqn:Hb; [by apply wpc_ret, Hkeep|].
  apply orb_false_iff in Hb as [He Hq]. bool_to_prop.
  assert (expected = "queued" \/ expected = "running") as Hex.
  { apply andb_false_iff in Hq as [Hq|Hq]; bool_to_prop; auto. }
  apply wpc_bind, wpc_ask; [done|]. intros t w w' s1 _ Hs1. cbv zeta.
  destruct (valid (withResult b t x)) eqn:Hv; cbn [negb]; [|by apply wpc_ret, Hkeep].
  pose proof (findId_some _ _ _ Hf) as [_ Hid].
  assert (pending x = true) as Hpx.
  { unfold pending. rewrite He. by destruct Hex as [-> | ->]. }
  set (next := replaceId id (withResult b t x) (intents s)).
  assert (storeInv next) as Hni by by eapply replace_storeInv.
  assert (onceAt c1 next (trace s)) as Hno by by eapply Hc.
  pose proof Hs1 as (Hs_i & Hs_p & Hs_d & Hs_t).
  apply wpc_bind, save_wp; [by eapply same_Dur|done|rewrite Hs_t; by eapply once_drop| |].
  - intros s2 Hi2 Hp2 Hd2 Ht2. apply wpc_bind. cbn. split_and!; cbn.
    + by rewrite Hd2.
    + by rewrite Hd2, Ht2, Hs_t.
    + intros _. by rewrite Hd2.
  - intros e s2 Hp2 Ht2 Hd2. apply wpc_ret. unfold after, Inv. rewrite Hp2, Ht2, Hs_t.
    destruct Hd2 as [-> | ->]; [rewrite Hs_d, <- H3|]; (split_and!; [done|by eapply once_drop|done]).
Qed.

Lemma Set_start id s : Inv None s -> wpc Dur (Set_ id "queued" (stateOnly "running")) (after (Some id) None) s.
Proof.
  intros HI. apply (Set_wp _ _ _ None); [done|]. intros x Hf Hx _ y tr Hy Hs Hsi Ho id'.
  specialize (Ho id'). pose proof (findId_some _ _ _ Hf) as [Hin Hid]. cbn [creditFor] in *.
  assert (queuedIn (replaceId id y (intents s)) id' = true -> if bool_decide (id' = id) then State y = "queued" else queuedIn (intents s) id' = true) as Hq
    by by eapply replace_queued.
  destruct (bool_decide (id' = id)) eqn:Hd; bool_to_prop.
  - subst id'. rewrite bool_decide_eq_true_2 by done.
    assert (queuedIn (intents s) id = true) as Hqi by (apply queuedIn_true; by exists x). rewrite Hqi in Ho.
    destruct (queuedIn (replaceId id y (intents s)) id); cbn in *; [by rewrite (Hq eq_refl) in Hs|lia].
  - rewrite bool_decide_eq_false_2 by done. pose proof (bit_le _ _ Hq). cbn. lia.
Qed.

(** A record that leaves its state for one that is not queued gives nothing up. *)
Lemma Set_settled id expected b c s : Inv c s -> (b_State b = "queued" -> c = Some id) ->
  wpc Dur (Set_ id expected b) (after None None) s.
Proof.
  intros HI Hb. apply (Set_wp _ _ _ c); [done|]. intros x Hf _ _ y tr Hy Hs Hsi Ho id'.
  specialize (Ho id').
  assert (queuedIn (replaceId id y (intents s)) id' = true -> if bool_decide (id' = id) then State y = "queued" else queuedIn (intents s) id' = true) as Hq
    by by eapply replace_queued.
  cbn [creditFor]. destruct (queuedIn (replaceId id y (intents s)) id'); cbn [bit]; [|lia].
  specialize (Hq eq_refl). destruct (bool_decide (id' = id)) eqn:Hd; bool_to_prop.
  - subst id'. rewrite Hs in Hq. rewrite (Hb Hq) in Ho. cbn in Ho. rewrite bool_decide_eq_true_2 in Ho by done. cbn in Ho. lia.
  - rewrite Hq in Ho. cbn in Ho. lia.
Qed.

Lemma Set_end id b c s : Inv c s -> (b_State b = "queued" -> c = Some id) ->
  wpc Dur (Set_ id "running" b) (after None None) s.
Proof. apply Set_settled. Qed.

Lemma Set_close x s : Inv None s -> wpc Dur (Set_ (Id x) "queued" (queueFailure x)) (after None None) s.
Proof. intros HI. by apply (Set_settled _ _ _ None). Qed.

(** ** Enqueue *)
Lemma supersede_valid p x : valid (supersede p x) = valid x.
Proof. unfold supersede. by destruct (_ && _). Qed.

Lemma queuedIn_sublist l l' id : sublist l' l -> queuedIn l' id = true -> queuedIn l id = true.
Proof.
  rewrite !queuedIn_true. intros Hs (x & Hx & Hq). exists x. split; [|done]. by eapply elem_of_sublist.
Qed.

(** The list an admission would save. *)
Lemma admitted_list p l l' x t : storeInv l -> findId (IntentID p) l = None -> Id x = IntentID p -> State x = "queued" ->
  valid x = true -> (maxPending <=? List.length (List.filter pending (map (supersede p) l)))%nat = false ->
  room t (map (supersede p) l) = Some l' ->
  storeInv (l' ++ [x]) /\
  (forall id, queuedIn (l' ++ [x]) id = true -> id = Id x \/ queuedIn l id = true) /\
  (forall y, y ∈ l -> pending y = true -> y ∈ (l' ++ [x])%list).
Proof.
  intros [H1 H2 H3 H4] Hf Hid Hst Hv Hp Hr. destruct (supersede_map p l) as [Hids Hpend].
  apply room_spec in Hr as (Hsub & Hlen & Hpn & Hkeep); [|by rewrite List.length_map].
  assert (forall y, y ∈ l' -> exists z, z ∈ l /\ y = supersede p z) as Hfrom.
  { intros y Hy. eapply elem_of_sublist in Hy; [|exact Hsub]. apply list_elem_of_fmap in Hy as (z & -> & Hz). eauto. }
  split_and!; [split| |].
  - apply Forall_app. split; [|by constructor]. apply Forall_forall. intros y Hy. apply Hfrom in Hy as (z & Hz & ->).
    rewrite supersede_valid. rewrite Forall_forall in H1. by apply H1.
  - rewrite map_app. apply NoDup_app. split_and!.
    + eapply sublist_NoDup; [rewrite <- Hids in H2; exact H2|]. by apply (fmap_sublist Id).
    + intros k Hk ->%list_elem_of_singleton. apply (findId_none _ _ Hf). rewrite <- Hid, <- Hids.
      eapply elem_of_sublist; [exact Hk|]. by apply (fmap_sublist Id).
    + apply NoDup_singleton.
  - rewrite List.length_app. cbn. lia.
  - rewrite pendings_app, Hpn. fold (pendings (map (supersede p) l)) in Hp. apply Nat.leb_gt in Hp.
    rewrite pendings_cons. cbn. destruct (pending x); cbn; lia.
  - intros id (y & Hy & <- & Hq)%queuedIn_true. apply elem_of_app in Hy as [Hy| ->%list_elem_of_singleton]; [|by left].
    right. apply Hfrom in Hy as (z & Hz & ->). destruct (supersede_fields p z) as (Hi & Hs & _).
    apply queuedIn_true. exists z. split_and!; [done|by rewrite Hi|congruence].
  - intros y Hy Hpy. apply elem_of_app. left. apply Hkeep; [|done]. apply list_elem_of_fmap. exists y.
    destruct (supersede_fields p y) as (_ & _ & _ & Heq). by rewrite Heq.
Qed.

(** What an answer of [EnqueueSnapshot] means for the list it started from. *)
Definition enqueued (c : option string) (s : st) (p : Payload) (r : result err Intent) (s' : st) : Prop :=
  Inv c s' /\
  match r with
  | Ok x => Id x = IntentID p /\ x ∈ intents s' /\ (forall y, y ∈ intents s -> pending y = true -> y ∈ intents s')
  | Err _ => poisoned s' = false -> intents s' = intents s
  end.

Lemma EnqueueSnapshot_wp c p op url root snap s : Inv c s ->
  wpc Dur (EnqueueSnapshot p op url root snap) (enqueued c s p) s.
Proof.
  intros HI. unfold EnqueueSnapshot. apply wpc_bind, wpc_get. destruct (poisoned s) eqn:Hp; [apply wpc_ret; by split|].
  destruct (findId (IntentID p) (intents s)) as [x|] eqn:Hf.
  { destruct (sameRequest _ _ _ _ _ _); apply wpc_ret; (split; [done|]); [|done]. by apply findId_some in Hf as [? ?]. }
  pose proof HI as (H1 & H2 & H3). specialize (H3 Hp). rewrite <- H3 in H1, H2.
  apply wpc_bind, wpc_ask; [by eapply Inv_Dur|]. intros t w w' s1 _ Hs1. cbv zeta.
  pose proof Hs1 as (Hi & Hpo & Hdk & Ht). pose proof (same_Inv _ _ _ Hs1 HI) as HI1.
  assert (forall e, enqueued c s p (Err e) s1) as Hrefuse by (intros e; split; [done|congruence]).
  set (x := freshIntent p op url root snap t). destruct (valid x) eqn:Hv; cbn [negb]; [|apply wpc_ret; auto].
  destruct (maxPending <=? _)%nat eqn:Hmax; [apply wpc_ret; auto|].
  destruct (room t _) as [l'|] eqn:Hr; [|apply wpc_ret; auto].
  destruct (e_size _) as [n|]; [|apply wpc_ret; auto]. destruct (2 ^ 20 <=? n)%Z; [apply wpc_ret; auto|].
  destruct (admitted_list p (intents s) l' x t H1 Hf) as (Hsi & Hq & Hk); try done.
  apply wpc_bind, wpc_modify.
  set (s2 := logEvent (EvAdmit (IntentID p)) s1). set (next := (l' ++ [x])%list) in *.
  assert (onceAt c next (trace s2)) as Hon.
  { intros id. specialize (H2 id). cbn [trace s2 logEvent execs admits] in *. rewrite Ht.
    destruct (queuedIn next id) eqn:Hqn; cbn [bit]; [|lia]. apply Hq in Hqn as [->|Hqn]; [|rewrite Hqn in H2; cbn in H2; lia].
    change (Id x) with (IntentID p) in *. rewrite bool_decide_eq_true_2 by done. lia. }
  assert (onceAt c (intents s) (trace s2)) as Hold.
  { intros id. specialize (H2 id). cbn [trace s2 logEvent execs admits] in *. rewrite Ht. lia. }
  apply wpc_bind, save_wp; [|done|by eapply once_drop| |].
  - split; cbn [disk s2 logEvent]; rewrite Hdk, <- H3; [done|by eapply once_drop].
  - intros s3 Hi3 Hp3 Hd3 Ht3. apply wpc_bind. cbn. split.
    + split_and!; cbn; [by rewrite Hd3|by rewrite Hd3, Ht3|intros _; by rewrite Hd3].
    + split_and!; [done|apply elem_of_app; right; by apply list_elem_of_singleton|done].
  - intros e s3 Hp3 Ht3 Hd3. apply wpc_ret. split; [|congruence]. unfold Inv. rewrite Hp3, Ht3.
    destruct Hd3 as [-> | ->]; [cbn [disk s2 logEvent]; rewrite Hdk, <- H3|]; by split_and!.
Qed.

(** ** Tick *)
Lemma execute_wp x R s : Inv (Some (Id x)) s ->
  (forall b w w' s', e_execute x w = (Ok b, w') -> Inv None s' -> R (Ok b) s') ->
  (forall e s', e <> ErrBusy -> Inv None s' -> R (Err e) s') ->
  (forall s', Inv (Some (Id x)) s' -> R (Err ErrBusy) s') ->
  wpc Dur (execute x) R s.
Proof.
  intros HI Hok Herr Hbusy. unfold wpc, execute. destruct (e_dies (world s)) as [[] w].
  { by apply (Inv_Dur (Some (Id x))). }
  destruct (e_execute x w) as [r w'] eqn:He. destruct HI as (H1 & H2 & H3).
  assert (onceAt None (fileList (disk s)) (EvExec (Id x) :: trace s)) as Hc.
  { intros id. specialize (H2 id). cbn [execs admits creditFor] in *. case_bool_decide; cbn in *; lia. }
  destruct r as [b|e]; [eapply Hok; [exact He|]|]; [by split_and!|].
  destruct e; try (by apply Herr; [discriminate|split_and!]). apply Hbusy. by split_and!.
Qed.

(** Confirmations enqueued meanwhile keep the invariant and the credit in hand. *)
Lemma others_wp c s : Inv c s -> wpc Dur others (fun _ => Inv c) s.
Proof.
  intros HI. unfold others. apply wpc_bind, wpc_ask; [by eapply Inv_Dur|]. intros l w w' s1 _ Hs1.
  pose proof (same_Inv _ _ _ Hs1 HI) as HI1. clear -HI1. revert s1 HI1.
  induction l as [|d l IH]; intros s1 HI1; cbn [confirmAll]; [by apply wpc_ret|].
  apply wpc_bind. eapply wpc_mono; [by apply EnqueueSnapshot_wp|]. intros r s2 [HI2 _]. by apply IH.
Qed.

Lemma runOne_wp x s : Inv (Some (Id x)) s -> wpc Dur (runOne x) (fun _ => Inv None) s.
Proof.
  intros HI. unfold runOne. apply wpc_bind. eapply wpc_mono; [by apply others_wp|]. intros ? s0 HI0.
  apply wpc_bind, execute_wp; [done|..].
  - intros b w w' s' He HI'. apply wpc_bind. eapply wpc_mono; [by apply others_wp|]. intros ? s2 HI2.
    eapply wpc_mono; [apply (Set_end _ _ None); [done|]|by intros [] ? ?].
    intros Hq. unfold partialFailed in Hq. case_bool_decide; [done|]. by apply execute_terminal in He.
  - intros e s' Hne HI'. apply wpc_bind. eapply wpc_mono; [by apply others_wp|]. intros ? s2 HI2.
    destruct (isBusy e) eqn:Hb; [by destruct e|]. apply wpc_bind.
    eapply wpc_mono; [by apply (Set_end _ _ None)|]. intros [] s3 HI3; by apply wpc_ret.
  - intros s' HI'. apply wpc_bind. eapply wpc_mono; [by apply others_wp|]. intros ? s2 HI2.
    cbn [isBusy]. eapply wpc_mono; [by apply (Set_end _ _ (Some (Id x)))|by intros [] ? ?].
Qed.

(** Readiness admits nothing and executes nothing, also when it closes the intent. *)
Lemma queuedReleaseReady_wp x s : Inv None s -> wpc Dur (queuedReleaseReady x) (fun _ => Inv None) s.
Proof.
  intros HI. unfold queuedReleaseReady. apply wpc_bind, wpc_ask; [by eapply Inv_Dur|]. intros b w w' s1 _ Hs1.
  pose proof (same_Inv _ _ _ Hs1 HI) as HI1. destruct (negb b).
  - apply wpc_bind. eapply wpc_mono; [by apply others_wp|]. intros ? s2 HI2. apply wpc_bind.
    eapply wpc_mono; [by apply Set_close|]. intros [e|] s3 HI3; by apply wpc_ret.
  - apply wpc_bind, wpc_ask; [by eapply Inv_Dur|]. intros r w2 w2' s2 _ Hs2. apply wpc_ret. by eapply same_Inv.
Qed.

Lemma tickLoop_wp l s : Inv None s -> wpc Dur (tickLoop l) (fun _ => Inv None) s.
Proof.
  revert s. induction l as [|x l IH]; intros s HI; cbn [tickLoop]; [by apply wpc_ret|].
  apply wpc_bind, wpc_ask; [by eapply Inv_Dur|]. intros [e|] w w' s1 _ Hs1; pose proof (same_Inv _ _ _ Hs1 HI) as HI1;
    [by apply wpc_ret|].
  destruct (negb _); [by apply IH|]. apply wpc_bind. eapply wpc_mono; [by apply queuedReleaseReady_wp|].
  intros r s2 HI2. destruct r as [[|]|e]; [|by apply IH|destruct (isBusy e); [by apply IH|by apply wpc_ret]].
  apply wpc_bind. eapply wpc_mono; [by apply others_wp|]. intros ? s3 HI3.
  apply wpc_bind. eapply wpc_mono; [by apply Set_start|]. intros [e|] s4 HI4; [by apply wpc_ret|by apply runOne_wp].
Qed.

Lemma Tick_wp locked s : Inv None s -> wpc Dur (Tick locked) (fun _ => Inv None) s.
Proof. intros HI. unfold Tick. destruct locked; [by apply wpc_ret|]. apply wpc_bind, wpc_get. by apply tickLoop_wp. Qed.

(** ** Open *)
Lemma interrupt_fields t x : Id (interrupt t x) = Id x /\ State (interrupt t x) <> "running" /\
  (State x <> "running" -> interrupt t x = x) /\ (pending (interrupt t x) = true -> pending x = true) /\
  (State (interrupt t x) = "queued" -> State x = "queued").
Proof.
  unfold interrupt. case_bool_decide as Hr; [|by split_and!].
  split_and!; [done|done|congruence| |done]. intros _. unfold pending. by rewrite Hr.
Qed.

Lemma interrupt_valid t x : valid x = true -> valid (interrupt t x) = true.
Proof.
  unfold interrupt. case_bool_decide as Hr; [|done]. unfold valid. intros [H1 H2]%andb_true_iff.
  apply andb_true_iff. split; [exact H1|]. unfold resultOk in *. unfold State in Hr. cbn in *. rewrite Hr in H2.
  rewrite !(bool_decide_eq_true_2 ("running" = "running")) in H2 by done. cbn in H2.
  rewrite parse_format. repeat rewrite andb_true_iff in H2. repeat rewrite andb_true_iff. destruct_and!. split_and!; done.
Qed.

(** What [recover] makes of a valid list. *)
Definition recovered (l l' : list Intent) (again : bool) : Prop :=
  map Id l' = map Id l /\ Forall2 (fun x y => State y <> "running" /\ exists t, y = interrupt t x) l l' /\
  (again = false -> l' = l).

Lemma recover_wp ids l s : Dur s -> Forall (fun x => valid x = true) l -> NoDup (map Id l) ->
  (forall x, x ∈ l -> Id x ∉ ids) ->
  wpc Dur (recover ids l) (fun r s' => same s s' /\ exists l' again, r = Ok (l', again) /\ recovered l l' again) s.
Proof.
  intros Hd Hv. revert ids s Hd. induction Hv as [|x l Hx _ IH]; intros ids s Hd Hnd Hids; cbn [recover].
  - apply wpc_ret. split; [done|]. exists [], false. done.
  - cbn in Hnd. apply NoDup_cons in Hnd as [Hni Hnd]. rewrite Hx, bool_decide_eq_false_2 by (apply Hids; by left). cbn.
    apply wpc_bind.
    assert (forall t s1, same s s1 -> (State x = "running" \/ t = 0%Z) -> wpc Dur (let* r := recover ({[Id x]} ∪ ids) l in
        match r with Err e => ret (Err e) | Ok (rest', again) =>
          ret (Ok (interrupt t x :: rest', bool_decide (State x = "running") || again)) end)
        (fun r s' => same s s' /\ exists l' again, r = Ok (l', again) /\ recovered (x :: l) l' again) s1) as Hk.
    { intros t s1 Hs1 _. apply wpc_bind. eapply wpc_mono; [apply (IH _ s1)|].
      - by eapply same_Dur.
      - done.
      - intros y Hy. rewrite not_elem_of_union, not_elem_of_singleton. split; [|apply Hids; by right].
        intros Heq. apply Hni. rewrite <- Heq. apply list_elem_of_fmap. by exists y.
      - intros r s2 (Hs2 & l' & again & -> & H1 & H2 & H3). apply wpc_ret. split; [by eapply queue_same_trans|].
        destruct (interrupt_fields t x) as (Hi & Hr & Hsame & _). eexists _, _. split; [done|]. split_and!.
        + cbn. by rewrite Hi, H1.
        + constructor; [eauto|done].
        + intros [Hnr Hag]%orb_false_iff. bool_to_prop. by rewrite Hsame, H3. }
    case_bool_decide as Hr.
    + apply wpc_ask; [done|]. intros t w w' s1 _ Hs1. apply Hk; auto.
    + apply wpc_ret. apply Hk; [done|auto].
Qed.

Lemma recovered_store l l' again : storeInv l -> recovered l l' again ->
  storeInv l' /\ (forall id, queuedIn l' id = true -> queuedIn l id = true).
Proof.
  intros [H1 H2 H3 H4] (Hid & Hall & _). split; [split|].
  - clear -H1 Hall parse_format. induction Hall as [|x y l l' [_ [t ->]] _ IH]; [constructor|].
    apply Forall_cons in H1 as [Hx H1]. constructor; [by apply interrupt_valid|auto].
  - by rewrite Hid.
  - by rewrite <- (Forall2_length _ _ _ Hall).
  - enough (pendings l' <= pendings l) by lia. clear -Hall. induction Hall as [|x y l l' [_ [t ->]] _ IH]; [done|].
    rewrite !pendings_cons. destruct (interrupt_fields t x) as (_ & _ & _ & Hp & _). pose proof (bit_le _ _ Hp). lia.
  - intros id. rewrite !queuedIn_true. intros (y & Hy & Hi & Hs). clear -Hall Hy Hi Hs.
    induction Hall as [|x z l l' [_ [t ->]] _ IH]; [by apply elem_of_nil in Hy|].
    apply elem_of_cons in Hy as [->|Hy].
    + destruct (interrupt_fields t x) as (Hid & _ & _ & _ & Hq). exists x. split_and!; [by left|congruence|by apply Hq].
    + destruct (IH Hy) as (u & Hu & ?). exists u. split; [by right|done].
Qed.

Lemma queue_Open_wp path s : Dur s -> wpc Dur (Open path) (fun r s' => Dur s' /\ (r = None -> Inv None s')) s.
Proof.
  intros Hd. unfold Open. destruct (negb (IsAbs path)); [by apply wpc_ret|]. apply wpc_bind, wpc_get.
  destruct (disk s) as [l|] eqn:Hdk.
  2: { apply wpc_bind. cbn. unfold Dur, Inv in *. cbn. rewrite Hdk in *. destruct Hd. split; [by split|]. by intros _. }
  assert (storeInv l /\ onceAt None l (trace s)) as [Hsi Hon] by (unfold Dur in Hd; by rewrite Hdk in Hd).
  apply wpc_bind, wpc_ask; [done|]. intros [e|] w w' s1 _ Hs1; pose proof (same_Dur _ _ Hs1 Hd) as Hd1; [by apply wpc_ret|].
  destruct (maxRecords <? List.length l)%nat; [by apply wpc_ret|].
  apply wpc_bind. eapply wpc_mono; [apply recover_wp; [done|apply Hsi|apply Hsi|set_solver]|].
  intros r s2 (Hs2 & l' & again & -> & Hrec). pose proof (queue_same_trans _ _ _ Hs1 Hs2) as (_ & _ & Hd2 & Ht2).
  destruct (recovered_store _ _ _ Hsi Hrec) as [Hsi' Hq].
  assert (onceAt None l' (trace s)) as Hon' by by eapply once_weaken.
  apply wpc_bind, wpc_modify. destruct again.
  - apply save_wp; cbn; [|done|by rewrite Ht2| |].
    + unfold Dur. cbn. by rewrite Hd2, Ht2, Hdk.
    + intros s3 Hi3 Hp3 Hd3 Ht3. unfold Dur, Inv. rewrite Hd3, Ht3, Ht2, Hi3. cbn. auto.
    + intros e s3 Hp3 Ht3 Hd3. split; [|done]. unfold Dur. rewrite Ht3, Ht2.
      destruct Hd3 as [-> | ->]; [by rewrite Hd2, Hdk|done].
  - apply wpc_ret. destruct Hrec as (_ & _ & Heq). unfold Dur, Inv. cbn. rewrite Hd2, Ht2, Hdk, (Heq eq_refl). auto.
Qed.

(** ** Histories of one queue file *)
Inductive method :=
| DoEnqueue (p : Payload) (op url root : string) (snap : option Snapshot)
| DoTick (locked : bool).

Definition call (o : method) : Q (W:=W) unit :=
  match o with
  | DoEnqueue p op url root snap => do* EnqueueSnapshot p op url root snap; ret tt
  | DoTick locked => do* Tick locked; ret tt
  end.

Inductive live (path : string) : bool -> st -> Prop :=
| live_fresh w : live path false (Sto [] false "" None w [])
| live_world up s w : live path up s -> live path up (setWorld w s)
| live_open up s s' : live path up s -> Open path s = (Some None, s') -> live path true s'
| live_open_err up s e s' : live path up s -> Open path s = (Some (Some e), s') -> live path false s'
| live_open_dies up s s' : live path up s -> Open path s = (None, s') -> live path false s'
| live_call s o s' : live path true s -> call o s = (Some tt, s') -> live path true s'
| live_dies s o s' : live path true s -> call o s = (None, s') -> live path false s'.

Lemma queue_call_wp o s : Inv None s -> wpc Dur (call o) (fun _ => Inv None) s.
Proof.
  intros HI. destruct o as [p op url root snap|locked]; apply wpc_bind.
  - eapply wpc_mono; [by apply EnqueueSnapshot_wp|]. intros r s' [HI' _]. by apply wpc_ret.
  - eapply wpc_mono; [by apply Tick_wp|]. intros r s' HI'. by apply wpc_ret.
Qed.

Lemma queue_live_inv path up s : live path up s -> Dur s /\ (up = true -> Inv None s).
Proof.
  induction 1 as [w|up s w _ IH|up s s' _ [IH _] H1|up s e s' _ [IH _] H1|up s s' _ [IH _] H1|s o s' _ [_ IH] H1|s o s' _ [_ IH] H1].
  - split; [|done]. split; [split; [constructor|constructor|cbn; lia|cbn; lia]|]. intros id. done.
  - exact IH.
  - pose proof (queue_Open_wp path s IH) as Ho. unfold wpc in Ho. rewrite H1 in Ho. destruct Ho as [? ?]. auto.
  - pose proof (queue_Open_wp path s IH) as Ho. unfold wpc in Ho. rewrite H1 in Ho. by destruct Ho.
  - pose proof (queue_Open_wp path s IH) as Ho. unfold wpc in Ho. by rewrite H1 in Ho.
  - pose proof (queue_call_wp o s (IH eq_refl)) as Hc. unfold wpc in Hc. rewrite H1 in Hc. split; [by eapply Inv_Dur|done].
  - pose proof (queue_call_wp o s (IH eq_refl)) as Hc. unfold wpc in Hc. by rewrite H1 in Hc.
Qed.

(** C5. A confirmed release takes effect at most once: along every history of
    the queue file, with deaths of the process at any point and confirmations
    enqueued between any two store accesses of the runner, the executions of an
    intent that were not refused as busy before any effect never outnumber its
    admissions, and are strictly fewer while it is still queued in the file. *)
Theorem release_at_most_once path up s id : live path up s ->
  execs id (trace s) + bit (queuedIn (fileList (disk s)) id) <= admits id (trace s).
Proof. intros [[_ Ho] _]%queue_live_inv. specialize (Ho id). cbn [creditFor] in Ho. lia. Qed.

(** The queue file stays within its bounds and well formed: in every
    history it holds at most 128 records with distinct identifiers, at most 32
    of them pending, and each passes the validity check that opening makes. *)
Theorem queue_file_invariant path up s : live path up s ->
  let l := fileList (disk s) in
  List.length l <= 128 /\ List.length (List.filter pending l) <= 32 /\ NoDup (map Id l) /\
  Forall (fun x => valid x = true) l.
Proof. intros [[[H1 H2 H3 H4] _] _]%queue_live_inv. done. Qed.

(** Opening never refuses a file this queue wrote, and replays nothing: in
    every history, recovering the current file succeeds with the same identifiers
    in the same order, every record that was not running unchanged, and every
    running one closed as failed. *)
Theorem queue_reopens path up s l r s' : live path up s -> disk s = Some l -> recover ∅ l s = (Some r, s') ->
  exists l' again, r = Ok (l', again) /\ map Id l' = map Id l /\
    Forall2 (fun x y => State y <> "running" /\ (State x <> "running" -> y = x) /\
                        (State x = "running" -> State y = "failed")) l l'.
Proof.
  intros [[Hs Ho] _]%queue_live_inv Hd Hr. rewrite Hd in Hs.
  pose proof (recover_wp ∅ l s) as Hw. unfold wpc in Hw. rewrite Hr in Hw.
  destruct Hw as (_ & l' & again & -> & Hid & Hall & _); [split; by rewrite ?Hd, ?Hd in *|apply Hs|apply Hs|set_solver|].
  exists l', again. split_and!; [done|done|]. eapply Forall2_impl; [exact Hall|].
  intros x y [Hy [t ->]]. destruct (interrupt_fields t x) as (_ & _ & Hsame & _). split_and!; [done|done|].
  intros Hx. unfold interrupt. by rewrite bool_decide_eq_true_2.
Qed.

(** A new confirmation loses no pending work and is idempotent: when the
    queue accepts a confirmation, the record with its identifier is in memory and
    every pending record is still there unchanged; when it refuses and is not
    poisoned, memory is unchanged; and repeating an accepted confirmation answers
    the same record without touching memory, file or world. *)
Theorem enqueue_keeps_pending path s p op url root snap r s' : live path true s ->
  EnqueueSnapshot p op url root snap s = (Some r, s') ->
  match r with
  | Ok x => Id x = IntentID p /\ x ∈ intents s' /\ (forall y, y ∈ intents s -> pending y = true -> y ∈ intents s')
  | Err _ => poisoned s' = false -> intents s' = intents s
  end /\
  (forall x, poisoned s = false -> findId (IntentID p) (intents s) = Some x ->
     sameRequest p op url root snap x = true -> r = Ok x /\ s' = s).
Proof.
  intros Hl Hr. destruct (queue_live_inv _ _ _ Hl) as [_ HI]. specialize (HI eq_refl). split.
  - pose proof (EnqueueSnapshot_wp None p op url root snap s HI) as Hw. unfold wpc in Hw. rewrite Hr in Hw. by destruct Hw as [_ Hw].
  - intros x Hp Hf Hs. unfold EnqueueSnapshot, bind, mbind_st, AnchorQueue.get in Hr.
    rewrite Hp, Hf, Hs in Hr. by injection Hr as <- <-.
Qed.

End Queue.

(** ** A concrete queue *)
Module QueueDemo.

#[export] Instance tables : UnicodeTables := {| u_lower := fun r => r; u_upper := fun r => r; u_format := fun _ => false |}.

Definition done_ (x : Intent) : BatchResult := MkBatch "" "" "attached" (Files (x_Payload x)) 0 "" "" "" "".

Definition fp : string := "0123456789abcdef0123456789abcdef0123456789abcdef0123456789abcdef".
Definition p1 : Payload := MkPayload "srv" "repo" "dir" "release" fp "id-1" 2.

(** The user repeats the first confirmation whenever the store is free. *)
#[export] Instance env : Env unit := {|
  e_now := fun w => (Hour, w);
  e_dies := fun w => (false, w);
  e_fs := fun _ w => (None, w);
  e_readStore := fun w => (None, w);
  e_size := fun _ => Some 1000%Z;
  e_canonicalUUID := fun s => negb (bool_decide (s = ""));
  e_formatNano := fun _ => "t";
  e_parseNano := fun s => bool_decide (s = "t");
  e_ctxErr := fun w => (None, w);
  e_bound := fun _ w => (true, w);
  e_bridgeReady := fun _ w => (true, w);
  e_confirmations := fun w => ([MkConfirmation p1 "op" "svn://x" "/wc" None], w);
  e_execute := fun x w => (Ok (done_ x), w);
  e_diagnostic := fun _ => "d"
|}.

Lemma env_parse_format t : e_parseNano (e_formatNano t) = true.
Proof. reflexivity. Qed.

Lemma env_execute_terminal x w b w' : e_execute x w = (Ok b, w') -> b_State b <> "queued".
Proof. by intros [= <- _]. Qed.

Definition opened : st := snd (Open "/q" (Sto [] false "" None tt [])).
Definition queued : st := snd (call (DoEnqueue p1 "op" "svn://x" "/wc" None) opened).
Definition ran : st := snd (call (DoTick false) queued).

Lemma queue_opened_live : live "/q" true opened.
Proof. eapply live_open; [apply (live_fresh "/q" tt)|]. vm_compute. reflexivity. Qed.

Lemma queued_live : live "/q" true queued.
Proof.
  apply (live_call "/q" opened (DoEnqueue p1 "op" "svn://x" "/wc" None)); [apply queue_opened_live|]. vm_compute. reflexivity.
Qed.

Lemma ran_live : live "/q" true ran.
Proof. apply (live_call "/q" queued (DoTick false)); [apply queued_live|]. vm_compute. reflexivity. Qed.

Lemma release_at_most_once_witness : execs "id-1" (trace ran) = 1 /\
  execs "id-1" (trace ran) + bit (queuedIn (fileList (disk ran)) "id-1") <= admits "id-1" (trace ran).
Proof.
  split; [vm_compute; reflexivity|].
  apply (release_at_most_once env_parse_format env_execute_terminal "/q" true ran "id-1"). apply ran_live.
Defined.

Lemma queue_file_invariant_witness : List.length (fileList (disk queued)) = 1 /\ NoDup (map Id (fileList (disk queued))).
Proof.
  split; [vm_compute; reflexivity|].
  apply (queue_file_invariant env_parse_format env_execute_terminal "/q" true queued). apply queued_live.
Defined.

Lemma queue_reopens_witness : exists l' again,
  fst (recover (W:=unit) ∅ (fileList (disk queued)) queued) = Some (Ok (l', again)) /\ map Id l' = ["id-1"].
Proof.
  destruct (queue_reopens env_parse_format env_execute_terminal "/q" true queued (fileList (disk queued))
    (Ok (fileList (disk queued), false)) queued) as (l' & again & Hr & Hid & _).
  - apply queued_live.
  - vm_compute. reflexivity.
  - vm_compute. reflexivity.
  - exists l', again. injection Hr as <- <-. split; vm_compute; reflexivity.
Defined.

Lemma enqueue_keeps_pending_witness : exists x, x ∈ intents queued /\ Id x = "id-1".
Proof.
  destruct (enqueue_keeps_pending env_parse_format env_execute_terminal "/q" opened p1 "op" "svn://x" "/wc" None
    (Ok (freshIntent p1 "op" "svn://x" "/wc" None Hour)) queued) as [(H1 & H2 & _) _].
  - apply queue_opened_live.
  - vm_compute. reflexivity.
  - eexists. split; [exact H2|exact H1].
Defined.

End QueueDemo.
