(* ===== verification/PathOwnership.v ===== *)
(** * PathOwnership: object identity from repository history

    Models src/pkg/pathownership/history.go.  The SHA-256 digest is the
    parameter [digest]; the order in which Go ranges over a map is the parameter
    [enum].  A cancelled context only makes [Replay] return earlier with an
    error, and the XML decoding of [ParseLog] is not modelled. *)
From S2P Require Import Prelude GoStrings.
From Stdlib Require Import Ascii String DecimalString Decimal DecimalZ DecimalFacts.

Open Scope string_scope.

Record Change := MkChange {
  c_Path : string; c_Action : string; c_Kind : string; c_CopyFrom : string; c_CopyRevision : Z
}.
Record Revision := MkRevision { r_Number : Z; r_Author : string; r_Changes : list Change }.
Record Object := MkObject { ID : string; CreatedRevision : Z; FirstCommitter : string; Kind : string }.
Record Entry := MkEntry { e_Path : string; e_Object : Object }.
Record Snapshot := MkSnapshot { s_Revision : Z; s_Entries : list Entry }.

Inductive err := EScope | EIncomplete | ENonContiguous | EChange | EAncestry | EKind | ECopyRevision | ECopySource
| EAmbiguous | EBudget.

#[export] Instance Change_eq_dec : EqDecision Change.
Proof. solve_decision. Defined.

Definition nul : string := String (ascii_of_nat 0) EmptyString.

(** NUL, CR, LF and the backslash. *)
Definition forbidden : string := String (ascii_of_nat 0) (String (ascii_of_nat 13) (String (ascii_of_nat 10)
  (String (ascii_of_nat 92) EmptyString))).

Definition canonical (value : string) (allowRoot : bool) : bool :=
  HasPrefix value "/" && bool_decide (Clean value = value) && negb (ContainsAny value forbidden)
  && (allowRoot || negb (bool_decide (value = "/"))).

Definition under (value parent : string) : bool :=
  bool_decide (value = parent) || bool_decide (parent = "/") || HasPrefix value (parent ++ "/").

(** [strconv.FormatInt(n, 10)] *)
Definition FormatInt (n : Z) : string := NilZero.string_of_int (Z.to_int n).

Notation tree := (gmap string Object).

Section Replay.
  Variable digest : string -> string.
  Variable enum : tree -> list (string * Object).
  Variable repo : string.

Definition oid (revision : Z) (p : string) : string := digest (repo ++ nul ++ FormatInt revision ++ nul ++ p).

Definition newObject (revision : Z) (author p kind : string) : Object :=
  MkObject (oid revision p) revision author kind.

Definition adds (c : Change) : bool := bool_decide (c_Action c = "A") || bool_decide (c_Action c = "R").
Definition deletes (c : Change) : bool := bool_decide (c_Action c = "D") || bool_decide (c_Action c = "R").

(** ** The validation pass *)
Definition checkChange (rev : Revision) (c : Change) : option err :=
  if negb (canonical (c_Path c) true)
     || negb (adds c || deletes c || bool_decide (c_Action c = "M")) then Some EChange
  else if bool_decide (c_CopyFrom c = "") then None
  else if negb (canonical (c_CopyFrom c) true) || (c_CopyRevision c <? 0)%Z || (r_Number rev <=? c_CopyRevision c)%Z
          || negb (adds c) then Some EAncestry
  else None.

Definition isCopy (c : Change) : bool := negb (bool_decide (c_CopyFrom c = "")).

Fixpoint checkChanges (rev : Revision) (lastUse : gmap Z Z) (cs : list Change) : result err (gmap Z Z) :=
  match cs with
  | [] => Ok lastUse
  | c :: rest =>
      match checkChange rev c with
      | Some e => Err e
      | None => checkChanges rev (if isCopy c then <[c_CopyRevision c := r_Number rev]> lastUse else lastUse) rest
      end
  end.

(** [needed] is the domain of [lastUse]. *)
Fixpoint checkAll (i : Z) (lastUse : gmap Z Z) (revs : list Revision) : result err (gmap Z Z) :=
  match revs with
  | [] => Ok lastUse
  | rev :: rest =>
      if negb (r_Number rev =? i + 1)%Z then Err ENonContiguous
      else match checkChanges rev lastUse (r_Changes rev) with
           | Err e => Err e
           | Ok lastUse => checkAll (i + 1) lastUse rest
           end
  end.

(** ** One revision *)
Definition deleted (rev : Revision) (p : string) : bool :=
  existsb (fun c => deletes c && under p (c_Path c)) (r_Changes rev).

Definition removeUnder (parent : string) (t : tree) : tree := filter (fun kv => under (fst kv) parent = false) t.

Fixpoint removeDeleted (cs : list Change) (t : tree) : tree :=
  match cs with
  | [] => t
  | c :: rest => removeDeleted rest (if deletes c then removeUnder (c_Path c) t else t)
  end.

Definition destination (c : Change) (p : string) : string :=
  if bool_decide (c_CopyFrom c = "/") then pathJoin (c_Path c) p
  else c_Path c ++ TrimPrefix p (c_CopyFrom c).

Definition idOf (o : option Object) : string := match o with Some o => ID o | None => "" end.

Definition usesOf (history : gmap Z tree) (p : string) (old : Object) (c : Change) : bool :=
  isCopy c && under p (c_CopyFrom c)
  && bool_decide (idOf (match history !! c_CopyRevision c with Some h => h !! p | None => None end) = ID old).

Section OneRevision.
  Variable rev : Revision.
  Variable history : gmap Z tree.
  Variable before : tree.
  Variable changes : list Change.

Definition continuation (p : string) (old : Object) : bool :=
  deleted rev p && bool_decide (idOf (before !! p) = ID old).

(** The loop over the nodes of a copy source. *)
Fixpoint copyNodes (c : Change) (nodes : list (string * Object)) (t : tree) : result err tree :=
  match nodes with
  | [] => Ok t
  | (p, old) :: rest =>
      if negb (under p (c_CopyFrom c)) then copyNodes c rest t
      else
        let dest := destination c p in
        if continuation p old then
          if (List.length (List.filter (usesOf history p old) changes) =? 1)%nat
          then copyNodes c rest (<[dest := old]> t)
          else Err EAmbiguous
        else copyNodes c rest (<[dest := newObject (r_Number rev) (r_Author rev) dest (Kind old)]> t)
  end.

Definition applyChange (c : Change) (t0 : tree) : result err tree :=
  let t := if deletes c then removeUnder (c_Path c) t0 else t0 in
  if negb (adds c) then Ok t
  else if negb (isCopy c) then
    if negb (bool_decide (c_Kind c = "file")) && negb (bool_decide (c_Kind c = "dir")) then Err EKind
    else Ok (<[c_Path c := newObject (r_Number rev) (r_Author rev) (c_Path c) (c_Kind c)]> t)
  else match history !! c_CopyRevision c with
       | None => Err ECopyRevision
       | Some source =>
           match source !! c_CopyFrom c with
           | None => Err ECopySource
           | Some _ => copyNodes c (enum source) t
           end
       end.

Fixpoint applyChanges (cs : list Change) (t : tree) : result err tree :=
  match cs with
  | [] => Ok t
  | c :: rest => match applyChange c t with Err e => Err e | Ok t' => applyChanges rest t' end
  end.

End OneRevision.

Definition changeLe (a b : Change) : Prop := String.le (c_Path a) (c_Path b).
#[local] Instance changeLe_dec : RelDecision changeLe := fun a b => String.le_dec (c_Path a) (c_Path b).

Record rstate := RState { rs_tree : tree; rs_history : gmap Z tree; rs_retained : Z }.

(** Forget the ancestry snapshots used for the last time in this revision. *)
Fixpoint dropUsed (rev : Revision) (lastUse : gmap Z Z) (cs : list Change) (h : gmap Z tree) (n : Z) : gmap Z tree * Z :=
  match cs with
  | [] => (h, n)
  | c :: rest =>
      if isCopy c && bool_decide (lastUse !! c_CopyRevision c = Some (r_Number rev))
      then dropUsed rev lastUse rest (delete (c_CopyRevision c) h)
                    (n - Z.of_nat (match h !! c_CopyRevision c with Some t => size t | None => 0%nat end))
      else dropUsed rev lastUse rest h n
  end.

Definition replayOne (lastUse : gmap Z Z) (rev : Revision) (s : rstate) : result err rstate :=
  let before := rs_tree s in
  let changes := merge_sort changeLe (r_Changes rev) in
  match applyChanges rev (rs_history s) before changes changes (removeDeleted (r_Changes rev) before) with
  | Err e => Err e
  | Ok t =>
      if bool_decide (is_Some (lastUse !! r_Number rev)) then
        if (500000 <? rs_retained s + Z.of_nat (size t))%Z then Err EBudget
        else let '(h, n) := dropUsed rev lastUse changes (<[r_Number rev := t]> (rs_history s)) (rs_retained s + Z.of_nat (size t)) in
             Ok (RState t h n)
      else let '(h, n) := dropUsed rev lastUse changes (rs_history s) (rs_retained s) in
           Ok (RState t h n)
  end.

Fixpoint replayAll (lastUse : gmap Z Z) (revs : list Revision) (s : rstate) : result err rstate :=
  match revs with
  | [] => Ok s
  | rev :: rest => match replayOne lastUse rev s with Err e => Err e | Ok s' => replayAll lastUse rest s' end
  end.

Definition revLe (a b : Revision) : Prop := (r_Number a <= r_Number b)%Z.
#[local] Instance revLe_dec : RelDecision revLe := fun a b => Z.le_dec (r_Number a) (r_Number b).

Definition entryLe (a b : Entry) : Prop := String.le (e_Path a) (e_Path b).
#[local] Instance entryLe_dec : RelDecision entryLe := fun a b => String.le_dec (e_Path a) (e_Path b).

Definition entries (t : tree) : list Entry :=
  merge_sort entryLe (map (fun kv => MkEntry (TrimPrefix (fst kv) "/") (snd kv))
                          (List.filter (fun kv => bool_decide (Kind (snd kv) = "file")) (enum t))).

Definition root : tree := {["/" := newObject 0 "" "/" "dir"]}.

Definition Replay (head : Z) (revisions0 : list Revision) : result err Snapshot :=
  if bool_decide (repo = "") || (head <? 0)%Z then Err EScope
  else
    let revisions := merge_sort revLe revisions0 in
    if negb (Z.of_nat (List.length revisions) =? head)%Z then Err EIncomplete
    else match checkAll 0 ∅ revisions with
         | Err e => Err e
         | Ok lastUse =>
             match replayAll lastUse revisions (RState root {[0%Z := root]} 1) with
             | Err e => Err e
             | Ok s => Ok (MkSnapshot head (entries (rs_tree s)))
             end
         end.

End Replay.

(** ** The birth key determines the identifier *)
Lemma FormatInt_inj n m : FormatInt n = FormatInt m -> n = m.
Proof.
  assert (forall z, NilZero.int_of_string (FormatInt z) = Some (Z.to_int z)) as H.
  { intros z. apply NilZero.isi; intros E; pose proof (DecimalZ.of_to z) as Hz; rewrite E in Hz; cbn in Hz; subst z; discriminate E. }
  intros E. apply DecimalZ.to_int_inj. pose proof (H n) as Hn. rewrite E, H in Hn. by injection Hn.
Qed.

Lemma FormatInt_no_nul n : hasByte (FormatInt n) (ascii_of_nat 0) = false.
Proof.
  assert (forall u, hasByte (NilEmpty.string_of_uint u) (ascii_of_nat 0) = false) as Hu by (induction u; cbn; auto).
  unfold FormatInt, NilZero.string_of_int, NilZero.string_of_uint. destruct (Z.to_int n) as [u|u].
  - destruct u; try apply Hu; done.
  - cbn. destruct u; try apply Hu; done.
Qed.

Lemma cut_unique c a b x y : hasByte a c = false -> hasByte b c = false ->
  a ++ String c x = b ++ String c y -> a = b /\ x = y.
Proof.
  revert b. induction a as [|u a IH]; intros [|v b] Ha Hb E; rewrite ?sapp_cons, ?sapp_nil_l in E.
  - by injection E as ->.
  - injection E as -> _. cbn in Hb. by rewrite Ascii.eqb_refl in Hb.
  - injection E as -> _. cbn in Ha. by rewrite Ascii.eqb_refl in Ha.
  - injection E as E1 E2. cbn in Ha, Hb. apply orb_false_iff in Ha as [_ Ha], Hb as [_ Hb]. destruct (IH b Ha Hb E2) as [-> ->]. by subst.
Qed.

Section Properties.
  Variable digest : string -> string.
  Variable enum : tree -> list (string * Object).
  Variable repo : string.
  (** The digest does not collide, and a range visits each entry once. *)
  Hypothesis digest_inj : forall a b, digest a = digest b -> a = b.
  Hypothesis digest_nonempty : forall a, digest a <> "".
  Hypothesis enum_perm : forall t, enum t ≡ₚ map_to_list t.

Notation oid := (oid digest repo).

Lemma oid_inj n p m q : oid n p = oid m q -> n = m /\ p = q.
Proof.
  intros E%digest_inj. apply sapp_inj_l, sapp_inj_l in E.
  change (FormatInt n ++ String (ascii_of_nat 0) p = FormatInt m ++ String (ascii_of_nat 0) q) in E.
  apply cut_unique in E as [E ->]; [|apply FormatInt_no_nul..]. split; [by apply FormatInt_inj|done].
Qed.

(** An object was born at one path of one revision, by that revision's author;
    the root was born with the repository. *)
Definition born (revs : list Revision) (o : Object) : Prop :=
  exists p, ID o = oid (CreatedRevision o) p /\
  ((CreatedRevision o = 0%Z /\ FirstCommitter o = "" /\ p = "/") \/
   exists rev, rev ∈ revs /\ r_Number rev = CreatedRevision o /\ r_Author rev = FirstCommitter o).

Definition injectiveIds (t : tree) : Prop :=
  forall p q o o', t !! p = Some o -> t !! q = Some o' -> ID o = ID o' -> p = q.

Definition allBorn (revs : list Revision) (t : tree) : Prop := forall p o, t !! p = Some o -> born revs o.

Section Step.
  Variable done : list Revision.
  Variable rev : Revision.
  Variable history : gmap Z tree.
  Variable before : tree.
  Variable changes : list Change.
  Hypothesis number_pos : (0 < r_Number rev)%Z.
  Hypothesis earlier : forall r, r ∈ done -> (r_Number r < r_Number rev)%Z.
  Hypothesis before_inj : injectiveIds before.
  Hypothesis before_born : allBorn done before.
  Hypothesis history_born : forall k h, history !! k = Some h -> allBorn done h.

Lemma born_earlier o : born done o -> (CreatedRevision o < r_Number rev)%Z.
Proof. intros (p & _ & [(-> & _)|(r & Hr & <- & _)]); [done|]. by apply earlier. Qed.

(** Where an entry of the tree under construction comes from. *)
Definition kept (p : string) (o : Object) : Prop := before !! p = Some o /\ deleted rev p = false.
Definition fresh (p : string) (o : Object) : Prop :=
  ID o = oid (r_Number rev) p /\ CreatedRevision o = r_Number rev /\ FirstCommitter o = r_Author rev.
Definition moved (q : string) (o : Object) : Prop :=
  exists c p b, c ∈ changes /\ q = destination c p /\ before !! p = Some b /\ ID b = ID o /\ deleted rev p = true /\
    born done o /\ usesOf history p o c = true /\ List.length (List.filter (usesOf history p o) changes) = 1.

Definition explained (t : tree) : Prop := forall p o, t !! p = Some o -> kept p o \/ fresh p o \/ moved p o.

Lemma explained_insert t p o : explained t -> fresh p o \/ moved p o -> explained (<[p := o]> t).
Proof. intros Ht Ho q o' [[<- <-]|[_ Hq]]%lookup_insert_Some; [naive_solver|by apply Ht]. Qed.

Lemma explained_remove t parent : explained t -> explained (removeUnder parent t).
Proof. intros Ht p o [Hp _]%map_lookup_filter_Some. by apply Ht. Qed.

Lemma copyNodes_explained c nodes t t' source : c ∈ changes -> isCopy c = true -> history !! c_CopyRevision c = Some source ->
  (forall p o, (p, o) ∈ nodes -> source !! p = Some o) -> explained t ->
  copyNodes digest repo rev history before changes c nodes t = Ok t' -> explained t'.
Proof.
  intros Hc Hcopy Hh. revert t. induction nodes as [|[p old] nodes IH]; intros t Hn Ht H; cbn [copyNodes] in H.
  - by injection H as <-.
  - assert (forall q o, (q, o) ∈ nodes -> source !! q = Some o) as Hn' by (intros q o Hq; apply Hn; by right).
    assert (source !! p = Some old) as Hsrc by (apply Hn; by left).
    destruct (under p (c_CopyFrom c)) eqn:Hu; cbn [negb] in H; [|by eapply IH]. cbv zeta in H.
    destruct (continuation rev before p old) eqn:Hcont.
    + destruct (Nat.eqb_spec (List.length (List.filter (usesOf history p old) changes)) 1) as [Hone|]; [|discriminate H].
      eapply IH; [done| |exact H]. apply explained_insert; [done|]. right.
      unfold continuation in Hcont. apply andb_true_iff in Hcont as [Hdel Hid]. bool_to_prop.
      assert (born done old) as Hb by by eapply history_born.
      assert (exists b, before !! p = Some b /\ ID b = ID old) as (b & Hb1 & Hb2).
      { destruct (before !! p) as [b|]; cbn in Hid; [eauto|]. exfalso. destruct Hb as (x & Hx & _).
        rewrite Hx in Hid. by destruct (digest_nonempty _ (eq_sym Hid)). }
      exists c, p, b. split_and!; [done..| |done]. unfold usesOf. rewrite Hcopy, Hu, Hh. cbn. rewrite Hsrc. cbn.
      by rewrite bool_decide_eq_true_2.
    + eapply IH; [done| |exact H]. apply explained_insert; [done|]. left. done.
Qed.

Lemma applyChanges_explained cs t t' : (forall c, c ∈ cs -> c ∈ changes) -> explained t ->
  applyChanges digest enum repo rev history before changes cs t = Ok t' -> explained t'.
Proof.
  revert t. induction cs as [|c cs IH]; intros t Hin Ht H; cbn [applyChanges] in H; [by injection H as <-|].
  destruct (applyChange digest enum repo rev history before changes c t) as [t1|e] eqn:Hc; [|done].
  eapply IH; [intros x Hx; apply Hin; by right| |exact H].
  unfold applyChange in Hc. cbv zeta in Hc. set (t0 := if deletes c then removeUnder (c_Path c) t else t) in Hc.
  assert (explained t0) as Ht0 by (unfold t0; destruct (deletes c); [by apply explained_remove|done]).
  destruct (adds c); cbn [negb] in Hc; [|by injection Hc as <-].
  destruct (isCopy c) eqn:Hcopy; cbn [negb] in Hc.
  - destruct (history !! c_CopyRevision c) as [source|] eqn:Hh; [|done]. destruct (source !! c_CopyFrom c); [|done].
    eapply copyNodes_explained; [apply Hin; by left|done|done| |exact Ht0|exact Hc].
    intros p o' Hpo. rewrite enum_perm in Hpo. by apply elem_of_map_to_list in Hpo.
  - destruct (_ && _); [done|]. injection Hc as <-. apply explained_insert; [done|]. by left.
Qed.

Lemma removeDeleted_lookup cs t p o : removeDeleted cs t !! p = Some o ->
  t !! p = Some o /\ forall c, c ∈ cs -> deletes c = true -> under p (c_Path c) = false.
Proof.
  revert t. induction cs as [|c cs IH]; intros t H; cbn [removeDeleted] in H.
  - split; [done|]. intros c Hc. by apply elem_of_nil in Hc.
  - apply IH in H as [H Hcs]. destruct (deletes c) eqn:Hd.
    + apply map_lookup_filter_Some in H as [H Hu]. split; [done|]. intros x [->|Hx]%elem_of_cons Hdx; auto.
    + split; [done|]. intros x [->|Hx]%elem_of_cons Hdx; [congruence|auto].
Qed.

Lemma start_explained : explained (removeDeleted (r_Changes rev) before).
Proof.
  intros p o [Hp Hc]%removeDeleted_lookup. left. split; [done|]. unfold deleted.
  apply not_true_is_false. intros (c & Hin & Hb)%existsb_exists. apply andb_true_iff in Hb as [H1 H2].
  apply list_elem_of_In in Hin. rewrite (Hc c Hin H1) in H2. discriminate.
Qed.

Lemma filter_one_unique {A} (f : A -> bool) (l : list A) x y : List.length (List.filter f l) = 1 ->
  x ∈ l -> y ∈ l -> f x = true -> f y = true -> x = y.
Proof.
  intros Hl Hx Hy Hfx Hfy. assert (In x (List.filter f l) /\ In y (List.filter f l)) as [H1 H2].
  { rewrite !List.filter_In, <- !list_elem_of_In. done. }
  destruct (List.filter f l) as [|z [|]]; [done| |done]. destruct H1 as [<-|[]], H2 as [<-|[]]. done.
Qed.

Lemma usesOf_ids p o o' c : ID o = ID o' -> usesOf history p o c = usesOf history p o' c.
Proof. intros E. unfold usesOf. by rewrite E. Qed.

(** Every explained tree gives distinct identifiers to distinct paths. *)
Lemma explained_injective t : explained t -> injectiveIds t.
Proof.
  intros Ht p q o o' Hp Hq E.
  assert (forall p o p' o', kept p o -> fresh p' o' -> ID o <> ID o') as Hkf.
  { intros x a y b [Hx _] (Hy & _) Eab. apply before_born in Hx. pose proof (born_earlier _ Hx).
    destruct Hx as (z & Hz & _). rewrite Hz, Hy in Eab. apply oid_inj in Eab as [? _]. lia. }
  assert (forall p o p' o', moved p o -> fresh p' o' -> ID o <> ID o') as Hmf.
  { intros x a y b (c & z & b' & _ & _ & _ & _ & _ & Hb & _) (Hy & _) Eab. pose proof (born_earlier _ Hb).
    destruct Hb as (u & Hu & _). rewrite Hu, Hy in Eab. apply oid_inj in Eab as [? _]. lia. }
  assert (forall p o p' o', kept p o -> moved p' o' -> ID o <> ID o') as Hkm.
  { intros x a y b [Hx Hnd] (c & z & b' & _ & _ & Hz & Eb & Hd & _) Eab.
    assert (x = z) as -> by (eapply before_inj; [exact Hx|exact Hz|congruence]). congruence. }
  destruct (Ht p o Hp) as [Hk|[Hf|Hm]], (Ht q o' Hq) as [Hk'|[Hf'|Hm']].
  - destruct Hk as [Hk _], Hk' as [Hk' _]. by eapply before_inj.
  - by destruct (Hkf p o q o').
  - by destruct (Hkm p o q o').
  - by destruct (Hkf q o' p o).
  - destruct Hf as (H1 & _), Hf' as (H2 & _). rewrite H1, H2 in E. by apply oid_inj in E as [_ ->].
  - by destruct (Hmf q o' p o).
  - by destruct (Hkm q o' p o).
  - by destruct (Hmf p o q o').
  - destruct Hm as (c & x & b & Hc & -> & Hb & Eb & _ & _ & Hu & Hone), Hm' as (c' & x' & b' & Hc' & -> & Hb' & Eb' & _ & _ & Hu' & _).
    assert (x = x') as <- by (eapply before_inj; [exact Hb|exact Hb'|congruence]).
    rewrite <- (usesOf_ids x o o' c' E) in Hu'. by rewrite (filter_one_unique _ _ c c' Hone Hc Hc' Hu Hu').
Qed.

Lemma born_mono revs revs' o : (forall r, r ∈ revs -> r ∈ revs') -> born revs o -> born revs' o.
Proof. intros Hr (p & Hid & [H|(r & Hin & H)]); exists p; split; auto. right. exists r. auto. Qed.

Lemma explained_born t : explained t -> allBorn (rev :: done) t.
Proof.
  intros Ht p o Hp. destruct (Ht p o Hp) as [[Hk _]|[(H1 & H2 & H3)|(c & x & b & _ & _ & _ & _ & _ & Hb & _)]].
  - eapply born_mono; [|by eapply before_born]. intros r Hr. by right.
  - exists p. split; [by rewrite H2|]. right. exists rev. split; [by left|done].
  - eapply born_mono; [|exact Hb]. intros r Hr. by right.
Qed.

End Step.

(** ** The whole replay *)
Definition sound (done : list Revision) (s : rstate) : Prop :=
  injectiveIds (rs_tree s) /\ allBorn done (rs_tree s) /\
  (forall k h, rs_history s !! k = Some h -> allBorn done h).

Lemma dropUsed_sub rev lastUse cs h n h' n' : dropUsed rev lastUse cs h n = (h', n') ->
  forall k t, h' !! k = Some t -> h !! k = Some t.
Proof.
  revert h n. induction cs as [|c cs IH]; intros h n H k t Hk; cbn [dropUsed] in H; [by injection H as <- _|].
  destruct (_ && _); [|by eapply IH]. eapply IH in H; [|exact Hk]. by apply lookup_delete_Some in H as [_ ?].
Qed.

Lemma replayOne_sound done lastUse rev s s' : (0 < r_Number rev)%Z -> (forall r, r ∈ done -> (r_Number r < r_Number rev)%Z) ->
  sound done s -> replayOne digest enum repo lastUse rev s = Ok s' -> sound (rev :: done) s'.
Proof.
  intros Hpos Hlt (Hi & Hb & Hh) H. unfold replayOne in H. cbv zeta in H.
  destruct (applyChanges _ _ _ _ _ _ _ _ _) as [t|e] eqn:Ha; [|done].
  eapply (applyChanges_explained done) in Ha; [|done..|by intros c|apply start_explained].
  assert (injectiveIds t) as Hti by by eapply explained_injective.
  assert (allBorn (rev :: done) t) as Htb by by eapply explained_born.
  assert (forall k h, rs_history s !! k = Some h -> allBorn (rev :: done) h) as Hhb.
  { intros k h Hk p o Hp. eapply born_mono; [|by eapply Hh]. intros r Hr. by right. }
  assert (forall h n h' n', dropUsed rev lastUse (merge_sort changeLe (r_Changes rev)) h n = (h', n') ->
    (forall k x, h !! k = Some x -> allBorn (rev :: done) x) -> sound (rev :: done) (RState t h' n')) as Hend.
  { intros h n h' n' Hd Hx. split_and!; [done|done|]. intros k x Hk. cbn in Hk. by eapply Hx, dropUsed_sub. }
  destruct (bool_decide (is_Some (lastUse !! r_Number rev))).
  - destruct (500000 <? _)%Z; [done|]. destruct (dropUsed _ _ _ _ _) as [h' n'] eqn:Hd. injection H as <-.
    eapply Hend; [exact Hd|]. intros k x [[<- <-]|[_ Hk]]%lookup_insert_Some; [done|by eapply Hhb].
  - destruct (dropUsed _ _ _ _ _) as [h' n'] eqn:Hd. injection H as <-. by eapply Hend.
Qed.

Lemma replayAll_sound done lastUse revs s s' i l lu : (forall r, r ∈ done -> (r_Number r <= i)%Z) -> (0 <= i)%Z ->
  checkAll i l revs = Ok lu -> sound done s -> replayAll digest enum repo lastUse revs s = Ok s' ->
  exists done', sound done' s' /\ forall r, r ∈ done' -> r ∈ done \/ r ∈ revs.
Proof.
  revert done s i l. induction revs as [|rev revs IH]; intros done s i l Hle Hi Hc Hs H; cbn [replayAll checkAll] in *.
  - injection H as <-. exists done. auto.
  - destruct (Z.eqb_spec (r_Number rev) (i + 1)) as [Hn|]; cbn [negb] in Hc; [|done].
    destruct (checkChanges rev l (r_Changes rev)) as [l1|]; [|done].
    destruct (replayOne digest enum repo lastUse rev s) as [s1|] eqn:Hr; [|done].
    eapply replayOne_sound in Hr; [|lia| |exact Hs].
    2: { intros r Hr'. apply Hle in Hr'. lia. }
    eapply IH in H as (done' & Hs' & Hin); [|..|exact Hc|exact Hr].
    + exists done'. split; [done|]. intros r [[->|Hd]%elem_of_cons|Hd]%Hin; [right; by left|by left|right; by right].
    + intros r [->|Hd]%elem_of_cons; [lia|]. apply Hle in Hd. lia.
    + lia.
Qed.

Lemma root_sound : sound [] (RState (root digest repo) {[0%Z := root digest repo]} 1).
Proof.
  assert (allBorn [] (root digest repo)) as Hb.
  { unfold root. intros p o [<- <-]%lookup_singleton_Some. exists "/". split; [done|]. by left. }
  split_and!; cbn; [|done|].
  - unfold root. intros p q o o' [<- _]%lookup_singleton_Some [<- _]%lookup_singleton_Some _. done.
  - intros k h [<- <-]%lookup_singleton_Some. done.
Qed.

(** A successful replay ends in a sound tree over revisions of the given log. *)
Lemma Replay_sound head revisions snap : Replay digest enum repo head revisions = Ok snap ->
  exists s done, sound done s /\ (forall r, r ∈ done -> r ∈ revisions) /\
    snap = MkSnapshot head (entries enum (rs_tree s)).
Proof.
  intros H. unfold Replay in H. cbv zeta in H. destruct (bool_decide _ || _); [done|]. destruct (negb _); [done|].
  destruct (checkAll 0 ∅ _) as [lu|] eqn:Hc; [|done]. destruct (replayAll _ _ _ _ _ _) as [s|] eqn:Hr; [|done].
  injection H as <-.
  eapply (replayAll_sound []) in Hr as (done' & Hs & Hin); [| |done|exact Hc|apply root_sound].
  - exists s, done'. split_and!; [done| |done]. intros r [Hd|Hd]%Hin; [by apply elem_of_nil in Hd|].
    by rewrite merge_sort_Permutation in Hd.
  - intros r Hr'. by apply elem_of_nil in Hr'.
Qed.

Lemma entries_elem t e : e ∈ entries enum t <->
  exists p o, t !! p = Some o /\ Kind o = "file" /\ e = MkEntry (TrimPrefix p "/") o.
Proof.
  unfold entries. rewrite merge_sort_Permutation, list_elem_of_fmap. split.
  - intros ([p o] & -> & Hin). apply list_elem_of_In, List.filter_In in Hin as [Hin Hk].
    apply list_elem_of_In in Hin. rewrite enum_perm in Hin. apply elem_of_map_to_list in Hin. cbn in Hk. bool_to_prop. eauto.
  - intros (p & o & Hp & Hk & ->). exists (p, o). split; [done|]. apply list_elem_of_In, List.filter_In. split.
    + apply list_elem_of_In. rewrite enum_perm. by apply elem_of_map_to_list.
    + cbn. by apply bool_decide_eq_true_2.
Qed.

Lemma entries_ids_NoDup t : injectiveIds t -> NoDup (map (fun e => ID (e_Object e)) (entries enum t)).
Proof.
  intros Hi. unfold entries. rewrite merge_sort_Permutation, map_map.
  assert (forall l : list (string * Object), NoDup l -> (forall x, x ∈ l -> t !! fst x = Some (snd x)) ->
    NoDup (map (fun x => ID (e_Object (MkEntry (TrimPrefix (fst x) "/") (snd x)))) l)) as H.
  { induction l as [|x l IH]; intros Hnd Hl; cbn; [constructor|]. apply NoDup_cons in Hnd as [Hni Hnd].
    constructor; [|apply IH; [done|intros y Hy; apply Hl; by right]].
    intros Hin. apply list_elem_of_fmap in Hin as (y & Hid & Hy). cbn in Hid. apply Hni.
    assert (fst x = fst y) as Hfst.
    { eapply Hi; [apply Hl; by left|apply Hl; by right|done]. }
    assert (snd x = snd y) as Hsnd.
    { assert (t !! fst x = Some (snd x)) as H1 by (apply Hl; by left).
      assert (t !! fst y = Some (snd y)) as H2 by (apply Hl; by right). rewrite <- Hfst, H1 in H2. by injection H2. }
    destruct x, y; cbn in *; by subst. }
  apply H.
  - apply NoDup_ListNoDup, List.NoDup_filter, NoDup_ListNoDup. rewrite enum_perm. apply NoDup_map_to_list.
  - intros [p o] Hin. apply list_elem_of_In, List.filter_In in Hin as [Hin _]. apply list_elem_of_In in Hin.
    rewrite enum_perm in Hin. by apply elem_of_map_to_list in Hin.
Qed.

End Properties.

(** One object, one place: if the digest does not collide, then in every
    snapshot [Replay] produces, from any log, no two files carry the same object
    identifier - copies, moves, replacements and re-additions included - so
    ownership by identifier never covers two paths. *)
Theorem ownership_ids_unique digest enum repo head revisions snap :
  (forall a b, digest a = digest b -> a = b) -> (forall a, digest a <> "") -> (forall t, enum t ≡ₚ map_to_list t) ->
  Replay digest enum repo head revisions = Ok snap ->
  NoDup (map (fun e => ID (e_Object e)) (s_Entries snap)).
Proof.
  intros Hinj Hne Hperm H. apply Replay_sound in H as (s & dn & (Hi & _) & _ & ->); [|done..].
  by apply entries_ids_NoDup.
Qed.

(** Attribution cannot be forged by a later revision: the first committer
    recorded for a file is the author of a revision of the log, whose number is
    the file's creation revision, and the identifier is the digest of that
    revision and of one path; whatever the object's later moves. *)
Theorem ownership_first_committer digest enum repo head revisions snap e :
  (forall a b, digest a = digest b -> a = b) -> (forall a, digest a <> "") -> (forall t, enum t ≡ₚ map_to_list t) ->
  Replay digest enum repo head revisions = Ok snap -> e ∈ s_Entries snap ->
  exists p, ID (e_Object e) = oid digest repo (CreatedRevision (e_Object e)) p /\
  ((CreatedRevision (e_Object e) = 0%Z /\ FirstCommitter (e_Object e) = "" /\ p = "/") \/
   exists rev, rev ∈ revisions /\ r_Number rev = CreatedRevision (e_Object e) /\
               r_Author rev = FirstCommitter (e_Object e)).
Proof.
  intros Hinj Hne Hperm H He. apply Replay_sound in H as (s & dn & (_ & Hb & _) & Hin & ->); [|done..].
  apply entries_elem in He as (p & o & Hp & _ & ->); [|done]. destruct (Hb p o Hp) as (q & Hid & Hcase).
  exists q. split; [done|]. destruct Hcase as [?|(r & Hr & ?)]; [by left|]. right. exists r. split; [by apply Hin|done].
Qed.

(** ** A concrete log: alice adds a file, bob moves it, carol re-adds the name *)
Module OwnershipDemo.

Definition digest (s : string) : string := "h" ++ s.
Definition enum (t : tree) : list (string * Object) := map_to_list t.
Definition log : list Revision :=
  [MkRevision 1 "alice" [MkChange "/a" "A" "file" "" 0];
   MkRevision 2 "bob" [MkChange "/a" "D" "" "" 0; MkChange "/b" "A" "file" "/a" 1];
   MkRevision 3 "carol" [MkChange "/a" "A" "file" "" 0]].

Lemma digest_inj a b : digest a = digest b -> a = b.
Proof. intros E. by apply sapp_inj_l in E. Qed.

Lemma digest_nonempty a : digest a <> "".
Proof. discriminate. Qed.

Definition result : Snapshot :=
  MkSnapshot 3 [MkEntry "a" (newObject digest "repo" 3 "carol" "/a" "file");
                MkEntry "b" (newObject digest "repo" 1 "alice" "/a" "file")].

Lemma ownership_ids_unique_witness : NoDup (map (fun e => ID (e_Object e)) (s_Entries result)).
Proof.
  apply (ownership_ids_unique digest enum "repo" 3 log result digest_inj digest_nonempty).
  - intros t. reflexivity.
  - vm_compute. reflexivity.
Defined.

Lemma ownership_first_committer_witness : exists rev, rev ∈ log /\ r_Author rev = "alice".
Proof.
  destruct (ownership_first_committer digest enum "repo" 3 log result
    (MkEntry "b" (newObject digest "repo" 1 "alice" "/a" "file")) digest_inj digest_nonempty) as (p & _ & [(H & _)|(rev & H1 & _ & H2)]).
  - intros t. reflexivity.
  - vm_compute. reflexivity.
  - right. left.
  - discriminate H.
  - exists rev. split; [exact H1|exact H2].
Defined.

End OwnershipDemo.
