(* ===== verification/Reducer.v ===== *)
(** * Reducer: the decisions of the desktop client's state machine

    Models the parts of src/internal/gui/app/reducer.go that decide something:
    the first-seen order of repositories and servers, the event sequence, the
    pending actions and their confirmation barrier, the aggregation of
    reservation sources, the hiding of detached servers, and the tray icon of
    src/internal/gui/app/model.go.  Records carry the fields these functions
    read; the copying of the remaining presentation fields is not modelled. *)
From S2P Require Import Prelude GoStrings.
From Stdlib Require Import Ascii String.

Open Scope string_scope.

(** ** Data *)
Record RepoSummary := MkSummary {
  sum_ID : string; sum_ServerID : string; sum_Attached : bool; sum_ServerDeleted : bool;
  sum_RecoveryAvailable : bool; sum_RecoveryPending : bool;
  sum_LifecycleOperationID : string; sum_LifecycleError : string
}.

Record RepoStatus := MkStatus { st_RepoID : string; st_ServerID : string; st_RenameUncertain : Z }.

Record Activation := MkActivation { act_ServerID : string; act_SessionTimeoutMin : Z }.

Inductive Phase := ActionRunning | ActionAwaitingProjection.

Record PendingAction := MkAction {
  pa_ID : string; pa_Kind : string; pa_RepoID : string; pa_ServerID : string; pa_Label : string;
  pa_Phase : Phase; pa_StartedAt : Time;
  pa_ExpectedSessionTimeoutMin : Z;
  pa_ExpectedRepoAttached : bool; pa_ExpectedRepoDetached : bool; pa_ExpectedRepoDeleted : bool;
  pa_ExpectedIntentsResolved : bool; pa_ExpectedRecoveryDismissed : bool;
  pa_ExpectedLocalProjectionDismissed : bool;
  pa_ExpectedLifecycleOperationID : string;
  pa_ReservationDelta : Z; pa_BaselineReservations : Z; pa_BaselineReservationsKnown : bool
}.

Record appState := MkState {
  connected : bool;
  stale : bool;
  summaries : gmap string RepoSummary;
  snapshots : gmap string RepoStatus;
  order : list string;
  serverOrder : list string;
  lastSeq : Z;
  activations : list Activation;
  repoReservations : gmap string Z;
  serverReservationsKnown : gmap string bool;
  pendingActions : gmap string PendingAction;
  pendingActionOrder : list string
}.

Definition newAppState : appState := MkState false false ∅ ∅ [] [] 0 [] ∅ ∅ ∅ [].

Definition reservationKey (serverID repoID : string) : string :=
  serverID ++ String (ascii_of_nat 0) EmptyString ++ repoID.

(** ** Inventory *)

(** Append the new identifiers, in the order they come. *)
Fixpoint remember (known : gset string) (acc ids : list string) : list string :=
  match ids with
  | [] => acc
  | id :: rest => if bool_decide (id ∈ known) then remember known acc rest
                  else remember ({[id]} ∪ known) (acc ++ [id])%list rest
  end.

Definition applyRepoList (repos : list RepoSummary) (s : appState) : appState :=
  MkState (connected s) (stale s)
    (fold_left (fun m r => <[sum_ID r := r]> m) repos ∅) (snapshots s)
    (remember (list_to_set (order s)) (order s) (map sum_ID repos)) (serverOrder s) (lastSeq s) (activations s)
    (repoReservations s) (serverReservationsKnown s) (pendingActions s) (pendingActionOrder s).

(** [rememberServerOrder]: empty identifiers are skipped. *)
Definition rememberServerOrder (acts : list Activation) (repos : list RepoSummary) (statuses : list RepoStatus)
    (s : appState) : appState :=
  let ids := List.filter (fun id => negb (bool_decide (id = "")))
               (map act_ServerID acts ++ map sum_ServerID repos ++ map st_ServerID statuses)%list in
  MkState (connected s) (stale s) (summaries s) (snapshots s) (order s)
    (remember (list_to_set (serverOrder s)) (serverOrder s) ids) (lastSeq s) (activations s)
    (repoReservations s) (serverReservationsKnown s) (pendingActions s) (pendingActionOrder s).

(** ** Events *)
Record Event := MkEvent { ev_Sequence : Z; ev_Type : string; ev_RepoID : string }.

Definition aggregateEvent (ty : string) : bool :=
  bool_decide (ty = "notice.created") || bool_decide (ty = "public_shares.changed")
  || bool_decide (ty = "lock_release.changed").

Definition withLastSeq (n : Z) (s : appState) : appState :=
  MkState (connected s) (stale s) (summaries s) (snapshots s) (order s) (serverOrder s) n (activations s)
    (repoReservations s) (serverReservationsKnown s) (pendingActions s) (pendingActionOrder s).

(** The new state, whether a full resynchronisation is needed, and the
    repository to refresh. *)
Definition applyEvent (ev : Event) (s : appState) : appState * bool * string :=
  let gap := (0 <? lastSeq s)%Z && negb (ev_Sequence ev =? lastSeq s + 1)%Z in
  let s := if (lastSeq s <? ev_Sequence ev)%Z then withLastSeq (ev_Sequence ev) s else s in
  if gap then (s, true, "")
  else if aggregateEvent (ev_Type ev) then (s, false, "")
  else (s, false, ev_RepoID ev).

(** ** Pending actions *)
Definition withActions (m : gmap string PendingAction) (o : list string) (s : appState) : appState :=
  MkState (connected s) (stale s) (summaries s) (snapshots s) (order s) (serverOrder s) (lastSeq s) (activations s)
    (repoReservations s) (serverReservationsKnown s) m o.

Definition setPhase (ph : Phase) (a : PendingAction) : PendingAction :=
  MkAction (pa_ID a) (pa_Kind a) (pa_RepoID a) (pa_ServerID a) (pa_Label a) ph (pa_StartedAt a)
    (pa_ExpectedSessionTimeoutMin a) (pa_ExpectedRepoAttached a) (pa_ExpectedRepoDetached a) (pa_ExpectedRepoDeleted a)
    (pa_ExpectedIntentsResolved a) (pa_ExpectedRecoveryDismissed a) (pa_ExpectedLocalProjectionDismissed a)
    (pa_ExpectedLifecycleOperationID a) (pa_ReservationDelta a) (pa_BaselineReservations a) (pa_BaselineReservationsKnown a).

Definition startPendingAction (a : PendingAction) (s : appState) : appState :=
  if bool_decide (pa_ID a = "") then s
  else withActions (<[pa_ID a := setPhase ActionRunning a]> (pendingActions s))
         (match pendingActions s !! pa_ID a with
          | Some _ => pendingActionOrder s
          | None => (pendingActionOrder s ++ [pa_ID a])%list
          end) s.

Fixpoint deleteAll (ids : list string) (m : gmap string PendingAction) : gmap string PendingAction :=
  match ids with [] => m | id :: rest => deleteAll rest (delete id m) end.

Definition finishPendingActions (ids : list string) (s : appState) : appState :=
  if bool_decide (ids = []) || bool_decide (pendingActions s = ∅) then s
  else withActions (deleteAll ids (pendingActions s))
         (List.filter (fun id => negb (bool_decide (id ∈ ids))) (pendingActionOrder s)) s.

Definition awaitPendingAction (id : string) (s : appState) : appState :=
  match pendingActions s !! id with
  | None => s
  | Some a =>
      if negb (pa_ReservationDelta a =? 0)%Z && negb (pa_BaselineReservationsKnown a) then finishPendingActions [id] s
      else withActions (<[id := setPhase ActionAwaitingProjection a]> (pendingActions s)) (pendingActionOrder s) s
  end.

(** The expectations of [confirmPendingActions], in the order they are tested. *)
Definition projected (s : appState) (a : PendingAction) : bool :=
  let summary := summaries s !! pa_RepoID a in
  let foreign (r : RepoSummary) := negb (bool_decide (sum_ServerID r = pa_ServerID a)) in
  if (0 <? pa_ExpectedSessionTimeoutMin a)%Z then
    existsb (fun act => bool_decide (act_ServerID act = pa_ServerID a)
                        && (act_SessionTimeoutMin act =? pa_ExpectedSessionTimeoutMin a)%Z) (activations s)
  else if pa_ExpectedRepoDeleted a then
    match summary with None => true | Some r => foreign r || sum_ServerDeleted r end
  else if pa_ExpectedRecoveryDismissed a then
    match summary with None => true | Some r => foreign r || (negb (sum_RecoveryAvailable r) && negb (sum_RecoveryPending r)) end
  else if pa_ExpectedLocalProjectionDismissed a then
    match summary with None => true | Some r => foreign r end
  else if negb (bool_decide (pa_ExpectedLifecycleOperationID a = "")) then
    match summary with
    | None => true
    | Some r => foreign r || negb (bool_decide (sum_LifecycleOperationID r = pa_ExpectedLifecycleOperationID a))
                || negb (bool_decide (sum_LifecycleError r = ""))
    end
  else if pa_ExpectedRepoAttached a then
    match summary with None => false | Some r => negb (foreign r) && sum_Attached r end
  else if pa_ExpectedRepoDetached a then
    match summary with None => false | Some r => negb (foreign r) && negb (sum_Attached r) end
  else if pa_ExpectedIntentsResolved a then
    match snapshots s !! pa_RepoID a with
    | None => false
    | Some st => bool_decide (st_ServerID st = pa_ServerID a) && (st_RenameUncertain st =? 0)%Z
    end
  else if (pa_ReservationDelta a =? 0)%Z then true
  else if negb (default false (serverReservationsKnown s !! pa_ServerID a)) then false
  else
    let current := default 0%Z (repoReservations s !! reservationKey (pa_ServerID a) (pa_RepoID a)) in
    negb (pa_BaselineReservationsKnown a)
    || ((0 <? pa_ReservationDelta a)%Z && (pa_BaselineReservations a <? current)%Z)
    || ((pa_ReservationDelta a <? 0)%Z && (current <? pa_BaselineReservations a)%Z).

Fixpoint splitIds (s : appState) (ids : list string) : list string * list string :=
  match ids with
  | [] => ([], [])
  | id :: rest =>
      let '(confirmed, waiting) := splitIds s rest in
      match pendingActions s !! id with
      | None => (confirmed, waiting)
      | Some a => if projected s a then (id :: confirmed, waiting) else (confirmed, id :: waiting)
      end
  end.

Definition confirmPendingActions (ids : list string) (s : appState) : appState * list string :=
  let '(confirmed, waiting) := splitIds s ids in (finishPendingActions confirmed s, waiting).

Definition projectPendingActions (s : appState) : list PendingAction :=
  omap (fun id => pendingActions s !! id) (pendingActionOrder s).

(** ** Reservation sources *)
Inductive SourceState := Fresh | Stale | Offline | Detached | Unknown.

#[export] Instance SourceState_eq_dec : EqDecision SourceState.
Proof. solve_decision. Defined.

Record Source := MkSource { src_State : SourceState; src_AsOf : Time }.

(** The loop: state so far, whether a source answered, the oldest stamp. *)
Fixpoint aggregateLoop (state : SourceState) (answered : bool) (oldest : Time) (sources : list Source)
    : SourceState * bool * Time :=
  match sources with
  | [] => (state, answered, oldest)
  | x :: rest =>
      match src_State x with
      | Unknown => aggregateLoop state answered oldest rest
      | st =>
          let state := match st with
                       | Offline => Offline
                       | Stale => if bool_decide (state = Fresh) then Stale else state
                       | _ => state
                       end in
          let oldest := if negb (IsZero (src_AsOf x)) && (IsZero oldest || Before (src_AsOf x) oldest)
                        then src_AsOf x else oldest in
          aggregateLoop state true oldest rest
      end
  end.

(** The state, and the stamp shown ([None] for the empty string). *)
Definition aggregateReservationProjection (sources : list Source) (known : bool) : SourceState * option Time :=
  if negb known then (Unknown, None)
  else match sources with
       | [] => (Fresh, None)
       | _ =>
           let '(state, answered, oldest) := aggregateLoop Fresh false 0%Z sources in
           if negb answered then (Unknown, None)
           else if IsZero oldest then (state, None)
           else (state, Some oldest)
       end.

(** ** Hiding detached servers *)
Record ServerView := MkServer { sv_ID : string; sv_Detached : bool }.
Record RepoView := MkRepo { rv_ID : string; rv_ServerID : string }.

Definition withoutDetached (servers : list ServerView) : list ServerView :=
  List.filter (fun s => negb (sv_Detached s)) servers.

Definition reposOfListedServers (repos : list RepoView) (servers : list ServerView) : list RepoView :=
  let listed : gset string := list_to_set (map sv_ID servers) in
  List.filter (fun r => negb (negb (bool_decide (rv_ServerID r = "")) && negb (bool_decide (rv_ServerID r ∈ listed)))) repos.

(** ** The tray icon *)
Inductive IconState := IconActive | IconBusy | IconOffline | IconError | IconShout | IconDisconnected.

Definition iconPriority (s : IconState) : nat :=
  match s with IconError => 3 | IconOffline => 2 | IconBusy => 1 | _ => 0 end.

Fixpoint worstIcon (best : IconState) (icons : list IconState) : IconState :=
  match icons with
  | [] => best
  | icon :: rest => worstIcon (if (iconPriority best <? iconPriority icon)%nat then icon else best) rest
  end.

(** [aggregateIcon] over the icons of the repositories. *)
Definition aggregateIcon (connected : bool) (icons : list IconState) (notices : Z) : IconState :=
  if negb connected then IconDisconnected
  else if (0 <? notices)%Z then IconShout
  else worstIcon IconActive icons.

(** ** Pending actions: the order lists every pending action once *)
Record actionsOk (s : appState) : Prop := {
  ao_NoDup : NoDup (pendingActionOrder s);
  ao_dom : forall id, id ∈ pendingActionOrder s <-> is_Some (pendingActions s !! id)
}.

Lemma deleteAll_lookup ids m id : deleteAll ids m !! id = if bool_decide (id ∈ ids) then None else m !! id.
Proof.
  revert m. induction ids as [|x ids IH]; intros m; cbn [deleteAll]; [done|]. rewrite IH.
  destruct (decide (id = x)) as [->|Hne].
  - rewrite (bool_decide_eq_true_2 (x ∈ x :: ids)) by by left. rewrite lookup_delete_eq. by case_bool_decide.
  - rewrite lookup_delete_ne by done. repeat case_bool_decide; set_solver.
Qed.

Lemma finish_lookup ids s id :
  pendingActions (finishPendingActions ids s) !! id = if bool_decide (id ∈ ids) then None else pendingActions s !! id.
Proof.
  unfold finishPendingActions. destruct (bool_decide (ids = [])) eqn:H1; bool_to_prop; cbn [orb].
  - subst ids. by rewrite bool_decide_eq_false_2 by set_solver.
  - destruct (bool_decide (pendingActions s = ∅)) eqn:H2; bool_to_prop.
    + rewrite H2, lookup_empty. by case_bool_decide.
    + apply deleteAll_lookup.
Qed.

Lemma finish_ok ids s : actionsOk s -> actionsOk (finishPendingActions ids s).
Proof.
  intros [H1 H2].
  assert (pendingActions s = ∅ -> pendingActionOrder s = []) as Hempty.
  { intros He. destruct (pendingActionOrder s) as [|x l]; [done|]. exfalso.
    destruct (H2 x) as [Hx _]. destruct Hx as [a Ha]; [by left|]. by rewrite He, lookup_empty in Ha. }
  split.
  - unfold finishPendingActions. destruct (_ || _); [done|]. cbn.
    apply NoDup_ListNoDup, List.NoDup_filter. by apply NoDup_ListNoDup.
  - intros id. rewrite finish_lookup. unfold finishPendingActions.
    destruct (bool_decide (ids = [])) eqn:E1; bool_to_prop; cbn [orb].
    { subst ids. by rewrite bool_decide_eq_false_2 by set_solver. }
    destruct (bool_decide (pendingActions s = ∅)) eqn:E2; bool_to_prop; cbn.
    { rewrite Hempty, E2, lookup_empty by done. split; [set_solver|]. case_bool_decide; by intros [? ?]. }
    rewrite list_elem_of_In, List.filter_In, <- list_elem_of_In, H2. case_bool_decide as Hin; cbn.
    + split; [by intros [_ ?]|by intros [? ?]].
    + split; [by intros [? _]|auto].
Qed.

Lemma start_ok a s : actionsOk s -> actionsOk (startPendingAction a s).
Proof.
  intros [H1 H2]. unfold startPendingAction. destruct (bool_decide _); [done|].
  destruct (pendingActions s !! pa_ID a) as [old|] eqn:Ho; split; cbn.
  - done.
  - intros id. rewrite H2. destruct (decide (id = pa_ID a)) as [->|Hne].
    + rewrite lookup_insert_eq, Ho. by split; eauto.
    + by rewrite lookup_insert_ne.
  - apply NoDup_app. split_and!; [done| |apply NoDup_singleton].
    intros x Hx ->%list_elem_of_singleton. apply H2 in Hx as [? ?]. congruence.
  - intros id. rewrite elem_of_app, list_elem_of_singleton, H2. destruct (decide (id = pa_ID a)) as [->|Hne].
    + rewrite lookup_insert_eq. split; eauto.
    + rewrite lookup_insert_ne by done. naive_solver.
Qed.

Lemma await_ok id s : actionsOk s -> actionsOk (awaitPendingAction id s).
Proof.
  intros Hs. unfold awaitPendingAction. destruct (pendingActions s !! id) as [a|] eqn:Ha; [|done].
  destruct (_ && _); [by apply finish_ok|]. destruct Hs as [H1 H2]. split; cbn; [done|]. intros x. rewrite H2.
  destruct (decide (x = id)) as [->|Hne]; [rewrite lookup_insert_eq, Ha; by split; eauto|by rewrite lookup_insert_ne].
Qed.

Lemma splitIds_spec s ids c w : splitIds s ids = (c, w) ->
  (forall id, id ∈ c <-> id ∈ ids /\ exists a, pendingActions s !! id = Some a /\ projected s a = true) /\
  w = List.filter (fun id => match pendingActions s !! id with Some a => negb (projected s a) | None => false end) ids.
Proof.
  revert c w. induction ids as [|x ids IH]; intros c w H; cbn [splitIds] in H.
  - injection H as <- <-. split; [|done]. intros id. split; [by intros ?%elem_of_nil|by intros [?%elem_of_nil _]].
  - destruct (splitIds s ids) as [c' w'] eqn:Hs. destruct (IH c' w' eq_refl) as [Hc Hw]. cbn [List.filter].
    destruct (pendingActions s !! x) as [a|] eqn:Hx; [destruct (projected s a) eqn:Hp|]; injection H as <- <-; cbn [negb];
      (split; [|by rewrite Hw]); intros id; rewrite ?elem_of_cons, Hc; split.
    + intros [->|[? ?]]; eauto.
    + intros [[->|?] ?]; eauto.
    + intros [? ?]. auto.
    + intros [[->|?] (b & Hb & Hpb)]; [congruence|eauto].
    + intros [? ?]. auto.
    + intros [[->|?] (b & Hb & Hpb)]; [congruence|eauto].
Qed.

(** The confirmation barrier: after an authoritative refresh, exactly the
    finished actions whose expected effect the new projection shows leave the
    screen; every other pending action stays, with the ones still waiting
    reported in order; and the list of pending actions keeps showing each of
    them once. *)
Theorem confirm_barrier ids s s' waiting : actionsOk s -> confirmPendingActions ids s = (s', waiting) ->
  (forall id a, pendingActions s' !! id = Some a <->
     pendingActions s !! id = Some a /\ (id ∉ ids \/ projected s a = false)) /\
  waiting = List.filter (fun id => match pendingActions s !! id with Some a => negb (projected s a) | None => false end) ids /\
  actionsOk s' /\ (forall a, a ∈ projectPendingActions s' <-> exists id, pendingActions s' !! id = Some a).
Proof.
  intros Hs H. unfold confirmPendingActions in H. destruct (splitIds s ids) as [c w] eqn:Hsp. injection H as <- <-.
  apply splitIds_spec in Hsp as [Hc Hw]. assert (actionsOk (finishPendingActions c s)) as Hok by by apply finish_ok.
  split_and!; [|done|done|].
  - intros id a. rewrite finish_lookup. case_bool_decide as Hin; rewrite Hc in Hin.
    + split; [done|]. intros [Ha [Hn|Hp]]; [by destruct Hin|]. destruct Hin as (_ & b & Hb & Hpb). congruence.
    + split; [|by intros [? _]]. intros Ha. split; [done|]. destruct (decide (id ∈ ids)); [|by left]. right.
      destruct (projected s a) eqn:Hp; [|done]. destruct Hin. eauto.
  - intros a. unfold projectPendingActions. rewrite list_elem_of_omap. split; [by intros (id & _ & ?); eauto|].
    intros [id Ha]. exists id. split; [|done]. apply (ao_dom _ Hok). eauto.
Qed.

(** ** Events *)
Fixpoint applyEvents (evs : list Event) (s : appState) : appState * bool :=
  match evs with
  | [] => (s, false)
  | ev :: rest =>
      let '(s1, resync, _) := applyEvent ev s in
      let '(s2, more) := applyEvents rest s1 in (s2, resync || more)
  end.

(** No event is lost unnoticed: once a first event has been seen, a run of
    events that never asks for a resynchronisation carries exactly the next
    consecutive sequence numbers, and one that asks for none while an event is
    missing, repeated or reordered does not exist; the last number never goes
    back. *)
Theorem events_gapless evs s s' : (0 < lastSeq s)%Z -> applyEvents evs s = (s', false) ->
  map ev_Sequence evs = map (fun i => lastSeq s + 1 + Z.of_nat i)%Z (seq 0 (List.length evs)) /\
  lastSeq s' = (lastSeq s + Z.of_nat (List.length evs))%Z.
Proof.
  revert s. induction evs as [|ev evs IH]; intros s Hpos H; cbn [applyEvents] in H.
  - injection H as <-. cbn. split; [done|lia].
  - destruct (applyEvent ev s) as [[s1 resync] dirty] eqn:He. destruct (applyEvents evs s1) as [s2 more] eqn:Hr.
    injection H as <- Hno. apply orb_false_iff in Hno as [-> ->].
    assert (ev_Sequence ev = lastSeq s + 1 /\ lastSeq s1 = lastSeq s + 1)%Z as [Hs Hl].
    { unfold applyEvent in He. destruct (Z.ltb_spec 0 (lastSeq s)); [|lia]. cbn [andb] in He.
      destruct (Z.eqb_spec (ev_Sequence ev) (lastSeq s + 1)) as [Heq|]; cbn [negb] in He; [|congruence].
      rewrite Heq in He. destruct (Z.ltb_spec (lastSeq s) (lastSeq s + 1)); [|lia].
      destruct (aggregateEvent (ev_Type ev)); injection He as <- _; cbn; lia. }
    apply IH in Hr as [Hm Hl']; [|lia]. split.
    + cbn [List.length seq map]. rewrite Hm, Hl, Hs. f_equal; [cbn; lia|].
      rewrite <- seq_shift, map_map. apply map_ext. intros i. lia.
    + rewrite Hl', Hl. cbn [List.length]. lia.
Qed.

(** ** Reservation sources *)
Definition answeredSrc (x : Source) : bool := negb (bool_decide (src_State x = Unknown)).

Definition worst (state : SourceState) (xs : list Source) : SourceState :=
  if existsb (fun x => bool_decide (src_State x = Offline)) xs || bool_decide (state = Offline) then Offline
  else if existsb (fun x => bool_decide (src_State x = Stale)) xs || bool_decide (state = Stale) then Stale
  else state.

Lemma aggregateLoop_state state answered oldest xs : (state = Fresh \/ state = Stale \/ state = Offline) ->
  fst (aggregateLoop state answered oldest xs) = (worst state xs, answered || existsb answeredSrc xs).
Proof.
  revert state answered oldest. induction xs as [|x xs IH]; intros state answered oldest Hst; cbn [aggregateLoop].
  - unfold worst. cbn. rewrite orb_false_r. by destruct Hst as [->|[->| ->]].
  - unfold worst, answeredSrc. cbn [existsb]. destruct (src_State x) eqn:Hx; cbv zeta; rewrite IH by (repeat case_bool_decide; naive_solver);
      unfold worst, answeredSrc; cbn [orb bool_decide]; destruct Hst as [->|[->| ->]]; cbn; rewrite ?orb_true_r; try done;
      by destruct (existsb _ xs), (existsb _ xs).
Qed.

(** The server-level freshness is the worst answered source: it is unknown
    exactly when the server is unknown or has sources and none of them answered;
    otherwise offline if an answered source is offline, else stale if one is
    stale, else fresh.  A source in the detached state counts as answered and
    never makes the aggregate worse than fresh. *)
Theorem aggregate_worst_answered sources known :
  fst (aggregateReservationProjection sources known) =
  if negb known then Unknown
  else if bool_decide (sources = []) then Fresh
  else if negb (existsb answeredSrc sources) then Unknown
  else if existsb (fun x => bool_decide (src_State x = Offline)) sources then Offline
  else if existsb (fun x => bool_decide (src_State x = Stale)) sources then Stale
  else Fresh.
Proof.
  unfold aggregateReservationProjection. destruct known; cbn [negb]; [|done].
  destruct sources as [|x xs]; [done|]. rewrite bool_decide_eq_false_2 by done.
  pose proof (aggregateLoop_state Fresh false 0%Z (x :: xs)) as H.
  destruct (aggregateLoop Fresh false 0%Z (x :: xs)) as [[state answered] oldest]. cbn [fst] in H.
  rewrite (pair_equal_spec state (worst Fresh (x :: xs)) answered) in H. destruct H as [-> ->]; [by left|].
  cbn [orb]. destruct (existsb answeredSrc (x :: xs)); cbn [negb]; [|done].
  unfold worst. rewrite !(bool_decide_eq_false_2 (Fresh = _)), !orb_false_r by done. by destruct (IsZero oldest).
Qed.

(** A server that refused this client is shown as fresh. *)
Lemma detached_reads_fresh t : aggregateReservationProjection [MkSource Detached t] true = (Fresh, if IsZero t then None else Some t).
Proof.
  unfold aggregateReservationProjection. cbn. destruct (IsZero t) eqn:Ht; cbn; [done|]. by rewrite Ht.
Qed.

(** ** Hiding detached servers, and the icon *)
Lemma hidden_servers repos servers r : r ∈ reposOfListedServers repos (withoutDetached servers) ->
  rv_ServerID r = "" \/ exists v, v ∈ servers /\ sv_ID v = rv_ServerID r /\ sv_Detached v = false.
Proof.
  unfold reposOfListedServers, withoutDetached. rewrite list_elem_of_In, List.filter_In. intros [_ Hb].
  apply negb_true_iff, andb_false_iff in Hb as [Hb|Hb]; bool_to_prop; [by left|]. right.
  apply elem_of_list_to_set, list_elem_of_fmap in Hb as (v & Hv & Hin).
  apply list_elem_of_In, List.filter_In in Hin as [Hin Hd]. bool_to_prop. exists v. by rewrite list_elem_of_In.
Qed.

Lemma worstIcon_bound best icons : iconPriority best <= iconPriority (worstIcon best icons) /\
  (forall i, i ∈ icons -> iconPriority i <= iconPriority (worstIcon best icons)) /\
  (worstIcon best icons = best \/ worstIcon best icons ∈ icons).
Proof.
  revert best. induction icons as [|i icons IH]; intros best; cbn [worstIcon].
  - split; [done|]. split; [intros i Hi; by apply elem_of_nil in Hi|by left].
  - destruct (Nat.ltb_spec (iconPriority best) (iconPriority i));
      [destruct (IH i) as (H1 & H2 & H3)|destruct (IH best) as (H1 & H2 & H3)].
    + split_and!; [lia| |].
      * intros j [->|Hj]%elem_of_cons; [done|auto].
      * right. destruct H3 as [->|H3]; [by left|by right].
    + split_and!; [done| |].
      * intros j [->|Hj]%elem_of_cons; [lia|auto].
      * destruct H3 as [->|H3]; [by left|right; by right].
Qed.

(** The tray icon shows the worst repository: a client without a connection
    shows only that, unread notices come next, and otherwise the icon is that of
    some listed repository (or the calm one) and no repository has a more urgent
    one. *)
Theorem icon_worst connected icons notices :
  (connected = false -> aggregateIcon connected icons notices = IconDisconnected) /\
  (connected = true -> (0 < notices)%Z -> aggregateIcon connected icons notices = IconShout) /\
  (connected = true -> (notices <= 0)%Z ->
     (aggregateIcon connected icons notices = IconActive \/ aggregateIcon connected icons notices ∈ icons) /\
     forall i, i ∈ icons -> iconPriority i <= iconPriority (aggregateIcon connected icons notices)).
Proof.
  unfold aggregateIcon. split_and!.
  - by intros ->.
  - intros -> Hn. cbn. by destruct (Z.ltb_spec 0 notices); [|lia].
  - intros -> Hn. cbn. destruct (Z.ltb_spec 0 notices); [lia|].
    destruct (worstIcon_bound IconActive icons) as (_ & H2 & H3). done.
Qed.

(** ** Concrete inputs *)
Definition sampleAction : PendingAction :=
  MkAction "a1" "detach" "r" "srv" "" ActionRunning 0%Z 0%Z false true false false false false "" 0%Z 0%Z false.
Definition sampleState : appState := startPendingAction sampleAction
  (applyRepoList [MkSummary "r" "srv" false false false false "" ""] newAppState).

Lemma sample_ok : actionsOk sampleState.
Proof. apply start_ok. split; [constructor|]. intros id. cbn. rewrite lookup_empty. split; [by intros ?%elem_of_nil|by intros [? ?]]. Qed.

Lemma confirm_barrier_witness : pendingActions (fst (confirmPendingActions ["a1"] sampleState)) !! "a1" = None.
Proof.
  destruct (confirm_barrier ["a1"] sampleState (fst (confirmPendingActions ["a1"] sampleState))
              (snd (confirmPendingActions ["a1"] sampleState)) sample_ok) as [H _].
  - vm_compute. reflexivity.
  - destruct (pendingActions (fst (confirmPendingActions ["a1"] sampleState)) !! "a1") as [a|] eqn:E; [|reflexivity].
    destruct (proj1 (H "a1" a) E) as [Ha [Hn|Hp]]; [destruct Hn; by left|].
    assert (pendingActions sampleState !! "a1" = Some sampleAction) as Hs by (vm_compute; reflexivity).
    rewrite Hs in Ha. injection Ha as <-. vm_compute in Hp. discriminate Hp.
Defined.

Definition at5 : appState := withLastSeq 5 newAppState.
Definition evs67 : list Event := [MkEvent 6 "repo.changed" "r"; MkEvent 7 "notice.created" ""].

Lemma events_gapless_witness : lastSeq (fst (applyEvents evs67 at5)) = 7%Z.
Proof.
  destruct (events_gapless evs67 at5 (fst (applyEvents evs67 at5))) as [_ H].
  - reflexivity.
  - reflexivity.
  - exact H.
Defined.

Lemma icon_worst_witness : aggregateIcon true [IconBusy; IconError] 0 ∈ [IconBusy; IconError].
Proof.
  destruct (icon_worst true [IconBusy; IconError] 0) as (_ & _ & H).
  destruct H as [[H|H] _].
  - reflexivity.
  - discriminate.
  - discriminate H.
  - exact H.
Defined.
